(* ===== verification/_CoqProject ===== *)
-Q . S2P
Prelude.v
Lts.v
BoundedQueue.v
QueueSystem.v
QueueTheorems.v
QueueSpec.v
Qos.v
TopicBus.v
BusSystem.v
BusInvariants.v
BusFlow.v
BusOrder.v
BusScheduler.v
BusDelivery.v
BusSerial.v
BusReliable.v
BusStop.v
BusLiveness.v
BusSpec.v
BusShutdown.v
BusDrain.v
BusIdle.v
BusTheorems.v
BusFindings.v
BusErrors.v
Bytes.v
Header.v
Framing.v
Doubles.v
Decimal.v
Format.v
Rounding.v
Histogram.v
Percentiles.v
Summary.v
SpscRing.v
BufferPool.v
BufferData.v
TaskQueue.v
ThreadPool.v
Futures.v
Time.v
Args.v
BenchQueue.v
BenchQueueInv.v
BenchQueueLive.v
BenchQueueBound.v
BenchQueueTheorems.v
BenchRing.v
BenchRingFair.v
BenchBus.v
BenchOrder.v
BenchBuffers.v
BenchScheduler.v
BenchComplete.v
BenchEnd.v
BenchTheorems.v
Reports.v
Testing.v
UnitTests.v
ThreadUnitTests.v
BusUnitTests.v
