(* ===== verification/Prelude.v ===== *)
(** * The rdb message bus: a verification development

    The program (code/include/rdb/ under src/) is a header-only C++20 library: a
    publish/subscribe data bus inside one process, with the pieces it is made of.

    - [bounded_queue.h]: a blocking queue with a capacity and an overflow policy;
    - [topic_bus.h]: topics, publishers and subscriptions.  A publish selects the
      subscriptions whose QoS it satisfies, then pushes one shared envelope into
      each one's [BoundedQueue]; one thread per subscription pops envelopes and
      calls the user's callback; [unsubscribe] and [shutdown] close the queues and
      join the threads;
    - [qos.h]: the QoS record, its presets and the offered/requested check;
    - [msg/header.h], [transport/framing.h]: the 48-byte message header and the
      length-prefixed frames a byte stream is cut into;
    - [metrics/histogram.h]: the log-linear latency histogram;
    - [spsc_ring.h]: a lock-free single-producer single-consumer ring;
    - [buffer_pool.h]: a pool of buffers behind shared handles;
    - [thread_pool.h]: worker threads over a [BoundedQueue] of tasks;
    - [common/time.h]: clocks, conversions and the fixed-rate [Ticker];
    - [testing/check.h]: a small test framework.

    Two programs use them (code/bench/): [bench_queue_throughput.cpp] drives a
    [BoundedQueue] and an [SpscRing], [bench_bus_latency.cpp] publishes pooled
    buffers on a [TopicBus] at the beat of a [Ticker]; [args.h] reads their command
    lines.

    ** How concurrency is modelled

    A component that threads share is a labelled transition system (class [LTS] of
    [Lts], with its runs and, through class [Scheduler], an executable scheduler
    that the witnesses run).  Code that holds a mutex is one Definition, the
    _section_ of that operation, and one step: the mutex makes it atomic.  An
    operation that takes several sections, or that sleeps, is a thread with a
    program point, and every interleaving of sections is a run.  A condition
    variable wakes one sleeper (any one), all of them, or one for no reason; a
    deadline may pass at any tick of the clock.  An atomic read-modify-write is one
    step.  The acquire load of the ring may return any value stored since the last
    one this thread saw (a stale one included), which is all that release/acquire
    promises; relaxed loads are of the thread's own variable.

    ** Files

    - [Prelude]: words ([wrap], [u16], [u32], [u64], the scope [rdb_scope]), time
      points, lists ([countb], permutations), the hint databases [rdb] and
      [rdb_len] and the tactics.  [Lts]: classes [LTS] and
      [Scheduler], runs, invariants by rule induction, refinement, soundness of [exec].
    - [BoundedQueue]: the members of the queue and the sections of [push_until],
      [pop_until] (and [push], [push_for], [try_push], ...), [close], [clear];
      the shape of every section and the invariant [queue_wf].  [QueueSystem]:
      threads sharing a queue, with both condition variables, deadlines and
      spurious wake-ups; its scheduler.  [QueueTheorems]: its properties.
      [QueueSpec]: the specification, a list with atomic operations, and the
      refinement mapping: the queue is linearizable, and leaves asleep only callers
      whose operation is not possible.
    - [Qos]: [QoS], presets, [check_compatible], the strings; [rxo] is the rule
      in words.
    - [TopicBus]: the members of the bus, of an entry and of a subscription, and the
      sections of [advertise], [subscribe], [unsubscribe], [shutdown],
      [publish_erased], [deliver_loop].  [BusSystem]: clients calling the bus and the
      worker threads, as steps; the subscription queues are the sections of
      [BoundedQueue].  The invariants, by rule induction: [BusInvariants], [BusFlow]
      (conservation of envelopes), [BusOrder] (sequence numbers and origins),
      [BusDelivery] (queue order and callbacks), [BusReliable] (no loss, and what a
      publish reports), [BusStop] (detaching and joining), [BusLiveness] (publishes
      come back, best effort), [BusSpec] (the specification of the bus, topics and
      mailboxes, and the refinement), [BusShutdown] (workers drain their queues,
      [stop_subscription] and the destructor return), [BusDrain] (delivery by the
      worker alone), [BusIdle] (what [wait_for_idle] has seen when it returns).  [BusScheduler]: executable runs.  [BusSerial]: order under one
      publisher at a time. [BusTheorems]: the properties.  [BusErrors]: the calls that
      fail, and what they leave behind.  [BusFindings]: concrete runs of behaviour
      that differs from what the comments promise.
    - [Bytes], [Header]: byte stores and loads, little-endian values; encoding and
      decoding of the header, the schema fingerprint.  [Framing]: [encode_frame]
      and the incremental [FrameDecoder]; [stream] is the specification: what a
      whole byte string parses to.
    - [Doubles]: [double] as [SpecFloat]'s binary64, executable.  [Decimal],
      [Format]: numerals and the [printf] conversions in use, with bounds on the
      size of doubles and of their text.  [Rounding]: conversion, product and quotient
      of non-negative doubles are monotone.  [Histogram]: the histogram, its buckets,
      merge and percentiles.  [Percentiles]: their order and range.  [Summary]: its
      report line.
    - [SpscRing]: the ring, its producer's and consumer's program points.
    - [BufferPool]: the pool, the handles, their counts and the deleters; whether
      the pool is still there is part of the state.  [BufferData]: the bytes behind
      the handles; it refines a machine in which every handle owns its own array.
    - [TaskQueue]: the class that states what the thread pool needs of a queue,
      and its instance from [BoundedQueue].  [ThreadPool]: the pool and its
      theorems, against the class only.  [Futures]: [submit], its packaged tasks and
      their futures.
    - [Time]: clock readings, conversions, the [Ticker].  [Args]: the scans of
      [argv].  [Testing]: checks as computations that return or throw, the
      registry, [run_all].
    - [BenchQueue]: [run_bounded_queue], the threads of the program over the steps of
      [QueueSystem]; [BenchQueueInv], [BenchQueueLive]: its invariant and its
      progress; [BenchQueueTheorems], [BenchQueueBound]: its properties.  [BenchRing]:
      [run_spsc_ring] over the steps of [SpscRing]; a load of the counter that follows
      the load of [done] is fresh.  [BenchRingFair]: its infinite runs under a fair
      scheduler.
    - [BenchBus]: the program of bench_bus_latency.cpp over the steps of
      [BusSystem] and [BufferPool].  [BenchOrder]: its invariant (sequence numbers,
      statistics, accounts).  [BenchBuffers]: who can reach which buffer.
      [BenchScheduler]: executable runs.  [BenchComplete]: what has been handed to the
      bus, and what is left of it at the end.  [BenchEnd]: the way to the end from
      anywhere.  [BenchTheorems]: its properties.
      [Reports]: everything the two programs print.
    - [UnitTests], [ThreadUnitTests], [BusUnitTests]: the repository's own unit tests
      as computations of [Testing] over these definitions, and their run, in which
      they all pass.

    ** What is shown

    - The queue: it is linearizable; what went in is what came out plus what is in it,
      in order; no wake-up is lost; a sleeping producer and a sleeping consumer never
      face each other; [close] releases everybody; timeouts are real; counters are
      exact; the dropping policies never block.
    - The bus: it refines a set of topics with one atomic mailbox per subscription;
      every envelope destined to a subscription is accounted for, is
      delivered at most once, in queue order, on the right topic and with the right
      type; a reliable subscription loses nothing that was accepted, and publish
      reports whether all accepted; a publish comes back within the reliable
      timeout per target; QoS is applied exactly; [unsubscribe] is final; late
      joiners get the history; one publisher at a time is delivered in publication
      order; which calls fail is decided by the topic's type, and failures change
      nothing but their counter.  A worker delivers what is queued for it without
      anybody's help; [stop_subscription] and the destructor return and leave no
      thread behind, unless a [subscribe] was underway.  [wait_for_idle] returns true
      when it has seen every queue empty, one after the other.
    - Bytes: the header round-trips and decodes exactly what is well formed; the
      decoder, fed any chunks, yields what the whole stream parses to, in bounded
      memory; frames round-trip.
    - The histogram: each bucket brackets its values, merging is recording both
      lists, percentiles are what the samples say, to a bucket, and ordered, through
      all the rounding; its report line fits the buffer it is written to.
    - The ring is FIFO within its capacity, no slot is touched by both threads, and
      it refuses only when full or empty.
    - The pool: each buffer is in one place; handles outlive the pool; the bytes
      behind a handle are its own.
    - The thread pool: each task runs exactly once; the workers pop the tasks in the
      order of their acceptance, but may start them in another; [stop] drains and
      returns; the backlog is bounded; a future is answered by its task's only run, or broken.
    - The ticker keeps to its beat.  The command line is read back.  The test
      runner reports success exactly when every test returned.
    - The benchmarks, for every interleaving: the consumers get and count exactly what
      was sent, the messages of a writer in its order, and the programs can always end (the one over the blocking queue ends
      within a fixed number of steps, spurious wake-ups apart; the one over the bus
      needs the clock not to overflow).  The one over the ring, whose threads spin, ends
      in every infinite run that is fair to them and in which stores become visible in
      finite time.  No subscriber of the
      bus benchmark sees a message out of order, its counters add up, no buffer is
      reused under a message that somebody can still read, and when it returns every
      message has come to one end at every subscriber and no thread is left.

    ** Abstractions, bounds and fuel

    [size_t] and [uint64_t] are 64-bit and wrap; a time point is a signed 64-bit
    count of nanoseconds, and an overflowing sum ([tp_add]) is [None].  Callbacks,
    tasks and handlers are user code: a step of their own that changes nothing of
    the component; message payloads and types are opaque numbers.  A thread object
    stands for a thread that runs its function.  [Framing.drain] takes fuel
    [S (length buffer_)], enough because each frame frees at least eight bytes
    (the properties show that a drained decoder is empty of frames);
    [Framing.stream] uses [S (length l)] likewise.  Every other loop is
    structural.  Counting properties of the bus assume fewer than 2^64 steps, so
    that a sequence number does not wrap.  Allocation does not fail.

    ** Not modelled

    The three unit tests that move thousands of elements between threads (what they
    try under one schedule is proved for all) and the one that draws random numbers,
    the build files and the documents.  The user's data: a payload is an opaque
    number, except in [BenchBus], where it is a handle.  Two threads that join one
    [std::thread] object, which is undefined: the model lets the second go on
    ([BusFindings.both_join]).  The C library: [printf] is modelled as far as the
    source uses it, and how it spells NaN is a parameter.  In the ring, the memory of
    the slots is ordered by the modelled release/acquire pairs; the hardware below is
    not modelled.  Fairness is stated for the ring benchmark alone, whose
    threads spin: of the benchmark over the bus it is shown that it can end from
    anywhere, not that every fair schedule ends it. *)

From stdpp Require Export base tactics list gmap strings relations.
From Stdlib Require Export ZArith Lia Bool.
From Stdlib Require Export Strings.Byte.

#[global] Open Scope Z_scope.

(** ** Machine integers

    A [w]-bit unsigned integer is a [Z] in [0, 2^w); arithmetic on it wraps.
    [size_t] and [uint64_t] are both 64 bits wide (LP64 Linux, the platform of
    the build files). *)

Definition wrap (w z : Z) : Z := z `mod` 2 ^ w.

Definition fits (w z : Z) : Prop := 0 <= z < 2 ^ w.

Abbreviation u16 := (wrap 16).
Abbreviation u32 := (wrap 32).
Abbreviation u64 := (wrap 64).

Declare Scope rdb_scope.
Delimit Scope rdb_scope with rdb.
Notation "x +u y" := (u64 (x + y)) (at level 50, left associativity) : rdb_scope.
Notation "x -u y" := (u64 (x - y)) (at level 50, left associativity) : rdb_scope.
Notation "x *u y" := (u64 (x * y)) (at level 40, left associativity) : rdb_scope.
Open Scope rdb_scope.

(** The size of a container, as the [size_t] the code sees. *)
Definition zlen {A} (l : list A) : Z := Z.of_nat (length l).

(** [steady_clock::time_point]: a signed 64-bit count of nanoseconds. *)
Definition tp_max : Z := 2 ^ 63 - 1.
Definition tp_min : Z := - 2 ^ 63.

(** [time_point + duration] overflows as a signed addition does: undefined
    behaviour, [None]. *)
Definition tp_add (t d : Z) : option Z :=
  if (tp_min <=? t + d) && (t + d <=? tp_max) then Some (t + d) else None.

(** ** Automation *)

Create HintDb rdb discriminated.
Create Rewrite HintDb rdb.
Create Rewrite HintDb rdb_len.

Ltac case_bool :=
  match goal with
  | |- context [?a =? ?b] => destruct (Z.eqb_spec a b)
  | |- context [?a <? ?b] => destruct (Z.ltb_spec a b)
  | |- context [?a <=? ?b] => destruct (Z.leb_spec a b)
  | H : context [?a =? ?b] |- _ => destruct (Z.eqb_spec a b)
  | H : context [?a <? ?b] |- _ => destruct (Z.ltb_spec a b)
  | H : context [?a <=? ?b] |- _ => destruct (Z.leb_spec a b)
  end.

(** ** Word lemmas *)

Lemma fits_wrap w z : 0 <= w -> fits w (wrap w z).
Proof. intros Hw. unfold fits, wrap. apply Z.mod_pos_bound. lia. Qed.

Lemma wrap_small w z : fits w z -> wrap w z = z.
Proof. apply Z.mod_small. Qed.

Lemma wrap_wrap w z : wrap w (wrap w z) = wrap w z.
Proof. apply Zmod_mod. Qed.

Lemma wrap_add_l w x y : wrap w (wrap w x + y) = wrap w (x + y).
Proof. apply Zplus_mod_idemp_l. Qed.

Lemma wrap_add_r w x y : wrap w (x + wrap w y) = wrap w (x + y).
Proof. apply Zplus_mod_idemp_r. Qed.

Lemma wrap_sub_l w x y : wrap w (wrap w x - y) = wrap w (x - y).
Proof. apply Zminus_mod_idemp_l. Qed.

Lemma wrap_sub_r w x y : wrap w (x - wrap w y) = wrap w (x - y).
Proof. apply Zminus_mod_idemp_r. Qed.

Lemma wrap_mul_l w x y : wrap w (wrap w x * y) = wrap w (x * y).
Proof. apply Zmult_mod_idemp_l. Qed.

#[export] Hint Rewrite wrap_wrap wrap_add_l wrap_add_r wrap_sub_l wrap_sub_r wrap_mul_l : rdb.
#[export] Hint Resolve fits_wrap : rdb.

(** ** List lemmas *)

Lemma zlen_nonneg {A} (l : list A) : 0 <= zlen l.
Proof. unfold zlen. lia. Qed.

Lemma zlen_app {A} (l k : list A) : zlen (l ++ k) = zlen l + zlen k.
Proof. unfold zlen. rewrite length_app. lia. Qed.

Lemma zlen_cons {A} (x : A) l : zlen (x :: l) = zlen l + 1.
Proof. unfold zlen. simpl. lia. Qed.

Lemma zlen_nil {A} : zlen (@nil A) = 0.
Proof. reflexivity. Qed.

Lemma zlen_0 {A} (l : list A) : zlen l = 0 -> l = [].
Proof. destruct l; [done|]. rewrite zlen_cons. pose proof (zlen_nonneg l). lia. Qed.

#[export] Hint Rewrite @zlen_app @zlen_cons @zlen_nil : rdb_len.

(** [len] normalises sizes and closes the linear goals about them. *)
Ltac zlen_pos l :=
  lazymatch goal with
  | _ : 0 <= zlen l |- _ => fail
  | _ => pose proof (zlen_nonneg l)
  end.
Ltac zlens :=
  autorewrite with rdb_len in *;
  repeat match goal with
  | |- context [zlen ?l] => zlen_pos l
  | _ : context [zlen ?l] |- _ => zlen_pos l
  end.
Ltac len := zlens; lia.

Lemma fmap_sublist {A B} (f : A -> B) (l l' : list A) :
  l' `sublist_of` l -> f <$> l' `sublist_of` f <$> l.
Proof. induction 1; simpl; by constructor. Qed.

(** The number of elements that satisfy a boolean test. *)
Definition countb {A} (f : A -> bool) (l : list A) : nat := length (List.filter f l).

Lemma countb_app {A} (f : A -> bool) l k : countb f (l ++ k) = (countb f l + countb f k)%nat.
Proof. unfold countb. by rewrite List.filter_app, length_app. Qed.

Lemma countb_true {A} (l : list A) : countb (fun _ => true) l = length l.
Proof. unfold countb. induction l; simpl; congruence. Qed.

Lemma countb_cons {A} (f : A -> bool) x l :
  countb f (x :: l) = ((if f x then 1 else 0) + countb f l)%nat.
Proof. unfold countb. simpl. by destruct (f x). Qed.

Lemma countb_le_length {A} (f : A -> bool) l : (countb f l <= length l)%nat.
Proof. induction l as [|x l IH]; [done|]. rewrite countb_cons. simpl. destruct (f x); lia. Qed.

Lemma countb_nil {A} (f : A -> bool) : countb f [] = 0%nat.
Proof. done. Qed.

(** Replacing one element moves the count by that element's contribution. *)
Lemma countb_insert {A} (f : A -> bool) (l : list A) i x y :
  l !! i = Some x ->
  (countb f (<[i := y]> l) + (if f x then 1 else 0) = countb f l + (if f y then 1 else 0))%nat.
Proof.
  revert i. induction l as [|a l IH]; intros [|i] H; simplify_eq/=.
  - rewrite !countb_cons. destruct (f x), (f y); lia.
  - rewrite !countb_cons. specialize (IH i H). destruct (f a); lia.
Qed.

Lemma countb_pos {A} (f : A -> bool) (l : list A) i x :
  l !! i = Some x -> f x = true -> (0 < countb f l)%nat.
Proof.
  revert i. induction l as [|a l IH]; intros [|i] H Hf; simplify_eq/=; rewrite countb_cons.
  - rewrite Hf. lia.
  - specialize (IH i H Hf). lia.
Qed.

Lemma countb_pos_inv {A} (f : A -> bool) (l : list A) :
  (0 < countb f l)%nat -> exists i x, l !! i = Some x /\ f x = true.
Proof.
  induction l as [|a l IH]; [unfold countb; simpl; lia|].
  rewrite countb_cons. destruct (f a) eqn:E; [by exists 0%nat, a|].
  intros (i & x & ? & ?)%IH. by exists (S i), x.
Qed.

Lemma countb_zero {A} (f : A -> bool) (l : list A) :
  (forall x, x ∈ l -> f x = false) -> countb f l = 0%nat.
Proof.
  induction l as [|a l IH]; [done|]. intros H. rewrite countb_cons, IH by set_solver.
  rewrite H by set_solver. done.
Qed.

Lemma countb_ext_map {A} (f : A -> bool) (g : A -> A) (l : list A) :
  (forall x, f (g x) = f x) -> countb f (g <$> l) = countb f l.
Proof.
  intros H. induction l as [|a l IH]; [done|]. rewrite fmap_cons, !countb_cons, H, IH. done.
Qed.

(** Counting through a [mbind], when one element changes. *)
Lemma countb_bind_insert {A B} (f : B -> bool) (g : A -> list B) (l : list A) i x y :
  l !! i = Some x ->
  (countb f (<[i := y]> l ≫= g) + countb f (g x) = countb f (l ≫= g) + countb f (g y))%nat.
Proof.
  revert i. induction l as [|a l IH]; intros [|i] H; simplify_eq/=; rewrite !countb_app.
  - lia.
  - specialize (IH i H). lia.
Qed.

Lemma countb_le_elem {A} (f : A -> bool) (l : list A) x :
  x ∈ l -> f x = true -> (0 < countb f l)%nat.
Proof. intros [i Hi]%list_elem_of_lookup Hf. by eapply countb_pos. Qed.

Lemma countb_elem_inv {A} (f : A -> bool) (l : list A) :
  (0 < countb f l)%nat -> exists x, x ∈ l /\ f x = true.
Proof.
  intros (i & x & Hi & Hf)%countb_pos_inv. exists x. split; [|done].
  by eapply list_elem_of_lookup_2.
Qed.

(** A list no key of which is counted twice has no duplicate keys. *)
Lemma NoDup_count {A} (key : A -> Z) (l : list A) :
  (forall k, (countb (fun x => Z.eqb (key x) k) l <= 1)%nat) -> NoDup (key <$> l).
Proof.
  induction l as [|a l IH]; intros H; simpl; constructor.
  - intros (x & Hx & Hin)%list_elem_of_fmap. specialize (H (key a)).
    rewrite countb_cons, Z.eqb_refl in H.
    assert (0 < countb (fun y => Z.eqb (key y) (key a)) l)%nat; [|lia].
    apply (countb_le_elem _ l x Hin). rewrite <-Hx. apply Z.eqb_refl.
  - apply IH. intros k. specialize (H k). rewrite countb_cons in H. lia.
Qed.

Lemma countb_NoDup {A} (key : A -> Z) (l : list A) k :
  NoDup (key <$> l) -> (countb (fun x => Z.eqb (key x) k) l <= 1)%nat.
Proof.
  induction l as [|a l IH]; simpl; intros H; [unfold countb; simpl; lia|].
  apply NoDup_cons in H as [Hni Hnd]. rewrite countb_cons. specialize (IH Hnd).
  destruct (Z.eqb_spec (key a) k) as [<-|]; [|lia].
  destruct (countb (fun x => key x =? key a) l) eqn:Hc; [lia|].
  destruct (countb_elem_inv (fun x => key x =? key a) l) as (x & Hx & E); [lia|].
  apply Z.eqb_eq in E. exfalso. apply Hni. rewrite <-E. by apply list_elem_of_fmap_2.
Qed.

(** Lists that no test counts differently hold the same elements. *)
Lemma countb_Permutation {A} `{EqDecision A} (l k : list A) :
  (forall f, countb f l = countb f k) -> l ≡ₚ k.
Proof.
  revert k. induction l as [|x l IH]; intros k H.
  - specialize (H (fun _ => true)). destruct k; [done|]. rewrite countb_cons in H. done.
  - assert (Hx : x ∈ k).
    { pose proof (H (fun y => bool_decide (y = x))) as Hc.
      rewrite countb_cons, bool_decide_true in Hc by done.
      destruct (countb_elem_inv (fun y => bool_decide (y = x)) k) as (y & ? & E%bool_decide_eq_true);
        [lia|by subst]. }
    apply list_elem_of_split in Hx as (k1 & k2 & ->).
    rewrite <-Permutation_middle. constructor. apply IH. intros f. specialize (H f).
    rewrite countb_app, !countb_cons in H. rewrite countb_app. lia.
Qed.

(** In a duplicate-free concatenation the parts are disjoint. *)
Lemma bind_disjoint {A B} (f : A -> list B) (l : list A) i j x y b :
  NoDup (l ≫= f) -> l !! i = Some x -> l !! j = Some y -> i <> j -> b ∈ f x -> b ∉ f y.
Proof.
  intros Hnd Hi Hj Hij Hx Hy.
  assert (Haux : forall i j x y, l !! i = Some x -> l !! j = Some y -> (i < j)%nat -> b ∈ f x -> b ∈ f y -> False).
  { clear -Hnd. intros i j x y Hi Hj Hij Hx Hy. rewrite <-(take_drop_middle l i x Hi), bind_app, bind_cons in Hnd.
    apply NoDup_app in Hnd as (_ & _ & Hnd). apply NoDup_app in Hnd as (_ & Hno & _).
    apply (Hno b Hx). apply list_elem_of_bind. exists y. split; [done|].
    apply (list_elem_of_lookup_2 _ (j - S i)). rewrite lookup_drop. by replace (S i + (j - S i))%nat with j by lia. }
  destruct (Nat.lt_total i j) as [Hlt|[?|Hlt]]; [by eapply (Haux i j)|done|by eapply (Haux j i)].
Qed.

Lemma countb_sublist {A} (f : A -> bool) (l k : list A) :
  l `sublist_of` k -> (countb f l <= countb f k)%nat.
Proof. induction 1; rewrite ?countb_cons; lia. Qed.

(** Folds over a list only look at its elements. *)
Lemma countb_ext_elem {A} (f g : A -> bool) (l : list A) :
  (forall x, x ∈ l -> f x = g x) -> countb f l = countb g l.
Proof.
  induction l as [|a l IH]; [done|]. intros H. rewrite !countb_cons, (H a), IH by set_solver. done.
Qed.

Lemma omap_ext_elem {A B} (f g : A -> option B) (l : list A) :
  (forall x, x ∈ l -> f x = g x) -> omap f l = omap g l.
Proof.
  induction l as [|a l IH]; [done|]. intros H. simpl. rewrite (H a) by set_solver.
  assert (omap f l = omap g l) as E by (apply IH; set_solver).
  unfold omap in E. by rewrite E.
Qed.
