(* ===== verification/Lts.v ===== *)
(** * Lts

    Labelled transition systems and their runs.  Every concurrent component of
    the development is an instance of [LTS]; its concrete interleavings are
    evaluated by a [Scheduler], whose executions are runs. *)

From S2P Require Import Prelude.

Class LTS (S E : Type) := lts_step : S -> E -> S -> Prop.

Section runs.
Context {S E : Type} `{LTS S E}.

(** The states reachable from [σ0], with the labels on the way. *)
Inductive run (σ0 : S) : list E -> S -> Prop :=
  | run_nil : run σ0 [] σ0
  | run_snoc tr e σ σ' : run σ0 tr σ -> lts_step σ e σ' -> run σ0 (tr ++ [e]) σ'.

Lemma run_trans σ0 tr σ tr' σ' : run σ0 tr σ -> run σ tr' σ' -> run σ0 (tr ++ tr') σ'.
Proof.
  intros Hr. induction 1 as [|tr' e σ1 σ2 Hr' IH Hs]; [by rewrite app_nil_r|].
  rewrite app_assoc. by econstructor.
Qed.

Lemma run_one σ e σ' : lts_step σ e σ' -> run σ [e] σ'.
Proof. intros Hs. apply (run_snoc σ [] e σ σ'); [constructor|done]. Qed.

Lemma run_cons σ e σ1 tr σ2 : lts_step σ e σ1 -> run σ1 tr σ2 -> run σ (e :: tr) σ2.
Proof. intros Hs Hr. apply (run_trans σ [e] σ1 tr σ2); [by apply run_one|done]. Qed.

(** An invariant of the steps holds wherever a run goes. *)
Lemma run_invariant (I : S -> Prop) σ0 tr σ :
  I σ0 -> (forall σ e σ', I σ -> lts_step σ e σ' -> I σ') -> run σ0 tr σ -> I σ.
Proof. intros H0 Hs. induction 1; eauto. Qed.

(** The same for an invariant that also speaks of the labels seen so far. *)
Lemma run_invariant_trace (I : list E -> S -> Prop) σ0 tr σ :
  I [] σ0 -> (forall tr σ e σ', I tr σ -> lts_step σ e σ' -> I (tr ++ [e]) σ') ->
  run σ0 tr σ -> I tr σ.
Proof. intros H0 Hs. induction 1; eauto. Qed.
End runs.

(** A specification labels its steps with what is seen of them, if anything. *)
Section seen.
Context {A V : Type} `{LTS A (option V)}.

(** Steps that show [h]. *)
Definition reaches (a : A) (h : list V) (b : A) : Prop := exists tr, run a tr b /\ omap id tr = h.

Lemma reaches_refl (a : A) : reaches a [] a.
Proof. by exists []; split; [constructor|]. Qed.

Lemma reaches_snoc (a b c : A) h o :
  reaches a h b -> lts_step b o c -> reaches a (h ++ option_list o) c.
Proof.
  intros (tr & Hr & <-) Hs. exists (tr ++ [o]). split; [by econstructor|].
  rewrite omap_app. by destruct o.
Qed.

Lemma reaches_one (a b : A) o : lts_step a o b -> reaches a (option_list o) b.
Proof. intros Hs. exact (reaches_snoc _ _ _ [] o (reaches_refl a) Hs). Qed.

Lemma reaches_trans (a b c : A) h k : reaches a h b -> reaches b k c -> reaches a (h ++ k) c.
Proof.
  intros (tr & Hr & <-) (tr' & Hr' & <-). exists (tr ++ tr'). split; [by eapply run_trans|].
  by rewrite omap_app.
Qed.

(** A system refines it when, along its runs, each step is some of its steps. *)
Lemma run_refines {S E} `{LTS S E} (abs : S -> A) (show : E -> option V) (σ0 : S) :
  (forall tr σ e σ', run σ0 tr σ -> lts_step σ e σ' ->
     reaches (abs σ) (option_list (show e)) (abs σ')) ->
  forall tr σ, run σ0 tr σ -> reaches (abs σ0) (omap show tr) (abs σ).
Proof.
  intros Hsim tr σ. induction 1 as [|tr e σ σ' Hr IH Hs]; [apply reaches_refl|].
  rewrite omap_app. replace (omap show [e]) with (option_list (show e)) by (simpl; by destruct (show e)).
  eapply reaches_trans; [exact IH|by eapply Hsim].
Qed.
End seen.

(** A deterministic way to choose the steps, one command at a time. *)
Class Scheduler (S E C : Type) `{LTS S E} := {
  exec1 : S -> C -> option (E * S);
  exec1_sound σ c e σ' : exec1 σ c = Some (e, σ') -> lts_step σ e σ'
}.

Section exec.
Context {S E C : Type} `{Scheduler S E C}.

Fixpoint exec (σ : S) (cs : list C) : option (list E * S) :=
  match cs with
  | [] => Some ([], σ)
  | c :: cs =>
      match exec1 σ c with
      | Some (e, σ1) =>
          match exec σ1 cs with
          | Some (tr, σ2) => Some (e :: tr, σ2)
          | None => None
          end
      | None => None
      end
  end.

Lemma exec_sound σ cs tr σ' : exec σ cs = Some (tr, σ') -> run σ tr σ'.
Proof.
  revert σ tr. induction cs as [|c cs IH]; intros σ tr Hx; simplify_eq/=; [constructor|].
  destruct (exec1 σ c) as [[e σ1]|] eqn:He; [|done].
  destruct (exec σ1 cs) as [[tr1 σ2]|] eqn:Hc; [|done]. simplify_eq.
  eapply run_cons; [by apply exec1_sound in He|by apply IH].
Qed.
End exec.
