(* ===== verification/BoundedQueue.v ===== *)
(** * BoundedQueue

    The members of [rdb::BoundedQueue<T>] and the critical sections of its
    operations (code/include/rdb/concurrency/bounded_queue.h).  A section is
    what one thread executes between taking [mutex_] and releasing it: it ends
    either by returning or by going to sleep on a condition variable, which
    releases the mutex.  The interleaving of sections is in [QueueSystem]. *)

From S2P Require Import Prelude.

Inductive OverflowPolicy := Block | DropNewest | DropOldest.

Inductive PushStatus := Ok | Full | DroppedNewest | DroppedOldest | Closed.

#[export] Instance OverflowPolicy_eq_dec : EqDecision OverflowPolicy.
Proof. solve_decision. Defined.

#[export] Instance PushStatus_eq_dec : EqDecision PushStatus.
Proof. solve_decision. Defined.

(** The condition variables, and the notifications a section sends. *)
Inductive cond_var := not_empty_ | not_full_.

Inductive signal := notify_one (c : cond_var) | notify_all (c : cond_var).

#[export] Instance cond_var_eq_dec : EqDecision cond_var.
Proof. solve_decision. Defined.

#[export] Instance signal_eq_dec : EqDecision signal.
Proof. solve_decision. Defined.

Record BoundedQueue (T : Type) := mkQueue {
  items_ : list T;
  capacity_ : Z;
  policy_ : OverflowPolicy;
  closed_ : bool;
  dropped_ : Z;
  high_water_ : Z
}.
Arguments mkQueue {T} _ _ _ _ _ _.
Arguments items_ {T} _.
Arguments capacity_ {T} _.
Arguments policy_ {T} _.
Arguments closed_ {T} _.
Arguments dropped_ {T} _.
Arguments high_water_ {T} _.

(** How a section ends. *)
Inductive outcome (R : Type) :=
  | Returned (r : R)
  | Sleeps (c : cond_var) (deadline : Z).
Arguments Returned {R} _.
Arguments Sleeps {R} _ _.

(** A finished section: the members it leaves, the notifications it sent, the
    elements it destroys after unlocking, and how it ended. *)
Record section (T R : Type) := mkSection {
  sec_queue : BoundedQueue T;
  sec_signals : list signal;
  sec_discarded : list T;
  sec_outcome : outcome R
}.
Arguments mkSection {T R} _ _ _ _.
Arguments sec_queue {T R} _.
Arguments sec_signals {T R} _.
Arguments sec_discarded {T R} _.
Arguments sec_outcome {T R} _.

(** [cv.wait(lock, pred)] and [cv.wait_until(lock, t, pred)]: test the
    predicate; if it fails, either the time is up or the thread sleeps. *)
Inductive wait_result := WaitDone (ok : bool) | WaitSleep.

Definition cv_wait (pred timed_out : bool) : wait_result :=
  if pred then WaitDone true else if timed_out then WaitDone false else WaitSleep.

Section ops.
Context {T : Type}.
Implicit Types q : BoundedQueue T.

Definition new_queue (capacity : Z) (policy : OverflowPolicy) : BoundedQueue T :=
  {| items_ := [];
     capacity_ := if capacity =? 0 then 1 else capacity;
     policy_ := policy;
     closed_ := false;
     dropped_ := 0;
     high_water_ := 0 |}.

Definition with_items q (l : list T) : BoundedQueue T :=
  {| items_ := l; capacity_ := capacity_ q; policy_ := policy_ q; closed_ := closed_ q;
     dropped_ := dropped_ q; high_water_ := high_water_ q |}.

Definition with_dropped q (n : Z) : BoundedQueue T :=
  {| items_ := items_ q; capacity_ := capacity_ q; policy_ := policy_ q; closed_ := closed_ q;
     dropped_ := n; high_water_ := high_water_ q |}.

Definition with_high_water q (n : Z) : BoundedQueue T :=
  {| items_ := items_ q; capacity_ := capacity_ q; policy_ := policy_ q; closed_ := closed_ q;
     dropped_ := dropped_ q; high_water_ := n |}.

Definition with_closed q (b : bool) : BoundedQueue T :=
  {| items_ := items_ q; capacity_ := capacity_ q; policy_ := policy_ q; closed_ := b;
     dropped_ := dropped_ q; high_water_ := high_water_ q |}.

(** A section that leaves the members alone. *)
Definition sec_return {R} q (r : R) : section T R := mkSection q [] [] (Returned r).
Definition sec_sleep {R} q (c : cond_var) (deadline : Z) : section T R :=
  mkSection q [] [] (Sleeps c deadline).

(** The two predicates the condition variables wait for. *)
Definition push_ready q : bool := closed_ q || (zlen (items_ q) <? capacity_ q).
Definition pop_ready q : bool := closed_ q || negb (zlen (items_ q) =? 0).

(** *** push *)

(** [wait_for_space], on entry. *)
Definition wait_for_space q (deadline : Z) : wait_result :=
  if deadline =? tp_max then cv_wait (push_ready q) false
  else if deadline =? tp_min then WaitDone false
  else cv_wait (push_ready q) false.

(** The tail of [push_until]: append, update the high-water mark, notify. *)
Definition push_back q (value : T) : section T PushStatus :=
  let q1 := with_items q (items_ q ++ [value]) in
  let q2 := if high_water_ q1 <? zlen (items_ q1)
            then with_high_water q1 (zlen (items_ q1)) else q1 in
  mkSection q2 [notify_one not_empty_] [] (Returned Ok).

(** What [push_until] does once [wait_for_space] has an answer. *)
Definition push_after_wait q (value : T) (deadline : Z) (w : wait_result)
  : section T PushStatus :=
  match w with
  | WaitSleep => sec_sleep q not_full_ deadline
  | WaitDone false => sec_return q Full
  | WaitDone true => if closed_ q then sec_return q Closed else push_back q value
  end.

(** [push_until], from the call to its first return or sleep. *)
Definition push_until q (value : T) (deadline : Z) : section T PushStatus :=
  if closed_ q then sec_return q Closed
  else if capacity_ q <=? zlen (items_ q) then
    match policy_ q with
    | DropNewest => sec_return (with_dropped q (dropped_ q +u 1)) DroppedNewest
    | DropOldest =>
        mkSection (with_dropped (with_items q (tail (items_ q) ++ [value])) (dropped_ q +u 1))
          [notify_one not_empty_] (take 1 (items_ q)) (Returned DroppedOldest)
    | Block => push_after_wait q value deadline (wait_for_space q deadline)
    end
  else push_back q value.

(** [push_until] again, when the thread asleep on [not_full_] runs again. *)
Definition push_resume q (value : T) (deadline : Z) (timed_out : bool)
  : section T PushStatus :=
  push_after_wait q value deadline (cv_wait (push_ready q) timed_out).

Definition push q (value : T) : section T PushStatus := push_until q value tp_max.

Definition push_for q (value : T) (now timeout : Z) : option (section T PushStatus) :=
  push_until q value <$> tp_add now timeout.

Definition try_push q (value : T) : section T PushStatus := push_until q value tp_min.

(** *** pop *)

(** The tail of [pop_until]: take the front element, if any. *)
Definition pop_front q : section T (option T) :=
  match items_ q with
  | [] => sec_return q None
  | value :: rest =>
      mkSection (with_items q rest) [notify_one not_full_] [] (Returned (Some value))
  end.

(** What [pop_until] does once the wait on [not_empty_] has an answer. *)
Definition pop_after_wait q (deadline : Z) (w : wait_result) : section T (option T) :=
  match w with
  | WaitSleep => sec_sleep q not_empty_ deadline
  | WaitDone false => sec_return q None
  | WaitDone true => pop_front q
  end.

(** [pop_until], from the call to its first return or sleep. *)
Definition pop_until q (deadline : Z) : section T (option T) :=
  if (zlen (items_ q) =? 0) && negb (closed_ q) then
    if deadline =? tp_max then pop_after_wait q deadline (cv_wait (pop_ready q) false)
    else if deadline =? tp_min then sec_return q None
    else pop_after_wait q deadline (cv_wait (pop_ready q) false)
  else pop_front q.

Definition pop_resume q (deadline : Z) (timed_out : bool) : section T (option T) :=
  pop_after_wait q deadline (cv_wait (pop_ready q) timed_out).

Definition pop q : section T (option T) := pop_until q tp_max.

Definition pop_for q (now timeout : Z) : option (section T (option T)) :=
  pop_until q <$> tp_add now timeout.

Definition try_pop q : section T (option T) := pop_until q tp_min.

(** *** close, clear, observers *)

(** The locked block of [close]; the two [notify_all] follow it unlocked. *)
Definition close q : section T unit := sec_return (with_closed q true) tt.

Definition close_signals : list signal := [notify_all not_empty_; notify_all not_full_].

Definition clear q : section T unit :=
  mkSection (with_items q []) [notify_all not_full_] (items_ q) (Returned tt).

Definition size q : Z := zlen (items_ q).
Definition empty q : bool := size q =? 0.
Definition capacity q : Z := capacity_ q.
Definition policy q : OverflowPolicy := policy_ q.
Definition closed q : bool := closed_ q.
Definition dropped q : Z := dropped_ q.
Definition high_water q : Z := high_water_ q.
End ops.

(** ** The shape of the sections

    Every push section is one of six shapes and every pop section one of four;
    the proofs about operations and about interleavings are by cases on them. *)
Section shapes.
Context {T : Type}.
Implicit Types (q : BoundedQueue T) (v : T) (d : Z).

Inductive push_shape q v : section T PushStatus -> Prop :=
  | push_shape_closed : closed_ q = true -> push_shape q v (sec_return q Closed)
  | push_shape_newest : closed_ q = false -> capacity_ q <= zlen (items_ q) ->
      policy_ q = DropNewest ->
      push_shape q v (sec_return (with_dropped q (dropped_ q +u 1)) DroppedNewest)
  | push_shape_oldest : closed_ q = false -> capacity_ q <= zlen (items_ q) ->
      policy_ q = DropOldest ->
      push_shape q v
        (mkSection (with_dropped (with_items q (tail (items_ q) ++ [v])) (dropped_ q +u 1))
           [notify_one not_empty_] (take 1 (items_ q)) (Returned DroppedOldest))
  | push_shape_full : closed_ q = false -> capacity_ q <= zlen (items_ q) ->
      push_shape q v (sec_return q Full)
  | push_shape_sleep d : closed_ q = false -> capacity_ q <= zlen (items_ q) ->
      push_shape q v (sec_sleep q not_full_ d)
  | push_shape_ok : closed_ q = false -> zlen (items_ q) < capacity_ q ->
      push_shape q v (push_back q v).

Inductive pop_shape q : section T (option T) -> Prop :=
  | pop_shape_ended : closed_ q = true -> items_ q = [] -> pop_shape q (sec_return q None)
  | pop_shape_timeout : closed_ q = false -> items_ q = [] -> pop_shape q (sec_return q None)
  | pop_shape_sleep d : closed_ q = false -> items_ q = [] ->
      pop_shape q (sec_sleep q not_empty_ d)
  | pop_shape_some v rest : items_ q = v :: rest ->
      pop_shape q (mkSection (with_items q rest) [notify_one not_full_] []
                     (Returned (Some v))).

Lemma push_after_wait_shape q v d t :
  push_shape q v (push_after_wait q v d (cv_wait (push_ready q) t)).
Proof.
  unfold push_after_wait, cv_wait, push_ready.
  destruct (closed_ q) eqn:Hc, t; simpl; repeat case_bool; eauto using push_shape.
Qed.

Lemma push_resume_shape q v d t : push_shape q v (push_resume q v d t).
Proof. apply push_after_wait_shape. Qed.

Lemma push_until_shape q v d : push_shape q v (push_until q v d).
Proof.
  unfold push_until. destruct (closed_ q) eqn:Hc; [by constructor|].
  case_bool; [|by constructor].
  destruct (policy_ q) eqn:Hp; [|by constructor..].
  unfold wait_for_space. repeat case_bool; try apply push_after_wait_shape.
  by constructor.
Qed.

Lemma pop_front_shape q : (items_ q = [] -> closed_ q = true) -> pop_shape q (pop_front q).
Proof.
  unfold pop_front. destruct (items_ q) eqn:Hi; intros Hc; [|by constructor].
  constructor; auto.
Qed.

Lemma pop_after_wait_shape q d t :
  pop_shape q (pop_after_wait q d (cv_wait (pop_ready q) t)).
Proof.
  unfold pop_after_wait, cv_wait, pop_ready.
  destruct (closed_ q) eqn:Hc; simpl; [by apply pop_front_shape|].
  case_bool; simpl.
  - apply zlen_0 in e. destruct t; by constructor.
  - apply pop_front_shape. intros Hi. rewrite Hi in n. done.
Qed.

Lemma pop_resume_shape q d t : pop_shape q (pop_resume q d t).
Proof. apply pop_after_wait_shape. Qed.

Lemma pop_until_shape q d : pop_shape q (pop_until q d).
Proof.
  unfold pop_until. destruct (closed_ q) eqn:Hc.
  { rewrite andb_false_r. by apply pop_front_shape. }
  rewrite andb_true_r. case_bool.
  - apply zlen_0 in e. repeat case_bool; try apply pop_after_wait_shape. by constructor.
  - apply pop_front_shape. intros Hi. by rewrite Hi in n.
Qed.
End shapes.

(** ** Well-formed queues *)
Section wf.
Context {T : Type}.
Implicit Types (q : BoundedQueue T) (v : T).

Record queue_wf q : Prop := {
  wf_capacity : 1 <= capacity_ q < 2 ^ 64;
  wf_size : zlen (items_ q) <= high_water_ q;
  wf_high_water : high_water_ q <= capacity_ q;
  wf_dropped : fits 64 (dropped_ q)
}.

Lemma new_queue_wf c p : fits 64 c -> queue_wf (@new_queue T c p).
Proof.
  intros [? ?]. unfold new_queue.
  split; simpl; [repeat case_bool; lia| len | repeat case_bool; lia |done].
Qed.

Lemma push_shape_wf q v s : push_shape q v s -> queue_wf q -> queue_wf (sec_queue s).
Proof.
  intros Hs [Hc Hl Hh Hd]. destruct Hs; try done.
  - split; simpl; auto with rdb lia.
  - split; simpl; auto with rdb lia.
    destruct (items_ q); simpl in *; len.
  - unfold push_back; simpl. case_bool; split; simpl in *; auto; len.
Qed.

Lemma pop_shape_wf q s : pop_shape q s -> queue_wf q -> queue_wf (sec_queue s).
Proof.
  intros Hs [Hc Hl Hh Hd]. destruct Hs as [| | |v rest Hi]; try done.
  rewrite Hi in Hl. split; simpl; auto. len.
Qed.

Lemma close_wf q : queue_wf q -> queue_wf (sec_queue (close q)).
Proof. by intros []. Qed.

Lemma clear_wf q : queue_wf q -> queue_wf (sec_queue (clear q)).
Proof. intros []. split; simpl; auto. pose proof (zlen_nonneg (items_ q)). len. Qed.

(** What no section changes. *)
Lemma push_shape_config q v s :
  push_shape q v s ->
  capacity_ (sec_queue s) = capacity_ q /\ policy_ (sec_queue s) = policy_ q /\
  closed_ (sec_queue s) = closed_ q.
Proof. destruct 1; try done. unfold push_back; simpl. by case_bool. Qed.

Lemma pop_shape_config q s :
  pop_shape q s ->
  capacity_ (sec_queue s) = capacity_ q /\ policy_ (sec_queue s) = policy_ q /\
  closed_ (sec_queue s) = closed_ q.
Proof. by destruct 1. Qed.

(** The value a push section added, and the one a pop section removed. *)
Definition sec_accepted v (s : section T PushStatus) : list T :=
  match sec_outcome s with
  | Returned Ok | Returned DroppedOldest => [v]
  | _ => []
  end.

Definition sec_popped (s : section T (option T)) : list T :=
  match sec_outcome s with
  | Returned (Some v) => [v]
  | _ => []
  end.

Lemma push_back_items q v : items_ (sec_queue (push_back q v)) = items_ q ++ [v].
Proof. unfold push_back; simpl. by case_bool. Qed.

(** First in, first out: a section adds at the back and removes at the front. *)
Lemma push_shape_items q v s :
  queue_wf q -> push_shape q v s ->
  items_ q ++ sec_accepted v s = sec_discarded s ++ items_ (sec_queue s).
Proof.
  intros [Hc _ _ _] Hs. destruct Hs; simpl; rewrite ?app_nil_r; try done.
  - destruct (items_ q); simpl in *; [len|done].
  - by case_bool.
Qed.

Lemma pop_shape_items q s :
  pop_shape q s -> items_ q = sec_popped s ++ items_ (sec_queue s).
Proof. by destruct 1. Qed.
End wf.

#[export] Hint Resolve push_until_shape push_resume_shape pop_until_shape pop_resume_shape
  push_shape_wf pop_shape_wf close_wf clear_wf new_queue_wf : rdb.
