(* ===== verification/QueueSystem.v ===== *)
(** * QueueSystem

    Threads sharing one [BoundedQueue]: the interleavings of the critical
    sections of bounded_queue.h.  [mutex_] makes a section one step.  A thread
    asleep on a condition variable runs again when it is notified, when its
    deadline passes or spuriously, and then tests its predicate again.  The two
    notifications of [close] are sent after the mutex is released, so they are
    steps of their own. *)

From S2P Require Import Prelude Lts BoundedQueue.

Section system.
Context {T : Type}.

(** What a thread is doing, between two sections. *)
Inductive thread :=
  | Idle
  | Pushing (value : T) (deadline : Z) (awake : bool)
  | Popping (deadline : Z) (awake : bool)
  | Closing (pending : list signal).

Record system := mkSystem {
  sys_queue : BoundedQueue T;
  sys_threads : list thread;
  sys_clock : Z
}.

Definition asleep_on (c : cond_var) (t : thread) : bool :=
  match t, c with
  | Pushing _ _ false, not_full_ => true
  | Popping _ false, not_empty_ => true
  | _, _ => false
  end.

Definition awake_on (c : cond_var) (t : thread) : bool :=
  match t, c with
  | Pushing _ _ true, not_full_ => true
  | Popping _ true, not_empty_ => true
  | _, _ => false
  end.

Definition closer_on (c : cond_var) (t : thread) : bool :=
  match t with
  | Closing pending => bool_decide (notify_all c ∈ pending)
  | _ => false
  end.

Definition wake (t : thread) : thread :=
  match t with
  | Pushing v d _ => Pushing v d true
  | Popping d _ => Popping d true
  | t => t
  end.

Definition wake_on (c : cond_var) (t : thread) : thread :=
  if asleep_on c t then wake t else t.

(** [notify_one] wakes any one of the threads asleep on [c], [notify_all] all. *)
Inductive notified : signal -> list thread -> list thread -> Prop :=
  | notified_nobody c th :
      (forall t, t ∈ th -> asleep_on c t = false) -> notified (notify_one c) th th
  | notified_one c th i t :
      th !! i = Some t -> asleep_on c t = true ->
      notified (notify_one c) th (<[i := wake t]> th)
  | notified_all c th : notified (notify_all c) th (wake_on c <$> th).

Inductive notifieds : list signal -> list thread -> list thread -> Prop :=
  | notifieds_nil th : notifieds [] th th
  | notifieds_cons sg sgs th th1 th2 :
      notified sg th th1 -> notifieds sgs th1 th2 -> notifieds (sg :: sgs) th th2.

(** Where a section leaves the thread that ran it. *)
Definition after_push (v : T) (s : section T PushStatus) : thread :=
  match sec_outcome s with
  | Returned _ => Idle
  | Sleeps _ d => Pushing v d false
  end.

Definition after_pop (s : section T (option T)) : thread :=
  match sec_outcome s with
  | Returned _ => Idle
  | Sleeps _ d => Popping d false
  end.

Inductive event :=
  | EvPush (i : nat) (v : T) (deadline : Z) (s : section T PushStatus)
  | EvPop (i : nat) (deadline : Z) (s : section T (option T))
  | EvClear (i : nat) (s : section T unit)
  | EvClose (i : nat)
  | EvClosing (i : nat)
  | EvInternal.

(** [EvClosing] is a notification of [close], or its return; [EvInternal] is
    the environment: time passes, or a thread wakes spuriously. *)

(** The deadline of a waiting thread has passed. *)
Definition expired (d now : Z) : Prop := d <> tp_max /\ d <= now.

Inductive step : system -> event -> system -> Prop :=
  | step_push q th now i v d th' :
      th !! i = Some Idle ->
      let s := push_until q v d in
      notifieds (sec_signals s) (<[i := after_push v s]> th) th' ->
      step (mkSystem q th now) (EvPush i v d s) (mkSystem (sec_queue s) th' now)
  | step_push_resume q th now i v d awake (timed_out : bool) th' :
      th !! i = Some (Pushing v d awake) ->
      (if timed_out then expired d now else awake = true) ->
      let s := push_resume q v d timed_out in
      notifieds (sec_signals s) (<[i := after_push v s]> th) th' ->
      step (mkSystem q th now) (EvPush i v d s) (mkSystem (sec_queue s) th' now)
  | step_pop q th now i d th' :
      th !! i = Some Idle ->
      let s := pop_until q d in
      notifieds (sec_signals s) (<[i := after_pop s]> th) th' ->
      step (mkSystem q th now) (EvPop i d s) (mkSystem (sec_queue s) th' now)
  | step_pop_resume q th now i d awake (timed_out : bool) th' :
      th !! i = Some (Popping d awake) ->
      (if timed_out then expired d now else awake = true) ->
      let s := pop_resume q d timed_out in
      notifieds (sec_signals s) (<[i := after_pop s]> th) th' ->
      step (mkSystem q th now) (EvPop i d s) (mkSystem (sec_queue s) th' now)
  | step_close q th now i :
      th !! i = Some Idle ->
      step (mkSystem q th now) (EvClose i)
        (mkSystem (sec_queue (close q)) (<[i := Closing close_signals]> th) now)
  | step_close_notify q th now i sg pending th' :
      th !! i = Some (Closing (sg :: pending)) ->
      notified sg (<[i := Closing pending]> th) th' ->
      step (mkSystem q th now) (EvClosing i) (mkSystem q th' now)
  | step_close_return q th now i :
      th !! i = Some (Closing []) ->
      step (mkSystem q th now) (EvClosing i) (mkSystem q (<[i := Idle]> th) now)
  | step_clear q th now i th' :
      th !! i = Some Idle ->
      let s := clear q in
      notifieds (sec_signals s) th th' ->
      step (mkSystem q th now) (EvClear i s) (mkSystem (sec_queue s) th' now)
  | step_spurious q th now i t :
      th !! i = Some t ->
      step (mkSystem q th now) EvInternal (mkSystem q (<[i := wake t]> th) now)
  | step_tick q th now now' :
      now <= now' -> step (mkSystem q th now) EvInternal (mkSystem q th now').

#[export] Instance queue_lts : LTS system event := step.

(** A fresh queue shared by [n] threads. *)
Definition init (capacity : Z) (policy : OverflowPolicy) (n : nat) (now : Z) : system :=
  mkSystem (new_queue capacity policy) (replicate n Idle) now.

(** ** Histories *)

Definition accepted_by (e : event) : list T :=
  match e with EvPush _ v _ s => sec_accepted v s | _ => [] end.

Definition popped_by (e : event) : list T :=
  match e with EvPop _ _ s => sec_popped s | _ => [] end.

(** Everything an event takes out of the queue: popped, evicted or cleared. *)
Definition removed_by (e : event) : list T :=
  match e with
  | EvPush _ _ _ s => sec_discarded s
  | EvPop _ _ s => sec_popped s
  | EvClear _ s => sec_discarded s
  | EvClose _ | EvClosing _ | EvInternal => []
  end.

(** The pushes that lost an element to the overflow policy. *)
Definition dropping (e : event) : bool :=
  match e with
  | EvPush _ _ _ s =>
      match sec_outcome s with
      | Returned DroppedNewest | Returned DroppedOldest => true
      | _ => false
      end
  | _ => false
  end.

Definition clearing (e : event) : bool :=
  match e with EvClear _ _ => true | _ => false end.

Definition accepted (tr : list event) : list T := tr ≫= accepted_by.
Definition popped (tr : list event) : list T := tr ≫= popped_by.
Definition removed (tr : list event) : list T := tr ≫= removed_by.
End system.
Arguments thread : clear implicits.
Arguments system : clear implicits.
Arguments event : clear implicits.

(** ** The effect of a step on the queue *)
Section effects.
Context {T : Type}.
Implicit Types (q : BoundedQueue T) (th : list (thread T)) (σ : system T).

(** Every step is one of these, as far as the queue is concerned. *)
Inductive queue_effect q : event T -> BoundedQueue T -> Prop :=
  | effect_push i v d s : push_shape q v s -> queue_effect q (EvPush i v d s) (sec_queue s)
  | effect_pop i d s : pop_shape q s -> queue_effect q (EvPop i d s) (sec_queue s)
  | effect_clear i : queue_effect q (EvClear i (clear q)) (sec_queue (clear q))
  | effect_close i : queue_effect q (EvClose i) (sec_queue (close q))
  | effect_closing i : queue_effect q (EvClosing i) q
  | effect_none : queue_effect q EvInternal q.

Lemma step_effect σ e σ' : step σ e σ' -> queue_effect (sys_queue σ) e (sys_queue σ').
Proof. destruct 1; cbn [sys_queue]; eauto using queue_effect with rdb. Qed.

Lemma effect_wf q e q' : queue_effect q e q' -> queue_wf q -> queue_wf q'.
Proof. destruct 1; eauto with rdb. Qed.

Lemma effect_items q e q' :
  queue_wf q -> queue_effect q e q' ->
  items_ q ++ accepted_by e = removed_by e ++ items_ q'.
Proof.
  intros Hwf He. destruct He; simpl; rewrite ?app_nil_r; try done.
  - by apply push_shape_items.
  - by apply pop_shape_items.
Qed.

Lemma effect_dropped q e q' :
  queue_wf q -> queue_effect q e q' ->
  dropped_ q' = dropped_ q +u (if dropping e then 1 else 0).
Proof.
  intros Hwf He. pose proof (wf_dropped q Hwf) as Hd.
  assert (Hz : dropped_ q = dropped_ q +u 0) by (rewrite Z.add_0_r, wrap_small; done).
  destruct He as [i v d s Hs|i d s Hs| | | |]; simpl; try done.
  - destruct Hs; simpl; try done. by case_bool.
  - by destruct Hs.
Qed.

Lemma effect_config q e q' :
  queue_effect q e q' -> capacity_ q' = capacity_ q /\ policy_ q' = policy_ q.
Proof.
  destruct 1 as [i v d s Hs|i d s Hs| | | |]; try done.
  - by destruct (push_shape_config q v s Hs) as (? & ? & ?).
  - by destruct (pop_shape_config q s Hs) as (? & ? & ?).
Qed.

Lemma run_queue_wf c p n now tr σ :
  fits 64 c -> run (init c p n now) tr σ -> queue_wf (sys_queue σ).
Proof.
  intros Hc. induction 1 as [|tr e σ σ' Hr IH Hs]; [by apply new_queue_wf|].
  eauto using effect_wf, step_effect.
Qed.

Lemma run_config c p n now tr σ :
  run (init c p n now) tr σ ->
  capacity_ (sys_queue σ) = capacity_ (@new_queue T c p) /\ policy_ (sys_queue σ) = p.
Proof.
  induction 1 as [|tr e σ σ' Hr IH Hs]; [done|].
  destruct (effect_config _ _ _ (step_effect _ _ _ Hs)) as [-> ->]. done.
Qed.
End effects.

(** ** Counting sleepers

    [sleepers c] threads wait on [c] and were not notified, [woken c] were
    notified and have not run yet, [closers c] are in [close] and still have to
    notify [c]. *)
Section counting.
Context {T : Type}.
Implicit Types (q : BoundedQueue T) (t : thread T) (th : list (thread T)) (c : cond_var).

Definition sleepers c th : nat := countb (asleep_on c) th.
Definition woken c th : nat := countb (awake_on c) th.
Definition closers c th : nat := countb (closer_on c) th.

Definition one (b : bool) : nat := if b then 1%nat else 0%nat.

(** The effect on the three counts of replacing thread [i]. *)
Lemma counts_insert c th i t t' :
  th !! i = Some t ->
  (sleepers c (<[i:=t']> th) + one (asleep_on c t) = sleepers c th + one (asleep_on c t'))%nat /\
  (woken c (<[i:=t']> th) + one (awake_on c t) = woken c th + one (awake_on c t'))%nat /\
  (closers c (<[i:=t']> th) + one (closer_on c t) = closers c th + one (closer_on c t'))%nat.
Proof. intros Hi. repeat split; by apply countb_insert. Qed.

Lemma wake_asleep c t : asleep_on c t = true ->
  asleep_on c (wake t) = false /\ awake_on c t = false /\ awake_on c (wake t) = true.
Proof. by destruct t as [|? ? []|? []|], c. Qed.

Lemma wake_other c c' t : asleep_on c t = true -> c <> c' ->
  asleep_on c' t = false /\ asleep_on c' (wake t) = false /\
  awake_on c' t = false /\ awake_on c' (wake t) = false.
Proof. by destruct t as [|? ? []|? []|], c, c'. Qed.

Lemma wake_closer c t : closer_on c (wake t) = closer_on c t.
Proof. by destruct t. Qed.

Lemma wake_on_spec c c' t :
  asleep_on c' (wake_on c t) = asleep_on c' t && bool_decide (c <> c') /\
  (c <> c' -> awake_on c' (wake_on c t) = awake_on c' t) /\
  closer_on c' (wake_on c t) = closer_on c' t.
Proof. by destruct t as [|? ? []|? []|], c, c'. Qed.

(** What a notification on [c] does to the counts of [c'].  [awakened] is how
    many threads it makes runnable. *)
Lemma notified_counts sg th th' c' :
  notified sg th th' ->
  closers c' th' = closers c' th /\
  match sg with
  | notify_one c =>
      if decide (c = c') then
        (sleepers c' th' = 0%nat \/ woken c' th' = S (woken c' th)) /\
        (sleepers c' th' <= sleepers c' th)%nat
      else sleepers c' th' = sleepers c' th /\ woken c' th' = woken c' th
  | notify_all c =>
      if decide (c = c') then sleepers c' th' = 0%nat
      else sleepers c' th' = sleepers c' th /\ woken c' th' = woken c' th
  end.
Proof.
  destruct 1 as [c th Hno|c th i t Hi Ht|c th].
  - split; [done|]. case_decide as Hc; [subst|done].
    split; [left; by apply countb_zero|done].
  - destruct (counts_insert c' th i t (wake t) Hi) as (Hs & Hw & Hcl).
    rewrite wake_closer in Hcl. split; [lia|].
    case_decide as Hc; [subst c'|].
    + destruct (wake_asleep c t Ht) as (E1 & E2 & E3).
      rewrite ?Ht, ?E1, ?E2, ?E3 in *. simpl in *. lia.
    + destruct (wake_other c c' t Ht Hc) as (E1 & E2 & E3 & E4).
      rewrite ?E1, ?E2, ?E3, ?E4 in *. lia.
  - split; [apply countb_ext_map; intros t; apply wake_on_spec|].
    case_decide as Hc; [subst c'|].
    + apply countb_zero. intros t (t0 & -> & _)%list_elem_of_fmap.
      destruct (wake_on_spec c c t0) as (-> & _).
      rewrite bool_decide_eq_false_2 by auto. apply andb_false_r.
    + split; apply countb_ext_map; intros t; destruct (wake_on_spec c c' t) as (Ea & Eb & _).
      * rewrite Ea, bool_decide_eq_true_2 by done. apply andb_true_r.
      * by apply Eb.
Qed.

(** The elements a consumer could take, the places a producer could fill. *)
Definition demand c q : Z :=
  match c with
  | not_empty_ => zlen (items_ q)
  | not_full_ => capacity_ q - zlen (items_ q)
  end.

(** Marks the updates whose counts are already known. *)
Definition tagged th : Prop := True.

(** No wake-up is lost: if a thread sleeps on [c] while the queue is open,
    every unit of demand has a notified thread on its way to it; if the queue
    is closed, a closer has yet to notify [c]. *)
Definition wake_inv q th c : Prop :=
  (0 < sleepers c th)%nat ->
  if closed_ q then (0 < closers c th)%nat else demand c q <= Z.of_nat (woken c th).
End counting.

(** Turn notifications and thread updates into facts about the counts of [c]. *)
Ltac counts c :=
  repeat match goal with
  | H : notifieds (_ :: _) _ _ |- _ => inversion H; subst; clear H
  | H : notifieds [] _ _ |- _ => inversion H; subst; clear H
  end;
  repeat match goal with
  | H : notified _ _ _ |- _ => apply notified_counts with (c' := c) in H; simpl in H
  end;
  repeat match goal with
  | Hi : ?th !! ?i = Some ?t, H : context [<[?i := ?t']> ?th] |- _ =>
      lazymatch goal with
      | _ : tagged (<[i := t']> th) |- _ => fail
      | _ => pose proof (counts_insert c th i t t' Hi);
             assert (tagged (<[i := t']> th)) by exact I
      end
  | Hi : ?th !! ?i = Some ?t |- context [<[?i := ?t']> ?th] =>
      lazymatch goal with
      | _ : tagged (<[i := t']> th) |- _ => fail
      | _ => pose proof (counts_insert c th i t t' Hi);
             assert (tagged (<[i := t']> th)) by exact I
      end
  end.

Section invariant.
Context {T : Type}.
Implicit Types (q : BoundedQueue T) (th : list (thread T)) (σ : system T).

(** Threads that may run a push section, and a pop section. *)
Definition pusher (t : thread T) : Prop :=
  match t with Idle | Pushing _ _ _ => True | _ => False end.
Definition popper (t : thread T) : Prop :=
  match t with Idle | Popping _ _ => True | _ => False end.

Lemma push_keeps_wake q th th' i t v s c :
  queue_wf q -> push_shape q v s -> th !! i = Some t -> pusher t ->
  wake_inv q th c -> notifieds (sec_signals s) (<[i := after_push v s]> th) th' ->
  wake_inv (sec_queue s) th' c.
Proof.
  intros [Hcap _ _ _] Hs Hi Ht Hinv Hn. unfold wake_inv, after_push in *.
  destruct Hs; simpl in *; repeat case_bool; counts c;
    destruct c, t as [|? ? []|? []|]; try done;
    simpl in *; destruct (closed_ q); simplify_eq; try lia; zlens; try lia.
  all: destruct (items_ q); simpl in *; len.
Qed.

Lemma pop_keeps_wake q th th' i t s c :
  queue_wf q -> pop_shape q s -> th !! i = Some t -> popper t ->
  wake_inv q th c -> notifieds (sec_signals s) (<[i := after_pop s]> th) th' ->
  wake_inv (sec_queue s) th' c.
Proof.
  intros [Hcap _ _ _] Hs Hi Ht Hinv Hn. unfold wake_inv, after_pop in *.
  destruct Hs; simpl in *; counts c;
    destruct c, t as [|? ? []|? []|]; try done;
    simpl in *; destruct (closed_ q); simplify_eq;
    repeat match goal with H : items_ q = _ |- _ => rewrite H in * end; zlens; try lia.
Qed.

Lemma close_notify_keeps_wake q th th' i sg pending c :
  th !! i = Some (Closing (sg :: pending)) ->
  notified sg (<[i := Closing pending]> th) th' ->
  wake_inv q th c -> wake_inv q th' c.
Proof.
  unfold wake_inv. intros Hi Hn Hinv. counts c.
  destruct (decide (sg = notify_all c)) as [->|Hsg].
  { rewrite decide_True in Hn by done. lia. }
  assert (Heq : closer_on (T := T) c (Closing (sg :: pending)) = closer_on (T := T) c (Closing pending)).
  { apply bool_decide_ext. rewrite elem_of_cons. split; [intros [?|?]|]; auto; congruence. }
  rewrite Heq in *. simpl in *.
  destruct sg as [c'|c']; destruct (decide (c' = c)) as [->|Hc]; try done;
    destruct (closed_ q); lia.
Qed.

Lemma clear_keeps_wake q th th' c :
  notifieds (sec_signals (clear q)) th th' ->
  wake_inv q th c -> wake_inv (sec_queue (clear q)) th' c.
Proof.
  unfold wake_inv. simpl. intros Hn Hinv. counts c.
  destruct c; simpl in *; destruct (closed_ q); zlens; lia.
Qed.

Lemma step_wake_inv σ e σ' :
  queue_wf (sys_queue σ) -> step σ e σ' ->
  (forall c, wake_inv (sys_queue σ) (sys_threads σ) c) ->
  forall c, wake_inv (sys_queue σ') (sys_threads σ') c.
Proof.
  intros Hwf Hs Hinv c. specialize (Hinv c). destruct Hs; simpl in *.
  - eapply push_keeps_wake; eauto with rdb; done.
  - eapply push_keeps_wake; eauto with rdb; done.
  - eapply pop_keeps_wake; eauto with rdb; done.
  - eapply pop_keeps_wake; eauto with rdb; done.
  - unfold wake_inv in *; simpl. counts c. simpl in *.
    assert (closer_on (T := T) c (Closing close_signals) = true) as Hc
      by (by destruct c).
    simpl in Hc. rewrite Hc in *. destruct (closed_ q); simpl in *; lia.
  - by eapply close_notify_keeps_wake.
  - unfold wake_inv in *; simpl. counts c. simpl in *.
    destruct (closed_ q); lia.
  - by apply clear_keeps_wake with th.
  - unfold wake_inv in *; simpl. counts c.
    destruct c, t as [|? ? []|? []|]; simpl in *; destruct (closed_ q); lia.
  - done.
Qed.
End invariant.

(** ** A scheduler that runs

    One deterministic way to take each step, so that concrete interleavings
    evaluate: a notification wakes the first sleeper.  Every run of the
    scheduler is a run of the step relation. *)
Section scheduler.
Context {T : Type}.
Implicit Types (q : BoundedQueue T) (th : list (thread T)) (σ : system T).

Inductive command :=
  | CPush (i : nat) (v : T) (deadline : Z)
  | CPop (i : nat) (deadline : Z)
  | CResume (i : nat)
  | CTimeout (i : nat)
  | CClose (i : nat)
  | CCloseNext (i : nat)
  | CClear (i : nat)
  | CTick (dt : Z).

Fixpoint wake_first (c : cond_var) th : list (thread T) :=
  match th with
  | [] => []
  | t :: th => if asleep_on c t then wake t :: th else t :: wake_first c th
  end.

Definition notify (sg : signal) th : list (thread T) :=
  match sg with
  | notify_one c => wake_first c th
  | notify_all c => wake_on c <$> th
  end.

Definition notify_seq (sgs : list signal) th : list (thread T) :=
  foldl (fun th sg => notify sg th) th sgs.

Definition exec_push q th now i v d (s : section T PushStatus) : event T * system T :=
  (EvPush i v d s,
   mkSystem (sec_queue s) (notify_seq (sec_signals s) (<[i := after_push v s]> th)) now).

Definition exec_pop q th now i d (s : section T (option T)) : event T * system T :=
  (EvPop i d s,
   mkSystem (sec_queue s) (notify_seq (sec_signals s) (<[i := after_pop s]> th)) now).

Definition queue_exec1 σ (c : command) : option (event T * system T) :=
  let '(mkSystem q th now) := σ in
  match c with
  | CPush i v d =>
      match th !! i with
      | Some Idle => Some (exec_push q th now i v d (push_until q v d))
      | _ => None
      end
  | CPop i d =>
      match th !! i with
      | Some Idle => Some (exec_pop q th now i d (pop_until q d))
      | _ => None
      end
  | CResume i =>
      match th !! i with
      | Some (Pushing v d true) => Some (exec_push q th now i v d (push_resume q v d false))
      | Some (Popping d true) => Some (exec_pop q th now i d (pop_resume q d false))
      | _ => None
      end
  | CTimeout i =>
      match th !! i with
      | Some (Pushing v d _) =>
          if negb (d =? tp_max) && (d <=? now)
          then Some (exec_push q th now i v d (push_resume q v d true)) else None
      | Some (Popping d _) =>
          if negb (d =? tp_max) && (d <=? now)
          then Some (exec_pop q th now i d (pop_resume q d true)) else None
      | _ => None
      end
  | CClose i =>
      match th !! i with
      | Some Idle =>
          Some (EvClose i,
                mkSystem (sec_queue (close q)) (<[i := Closing close_signals]> th) now)
      | _ => None
      end
  | CCloseNext i =>
      match th !! i with
      | Some (Closing (sg :: pending)) =>
          Some (EvClosing i, mkSystem q (notify sg (<[i := Closing pending]> th)) now)
      | Some (Closing []) => Some (EvClosing i, mkSystem q (<[i := Idle]> th) now)
      | _ => None
      end
  | CClear i =>
      match th !! i with
      | Some Idle =>
          Some (EvClear i (clear q),
                mkSystem (sec_queue (clear q)) (notify_seq (sec_signals (clear q)) th) now)
      | _ => None
      end
  | CTick dt => if 0 <=? dt then Some (EvInternal, mkSystem q th (now + dt)) else None
  end.

Lemma wake_first_spec c th :
  ((forall t, t ∈ th -> asleep_on c t = false) /\ wake_first c th = th) \/
  exists i t, th !! i = Some t /\ asleep_on c t = true /\ wake_first c th = <[i := wake t]> th.
Proof.
  induction th as [|t th IH]; [left; set_solver|]. simpl.
  destruct (asleep_on c t) eqn:Ht; [by right; exists 0%nat, t|].
  destruct IH as [[Hno ->]|(i & t' & Hi & Ht' & ->)].
  - left. split; [|done]. intros t' [->|Hin]%elem_of_cons; auto.
  - right. by exists (S i), t'.
Qed.

Lemma wake_first_notified c th : notified (notify_one c) th (wake_first c th).
Proof.
  destruct (wake_first_spec c th) as [[Hno ->]|(i & t & Hi & Ht & ->)].
  - by constructor.
  - by apply notified_one.
Qed.

Lemma notify_notified sg th : notified sg th (notify sg th).
Proof. destruct sg; [apply wake_first_notified|constructor]. Qed.

Lemma notify_seq_notifieds sgs th : notifieds sgs th (notify_seq sgs th).
Proof.
  revert th. induction sgs as [|sg sgs IH]; intros th; [constructor|].
  econstructor; [apply notify_notified|apply IH].
Qed.

Lemma expired_spec d now : negb (d =? tp_max) && (d <=? now) = true -> expired d now.
Proof. unfold expired. repeat case_bool; simpl; try done. Qed.

Lemma queue_exec1_sound σ c e σ' : queue_exec1 σ c = Some (e, σ') -> step σ e σ'.
Proof.
  destruct σ as [q th now], c; simpl; intros H; repeat case_match; simplify_eq;
    unfold exec_push, exec_pop in *; simplify_eq;
    eauto using step, notify_notified, notify_seq_notifieds.
  - eapply (step_push_resume _ _ _ _ _ _ _ true); eauto using notify_seq_notifieds, expired_spec.
  - eapply (step_pop_resume _ _ _ _ _ _ true); eauto using notify_seq_notifieds, expired_spec.
  - apply step_tick. case_bool; [lia|done].
Qed.

#[export] Instance queue_scheduler : Scheduler (system T) (event T) command :=
  {| exec1 := queue_exec1; exec1_sound := queue_exec1_sound |}.
End scheduler.
Arguments command : clear implicits.
