(* ===== verification/QueueTheorems.v ===== *)
(** * QueueTheorems

    What [BoundedQueue] promises to the threads that share it, for every
    interleaving: nothing is lost, duplicated or reordered; no wake-up is lost;
    the capacity and the counters are exact; a timeout is reported only when the
    time is up; [close] releases everyone. *)

From S2P Require Import Prelude Lts BoundedQueue QueueSystem.

(** ** Helper lemmas *)
Section helpers.
Context {T : Type}.
Implicit Types (q : BoundedQueue T) (th : list (thread T)) (σ : system T).

Lemma accepted_snoc (tr : list (event T)) e : accepted (tr ++ [e]) = accepted tr ++ accepted_by e.
Proof. unfold accepted. rewrite bind_app. simpl. by rewrite app_nil_r. Qed.

Lemma removed_snoc (tr : list (event T)) e : removed (tr ++ [e]) = removed tr ++ removed_by e.
Proof. unfold removed. rewrite bind_app. simpl. by rewrite app_nil_r. Qed.

Lemma popped_snoc (tr : list (event T)) e : popped (tr ++ [e]) = popped tr ++ popped_by e.
Proof. unfold popped. rewrite bind_app. simpl. by rewrite app_nil_r. Qed.

Lemma popped_sublist_removed (tr : list (event T)) : popped tr `sublist_of` removed tr.
Proof.
  induction tr as [|e tr IH]; [constructor|]. unfold popped, removed in *. simpl.
  apply sublist_app; [|done]. by destruct e; simpl; try apply sublist_nil_l.
Qed.

(** The central history invariant. *)
Lemma run_history c p n now tr σ :
  fits 64 c -> run (init c p n now) tr σ ->
  accepted tr = removed tr ++ items_ (sys_queue σ).
Proof.
  intros Hc. induction 1 as [|tr e σ σ' Hr IH Hs]; [done|].
  rewrite accepted_snoc, removed_snoc, IH, <-!app_assoc. f_equal.
  eauto using effect_items, step_effect, run_queue_wf.
Qed.

Lemma run_wake_inv c p n now tr σ cv :
  fits 64 c -> run (init c p n now) tr σ ->
  wake_inv (sys_queue σ) (sys_threads σ) cv.
Proof.
  intros Hc Hr. revert cv. induction Hr as [|tr e σ σ' Hr IH Hs].
  - intros cv Hpos. simpl in *. exfalso.
    unfold sleepers in Hpos. rewrite countb_zero in Hpos; [lia|].
    intros t [-> _]%elem_of_replicate. by destruct cv.
  - eauto using step_wake_inv, run_queue_wf.
Qed.

Lemma sleeper_counts cv th i t :
  th !! i = Some t -> asleep_on cv t = true -> (0 < sleepers cv th)%nat.
Proof. apply countb_pos. Qed.

Lemma effect_size_high_water q e q' :
  queue_effect q e q' -> queue_wf q -> high_water_ q' = Z.max (high_water_ q) (zlen (items_ q')).
Proof.
  intros He [Hc Hl Hh _]. pose proof (zlen_nonneg (items_ q)).
  destruct He as [i v d s Hs|i d s Hs| | | |]; simpl; try lia; [| |len].
  - destruct Hs; simpl; try lia.
    + destruct (items_ q); simpl in *; len.
    + case_bool; simpl in *; len.
  - destruct Hs as [| | |v rest Hi]; simpl; try lia. rewrite Hi in *. len.
Qed.

Lemma quiet_thread cv (t : thread T) :
  t = Idle \/ asleep_on not_full_ t = true \/ asleep_on not_empty_ t = true ->
  closer_on cv t = false /\ awake_on cv t = false.
Proof. by destruct t as [|? ? []|? []|], cv; intros [?|[?|?]]. Qed.

(** With nobody notified and no [close] under way, a sleeper has nothing to wait for. *)
Lemma quiet_sleeper c p n now tr σ :
  fits 64 c -> run (init c p n now) tr σ ->
  (forall t, t ∈ sys_threads σ -> t = Idle \/ asleep_on not_full_ t = true \/ asleep_on not_empty_ t = true) ->
  forall cv t, t ∈ sys_threads σ -> asleep_on cv t = true ->
    closed_ (sys_queue σ) = false /\ demand cv (sys_queue σ) <= 0.
Proof.
  intros Hc Hr Hquiet cv t [i Hi]%list_elem_of_lookup Ht.
  pose proof (run_wake_inv c p n now tr σ cv Hc Hr (sleeper_counts cv _ i t Hi Ht)) as Hinv.
  unfold closers, woken in Hinv.
  rewrite !countb_zero in Hinv by (intros t' Ht'; by apply quiet_thread, Hquiet).
  destruct (closed_ (sys_queue σ)); [lia|]. split; [done|lia].
Qed.

(** Some state passed through had the size recorded as the high-water mark. *)
Lemma run_peak c p n now (tr : list (event T)) σ :
  fits 64 c -> run (init c p n now) tr σ ->
  exists tr1 σ1 tr2, run (init c p n now) tr1 σ1 /\ run σ1 tr2 σ /\
    zlen (items_ (sys_queue σ1)) = high_water_ (sys_queue σ).
Proof.
  intros Hc. induction 1 as [|tr e σ σ' Hr IH Hs].
  - exists [], (init c p n now), []. repeat split; constructor.
  - pose proof (effect_size_high_water _ _ _ (step_effect _ _ _ Hs)
                  (run_queue_wf c p n now _ _ Hc Hr)) as Hmax.
    destruct (Z.max_spec (high_water_ (sys_queue σ)) (zlen (items_ (sys_queue σ'))))
      as [[? Hm]|[? Hm]]; rewrite Hm in Hmax.
    + exists (tr ++ [e]), σ', []. repeat split; [by econstructor|constructor|done].
    + destruct IH as (tr1 & σ1 & tr2 & ? & ? & Hsz). exists tr1, σ1, (tr2 ++ [e]).
      repeat split; [done|by econstructor|congruence].
Qed.

Lemma push_until_full q v d now :
  sec_outcome (push_until q v d) = Returned Full ->
  closed_ q = false /\ capacity_ q <= zlen (items_ q) /\ (d = tp_min \/ expired d now).
Proof.
  unfold push_until, wait_for_space, push_after_wait, cv_wait, push_ready, push_back.
  destruct (closed_ q) eqn:Hcl, (policy_ q); simpl; repeat case_bool; simpl;
    intros ?; simplify_eq; auto; lia.
Qed.

Lemma pop_until_none q d now :
  sec_outcome (pop_until q d) = Returned None ->
  items_ q = [] /\ (closed_ q = true \/ d = tp_min \/ expired d now).
Proof.
  unfold pop_until, pop_after_wait, cv_wait, pop_ready, pop_front.
  destruct (closed_ q) eqn:Hcl, (items_ q) eqn:Hi; simpl; repeat case_bool; simpl;
    intros ?; simplify_eq; auto.
Qed.

Lemma push_resume_full q v d t :
  sec_outcome (push_resume q v d t) = Returned Full ->
  t = true /\ closed_ q = false /\ capacity_ q <= zlen (items_ q).
Proof.
  unfold push_resume, push_after_wait, cv_wait, push_ready, push_back.
  destruct (closed_ q) eqn:Hcl, t; simpl; repeat case_bool; simpl;
    intros ?; simplify_eq; auto; lia.
Qed.

Lemma pop_resume_none q d t :
  sec_outcome (pop_resume q d t) = Returned None ->
  items_ q = [] /\ (closed_ q = true \/ t = true).
Proof.
  unfold pop_resume, pop_after_wait, cv_wait, pop_ready, pop_front.
  destruct (closed_ q) eqn:Hcl, t, (items_ q) eqn:Hi; simpl; repeat case_bool; simpl;
    intros ?; simplify_eq; auto.
Qed.

Lemma push_until_returns q v d :
  policy_ q <> Block -> exists st, sec_outcome (push_until q v d) = Returned st.
Proof.
  intros Hp. unfold push_until, push_back.
  destruct (closed_ q), (policy_ q); simpl; try done; repeat case_bool; simpl; eauto.
Qed.

(** A section goes to sleep until the deadline of its caller. *)
Lemma push_after_wait_sleeps q (v : T) d w c d' :
  sec_outcome (push_after_wait q v d w) = Sleeps c d' -> d' = d.
Proof. unfold push_after_wait, push_back. destruct w as [[]|]; simpl; repeat case_match; intros ?; by simplify_eq. Qed.

Lemma push_until_sleeps q (v : T) d c d' :
  sec_outcome (push_until q v d) = Sleeps c d' -> d' = d.
Proof.
  unfold push_until. repeat case_match; try (intros ?; by simplify_eq/=).
  apply push_after_wait_sleeps.
Qed.

Lemma pop_after_wait_sleeps (q : BoundedQueue T) d w c d' :
  sec_outcome (pop_after_wait q d w) = Sleeps c d' -> d' = d.
Proof. unfold pop_after_wait, pop_front. destruct w as [[]|]; simpl; repeat case_match; intros ?; by simplify_eq. Qed.

Lemma pop_until_sleeps (q : BoundedQueue T) d c d' :
  sec_outcome (pop_until q d) = Sleeps c d' -> d' = d.
Proof.
  unfold pop_until, pop_front. repeat case_match; try (intros ?; by simplify_eq/=);
    apply pop_after_wait_sleeps.
Qed.

Definition is_pushing (t : thread T) : bool :=
  match t with Pushing _ _ _ => true | _ => false end.

Lemma notified_pushing sg th th' :
  notified sg th th' -> countb is_pushing th' = countb is_pushing th.
Proof.
  destruct 1 as [|c th i t Hi Ht|c th]; [done| |].
  - pose proof (countb_insert is_pushing th i t (wake t) Hi).
    assert (is_pushing (wake t) = is_pushing t) as Heq by by destruct t.
    rewrite Heq in *. lia.
  - apply countb_ext_map. by intros [|? ? []|? []|]; destruct c.
Qed.

Lemma notifieds_pushing sgs th th' :
  notifieds sgs th th' -> countb is_pushing th' = countb is_pushing th.
Proof.
  induction 1 as [|sg sgs th th1 th2 Hn Hns IH]; [done|].
  rewrite IH. by eapply notified_pushing.
Qed.

Lemma step_pushing σ e σ' :
  step σ e σ' -> policy_ (sys_queue σ) <> Block ->
  countb is_pushing (sys_threads σ) = 0%nat -> countb is_pushing (sys_threads σ') = 0%nat.
Proof.
  intros Hs Hp H0. destruct Hs as [q th now i v d th' Hi s Hn|q th now i v d aw to th' Hi _ s Hn
    |q th now i d th' Hi s Hn|q th now i d aw to th' Hi _ s Hn|q th now i Hi
    |q th now i sg pd th' Hi Hn|q th now i Hi|q th now i th' Hi s Hn|q th now i t Hi|]; simpl in *;
    try (apply notifieds_pushing in Hn || apply notified_pushing in Hn);
    try match goal with
    | |- context [<[?i := ?t']> ?th] => pose proof (countb_insert is_pushing th i _ t' Hi)
    | _ : context [<[?i := ?t']> ?th] |- _ => pose proof (countb_insert is_pushing th i _ t' Hi)
    end; simpl in *; try lia.
  - destruct (push_until_returns q v d Hp) as [st Hst]. subst s.
    unfold after_push in *. rewrite Hst in *. simpl in *. lia.
  - destruct (is_pushing (after_push v s)); lia.
  - unfold after_pop in *. destruct (sec_outcome s); simpl in *; lia.
  - unfold after_pop in *. destruct (sec_outcome s); simpl in *; lia.
  - destruct t; simpl in *; lia.
Qed.

Lemma run_no_pushing c p n now (tr : list (event T)) σ :
  p <> Block -> run (init c p n now) tr σ -> countb is_pushing (sys_threads σ) = 0%nat.
Proof.
  intros Hp. induction 1 as [|tr e σ σ' Hr IH Hs].
  - apply countb_zero. by intros t [-> _]%elem_of_replicate.
  - destruct (run_config c p n now tr σ Hr) as [_ Hpol].
    eapply step_pushing; [done|congruence|done].
Qed.

Lemma after_push_pusher v (s : section T PushStatus) :
  after_push v s = Idle \/ exists c d, after_push v s = Pushing v d false /\ sec_outcome s = Sleeps c d.
Proof. unfold after_push. destruct (sec_outcome s) as [|c d]; eauto. Qed.
End helpers.

(** ** The properties *)
Section properties.
Context {T : Type}.

(** C2: every element that a push accepted is, in the order of acceptance, either
    already out of the queue (popped, evicted by the overflow policy, or
    cleared) or still in it: nothing is lost, duplicated or reordered,
    whatever the policy and however the threads interleave. *)
Theorem queue_history_exact (c : Z) (p : OverflowPolicy) (n : nat) (now : Z)
    (tr : list (event T)) (σ : system T) :
  fits 64 c -> run (init c p n now) tr σ ->
  accepted tr = removed tr ++ items_ (sys_queue σ) /\
  popped tr `sublist_of` accepted tr.
Proof.
  intros Hc Hr. pose proof (run_history c p n now tr σ Hc Hr) as Hh. split; [done|].
  rewrite Hh. apply sublist_inserts_r, popped_sublist_removed.
Qed.

(** No wake-up is lost. While a thread sleeps on a condition variable of an
    open queue, every unit of what it waits for (an element for a consumer, a
    free place for a producer) has a notified thread of its own about to run;
    if the queue is closed, a [close] is about to notify them all. So the
    system is never stuck with work to do. *)
Theorem no_lost_wakeup (c : Z) (p : OverflowPolicy) (n : nat) (now : Z)
    (tr : list (event T)) (σ : system T) (cv : cond_var) (i : nat) (t : thread T) :
  fits 64 c -> run (init c p n now) tr σ ->
  sys_threads σ !! i = Some t -> asleep_on cv t = true ->
  if closed_ (sys_queue σ)
  then exists j t', sys_threads σ !! j = Some t' /\ closer_on cv t' = true
  else demand cv (sys_queue σ) <= Z.of_nat (woken cv (sys_threads σ)).
Proof.
  intros Hc Hr Hi Ht.
  pose proof (run_wake_inv c p n now tr σ cv Hc Hr (sleeper_counts cv _ i t Hi Ht)) as Hinv.
  destruct (closed_ (sys_queue σ)); [|done].
  apply countb_pos_inv in Hinv as (j & t' & ? & ?). eauto.
Qed.

(** Producers and consumers never deadlock against each other. When no
    notified thread is left to run and no [close] is in progress, threads
    asleep in [push] mean a full open queue and threads asleep in [pop] an
    empty open queue, so both cannot be asleep at once. *)
Theorem no_producer_consumer_deadlock (c : Z) (p : OverflowPolicy) (n : nat) (now : Z)
    (tr : list (event T)) (σ : system T) :
  fits 64 c -> run (init c p n now) tr σ ->
  (forall t, t ∈ sys_threads σ -> t = Idle \/ asleep_on not_full_ t = true \/ asleep_on not_empty_ t = true) ->
  (forall t, t ∈ sys_threads σ -> asleep_on not_full_ t = true ->
     closed_ (sys_queue σ) = false /\ zlen (items_ (sys_queue σ)) = capacity_ (sys_queue σ) /\
     (forall t', t' ∈ sys_threads σ -> asleep_on not_empty_ t' = false)) /\
  (forall t, t ∈ sys_threads σ -> asleep_on not_empty_ t = true ->
     closed_ (sys_queue σ) = false /\ items_ (sys_queue σ) = [] /\
     (forall t', t' ∈ sys_threads σ -> asleep_on not_full_ t' = false)).
Proof.
  intros Hc Hr Hquiet. pose proof (quiet_sleeper c p n now tr σ Hc Hr Hquiet) as Hsleep.
  destruct (run_queue_wf c p n now tr σ Hc Hr) as [Hcap Hsz Hhw _].
  split; intros t Hin Ht; destruct (Hsleep _ t Hin Ht) as [Hcl Hd]; simpl in Hd;
    (split; [done|]); (split; [first [lia|apply zlen_0; len]|]);
    intros t' Hin'; destruct (asleep_on _ t') eqn:Ht'; try done;
    destruct (Hsleep _ t' Hin' Ht') as [_ Hd']; simpl in Hd'; lia.
Qed.

(** [close] releases everyone. Once the queue is closed and every [close]
    has sent its notifications, no thread is left asleep, and each waiting
    thread returns as soon as it runs: a producer with [Closed], a consumer
    with the front element or, once the queue is drained, with nothing. *)
Theorem close_releases_waiters (c : Z) (p : OverflowPolicy) (n : nat) (now : Z)
    (tr : list (event T)) (σ : system T) (i : nat) (t : thread T) (timed_out : bool) :
  fits 64 c -> run (init c p n now) tr σ ->
  closed_ (sys_queue σ) = true ->
  (forall pending, Closing pending ∉ sys_threads σ) ->
  sys_threads σ !! i = Some t ->
  match t with
  | Idle => True
  | Pushing v d awake =>
      awake = true /\
      push_resume (sys_queue σ) v d timed_out = sec_return (sys_queue σ) Closed
  | Popping d awake =>
      awake = true /\
      sec_outcome (pop_resume (sys_queue σ) d timed_out) = Returned (head (items_ (sys_queue σ)))
  | Closing _ => False
  end.
Proof.
  intros Hc Hr Hcl Hnc Hi.
  assert (Hno : forall cv, asleep_on cv t = false).
  { intros cv. destruct (asleep_on cv t) eqn:Ht; [|done].
    pose proof (run_wake_inv c p n now tr σ cv Hc Hr (sleeper_counts cv _ i t Hi Ht)) as Hinv.
    rewrite Hcl in Hinv. unfold closers in Hinv. rewrite countb_zero in Hinv; [lia|].
    intros [| | |pending] Hin; try done. by destruct (Hnc pending). }
  destruct t as [|v d awake|d awake|pending]; [done| | |].
  - specialize (Hno not_full_). destruct awake; [|done]. split; [done|].
    unfold push_resume, push_after_wait, cv_wait, push_ready. by rewrite Hcl.
  - specialize (Hno not_empty_). destruct awake; [|done]. split; [done|].
    unfold pop_resume, pop_after_wait, cv_wait, pop_ready, pop_front. rewrite Hcl.
    by destruct (items_ (sys_queue σ)).
  - apply (Hnc pending). by eapply list_elem_of_lookup_2.
Qed.

(** The size never exceeds the capacity, and [high_water_] is exactly the
    largest size the queue has had: no size passed through is larger, and some
    state passed through has that size. *)
Theorem high_water_is_peak (c : Z) (p : OverflowPolicy) (n : nat) (now : Z)
    (tr tr' : list (event T)) (σ σ' : system T) :
  fits 64 c -> run (init c p n now) tr σ -> run σ tr' σ' ->
  zlen (items_ (sys_queue σ)) <= high_water_ (sys_queue σ') <= Z.max 1 c /\
  exists tr1 σ1 tr2, run (init c p n now) tr1 σ1 /\ run σ1 tr2 σ' /\
    zlen (items_ (sys_queue σ1)) = high_water_ (sys_queue σ').
Proof.
  intros Hc Hr Hr'.
  assert (Hrr : forall tr σ', run σ tr σ' -> exists tr0, run (init c p n now) tr0 σ').
  { intros tr0 σ0. induction 1 as [|? ? ? ? ? [tr0 ?] ?]; eauto using run. }
  pose proof (run_peak c p n now tr σ Hc Hr) as Hpeak.
  induction Hr' as [|tr' e σ1 σ2 Hr1 IH Hs].
  - destruct (run_queue_wf c p n now tr σ Hc Hr) as [Hcap ? ? _].
    destruct (run_config c p n now tr σ Hr) as [Hcfg _].
    simpl in Hcfg. split; [case_bool; destruct Hc; lia|done].
  - destruct (Hrr _ _ Hr1) as [tr1 Hr01].
    assert (Hr02 : run (init c p n now) (tr1 ++ [e]) σ2) by by econstructor.
    destruct (run_queue_wf c p n now _ _ Hc Hr02) as [Hcap ? ? _].
    destruct (run_config c p n now _ _ Hr02) as [Hcfg _]. simpl in Hcfg.
    pose proof (effect_size_high_water _ _ _ (step_effect _ _ _ Hs)
                  (run_queue_wf c p n now _ _ Hc Hr01)) as Hmax.
    split; [case_bool; destruct Hc; lia|].
    by apply (run_peak c p n now _ _ Hc Hr02).
Qed.

(** [dropped_] counts, modulo 2^64, exactly the pushes that lost an element
    to the overflow policy (the new one or the oldest). *)
Theorem dropped_is_exact (c : Z) (p : OverflowPolicy) (n : nat) (now : Z)
    (tr : list (event T)) (σ : system T) :
  fits 64 c -> run (init c p n now) tr σ ->
  dropped_ (sys_queue σ) = u64 (Z.of_nat (countb dropping tr)).
Proof.
  intros Hc. induction 1 as [|tr e σ σ' Hr IH Hs]; [done|].
  rewrite (effect_dropped _ _ _ (run_queue_wf c p n now _ _ Hc Hr) (step_effect _ _ _ Hs)).
  rewrite IH, countb_app, countb_cons, wrap_add_l. f_equal.
  change (countb dropping []) with 0%nat. destruct (dropping e); lia.
Qed.

(** A push reports [Full] only when the queue is open and full at that moment
    and the caller's time is up ([try_push], or a deadline that has passed); a
    pop on an open queue returns nothing only when it is empty and the time
    is up. *)
Theorem timeouts_are_real (σ σ' : system T) (e : event T) :
  step σ e σ' ->
  match e with
  | EvPush _ v d s =>
      sec_outcome s = Returned Full ->
      closed_ (sys_queue σ) = false /\
      capacity_ (sys_queue σ) <= zlen (items_ (sys_queue σ)) /\
      (d = tp_min \/ expired d (sys_clock σ))
  | EvPop _ d s =>
      sec_outcome s = Returned None ->
      items_ (sys_queue σ) = [] /\
      (closed_ (sys_queue σ) = true \/ d = tp_min \/ expired d (sys_clock σ))
  | _ => True
  end.
Proof.
  destruct 1; simpl; try done.
  - apply push_until_full.
  - intros Hf. apply push_resume_full in Hf as (-> & ? & ?). auto.
  - apply pop_until_none.
  - intros Hf. apply pop_resume_none in Hf as [? [?| ->]]; auto.
Qed.

(** A queue whose policy is to drop never makes a producer wait: every push
    returns at once and no thread is ever asleep in [push]. *)
Theorem drop_policies_never_block (c : Z) (p : OverflowPolicy) (n : nat) (now : Z)
    (tr : list (event T)) (σ : system T) :
  p <> Block -> run (init c p n now) tr σ ->
  (forall v d awake, Pushing v d awake ∉ sys_threads σ) /\
  (forall v d, exists st, sec_outcome (push_until (sys_queue σ) v d) = Returned st).
Proof.
  intros Hp Hr. destruct (run_config c p n now tr σ Hr) as [_ Hpol]. split.
  - apply (run_no_pushing c p n now tr σ Hp) in Hr. intros v d awake [i Hi]%list_elem_of_lookup.
    pose proof (countb_pos is_pushing _ i _ Hi eq_refl). lia.
  - intros v d. apply push_until_returns. congruence.
Qed.
End properties.

(** ** Witnesses

    Concrete interleavings on which the properties above are not vacuous. *)
Section witnesses.
(** A queue of capacity 1 that drops its oldest element: two pushes, one pop. *)
Definition evicting : list (command Z) := [CPush 0 10 tp_max; CPush 1 20 tp_max; CPop 0 tp_max].

(** A blocked producer, woken by a consumer. *)
Definition handover : list (command Z) :=
  [CPush 0 10 tp_max; CPush 1 20 tp_max; CPop 2 tp_max; CResume 1].

(** A producer blocked on a full queue that is closed under it. *)
Definition closing : list (command Z) :=
  [CPush 0 10 tp_max; CPush 1 20 tp_max; CClose 0; CCloseNext 0; CCloseNext 0; CCloseNext 0].

Lemma fits_1 : fits 64 1.
Proof. split; lia. Qed.

Lemma queue_history_exact_witness :
  exists tr σ, exec (init 1 DropOldest 2 0) evicting = Some (tr, σ) /\
    accepted tr = [10; 20] /\ removed tr = [10; 20] /\
    accepted tr = removed tr ++ items_ (sys_queue σ) /\ popped tr `sublist_of` accepted tr.
Proof.
  do 2 eexists. split; [reflexivity|]. split; [reflexivity|]. split; [reflexivity|].
  apply (queue_history_exact 1 DropOldest 2 0); [apply fits_1|].
  apply (exec_sound _ evicting). reflexivity.
Defined.

(** After the consumer's pop, before the producer runs: the producer is awake. *)
Lemma no_lost_wakeup_witness :
  exists tr σ, exec (init 1 Block 4 0) (take 2 handover ++ [CPush 3 30 tp_max; CPop 2 tp_max])
               = Some (tr, σ) /\
    sys_threads σ !! 3%nat = Some (Pushing 30 tp_max false) /\
    demand not_full_ (sys_queue σ) = 1 /\
    demand not_full_ (sys_queue σ) <= Z.of_nat (woken not_full_ (sys_threads σ)).
Proof.
  do 2 eexists. split; [reflexivity|]. split; [reflexivity|]. split; [reflexivity|].
  match goal with
  | |- ?le => match le with demand _ (sys_queue ?σ) <= _ =>
      change (if closed_ (sys_queue σ)
              then exists j t', sys_threads σ !! j = Some t' /\ closer_on not_full_ t' = true
              else le) end
  end.
  eapply (no_lost_wakeup 1 Block 4 0 _ _ not_full_ 3 (Pushing 30 tp_max false));
    [apply fits_1| |reflexivity..].
  apply (exec_sound _ (take 2 handover ++ [CPush 3 30 tp_max; CPop 2 tp_max])). reflexivity.
Defined.

Lemma no_producer_consumer_deadlock_witness :
  exists tr σ, exec (init 1 Block 2 0) (take 2 handover) = Some (tr, σ) /\
    zlen (items_ (sys_queue σ)) = 1 /\
    forall t, t ∈ sys_threads σ -> asleep_on not_empty_ t = false.
Proof.
  do 2 eexists. split; [reflexivity|]. split; [reflexivity|].
  edestruct (no_producer_consumer_deadlock (T := Z) 1 Block 2 0) as [Hfull _];
    [apply fits_1|by apply (exec_sound _ (take 2 handover))| |].
  - intros t Ht. repeat (apply elem_of_cons in Ht as [->|Ht]; [by auto|]).
    by apply not_elem_of_nil in Ht.
  - apply (Hfull (Pushing 20 tp_max false)); [right; left|reflexivity].
Defined.

Lemma close_releases_waiters_witness :
  exists tr σ, exec (init 1 Block 2 0) closing = Some (tr, σ) /\
    sys_threads σ !! 1%nat = Some (Pushing 20 tp_max true) /\
    true = true /\
    push_resume (sys_queue σ) 20 tp_max false = sec_return (sys_queue σ) Closed.
Proof.
  do 2 eexists. split; [reflexivity|]. split; [reflexivity|].
  eapply (close_releases_waiters 1 Block 2 0 _ _ 1 (Pushing 20 tp_max true) false);
    [apply fits_1|by apply (exec_sound _ closing)|reflexivity| |reflexivity].
  intros pending Hin. repeat (apply elem_of_cons in Hin as [?|Hin]; [done|]).
  by apply not_elem_of_nil in Hin.
Defined.

Lemma high_water_is_peak_witness :
  exists tr σ, exec (init 1 DropOldest 2 0) evicting = Some (tr, σ) /\
    zlen (items_ (sys_queue σ)) <= high_water_ (sys_queue σ) <= Z.max 1 1 /\
    exists tr1 σ1 tr2, run (init 1 DropOldest 2 0) tr1 σ1 /\ run σ1 tr2 σ /\
      zlen (items_ (sys_queue σ1)) = high_water_ (sys_queue σ).
Proof.
  do 2 eexists. split; [reflexivity|].
  eapply (high_water_is_peak 1 DropOldest 2 0 _ []);
    [apply fits_1|by apply (exec_sound _ evicting)|constructor].
Defined.

Lemma dropped_is_exact_witness :
  exists tr σ, exec (init 1 DropOldest 2 0) evicting = Some (tr, σ) /\
    dropped_ (sys_queue σ) = u64 (Z.of_nat (countb dropping tr)) /\ countb dropping tr = 1%nat.
Proof.
  do 2 eexists. split; [reflexivity|]. split; [|reflexivity].
  apply (dropped_is_exact 1 DropOldest 2 0); [apply fits_1|by apply (exec_sound _ evicting)].
Defined.

Lemma timeouts_are_real_witness :
  let q := sec_queue (push (new_queue 1 Block) 10) in
  closed_ q = false /\ capacity_ q <= zlen (items_ q) /\ (tp_min = tp_min \/ expired tp_min 0).
Proof.
  intros q.
  apply (timeouts_are_real (mkSystem q [Idle] 0) (mkSystem q [Idle] 0)
           (EvPush 0 20 tp_min (try_push q 20))); [|reflexivity].
  apply (exec1_sound (mkSystem q [Idle] 0) (CPush 0 20 tp_min)). reflexivity.
Defined.
End witnesses.
