(* ===== verification/QueueSpec.v ===== *)
(** * QueueSpec

    What a [BoundedQueue] promises to the threads that share it, without mutex,
    condition variables or notifications: a list with atomic operations.  A call
    takes effect at one moment between its start and its return, and a call that
    has to wait is one whose effect is not possible yet.  [QueueSystem], where a
    blocked thread sleeps, is woken, tests its predicate and sleeps again, refines
    this: the queue is linearizable. *)

From S2P Require Import Prelude Lts BoundedQueue QueueSystem QueueTheorems.

Section spec.
Context {T : Type}.

(** The operations and what they answer. *)
Inductive operation :=
  | OpPush (value : T) (deadline : Z)
  | OpPop (deadline : Z)
  | OpClear
  | OpClose.

Inductive answer :=
  | APush (status : PushStatus)
  | APop (value : option T)
  | ADone.

(** A caller: outside, inside before the effect, inside after it. *)
Inductive caller :=
  | Outside
  | Before (o : operation)
  | After (a : answer).

Record object := mkObject { contents : list T; shut : bool }.

(** The caller's time is up: it would not wait, or its deadline has passed. *)
Definition time_up (d now : Z) : Prop := d = tp_min \/ expired d now.

(** The effect of an operation, where it is possible. *)
Inductive effect (cap : Z) (pol : OverflowPolicy) (now : Z)
  : object -> operation -> answer -> object -> Prop :=
  | effect_push_closed l v d :
      effect cap pol now (mkObject l true) (OpPush v d) (APush Closed) (mkObject l true)
  | effect_push_ok l v d :
      zlen l < cap ->
      effect cap pol now (mkObject l false) (OpPush v d) (APush Ok) (mkObject (l ++ [v]) false)
  | effect_push_newest l v d :
      cap <= zlen l -> pol = DropNewest ->
      effect cap pol now (mkObject l false) (OpPush v d) (APush DroppedNewest) (mkObject l false)
  | effect_push_oldest x l v d :
      cap <= zlen (x :: l) -> pol = DropOldest ->
      effect cap pol now (mkObject (x :: l) false) (OpPush v d) (APush DroppedOldest)
        (mkObject (l ++ [v]) false)
  | effect_push_full l v d :
      cap <= zlen l -> pol = Block -> time_up d now ->
      effect cap pol now (mkObject l false) (OpPush v d) (APush Full) (mkObject l false)
  | effect_pop_some x l b d :
      effect cap pol now (mkObject (x :: l) b) (OpPop d) (APop (Some x)) (mkObject l b)
  | effect_pop_closed d :
      effect cap pol now (mkObject [] true) (OpPop d) (APop None) (mkObject [] true)
  | effect_pop_timeout d :
      time_up d now ->
      effect cap pol now (mkObject [] false) (OpPop d) (APop None) (mkObject [] false)
  | effect_clear l b : effect cap pol now (mkObject l b) OpClear ADone (mkObject [] b)
  | effect_close l b : effect cap pol now (mkObject l b) OpClose ADone (mkObject l true).

Record spec := mkSpec {
  sp_capacity : Z;
  sp_policy : OverflowPolicy;
  sp_object : object;
  sp_callers : list caller;
  sp_clock : Z
}.

(** What the callers see. *)
Inductive visible :=
  | Call (i : nat) (o : operation)
  | Return (i : nat) (a : answer).

Inductive spec_step : spec -> option visible -> spec -> Prop :=
  | spec_call c p ob cs now i o :
      cs !! i = Some Outside ->
      spec_step (mkSpec c p ob cs now) (Some (Call i o)) (mkSpec c p ob (<[i := Before o]> cs) now)
  | spec_effect c p ob cs now i o a ob' :
      cs !! i = Some (Before o) -> effect c p now ob o a ob' ->
      spec_step (mkSpec c p ob cs now) None (mkSpec c p ob' (<[i := After a]> cs) now)
  | spec_return c p ob cs now i a :
      cs !! i = Some (After a) ->
      spec_step (mkSpec c p ob cs now) (Some (Return i a)) (mkSpec c p ob (<[i := Outside]> cs) now)
  | spec_tick c p ob cs now now' :
      now <= now' -> spec_step (mkSpec c p ob cs now) None (mkSpec c p ob cs now').

#[export] Instance spec_lts : LTS spec (option visible) := spec_step.

Definition spec_init (capacity : Z) (policy : OverflowPolicy) (n : nat) (now : Z) : spec :=
  mkSpec (if capacity =? 0 then 1 else capacity) policy (mkObject [] false) (replicate n Outside) now.

(** ** What a run of the queue shows *)

(** Starting from [Idle] a section is also a call. *)
Definition starting (σ : system T) (i : nat) (o : operation) : list visible :=
  match sys_threads σ !! i with Some Idle => [Call i o] | _ => [] end.

Definition ending {R} (i : nat) (f : R -> answer) (o : outcome R) : list visible :=
  match o with Returned r => [Return i (f r)] | Sleeps _ _ => [] end.

Definition visible_of (σ : system T) (e : event T) : list visible :=
  match e with
  | EvPush i v d s => starting σ i (OpPush v d) ++ ending i APush (sec_outcome s)
  | EvPop i d s => starting σ i (OpPop d) ++ ending i APop (sec_outcome s)
  | EvClear i s => [Call i OpClear; Return i ADone]
  | EvClose i => [Call i OpClose]
  | EvClosing i =>
      match sys_threads σ !! i with Some (Closing []) => [Return i ADone] | _ => [] end
  | EvInternal => []
  end.

(** The runs of the queue with what their callers see. *)
Inductive shows (σ0 : system T) : list visible -> system T -> Prop :=
  | shows_nil : shows σ0 [] σ0
  | shows_snoc h e σ σ' : shows σ0 h σ -> step σ e σ' -> shows σ0 (h ++ visible_of σ e) σ'.

(** ** The refinement mapping *)

Definition caller_of (t : thread T) : caller :=
  match t with
  | Idle => Outside
  | Pushing v d _ => Before (OpPush v d)
  | Popping d _ => Before (OpPop d)
  | Closing _ => After ADone
  end.

Definition object_of (q : BoundedQueue T) : object := mkObject (items_ q) (closed_ q).

Definition abstract (σ : system T) : spec :=
  mkSpec (capacity_ (sys_queue σ)) (policy_ (sys_queue σ)) (object_of (sys_queue σ))
    (caller_of <$> sys_threads σ) (sys_clock σ).
End spec.
Arguments operation : clear implicits.
Arguments answer : clear implicits.
Arguments caller : clear implicits.
Arguments object : clear implicits.
Arguments spec : clear implicits.
Arguments visible : clear implicits.

(** ** Every section is a call, an effect and a return, or less *)
Section refinement.
Context {T : Type}.
Implicit Types (q : BoundedQueue T) (th : list (thread T)) (σ : system T).

Lemma notified_callers sg th th' : notified sg th th' -> caller_of <$> th' = caller_of <$> th.
Proof.
  destruct 1 as [|c th i t Hi Ht|c th]; [done| |].
  - rewrite list_fmap_insert. apply list_insert_id. rewrite list_lookup_fmap, Hi. by destruct t.
  - rewrite <-list_fmap_compose. apply list_fmap_ext. intros _ t _. by destruct t as [|? ? []|? []|], c.
Qed.

Lemma notifieds_callers sgs th th' : notifieds sgs th th' -> caller_of <$> th' = caller_of <$> th.
Proof. induction 1 as [|? ? ? ? ? Hn _ ->]; [done|]. by eapply notified_callers. Qed.

(** A call may stay before its effect ... *)
Lemma reaches_start c p (ob : object T) th now i o t :
  th !! i = Some t -> caller_of t = Outside \/ caller_of t = Before o ->
  reaches (mkSpec c p ob (caller_of <$> th) now)
    (match t with Idle => [Call i o] | _ => [] end)
    (mkSpec c p ob (<[i := Before o]> (caller_of <$> th)) now).
Proof.
  intros Hi Ht. assert (Hc : (caller_of <$> th) !! i = Some (caller_of t)) by by rewrite list_lookup_fmap, Hi.
  destruct t as [|v d aw|d aw|pd]; simpl in *.
  - apply (reaches_snoc _ _ _ [] (Some _) (reaches_refl _)). by constructor.
  - destruct Ht as [|[= <-]]; [done|]. rewrite list_insert_id by done. apply reaches_refl.
  - destruct Ht as [|[= <-]]; [done|]. rewrite list_insert_id by done. apply reaches_refl.
  - by destruct Ht.
Qed.

(** ... or go on to its return. *)
Lemma reaches_finish c p (ob ob' : object T) cs now i o a :
  (i < length cs)%nat -> effect c p now ob o a ob' ->
  reaches (mkSpec c p ob (<[i := Before o]> cs) now) [Return i a]
    (mkSpec c p ob' (<[i := Outside]> cs) now).
Proof.
  intros Hi He.
  assert (H1 : spec_step (mkSpec c p ob (<[i := Before o]> cs) now) None
                 (mkSpec c p ob' (<[i := After a]> cs) now)).
  { rewrite <-(list_insert_insert_eq cs i (After a) (Before o)).
    eapply spec_effect; [|done]. by apply list_lookup_insert_eq. }
  assert (H2 : spec_step (mkSpec c p ob' (<[i := After a]> cs) now) (Some (Return i a))
                 (mkSpec c p ob' (<[i := Outside]> cs) now)).
  { rewrite <-(list_insert_insert_eq cs i Outside (After a)).
    apply spec_return. by apply list_lookup_insert_eq. }
  exact (reaches_snoc _ _ _ [] _ (reaches_snoc _ _ _ [] _ (reaches_refl _) H1) H2).
Qed.
(** A section that returns is an effect; one that sleeps changes nothing. *)
Lemma section_refines {R} q q' th th' now i t t' o (f : R -> answer T) (oc : outcome R) :
  th !! i = Some t -> caller_of t = Outside \/ caller_of t = Before o ->
  capacity_ q' = capacity_ q -> policy_ q' = policy_ q ->
  match oc with
  | Returned r =>
      effect (capacity_ q) (policy_ q) now (object_of q) o (f r) (object_of q') /\ caller_of t' = Outside
  | Sleeps _ _ => object_of q' = object_of q /\ caller_of t' = Before o
  end ->
  caller_of <$> th' = caller_of <$> <[i := t']> th ->
  reaches (abstract (mkSystem q th now))
    (match t with Idle => [Call i o] | _ => [] end ++ ending i f oc)
    (abstract (mkSystem q' th' now)).
Proof.
  intros Hi Ht Hc Hp Hoc Hth. unfold abstract. cbn [sys_queue sys_threads sys_clock].
  rewrite Hc, Hp, Hth, list_fmap_insert.
  eapply reaches_trans; [by apply (reaches_start _ _ _ _ _ _ o t)|].
  destruct oc as [r|c d]; destruct Hoc as [Hob ->].
  - apply (reaches_finish _ _ _ _ _ _ _ o (f r)); [|done].
    rewrite length_fmap. by eapply lookup_lt_Some.
  - rewrite Hob. apply reaches_refl.
Qed.

Lemma push_effect q v d now s r :
  queue_wf q -> push_shape q v s -> sec_outcome s = Returned r ->
  (r = Full -> policy_ q = Block /\ time_up d now) ->
  effect (capacity_ q) (policy_ q) now (object_of q) (OpPush v d) (APush r) (object_of (sec_queue s)).
Proof.
  intros [Hcap _ _ _] Hs Hr Hfull. unfold object_of.
  destruct Hs as [Hcl|Hcl Hle Hp|Hcl Hle Hp|Hcl Hle|d' Hcl Hle|Hcl Hlt]; simplify_eq/=.
  - rewrite Hcl. constructor.
  - rewrite Hcl. by constructor.
  - rewrite Hcl. destruct (items_ q) as [|x l]; [rewrite zlen_nil in Hle; lia|]. by constructor.
  - rewrite Hcl. destruct Hfull; [done|]. by constructor.
  - unfold push_back in *. simpl in *. simplify_eq.
    case_bool; simpl; rewrite Hcl; by constructor.
Qed.

Lemma pop_effect q d now s r :
  pop_shape q s -> sec_outcome s = Returned r ->
  (r = None -> closed_ q = true \/ time_up d now) ->
  effect (capacity_ q) (policy_ q) now (object_of q) (OpPop d) (APop r) (object_of (sec_queue s)).
Proof.
  intros Hs Hr Hnone. unfold object_of.
  destruct Hs as [Hcl Hi|Hcl Hi|d' Hcl Hi|v rest Hi]; simplify_eq/=; rewrite Hi.
  - rewrite Hcl. constructor.
  - rewrite Hcl in *. constructor. by destruct Hnone.
  - constructor.
Qed.

(** What the two entries of a push answer or wait for. *)
Lemma push_until_outcome q v d now :
  match sec_outcome (push_until q v d) with
  | Returned r => r = Full -> policy_ q = Block /\ time_up d now
  | Sleeps _ d' => d' = d
  end.
Proof.
  unfold push_until, wait_for_space, push_after_wait, cv_wait, push_ready, push_back, time_up.
  destruct (closed_ q) eqn:Hcl, (policy_ q); simpl; repeat case_bool; simpl; try done; auto; lia.
Qed.

Lemma push_resume_outcome q v d now (timed_out : bool) :
  (timed_out = true -> expired d now) -> policy_ q = Block ->
  match sec_outcome (push_resume q v d timed_out) with
  | Returned r => r = Full -> policy_ q = Block /\ time_up d now
  | Sleeps _ d' => d' = d
  end.
Proof.
  intros Ht Hp. unfold push_resume, push_after_wait, cv_wait, push_ready, push_back, time_up.
  destruct (closed_ q) eqn:Hcl, timed_out; simpl; repeat case_bool; simpl; try done; auto.
Qed.

Lemma pop_until_outcome q d now :
  match sec_outcome (pop_until q d) with
  | Returned r => r = None -> closed_ q = true \/ time_up d now
  | Sleeps _ d' => d' = d
  end.
Proof.
  unfold pop_until, pop_after_wait, cv_wait, pop_ready, pop_front, time_up.
  destruct (closed_ q) eqn:Hcl, (items_ q) eqn:Hi; simpl; repeat case_bool; simpl; try done; auto.
Qed.

Lemma pop_resume_outcome q d now (timed_out : bool) :
  (timed_out = true -> expired d now) ->
  match sec_outcome (pop_resume q d timed_out) with
  | Returned r => r = None -> closed_ q = true \/ time_up d now
  | Sleeps _ d' => d' = d
  end.
Proof.
  intros Ht. unfold pop_resume, pop_after_wait, cv_wait, pop_ready, pop_front, time_up.
  destruct (closed_ q) eqn:Hcl, (items_ q) eqn:Hi, timed_out; simpl; repeat case_bool; simpl; try done; auto.
Qed.

Lemma push_refines q th th' now i v d t s :
  queue_wf q -> push_shape q v s ->
  th !! i = Some t -> caller_of t = Outside \/ caller_of t = Before (OpPush v d) ->
  match sec_outcome s with
  | Returned r => r = Full -> policy_ q = Block /\ time_up d now
  | Sleeps _ d' => d' = d
  end ->
  notifieds (sec_signals s) (<[i := after_push v s]> th) th' ->
  reaches (abstract (mkSystem q th now))
    (match t with Idle => [Call i (OpPush v d)] | _ => [] end ++ ending i APush (sec_outcome s))
    (abstract (mkSystem (sec_queue s) th' now)).
Proof.
  intros Hwf Hs Hi Ht Hoc Hn. destruct (push_shape_config q v s Hs) as (Hc & Hp & _).
  apply (section_refines _ _ _ _ _ _ _ (after_push v s)); [done..| |by eapply notifieds_callers].
  pose proof (push_effect q v d now s) as He. unfold after_push.
  destruct (sec_outcome s) as [r|c d'] eqn:E; [by auto|]. subst d'. split; [|done].
  by destruct Hs; simplify_eq/=.
Qed.

Lemma pop_refines q th th' now i d t s :
  pop_shape q s -> th !! i = Some t -> caller_of t = Outside \/ caller_of t = Before (OpPop d) ->
  match sec_outcome s with
  | Returned r => r = None -> closed_ q = true \/ time_up d now
  | Sleeps _ d' => d' = d
  end ->
  notifieds (sec_signals s) (<[i := after_pop s]> th) th' ->
  reaches (abstract (mkSystem q th now))
    (match t with Idle => [Call i (OpPop d)] | _ => [] end ++ ending i APop (sec_outcome s))
    (abstract (mkSystem (sec_queue s) th' now)).
Proof.
  intros Hs Hi Ht Hoc Hn. destruct (pop_shape_config q s Hs) as (Hc & Hp & _).
  apply (section_refines _ _ _ _ _ _ _ (after_pop s)); [done..| |by eapply notifieds_callers].
  pose proof (pop_effect q d now s) as He. unfold after_pop.
  destruct (sec_outcome s) as [r|c d'] eqn:E; [by auto|]. subst d'. split; [|done].
  by destruct Hs; simplify_eq/=.
Qed.
Lemma close_refines q th now i :
  th !! i = Some Idle ->
  reaches (abstract (mkSystem q th now)) [Call i OpClose]
    (abstract (mkSystem (sec_queue (close q)) (<[i := Closing close_signals]> th) now)).
Proof.
  intros Hi. unfold abstract. cbn [sys_queue sys_threads sys_clock]. rewrite list_fmap_insert.
  eapply (reaches_snoc _ _ _ [Call i OpClose] None).
  { by apply (reaches_start _ _ _ _ _ _ OpClose Idle); [|left]. }
  simpl. rewrite <-(list_insert_insert_eq (caller_of <$> th) i (After ADone) (Before OpClose)).
  eapply spec_effect; [|constructor]. apply list_lookup_insert_eq.
  rewrite length_fmap. by eapply lookup_lt_Some.
Qed.

Lemma close_return_refines q th now i :
  th !! i = Some (Closing []) ->
  reaches (abstract (mkSystem q th now)) [Return i ADone] (abstract (mkSystem q (<[i := Idle]> th) now)).
Proof.
  intros Hi. unfold abstract. cbn [sys_queue sys_threads sys_clock]. rewrite list_fmap_insert.
  apply (reaches_snoc _ _ _ [] (Some _) (reaches_refl _)). constructor. by rewrite list_lookup_fmap, Hi.
Qed.

(** Steps between threads only. *)
Lemma same_callers q th th' now :
  caller_of <$> th' = caller_of <$> th ->
  reaches (abstract (mkSystem q th now)) [] (abstract (mkSystem q th' now)).
Proof. unfold abstract. simpl. intros ->. apply reaches_refl. Qed.

Lemma step_refines σ e σ' :
  queue_wf (sys_queue σ) ->
  (policy_ (sys_queue σ) <> Block -> countb is_pushing (sys_threads σ) = 0%nat) ->
  step σ e σ' -> reaches (abstract σ) (visible_of σ e) (abstract σ').
Proof.
  intros Hwf Hblock Hs.
  destruct Hs as [q th now i v d th' Hi s Hn|q th now i v d aw to th' Hi Hto s Hn
    |q th now i d th' Hi s Hn|q th now i d aw to th' Hi Hto s Hn|q th now i Hi
    |q th now i sg pd th' Hi Hn|q th now i Hi|q th now i th' Hi s Hn|q th now i t Hi|q th now now' Hle];
    simpl in *; unfold starting; cbn [sys_threads]; rewrite ?Hi.
  - apply (push_refines q th th' now i v d Idle s);
      [done|apply push_until_shape|done|by left|apply push_until_outcome|done].
  - assert (Hp : policy_ q = Block).
    { destruct (decide (policy_ q = Block)) as [|Hne]; [done|]. specialize (Hblock Hne).
      pose proof (countb_pos is_pushing th i _ Hi eq_refl). lia. }
    apply (push_refines q th th' now i v d (Pushing v d aw) s);
      [done|apply push_resume_shape|done|by right| |done].
    apply push_resume_outcome; [by intros ->|done].
  - apply (pop_refines q th th' now i d Idle s);
      [apply pop_until_shape|done|by left|apply pop_until_outcome|done].
  - apply (pop_refines q th th' now i d (Popping d aw) s);
      [apply pop_resume_shape|done|by right| |done].
    apply pop_resume_outcome. by intros ->.
  - by apply close_refines.
  - apply same_callers. rewrite (notified_callers _ _ _ Hn), list_fmap_insert. apply list_insert_id.
    by rewrite list_lookup_fmap, Hi.
  - by apply close_return_refines.
  - apply (section_refines q _ th th' now i Idle Idle OpClear (fun _ => ADone) (Returned tt)); auto.
    + split; [constructor|done].
    + rewrite (notifieds_callers _ _ _ Hn), list_insert_id by done. done.
  - apply same_callers. rewrite list_fmap_insert. apply list_insert_id.
    rewrite list_lookup_fmap, Hi. by destruct t.
  - apply (reaches_snoc _ _ _ [] None (reaches_refl _)). by constructor.
Qed.

Lemma shows_run σ0 h σ : shows σ0 h σ -> exists tr, run σ0 tr σ.
Proof.
  induction 1 as [|h e σ σ' _ [tr Hr] Hs]; [exists []; constructor|].
  exists (tr ++ [e]). by econstructor.
Qed.
End refinement.

(** ** The properties *)

(** C1: [BoundedQueue] is linearizable. Whatever its callers see of a run, with its
    condition variables, wake-ups, deadlines and policies, they could have seen of
    a plain list whose operations each take effect at one moment between the call
    and its return, waiting being a matter of the effect not being possible yet. *)
Theorem queue_linearizable {T} (c : Z) (p : OverflowPolicy) (n : nat) (now : Z)
    (h : list (visible T)) (σ : system T) :
  fits 64 c -> shows (init c p n now) h σ ->
  exists tr, run (spec_init c p n now) tr (abstract σ) /\ omap id tr = h.
Proof.
  intros Hc. induction 1 as [|h e σ σ' Hsh IH Hs].
  - exists []. split; [|done].
    replace (abstract (init c p n now)) with (spec_init (T := T) c p n now); [constructor|].
    unfold abstract, spec_init. simpl. by rewrite fmap_replicate.
  - destruct (shows_run _ _ _ Hsh) as [tr Hr]. destruct (run_config c p n now tr σ Hr) as [_ Hp].
    eapply (reaches_trans _ (abstract σ)); [exact IH|]. apply step_refines; [by eapply run_queue_wf| |done].
    rewrite Hp. intros Hne. by eapply run_no_pushing.
Qed.

(** What a sequence of commands shows. *)
Fixpoint exec_shows {T} (σ : system T) (cs : list (command T)) : option (list (visible T) * system T) :=
  match cs with
  | [] => Some ([], σ)
  | c :: cs =>
      '(e, σ1) ← queue_exec1 σ c;
      '(h, σ2) ← exec_shows σ1 cs;
      Some (visible_of σ e ++ h, σ2)
  end.

Lemma shows_trans {T} (σ0 σ : system T) h k σ' : shows σ0 h σ -> shows σ k σ' -> shows σ0 (h ++ k) σ'.
Proof.
  intros H0. induction 1 as [|k e σ1 σ2 _ IH Hs]; [by rewrite app_nil_r|].
  rewrite app_assoc. by econstructor.
Qed.

Lemma exec_shows_sound {T} (σ : system T) cs h σ' : exec_shows σ cs = Some (h, σ') -> shows σ h σ'.
Proof.
  revert σ h. induction cs as [|c cs IH]; intros σ h Hx; simpl in Hx; [simplify_eq; constructor|].
  destruct (queue_exec1 σ c) as [[e σ1]|] eqn:He; [|done]. simpl in Hx.
  destruct (exec_shows σ1 cs) as [[k σ2]|] eqn:Hk; [|done]. simplify_eq/=.
  eapply (shows_trans _ σ1); [|by apply IH].
  apply (shows_snoc _ [] e σ σ1); [constructor|]. by eapply queue_exec1_sound.
Qed.

(** A producer waits while a consumer comes and takes the element before its own. *)
Lemma queue_linearizable_witness :
  exists h σ, exec_shows (init 1 Block 4 0) handover = Some (h, σ) /\
    h = [Call 0 (OpPush 10 tp_max); Return 0 (APush Ok); Call 1 (OpPush 20 tp_max);
         Call 2 (OpPop tp_max); Return 2 (APop (Some 10)); Return 1 (APush Ok)] /\
    exists tr, run (spec_init 1 Block 4 0) tr (abstract σ) /\ omap id tr = h.
Proof.
  do 2 eexists. split; [reflexivity|]. split; [reflexivity|].
  apply (queue_linearizable 1 Block 4 0); [apply fits_1|].
  by apply (exec_shows_sound _ handover).
Defined.

(** C3: and nobody waits without need. When no notified thread is left to run and no
    [close] is under way, a caller that is still inside is one whose operation is
    not possible: all it could get is the answer that its time is up. *)
Theorem waits_only_when_impossible {T} (c : Z) (p : OverflowPolicy) (n : nat) (now : Z)
    (tr : list (event T)) (σ : system T) (i : nat) (o : operation T) (a : answer T) (ob : object T) :
  fits 64 c -> run (init c p n now) tr σ ->
  (forall t, t ∈ sys_threads σ -> t = Idle \/ asleep_on not_full_ t = true \/ asleep_on not_empty_ t = true) ->
  sp_callers (abstract σ) !! i = Some (Before o) ->
  effect (capacity_ (sys_queue σ)) (policy_ (sys_queue σ)) (sys_clock σ) (object_of (sys_queue σ)) o a ob ->
  match o with
  | OpPush _ d => a = APush Full /\ time_up d (sys_clock σ)
  | OpPop d => a = APop None /\ time_up d (sys_clock σ)
  | _ => False
  end.
Proof.
  intros Hc Hr Hquiet Hi He. simpl in Hi. rewrite list_lookup_fmap in Hi.
  destruct (sys_threads σ !! i) as [t|] eqn:Ht; [|done]. apply list_elem_of_lookup_2 in Ht.
  pose proof (quiet_sleeper c p n now tr σ Hc Hr Hquiet) as Hsleep.
  destruct (run_queue_wf c p n now tr σ Hc Hr) as [Hcap _ _ _]. pose proof (Hquiet t Ht) as Hq.
  unfold object_of in He.
  destruct t as [|v d aw|d aw|pd]; simplify_eq/=.
  - assert (aw = false) as -> by (destruct aw; naive_solver).
    destruct (Hsleep not_full_ _ Ht eq_refl) as [Hcl Hd]. simpl in Hd.
    destruct (run_config c p n now tr σ Hr) as [_ Hp].
    assert (Hb : p = Block).
    { destruct (decide (p = Block)) as [|Hne]; [done|].
      pose proof (run_no_pushing c p n now tr σ Hne Hr) as H0.
      apply list_elem_of_lookup in Ht as [k Hk]. pose proof (countb_pos is_pushing _ k _ Hk eq_refl). lia. }
    inversion He; subst; try congruence; lia || auto.
  - assert (aw = false) as -> by (destruct aw; naive_solver).
    destruct (Hsleep not_empty_ _ Ht eq_refl) as [Hcl Hd]. simpl in Hd.
    inversion He as [| | | | |x l b d' Hl Ho| | | |]; subst; try congruence; auto.
    rewrite <-Hl in Hd. zlens. lia.
Qed.

(** A producer asleep at a full queue could only be told that its time is up, and it is not. *)
Lemma waits_only_when_impossible_witness :
  exists tr σ, exec (init 1 Block 2 0) (take 2 handover) = Some (tr, σ) /\
    sp_callers (abstract σ) !! 1%nat = Some (Before (OpPush 20 tp_max)) /\
    forall a ob, effect (capacity_ (sys_queue σ)) (policy_ (sys_queue σ)) (sys_clock σ)
                   (object_of (sys_queue σ)) (OpPush 20 tp_max) a ob ->
                 a = APush Full /\ time_up tp_max (sys_clock σ).
Proof.
  do 2 eexists. split; [reflexivity|]. split; [reflexivity|]. intros a ob He.
  eapply (waits_only_when_impossible (T := Z) 1 Block 2 0 _ _ 1 (OpPush 20 tp_max));
    [apply fits_1|by apply (exec_sound _ (take 2 handover))| |reflexivity|exact He].
  intros t Ht. repeat (apply elem_of_cons in Ht as [->|Ht]; [by auto|]).
  by apply not_elem_of_nil in Ht.
Defined.
