(* ===== verification/Qos.v ===== *)
(** * Qos

    The quality-of-service policies and the compatibility rule between what a
    publisher offers and what a subscriber requests
    (code/include/rdb/bus/qos.h).  Durations are [nanoseconds], signed 64-bit
    counts. *)

From S2P Require Import Prelude.
From stdpp Require Import strings.
Open Scope Z_scope.

Inductive Reliability := BestEffort | Reliable.
Inductive Durability := Volatile | TransientLocal.
Inductive HistoryKind := KeepLast | KeepAll.

#[export] Instance Reliability_eq_dec : EqDecision Reliability.
Proof. solve_decision. Defined.
#[export] Instance Durability_eq_dec : EqDecision Durability.
Proof. solve_decision. Defined.
#[export] Instance HistoryKind_eq_dec : EqDecision HistoryKind.
Proof. solve_decision. Defined.

Record QoS := mkQoS {
  reliability : Reliability;
  durability : Durability;
  history : HistoryKind;
  depth : Z;
  deadline : Z;
  lifespan : Z
}.

(** The default member initialisers of [QoS]. *)
Definition default_qos : QoS := mkQoS Reliable Volatile KeepLast 10 0 0.

Definition sensor_data (depth_ : Z) : QoS :=
  let q := default_qos in mkQoS BestEffort Volatile (history q) depth_ (deadline q) (lifespan q).

Definition command (depth_ : Z) : QoS :=
  let q := default_qos in mkQoS Reliable Volatile (history q) depth_ (deadline q) (lifespan q).

Definition latched (depth_ : Z) : QoS :=
  let q := default_qos in
  mkQoS Reliable TransientLocal (history q) depth_ (deadline q) (lifespan q).

(** [enum class QosMismatch { None, Reliability, Durability, Deadline }]. *)
Inductive QosMismatch := NoMismatch | ReliabilityMismatch | DurabilityMismatch | DeadlineMismatch.

#[export] Instance QosMismatch_eq_dec : EqDecision QosMismatch.
Proof. solve_decision. Defined.

Definition check_compatible (offered requested : QoS) : QosMismatch :=
  if bool_decide (reliability offered = BestEffort) && bool_decide (reliability requested = Reliable)
  then ReliabilityMismatch
  else if bool_decide (durability offered = Volatile)
          && bool_decide (durability requested = TransientLocal)
  then DurabilityMismatch
  else if (0 <? deadline requested)
          && ((deadline offered =? 0) || (deadline requested <? deadline offered))
  then DeadlineMismatch
  else NoMismatch.

Definition mismatch_to_string (m : QosMismatch) : string :=
  match m with
  | NoMismatch => "none"
  | ReliabilityMismatch => "reliability"
  | DurabilityMismatch => "durability"
  | DeadlineMismatch => "deadline"
  end.

Definition reliability_to_string (r : Reliability) : string :=
  if bool_decide (r = Reliable) then "reliable" else "best_effort".

Definition durability_to_string (d : Durability) : string :=
  if bool_decide (d = TransientLocal) then "transient_local" else "volatile".

(** ** The requested/offered rule

    The specification of [check_compatible]: each policy is ordered by strength
    and the offer must be at least as strong as the request. *)

Definition reliability_strength (r : Reliability) : Z :=
  match r with BestEffort => 0 | Reliable => 1 end.

Definition durability_strength (d : Durability) : Z :=
  match d with Volatile => 0 | TransientLocal => 1 end.

(** A deadline of 0 promises nothing; a positive one promises a message at least
    that often, so a shorter one is stronger. *)
Definition deadline_meets (offered requested : Z) : Prop :=
  0 < requested -> offered <> 0 /\ offered <= requested.

Definition rxo (offered requested : QoS) : Prop :=
  reliability_strength (reliability requested) <= reliability_strength (reliability offered) /\
  durability_strength (durability requested) <= durability_strength (durability offered) /\
  deadline_meets (deadline offered) (deadline requested).

Definition compatible (offered requested : QoS) : Prop :=
  check_compatible offered requested = NoMismatch.

#[export] Instance compatible_dec o r : Decision (compatible o r).
Proof. unfold compatible. apply _. Defined.

(** Case analysis on everything [check_compatible] tests. *)
Ltac qos_cases o r :=
  destruct o as [[] [] ? ? ? ?], r as [[] [] ? ? ? ?];
  unfold check_compatible, rxo, deadline_meets in *; simpl in *; repeat case_bool; simpl in *.

Section rules.
(** [check_compatible] answers exactly the requested/offered rule: it
    accepts iff the offer is at least as strong in every policy, and otherwise
    names the first policy, in the order reliability, durability, deadline,
    that the offer fails. *)
Theorem check_compatible_rxo (o r : QoS) :
  match check_compatible o r with
  | NoMismatch => rxo o r
  | ReliabilityMismatch =>
      ~ reliability_strength (reliability r) <= reliability_strength (reliability o)
  | DurabilityMismatch =>
      reliability_strength (reliability r) <= reliability_strength (reliability o) /\
      ~ durability_strength (durability r) <= durability_strength (durability o)
  | DeadlineMismatch =>
      reliability_strength (reliability r) <= reliability_strength (reliability o) /\
      durability_strength (durability r) <= durability_strength (durability o) /\
      ~ deadline_meets (deadline o) (deadline r)
  end.
Proof. qos_cases o r; lia. Qed.

Lemma compatible_rxo o r : compatible o r <-> rxo o r.
Proof.
  unfold compatible. qos_cases o r; split; try done; lia.
Qed.

#[export] Instance compatible_reflexive : Reflexive compatible.
Proof. intros q. apply compatible_rxo. unfold rxo, deadline_meets. lia. Qed.

(** On deadlines that are durations (not negative), compatibility is
    transitive: a relay that offers what it was itself offered stays compatible
    with every subscriber its own subscription accepts. *)
Lemma compatible_transitive (a b c : QoS) :
  0 <= deadline b -> compatible a b -> compatible b c -> compatible a c.
Proof. rewrite !compatible_rxo. unfold rxo, deadline_meets. lia. Qed.

(** A negative deadline, which nothing rejects, breaks the chain. *)
Example negative_deadline_chain :
  let b := mkQoS Reliable Volatile KeepLast 10 (-1) 0 in
  let c := mkQoS Reliable Volatile KeepLast 10 5 0 in
  compatible default_qos b /\ compatible b c /\ ~ compatible default_qos c.
Proof. by vm_compute. Qed.
End rules.
