(* ===== verification/TopicBus.v ===== *)
(** * TopicBus

    The members of [rdb::TopicBus], its subscriptions, and the sequential pieces
    of its operations (code/include/rdb/bus/topic_bus.h): the blocks executed
    under [mutex_], the pushes into one subscription's queue, and the stages of
    [deliver_loop].  [BusSystem] interleaves them.

    Subscriptions are shared objects ([shared_ptr<detail::Subscription>]): they
    live in a heap, and topics, targets and handles hold their index in it. *)

From S2P Require Import Prelude BoundedQueue Qos.
From stdpp Require Import strings.
Open Scope Z_scope.

(** A payload is the address held by the [shared_ptr<const void>]; a type is the
    [type_index] of the payload's static type. *)
Record Envelope := mkEnvelope { payload : Z; env_seq : Z; publish_ns : Z }.

#[export] Instance Envelope_eq_dec : EqDecision Envelope.
Proof. solve_decision. Defined.

(** The thread of a subscription: not started, in [queue.pop()], holding an
    envelope before the lifespan test, inside the callback, out of its loop. *)
Inductive worker_state :=
  | WNotStarted
  | WPopping
  | WHolding (e : Envelope)
  | WCalling (e : Envelope)
  | WExited
  | WJoined.

(** [detail::Subscription].  [sub_worker] is the state of the thread that the
    member [worker] owns; [callback] is user code, whose calls are events. *)
Record Subscription := mkSubscription {
  sub_topic : string;
  sub_type : Z;
  sub_qos : QoS;
  sub_queue : BoundedQueue Envelope;
  sub_worker : worker_state;
  delivered : Z;
  expired : Z;
  deadline_missed : Z;
  qos_rejected : Z;
  last_delivery_ns : Z;
  mismatch_reported : bool
}.

Definition new_subscription (topic : string) (type : Z) (qos : QoS) : Subscription :=
  {| sub_topic := topic; sub_type := type; sub_qos := qos;
     sub_queue := new_queue (depth qos)
                    (if bool_decide (reliability qos = Reliable) then Block else DropOldest);
     sub_worker := WNotStarted;
     delivered := 0; expired := 0; deadline_missed := 0; qos_rejected := 0;
     last_delivery_ns := 0; mismatch_reported := false |}.

Definition with_queue (s : Subscription) (q : BoundedQueue Envelope) : Subscription :=
  mkSubscription (sub_topic s) (sub_type s) (sub_qos s) q (sub_worker s) (delivered s)
    (expired s) (deadline_missed s) (qos_rejected s) (last_delivery_ns s) (mismatch_reported s).

Definition with_worker (s : Subscription) (w : worker_state) : Subscription :=
  mkSubscription (sub_topic s) (sub_type s) (sub_qos s) (sub_queue s) w (delivered s)
    (expired s) (deadline_missed s) (qos_rejected s) (last_delivery_ns s) (mismatch_reported s).

(** The statistics the worker and the publishers update. *)
Definition with_counts (s : Subscription) (deliv exp miss rej last : Z) (rep : bool)
  : Subscription :=
  mkSubscription (sub_topic s) (sub_type s) (sub_qos s) (sub_queue s) (sub_worker s)
    deliv exp miss rej last rep.

(** [TopicBus::TopicEntry]. *)
Record TopicEntry := mkTopicEntry {
  te_type : Z;
  te_subs : list nat;
  te_latched : list Envelope;
  te_published : Z
}.

(** The members of [TopicBus], and the heap of its subscriptions.  The mismatch
    handler is user code, known by a number. *)
Record TopicBus := mkBus {
  topics_ : gmap string TopicEntry;
  heap : list Subscription;
  mismatch_handler_ : option Z;
  qos_mismatches_ : Z;
  type_mismatches_ : Z;
  reliable_timeout_ : Z
}.

(** [TopicBus() = default]; [reliable_timeout_] starts at 100 ms. *)
Definition new_bus : TopicBus := mkBus ∅ [] None 0 0 (100 * 1000 * 1000).

Definition with_topics (b : TopicBus) (ts : gmap string TopicEntry) : TopicBus :=
  mkBus ts (heap b) (mismatch_handler_ b) (qos_mismatches_ b) (type_mismatches_ b)
    (reliable_timeout_ b).

Definition with_heap (b : TopicBus) (h : list Subscription) : TopicBus :=
  mkBus (topics_ b) h (mismatch_handler_ b) (qos_mismatches_ b) (type_mismatches_ b)
    (reliable_timeout_ b).

(** Update subscription [id] in place. *)
Definition update_sub (b : TopicBus) (id : nat) (s : Subscription) : TopicBus :=
  with_heap b (<[id := s]> (heap b)).

(** ** Topics, publishers and handles *)

Definition ensure_topic (ts : gmap string TopicEntry) (topic : string) (type : Z)
  : gmap string TopicEntry * TopicEntry :=
  match ts !! topic with
  | Some entry => (ts, entry)
  | None =>
      let entry := mkTopicEntry type [] [] 0 in
      (<[topic := entry]> ts, entry)
  end.

Record Publisher := mkPublisher {
  pub_valid : bool;
  pub_topic : string;
  pub_type : Z;
  pub_qos : QoS
}.

Definition advertise (b : TopicBus) (topic : string) (type : Z) (qos : QoS)
  : TopicBus * Publisher :=
  (with_topics b (ensure_topic (topics_ b) topic type).1, mkPublisher true topic type qos).

Definition subscriber_count (b : TopicBus) (topic : string) : Z :=
  match topics_ b !! topic with
  | Some entry => zlen (te_subs entry)
  | None => 0
  end.

Definition published_count (b : TopicBus) (topic : string) : Z :=
  match topics_ b !! topic with
  | Some entry => te_published entry
  | None => 0
  end.

Definition qos_mismatch_count (b : TopicBus) : Z := qos_mismatches_ b.
Definition type_mismatch_count (b : TopicBus) : Z := type_mismatches_ b.

(** [Publisher::valid] and [Publisher::subscriber_count]; [b] is [*bus_]. *)
Definition publisher_valid (p : Publisher) : bool := pub_valid p.
Definition publisher_subscriber_count (b : TopicBus) (p : Publisher) : Z :=
  if pub_valid p then subscriber_count b (pub_topic p) else 0.

Definition set_qos_mismatch_handler (b : TopicBus) (handler : option Z) : TopicBus :=
  mkBus (topics_ b) (heap b) handler (qos_mismatches_ b) (type_mismatches_ b)
    (reliable_timeout_ b).

Definition set_reliable_timeout (b : TopicBus) (timeout : Z) : TopicBus :=
  mkBus (topics_ b) (heap b) (mismatch_handler_ b) (qos_mismatches_ b) (type_mismatches_ b)
    timeout.

Record SubscriberStats := mkStats {
  st_delivered : Z;
  st_dropped : Z;
  st_expired : Z;
  st_deadline_missed : Z;
  st_qos_rejected : Z;
  st_queue_high_water : Z
}.

(** [SubscriptionHandle::stats]; an empty handle reports zeros. *)
Definition stats (handle : option Subscription) : SubscriberStats :=
  match handle with
  | None => mkStats 0 0 0 0 0 0
  | Some s =>
      mkStats (delivered s) (BoundedQueue.dropped (sub_queue s)) (expired s) (deadline_missed s)
        (qos_rejected s) (BoundedQueue.high_water (sub_queue s))
  end.

(** [SubscriptionHandle::valid]. *)
Definition handle_valid (handle : option Subscription) : bool := bool_decide (is_Some handle).

Definition queue_size (handle : option Subscription) : Z :=
  match handle with Some s => BoundedQueue.size (sub_queue s) | None => 0 end.

(** ** subscribe *)

(** The locked block of [subscribe].  [None] is the empty handle of a type
    conflict; otherwise the new subscription and the history it missed. *)
Definition subscribe_register (b : TopicBus) (topic : string) (type : Z) (qos : QoS)
  : TopicBus * option (nat * list Envelope) :=
  let sub := new_subscription topic type qos in
  let '(ts, entry) := ensure_topic (topics_ b) topic type in
  if negb (te_type entry =? sub_type sub) then (with_topics b ts, None)
  else
    let id := length (heap b) in
    let entry' := mkTopicEntry (te_type entry) (te_subs entry ++ [id]) (te_latched entry)
                    (te_published entry) in
    let backlog := if bool_decide (durability qos = TransientLocal)
                   then te_latched entry else [] in
    (with_heap (with_topics b (<[topic := entry']> ts)) (heap b ++ [sub]), Some (id, backlog)).

(** One [sub->queue.try_push] of the backlog loop. *)
Definition backlog_push (s : Subscription) (e : Envelope) : section Envelope PushStatus :=
  try_push (sub_queue s) e.

(** ** unsubscribe and shutdown *)

(** The loop that erases the first occurrence. *)
Fixpoint erase_first (id : nat) (subs : list nat) : list nat :=
  match subs with
  | [] => []
  | x :: subs => if bool_decide (x = id) then subs else x :: erase_first id subs
  end.

Definition erase_sub (id : nat) (entry : TopicEntry) : TopicEntry :=
  mkTopicEntry (te_type entry) (erase_first id (te_subs entry)) (te_latched entry)
    (te_published entry).

(** The locked block of [unsubscribe]. *)
Definition unsubscribe_detach (b : TopicBus) (id : nat) (s : Subscription) : TopicBus :=
  with_topics b (alter (erase_sub id) (sub_topic s) (topics_ b)).

Definition clear_entry (entry : TopicEntry) : TopicEntry :=
  mkTopicEntry (te_type entry) [] [] (te_published entry).

(** The locked block of [shutdown]: the subscriptions to stop, in the order the
    map is walked, and the emptied topics. *)
Definition shutdown_detach (b : TopicBus) : TopicBus * list nat :=
  (with_topics b (clear_entry <$> topics_ b),
   map_to_list (topics_ b) ≫= (fun kv => te_subs kv.2)).

(** [sub.queue.close()] in [stop_subscription]; the join follows. *)
Definition stop_close (s : Subscription) : Subscription :=
  with_queue s (sec_queue (close (sub_queue s))).

(** ** publish *)

(** [while (latched.size() > depth) latched.pop_front()]. *)
Fixpoint trim_latched (l : list Envelope) (depth : Z) : list Envelope :=
  match l with
  | [] => []
  | _ :: l' => if depth <? zlen l then trim_latched l' depth else l
  end.

(** What the loop over [entry.subs] accumulates. *)
Record scan := mkScan {
  sc_heap : list Subscription;
  sc_qos_mismatches : Z;
  sc_mismatches : list QosMismatch;
  sc_targets : list nat
}.

(** One iteration: an incompatible subscription is counted, and reported the
    first time; a compatible one becomes a target. *)
Definition scan_sub (pub_qos : QoS) (a : scan) (id : nat) : scan :=
  match sc_heap a !! id with
  | None => a
  | Some s =>
      let m := check_compatible pub_qos (sub_qos s) in
      if negb (bool_decide (m = NoMismatch)) then
        let s' := with_counts s (delivered s) (expired s) (deadline_missed s)
                    (qos_rejected s +u 1) (last_delivery_ns s) true in
        mkScan (<[id := s']> (sc_heap a)) (sc_qos_mismatches a +u 1)
          (if mismatch_reported s then sc_mismatches a else sc_mismatches a ++ [m])
          (sc_targets a)
      else
        mkScan (sc_heap a) (sc_qos_mismatches a) (sc_mismatches a) (sc_targets a ++ [id])
  end.

(** How the locked block of [publish_erased] ends. *)
Inductive selection :=
  | NoTopic
  | WrongType
  | Selected (envelope : Envelope) (targets : list nat) (mismatches : list QosMismatch)
      (handler : option Z).

(** The locked block of [publish_erased], with the clock read before it. *)
Definition publish_select (b : TopicBus) (topic : string) (type : Z) (pub_qos : QoS)
    (message : Z) (now : Z) : TopicBus * selection :=
  match topics_ b !! topic with
  | None => (b, NoTopic)
  | Some entry =>
      if negb (te_type entry =? type) then
        (mkBus (topics_ b) (heap b) (mismatch_handler_ b) (qos_mismatches_ b)
           (type_mismatches_ b +u 1) (reliable_timeout_ b), WrongType)
      else
        let envelope := mkEnvelope message (te_published entry +u 1) now in
        let latched := if bool_decide (durability pub_qos = TransientLocal)
                       then trim_latched (te_latched entry ++ [envelope]) (depth pub_qos)
                       else te_latched entry in
        let entry' := mkTopicEntry (te_type entry) (te_subs entry) latched
                        (te_published entry +u 1) in
        let a := foldl (scan_sub pub_qos) (mkScan (heap b) (qos_mismatches_ b) [] [])
                   (te_subs entry) in
        (mkBus (<[topic := entry']> (topics_ b)) (sc_heap a) (mismatch_handler_ b)
           (sc_qos_mismatches a) (type_mismatches_ b) (reliable_timeout_ b),
         Selected envelope (sc_targets a) (sc_mismatches a) (mismatch_handler_ b))
  end.

(** The push of one target, on entry.  [None]: the deadline overflows. *)
Definition target_push (s : Subscription) (e : Envelope) (now timeout : Z)
  : option (section Envelope PushStatus) :=
  if bool_decide (reliability (sub_qos s) = Reliable)
  then push_for (sub_queue s) e now timeout
  else Some (push (sub_queue s) e).

(** [status == Ok || status == DroppedOldest]. *)
Definition status_accepted (st : PushStatus) : bool :=
  match st with Ok | DroppedOldest => true | _ => false end.

(** ** deliver_loop *)

Definition effective_lifespan (qos : QoS) : Z :=
  u64 (if 0 <? lifespan qos then lifespan qos else 0).

Definition is_expired (qos : QoS) (e : Envelope) (now : Z) : bool :=
  let life := effective_lifespan qos in
  (0 <? life) && (publish_ns e <? now) && (life <? now -u publish_ns e).

Definition misses_deadline (qos : QoS) (last now : Z) : bool :=
  (0 <? deadline qos) && (negb (last =? 0) && (u64 (deadline qos) <? now -u last)).

(** From the clock read to the callback: [true] when the envelope is delivered. *)
Definition deliver_check (s : Subscription) (e : Envelope) (now : Z) : Subscription * bool :=
  if is_expired (sub_qos s) e now then
    (with_counts s (delivered s) (expired s +u 1) (deadline_missed s) (qos_rejected s)
       (last_delivery_ns s) (mismatch_reported s), false)
  else
    (with_counts s (delivered s) (expired s)
       (if misses_deadline (sub_qos s) (last_delivery_ns s) now
        then deadline_missed s +u 1 else deadline_missed s)
       (qos_rejected s) now (mismatch_reported s), true).

(** After the callback returned. *)
Definition deliver_done (s : Subscription) : Subscription :=
  with_counts s (delivered s +u 1) (expired s) (deadline_missed s) (qos_rejected s)
    (last_delivery_ns s) (mismatch_reported s).

(** ** wait_for_idle *)

(** The subscriptions of all topics, in the order of the map. *)
Definition attached_ids (b : TopicBus) : list nat := map_to_list (topics_ b) ≫= (fun kv => te_subs kv.2).

Definition queue_empty (b : TopicBus) (id : nat) : bool :=
  match heap b !! id with Some s => BoundedQueue.empty (sub_queue s) | None => true end.

(** Where a call of [wait_for_idle] is: about to lock [mutex_] (shared), in a pass
    with these queues still to ask, each under its own mutex; having found one that
    is not empty; or returned. *)
Inductive idle_wait :=
  | WLock
  | WScan (ids : list nat)
  | WBusy
  | WReturn (idle : bool).

(** Its next step, on what it sees of the bus and of the clock. *)
Definition wait_for_idle (limit : Z) (w : idle_wait) (b : TopicBus) (now : Z) : idle_wait :=
  match w with
  | WLock => WScan (attached_ids b)
  | WScan [] => WReturn true
  | WScan (id :: ids) => if queue_empty b id then WScan ids else WBusy
  | WBusy => if limit <=? now then WReturn false else WLock
  | WReturn idle => WReturn idle
  end.
