(* ===== verification/BusSystem.v ===== *)
(** * BusSystem

    The threads around one [TopicBus]: clients calling its methods and one
    worker per subscription running [deliver_loop].  A step is a block executed
    under a mutex (the bus's or one queue's) or a stretch of code that touches
    only data owned by its thread.

    A thread asleep in [push_for] may run again at any step: every wake-up, real
    or spurious, leads to the same test of the predicate, so this covers all the
    wake-ups of [QueueSystem], where it is proved that none is lost. *)

From S2P Require Import Prelude Lts BoundedQueue Qos TopicBus.
From stdpp Require Import strings.
Open Scope Z_scope.

(** Where a client thread is, between two blocks. *)
Inductive client :=
  | CIdle
  (* publish_erased: the clock is read; about to lock the bus *)
  | CStamped (p : Publisher) (message now : Z)
  (* calling the mismatch handler, then pushing to the targets in order *)
  | CNotify (topic : string) (ms : list QosMismatch) (handler : option Z) (e : Envelope)
      (targets : list nat)
  | CPublish (e : Envelope) (targets : list nat) (all_accepted : bool)
  (* asleep in push_for on the queue of [id] *)
  | CBlocked (e : Envelope) (id : nat) (targets : list nat) (all_accepted : bool) (until : Z)
  (* subscribe: the backlog still to push, then the thread to start *)
  | CBacklog (id : nat) (backlog : list Envelope)
  (* stop_subscription of each of these: about to close, about to join *)
  | CStop (ids : list nat)
  | CJoin (id : nat) (ids : list nat).

Record bus_state := mkState {
  bs_bus : TopicBus;
  bs_clients : list client;
  bs_clock : Z
}.

Inductive event :=
  | EvReject (p : Publisher)
  | EvSelect (p : Publisher) (e : Envelope) (targets : list nat)
  | EvHandler (handler : option Z) (topic : string) (m : QosMismatch)
  | EvPush (id : nat) (e : Envelope) (s : section Envelope PushStatus)
  | EvPublished (e : Envelope) (all_accepted : bool)
  | EvSubscribe (id : nat) (qos : QoS) (backlog : list Envelope)
  | EvDetach (ids : list nat)
  | EvExpire (id : nat) (e : Envelope) (now : Z)
  | EvCallback (id : nat) (e : Envelope) (now : Z)
  | EvReturn (id : nat) (e : Envelope)
  | EvInternal.

(** The publisher after the push of its first target ended. *)
Definition after_target (e : Envelope) (id : nat) (targets : list nat) (acc : bool)
    (s : section Envelope PushStatus) : client :=
  match sec_outcome s with
  | Returned st => CPublish e targets (acc && status_accepted st)
  | Sleeps _ d => CBlocked e id targets acc d
  end.

(** The queue of subscription [id] after a section on it. *)
Definition queue_section {R} (b : TopicBus) (id : nat) (s : Subscription)
    (sec : section Envelope R) : TopicBus :=
  update_sub b id (with_queue s (sec_queue sec)).

(** [!worker.joinable()].  Assigning a new thread to a joinable one terminates
    the program, so [subscribe] goes on only when this holds. *)
Definition not_joinable (w : worker_state) : Prop := w = WNotStarted \/ w = WJoined.

(** The fields of a [QoS] are machine integers. *)
Definition qos_ok (q : QoS) : Prop := fits 64 (depth q).

Inductive step : bus_state -> event -> bus_state -> Prop :=
  (** publish *)
  | step_stamp b cs now i p message :
      cs !! i = Some CIdle -> pub_valid p = true ->
      step (mkState b cs now) EvInternal
        (mkState b (<[i := CStamped p message (u64 now)]> cs) now)
  (* a publisher without a bus returns false *)
  | step_invalid b cs now i p :
      cs !! i = Some CIdle -> pub_valid p = false ->
      step (mkState b cs now) (EvReject p) (mkState b cs now)
  | step_reject b cs now i p message t b' sel :
      cs !! i = Some (CStamped p message t) ->
      publish_select b (pub_topic p) (pub_type p) (pub_qos p) message t = (b', sel) ->
      sel = NoTopic \/ sel = WrongType ->
      step (mkState b cs now) (EvReject p) (mkState b' (<[i := CIdle]> cs) now)
  | step_select b cs now i p message t b' e targets ms h :
      cs !! i = Some (CStamped p message t) ->
      publish_select b (pub_topic p) (pub_type p) (pub_qos p) message t
        = (b', Selected e targets ms h) ->
      step (mkState b cs now) (EvSelect p e targets)
        (mkState b' (<[i := CNotify (pub_topic p) ms h e targets]> cs) now)
  (* with [h = None] there is no handler, and nothing is called *)
  | step_handler b cs now i topic m ms h e targets :
      cs !! i = Some (CNotify topic (m :: ms) h e targets) ->
      step (mkState b cs now) (EvHandler h topic m)
        (mkState b (<[i := CNotify topic ms h e targets]> cs) now)
  | step_notified b cs now i topic h e targets :
      cs !! i = Some (CNotify topic [] h e targets) ->
      step (mkState b cs now) EvInternal
        (mkState b (<[i := CPublish e targets true]> cs) now)
  | step_target b cs now i e id targets acc s sec :
      cs !! i = Some (CPublish e (id :: targets) acc) ->
      heap b !! id = Some s ->
      target_push s e now (reliable_timeout_ b) = Some sec ->
      step (mkState b cs now) (EvPush id e sec)
        (mkState (queue_section b id s sec) (<[i := after_target e id targets acc sec]> cs) now)
  | step_target_resume b cs now i e id targets acc d s timed_out :
      cs !! i = Some (CBlocked e id targets acc d) ->
      heap b !! id = Some s ->
      (timed_out = true -> d <> tp_max /\ d <= now) ->
      let sec := push_resume (sub_queue s) e d timed_out in
      step (mkState b cs now) (EvPush id e sec)
        (mkState (queue_section b id s sec) (<[i := after_target e id targets acc sec]> cs) now)
  | step_published b cs now i e acc :
      cs !! i = Some (CPublish e [] acc) ->
      step (mkState b cs now) (EvPublished e acc) (mkState b (<[i := CIdle]> cs) now)
  (** advertise, subscribe *)
  | step_advertise b cs now i topic type qos :
      cs !! i = Some CIdle ->
      step (mkState b cs now) EvInternal (mkState (advertise b topic type qos).1 cs now)
  | step_conflict b cs now i topic type qos b' :
      cs !! i = Some CIdle -> qos_ok qos ->
      subscribe_register b topic type qos = (b', None) ->
      step (mkState b cs now) EvInternal (mkState b' cs now)
  | step_subscribe b cs now i topic type qos b' id backlog :
      cs !! i = Some CIdle -> qos_ok qos ->
      subscribe_register b topic type qos = (b', Some (id, backlog)) ->
      step (mkState b cs now) (EvSubscribe id qos backlog)
        (mkState b' (<[i := CBacklog id backlog]> cs) now)
  | step_backlog b cs now i id e backlog s :
      cs !! i = Some (CBacklog id (e :: backlog)) ->
      heap b !! id = Some s ->
      let sec := backlog_push s e in
      step (mkState b cs now) (EvPush id e sec)
        (mkState (queue_section b id s sec) (<[i := CBacklog id backlog]> cs) now)
  | step_start b cs now i id s :
      cs !! i = Some (CBacklog id []) ->
      heap b !! id = Some s ->
      not_joinable (sub_worker s) ->
      step (mkState b cs now) EvInternal
        (mkState (update_sub b id (with_worker s WPopping)) (<[i := CIdle]> cs) now)
  (** unsubscribe, shutdown *)
  | step_unsubscribe b cs now i id s :
      cs !! i = Some CIdle ->
      heap b !! id = Some s ->
      step (mkState b cs now) (EvDetach [id])
        (mkState (unsubscribe_detach b id s) (<[i := CStop [id]]> cs) now)
  | step_shutdown b cs now i :
      cs !! i = Some CIdle ->
      step (mkState b cs now) (EvDetach (shutdown_detach b).2)
        (mkState (shutdown_detach b).1 (<[i := CStop (shutdown_detach b).2]> cs) now)
  | step_stop_close b cs now i id ids s :
      cs !! i = Some (CStop (id :: ids)) ->
      heap b !! id = Some s ->
      step (mkState b cs now) EvInternal
        (mkState (update_sub b id (stop_close s)) (<[i := CJoin id ids]> cs) now)
  | step_join b cs now i id ids s :
      cs !! i = Some (CJoin id ids) ->
      heap b !! id = Some s ->
      sub_worker s = WExited ->
      step (mkState b cs now) EvInternal
        (mkState (update_sub b id (with_worker s WJoined)) (<[i := CStop ids]> cs) now)
  | step_not_joinable b cs now i id ids s :
      cs !! i = Some (CJoin id ids) ->
      heap b !! id = Some s ->
      not_joinable (sub_worker s) ->
      step (mkState b cs now) EvInternal (mkState b (<[i := CStop ids]> cs) now)
  | step_stopped b cs now i :
      cs !! i = Some (CStop []) ->
      step (mkState b cs now) EvInternal (mkState b (<[i := CIdle]> cs) now)
  (** setters *)
  | step_set_handler b cs now i h :
      cs !! i = Some CIdle ->
      step (mkState b cs now) EvInternal (mkState (set_qos_mismatch_handler b h) cs now)
  | step_set_timeout b cs now i d :
      cs !! i = Some CIdle ->
      step (mkState b cs now) EvInternal (mkState (set_reliable_timeout b d) cs now)
  (** deliver_loop *)
  | step_pop b cs now id s e :
      heap b !! id = Some s -> sub_worker s = WPopping ->
      let sec := pop (sub_queue s) in
      sec_outcome sec = Returned (Some e) ->
      step (mkState b cs now) EvInternal
        (mkState (update_sub b id (with_worker (with_queue s (sec_queue sec)) (WHolding e))) cs now)
  | step_exit b cs now id s :
      heap b !! id = Some s -> sub_worker s = WPopping ->
      let sec := pop (sub_queue s) in
      sec_outcome sec = Returned None ->
      step (mkState b cs now) EvInternal
        (mkState (update_sub b id (with_worker (with_queue s (sec_queue sec)) WExited)) cs now)
  | step_expire b cs now id s e s' :
      heap b !! id = Some s -> sub_worker s = WHolding e ->
      deliver_check s e (u64 now) = (s', false) ->
      step (mkState b cs now) (EvExpire id e (u64 now))
        (mkState (update_sub b id (with_worker s' WPopping)) cs now)
  | step_callback b cs now id s e s' :
      heap b !! id = Some s -> sub_worker s = WHolding e ->
      deliver_check s e (u64 now) = (s', true) ->
      step (mkState b cs now) (EvCallback id e (u64 now))
        (mkState (update_sub b id (with_worker s' (WCalling e))) cs now)
  | step_return b cs now id s e :
      heap b !! id = Some s -> sub_worker s = WCalling e ->
      step (mkState b cs now) (EvReturn id e)
        (mkState (update_sub b id (with_worker (deliver_done s) WPopping)) cs now)
  | step_tick b cs now now' :
      now <= now' -> step (mkState b cs now) EvInternal (mkState b cs now').

#[export] Instance bus_lts : LTS bus_state event := step.

(** A new bus and [n] idle client threads. *)
Definition bus_init (n : nat) (now : Z) : bus_state :=
  mkState new_bus (replicate n CIdle) now.

(** A worker woken in [pop] does exactly what a fresh call would. *)
Lemma pop_resume_pop {T} (q : BoundedQueue T) : pop_resume q tp_max false = pop q.
Proof.
  unfold pop_resume, pop, pop_until, pop_ready, cv_wait.
  destruct (closed_ q), (zlen (items_ q) =? 0) eqn:Hi; simpl; rewrite ?Hi; done.
Qed.
