(* ===== verification/BusInvariants.v ===== *)
(** * BusInvariants

    The well-formedness of a bus (references, types, queues) and its
    preservation by every block of [TopicBus] and every step of [BusSystem]. *)

From S2P Require Import Prelude Lts BoundedQueue Qos TopicBus BusSystem.
From stdpp Require Import strings.
Open Scope Z_scope.

(** What never changes in a subscription. *)
Definition static (s : Subscription) : string * Z * QoS := (sub_topic s, sub_type s, sub_qos s).

Definition queue_policy (q : QoS) : OverflowPolicy :=
  if bool_decide (reliability q = Reliable) then Block else DropOldest.

Record bus_wf (b : TopicBus) : Prop := {
  wf_refs t e id :
    topics_ b !! t = Some e -> id ∈ te_subs e ->
    exists s, heap b !! id = Some s /\ sub_topic s = t /\ sub_type s = te_type e;
  wf_home id s :
    heap b !! id = Some s ->
    exists e, topics_ b !! sub_topic s = Some e /\ te_type e = sub_type s;
  wf_nodup t e : topics_ b !! t = Some e -> NoDup (te_subs e);
  wf_queue id s :
    heap b !! id = Some s ->
    queue_wf (sub_queue s) /\ policy_ (sub_queue s) = queue_policy (sub_qos s)
}.

(** The blocks that touch one queue keep it well-formed, with its policy, and
    never reopen it. *)
Definition queue_kept (q q' : BoundedQueue Envelope) : Prop :=
  (queue_wf q -> queue_wf q') /\ policy_ q' = policy_ q /\
  (closed_ q = true -> closed_ q' = true).

(** ** Sections on a subscription's queue *)

Lemma target_push_shape s e now timeout sec :
  target_push s e now timeout = Some sec -> push_shape (sub_queue s) e sec.
Proof.
  unfold target_push, push_for, push. case_bool_decide.
  - unfold tp_add. destruct (_ && _); simpl; intros; simplify_eq; auto with rdb.
  - intros; simplify_eq; auto with rdb.
Qed.

Lemma backlog_push_shape s e : push_shape (sub_queue s) e (backlog_push s e).
Proof. apply push_until_shape. Qed.

Lemma pop_shape_pop {T} (q : BoundedQueue T) : pop_shape q (pop q).
Proof. apply pop_until_shape. Qed.

Lemma push_queue_kept q v (s : section Envelope PushStatus) :
  push_shape q v s -> queue_kept q (sec_queue s).
Proof.
  intros Hs. split; [eauto with rdb|]. destruct (push_shape_config q v s Hs) as (_ & ? & Hc).
  by rewrite Hc.
Qed.

Lemma pop_queue_kept q (s : section Envelope (option Envelope)) :
  pop_shape q s -> queue_kept q (sec_queue s).
Proof.
  intros Hs. split; [eauto with rdb|]. destruct (pop_shape_config q s Hs) as (_ & ? & Hc).
  by rewrite Hc.
Qed.

Lemma queue_kept_refl q : queue_kept q q.
Proof. by split. Qed.

Lemma close_queue_kept q : queue_kept q (sec_queue (close q)).
Proof. split; [apply close_wf|done]. Qed.

#[export] Hint Resolve target_push_shape backlog_push_shape pop_shape_pop push_queue_kept
  pop_queue_kept queue_kept_refl close_queue_kept : rdb.

(** ** deliver_check changes only counters *)

Lemma deliver_check_static s e now s' r :
  deliver_check s e now = (s', r) ->
  static s' = static s /\ sub_queue s' = sub_queue s /\ sub_worker s' = sub_worker s.
Proof. unfold deliver_check. destruct (is_expired _ _ _); intros; by simplify_eq. Qed.

(** ** The scan of publish_erased *)

(** The heap during the scan: only counters differ from the start. *)
Definition counts_only (h h' : list Subscription) : Prop :=
  length h' = length h /\
  forall id s', h' !! id = Some s' ->
    exists s, h !! id = Some s /\ static s' = static s /\ sub_queue s' = sub_queue s /\
              sub_worker s' = sub_worker s.

Lemma counts_only_refl h : counts_only h h.
Proof. split; eauto. Qed.

Lemma counts_only_trans h1 h2 h3 : counts_only h1 h2 -> counts_only h2 h3 -> counts_only h1 h3.
Proof.
  intros [L12 H12] [L23 H23]. split; [congruence|]. intros id s3 Hs3.
  destruct (H23 id s3 Hs3) as (s2 & Hs2 & ? & ? & ?).
  destruct (H12 id s2 Hs2) as (s1 & ? & ? & ? & ?). exists s1. repeat split; congruence.
Qed.

Lemma counts_only_insert h id s s' :
  h !! id = Some s -> static s' = static s -> sub_queue s' = sub_queue s ->
  sub_worker s' = sub_worker s -> counts_only h (<[id := s']> h).
Proof.
  intros Hs ? ? ?. split; [apply length_insert|]. intros id' s0 Hs0.
  apply list_lookup_insert_Some in Hs0 as [(<- & <- & _)|(? & ?)]; eauto.
Qed.

Lemma counts_only_lookup h h' id s :
  counts_only h h' -> h !! id = Some s ->
  exists s', h' !! id = Some s' /\ static s' = static s /\ sub_queue s' = sub_queue s /\
             sub_worker s' = sub_worker s.
Proof.
  intros [L H] Hs. pose proof (lookup_lt_Some _ _ _ Hs) as Hlt. rewrite <-L in Hlt.
  apply lookup_lt_is_Some in Hlt as [s' Hs']. destruct (H id s' Hs') as (s0 & Hs0 & ? & ? & ?).
  exists s'. assert (s0 = s) as -> by congruence. auto.
Qed.

(** Would subscription [id] accept this publisher? *)
Definition accepts (h : list Subscription) (pub_qos : QoS) (id : nat) : bool :=
  match h !! id with
  | Some s => bool_decide (compatible pub_qos (sub_qos s))
  | None => false
  end.

Lemma accepts_counts_only h h' q id : counts_only h h' -> accepts h' q id = accepts h q id.
Proof.
  intros Hc. unfold accepts. destruct (h !! id) as [s|] eqn:Hs.
  - destruct (counts_only_lookup h h' id s Hc Hs) as (s' & -> & Hst & _).
    unfold static in Hst. injection Hst as _ _ Hq. by rewrite Hq.
  - destruct Hc as [L _]. apply lookup_ge_None in Hs. rewrite <-L in Hs.
    by apply lookup_ge_None in Hs as ->.
Qed.

Lemma scan_sub_spec q a id :
  counts_only (sc_heap a) (sc_heap (scan_sub q a id)) /\
  sc_targets (scan_sub q a id) =
    sc_targets a ++ (if accepts (sc_heap a) q id then [id] else []).
Proof.
  unfold scan_sub, accepts, compatible. destruct (sc_heap a !! id) as [s|] eqn:Hs; simpl.
  2: { rewrite app_nil_r. split; [apply counts_only_refl|done]. }
  repeat case_bool_decide; simpl; rewrite ?app_nil_r; try done.
  - split; [apply counts_only_refl|done].
  - split; [by eapply counts_only_insert|done].
Qed.

Lemma scan_spec q subs a :
  let a' := foldl (scan_sub q) a subs in
  counts_only (sc_heap a) (sc_heap a') /\
  sc_targets a' = sc_targets a ++ filter (fun id => accepts (sc_heap a) q id = true) subs.
Proof.
  revert a. induction subs as [|id subs IH]; intros a; simpl.
  { rewrite app_nil_r. split; [apply counts_only_refl|done]. }
  destruct (scan_sub_spec q a id) as [Hc Ht]. destruct (IH (scan_sub q a id)) as [Hc' Ht'].
  split; [by eapply counts_only_trans|]. rewrite Ht', Ht, <-app_assoc. f_equal.
  rewrite filter_cons. rewrite (list_filter_iff _ (fun id => accepts (sc_heap a) q id = true)).
  - case_decide as Ha; [by rewrite Ha|]. by destruct (accepts (sc_heap a) q id).
  - intros x. by rewrite (accepts_counts_only _ _ _ _ Hc).
Qed.

(** ** How a block changes the bus *)

Definition entry_shrunk (e e' : TopicEntry) : Prop :=
  te_type e' = te_type e /\ te_subs e' `sublist_of` te_subs e.

Definition topics_shrunk (ts ts' : gmap string TopicEntry) : Prop :=
  forall t, option_Forall2 entry_shrunk (ts !! t) (ts' !! t).

Inductive bus_change (b : TopicBus) : TopicBus -> Prop :=
  | change_shrink b' :
      topics_shrunk (topics_ b) (topics_ b') -> counts_only (heap b) (heap b') -> bus_change b b'
  | change_sub id s s' :
      heap b !! id = Some s -> static s' = static s ->
      queue_kept (sub_queue s) (sub_queue s') -> bus_change b (update_sub b id s')
  | change_ensure t ty : bus_change b (with_topics b (ensure_topic (topics_ b) t ty).1)
  | change_subscribe t ty qos b' r :
      qos_ok qos -> subscribe_register b t ty qos = (b', Some r) -> bus_change b b'.

Lemma entry_shrunk_refl e : entry_shrunk e e.
Proof. by split. Qed.

Lemma topics_shrunk_refl ts : topics_shrunk ts ts.
Proof. intros t. destruct (ts !! t); constructor. apply entry_shrunk_refl. Qed.

Lemma erase_first_sublist id l : erase_first id l `sublist_of` l.
Proof.
  induction l as [|x l IH]; simpl; [constructor|]. case_bool_decide.
  - by apply sublist_cons.
  - by apply sublist_skip.
Qed.

Lemma unsubscribe_change b id s : bus_change b (unsubscribe_detach b id s).
Proof.
  apply change_shrink; [|apply counts_only_refl]. intros t. simpl. rewrite lookup_alter.
  case_decide; subst; [|apply topics_shrunk_refl].
  destruct (topics_ b !! _); simpl; constructor. split; [done|apply erase_first_sublist].
Qed.

Lemma shutdown_change b : bus_change b (shutdown_detach b).1.
Proof.
  apply change_shrink; [|apply counts_only_refl]. intros t. simpl. rewrite lookup_fmap.
  destruct (topics_ b !! t); simpl; constructor. split; [done|apply sublist_nil_l].
Qed.

Lemma publish_change b t ty q m now b' sel :
  publish_select b t ty q m now = (b', sel) -> bus_change b b'.
Proof.
  unfold publish_select. destruct (topics_ b !! t) as [e|] eqn:He; [|intros; simplify_eq].
  2: { apply change_shrink; [apply topics_shrunk_refl|apply counts_only_refl]. }
  destruct (te_type e =? ty); simpl; intros; simplify_eq.
  - apply change_shrink; simpl.
    + intros t'. rewrite lookup_insert. case_decide; subst; [|apply topics_shrunk_refl].
      rewrite He. constructor. by split.
    + by apply (scan_spec q (te_subs e) (mkScan (heap b) (qos_mismatches_ b) [] [])).
  - apply change_shrink; [apply topics_shrunk_refl|apply counts_only_refl].
Qed.

Lemma conflict_ensure b t ty q b' :
  subscribe_register b t ty q = (b', None) -> b' = with_topics b (ensure_topic (topics_ b) t ty).1.
Proof.
  unfold subscribe_register. destruct (ensure_topic _ _ _) as [ts e].
  destruct (negb _); intros; by simplify_eq.
Qed.

Lemma publish_timeout b t ty q m now : reliable_timeout_ (publish_select b t ty q m now).1 = reliable_timeout_ b.
Proof. unfold publish_select. by repeat case_match. Qed.

Lemma subscribe_timeout b t ty q : reliable_timeout_ (subscribe_register b t ty q).1 = reliable_timeout_ b.
Proof. unfold subscribe_register, ensure_topic. by repeat (case_match; simplify_eq/=). Qed.

Lemma deliver_change b id s e now s' r w :
  heap b !! id = Some s -> deliver_check s e now = (s', r) ->
  bus_change b (update_sub b id (with_worker s' w)).
Proof.
  intros Hs Hd. apply deliver_check_static in Hd as (? & Hq & _).
  eapply change_sub; [done|done|]. simpl. rewrite Hq. auto with rdb.
Qed.

(** Every step changes the bus in one of those ways. *)
Lemma step_change σ ev σ' : step σ ev σ' -> bus_change (bs_bus σ) (bs_bus σ').
Proof.
  destruct 1; simpl; unfold queue_section;
    eauto using publish_change, unsubscribe_change, shutdown_change, change_ensure,
      change_subscribe, deliver_change;
    try (apply change_shrink; [apply topics_shrunk_refl|apply counts_only_refl]);
    try (eapply change_sub; [done|done|simpl; eauto with rdb]).
  erewrite conflict_ensure by done. apply change_ensure.
Qed.

(** ** Changes keep what was there, and keep the bus well-formed *)

Definition topics_kept (b b' : TopicBus) : Prop :=
  forall t e, topics_ b !! t = Some e ->
    exists e', topics_ b' !! t = Some e' /\ te_type e' = te_type e.

Definition heap_kept (b b' : TopicBus) : Prop :=
  forall id s, heap b !! id = Some s -> exists s', heap b' !! id = Some s' /\ static s' = static s.

Lemma ensure_topic_lookup ts t ty t' :
  (ensure_topic ts t ty).1 !! t' =
    match ts !! t' with
    | Some e => Some e
    | None => if decide (t = t') then Some (mkTopicEntry ty [] [] 0) else None
    end.
Proof.
  unfold ensure_topic. destruct (ts !! t) as [e|] eqn:Ht; simpl.
  - case_decide; subst; [by rewrite Ht|]. by destruct (ts !! t').
  - rewrite lookup_insert. case_decide; subst; [by rewrite Ht|]. by destruct (ts !! t').
Qed.

(** What a successful [subscribe_register] builds. *)
Lemma subscribe_spec b t ty q b' id backlog :
  subscribe_register b t ty q = (b', Some (id, backlog)) ->
  exists e,
    id = length (heap b) /\ te_type e = ty /\
    (topics_ b !! t = Some e \/ (topics_ b !! t = None /\ e = mkTopicEntry ty [] [] 0)) /\
    backlog = (if bool_decide (durability q = TransientLocal) then te_latched e else []) /\
    topics_ b' =
      <[t := mkTopicEntry (te_type e) (te_subs e ++ [id]) (te_latched e) (te_published e)]>
        (topics_ b) /\
    heap b' = heap b ++ [new_subscription t ty q].
Proof.
  unfold subscribe_register, ensure_topic.
  destruct (topics_ b !! t) as [e|] eqn:He; simpl.
  - destruct (Z.eqb_spec (te_type e) ty); simpl; intros; simplify_eq. exists e. eauto 10.
  - rewrite Z.eqb_refl. simpl. intros; simplify_eq.
    exists (mkTopicEntry ty [] [] 0). simpl. rewrite insert_insert_eq. eauto 10.
Qed.

Lemma change_kept b b' : bus_change b b' -> topics_kept b b' /\ heap_kept b b'.
Proof.
  destruct 1 as [b' Ht Hh|id s s' Hs Hst _|t ty|t ty q b' [id backlog] _ Hsub].
  - split.
    + intros t e He. specialize (Ht t). rewrite He in Ht.
      inversion Ht as [? e' [? ?] E1 E2|]; simplify_eq. eauto.
    + intros id s Hs. destruct (counts_only_lookup _ _ _ _ Hh Hs) as (s' & ? & ? & _). eauto.
  - split; [intros t e He; eauto|]. intros id' s0 Hs0. simpl.
    destruct (decide (id = id')) as [<-|].
    + exists s'. rewrite list_lookup_insert_eq by (by eapply lookup_lt_Some).
      split; [done|congruence].
    + exists s0. by rewrite list_lookup_insert_ne.
  - split; [|intros id s Hs; eauto]. intros t' e He. simpl. rewrite ensure_topic_lookup, He. eauto.
  - apply subscribe_spec in Hsub as (e & -> & Hty & He & -> & Hts & Hh). split.
    + intros t' e' He'. rewrite Hts, lookup_insert. case_decide; subst; [|eauto].
      destruct He as [He|[He _]]; simplify_eq. eexists; split; [done|done].
    + intros id s Hs. rewrite Hh. exists s. split; [|done]. by apply lookup_app_l_Some.
Qed.

Lemma new_subscription_queue t ty q :
  qos_ok q ->
  queue_wf (sub_queue (new_subscription t ty q)) /\
  policy_ (sub_queue (new_subscription t ty q)) = queue_policy q.
Proof. intros Hq. split; [by apply new_queue_wf|done]. Qed.

Lemma topics_shrunk_lookup ts ts' t e' :
  topics_shrunk ts ts' -> ts' !! t = Some e' -> exists e, ts !! t = Some e /\ entry_shrunk e e'.
Proof.
  intros H He. specialize (H t). rewrite He in H.
  inversion H as [e e0 ? E1 E2|]; simplify_eq. eauto.
Qed.

Lemma shrink_wf b b' :
  topics_shrunk (topics_ b) (topics_ b') -> counts_only (heap b) (heap b') ->
  bus_wf b -> bus_wf b'.
Proof.
  intros Ht Hh [Hrefs Hhome Hnd Hq]. split.
  - intros t e' id He' Hid. destruct (topics_shrunk_lookup _ _ _ _ Ht He') as (e & He & Hty & Hsub).
    destruct (Hrefs t e id He) as (s & Hs & ? & ?); [by eapply elem_of_sublist|].
    destruct (counts_only_lookup _ _ _ _ Hh Hs) as (s' & ? & Hst & _).
    exists s'. unfold static in Hst. injection Hst as ? ? ?. repeat split; congruence.
  - intros id s' Hs'. destruct Hh as [_ Hh]. destruct (Hh id s' Hs') as (s & Hs & Hst & _).
    unfold static in Hst. injection Hst as Htp Hty _.
    destruct (Hhome id s Hs) as (e & He & ?). specialize (Ht (sub_topic s)). rewrite He in Ht.
    inversion Ht as [? e' [? ?] E1 E2|]; simplify_eq. exists e'. rewrite Htp. split; congruence.
  - intros t e' He'. destruct (topics_shrunk_lookup _ _ _ _ Ht He') as (e & He & _ & Hsub).
    eapply sublist_NoDup; eauto.
  - intros id s' Hs'. destruct Hh as [_ Hh]. destruct (Hh id s' Hs') as (s & Hs & Hst & Hqq & _).
    unfold static in Hst. injection Hst as _ _ Hqos. rewrite Hqq, Hqos. eauto.
Qed.

Lemma update_wf b id s s' :
  heap b !! id = Some s -> static s' = static s -> queue_kept (sub_queue s) (sub_queue s') ->
  bus_wf b -> bus_wf (update_sub b id s').
Proof.
  intros Hs Hst [Hkw [Hkp _]] [Hrefs Hhome Hnd Hq]. unfold static in Hst. injection Hst as Htp Hty Hqos.
  pose proof (lookup_lt_Some _ _ _ Hs) as Hlt. split; simpl; [| |done|].
  - intros t e id' He Hid. destruct (Hrefs t e id' He Hid) as (s0 & Hs0 & ? & ?).
    destruct (decide (id = id')) as [<-|].
    + exists s'. rewrite list_lookup_insert_eq by done. simplify_eq. repeat split; congruence.
    + exists s0. by rewrite list_lookup_insert_ne.
  - intros id' s0 [(<- & <- & _)|(_ & Hs0)]%list_lookup_insert_Some; [|eauto].
    rewrite Htp, Hty. eauto.
  - intros id' s0 [(<- & <- & _)|(_ & Hs0)]%list_lookup_insert_Some; [|eauto].
    destruct (Hq id s Hs). rewrite Hqos. split; [auto|congruence].
Qed.

Lemma ensure_wf b t ty : bus_wf b -> bus_wf (with_topics b (ensure_topic (topics_ b) t ty).1).
Proof.
  intros [Hrefs Hhome Hnd Hq].
  assert (Hnew : forall t' e, (ensure_topic (topics_ b) t ty).1 !! t' = Some e ->
                   topics_ b !! t' = Some e \/ te_subs e = []).
  { intros t' e. rewrite ensure_topic_lookup. destruct (topics_ b !! t'); [auto|].
    case_decide; intros; simplify_eq; auto. }
  split; simpl; [| | |done].
  - intros t' e id [He|He]%Hnew Hid; [eauto|]. rewrite He in Hid. set_solver.
  - intros id s Hs. rewrite ensure_topic_lookup.
    destruct (Hhome id s Hs) as (e & -> & ?). eauto.
  - intros t' e [He|He]%Hnew; [eauto|]. rewrite He. constructor.
Qed.

Lemma subscribe_wf b t ty q b' r :
  qos_ok q -> subscribe_register b t ty q = (b', Some r) -> bus_wf b -> bus_wf b'.
Proof.
  intros Hok Hsub [Hrefs Hhome Hnd Hq]. destruct r as [id backlog].
  apply subscribe_spec in Hsub as (e & -> & Hty & He & _ & Hts & Hh).
  assert (Hsubs : forall id', id' ∈ te_subs e -> topics_ b !! t = Some e).
  { intros id' Hid'. destruct He as [|[_ ->]]; [done|]. by apply not_elem_of_nil in Hid'. }
  assert (Hold : forall id' s, heap b !! id' = Some s -> heap b' !! id' = Some s).
  { intros id' s Hs. rewrite Hh. by apply lookup_app_l_Some. }
  assert (Hnew : heap b' !! length (heap b) = Some (new_subscription t ty q)).
  { rewrite Hh. by apply list_lookup_middle. }
  split.
  - intros t' e' id'. rewrite Hts. intros [[<- <-]|[? He']]%lookup_insert_Some Hid'; simpl in *.
    + apply elem_of_app in Hid' as [Hid'|Hid'%list_elem_of_singleton].
      * destruct (Hrefs t e id' (Hsubs _ Hid') Hid') as (s & Hs & ? & ?). exists s. auto.
      * subst. eauto.
    + destruct (Hrefs t' e' id' He' Hid') as (s & Hs & ? & ?). exists s. auto.
  - intros id' s. rewrite Hh, Hts. intros [Hs|[? Hs]]%lookup_app_Some.
    + destruct (Hhome id' s Hs) as (e' & He' & ?). rewrite lookup_insert.
      case_decide; subst; [|eauto]. eexists; split; [done|].
      destruct He as [He|[He _]]; simplify_eq. done.
    + apply list_lookup_singleton_Some in Hs as [_ <-]. simpl. rewrite lookup_insert_eq. eauto.
  - intros t' e'. rewrite Hts. intros [[<- <-]|[? He']]%lookup_insert_Some; [simpl|eauto].
    apply NoDup_app. split; [|split; [|apply NoDup_singleton]].
    + destruct He as [He|[_ ->]]; [eauto|constructor].
    + intros x Hx [= ->]%list_elem_of_singleton.
      destruct (Hrefs t e _ (Hsubs _ Hx) Hx) as (s & Hs & _).
      apply lookup_lt_Some in Hs. lia.
  - intros id' s. rewrite Hh. intros [Hs|[? Hs]]%lookup_app_Some; [eauto|].
    apply list_lookup_singleton_Some in Hs as [_ <-]. by apply new_subscription_queue.
Qed.

Lemma change_wf b b' : bus_change b b' -> bus_wf b -> bus_wf b'.
Proof. destruct 1; eauto using shrink_wf, update_wf, ensure_wf, subscribe_wf. Qed.

Lemma new_bus_wf : bus_wf new_bus.
Proof. split; simpl; intros *; rewrite ?lookup_empty, ?lookup_nil; done. Qed.

Lemma run_bus_wf n now tr σ : run (bus_init n now) tr σ -> bus_wf (bs_bus σ).
Proof.
  apply (run_invariant (fun σ => bus_wf (bs_bus σ))); [apply new_bus_wf|].
  intros σ1 e σ2 Hwf Hs. eapply change_wf; [by eapply step_change|done].
Qed.
