(* ===== verification/BusFlow.v ===== *)
(** * BusFlow

    Where the envelopes are.  For one subscription, every envelope destined to
    it (selected by a publish or handed over as backlog) is in exactly one
    place: held by a client that has yet to push it, in the queue, in the
    worker's hands, or finished (refused, evicted, expired or delivered). *)

From S2P Require Import Prelude Lts BoundedQueue Qos TopicBus BusSystem BusInvariants.
From stdpp Require Import strings.
Open Scope Z_scope.

(** One copy of [e] per occurrence of [id] among the targets. *)
Definition copies (id : nat) (e : Envelope) (targets : list nat) : list Envelope :=
  (fun _ => e) <$> filter (fun x => x = id) targets.

Definition destined_by (id : nat) (ev : event) : list Envelope :=
  match ev with
  | EvSelect _ e targets => copies id e targets
  | EvSubscribe id' _ backlog => if decide (id' = id) then backlog else []
  | _ => []
  end.

Definition refused (e : Envelope) (s : section Envelope PushStatus) : list Envelope :=
  match sec_outcome s with
  | Returned st => if status_accepted st then [] else [e]
  | Sleeps _ _ => []
  end.

Definition finished_by (id : nat) (ev : event) : list Envelope :=
  match ev with
  | EvPush id' e s => if decide (id' = id) then sec_discarded s ++ refused e s else []
  | EvExpire id' e _ => if decide (id' = id) then [e] else []
  | EvReturn id' e => if decide (id' = id) then [e] else []
  | _ => []
  end.

(** What the callback of [id] was called with, and what it returned from. *)
Definition callbacks_by (id : nat) (ev : event) : list Envelope :=
  match ev with EvCallback id' e _ => if decide (id' = id) then [e] else [] | _ => [] end.

Definition destined (id : nat) (tr : list event) : list Envelope := tr ≫= destined_by id.
Definition finished (id : nat) (tr : list event) : list Envelope := tr ≫= finished_by id.
Definition callbacks (id : nat) (tr : list event) : list Envelope := tr ≫= callbacks_by id.

Definition in_flight (id : nat) (c : client) : list Envelope :=
  match c with
  | CNotify _ _ _ e targets | CPublish e targets _ => copies id e targets
  | CBlocked e id' targets _ _ => copies id e (id' :: targets)
  | CBacklog id' backlog => if decide (id' = id) then backlog else []
  | _ => []
  end.

Definition in_hand (w : worker_state) : list Envelope :=
  match w with WHolding e | WCalling e => [e] | _ => [] end.

Definition in_sub (s : Subscription) : list Envelope := items_ (sub_queue s) ++ in_hand (sub_worker s).

Definition in_subs (id : nat) (h : list Subscription) : list Envelope :=
  match h !! id with Some s => in_sub s | None => [] end.

(** Everything on its way to, or inside, subscription [id]. *)
Definition held (id : nat) (σ : bus_state) : list Envelope :=
  (bs_clients σ ≫= in_flight id) ++ in_subs id (heap (bs_bus σ)).

(** Split on which subscription is concerned, and add up. *)
Ltac flow_cases :=
  repeat case_decide; rewrite ?countb_app, ?countb_cons, ?countb_nil in *; lia.

Section conservation.
Context (f : Envelope -> bool).
Implicit Types (id : nat) (σ : bus_state).

Lemma in_subs_insert id id' h s s' :
  h !! id' = Some s ->
  (countb f (in_subs id (<[id' := s']> h)) + (if decide (id' = id) then countb f (in_sub s) else 0)
   = countb f (in_subs id h) + (if decide (id' = id) then countb f (in_sub s') else 0))%nat.
Proof.
  intros Hs. unfold in_subs. pose proof (lookup_lt_Some _ _ _ Hs). case_decide; subst.
  - rewrite Hs, list_lookup_insert_eq by done. lia.
  - by rewrite list_lookup_insert_ne.
Qed.

Lemma in_subs_counts_only id h h' : counts_only h h' -> in_subs id h' = in_subs id h.
Proof.
  intros Hc. unfold in_subs, in_sub. destruct (h !! id) as [s|] eqn:Hs.
  - destruct (counts_only_lookup _ _ _ _ Hc Hs) as (s' & -> & _ & -> & ->). done.
  - destruct Hc as [Hl _]. apply lookup_ge_None in Hs. rewrite <-Hl in Hs.
    by apply lookup_ge_None in Hs as ->.
Qed.

Lemma in_subs_snoc id h t ty q :
  in_subs id (h ++ [new_subscription t ty q]) = in_subs id h.
Proof.
  unfold in_subs. destruct (h !! id) as [s|] eqn:Hs.
  - by rewrite (lookup_app_l_Some _ _ _ _ Hs).
  - apply lookup_ge_None in Hs as Hlen. rewrite lookup_app_r by done.
    by destruct (id - length h)%nat.
Qed.

Lemma countb_copies id e x targets :
  countb f (copies id e (x :: targets)) =
  ((if decide (x = id) then countb f [e] else 0) + countb f (copies id e targets))%nat.
Proof.
  unfold copies. rewrite filter_cons. case_decide; rewrite ?fmap_cons; [|done].
  rewrite !countb_cons, countb_nil. lia.
Qed.

Lemma countb_copies_nil id e : countb f (copies id e []) = 0%nat.
Proof. done. Qed.

(** A push section moves the envelope into the queue, refuses it or keeps it
    with the publisher; what it evicts is finished. *)
Lemma push_section_flow id id' e targets acc s sec :
  queue_wf (sub_queue s) -> push_shape (sub_queue s) e sec ->
  (countb f (in_flight id (after_target e id' targets acc sec)) +
   (if decide (id' = id) then
      countb f (in_sub (with_queue s (sec_queue sec))) + countb f (sec_discarded sec ++ refused e sec)
    else 0) =
   countb f (copies id e (id' :: targets)) +
   (if decide (id' = id) then countb f (in_sub s) else 0))%nat.
Proof.
  intros Hwf Hs. pose proof (push_shape_items _ _ _ Hwf Hs) as Hi.
  apply (f_equal (countb f)) in Hi. rewrite !countb_app in Hi.
  unfold after_target, refused, sec_accepted, in_sub in *. simpl. rewrite !countb_app.
  destruct (sec_outcome sec) as [[]|c d]; simpl; rewrite ?countb_copies; case_decide; simpl in *; try lia.
  all: rewrite ?countb_cons, ?countb_nil in *; lia.
Qed.

Lemma backlog_returns s e : exists st, sec_outcome (backlog_push s e) = Returned st.
Proof.
  unfold backlog_push, try_push, push_until, push_back, wait_for_space.
  destruct (closed_ (sub_queue s)), (policy_ (sub_queue s)); simpl; repeat case_bool; simpl; eauto.
Qed.

Lemma deliver_in_sub s e now s' r w :
  deliver_check s e now = (s', r) -> in_sub (with_worker s' w) = items_ (sub_queue s) ++ in_hand w.
Proof. intros Hd. apply deliver_check_static in Hd as (_ & Hq & _). unfold in_sub. simpl. by rewrite Hq. Qed.

Lemma publish_in_subs b t ty q m now b' sel id :
  publish_select b t ty q m now = (b', sel) -> in_subs id (heap b') = in_subs id (heap b).
Proof.
  unfold publish_select. destruct (topics_ b !! t) as [e|]; [|intros; by simplify_eq].
  destruct (negb _); intros; simplify_eq; [done|]. simpl. apply in_subs_counts_only.
  by apply (scan_spec q (te_subs e) (mkScan (heap b) (qos_mismatches_ b) [] [])).
Qed.

(** The same for the sections whose client is not a publisher. *)
Lemma backlog_flow id id' e s :
  queue_wf (sub_queue s) ->
  let sec := backlog_push s e in
  (if decide (id' = id) then
     countb f (in_sub (with_queue s (sec_queue sec))) + countb f (sec_discarded sec ++ refused e sec)
   else 0)%nat =
  (if decide (id' = id) then countb f [e] + countb f (in_sub s) else 0)%nat.
Proof.
  intros Hwf sec.
  pose proof (push_section_flow id id' e [] true s sec Hwf (backlog_push_shape s e)) as H.
  destruct (backlog_returns s e) as [st Hst]. fold sec in Hst.
  unfold after_target in H. rewrite Hst in H. cbn [in_flight] in H. rewrite countb_copies in H.
  rewrite (countb_copies_nil id e) in H. case_decide; simpl in *; lia.
Qed.

Lemma pop_flow s w r :
  sub_worker s = WPopping -> sec_outcome (pop (sub_queue s)) = Returned r ->
  in_hand w = match r with Some e => [e] | None => [] end ->
  countb f (in_sub (with_worker (with_queue s (sec_queue (pop (sub_queue s)))) w))
  = countb f (in_sub s).
Proof.
  intros Hw Hr Hh. pose proof (pop_shape_items _ _ (pop_shape_pop (sub_queue s))) as Hi.
  unfold in_sub, sec_popped in *. simpl. rewrite Hw, Hh, Hi, Hr.
  destruct r; simpl; rewrite ?app_nil_r; [|done].
  rewrite !countb_app, countb_cons, countb_cons, !countb_nil. lia.
Qed.

(** The flow of one step: what it destines comes into view, what it finishes
    leaves it, and nothing else appears or disappears. *)
Lemma step_flow id σ ev σ' :
  bus_wf (bs_bus σ) -> step σ ev σ' ->
  (countb f (held id σ) + countb f (destined_by id ev) =
   countb f (held id σ') + countb f (finished_by id ev))%nat.
Proof.
  intros Hwf Hs. unfold held. rewrite !countb_app. pose proof (wf_queue _ Hwf) as Hq.
  destruct Hs; simpl in *;
    try match goal with
    | Hi : ?cs !! ?i = Some ?c |- context [<[?i := ?c']> ?cs] =>
        pose proof (countb_bind_insert f (in_flight id) cs i c c' Hi) as Hcl; simpl in Hcl
    end;
    try match goal with
    | Hi : heap ?b !! ?i = Some ?s |- context [<[?i := ?s']> (heap ?b)] =>
        pose proof (in_subs_insert id i (heap b) s s' Hi) as Hsub;
        destruct (Hq i s Hi) as [Hqwf _]
    end;
    try match goal with
    | Hp : publish_select _ _ _ _ _ _ = _ |- _ => rewrite (publish_in_subs _ _ _ _ _ _ _ _ _ Hp)
    end;
    rewrite ?countb_nil in *; try lia.
  - (* step_target *)
    pose proof (push_section_flow id id0 e targets acc s sec Hqwf ltac:(by eapply target_push_shape)).
    flow_cases.
  - (* step_target_resume *)
    pose proof (push_section_flow id id0 e targets acc s sec Hqwf (push_resume_shape _ _ _ _)).
    flow_cases.
  - (* step_conflict *)
    erewrite (conflict_ensure b _ _ _ b') by done. simpl. lia.
  - (* step_subscribe *)
    apply subscribe_spec in H1 as (en & -> & _ & _ & -> & _ & ->).
    rewrite in_subs_snoc. lia.
  - (* step_backlog *)
    pose proof (backlog_flow id id0 e s Hqwf) as Hb. subst sec. cbv zeta in Hb. flow_cases.
  - (* step_start *)
    unfold in_sub in Hsub. simpl in Hsub. destruct H1 as [Hw|Hw]; rewrite Hw in Hsub; simpl in Hsub;
      flow_cases.
  - (* step_stop_close *)
    unfold in_sub in Hsub. simpl in Hsub. flow_cases.
  - (* step_join *)
    unfold in_sub in Hsub. simpl in Hsub. rewrite H1 in Hsub. simpl in Hsub. flow_cases.
  - (* step_pop *)
    subst sec. rewrite (pop_flow s (WHolding e) (Some e)) in Hsub by done. flow_cases.
  - (* step_exit *)
    subst sec. rewrite (pop_flow s WExited None) in Hsub by done. flow_cases.
  - (* step_expire *)
    rewrite (deliver_in_sub _ _ _ _ _ _ H1) in Hsub. unfold in_sub in Hsub. rewrite H0 in Hsub.
    rewrite !countb_app in Hsub. simpl in Hsub. flow_cases.
  - (* step_callback *)
    rewrite (deliver_in_sub _ _ _ _ _ _ H1) in Hsub. unfold in_sub in Hsub. rewrite H0 in Hsub.
    simpl in Hsub. flow_cases.
  - (* step_return *)
    unfold in_sub in Hsub. simpl in Hsub. rewrite H0 in Hsub. rewrite !countb_app in Hsub. simpl in Hsub.
    flow_cases.
Qed.
End conservation.
