(* ===== verification/BusOrder.v ===== *)
(** * BusOrder

    What is destined to a subscription, and in which order.  Every envelope
    destined to it was published on its topic with its type; the sequence
    numbers are strictly increasing, so none is destined twice. *)

From S2P Require Import Prelude Lts BoundedQueue Qos TopicBus BusSystem BusInvariants BusFlow.
From stdpp Require Import strings sorting.
Open Scope Z_scope.

(** ** Strictly increasing lists, up to a bound *)

Definition ascending (l : list Z) (bound : Z) : Prop :=
  StronglySorted Z.lt l /\ Forall (fun x => x <= bound) l.

Lemma ascending_nil n : ascending [] n.
Proof. split; constructor. Qed.

Lemma ascending_weaken l n m : ascending l n -> n <= m -> ascending l m.
Proof. intros [Hs Hf] Hnm. split; [done|]. eapply Forall_impl; [done|]. simpl. lia. Qed.

Lemma ascending_snoc l n : ascending l n -> ascending (l ++ [n + 1]) (n + 1).
Proof.
  intros [Hs Hf]. split.
  - apply StronglySorted_app. split; [|split; [done|repeat constructor]].
    intros x y Hx ->%list_elem_of_singleton. rewrite Forall_forall in Hf. specialize (Hf x Hx). lia.
  - apply Forall_app. split; [|repeat constructor; lia].
    eapply Forall_impl; [done|]. simpl. lia.
Qed.

Lemma ascending_sublist l l' n : l' `sublist_of` l -> ascending l n -> ascending l' n.
Proof.
  intros Hsub [Hs Hf]. split.
  - clear Hf. revert l' Hsub. induction Hs as [|x l Hs IH Hx]; intros l' Hsub.
    + apply sublist_nil_r in Hsub as ->. constructor.
    + inversion Hsub as [|? ? ? H|? ? ? H]; subst; [|by apply IH].
      constructor; [by apply IH|]. rewrite Forall_forall in *.
      intros y Hy. apply Hx. by eapply elem_of_sublist.
  - rewrite Forall_forall in *. intros x Hx. apply Hf. by eapply elem_of_sublist.
Qed.

Lemma ascending_NoDup l n : ascending l n -> NoDup l.
Proof.
  intros [Hs _]. induction Hs as [|x l Hs IH Hx]; constructor; [|done].
  intros Hin. rewrite Forall_forall in Hx. specialize (Hx x Hin). lia.
Qed.

(** ** What the blocks do to the topics *)

(** A block that publishes nothing: numbers stay, latched lists only lose. *)
Definition topics_quiet (ts ts' : gmap string TopicEntry) : Prop :=
  forall t e', ts' !! t = Some e' ->
    (exists e, ts !! t = Some e /\ te_type e' = te_type e /\ te_published e' = te_published e /\
               te_latched e' `sublist_of` te_latched e) \/
    (ts !! t = None /\ te_published e' = 0 /\ te_latched e' = []).

Lemma topics_quiet_refl ts : topics_quiet ts ts.
Proof. intros t e He. left. eauto. Qed.

Lemma ensure_quiet ts t ty : topics_quiet ts (ensure_topic ts t ty).1.
Proof.
  intros t' e'. rewrite ensure_topic_lookup. destruct (ts !! t') eqn:Ht'; intros; simplify_eq.
  - left. eauto.
  - case_decide; simplify_eq. auto.
Qed.

Lemma subscribe_quiet b t ty q b' r :
  subscribe_register b t ty q = (b', Some r) -> topics_quiet (topics_ b) (topics_ b').
Proof.
  destruct r as [id backlog]. intros (e & _ & _ & He & _ & -> & _)%subscribe_spec t' e'.
  intros [[<- <-]|[_ He']]%lookup_insert_Some; [|left; eauto]. simpl.
  destruct He as [He|[He ->]]; [left; eauto 10|right; auto].
Qed.

Lemma unsubscribe_quiet b id s : topics_quiet (topics_ b) (topics_ (unsubscribe_detach b id s)).
Proof.
  intros t e'. simpl. rewrite lookup_alter. case_decide; subst; [|left; eauto].
  destruct (topics_ b !! _); simpl; intros; simplify_eq. left. eauto 10.
Qed.

Lemma shutdown_quiet b : topics_quiet (topics_ b) (topics_ (shutdown_detach b).1).
Proof.
  intros t e'. simpl. rewrite lookup_fmap.
  destruct (topics_ b !! t); simpl; intros; simplify_eq.
  left. eexists. split; [done|]. simpl. auto using sublist_nil_l.
Qed.

(** A publish that is refused leaves the topics alone. *)
Lemma reject_quiet b t ty q m now b' sel :
  publish_select b t ty q m now = (b', sel) -> sel = NoTopic \/ sel = WrongType ->
  topics_quiet (topics_ b) (topics_ b').
Proof.
  unfold publish_select. destruct (topics_ b !! t) as [e|]; [destruct (negb _)|];
    intros ? []; simplify_eq; apply topics_quiet_refl.
Qed.

Lemma trim_sublist l d : trim_latched l d `sublist_of` l.
Proof.
  induction l as [|x l IH]; [constructor|]. cbn [trim_latched].
  destruct (d <? _); [by apply sublist_cons|done].
Qed.

(** What a successful publish selects. *)
Lemma select_spec b t ty q m now b' e targets ms h :
  publish_select b t ty q m now = (b', Selected e targets ms h) ->
  exists en,
    topics_ b !! t = Some en /\ te_type en = ty /\
    e = mkEnvelope m (te_published en +u 1) now /\
    targets = filter (fun id => accepts (heap b) q id = true) (te_subs en) /\
    counts_only (heap b) (heap b') /\
    topics_ b' =
      <[t := mkTopicEntry (te_type en) (te_subs en)
               (if bool_decide (durability q = TransientLocal)
                then trim_latched (te_latched en ++ [e]) (depth q) else te_latched en)
               (te_published en +u 1)]> (topics_ b).
Proof.
  unfold publish_select. destruct (topics_ b !! t) as [en|]; [|done].
  destruct (Z.eqb_spec (te_type en) ty); simpl; [|done]. intros; simplify_eq.
  destruct (scan_spec q (te_subs en) (mkScan (heap b) (qos_mismatches_ b) [] [])) as [Hc Ht].
  exists en. simpl in Ht. rewrite Ht. repeat split; try done; apply Hc.
Qed.

Definition selecting (ev : event) : bool :=
  match ev with EvSelect _ _ _ => true | _ => false end.

Lemma step_quiet σ ev σ' :
  step σ ev σ' -> selecting ev = false ->
  topics_quiet (topics_ (bs_bus σ)) (topics_ (bs_bus σ')).
Proof.
  destruct 1; cbn [bs_bus selecting]; intros Hsel; try done;
    eauto using topics_quiet_refl, ensure_quiet, subscribe_quiet, unsubscribe_quiet,
      shutdown_quiet, reject_quiet.
  - apply ensure_quiet.
  - erewrite (conflict_ensure b _ _ _ b') by done. apply ensure_quiet.
Qed.

(** Outside [subscribe], the heap holds the same subscriptions. *)
Definition subscribing (ev : event) : bool :=
  match ev with EvSubscribe _ _ _ => true | _ => false end.

Lemma static_insert (h : list Subscription) id s s' id' :
  h !! id = Some s -> static s' = static s ->
  static <$> (<[id := s']> h) !! id' = static <$> h !! id'.
Proof.
  intros Hs Hst. pose proof (lookup_lt_Some _ _ _ Hs). destruct (decide (id = id')) as [<-|].
  - rewrite list_lookup_insert_eq, Hs by done. simpl. by rewrite Hst.
  - by rewrite list_lookup_insert_ne.
Qed.

Lemma static_counts_only (h h' : list Subscription) id :
  counts_only h h' -> static <$> h' !! id = static <$> h !! id.
Proof.
  intros Hc. destruct (h !! id) as [s|] eqn:Hs.
  - destruct (counts_only_lookup _ _ _ _ Hc Hs) as (s' & -> & Hst & _). simpl. by rewrite Hst.
  - destruct Hc as [Hl _]. apply lookup_ge_None in Hs. rewrite <-Hl in Hs.
    by apply lookup_ge_None in Hs as ->.
Qed.

Lemma change_static b b' id :
  bus_change b b' -> length (heap b') = length (heap b) ->
  static <$> heap b' !! id = static <$> heap b !! id.
Proof.
  destruct 1 as [b' _ Hh|id' s s' Hs Hst _|t ty|t ty q b' [id' backlog] _ Hsub]; intros Hlen.
  - by apply static_counts_only.
  - by eapply static_insert.
  - done.
  - apply subscribe_spec in Hsub as (? & ? & ? & ? & ? & ? & Hh). rewrite Hh in Hlen.
    rewrite length_app in Hlen. simpl in Hlen. lia.
Qed.

Lemma step_heap_length σ ev σ' :
  step σ ev σ' -> subscribing ev = false ->
  length (heap (bs_bus σ')) = length (heap (bs_bus σ)).
Proof.
  destruct 1; simpl; intros Hsel; try done; rewrite ?length_insert; try done.
  - unfold publish_select in H0. destruct (topics_ b !! _); [destruct (negb _)|];
      destruct H1; by simplify_eq.
  - apply select_spec in H0 as (? & ? & ? & ? & ? & [? _] & ?). done.
  - by erewrite (conflict_ensure b _ _ _ b').
Qed.

(** ** The invariant *)

(** [e] was published on topic [t] by a publisher of type [ty]. *)
Definition origin (tr : list event) (t : string) (ty : Z) (e : Envelope) : Prop :=
  exists p targets, EvSelect p e targets ∈ tr /\ pub_topic p = t /\ pub_type p = ty.

Lemma origin_snoc tr ev t ty e : origin tr t ty e -> origin (tr ++ [ev]) t ty e.
Proof. intros (p & targets & ? & ? & ?). exists p, targets. set_solver. Qed.

Lemma origins_snoc tr ev t ty l :
  Forall (origin tr t ty) l -> Forall (origin (tr ++ [ev]) t ty) l.
Proof. intros H. eapply Forall_impl; [done|]. intros e. apply origin_snoc. Qed.

Lemma destined_snoc id tr ev : destined id (tr ++ [ev]) = destined id tr ++ destined_by id ev.
Proof. unfold destined. rewrite bind_app. simpl. by rewrite app_nil_r. Qed.

(** A list of envelopes of one topic, in publication order. *)
Definition in_order (tr : list event) (t : string) (e : TopicEntry) (l : list Envelope) : Prop :=
  ascending (env_seq <$> l) (te_published e) /\ Forall (origin tr t (te_type e)) l.

Record order_inv (tr : list event) (b : TopicBus) : Prop := {
  oi_published t e : topics_ b !! t = Some e -> 0 <= te_published e <= zlen tr;
  oi_latched t e : topics_ b !! t = Some e -> in_order tr t e (te_latched e);
  oi_sub id s e :
    heap b !! id = Some s -> topics_ b !! sub_topic s = Some e ->
    in_order tr (sub_topic s) e (destined id tr);
  oi_new id : heap b !! id = None -> destined id tr = []
}.

Lemma in_order_nil tr t e : in_order tr t e [].
Proof. split; [apply ascending_nil|constructor]. Qed.

Lemma in_order_mono tr ev t e e' l :
  te_type e' = te_type e -> te_published e <= te_published e' ->
  in_order tr t e l -> in_order (tr ++ [ev]) t e' l.
Proof.
  intros Hty Hle [Ha Ho]. split; [by eapply ascending_weaken|].
  rewrite Hty. by apply origins_snoc.
Qed.

Lemma in_order_sublist tr t e l l' : l' `sublist_of` l -> in_order tr t e l -> in_order tr t e l'.
Proof.
  intros Hs [Ha Ho]. split.
  - eapply ascending_sublist; [|done]. by apply fmap_sublist.
  - rewrite Forall_forall in *. intros x Hx. apply Ho. by eapply elem_of_sublist.
Qed.

(** A new envelope with the next number goes to the end. *)
Lemma in_order_snoc tr p en targets l m now e' :
  let e := mkEnvelope m (te_published en + 1) now in
  pub_type p = te_type en -> te_type e' = te_type en -> te_published e' = te_published en + 1 ->
  in_order tr (pub_topic p) en l ->
  in_order (tr ++ [EvSelect p e targets]) (pub_topic p) e' (l ++ [e]).
Proof.
  intros e Hp Hty Hpub [Ha Ho]. split.
  - rewrite fmap_app, Hpub. by apply ascending_snoc.
  - rewrite Hty. apply Forall_app. split; [by apply origins_snoc|]. constructor; [|constructor].
    exists p, targets. set_solver.
Qed.

(** Steps that neither publish nor subscribe. *)
Lemma order_quiet tr ev b b' :
  order_inv tr b -> topics_quiet (topics_ b) (topics_ b') ->
  (forall id, static <$> heap b' !! id = static <$> heap b !! id) ->
  (forall id, destined_by id ev = []) -> bus_wf b -> order_inv (tr ++ [ev]) b'.
Proof.
  intros [Hpub Hlat Hsub Hnew] Hts Hst Hd Hwf.
  assert (Hnil : forall id, destined id (tr ++ [ev]) = destined id tr).
  { intros id. by rewrite destined_snoc, Hd, app_nil_r. }
  split.
  - intros t e' [(e & He & _ & -> & _)|(_ & -> & _)]%Hts; rewrite zlen_app; [|len].
    specialize (Hpub t e He). len.
  - intros t e' [(e & He & Hty & Hp & Hl)|(_ & _ & ->)]%Hts; [|apply in_order_nil].
    eapply in_order_sublist; [done|]. eapply in_order_mono; [done| |by apply Hlat]. lia.
  - intros id s' e' Hs' He'. rewrite Hnil. specialize (Hst id). rewrite Hs' in Hst.
    destruct (heap b !! id) as [s|] eqn:Hs; [|done]. injection Hst as Htp _ _. rewrite Htp in *.
    destruct (Hts _ _ He') as [(e & He & Hty & Hp & _)|(Hno & _)].
    + eapply in_order_mono; [done| |by eapply Hsub]. lia.
    + destruct (wf_home b Hwf id s Hs) as (e & He & _). congruence.
  - intros id Hid. rewrite Hnil. apply Hnew. specialize (Hst id). rewrite Hid in Hst.
    by destruct (heap b !! id).
Qed.

Lemma order_subscribe tr b t ty q b' id backlog :
  order_inv tr b -> bus_wf b -> subscribe_register b t ty q = (b', Some (id, backlog)) ->
  order_inv (tr ++ [EvSubscribe id q backlog]) b'.
Proof.
  intros [Hpub Hlat Hsub Hnew] Hwf Hreg. pose proof (subscribe_quiet _ _ _ _ _ _ Hreg) as Hts.
  apply subscribe_spec in Hreg as (en & -> & Hty & Hen & -> & Hts' & Hh).
  assert (Hlen : heap b !! length (heap b) = None) by (by apply lookup_ge_None).
  split.
  - intros t' e' [(e & He & _ & -> & _)|(_ & -> & _)]%Hts; rewrite zlen_app; [|len].
    specialize (Hpub t' e He). len.
  - intros t' e' [(e & He & Hty' & Hp & Hl)|(_ & _ & ->)]%Hts; [|apply in_order_nil].
    eapply in_order_sublist; [done|]. eapply in_order_mono; [done| |by apply Hlat]. lia.
  - intros id' s' e'. rewrite destined_snoc. cbn [destined_by]. rewrite Hh.
    intros [Hs'|[Hge Hs']]%lookup_app_Some He'.
    + pose proof (lookup_lt_Some _ _ _ Hs'). rewrite decide_False, app_nil_r by lia.
      destruct (Hts _ _ He') as [(e & He & Hty' & Hp & _)|(Hno & _)].
      * eapply in_order_mono; [done| |by eapply Hsub]. lia.
      * destruct (wf_home b Hwf id' s' Hs') as (e & He & _). congruence.
    + apply list_lookup_singleton_Some in Hs' as [Hid' <-].
      assert (id' = length (heap b)) as -> by lia.
      rewrite decide_True, Hnew by done. simpl in *. rewrite Hts', lookup_insert_eq in He'.
      simplify_eq. case_bool_decide; [|apply in_order_nil].
      eapply in_order_mono with (e := en); [done|simpl; lia|].
      destruct Hen as [Hen|[_ Hen]]; [by apply Hlat|]. rewrite Hen. apply in_order_nil.
  - intros id' Hid'. rewrite destined_snoc. cbn [destined_by]. rewrite Hh in Hid'.
    apply lookup_ge_None in Hid'. rewrite length_app in Hid'. simpl in Hid'.
    rewrite decide_False, app_nil_r by lia. apply Hnew, lookup_ge_None. lia.
Qed.

Lemma copies_NoDup id e targets :
  NoDup targets -> copies id e targets = if decide (id ∈ targets) then [e] else [].
Proof.
  unfold copies. induction 1 as [|x l Hx Hnd IH]; [done|]. rewrite filter_cons.
  destruct (decide (x = id)) as [->|Hne].
  - rewrite fmap_cons, IH, decide_False, decide_True by set_solver. done.
  - rewrite IH. apply decide_ext. rewrite elem_of_cons. naive_solver.
Qed.

(** A list that was in order for a topic still is after a publish, there or
    elsewhere. *)
Lemma in_order_select tr b b' p en en' e targets :
  topics_ b !! pub_topic p = Some en -> te_type en' = te_type en ->
  te_published en <= te_published en' ->
  topics_ b' = <[pub_topic p := en']> (topics_ b) ->
  forall t' e' l, topics_ b' !! t' = Some e' ->
    (forall e0, topics_ b !! t' = Some e0 -> in_order tr t' e0 l) ->
    in_order (tr ++ [EvSelect p e targets]) t' e' l.
Proof.
  intros Hen Hty Hle Hts t' e' l He' Hl. rewrite Hts in He'.
  apply lookup_insert_Some in He' as [[<- <-]|[_ He']].
  - by eapply in_order_mono; [| |apply Hl].
  - eapply in_order_mono; [done| |by apply Hl]. lia.
Qed.

Lemma order_select tr b p m now b' e targets ms h :
  order_inv tr b -> bus_wf b -> zlen tr + 1 < 2 ^ 64 ->
  publish_select b (pub_topic p) (pub_type p) (pub_qos p) m now = (b', Selected e targets ms h) ->
  order_inv (tr ++ [EvSelect p e targets]) b'.
Proof.
  intros [Hpub Hlat Hsub Hnew] Hwf Hlen
    (en & Hen & Hty & -> & -> & Hc & Hts)%select_spec.
  pose proof (Hpub _ _ Hen) as Hp.
  rewrite (wrap_small 64) in * by (unfold fits; lia).
  set (e := mkEnvelope m (te_published en + 1) now) in *.
  set (targets := filter (fun id => accepts (heap b) (pub_qos p) id = true) (te_subs en)) in *.
  set (en' := mkTopicEntry _ _ _ _) in Hts.
  assert (Hnd : NoDup targets) by (apply NoDup_filter; by eapply wf_nodup).
  assert (Hkeep := in_order_select tr b b' p en en' e targets Hen ltac:(done) ltac:(simpl; lia) Hts).
  split.
  - intros t' e'. rewrite Hts, zlen_app. intros [[<- <-]|[_ He']]%lookup_insert_Some; [simpl; len|].
    specialize (Hpub _ _ He'). len.
  - intros t' e' He'. rewrite Hts in He'.
    apply lookup_insert_Some in He' as [[<- <-]|[_ He']]; [|eapply in_order_mono; [done| |by apply Hlat]; lia].
    subst en'; simpl. case_bool_decide.
    + eapply in_order_sublist; [apply trim_sublist|].
      eapply (in_order_snoc tr p en targets); [done..|by apply Hlat].
    + eapply in_order_mono; [| |by apply Hlat]; simpl; [done|lia].
  - intros id s' e' Hs' He'. destruct Hc as [_ Hc]. destruct (Hc id s' Hs') as (s & Hs & Hst & _).
    injection Hst as Htp _ _. rewrite Htp in *.
    destruct (wf_home b Hwf id s Hs) as (e0 & He0 & Hty0).
    rewrite destined_snoc. cbn [destined_by]. rewrite copies_NoDup by done. case_decide as Hin.
    + apply list_elem_of_filter in Hin as [_ Hin].
      destruct (wf_refs b Hwf _ _ id Hen Hin) as (s0 & Hs0 & Ht0 & _). simplify_eq.
      rewrite Hts, Ht0, lookup_insert_eq in He'. simplify_eq. rewrite Ht0 in *.
      eapply (in_order_snoc tr p en targets); [done..|]. rewrite <-Ht0. eapply Hsub; [done|].
      by rewrite Ht0.
    + rewrite app_nil_r. eapply Hkeep; [done|]. intros; by eapply Hsub.
  - intros id Hid. rewrite destined_snoc. cbn [destined_by]. rewrite copies_NoDup by done.
    assert (Hid0 : heap b !! id = None).
    { pose proof (static_counts_only _ _ id Hc) as Hst. rewrite Hid in Hst. by destruct (heap b !! id). }
    rewrite Hnew by done. rewrite decide_False; [done|].
    intros [_ Hin]%list_elem_of_filter. destruct (wf_refs b Hwf _ _ id Hen Hin) as (s0 & Hs0 & _).
    congruence.
Qed.

Lemma step_order tr σ ev σ' :
  order_inv tr (bs_bus σ) -> bus_wf (bs_bus σ) -> zlen tr + 1 < 2 ^ 64 ->
  step σ ev σ' -> order_inv (tr ++ [ev]) (bs_bus σ').
Proof.
  intros Hinv Hwf Hlen Hs.
  destruct (selecting ev) eqn:Hsel; [|destruct (subscribing ev) eqn:Hsub].
  - destruct Hs; try done. by eapply order_select.
  - destruct Hs; try done. by eapply order_subscribe.
  - apply order_quiet with (b := bs_bus σ); [done|by eapply step_quiet| | |done].
    + intros id. apply change_static; [by eapply step_change|by eapply step_heap_length].
    + intros id. by destruct ev.
Qed.

Lemma run_order n now tr σ :
  run (bus_init n now) tr σ -> zlen tr < 2 ^ 64 -> order_inv tr (bs_bus σ).
Proof.
  induction 1 as [|tr ev σ σ' Hr IH Hs]; intros Hlen.
  - split; simpl; intros *; rewrite ?lookup_empty, ?lookup_nil; done.
  - rewrite zlen_app in Hlen. change (zlen [ev]) with 1 in Hlen.
    eapply step_order; [apply IH; lia|by eapply run_bus_wf|lia|done].
Qed.

(** The conservation law of [BusFlow] along a run. *)
Lemma run_flow (f : Envelope -> bool) id n now tr σ :
  run (bus_init n now) tr σ ->
  countb f (destined id tr) = (countb f (held id σ) + countb f (finished id tr))%nat.
Proof.
  induction 1 as [|tr ev σ σ' Hr IH Hs].
  - unfold held, in_subs. simpl. rewrite countb_app.
    assert (Hnil : forall k, replicate k CIdle ≫= in_flight id = []) by (by induction k).
    by rewrite Hnil.
  - pose proof (step_flow f id σ ev σ' (run_bus_wf _ _ _ _ Hr) Hs) as Hf.
    unfold destined, finished in *. rewrite !bind_app, !countb_app. simpl.
    rewrite !app_nil_r. lia.
Qed.
