(* ===== verification/BusScheduler.v ===== *)
(** * BusScheduler

    Concrete interleavings of [BusSystem]: one command per step, evaluated by
    [exec], and the scenarios the properties and findings are tried on. *)

From S2P Require Import Prelude Lts BoundedQueue Qos TopicBus BusSystem.
From stdpp Require Import strings.
Open Scope Z_scope.

Inductive command :=
  (* client [i] reads the clock in publish *)
  | BPublish (i : nat) (p : Publisher) (message : Z)
  (* client [i] runs its next block *)
  | BNext (i : nat)
  (* client [i], asleep in push_for, times out *)
  | BTimeout (i : nat)
  | BAdvertise (i : nat) (topic : string) (type : Z) (qos : QoS)
  | BSubscribe (i : nat) (topic : string) (type : Z) (qos : QoS)
  | BUnsubscribe (i : nat) (id : nat)
  | BShutdown (i : nat)
  | BHandler (i : nat) (h : option Z)
  | BReliableTimeout (i : nat) (d : Z)
  (* the worker of subscription [id] runs its next stage *)
  | BWork (id : nat)
  | BTick (dt : Z).

Definition joinable (w : worker_state) : bool :=
  match w with WNotStarted | WJoined => false | _ => true end.

Definition next_client (b : TopicBus) (cs : list client) (now : Z) (i : nat)
  : option (event * bus_state) :=
  match cs !! i with
  | Some (CStamped p message t) =>
      match publish_select b (pub_topic p) (pub_type p) (pub_qos p) message t with
      | (b', Selected e targets ms h) =>
          Some (EvSelect p e targets,
                mkState b' (<[i := CNotify (pub_topic p) ms h e targets]> cs) now)
      | (b', _) => Some (EvReject p, mkState b' (<[i := CIdle]> cs) now)
      end
  | Some (CNotify topic (m :: ms) h e targets) =>
      Some (EvHandler h topic m, mkState b (<[i := CNotify topic ms h e targets]> cs) now)
  | Some (CNotify _ [] _ e targets) =>
      Some (EvInternal, mkState b (<[i := CPublish e targets true]> cs) now)
  | Some (CPublish e (id :: targets) acc) =>
      match heap b !! id with
      | Some s =>
          match target_push s e now (reliable_timeout_ b) with
          | Some sec =>
              Some (EvPush id e sec,
                    mkState (queue_section b id s sec)
                      (<[i := after_target e id targets acc sec]> cs) now)
          | None => None
          end
      | None => None
      end
  | Some (CPublish e [] acc) => Some (EvPublished e acc, mkState b (<[i := CIdle]> cs) now)
  | Some (CBlocked e id targets acc d) =>
      match heap b !! id with
      | Some s =>
          let sec := push_resume (sub_queue s) e d false in
          Some (EvPush id e sec,
                mkState (queue_section b id s sec)
                  (<[i := after_target e id targets acc sec]> cs) now)
      | None => None
      end
  | Some (CBacklog id (e :: backlog)) =>
      match heap b !! id with
      | Some s =>
          let sec := backlog_push s e in
          Some (EvPush id e sec,
                mkState (queue_section b id s sec) (<[i := CBacklog id backlog]> cs) now)
      | None => None
      end
  | Some (CBacklog id []) =>
      match heap b !! id with
      | Some s =>
          if joinable (sub_worker s) then None
          else Some (EvInternal,
                     mkState (update_sub b id (with_worker s WPopping)) (<[i := CIdle]> cs) now)
      | None => None
      end
  | Some (CStop (id :: ids)) =>
      match heap b !! id with
      | Some s =>
          Some (EvInternal, mkState (update_sub b id (stop_close s)) (<[i := CJoin id ids]> cs) now)
      | None => None
      end
  | Some (CStop []) => Some (EvInternal, mkState b (<[i := CIdle]> cs) now)
  | Some (CJoin id ids) =>
      match heap b !! id with
      | Some s =>
          match sub_worker s with
          | WExited =>
              Some (EvInternal,
                    mkState (update_sub b id (with_worker s WJoined)) (<[i := CStop ids]> cs) now)
          | WNotStarted | WJoined => Some (EvInternal, mkState b (<[i := CStop ids]> cs) now)
          | _ => None
          end
      | None => None
      end
  | _ => None
  end.

Definition next_worker (b : TopicBus) (cs : list client) (now : Z) (id : nat)
  : option (event * bus_state) :=
  match heap b !! id with
  | Some s =>
      match sub_worker s with
      | WPopping =>
          let sec := pop (sub_queue s) in
          match sec_outcome sec with
          | Returned (Some e) =>
              Some (EvInternal,
                    mkState (update_sub b id (with_worker (with_queue s (sec_queue sec)) (WHolding e)))
                      cs now)
          | Returned None =>
              Some (EvInternal,
                    mkState (update_sub b id (with_worker (with_queue s (sec_queue sec)) WExited))
                      cs now)
          | Sleeps _ _ => None
          end
      | WHolding e =>
          match deliver_check s e (u64 now) with
          | (s', true) =>
              Some (EvCallback id e (u64 now),
                    mkState (update_sub b id (with_worker s' (WCalling e))) cs now)
          | (s', false) =>
              Some (EvExpire id e (u64 now),
                    mkState (update_sub b id (with_worker s' WPopping)) cs now)
          end
      | WCalling e =>
          Some (EvReturn id e, mkState (update_sub b id (with_worker (deliver_done s) WPopping)) cs now)
      | _ => None
      end
  | None => None
  end.

(** The commands that only an idle client can run. *)
Definition start_client (b : TopicBus) (cs : list client) (now : Z) (i : nat) (c : command)
  : option (event * bus_state) :=
  match c with
  | BPublish _ p message =>
      if pub_valid p
      then Some (EvInternal, mkState b (<[i := CStamped p message (u64 now)]> cs) now) else None
  | BAdvertise _ topic type qos =>
      Some (EvInternal, mkState (advertise b topic type qos).1 cs now)
  | BSubscribe _ topic type qos =>
      if (0 <=? depth qos) && (depth qos <? 2 ^ 64) then
        match subscribe_register b topic type qos with
        | (b', Some (id, backlog)) =>
            Some (EvSubscribe id qos backlog, mkState b' (<[i := CBacklog id backlog]> cs) now)
        | (b', None) => Some (EvInternal, mkState b' cs now)
        end
      else None
  | BUnsubscribe _ id =>
      match heap b !! id with
      | Some s =>
          Some (EvDetach [id], mkState (unsubscribe_detach b id s) (<[i := CStop [id]]> cs) now)
      | None => None
      end
  | BShutdown _ =>
      let '(b', ids) := shutdown_detach b in
      Some (EvDetach ids, mkState b' (<[i := CStop ids]> cs) now)
  | BHandler _ h => Some (EvInternal, mkState (set_qos_mismatch_handler b h) cs now)
  | BReliableTimeout _ d => Some (EvInternal, mkState (set_reliable_timeout b d) cs now)
  | _ => None
  end.

Definition time_out (b : TopicBus) (cs : list client) (now : Z) (i : nat)
  : option (event * bus_state) :=
  match cs !! i with
  | Some (CBlocked e id targets acc d) =>
      if negb (d =? tp_max) && (d <=? now) then
        match heap b !! id with
        | Some s =>
            let sec := push_resume (sub_queue s) e d true in
            Some (EvPush id e sec,
                  mkState (queue_section b id s sec)
                    (<[i := after_target e id targets acc sec]> cs) now)
        | None => None
        end
      else None
  | _ => None
  end.

Definition bus_exec1 (σ : bus_state) (c : command) : option (event * bus_state) :=
  let '(mkState b cs now) := σ in
  match c with
  | BNext i => next_client b cs now i
  | BTimeout i => time_out b cs now i
  | BWork id => next_worker b cs now id
  | BTick dt => if 0 <=? dt then Some (EvInternal, mkState b cs (now + dt)) else None
  | BPublish i _ _ | BAdvertise i _ _ _ | BSubscribe i _ _ _ | BUnsubscribe i _ | BShutdown i
  | BHandler i _ | BReliableTimeout i _ =>
      match cs !! i with
      | Some CIdle => start_client b cs now i c
      | _ => None
      end
  end.

(** ** The scheduler only takes steps of the system *)

Lemma joinable_spec w : joinable w = false -> not_joinable w.
Proof. unfold not_joinable. destruct w; simpl; auto; done. Qed.

Lemma next_client_sound b cs now i e σ' :
  next_client b cs now i = Some (e, σ') -> step (mkState b cs now) e σ'.
Proof.
  unfold next_client, not_joinable. intros H.
  repeat (case_match; simplify_eq); eauto using step, joinable_spec.
  - by eapply (step_target_resume _ _ _ _ _ _ _ _ _ _ false).
  - eapply step_not_joinable; eauto. unfold not_joinable. auto.
  - eapply step_not_joinable; eauto. unfold not_joinable. auto.
Qed.

Lemma next_worker_sound b cs now id e σ' :
  next_worker b cs now id = Some (e, σ') -> step (mkState b cs now) e σ'.
Proof.
  unfold next_worker. intros H. repeat (case_match; simplify_eq); eauto using step.
Qed.

Lemma start_client_sound b cs now i c e σ' :
  cs !! i = Some CIdle -> start_client b cs now i c = Some (e, σ') ->
  step (mkState b cs now) e σ'.
Proof.
  unfold start_client. intros Hi H. repeat (case_match; simplify_eq); eauto using step.
  - eapply step_subscribe; [done| |done]. unfold qos_ok, fits. lia.
  - eapply step_conflict; [done| |done]. unfold qos_ok, fits. lia.
  - pose proof (step_shutdown b cs now i Hi) as Hs.
    destruct (shutdown_detach b) as [b' ids]. by simplify_eq/=.
Qed.

Lemma time_out_sound b cs now i e σ' :
  time_out b cs now i = Some (e, σ') -> step (mkState b cs now) e σ'.
Proof.
  unfold time_out. intros H. repeat (case_match; simplify_eq).
  eapply (step_target_resume _ _ _ _ _ _ _ _ _ _ true); [done|done|lia].
Qed.

Lemma bus_exec1_sound σ c e σ' : bus_exec1 σ c = Some (e, σ') -> lts_step σ e σ'.
Proof.
  destruct σ as [b cs now]. unfold bus_exec1. intros H.
  change (step (mkState b cs now) e σ'). destruct c; repeat (case_match; simplify_eq);
    try solve [eapply start_client_sound; eassumption];
    eauto using next_client_sound, next_worker_sound, time_out_sound.
  apply step_tick. lia.
Qed.

#[export] Instance bus_scheduler : Scheduler bus_state event command :=
  {| exec1 := bus_exec1; exec1_sound := bus_exec1_sound |}.
