(* ===== verification/BusDelivery.v ===== *)
(** * BusDelivery

    What a subscription's worker does with the queue: the callbacks happen in
    the order in which the queue accepted the envelopes, each envelope at most
    once, and never again once the subscription is stopped. *)

From S2P Require Import Prelude Lts BoundedQueue Qos TopicBus BusSystem BusInvariants BusFlow.
From S2P Require Import BusOrder.
From stdpp Require Import strings.
Open Scope Z_scope.

(** ** First in, first out *)

(** The envelopes the queue of [id] accepted, in order. *)
Definition pushed_by (id : nat) (ev : event) : list Envelope :=
  match ev with EvPush id' e s => if decide (id' = id) then sec_accepted e s else [] | _ => [] end.

Definition pushed (id : nat) (tr : list event) : list Envelope := tr ≫= pushed_by id.

(** Accepted and not yet given to the callback. *)
Definition wait_sub (s : Subscription) : list Envelope :=
  (match sub_worker s with WHolding e => [e] | _ => [] end) ++ items_ (sub_queue s).

Definition calling_sub (s : Subscription) : list Envelope :=
  match sub_worker s with WCalling e => [e] | _ => [] end.

(** [g] of the subscription [id], if it exists. *)
Definition at_sub (g : Subscription -> list Envelope) (id : nat) (b : TopicBus) : list Envelope :=
  match heap b !! id with Some s => g s | None => [] end.

Abbreviation waiting := (at_sub wait_sub).
Abbreviation calling := (at_sub calling_sub).

Lemma at_sub_update g id id' b s s' :
  heap b !! id' = Some s ->
  at_sub g id (update_sub b id' s') = if decide (id' = id) then g s' else at_sub g id b.
Proof.
  intros Hs. unfold at_sub. simpl. pose proof (lookup_lt_Some _ _ _ Hs). case_decide; subst.
  - by rewrite list_lookup_insert_eq.
  - by rewrite list_lookup_insert_ne.
Qed.

Lemma at_sub_here g id b s : heap b !! id = Some s -> at_sub g id b = g s.
Proof. unfold at_sub. by intros ->. Qed.

(** Blocks that only touch counters or topics. *)
Lemma at_sub_counts_only g id b b' :
  (forall s s', sub_queue s' = sub_queue s -> sub_worker s' = sub_worker s -> g s' = g s) ->
  counts_only (heap b) (heap b') -> at_sub g id b' = at_sub g id b.
Proof.
  intros Hg Hc. unfold at_sub. destruct (heap b !! id) as [s|] eqn:Hs.
  - destruct (counts_only_lookup _ _ _ _ Hc Hs) as (s' & -> & _ & Hq & Hw). by apply Hg.
  - destruct Hc as [Hl _]. apply lookup_ge_None in Hs. rewrite <-Hl in Hs.
    by apply lookup_ge_None in Hs as ->.
Qed.

Lemma publish_counts_only b t ty q m now b' sel :
  publish_select b t ty q m now = (b', sel) -> counts_only (heap b) (heap b').
Proof.
  unfold publish_select. destruct (topics_ b !! t) as [e|]; [destruct (negb _)|];
    intros; simplify_eq; try apply counts_only_refl.
  by apply (scan_spec q (te_subs e) (mkScan (heap b) (qos_mismatches_ b) [] [])).
Qed.

Lemma wait_sub_proper s s' :
  sub_queue s' = sub_queue s -> sub_worker s' = sub_worker s -> wait_sub s' = wait_sub s.
Proof. unfold wait_sub. by intros -> ->. Qed.

Lemma calling_sub_proper s s' :
  sub_queue s' = sub_queue s -> sub_worker s' = sub_worker s -> calling_sub s' = calling_sub s.
Proof. unfold calling_sub. by intros _ ->. Qed.

Lemma at_sub_snoc g id b ts t ty q :
  g (new_subscription t ty q) = [] ->
  at_sub g id (mkBus ts (heap b ++ [new_subscription t ty q]) (mismatch_handler_ b)
                 (qos_mismatches_ b) (type_mismatches_ b) (reliable_timeout_ b)) = at_sub g id b.
Proof.
  intros Hg. unfold at_sub. simpl. destruct (heap b !! id) as [s|] eqn:Hs.
  - by rewrite (lookup_app_l_Some _ _ _ _ Hs).
  - apply lookup_ge_None in Hs. rewrite lookup_app_r by done.
    by destruct (id - length (heap b))%nat.
Qed.

Lemma at_sub_subscribe g id b t ty q b' r :
  g (new_subscription t ty q) = [] ->
  subscribe_register b t ty q = (b', r) -> at_sub g id b' = at_sub g id b.
Proof.
  intros Hg. unfold subscribe_register. destruct (ensure_topic _ _ _) as [ts e].
  destruct (negb _); intros; simplify_eq; [done|]. unfold with_heap, with_topics. simpl. by apply at_sub_snoc.
Qed.

Lemma push_section_waiting s sec e :
  queue_wf (sub_queue s) -> push_shape (sub_queue s) e sec ->
  wait_sub (with_queue s (sec_queue sec)) `sublist_of` wait_sub s ++ sec_accepted e sec.
Proof.
  intros Hwf Hs. pose proof (push_shape_items _ _ _ Hwf Hs) as Hi. unfold wait_sub. simpl.
  rewrite <-app_assoc, Hi. apply sublist_app; [done|]. by apply sublist_inserts_l.
Qed.

(** What is delivered or waiting after a step was waiting or accepted before,
    in that order. *)
Lemma step_fifo id σ ev σ' :
  bus_wf (bs_bus σ) -> step σ ev σ' ->
  callbacks_by id ev ++ waiting id (bs_bus σ')
    `sublist_of` waiting id (bs_bus σ) ++ pushed_by id ev.
Proof.
  intros Hwf Hs. pose proof (wf_queue _ Hwf) as Hq.
  destruct Hs; cbn [bs_bus callbacks_by pushed_by] in *; rewrite ?app_nil_r, ?app_nil_l; try done;
    unfold queue_section in *;
    try (rewrite (at_sub_counts_only _ _ b b') by
           (eauto using wait_sub_proper, publish_counts_only); done);
    try (erewrite at_sub_subscribe by done; done);
    try match goal with
    | Hi : heap ?b !! ?i = Some ?s |- context [update_sub ?b ?i _] =>
        destruct (Hq i s Hi) as [Hqwf _];
        rewrite (at_sub_update _ id i b s) by done; case_decide; subst;
        rewrite ?(at_sub_here _ id b s) by done; rewrite ?app_nil_r; try done
    end;
    try (apply push_section_waiting; [done|]; subst; eauto with rdb).
  - unfold wait_sub. simpl. destruct H1 as [->| ->]; done.
  - unfold wait_sub. simpl. by rewrite H1.
  - subst sec. pose proof (pop_shape_items _ _ (pop_shape_pop (sub_queue s))) as Hi.
    unfold sec_popped in Hi. rewrite H1 in Hi. unfold wait_sub. simpl. by rewrite H0, Hi.
  - subst sec. pose proof (pop_shape_items _ _ (pop_shape_pop (sub_queue s))) as Hi.
    unfold sec_popped in Hi. rewrite H1 in Hi. unfold wait_sub. simpl. by rewrite H0, Hi.
  - apply deliver_check_static in H1 as (_ & Hqq & _). unfold wait_sub. simpl.
    rewrite Hqq, H0. by apply sublist_cons.
  - apply deliver_check_static in H1 as (_ & Hqq & _). unfold wait_sub. simpl.
    by rewrite Hqq, H0.
  - unfold wait_sub. simpl. by rewrite H0.
Qed.

(** A callback is entered before it is left. *)
Lemma step_calling f id σ ev σ' :
  step σ ev σ' ->
  (countb f (callbacks_by id ev) + countb f (calling id (bs_bus σ)) <=
   countb f (calling id (bs_bus σ')) + countb f (finished_by id ev))%nat.
Proof.
  intros Hs.
  destruct Hs; cbn [bs_bus callbacks_by finished_by] in *; rewrite ?countb_nil; try lia;
    unfold queue_section in *;
    try (rewrite (at_sub_counts_only _ _ b b') by
           (eauto using calling_sub_proper, publish_counts_only); lia);
    try match goal with
    | Hr : subscribe_register _ _ _ _ = _ |- _ =>
        rewrite (at_sub_subscribe calling_sub id _ _ _ _ _ _ eq_refl Hr); lia
    end;
    try (rewrite Nat.add_0_r; apply le_n);
    try match goal with
    | Hi : heap ?b !! ?i = Some ?s |- context [update_sub ?b ?i _] =>
        rewrite (at_sub_update _ id i b s) by done; case_decide; subst;
        rewrite ?(at_sub_here _ id b s) by done; rewrite ?countb_nil; try lia
    end;
    unfold calling_sub; simpl; try lia.
  - destruct H1 as [->| ->]; unfold countb; simpl; lia.
  - rewrite H1. unfold countb; simpl; lia.
  - rewrite H0. unfold countb; simpl; lia.
  - rewrite H0. unfold countb; simpl; lia.
  - rewrite H0. unfold countb; simpl; lia.
  - rewrite H0. unfold countb; simpl; lia.
  - rewrite H0. lia.
Qed.

Lemma bind_snoc {A B} (g : A -> list B) l x : (l ++ [x]) ≫= g = (l ≫= g) ++ g x.
Proof. rewrite bind_app. simpl. by rewrite app_nil_r. Qed.

Lemma run_fifo id n now tr σ :
  run (bus_init n now) tr σ ->
  callbacks id tr ++ waiting id (bs_bus σ) `sublist_of` pushed id tr.
Proof.
  induction 1 as [|tr ev σ σ' Hr IH Hs]; [done|].
  unfold callbacks, pushed in *. rewrite !bind_snoc, <-app_assoc.
  etransitivity; [by apply sublist_app, (step_fifo id σ ev σ'); [|eapply run_bus_wf|]|].
  rewrite app_assoc. by apply sublist_app.
Qed.

Lemma run_calling f id n now tr σ :
  run (bus_init n now) tr σ ->
  (countb f (callbacks id tr) <= countb f (calling id (bs_bus σ)) + countb f (finished id tr))%nat.
Proof.
  induction 1 as [|tr ev σ σ' Hr IH Hs]; [done|].
  unfold callbacks, finished in *. rewrite !bind_snoc, !countb_app.
  pose proof (step_calling f id σ ev σ' Hs). lia.
Qed.

Lemma calling_held f id σ : (countb f (calling id (bs_bus σ)) <= countb f (held id σ))%nat.
Proof.
  unfold held, in_subs, at_sub, in_sub, calling_sub. rewrite countb_app.
  destruct (heap (bs_bus σ) !! id) as [s|]; [|rewrite countb_nil; lia].
  rewrite countb_app. destruct (sub_worker s); simpl; rewrite ?countb_nil; lia.
Qed.

(** Callbacks are among what was destined. *)
Lemma run_callbacks f id n now tr σ :
  run (bus_init n now) tr σ ->
  (countb f (callbacks id tr) <= countb f (destined id tr))%nat.
Proof.
  intros Hr. rewrite (run_flow f id n now tr σ Hr).
  pose proof (run_calling f id n now tr σ Hr). pose proof (calling_held f id σ). lia.
Qed.
