(* ===== verification/BusSerial.v ===== *)
(** * BusSerial

    Publication order.  Each subscription's queue is FIFO, but the envelopes of
    two publishes (or of a history and a publish) may reach it in either order.
    When nothing is sent to a subscription while something else is on its way
    to it, as with a single publishing thread, the callbacks follow the sequence
    numbers. *)

From S2P Require Import Prelude Lts BoundedQueue Qos TopicBus BusSystem BusInvariants BusFlow.
From S2P Require Import BusOrder BusDelivery BusScheduler.
From stdpp Require Import strings sorting.
Open Scope Z_scope.

(** The envelopes that clients hold for subscription [id]. *)
Definition in_transit (id : nat) (σ : bus_state) : list Envelope := bs_clients σ ≫= in_flight id.

(** The steps of the bus in which nothing is destined to [id] while something is
    in transit to it. *)
Definition serial_step (id : nat) (σ : bus_state) (ev : event) (σ' : bus_state) : Prop :=
  step σ ev σ' /\ (destined_by id ev <> [] -> in_transit id σ = []).

#[export] Instance serial_lts (id : nat) : LTS bus_state event := serial_step id.

Section serial.
Variable id : nat.
Implicit Types (σ : bus_state) (c : client).

Lemma serial_run σ0 tr σ :
  run (H := serial_lts id) σ0 tr σ -> run σ0 tr σ.
Proof. induction 1 as [|tr ev σ σ' Hr IH [Hs _]]; econstructor; eauto. Qed.

(** At most one client holds anything for [id]. *)
Definition lone (cs : list client) : Prop :=
  forall i j c c', cs !! i = Some c -> cs !! j = Some c' ->
    in_flight id c <> [] -> in_flight id c' <> [] -> i = j.

Lemma copies_cons (x : nat) e targets :
  copies id e (x :: targets) = (if decide (x = id) then [e] else []) ++ copies id e targets.
Proof. unfold copies. rewrite filter_cons. by case_decide. Qed.

(** What a client passes to the queue and what it keeps were its own or new, in
    that order. *)
Lemma after_target_order e id' targets acc (sec : section Envelope PushStatus) :
  (if decide (id' = id) then sec_accepted e sec else []) ++
    in_flight id (after_target e id' targets acc sec) `sublist_of` copies id e (id' :: targets).
Proof.
  rewrite copies_cons. unfold after_target, sec_accepted.
  destruct (sec_outcome sec) as [st|cv d]; simpl.
  - case_decide; [|done]. destruct st; simpl; by repeat constructor.
  - rewrite copies_cons. case_decide; simpl; [|done]. done.
Qed.

Lemma client_order σ ev σ' :
  step σ ev σ' ->
  (bs_clients σ' = bs_clients σ /\ pushed_by id ev = [] /\ destined_by id ev = []) \/
  exists i c c', bs_clients σ !! i = Some c /\ bs_clients σ' = <[i := c']> (bs_clients σ) /\
    pushed_by id ev ++ in_flight id c' `sublist_of` in_flight id c ++ destined_by id ev.
Proof.
  destruct 1; cbn [bs_clients pushed_by destined_by]; try (left; done); right;
    do 3 eexists; (split; [done|]); (split; [done|]); simpl; rewrite ?app_nil_r; try done;
    try apply after_target_order.
  - case_decide; [|done]. unfold sec_accepted.
    destruct (sec_outcome sec) as [[]|]; simpl; by repeat constructor.
  - by case_decide.
Qed.

Lemma transit_all_nil cs :
  (forall i c, cs !! i = Some c -> in_flight id c = []) -> cs ≫= in_flight id = [].
Proof.
  induction cs as [|x cs IH]; intros Hx; [done|].
  rewrite bind_cons, (Hx 0%nat x), IH; try done. intros i. by apply (Hx (S i)).
Qed.

(** When the others hold nothing, what is in transit is what [c] holds. *)
Lemma transit_only cs i c :
  cs !! i = Some c -> (forall j c', j <> i -> cs !! j = Some c' -> in_flight id c' = []) ->
  cs ≫= in_flight id = in_flight id c.
Proof.
  intros Hi Ho. rewrite <-(take_drop_middle cs i c Hi), bind_app, bind_cons.
  rewrite !transit_all_nil; [by rewrite app_nil_r| |]; intros j c' Hj.
  - rewrite lookup_drop in Hj. apply (Ho (S i + j)%nat); [lia|done].
  - apply lookup_take_Some in Hj as [Hj Hlt]. apply (Ho j); [lia|done].
Qed.

Lemma transit_nil cs i c : cs ≫= in_flight id = [] -> cs !! i = Some c -> in_flight id c = [].
Proof.
  intros Hn Hi. rewrite <-(take_drop_middle cs i c Hi), bind_app, bind_cons in Hn.
  apply app_eq_nil in Hn as [_ Hn]. by apply app_eq_nil in Hn as [Hn _].
Qed.

Lemma transit_same cs i c c' :
  cs !! i = Some c -> in_flight id c' = in_flight id c ->
  <[i := c']> cs ≫= in_flight id = cs ≫= in_flight id.
Proof.
  revert i. induction cs as [|x cs IH]; intros [|i] Hi He; [done..| |].
  - injection Hi as ->. change (<[0%nat := c']> (c :: cs)) with (c' :: cs). by rewrite !bind_cons, He.
  - change (<[S i := c']> (x :: cs)) with (x :: <[i := c']> cs). by rewrite !bind_cons, IH.
Qed.

(** Client [i] alone holds something, before and after. *)
Lemma lone_insert cs i c c' :
  cs !! i = Some c -> (forall j c0, j <> i -> cs !! j = Some c0 -> in_flight id c0 = []) ->
  lone (<[i := c']> cs) /\ <[i := c']> cs ≫= in_flight id = in_flight id c'.
Proof.
  intros Hi Ho.
  assert (Ho' : forall j c0, j <> i -> <[i := c']> cs !! j = Some c0 -> in_flight id c0 = []).
  { intros j c0 Hne. rewrite list_lookup_insert_ne by done. by apply Ho. }
  split.
  - intros j k c1 c2 Hj Hk H1 H2. destruct (decide (j = i)) as [->|Hji], (decide (k = i)) as [->|Hki];
      try done; exfalso;
      [apply H2, (Ho' k)|apply H1, (Ho' j)|apply H1, (Ho' j)]; done.
  - apply transit_only with i; [|done]. apply list_lookup_insert_eq. by eapply lookup_lt_Some.
Qed.

Lemma serial_keeps σ ev σ' :
  serial_step id σ ev σ' -> lone (bs_clients σ) ->
  lone (bs_clients σ') /\
  pushed_by id ev ++ in_transit id σ' `sublist_of` in_transit id σ ++ destined_by id ev.
Proof.
  intros [Hs Hser] Hl. unfold in_transit in *.
  destruct (client_order σ ev σ' Hs) as [(-> & -> & ->)|(i & c & c' & Hi & -> & Ho)].
  { split; [done|]. by rewrite app_nil_r. }
  assert (Hother : in_flight id c <> [] \/ bs_clients σ ≫= in_flight id = [] ->
            forall j c0, j <> i -> bs_clients σ !! j = Some c0 -> in_flight id c0 = []).
  { intros [Hne|Hn] j c0 Hj Hc0; [|by eapply transit_nil].
    destruct (in_flight id c0) eqn:He; [done|]. destruct Hj. eapply Hl; [done..|congruence|done]. }
  destruct (decide (in_flight id c = [])) as [Hc|Hc]; [destruct (decide (destined_by id ev = [])) as [Hd|Hd]|].
  - rewrite Hc, Hd in Ho. apply sublist_nil_r in Ho. apply app_eq_nil in Ho as [Hp Hf].
    rewrite Hp, Hd, app_nil_r. split; [|rewrite (transit_same _ i c); [done|done|congruence]].
    intros j k c1 c2 Hj Hk H1 H2.
    assert (Hback : forall m c0, <[i := c']> (bs_clients σ) !! m = Some c0 -> in_flight id c0 <> [] ->
              bs_clients σ !! m = Some c0).
    { intros m c0 [(-> & <- & _)|[_ Hm]]%list_lookup_insert_Some Hne; [by destruct Hne|done]. }
    eapply Hl; [by apply Hback|by apply Hback|done|done].
  - destruct (lone_insert _ i c c' Hi (Hother (or_intror (Hser Hd)))) as [Hl' ->].
    split; [done|]. rewrite (Hser Hd). by rewrite Hc in Ho.
  - destruct (lone_insert _ i c c' Hi (Hother (or_introl Hc))) as [Hl' ->].
    split; [done|]. by rewrite (transit_only _ i c Hi (Hother (or_introl Hc))).
Qed.

Lemma serial_pushed n now tr σ :
  run (H := serial_lts id) (bus_init n now) tr σ ->
  lone (bs_clients σ) /\ pushed id tr ++ in_transit id σ `sublist_of` destined id tr.
Proof.
  induction 1 as [|tr ev σ σ' Hr [Hl IH] Hs].
  - split; [|unfold in_transit; rewrite transit_all_nil; [done|]].
    + intros i j c c' [-> _]%lookup_replicate. done.
    + intros i c [-> _]%lookup_replicate. done.
  - destruct (serial_keeps σ ev σ' Hs Hl) as [Hl' Ho]. split; [done|].
    unfold pushed in *. rewrite bind_snoc, destined_snoc, <-app_assoc.
    etransitivity; [by apply sublist_app, Ho|]. rewrite app_assoc. by apply sublist_app.
Qed.

(** C9: with one publisher at a time, messages arrive in publication order: if nothing
    is sent to a subscription while something else is on its way to it, its
    callbacks have strictly increasing sequence numbers, whatever is dropped,
    evicted or expired and however publisher, worker and other clients
    interleave. *)
Theorem serial_publisher_order (n : nat) (now : Z) (tr : list event) (σ : bus_state) :
  run (H := serial_lts id) (bus_init n now) tr σ -> zlen tr < 2 ^ 64 ->
  callbacks id tr `sublist_of` destined id tr /\
  StronglySorted Z.lt (env_seq <$> callbacks id tr).
Proof.
  intros Hr Hlen. destruct (serial_pushed n now tr σ Hr) as [_ Hp].
  apply serial_run in Hr. pose proof (run_fifo id n now tr σ Hr) as Hf.
  assert (Hsub : callbacks id tr `sublist_of` destined id tr).
  { etransitivity; [|etransitivity; [|exact Hp]].
    - by apply sublist_inserts_r.
    - etransitivity; [exact Hf|]. by apply sublist_inserts_r. }
  split; [done|]. pose proof (run_order n now tr σ Hr Hlen) as Ho.
  destruct (heap (bs_bus σ) !! id) as [s|] eqn:Hs.
  - destruct (wf_home _ (run_bus_wf n now tr σ Hr) id s Hs) as (en & Hen & _).
    destruct (oi_sub _ _ Ho id s en Hs Hen) as [Ha _].
    by destruct (ascending_sublist _ _ _ (fmap_sublist env_seq _ _ Hsub) Ha).
  - rewrite (oi_new _ _ Ho id Hs) in Hsub. apply sublist_nil_r in Hsub as ->. constructor.
Qed.
End serial.

(** ** A scheduler for serial runs, and a witness *)

Definition serial_exec1 (id : nat) (σ : bus_state) (c : BusScheduler.command)
  : option (event * bus_state) :=
  match bus_exec1 σ c with
  | Some (ev, σ') =>
      match destined_by id ev, in_transit id σ with
      | _ :: _, _ :: _ => None
      | _, _ => Some (ev, σ')
      end
  | None => None
  end.

Lemma serial_exec1_sound id σ c ev σ' :
  serial_exec1 id σ c = Some (ev, σ') -> serial_step id σ ev σ'.
Proof.
  unfold serial_exec1. destruct (bus_exec1 σ c) as [[ev0 σ0]|] eqn:Hx; [|done].
  apply bus_exec1_sound in Hx. intros Hs. split.
  - by repeat case_match; simplify_eq.
  - intros Hd. repeat case_match; simplify_eq; done.
Qed.

#[export] Instance serial_scheduler id :
    Scheduler (H := serial_lts id) bus_state event BusScheduler.command :=
  {| exec1 := serial_exec1 id; exec1_sound := serial_exec1_sound id |}.

(** Three messages to a best-effort queue of one place: the second is evicted by
    the third while the worker is busy with the first. *)
Definition serial_scenario : list BusScheduler.command :=
  let q := mkQoS BestEffort Volatile KeepLast 1 0 0 in
  let p := mkPublisher true "t" 7 q in
  [BSubscribe 0 "t" 7 q; BNext 0; BPublish 1 p 10; BNext 1; BNext 1; BNext 1; BNext 1; BWork 0; BWork 0;
   BPublish 1 p 20; BNext 1; BNext 1; BNext 1; BNext 1; BPublish 1 p 30; BNext 1; BNext 1; BNext 1;
   BWork 0; BNext 1; BWork 0; BWork 0].

Lemma serial_publisher_order_witness :
  exists tr σ, exec (H0 := serial_scheduler 0) (bus_init 2 5) serial_scenario = Some (tr, σ) /\
    env_seq <$> callbacks 0 tr = [1; 3] /\
    callbacks 0 tr `sublist_of` destined 0 tr /\ StronglySorted Z.lt (env_seq <$> callbacks 0 tr).
Proof.
  do 2 eexists. split; [vm_compute; reflexivity|]. split; [vm_compute; reflexivity|].
  eapply (serial_publisher_order 0 2 5);
    [apply (exec_sound (H0 := serial_scheduler 0) _ serial_scenario); vm_compute; reflexivity
    |reflexivity].
Defined.
