(* ===== verification/BusReliable.v ===== *)
(** * BusReliable

    Reliable subscriptions lose nothing: what their queue accepted is, in
    order, what their worker took and what still waits.  And a publisher is told
    the truth: [publish] returns true exactly when every target accepted. *)

From S2P Require Import Prelude Lts BoundedQueue Qos TopicBus BusSystem BusInvariants BusFlow.
From S2P Require Import BusOrder BusDelivery.
From stdpp Require Import strings.
Open Scope Z_scope.

(** ** Nothing is lost on the way to the callback *)

(** What the worker of [id] took to deliver, or to discard as expired. *)
Definition taken_by (id : nat) (ev : event) : list Envelope :=
  match ev with
  | EvCallback id' e _ | EvExpire id' e _ => if decide (id' = id) then [e] else []
  | _ => []
  end.

Definition taken (id : nat) (tr : list event) : list Envelope := tr ≫= taken_by id.

Definition evicted_by (id : nat) (ev : event) : list Envelope :=
  match ev with EvPush id' _ s => if decide (id' = id) then sec_discarded s else [] | _ => [] end.

Lemma block_evicts_nothing {T} (q : BoundedQueue T) v s :
  push_shape q v s -> policy_ q = Block -> sec_discarded s = [].
Proof. destruct 1; try done. congruence. Qed.

Lemma push_section_exact s sec e :
  queue_wf (sub_queue s) -> push_shape (sub_queue s) e sec -> sec_discarded sec = [] ->
  wait_sub (with_queue s (sec_queue sec)) = wait_sub s ++ sec_accepted e sec.
Proof.
  intros Hwf Hs Hd. pose proof (push_shape_items _ _ _ Hwf Hs) as Hi. rewrite Hd in Hi.
  unfold wait_sub. simpl in *. by rewrite <-app_assoc, Hi.
Qed.

(** A step that evicts nothing moves envelopes in order. *)
Lemma step_exact id σ ev σ' :
  bus_wf (bs_bus σ) -> step σ ev σ' -> evicted_by id ev = [] ->
  taken_by id ev ++ waiting id (bs_bus σ') = waiting id (bs_bus σ) ++ pushed_by id ev.
Proof.
  intros Hwf Hs Hev. pose proof (wf_queue _ Hwf) as Hq.
  destruct Hs; cbn [bs_bus taken_by pushed_by evicted_by] in *; rewrite ?app_nil_r, ?app_nil_l; try done;
    unfold queue_section in *;
    try (rewrite (at_sub_counts_only _ _ b b') by
           (eauto using wait_sub_proper, publish_counts_only); done);
    try (erewrite at_sub_subscribe by done; done);
    try match goal with
    | Hi : heap ?b !! ?i = Some ?s |- context [update_sub ?b ?i _] =>
        destruct (Hq i s Hi) as [Hqwf _];
        rewrite (at_sub_update _ id i b s) by done; case_decide; subst;
        rewrite ?(at_sub_here _ id b s) by done; rewrite ?app_nil_r; try done
    end;
    try (apply push_section_exact; [done| |done]; subst; eauto with rdb).
  - unfold wait_sub. simpl. destruct H1 as [->| ->]; done.
  - unfold wait_sub. simpl. by rewrite H1.
  - subst sec. pose proof (pop_shape_items _ _ (pop_shape_pop (sub_queue s))) as Hi.
    unfold sec_popped in Hi. rewrite H1 in Hi. unfold wait_sub. simpl. by rewrite H0, Hi.
  - subst sec. pose proof (pop_shape_items _ _ (pop_shape_pop (sub_queue s))) as Hi.
    unfold sec_popped in Hi. rewrite H1 in Hi. unfold wait_sub. simpl. by rewrite H0, Hi.
  - apply deliver_check_static in H1 as (_ & Hqq & _). unfold wait_sub. simpl. by rewrite Hqq, H0.
  - apply deliver_check_static in H1 as (_ & Hqq & _). unfold wait_sub. simpl. by rewrite Hqq, H0.
  - unfold wait_sub. simpl. by rewrite H0.
Qed.

Definition reliable_at (id : nat) (b : TopicBus) : Prop :=
  forall s, heap b !! id = Some s -> reliability (sub_qos s) = Reliable.

Lemma reliable_evicts_nothing id σ ev σ' :
  bus_wf (bs_bus σ) -> step σ ev σ' -> reliable_at id (bs_bus σ) -> evicted_by id ev = [].
Proof.
  intros Hwf Hs Hrel.
  assert (Hpush : forall id' s e sec, heap (bs_bus σ) !! id' = Some s ->
            push_shape (sub_queue s) e sec -> (if decide (id' = id) then sec_discarded sec else []) = []).
  { intros id' s e sec Hs' Hsh. case_decide; [subst|done].
    destruct (wf_queue _ Hwf _ _ Hs') as [_ Hpol]. apply (block_evicts_nothing _ _ _ Hsh).
    rewrite Hpol. unfold queue_policy. by rewrite bool_decide_true by (by apply Hrel). }
  destruct Hs; cbn [bs_bus evicted_by] in *; try done; subst; eauto using target_push_shape,
    push_resume_shape, backlog_push_shape.
Qed.

Lemma reliable_before id σ ev σ' :
  step σ ev σ' -> reliable_at id (bs_bus σ') -> reliable_at id (bs_bus σ).
Proof.
  intros Hs Hrel s Hid. destruct (change_kept _ _ (step_change _ _ _ Hs)) as [_ Hk].
  destruct (Hk _ _ Hid) as (s' & Hs' & Hst). injection Hst as _ _ Hq. rewrite <-Hq. by apply Hrel.
Qed.

Lemma run_reliable id n now tr σ :
  run (bus_init n now) tr σ -> reliable_at id (bs_bus σ) ->
  pushed id tr = taken id tr ++ waiting id (bs_bus σ).
Proof.
  induction 1 as [|tr ev σ σ' Hr IH Hs]; intros Hrel; [done|].
  pose proof (reliable_before _ _ _ _ Hs Hrel) as Hrel0. pose proof (run_bus_wf _ _ _ _ Hr) as Hwf.
  unfold pushed, taken in *. rewrite !bind_snoc, IH, <-!app_assoc by done. f_equal.
  symmetry. apply step_exact; [done|done|]. by eapply reliable_evicts_nothing.
Qed.

(** Without a lifespan nothing expires. *)
Lemma taken_callbacks id tr :
  (forall e t, EvExpire id e t ∉ tr) -> taken id tr = callbacks id tr.
Proof.
  unfold taken, callbacks. induction tr as [|ev tr IH]; intros Hno; [done|]. simpl. f_equal.
  - destruct ev; simpl; try done. case_decide; [subst|done]. exfalso. eapply Hno. apply list_elem_of_here.
  - apply IH. intros e t Hin. eapply Hno. by apply list_elem_of_further.
Qed.

Definition immortal_at (id : nat) (b : TopicBus) : Prop :=
  forall s, heap b !! id = Some s -> lifespan (sub_qos s) <= 0.

Lemma no_lifespan s e now s' : lifespan (sub_qos s) <= 0 -> deliver_check s e now <> (s', false).
Proof.
  intros Hl. unfold deliver_check, is_expired, effective_lifespan.
  rewrite (proj2 (Z.ltb_ge 0 (lifespan (sub_qos s)))) by done. simpl. congruence.
Qed.

Lemma run_no_expiry id n now tr σ :
  run (bus_init n now) tr σ -> immortal_at id (bs_bus σ) -> forall e t, EvExpire id e t ∉ tr.
Proof.
  induction 1 as [|tr ev σ σ' Hr IH Hs]; intros Him e t; [by apply not_elem_of_nil|].
  assert (Him0 : immortal_at id (bs_bus σ)).
  { intros s Hid. destruct (change_kept _ _ (step_change _ _ _ Hs)) as [_ Hk].
    destruct (Hk _ _ Hid) as (s' & Hs' & Hst). injection Hst as _ _ Hq. rewrite <-Hq. by apply Him. }
  rewrite elem_of_app. intros [Hin|Hin%list_elem_of_singleton]; [by eapply IH|].
  inversion Hs; subst; try done. simplify_eq. simpl in *. by eapply no_lifespan; [apply Him0|].
Qed.

(** ** What publish reports *)

(** The pushes of [id] that failed. *)
Definition rejected_by (id : nat) (ev : event) : list Envelope :=
  match ev with EvPush id' e s => if decide (id' = id) then refused e s else [] | _ => [] end.

Definition rejected (id : nat) (tr : list event) : list Envelope := tr ≫= rejected_by id.

(** What [all_accepted] says of the targets already served. *)
Definition verdict (tr : list event) (e : Envelope) (served : list nat) (acc : bool) : Prop :=
  if acc then Forall (fun id => e ∈ pushed id tr) served
  else Exists (fun id => e ∈ rejected id tr) served.

Definition publishing (tr : list event) (c : client) : Prop :=
  match c with
  | CNotify _ _ _ e targets => exists p, EvSelect p e targets ∈ tr
  | CPublish e targets acc =>
      exists p served, EvSelect p e (served ++ targets) ∈ tr /\ verdict tr e served acc
  | CBlocked e id targets acc _ =>
      exists p served, EvSelect p e (served ++ id :: targets) ∈ tr /\ verdict tr e served acc
  | _ => True
  end.

Lemma verdict_mono tr ev e served acc : verdict tr e served acc -> verdict (tr ++ [ev]) e served acc.
Proof.
  unfold verdict, pushed, rejected. destruct acc; intros H.
  - eapply Forall_impl; [exact H|]. intros id. simpl. rewrite bind_snoc, elem_of_app. auto.
  - eapply Exists_impl; [exact H|]. intros id. simpl. rewrite bind_snoc, elem_of_app. auto.
Qed.

Lemma publishing_mono tr ev c : publishing tr c -> publishing (tr ++ [ev]) c.
Proof.
  destruct c; simpl; auto.
  - intros [p H]. exists p. apply elem_of_app. by left.
  - intros (p & served & H & Hv). exists p, served. split; [apply elem_of_app; by left|].
    by apply verdict_mono.
  - intros (p & served & H & Hv). exists p, served. split; [apply elem_of_app; by left|].
    by apply verdict_mono.
Qed.

(** A push that returned serves one more target. *)
Lemma verdict_push tr e id sec st served acc :
  sec_outcome sec = Returned st -> verdict tr e served acc ->
  verdict (tr ++ [EvPush id e sec]) e (served ++ [id]) (acc && status_accepted st).
Proof.
  intros Ho Hv. apply (verdict_mono _ (EvPush id e sec)) in Hv.
  assert (Hlast : verdict (tr ++ [EvPush id e sec]) e [id] (status_accepted st)).
  { assert (e ∈ if status_accepted st then sec_accepted e sec else refused e sec) as Hin.
    { unfold sec_accepted, refused. rewrite Ho. destruct st; apply list_elem_of_here. }
    unfold verdict. destruct (status_accepted st); [apply Forall_singleton|apply Exists_cons; left];
      unfold pushed, rejected; rewrite bind_snoc, elem_of_app; right; simpl; by rewrite decide_True. }
  unfold verdict in *. destruct acc; simpl.
  - destruct (status_accepted st); [by apply Forall_app|apply Exists_app; by right].
  - apply Exists_app. by left.
Qed.

Lemma after_target_publishing tr p e id targets acc sec served :
  EvSelect p e (served ++ id :: targets) ∈ tr -> verdict tr e served acc ->
  publishing (tr ++ [EvPush id e sec]) (after_target e id targets acc sec).
Proof.
  intros Hin Hv. unfold after_target. destruct (sec_outcome sec) as [st|c d] eqn:Ho; simpl.
  - exists p, (served ++ [id]). rewrite <-app_assoc. split; [apply elem_of_app; by left|].
    by apply verdict_push.
  - exists p, served. split; [apply elem_of_app; by left|by apply verdict_mono].
Qed.

Lemma publishing_at tr cs i c : Forall (publishing tr) cs -> cs !! i = Some c -> publishing tr c.
Proof. rewrite Forall_lookup. eauto. Qed.

Lemma step_publishing tr σ ev σ' :
  Forall (publishing tr) (bs_clients σ) -> step σ ev σ' ->
  Forall (publishing (tr ++ [ev])) (bs_clients σ').
Proof.
  intros Hcs Hs.
  assert (Hold : Forall (publishing (tr ++ [ev])) (bs_clients σ)).
  { eapply Forall_impl; [exact Hcs|]. intros c. apply publishing_mono. }
  destruct Hs; cbn [bs_clients] in *;
    try match goal with Hi : _ !! _ = Some _ |- _ => pose proof (publishing_at _ _ _ _ Hcs Hi) as Hp end;
    first [done | apply Forall_insert; [done|]]; try done; simpl in *.
  - exists p. apply elem_of_app. right. apply list_elem_of_here.
  - by apply (publishing_mono _ (EvHandler h topic m) (CNotify topic ms h e targets)).
  - destruct Hp as [p Hp]. exists p, []. split; [apply elem_of_app; by left|constructor].
  - destruct Hp as (p & served & Hp & Hv). by eapply after_target_publishing.
  - destruct Hp as (p & served & Hp & Hv). by eapply after_target_publishing.
Qed.

Lemma run_publishing n now tr σ :
  run (bus_init n now) tr σ -> Forall (publishing tr) (bs_clients σ).
Proof.
  induction 1 as [|tr ev σ σ' Hr IH Hs]; [by apply Forall_replicate|].
  by eapply step_publishing.
Qed.
