(* ===== verification/BusStop.v ===== *)
(** * BusStop

    Detaching and stopping a subscription: [unsubscribe] and [shutdown] first
    take it out of its topic, then close its queue and join its worker.  Once
    the join is passed nothing reaches the subscription any more. *)

From S2P Require Import Prelude Lts BoundedQueue Qos TopicBus BusSystem BusInvariants BusFlow.
From S2P Require Import BusOrder BusDelivery.
From stdpp Require Import strings.
Open Scope Z_scope.

(** In no topic's list. *)
Definition detached (b : TopicBus) (id : nat) : Prop :=
  (id < length (heap b))%nat /\ forall t e, topics_ b !! t = Some e -> id ∉ te_subs e.

Definition queue_closed (b : TopicBus) (id : nat) : Prop :=
  exists s, heap b !! id = Some s /\ closed_ (sub_queue s) = true.

Lemma change_detached b b' id : bus_change b b' -> detached b id -> detached b' id.
Proof.
  intros Hb [Hlt Hd]. destruct Hb as [b' Ht [Hl _]|id' s s' Hs _ _|t ty|t ty q b' [id' bl] _ Hsub].
  - split; [lia|]. intros t e' (e & He & _ & Hsub)%(topics_shrunk_lookup _ _ _ _ Ht) Hin.
    apply (Hd t e He). by eapply elem_of_sublist.
  - split; [by simpl; rewrite length_insert|exact Hd].
  - split; [done|]. intros t' e. simpl. rewrite ensure_topic_lookup.
    destruct (topics_ b !! t') eqn:He; [intros; simplify_eq; by eapply Hd|].
    case_decide; intros; simplify_eq/=. set_solver.
  - apply subscribe_spec in Hsub as (e & -> & _ & He & _ & Hts & Hh). split.
    + rewrite Hh, length_app. lia.
    + intros t' e'. rewrite Hts. intros [[<- <-]|[_ He']]%lookup_insert_Some; [simpl|by eapply Hd].
      rewrite elem_of_app, list_elem_of_singleton. intros [Hin|]; [|lia].
      destruct He as [He|[_ ->]]; [by eapply Hd|by apply not_elem_of_nil in Hin].
Qed.

Lemma change_closed b b' id : bus_change b b' -> queue_closed b id -> queue_closed b' id.
Proof.
  intros Hb (s & Hs & Hc).
  destruct Hb as [b' _ Hh|id' s0 s' Hs0 _ [_ [_ Hk]]|t ty|t ty q b' [id' bl] _ Hsub].
  - destruct (counts_only_lookup _ _ _ _ Hh Hs) as (s' & ? & _ & Hq & _). exists s'.
    split; [done|]. by rewrite Hq.
  - unfold queue_closed. simpl. destruct (decide (id' = id)) as [->|].
    + exists s'. simplify_eq. rewrite list_lookup_insert_eq by (by eapply lookup_lt_Some). auto.
    + exists s. by rewrite list_lookup_insert_ne.
  - by exists s.
  - apply subscribe_spec in Hsub as (e & -> & _ & _ & _ & _ & Hh). exists s. rewrite Hh.
    split; [by apply lookup_app_l_Some|done].
Qed.

(** The first occurrence is the only one. *)
Lemma erase_first_notin id l : NoDup l -> id ∉ erase_first id l.
Proof.
  induction 1 as [|x l Hx Hnd IH]; simpl; [set_solver|]. case_bool_decide; [by subst|set_solver].
Qed.

Lemma unsubscribe_detached b id s :
  bus_wf b -> heap b !! id = Some s -> detached (unsubscribe_detach b id s) id.
Proof.
  intros Hwf Hs. split; [by eapply lookup_lt_Some|]. intros t e. simpl. rewrite lookup_alter.
  case_decide as Ht; intros He Hin.
  - subst. apply fmap_Some in He as (e0 & He & ->). revert Hin. simpl.
    apply erase_first_notin. by eapply wf_nodup.
  - destruct (wf_refs b Hwf t e id He Hin) as (s0 & Hs0 & ? & _). simplify_eq.
Qed.

Lemma shutdown_detached b id :
  bus_wf b -> id ∈ (shutdown_detach b).2 -> detached (shutdown_detach b).1 id.
Proof.
  intros Hwf. simpl. intros ([t e] & Hin & He)%list_elem_of_bind.
  apply elem_of_map_to_list in He. destruct (wf_refs b Hwf t e id He Hin) as (s & Hs & _).
  split; [by eapply lookup_lt_Some|]. intros t' e'. simpl. rewrite lookup_fmap.
  destruct (topics_ b !! t'); simpl; intros; simplify_eq/=. set_solver.
Qed.

(** ** Clients on their way through [stop_subscription] *)

Definition client_stop_inv (b : TopicBus) (c : client) : Prop :=
  match c with
  | CStop ids => Forall (detached b) ids
  | CJoin id ids => queue_closed b id /\ Forall (detached b) (id :: ids)
  | _ => True
  end.

Definition stop_inv (σ : bus_state) : Prop := Forall (client_stop_inv (bs_bus σ)) (bs_clients σ).

Lemma change_client_stop b b' c :
  bus_change b b' -> client_stop_inv b c -> client_stop_inv b' c.
Proof.
  intros Hb. assert (Hd : forall ids, Forall (detached b) ids -> Forall (detached b') ids).
  { intros ids H. eapply Forall_impl; [done|]. intros id. by apply change_detached. }
  destruct c; simpl; auto. intros [? ?]. split; [by eapply change_closed|auto].
Qed.

Lemma stop_inv_insert b b' cs i c :
  bus_change b b' -> Forall (client_stop_inv b) cs -> client_stop_inv b' c ->
  Forall (client_stop_inv b') (<[i := c]> cs).
Proof.
  intros Hb Hcs Hc. apply Forall_insert; [|done].
  eapply Forall_impl; [done|]. intros c'. by apply change_client_stop.
Qed.

Lemma stop_inv_same b b' cs :
  bus_change b b' -> Forall (client_stop_inv b) cs -> Forall (client_stop_inv b') cs.
Proof. intros Hb Hcs. eapply Forall_impl; [done|]. intros c. by apply change_client_stop. Qed.

Lemma after_target_stop_inv b e id targets acc sec :
  client_stop_inv b (after_target e id targets acc sec).
Proof. unfold after_target. by destruct (sec_outcome sec). Qed.

Lemma client_at b cs i c :
  Forall (client_stop_inv b) cs -> cs !! i = Some c -> client_stop_inv b c.
Proof. rewrite Forall_lookup. eauto. Qed.

Lemma step_stop_inv σ ev σ' : bus_wf (bs_bus σ) -> stop_inv σ -> step σ ev σ' -> stop_inv σ'.
Proof.
  unfold stop_inv. intros Hwf Hi Hs. pose proof (step_change _ _ _ Hs) as Hb.
  destruct Hs; cbn [bs_bus bs_clients] in *;
    try (by apply stop_inv_insert with (b := b));
    try (by apply stop_inv_same with (b := b));
    try (apply stop_inv_insert with (b := b); [done|done|apply after_target_stop_inv]);
    (apply stop_inv_insert with (b := b); [done|done|]);
    repeat match goal with
    | Hc : _ !! _ = Some _ |- _ =>
        pose proof (client_at _ _ _ _ Hi Hc); clear Hc
    end; simpl in *.
  - constructor; [by apply unsubscribe_detached|constructor].
  - apply Forall_forall. intros id. by apply shutdown_detached.
  - split.
    + exists (stop_close s). simpl. rewrite list_lookup_insert_eq by (by eapply lookup_lt_Some). done.
    + eapply Forall_impl; [done|]. intros id'. by apply change_detached.
  - destruct H2 as [_ [_ Hids]%Forall_cons].
    eapply Forall_impl; [exact Hids|]. intros id'. by apply change_detached.
  - by destruct H2 as [_ [_ Hids]%Forall_cons].
Qed.

Lemma run_stop_inv n now tr σ : run (bus_init n now) tr σ -> stop_inv σ.
Proof.
  induction 1 as [|tr ev σ σ' Hr IH Hs].
  - unfold stop_inv. apply Forall_replicate. done.
  - eapply step_stop_inv; [by eapply run_bus_wf|done|done].
Qed.

(** ** Stopped for good *)

Definition no_thread (w : worker_state) : Prop := w = WNotStarted \/ w = WExited \/ w = WJoined.

Record stopped (id : nat) (σ : bus_state) : Prop := {
  sp_detached : detached (bs_bus σ) id;
  sp_closed : queue_closed (bs_bus σ) id;
  sp_worker s : heap (bs_bus σ) !! id = Some s -> no_thread (sub_worker s);
  sp_clients i backlog : bs_clients σ !! i <> Some (CBacklog id backlog)
}.

(** The events that do not reach subscription [id]: nothing is addressed to it,
    what is still underway is refused, its callback is not entered. *)
Definition leaves_alone (id : nat) (ev : event) : Prop :=
  match ev with
  | EvSelect _ _ targets => id ∉ targets
  | EvPush id' _ s => id' = id -> sec_outcome s = Returned Closed
  | EvCallback id' _ _ => id' <> id
  | _ => True
  end.

Lemma push_shape_on_closed {T} (q : BoundedQueue T) v s :
  push_shape q v s -> closed_ q = true -> sec_outcome s = Returned Closed.
Proof. destruct 1; simpl; congruence. Qed.

Lemma no_backlog_insert (cs : list client) i c id :
  (forall j backlog, cs !! j <> Some (CBacklog id backlog)) ->
  (forall backlog, c <> CBacklog id backlog) ->
  forall j backlog, <[i := c]> cs !! j <> Some (CBacklog id backlog).
Proof.
  intros Hcs Hc j backlog [(_ & E & _)|(_ & E)]%list_lookup_insert_Some.
  - by apply (Hc backlog).
  - by eapply Hcs.
Qed.

(** A worker out of its loop stays out, unless [subscribe] starts it. *)
Lemma step_no_thread id σ ev σ' s' :
  stopped id σ -> step σ ev σ' -> heap (bs_bus σ') !! id = Some s' -> no_thread (sub_worker s').
Proof.
  intros [Hd Hc Hw Hcl] Hs Hs'.
  assert (Hco : forall b b', counts_only (heap b) (heap b') ->
            (forall s, heap b !! id = Some s -> no_thread (sub_worker s)) ->
            heap b' !! id = Some s' -> no_thread (sub_worker s')).
  { intros b b' [_ Hh] Hb Hb'. destruct (Hh id s' Hb') as (s & ? & _ & _ & ->). eauto. }
  destruct Hs; cbn [bs_bus bs_clients] in *; eauto using publish_counts_only;
    unfold queue_section in *; simpl in *;
    try (apply list_lookup_insert_Some in Hs' as [(<- & <- & _)|(_ & Hs')]; [|by eauto]; simpl;
         unfold no_thread in *; auto; try (by eauto);
         try (exfalso; by eapply Hcl);
         match goal with Hh : heap _ !! _ = Some _ |- _ => specialize (Hw _ Hh) end;
         exfalso; destruct Hw as [Hw|[Hw|Hw]]; congruence).
  - erewrite (conflict_ensure b _ _ _ b') in Hs' by done. eauto.
  - apply subscribe_spec in H1 as (e & -> & _ & _ & _ & _ & Hh). rewrite Hh in Hs'.
    apply lookup_app_Some in Hs' as [Hs'|[Hge _]]; [eauto|]. destruct Hd. lia.
Qed.

Lemma stopped_step id σ ev σ' :
  stopped id σ -> step σ ev σ' -> stopped id σ' /\ leaves_alone id ev.
Proof.
  intros Hst Hs. pose proof (step_change _ _ _ Hs) as Hb. split.
  - split; [eapply change_detached|eapply change_closed| |]; eauto using step_no_thread; try apply Hst.
    pose proof (sp_clients _ _ Hst) as Hcl. pose proof (sp_detached _ _ Hst) as [Hlt _].
    destruct Hs; cbn [bs_bus bs_clients] in *; try done; apply no_backlog_insert; try done.
    + intros backlog. unfold after_target. by destruct (sec_outcome sec).
    + intros backlog. unfold after_target. by destruct (sec_outcome _).
    + apply subscribe_spec in H1 as (e & -> & _). intros bl [= Hl _]. lia.
    + intros bl [= -> ->]. by eapply Hcl.
  - destruct Hst as [[_ Hd] (s0 & Hs0 & Hc) Hw Hcl].
    destruct Hs; cbn [leaves_alone bs_bus bs_clients] in *; try done.
    + apply select_spec in H0 as (en & Hen & _ & _ & -> & _).
      rewrite list_elem_of_filter. intros [_ Hin]. by apply (Hd _ _ Hen).
    + intros ->. simplify_eq. by eapply push_shape_on_closed; [eapply target_push_shape|].
    + intros ->. simplify_eq. by eapply push_shape_on_closed; [apply push_resume_shape|].
    + intros ->. simplify_eq. by eapply push_shape_on_closed; [apply backlog_push_shape|].
    + intros ->. specialize (Hw _ H). unfold no_thread in Hw. rewrite H0 in Hw.
      by destruct Hw as [|[|]].
Qed.

Lemma stopped_run id σ tr σ' : stopped id σ -> run σ tr σ' -> Forall (leaves_alone id) tr.
Proof.
  intros Hst Hr. enough (stopped id σ' /\ Forall (leaves_alone id) tr) by tauto.
  induction Hr as [|tr ev σ1 σ2 Hr [IHs IHf] Hs]; [done|].
  destruct (stopped_step id σ1 ev σ2 IHs Hs). split; [done|].
  apply Forall_app. auto.
Qed.

(** The join of a client that closed the subscription passes only when there is
    no thread. *)
Lemma joined_stopped b cs clk i id ids ev σ1 :
  cs !! i = Some (CJoin id ids) -> queue_closed b id -> detached b id ->
  (forall j backlog, cs !! j <> Some (CBacklog id backlog)) ->
  step (mkState b cs clk) ev σ1 -> bs_clients σ1 !! i = Some (CStop ids) ->
  stopped id σ1.
Proof.
  intros Hi Hclosed Hdet Hcl Hs H1. pose proof (step_change _ _ _ Hs) as Hb. simpl in Hb.
  assert (Hother : forall j c, <[j := c]> cs !! i = Some (CStop ids) -> j = i /\ c = CStop ids).
  { intros j c [(? & ? & _)|(_ & Hx)]%list_lookup_insert_Some; [done|congruence]. }
  assert (bs_clients σ1 = <[i := CStop ids]> cs /\
          forall s, heap (bs_bus σ1) !! id = Some s -> no_thread (sub_worker s)) as [Hcs Hw].
  { inversion Hs; subst; cbn [bs_clients bs_bus] in *;
      try congruence; apply Hother in H1 as [-> Hc]; simplify_eq;
      try (unfold after_target in Hc; by destruct (sec_outcome _)).
    - split; [done|]. intros s'. simpl. rewrite list_lookup_insert_eq by (by eapply lookup_lt_Some).
      intros [= <-]. unfold no_thread. auto.
    - split; [done|]. intros s' Hs'. simplify_eq. unfold no_thread.
      match goal with Hn : not_joinable _ |- _ => destruct Hn; auto end. }
  split; [by eapply change_detached|by eapply change_closed|done|].
  rewrite Hcs. by apply no_backlog_insert.
Qed.
