(* ===== verification/BusLiveness.v ===== *)
(** * BusLiveness

    A publish call needs nobody's help to return: the reliable timeout bounds
    what each target can cost, whatever its subscriber does. *)

From S2P Require Import Prelude Lts BoundedQueue QueueTheorems Qos TopicBus BusSystem BusInvariants.
From stdpp Require Import strings.
Open Scope Z_scope.

(** ** The subscriptions a client refers to exist *)

Definition client_ids (c : client) : list nat :=
  match c with
  | CNotify _ _ _ _ targets | CPublish _ targets _ => targets
  | CBlocked _ id targets _ _ => id :: targets
  | _ => []
  end.

Definition refs_inv (σ : bus_state) : Prop :=
  Forall (fun c => Forall (fun id => (id < length (heap (bs_bus σ)))%nat) (client_ids c))
    (bs_clients σ).

Lemma change_grows b b' : bus_change b b' -> (length (heap b) <= length (heap b'))%nat.
Proof.
  intros Hb. apply change_kept in Hb as [_ Hk]. destruct (length (heap b)) eqn:Hl; [lia|].
  destruct (lookup_lt_is_Some_2 (heap b) n) as [s Hs]; [lia|].
  destruct (Hk n s Hs) as (s' & Hs' & _). apply lookup_lt_Some in Hs'. lia.
Qed.

Lemma after_target_ids (P : nat -> Prop) e id targets acc sec :
  Forall P (id :: targets) -> Forall P (client_ids (after_target e id targets acc sec)).
Proof. unfold after_target. destruct (sec_outcome sec); simpl; [|done]. by intros [_ ?]%Forall_cons. Qed.

Lemma publish_targets b t ty q m now b' e targets ms h :
  bus_wf b -> publish_select b t ty q m now = (b', Selected e targets ms h) ->
  Forall (fun id => (id < length (heap b))%nat) targets.
Proof.
  intros Hwf. unfold publish_select. destruct (topics_ b !! t) as [en|] eqn:Hen; [|done].
  destruct (negb _); [done|]. intros; simplify_eq.
  destruct (scan_spec q (te_subs en) (mkScan (heap b) (qos_mismatches_ b) [] [])) as [_ ->].
  simpl. apply Forall_forall. intros id [_ Hin]%list_elem_of_filter.
  destruct (wf_refs b Hwf t en id Hen Hin) as (s & Hs & _). by eapply lookup_lt_Some.
Qed.

Lemma refs_insert n m cs i c :
  (n <= m)%nat ->
  Forall (fun c => Forall (fun id => (id < n)%nat) (client_ids c)) cs ->
  Forall (fun id => (id < m)%nat) (client_ids c) ->
  Forall (fun c => Forall (fun id => (id < m)%nat) (client_ids c)) (<[i := c]> cs).
Proof.
  intros Hnm Hcs Hc. apply Forall_insert; [|done].
  eapply Forall_impl; [done|]. simpl. intros c' H.
  eapply Forall_impl; [done|]. simpl. lia.
Qed.

Lemma step_refs σ ev σ' : bus_wf (bs_bus σ) -> refs_inv σ -> step σ ev σ' -> refs_inv σ'.
Proof.
  unfold refs_inv. intros Hwf Hr Hs.
  pose proof (change_grows _ _ (step_change _ _ _ Hs)) as Hg.
  assert (Hat : forall i c, bs_clients σ !! i = Some c ->
            Forall (fun id => (id < length (heap (bs_bus σ')))%nat) (client_ids c)).
  { intros i c Hc. rewrite Forall_lookup in Hr. specialize (Hr i c Hc).
    eapply Forall_impl; [done|]. simpl. lia. }
  assert (Hmono : Forall (fun c => Forall (fun id => (id < length (heap (bs_bus σ')))%nat)
                            (client_ids c)) (bs_clients σ)).
  { apply Forall_lookup. eauto. }
  destruct Hs; cbn [bs_bus bs_clients] in *; try done;
    (apply refs_insert with (n := length (heap b)); [done|done|]); try (by constructor);
    try match goal with Hc : _ !! _ = Some _ |- _ => specialize (Hat _ _ Hc) end;
    try (by inversion Hat); try done.
  - apply publish_targets in H0; [|done]. eapply Forall_impl; [done|]. simpl. lia.
  - by apply after_target_ids.
  - by apply after_target_ids.
Qed.

Lemma run_refs n now tr σ : run (bus_init n now) tr σ -> refs_inv σ.
Proof.
  induction 1 as [|tr ev σ σ' Hr IH Hs].
  - apply Forall_replicate. constructor.
  - eapply step_refs; [by eapply run_bus_wf|done|done].
Qed.

(** ** One target *)

Lemma push_resume_returns {T} (q : BoundedQueue T) v d :
  exists st, sec_outcome (push_resume q v d true) = Returned st.
Proof.
  unfold push_resume, push_after_wait, cv_wait, push_back. destruct (push_ready q); simpl; eauto.
  destruct (closed_ q); simpl; eauto.
Qed.

(** What a publisher's own steps leave as it was. *)
Definition undisturbed (b b' : TopicBus) : Prop :=
  bus_wf b' /\ reliable_timeout_ b' = reliable_timeout_ b /\
  sub_worker <$> heap b' = sub_worker <$> heap b.

Lemma undisturbed_trans b1 b2 b3 : undisturbed b1 b2 -> undisturbed b2 b3 -> undisturbed b1 b3.
Proof.
  unfold undisturbed. intros (_ & Ht & Hw) (Hwf & Ht' & Hw'). split; [done|]. split; congruence.
Qed.

Lemma undisturbed_length b b' : undisturbed b b' -> length (heap b') = length (heap b).
Proof. intros (_ & _ & H). apply (f_equal length) in H. by rewrite !length_fmap in H. Qed.

Lemma section_undisturbed b id s e (sec : section Envelope PushStatus) :
  bus_wf b -> heap b !! id = Some s -> push_shape (sub_queue s) e sec ->
  undisturbed b (queue_section b id s sec).
Proof.
  intros Hwf Hs Hsh. split; [|split; [done|]].
  - eapply update_wf; [done|done|by eapply push_queue_kept|done].
  - simpl. rewrite list_fmap_insert. simpl. apply list_insert_id.
    by rewrite list_lookup_fmap, Hs.
Qed.

(** A push sleeps until the timeout, and only on a reliable subscription. *)
Lemma target_push_sleeps b id s e now timeout sec c d :
  bus_wf b -> heap b !! id = Some s -> target_push s e now timeout = Some sec ->
  sec_outcome sec = Sleeps c d -> d = now + timeout.
Proof.
  intros Hwf Hs. destruct (wf_queue b Hwf id s Hs) as [_ Hpol]. unfold target_push. case_bool_decide as Hrel.
  - unfold push_for, tp_add. case_match; simpl; [|done]. intros; simplify_eq.
    by eapply push_until_sleeps.
  - intros ? Hc; simplify_eq. unfold queue_policy in Hpol. rewrite bool_decide_false in Hpol by done.
    destruct (push_until_returns (sub_queue s) e tp_max) as [st Hst]; [by rewrite Hpol|].
    unfold push in Hc. congruence.
Qed.

(** A push to one target ends within the timeout, by the publisher's own steps
    and the passing of time. *)
Lemma target_completes b cs now i e id targets acc :
  cs !! i = Some (CPublish e (id :: targets) acc) ->
  bus_wf b -> (id < length (heap b))%nat -> 0 <= reliable_timeout_ b -> tp_min <= now ->
  now + reliable_timeout_ b < tp_max ->
  exists tr b' now' acc',
    run (mkState b cs now) tr (mkState b' (<[i := CPublish e targets acc']> cs) now') /\
    undisturbed b b' /\ now <= now' <= now + reliable_timeout_ b.
Proof.
  intros Hi Hwf [s Hs]%lookup_lt_is_Some_2 Ht Hnow Hmax.
  assert (exists sec, target_push s e now (reliable_timeout_ b) = Some sec) as [sec Hsec].
  { unfold target_push. case_bool_decide; [|eauto]. unfold push_for, tp_add.
    rewrite (proj2 (andb_true_iff _ _)) by lia. simpl. eauto. }
  pose proof (target_push_shape _ _ _ _ _ Hsec) as Hsh.
  pose proof (step_target b cs now i e id targets acc s sec Hi Hs Hsec) as Hstep.
  destruct (sec_outcome sec) as [st|c d] eqn:Hout.
  - unfold after_target in Hstep. rewrite Hout in Hstep.
    do 4 eexists. split; [by apply run_one|]. split; [by eapply section_undisturbed|lia].
  - pose proof (target_push_sleeps b id s e now _ sec c d Hwf Hs Hsec Hout) as ->.
    unfold after_target in Hstep. rewrite Hout in Hstep.
    set (b1 := queue_section b id s sec) in *. set (d := now + reliable_timeout_ b) in *.
    set (s1 := with_queue s (sec_queue sec)).
    assert (Hs1 : heap b1 !! id = Some s1).
    { apply list_lookup_insert_eq. by eapply lookup_lt_Some. }
    assert (Hu1 : undisturbed b b1) by (by eapply section_undisturbed).
    pose proof (lookup_lt_Some _ _ _ Hi) as Hlt.
    pose proof (step_target_resume b1 (<[i := CBlocked e id targets acc d]> cs) d i e id targets
                  acc d s1 true (list_lookup_insert_eq _ _ _ Hlt) Hs1) as Hres.
    cbv zeta in Hres. destruct (push_resume_returns (sub_queue s1) e d) as [st Hst].
    unfold after_target in Hres. rewrite Hst, list_insert_insert_eq in Hres.
    do 4 eexists. split; [|split].
    + eapply run_cons; [exact Hstep|]. eapply run_cons; [apply (step_tick _ _ _ d); lia|].
      apply run_one, Hres. intros _. subst d. lia.
    + eapply undisturbed_trans; [exact Hu1|].
      eapply section_undisturbed; [apply Hu1|done|apply push_resume_shape].
    + subst d. lia.
Qed.

Lemma targets_complete e targets : forall b cs now i acc,
  cs !! i = Some (CPublish e targets acc) ->
  bus_wf b -> Forall (fun id => (id < length (heap b))%nat) targets ->
  0 <= reliable_timeout_ b -> tp_min <= now ->
  now + zlen targets * reliable_timeout_ b < tp_max ->
  exists tr b' now' acc',
    run (mkState b cs now) tr (mkState b' (<[i := CPublish e [] acc']> cs) now') /\
    undisturbed b b' /\ now <= now' <= now + zlen targets * reliable_timeout_ b.
Proof.
  induction targets as [|id targets IH]; intros b cs now i acc Hi Hwf Hf Ht Hnow Hmax.
  { exists [], b, now, acc. rewrite list_insert_id by done.
    split; [apply run_nil|]. split; [by split|]. unfold zlen; simpl; lia. }
  apply Forall_cons in Hf as [Hid Hf]. rewrite zlen_cons in *.
  pose proof (zlen_nonneg targets) as Hn.
  destruct (target_completes b cs now i e id targets acc) as (tr1 & b1 & now1 & acc1 & Hr1 & Hu1 & Hb1);
    [done..|nia|].
  pose proof (lookup_lt_Some _ _ _ Hi) as Hlt.
  pose proof (undisturbed_length _ _ Hu1) as Hl1. pose proof Hu1 as (Hwf1 & Ht1 & _).
  destruct (IH b1 (<[i := CPublish e targets acc1]> cs) now1 i acc1)
    as (tr2 & b2 & now2 & acc2 & Hr2 & Hu2 & Hb2);
    [by apply list_lookup_insert_eq|done|by rewrite Hl1|lia|lia|rewrite Ht1; nia|].
  rewrite list_insert_insert_eq in Hr2. exists (tr1 ++ tr2), b2, now2, acc2.
  split; [by eapply run_trans|]. split; [by eapply undisturbed_trans|]. rewrite Ht1 in Hb2. nia.
Qed.

(** The mismatch handler runs first. *)
Lemma notify_completes b cs now i topic ms h e targets :
  cs !! i = Some (CNotify topic ms h e targets) ->
  exists tr, run (mkState b cs now) tr (mkState b (<[i := CPublish e targets true]> cs) now).
Proof.
  revert cs. induction ms as [|m ms IH]; intros cs Hi.
  - eexists. apply run_one. by eapply step_notified.
  - pose proof (lookup_lt_Some _ _ _ Hi) as Hlt.
    destruct (IH (<[i := CNotify topic ms h e targets]> cs)) as [tr Hr];
      [by apply list_lookup_insert_eq|]. rewrite list_insert_insert_eq in Hr.
    eexists. eapply run_cons; [by eapply step_handler|exact Hr].
Qed.

(** What a publish call in progress carries. *)
Definition carries (c : client) : option Envelope :=
  match c with
  | CNotify _ _ _ e _ | CPublish e _ _ | CBlocked e _ _ _ _ => Some e
  | _ => None
  end.

(** A target that sleeps gives up at its deadline. *)
Lemma blocked_wakes b cs now i e id targets acc d :
  cs !! i = Some (CBlocked e id targets acc d) ->
  bus_wf b -> (id < length (heap b))%nat -> d < tp_max ->
  exists tr b' acc',
    run (mkState b cs now) tr (mkState b' (<[i := CPublish e targets acc']> cs) (Z.max now d)) /\
    undisturbed b b'.
Proof.
  intros Hi Hwf [s Hs]%lookup_lt_is_Some_2 Hd.
  pose proof (step_target_resume b cs (Z.max now d) i e id targets acc d s true Hi Hs) as Hres.
  cbv zeta in Hres. destruct (push_resume_returns (sub_queue s) e d) as [st Hst].
  unfold after_target in Hres. rewrite Hst in Hres. do 3 eexists. split.
  - eapply run_cons; [apply (step_tick _ _ _ (Z.max now d)); lia|].
    apply run_one, Hres. intros _. lia.
  - eapply section_undisturbed; [done|done|apply push_resume_shape].
Qed.

(** A publish call returns from wherever it is. *)
Lemma publishing_returns b cs now i cl e :
  cs !! i = Some cl -> carries cl = Some e -> bus_wf b ->
  Forall (fun id => (id < length (heap b))%nat) (client_ids cl) ->
  (forall e' id targets acc d, cl = CBlocked e' id targets acc d -> d <= now + reliable_timeout_ b) ->
  0 <= reliable_timeout_ b -> tp_min <= now ->
  now + zlen (client_ids cl) * reliable_timeout_ b < tp_max ->
  exists tr b' now' acc,
    run (mkState b cs now) (tr ++ [EvPublished e acc]) (mkState b' (<[i := CIdle]> cs) now') /\
    undisturbed b b' /\ now <= now' <= now + zlen (client_ids cl) * reliable_timeout_ b.
Proof.
  intros Hi He Hwf Hids Hd Ht Hnow Hmax. pose proof (lookup_lt_Some _ _ _ Hi) as Hlt.
  assert (exists tr1 b1 now1 targets acc1,
            run (mkState b cs now) tr1 (mkState b1 (<[i := CPublish e targets acc1]> cs) now1) /\
            undisturbed b b1 /\ Forall (fun id => (id < length (heap b1))%nat) targets /\
            now <= now1 /\ now1 + zlen targets * reliable_timeout_ b <=
              now + zlen (client_ids cl) * reliable_timeout_ b)
    as (tr1 & b1 & now1 & targets & acc1 & Hr1 & Hu1 & Hf1 & Hn1 & Hn1').
  { destruct cl as [| |topic ms h e0 targets|e0 targets acc|e0 id targets acc d| | |]; simplify_eq/=.
    - destruct (notify_completes b cs now i topic ms h e targets Hi) as [tr Hr].
      exists tr, b, now, targets, true. split; [done|]. split; [done|]. split; [done|lia].
    - exists [], b, now, targets, acc. rewrite list_insert_id by done. split; [apply run_nil|].
      split; [done|]. split; [done|lia].
    - apply Forall_cons in Hids as [Hid Hids]. specialize (Hd e id targets acc d eq_refl).
      rewrite zlen_cons in *. pose proof (zlen_nonneg targets).
      destruct (blocked_wakes b cs now i e id targets acc d) as (tr & b' & acc' & Hr & Hu); [done..|nia|].
      exists tr, b', (Z.max now d), targets, acc'. split; [done|]. split; [done|].
      rewrite (undisturbed_length _ _ Hu). split; [done|]. split; [lia|nia]. }
  pose proof Hu1 as (Hwf1 & Ht1 & _).
  destruct (targets_complete e targets b1 (<[i := CPublish e targets acc1]> cs) now1 i acc1)
    as (tr2 & b2 & now2 & acc2 & Hr2 & Hu2 & Hn2);
    [by apply list_lookup_insert_eq|done|done|lia|lia|rewrite Ht1; lia|].
  rewrite list_insert_insert_eq in Hr2. rewrite Ht1 in Hn2. exists (tr1 ++ tr2), b2, now2, acc2.
  split; [|split; [by eapply undisturbed_trans|lia]].
  apply (run_snoc _ _ _ (mkState b2 (<[i := CPublish e [] acc2]> cs) now2)); [by eapply run_trans|].
  erewrite <-(list_insert_insert_eq cs i CIdle). apply step_published. by apply list_lookup_insert_eq.
Qed.

(** ** Best-effort subscriptions *)

Lemma drop_policy_returns {T} (q : BoundedQueue T) v (s : section T PushStatus) :
  (exists d, s = push_until q v d) -> policy_ q <> Block -> exists st, sec_outcome s = Returned st.
Proof. intros [d ->]. apply push_until_returns. Qed.

(** Where a client sleeps, and what every push so far did. *)
Definition blocked_reliable (b : TopicBus) (c : client) : Prop :=
  match c with
  | CBlocked _ id _ _ _ => exists s, heap b !! id = Some s /\ reliability (sub_qos s) = Reliable
  | _ => True
  end.

Definition push_returned (b : TopicBus) (ev : event) : Prop :=
  match ev with
  | EvPush id _ sec =>
      exists s, heap b !! id = Some s /\
        (reliability (sub_qos s) = BestEffort -> exists st, sec_outcome sec = Returned st)
  | _ => True
  end.

Lemma kept_blocked b b' c : heap_kept b b' -> blocked_reliable b c -> blocked_reliable b' c.
Proof.
  intros Hk. destruct c; simpl; auto. intros (s & Hs & Hr).
  destruct (Hk _ _ Hs) as (s' & Hs' & Hst). injection Hst as _ _ Hq. exists s'. by rewrite Hq.
Qed.

Lemma kept_push_returned b b' ev : heap_kept b b' -> push_returned b ev -> push_returned b' ev.
Proof.
  intros Hk. destruct ev; simpl; auto. intros (s' & Hs & Hr).
  destruct (Hk _ _ Hs) as (s'' & Hs' & Hst). injection Hst as _ _ Hq. exists s''. by rewrite Hq.
Qed.

(** Entering a push on a best-effort queue returns. *)
Lemma target_push_returns b id s e now timeout sec :
  bus_wf b -> heap b !! id = Some s -> target_push s e now timeout = Some sec ->
  reliability (sub_qos s) = BestEffort -> exists st, sec_outcome sec = Returned st.
Proof.
  intros Hwf Hs Hp Hr. destruct (wf_queue b Hwf id s Hs) as [_ Hpol].
  unfold target_push in Hp. rewrite bool_decide_false in Hp by congruence. simplify_eq.
  apply push_until_returns. rewrite Hpol. unfold queue_policy. by rewrite bool_decide_false by congruence.
Qed.

Lemma after_target_blocked b id s e targets acc sec :
  heap b !! id = Some s ->
  (reliability (sub_qos s) = BestEffort -> exists st, sec_outcome sec = Returned st) ->
  blocked_reliable b (after_target e id targets acc sec).
Proof.
  intros Hs Hr. unfold after_target. destruct (sec_outcome sec) as [|c d] eqn:Ho; [done|].
  exists s. split; [done|]. destruct (reliability (sub_qos s)); [|done].
  by destruct Hr as [? ?].
Qed.

Lemma section_heap {R} b id s (sec : section Envelope R) :
  heap b !! id = Some s -> heap (queue_section b id s sec) !! id = Some (with_queue s (sec_queue sec)).
Proof. intros Hs. apply list_lookup_insert_eq. by eapply lookup_lt_Some. Qed.

Lemma step_best_effort σ ev σ' :
  bus_wf (bs_bus σ) -> Forall (blocked_reliable (bs_bus σ)) (bs_clients σ) -> step σ ev σ' ->
  Forall (blocked_reliable (bs_bus σ')) (bs_clients σ') /\ push_returned (bs_bus σ') ev.
Proof.
  intros Hwf Hb Hs. destruct (change_kept _ _ (step_change _ _ _ Hs)) as [_ Hk].
  assert (Hold : Forall (blocked_reliable (bs_bus σ')) (bs_clients σ)).
  { eapply Forall_impl; [exact Hb|]. intros c. by apply kept_blocked. }
  destruct Hs; cbn [bs_bus bs_clients push_returned] in *;
    try (split; [first [done | apply Forall_insert; [done|done]]|done]).
  - pose proof (target_push_returns b id s e now _ sec Hwf H0 H1) as Hr.
    split; [|by eexists; split; [by apply section_heap|]].
    apply Forall_insert; [done|]. eapply after_target_blocked; [by apply section_heap|done].
  - assert (Hr : reliability (sub_qos s) = BestEffort -> exists st, sec_outcome sec = Returned st).
    { intros Hr. rewrite Forall_lookup in Hb. destruct (Hb _ _ H) as (s0 & Hs0 & Hr0). congruence. }
    split; [|by eexists; split; [by apply section_heap|]].
    apply Forall_insert; [done|]. eapply after_target_blocked; [by apply section_heap|done].
  - split; [by apply Forall_insert|]. eexists. split; [by apply section_heap|]. intros Hr.
    apply (drop_policy_returns (sub_queue s) e); [by eexists|].
    destruct (wf_queue b Hwf id s H0) as [_ ->]. unfold queue_policy. simpl in Hr.
    by rewrite bool_decide_false by congruence.
Qed.

Lemma run_best_effort n now tr σ :
  run (bus_init n now) tr σ ->
  Forall (blocked_reliable (bs_bus σ)) (bs_clients σ) /\
  Forall (push_returned (bs_bus σ)) tr.
Proof.
  induction 1 as [|tr ev σ σ' Hr [IHb IHt] Hs].
  - split; [by apply Forall_replicate|constructor].
  - destruct (step_best_effort σ ev σ' (run_bus_wf _ _ _ _ Hr) IHb Hs) as [Hb Hp].
    destruct (change_kept _ _ (step_change _ _ _ Hs)) as [_ Hk].
    split; [done|]. apply Forall_app. split; [|by constructor].
    eapply Forall_impl; [exact IHt|]. intros e. by apply kept_push_returned.
Qed.
