(* ===== verification/BusSpec.v ===== *)
(** * BusSpec

    What a [TopicBus] promises to the threads that use it, without its locks, its
    worker loop, its queues' internals and its bookkeeping: topics, and for every
    subscription a mailbox with the atomic operations of [QueueSpec].  To publish is
    to number the message and choose the mailboxes at one moment, then to put it into
    each in turn; a reader takes from its mailbox, drops what has outlived its
    lifespan, and calls back.  [BusSystem] refines this. *)

From S2P Require Import Prelude Lts BoundedQueue QueueSystem QueueSpec Qos TopicBus BusSystem.
From S2P Require Import BusInvariants BusOrder BusScheduler BusLiveness.
From stdpp Require Import strings.
Open Scope Z_scope.

(** ** The specification *)

(** The reader of a subscription: its thread is not there, free, has taken an
    envelope, or is in the callback. *)
Inductive reader :=
  | Off
  | Ready
  | Taken (e : Envelope)
  | Calling (e : Envelope).

Record mailbox := mkMailbox {
  mb_topic : string;
  mb_qos : QoS;
  mb_capacity : Z;
  mb_policy : OverflowPolicy;
  mb_object : object Envelope;
  mb_reader : reader
}.

(** What a client is doing. *)
Inductive call :=
  | Out
  | Called (p : Publisher) (message stamp : Z)
  | Sending (e : Envelope) (targets : list nat) (all_accepted : bool)
  | Waiting (e : Envelope) (id : nat) (targets : list nat) (all_accepted : bool) (until : Z)
  | Replaying (id : nat) (backlog : list Envelope)
  | Leaving (ids : list nat)
  | Joining (id : nat) (ids : list nat).

Record bus_spec := mkBusSpec {
  bp_topics : gmap string TopicEntry;
  bp_boxes : list mailbox;
  bp_calls : list call;
  bp_timeout : Z;
  bp_clock : Z
}.

Inductive bus_visible :=
  | VReject (p : Publisher)
  | VPublish (p : Publisher) (e : Envelope) (targets : list nat)
  | VPublished (e : Envelope) (all_accepted : bool)
  | VSubscribe (id : nat) (qos : QoS) (backlog : list Envelope)
  | VDetach (ids : list nat)
  | VExpire (id : nat) (e : Envelope) (now : Z)
  | VCall (id : nat) (e : Envelope) (now : Z)
  | VReturn (id : nat) (e : Envelope).

Definition with_object (m : mailbox) (ob : object Envelope) : mailbox :=
  mkMailbox (mb_topic m) (mb_qos m) (mb_capacity m) (mb_policy m) ob (mb_reader m).
Definition with_reader (m : mailbox) (r : reader) : mailbox :=
  mkMailbox (mb_topic m) (mb_qos m) (mb_capacity m) (mb_policy m) (mb_object m) r.

Definition new_mailbox (topic : string) (qos : QoS) : mailbox :=
  mkMailbox topic qos (if depth qos =? 0 then 1 else depth qos) (queue_policy qos)
    (mkObject [] false) Off.

(** Does the subscription want what this publisher offers? *)
Definition wants (boxes : list mailbox) (offered : QoS) (id : nat) : bool :=
  match boxes !! id with Some m => bool_decide (compatible offered (mb_qos m)) | None => false end.

(** How long the hand-over to a mailbox may wait; [None]: the time overflows. *)
Definition push_deadline (timeout : Z) (m : mailbox) (now : Z) : option Z :=
  if bool_decide (reliability (mb_qos m) = Reliable) then tp_add now timeout else Some tp_max.

(** The topic's entry, a fresh one if there is none. *)
Definition entry_of (topics : gmap string TopicEntry) (t : string) (type : Z) : TopicEntry :=
  default (mkTopicEntry type [] [] 0) (topics !! t).

(** [id] leaves the subscriptions of a topic. *)
Definition without (id : nat) (en : TopicEntry) : TopicEntry :=
  mkTopicEntry (te_type en) (filter (fun x => x <> id) (te_subs en)) (te_latched en) (te_published en).

Definition sections_effect (m : mailbox) (now : Z) (o : operation Envelope) (a : answer Envelope)
    (ob : object Envelope) : Prop :=
  effect (mb_capacity m) (mb_policy m) now (mb_object m) o a ob.

Inductive bus_spec_step : bus_spec -> option bus_visible -> bus_spec -> Prop :=
  (** publish *)
  | spec_called ts bx cs T now i p message :
      cs !! i = Some Out -> pub_valid p = true ->
      bus_spec_step (mkBusSpec ts bx cs T now) None
        (mkBusSpec ts bx (<[i := Called p message (u64 now)]> cs) T now)
  | spec_reject_invalid ts bx cs T now i p :
      cs !! i = Some Out -> pub_valid p = false ->
      bus_spec_step (mkBusSpec ts bx cs T now) (Some (VReject p)) (mkBusSpec ts bx cs T now)
  | spec_reject ts bx cs T now i p message stamp :
      cs !! i = Some (Called p message stamp) ->
      (forall en, ts !! pub_topic p = Some en -> te_type en <> pub_type p) ->
      bus_spec_step (mkBusSpec ts bx cs T now) (Some (VReject p)) (mkBusSpec ts bx (<[i := Out]> cs) T now)
  | spec_publish ts bx cs T now i p message stamp en :
      cs !! i = Some (Called p message stamp) -> ts !! pub_topic p = Some en -> te_type en = pub_type p ->
      let e := mkEnvelope message (te_published en +u 1) stamp in
      let targets := filter (fun id => wants bx (pub_qos p) id = true) (te_subs en) in
      let history := if bool_decide (durability (pub_qos p) = TransientLocal)
                     then trim_latched (te_latched en ++ [e]) (depth (pub_qos p)) else te_latched en in
      bus_spec_step (mkBusSpec ts bx cs T now) (Some (VPublish p e targets))
        (mkBusSpec (<[pub_topic p := mkTopicEntry (te_type en) (te_subs en) history (te_published en +u 1)]> ts)
           bx (<[i := Sending e targets true]> cs) T now)
  | spec_send ts bx cs T now i e id targets acc m d st ob :
      cs !! i = Some (Sending e (id :: targets) acc) -> bx !! id = Some m ->
      push_deadline T m now = Some d -> sections_effect m now (OpPush e d) (APush st) ob ->
      bus_spec_step (mkBusSpec ts bx cs T now) None
        (mkBusSpec ts (<[id := with_object m ob]> bx)
           (<[i := Sending e targets (acc && status_accepted st)]> cs) T now)
  (* only a reliable mailbox without room makes the publisher wait *)
  | spec_wait ts bx cs T now i e id targets acc m d :
      cs !! i = Some (Sending e (id :: targets) acc) -> bx !! id = Some m ->
      push_deadline T m now = Some d -> reliability (mb_qos m) = Reliable ->
      shut (mb_object m) = false -> mb_capacity m <= zlen (contents (mb_object m)) ->
      bus_spec_step (mkBusSpec ts bx cs T now) None
        (mkBusSpec ts bx (<[i := Waiting e id targets acc d]> cs) T now)
  | spec_resume ts bx cs T now i e id targets acc m d st ob :
      cs !! i = Some (Waiting e id targets acc d) -> bx !! id = Some m ->
      sections_effect m now (OpPush e d) (APush st) ob ->
      bus_spec_step (mkBusSpec ts bx cs T now) None
        (mkBusSpec ts (<[id := with_object m ob]> bx)
           (<[i := Sending e targets (acc && status_accepted st)]> cs) T now)
  | spec_published ts bx cs T now i e acc :
      cs !! i = Some (Sending e [] acc) ->
      bus_spec_step (mkBusSpec ts bx cs T now) (Some (VPublished e acc)) (mkBusSpec ts bx (<[i := Out]> cs) T now)
  (** advertise, subscribe *)
  | spec_advertise ts bx cs T now i t type :
      cs !! i = Some Out ->
      bus_spec_step (mkBusSpec ts bx cs T now) None
        (mkBusSpec (<[t := entry_of ts t type]> ts) bx cs T now)
  | spec_subscribe ts bx cs T now i t type q :
      cs !! i = Some Out ->
      let en := entry_of ts t type in
      te_type en = type ->
      let id := length bx in
      let backlog := if bool_decide (durability q = TransientLocal) then te_latched en else [] in
      bus_spec_step (mkBusSpec ts bx cs T now) (Some (VSubscribe id q backlog))
        (mkBusSpec (<[t := mkTopicEntry (te_type en) (te_subs en ++ [id]) (te_latched en) (te_published en)]> ts)
           (bx ++ [new_mailbox t q]) (<[i := Replaying id backlog]> cs) T now)
  | spec_replay ts bx cs T now i id e backlog m st ob :
      cs !! i = Some (Replaying id (e :: backlog)) -> bx !! id = Some m ->
      sections_effect m now (OpPush e tp_min) (APush st) ob ->
      bus_spec_step (mkBusSpec ts bx cs T now) None
        (mkBusSpec ts (<[id := with_object m ob]> bx) (<[i := Replaying id backlog]> cs) T now)
  | spec_open ts bx cs T now i id m :
      cs !! i = Some (Replaying id []) -> bx !! id = Some m -> mb_reader m = Off ->
      bus_spec_step (mkBusSpec ts bx cs T now) None
        (mkBusSpec ts (<[id := with_reader m Ready]> bx) (<[i := Out]> cs) T now)
  (** unsubscribe, shutdown *)
  | spec_unsubscribe ts bx cs T now i id m :
      cs !! i = Some Out -> bx !! id = Some m ->
      bus_spec_step (mkBusSpec ts bx cs T now) (Some (VDetach [id]))
        (mkBusSpec (alter (without id) (mb_topic m) ts) bx (<[i := Leaving [id]]> cs) T now)
  | spec_shutdown ts bx cs T now i ids :
      cs !! i = Some Out -> ids ≡ₚ map_to_list ts ≫= (fun kv => te_subs kv.2) ->
      bus_spec_step (mkBusSpec ts bx cs T now) (Some (VDetach ids))
        (mkBusSpec ((fun en => mkTopicEntry (te_type en) [] [] (te_published en)) <$> ts) bx
           (<[i := Leaving ids]> cs) T now)
  | spec_close ts bx cs T now i id ids m ob :
      cs !! i = Some (Leaving (id :: ids)) -> bx !! id = Some m ->
      sections_effect m now OpClose ADone ob ->
      bus_spec_step (mkBusSpec ts bx cs T now) None
        (mkBusSpec ts (<[id := with_object m ob]> bx) (<[i := Joining id ids]> cs) T now)
  | spec_joined ts bx cs T now i id ids m :
      cs !! i = Some (Joining id ids) -> bx !! id = Some m -> mb_reader m = Off ->
      bus_spec_step (mkBusSpec ts bx cs T now) None (mkBusSpec ts bx (<[i := Leaving ids]> cs) T now)
  | spec_left ts bx cs T now i :
      cs !! i = Some (Leaving []) ->
      bus_spec_step (mkBusSpec ts bx cs T now) None (mkBusSpec ts bx (<[i := Out]> cs) T now)
  | spec_set_timeout ts bx cs T now i T' :
      cs !! i = Some Out ->
      bus_spec_step (mkBusSpec ts bx cs T now) None (mkBusSpec ts bx cs T' now)
  (** the readers *)
  | spec_take ts bx cs T now id m e ob :
      bx !! id = Some m -> mb_reader m = Ready -> sections_effect m now (OpPop tp_max) (APop (Some e)) ob ->
      bus_spec_step (mkBusSpec ts bx cs T now) None
        (mkBusSpec ts (<[id := with_reader (with_object m ob) (Taken e)]> bx) cs T now)
  | spec_finish ts bx cs T now id m ob :
      bx !! id = Some m -> mb_reader m = Ready -> sections_effect m now (OpPop tp_max) (APop None) ob ->
      bus_spec_step (mkBusSpec ts bx cs T now) None
        (mkBusSpec ts (<[id := with_reader (with_object m ob) Off]> bx) cs T now)
  | spec_expire ts bx cs T now id m e :
      bx !! id = Some m -> mb_reader m = Taken e -> is_expired (mb_qos m) e (u64 now) = true ->
      bus_spec_step (mkBusSpec ts bx cs T now) (Some (VExpire id e (u64 now)))
        (mkBusSpec ts (<[id := with_reader m Ready]> bx) cs T now)
  | spec_enter ts bx cs T now id m e :
      bx !! id = Some m -> mb_reader m = Taken e -> is_expired (mb_qos m) e (u64 now) = false ->
      bus_spec_step (mkBusSpec ts bx cs T now) (Some (VCall id e (u64 now)))
        (mkBusSpec ts (<[id := with_reader m (Calling e)]> bx) cs T now)
  | spec_back ts bx cs T now id m e :
      bx !! id = Some m -> mb_reader m = Calling e ->
      bus_spec_step (mkBusSpec ts bx cs T now) (Some (VReturn id e))
        (mkBusSpec ts (<[id := with_reader m Ready]> bx) cs T now)
  | spec_time ts bx cs T now now' :
      now <= now' -> bus_spec_step (mkBusSpec ts bx cs T now) None (mkBusSpec ts bx cs T now').

#[export] Instance bus_spec_lts : LTS bus_spec (option bus_visible) := bus_spec_step.

Definition bus_spec_init (n : nat) (now : Z) : bus_spec :=
  mkBusSpec ∅ [] (replicate n Out) (100 * 1000 * 1000) now.

(** ** What is seen of the bus, and the refinement mapping *)

Definition shown (ev : event) : option bus_visible :=
  match ev with
  | EvReject p => Some (VReject p)
  | EvSelect p e targets => Some (VPublish p e targets)
  | EvPublished e acc => Some (VPublished e acc)
  | EvSubscribe id q backlog => Some (VSubscribe id q backlog)
  | EvDetach ids => Some (VDetach ids)
  | EvExpire id e now => Some (VExpire id e now)
  | EvCallback id e now => Some (VCall id e now)
  | EvReturn id e => Some (VReturn id e)
  | EvHandler _ _ _ | EvPush _ _ _ | EvInternal => None
  end.

Definition reader_of (w : worker_state) : reader :=
  match w with
  | WNotStarted | WExited | WJoined => Off
  | WPopping => Ready
  | WHolding e => Taken e
  | WCalling e => Calling e
  end.

Definition box_of (s : Subscription) : mailbox :=
  mkMailbox (sub_topic s) (sub_qos s) (capacity_ (sub_queue s)) (policy_ (sub_queue s))
    (object_of (sub_queue s)) (reader_of (sub_worker s)).

Definition call_of (c : client) : call :=
  match c with
  | CIdle => Out
  | CStamped p message stamp => Called p message stamp
  | CNotify _ _ _ e targets => Sending e targets true
  | CPublish e targets acc => Sending e targets acc
  | CBlocked e id targets acc d => Waiting e id targets acc d
  | CBacklog id backlog => Replaying id backlog
  | CStop ids => Leaving ids
  | CJoin id ids => Joining id ids
  end.

Definition spec_of (σ : bus_state) : bus_spec :=
  mkBusSpec (topics_ (bs_bus σ)) (box_of <$> heap (bs_bus σ)) (call_of <$> bs_clients σ)
    (reliable_timeout_ (bs_bus σ)) (bs_clock σ).

(** ** The parts of a step *)

Lemma box_update b id s : box_of <$> heap (update_sub b id s) = <[id := box_of s]> (box_of <$> heap b).
Proof. simpl. apply list_fmap_insert. Qed.

Lemma box_lookup (b : TopicBus) id s : heap b !! id = Some s -> (box_of <$> heap b) !! id = Some (box_of s).
Proof. intros Hs. by rewrite list_lookup_fmap, Hs. Qed.

Lemma call_lookup (cs : list client) i c : cs !! i = Some c -> (call_of <$> cs) !! i = Some (call_of c).
Proof. intros Hc. by rewrite list_lookup_fmap, Hc. Qed.

Lemma call_insert (cs : list client) i c c' : cs !! i = Some c -> call_of c' = call_of c -> call_of <$> <[i := c']> cs = call_of <$> cs.
Proof. intros Hc He. rewrite list_fmap_insert, He. apply list_insert_id. by apply call_lookup. Qed.

Lemma counts_boxes h h' : counts_only h h' -> box_of <$> h' = box_of <$> h.
Proof.
  intros Hc. apply list_eq. intros id. rewrite !list_lookup_fmap. pose proof Hc as [Hl Hh].
  destruct (h' !! id) as [s'|] eqn:Hs'.
  - destruct (Hh id s' Hs') as (s & -> & Hst & Hq & Hw). simpl. f_equal. unfold box_of, static in *.
    rewrite Hq, Hw. by injection Hst as -> _ ->.
  - apply lookup_ge_None in Hs'. by rewrite (proj2 (lookup_ge_None h id)) by lia.
Qed.

Lemma wants_accepts h q id : wants (box_of <$> h) q id = accepts h q id.
Proof. unfold wants, accepts. rewrite list_lookup_fmap. by destruct (h !! id). Qed.

Lemma deadline_of s e now timeout sec :
  target_push s e now timeout = Some sec ->
  exists d, push_deadline timeout (box_of s) now = Some d /\ sec = push_until (sub_queue s) e d.
Proof.
  unfold target_push, push_deadline. simpl. case_bool_decide.
  - unfold push_for. destruct (tp_add now timeout); simpl; intros; simplify_eq. eauto.
  - intros; simplify_eq. by exists tp_max.
Qed.

(** A section of push on a mailbox: an effect, or nothing. *)
Lemma push_on_box s e d now sec :
  queue_wf (sub_queue s) -> push_shape (sub_queue s) e sec ->
  match sec_outcome sec with
  | Returned r => r = Full -> policy_ (sub_queue s) = Block /\ time_up d now
  | Sleeps _ d' => d' = d
  end ->
  match sec_outcome sec with
  | Returned r => exists ob, box_of (with_queue s (sec_queue sec)) = with_object (box_of s) ob /\
      sections_effect (box_of s) now (OpPush e d) (APush r) ob
  | Sleeps _ d' => d' = d /\ box_of (with_queue s (sec_queue sec)) = box_of s /\
      shut (mb_object (box_of s)) = false /\ mb_capacity (box_of s) <= zlen (contents (mb_object (box_of s)))
  end.
Proof.
  intros Hwf Hsh Ho. destruct (push_shape_config _ _ _ Hsh) as (Hc & Hp & _).
  pose proof (push_effect (sub_queue s) e d now sec) as He.
  destruct (sec_outcome sec) as [r|c d'] eqn:E.
  - exists (object_of (sec_queue sec)). split; [|by apply He]. unfold box_of, with_object. simpl. congruence.
  - split; [done|]. by destruct Hsh; simplify_eq/=.
Qed.

(** A section of pop. *)
Lemma pop_on_box s now r w :
  sec_outcome (pop (sub_queue s)) = Returned r ->
  exists ob, box_of (with_worker (with_queue s (sec_queue (pop (sub_queue s)))) w) =
      with_reader (with_object (box_of s) ob) (reader_of w) /\
    sections_effect (box_of s) now (OpPop tp_max) (APop r) ob.
Proof.
  intros Hr. pose proof (pop_until_shape (sub_queue s) tp_max) as Hsh.
  destruct (pop_shape_config _ _ Hsh) as (Hc & Hp & _). pose proof (pop_until_outcome (sub_queue s) tp_max now) as Ho.
  unfold pop in *. rewrite Hr in Ho. exists (object_of (sec_queue (pop_until (sub_queue s) tp_max))). split.
  - unfold box_of, with_reader, with_object. simpl. congruence.
  - by apply pop_effect.
Qed.

Lemma deliver_box s e t s' r w :
  deliver_check s e t = (s', r) -> box_of (with_worker s' w) = with_reader (box_of s) (reader_of w).
Proof.
  intros Hd. apply deliver_check_static in Hd as (Hst & Hq & _). unfold box_of, with_reader, static in *.
  simpl. rewrite Hq. by injection Hst as -> _ ->.
Qed.

Lemma filter_other (id : nat) (l : list nat) : id ∉ l -> filter (fun x => x <> id) l = l.
Proof.
  induction l as [|x l IH]; intros Hin; [done|].
  rewrite filter_cons, decide_True, IH by set_solver. done.
Qed.

Lemma erase_without id en : NoDup (te_subs en) -> erase_sub id en = without id en.
Proof.
  intros Hnd. unfold erase_sub, without. f_equal. induction Hnd as [|x l Hx Hnd IH]; [done|].
  simpl. rewrite filter_cons. case_bool_decide as Hd.
  - subst. rewrite decide_False by auto. by rewrite filter_other.
  - rewrite decide_True by done. by rewrite IH.
Qed.

Lemma ensure_entry ts t type : (ensure_topic ts t type).1 = <[t := entry_of ts t type]> ts.
Proof.
  unfold ensure_topic, entry_of. destruct (ts !! t) as [en|] eqn:Ht; [|done].
  simpl. symmetry. by apply insert_id.
Qed.

(** ** Each step of the bus is a step of the specification, or none *)

Lemma spec_stutter (a b : bus_spec) : b = a -> reaches a (option_list None) b.
Proof. intros ->. apply reaches_refl. Qed.

(** The state of the specification, by its parts. *)
Lemma spec_of_update b cs now id s :
  spec_of (mkState (update_sub b id s) cs now) =
  mkBusSpec (topics_ b) (<[id := box_of s]> (box_of <$> heap b)) (call_of <$> cs) (reliable_timeout_ b) now.
Proof. unfold spec_of. cbn [bs_bus bs_clients bs_clock]. by rewrite box_update. Qed.

Lemma reject_spec b cs now i p message t b' sel :
  cs !! i = Some (CStamped p message t) ->
  publish_select b (pub_topic p) (pub_type p) (pub_qos p) message t = (b', sel) ->
  sel = NoTopic \/ sel = WrongType ->
  reaches (spec_of (mkState b cs now)) [VReject p] (spec_of (mkState b' (<[i := CIdle]> cs) now)).
Proof.
  intros Hi Hsel Hr. apply (reaches_one _ _ (Some (VReject p))). unfold spec_of. cbn [bs_bus bs_clients bs_clock].
  pose proof (publish_timeout b (pub_topic p) (pub_type p) (pub_qos p) message t) as HT.
  rewrite Hsel in HT. simpl in HT. rewrite HT, list_fmap_insert.
  assert (topics_ b' = topics_ b /\ heap b' = heap b /\
          (forall en, topics_ b !! pub_topic p = Some en -> te_type en <> pub_type p)) as (-> & -> & Hno).
  { unfold publish_select in Hsel. destruct (topics_ b !! pub_topic p) as [en|]; [|simplify_eq; naive_solver].
    destruct (Z.eqb_spec (te_type en) (pub_type p)); simpl in Hsel; simplify_eq/=; [by destruct Hr|].
    split_and!; try done. naive_solver. }
  eapply spec_reject; [exact (call_lookup _ _ _ Hi)|done].
Qed.

Lemma select_refines b cs now i p message t b' e targets ms h :
  cs !! i = Some (CStamped p message t) ->
  publish_select b (pub_topic p) (pub_type p) (pub_qos p) message t = (b', Selected e targets ms h) ->
  reaches (spec_of (mkState b cs now)) [VPublish p e targets]
    (spec_of (mkState b' (<[i := CNotify (pub_topic p) ms h e targets]> cs) now)).
Proof.
  intros Hi Hsel. apply (reaches_one _ _ (Some _)). unfold spec_of. cbn [bs_bus bs_clients bs_clock].
  pose proof (publish_timeout b (pub_topic p) (pub_type p) (pub_qos p) message t) as HT.
  rewrite Hsel in HT. simpl in HT. rewrite HT, list_fmap_insert.
  apply select_spec in Hsel as (en & Hen & Hty & -> & -> & Hc & ->). rewrite (counts_boxes _ _ Hc).
  rewrite (list_filter_iff _ (fun id => wants (box_of <$> heap b) (pub_qos p) id = true))
    by (intros id; by rewrite wants_accepts).
  eapply spec_publish; [exact (call_lookup _ _ _ Hi)|done|done].
Qed.

Lemma send_refines b cs now i e id targets acc s sec :
  bus_wf b -> cs !! i = Some (CPublish e (id :: targets) acc) -> heap b !! id = Some s ->
  target_push s e now (reliable_timeout_ b) = Some sec ->
  reaches (spec_of (mkState b cs now)) []
    (spec_of (mkState (queue_section b id s sec) (<[i := after_target e id targets acc sec]> cs) now)).
Proof.
  intros Hwf Hi Hs Hsec. apply (reaches_one _ _ None). unfold queue_section. rewrite spec_of_update, list_fmap_insert.
  destruct (deadline_of _ _ _ _ _ Hsec) as (d & Hd & Heq).
  pose proof (push_on_box s e d now sec (proj1 (wf_queue b Hwf id s Hs)) (target_push_shape _ _ _ _ _ Hsec)) as Hbox.
  pose proof (target_push_returns b id s e now _ sec Hwf Hs Hsec) as Hrel. subst sec.
  specialize (Hbox (push_until_outcome _ _ _ _)). unfold after_target.
  destruct (sec_outcome (push_until (sub_queue s) e d)) as [r|c d'].
  - destruct Hbox as (ob & -> & He). eapply spec_send; [exact (call_lookup _ _ _ Hi)|by apply box_lookup|done|done].
  - destruct Hbox as (-> & -> & Hshut & Hfull).
    rewrite (list_insert_id _ id) by (by apply box_lookup).
    eapply spec_wait; [exact (call_lookup _ _ _ Hi)|by apply box_lookup|done| |done|done].
    simpl. destruct (reliability (sub_qos s)); [|done]. by destruct Hrel as [? ?].
Qed.
(** A blocked publisher runs again: it gets in, gives up, or sleeps on. *)
Lemma resume_refines b cs now i e id targets acc d s (timed_out : bool) :
  bus_wf b -> blocked_reliable b (CBlocked e id targets acc d) ->
  cs !! i = Some (CBlocked e id targets acc d) -> heap b !! id = Some s ->
  (timed_out = true -> d <> tp_max /\ d <= now) ->
  let sec := push_resume (sub_queue s) e d timed_out in
  reaches (spec_of (mkState b cs now)) []
    (spec_of (mkState (queue_section b id s sec) (<[i := after_target e id targets acc sec]> cs) now)).
Proof.
  intros Hwf (s0 & Hs0 & Hrel) Hi Hs Ht sec. assert (s0 = s) as -> by congruence. unfold queue_section. rewrite spec_of_update.
  destruct (wf_queue b Hwf id s Hs) as [Hq Hpol].
  assert (Hblock : policy_ (sub_queue s) = Block) by (rewrite Hpol; unfold queue_policy; by rewrite bool_decide_true).
  pose proof (push_on_box s e d now sec Hq (push_resume_shape _ _ _ _)
    (push_resume_outcome _ _ _ _ _ Ht Hblock)) as Hbox.
  unfold after_target. destruct (sec_outcome sec) as [r|c d'].
  - destruct Hbox as (ob & -> & He). apply (reaches_one _ _ None). rewrite list_fmap_insert.
    eapply spec_resume; [exact (call_lookup _ _ _ Hi)|by apply box_lookup|done].
  - destruct Hbox as (-> & -> & _). rewrite (list_insert_id _ id) by (by apply box_lookup).
    rewrite (list_insert_id cs) by done. apply reaches_refl.
Qed.

Lemma try_push_returns {T} (q : BoundedQueue T) v c d : sec_outcome (try_push q v) <> Sleeps c d.
Proof.
  unfold try_push, push_until, wait_for_space, push_after_wait, push_back.
  repeat case_match; simpl; done.
Qed.

Lemma replay_refines b cs now i id e backlog s :
  bus_wf b -> cs !! i = Some (CBacklog id (e :: backlog)) -> heap b !! id = Some s ->
  reaches (spec_of (mkState b cs now)) []
    (spec_of (mkState (queue_section b id s (backlog_push s e)) (<[i := CBacklog id backlog]> cs) now)).
Proof.
  intros Hwf Hi Hs. apply (reaches_one _ _ None). unfold queue_section. rewrite spec_of_update, list_fmap_insert.
  pose proof (push_on_box s e tp_min now _ (proj1 (wf_queue b Hwf id s Hs)) (backlog_push_shape s e)
    (push_until_outcome _ _ _ _)) as Hbox.
  unfold backlog_push, try_push in *. destruct (sec_outcome (push_until (sub_queue s) e tp_min)) as [r|c d'] eqn:Ho.
  - destruct Hbox as (ob & -> & He). eapply spec_replay; [exact (call_lookup _ _ _ Hi)|by apply box_lookup|done].
  - by destruct (try_push_returns (sub_queue s) e c d').
Qed.

Lemma subscribe_refines b cs now i t type q b' id backlog :
  cs !! i = Some CIdle -> subscribe_register b t type q = (b', Some (id, backlog)) ->
  reaches (spec_of (mkState b cs now)) [VSubscribe id q backlog]
    (spec_of (mkState b' (<[i := CBacklog id backlog]> cs) now)).
Proof.
  intros Hi Hreg. apply (reaches_one _ _ (Some _)). unfold spec_of. cbn [bs_bus bs_clients bs_clock].
  pose proof (subscribe_timeout b t type q) as HT. rewrite Hreg in HT. simpl in HT. rewrite HT.
  apply subscribe_spec in Hreg as (en & -> & Hty & Hen & -> & -> & ->).
  assert (He : en = entry_of (topics_ b) t type)
    by (unfold entry_of; destruct Hen as [->|[-> ->]]; done).
  rewrite fmap_app, list_fmap_insert, He. rewrite He in Hty.
  replace (length (heap b)) with (length (box_of <$> heap b)) by apply length_fmap.
  eapply spec_subscribe; [exact (call_lookup _ _ _ Hi)|done].
Qed.

(** A client moves on, nothing else changes. *)
Lemma call_refines b cs now i c c' o :
  cs !! i = Some c ->
  bus_spec_step (spec_of (mkState b cs now)) o
    (mkBusSpec (topics_ b) (box_of <$> heap b) (<[i := call_of c']> (call_of <$> cs)) (reliable_timeout_ b) now) ->
  reaches (spec_of (mkState b cs now)) (option_list o) (spec_of (mkState b (<[i := c']> cs) now)).
Proof. intros Hi Hs. apply reaches_one. unfold spec_of at 2. cbn [bs_bus bs_clients bs_clock]. by rewrite list_fmap_insert. Qed.

(** A step of a reader. *)
Lemma reader_refines b cs now id s s' o :
  heap b !! id = Some s ->
  bus_spec_step (spec_of (mkState b cs now)) o
    (mkBusSpec (topics_ b) (<[id := box_of s']> (box_of <$> heap b)) (call_of <$> cs) (reliable_timeout_ b) now) ->
  reaches (spec_of (mkState b cs now)) (option_list o) (spec_of (mkState (update_sub b id s') cs now)).
Proof. intros Hs Hstep. apply reaches_one. by rewrite spec_of_update. Qed.

Lemma pop_box_refines b cs now id s r :
  heap b !! id = Some s -> sub_worker s = WPopping -> sec_outcome (pop (sub_queue s)) = Returned r ->
  let w := match r with Some e => WHolding e | None => WExited end in
  reaches (spec_of (mkState b cs now)) []
    (spec_of (mkState (update_sub b id (with_worker (with_queue s (sec_queue (pop (sub_queue s)))) w)) cs now)).
Proof.
  intros Hs Hw Hr w. destruct (pop_on_box s now r w Hr) as (ob & Hb & He).
  apply (reader_refines b cs now id s _ None Hs). rewrite Hb. pose proof (box_lookup _ _ _ Hs) as Hm.
  destruct r; [eapply spec_take|eapply spec_finish]; try done; simpl; by rewrite Hw.
Qed.

Lemma deliver_box_refines b cs now id s e s' (ok : bool) :
  heap b !! id = Some s -> sub_worker s = WHolding e -> deliver_check s e (u64 now) = (s', ok) ->
  reaches (spec_of (mkState b cs now))
    [if ok then VCall id e (u64 now) else VExpire id e (u64 now)]
    (spec_of (mkState (update_sub b id (with_worker s' (if ok then WCalling e else WPopping))) cs now)).
Proof.
  intros Hs Hw Hd. apply (reader_refines b cs now id s _ (Some _) Hs). rewrite (deliver_box _ _ _ _ _ _ Hd).
  pose proof (box_lookup _ _ _ Hs) as Hm.
  assert (Hx : is_expired (mb_qos (box_of s)) e (u64 now) = negb ok)
    by (unfold deliver_check in Hd; simpl; destruct (is_expired _ _ _); by simplify_eq).
  destruct ok; [eapply spec_enter|eapply spec_expire]; try done; simpl; by rewrite Hw.
Qed.

Lemma stop_refines b cs now i id ids s :
  cs !! i = Some (CStop (id :: ids)) -> heap b !! id = Some s ->
  reaches (spec_of (mkState b cs now)) []
    (spec_of (mkState (update_sub b id (stop_close s)) (<[i := CJoin id ids]> cs) now)).
Proof.
  intros Hi Hs. apply (reaches_one _ _ None). rewrite spec_of_update, list_fmap_insert.
  change (box_of (stop_close s)) with (with_object (box_of s) (mkObject (items_ (sub_queue s)) true)).
  eapply spec_close; [exact (call_lookup _ _ _ Hi)|by apply box_lookup|constructor].
Qed.

Lemma detach_refines b cs now i id s :
  bus_wf b -> cs !! i = Some CIdle -> heap b !! id = Some s ->
  reaches (spec_of (mkState b cs now)) [VDetach [id]]
    (spec_of (mkState (unsubscribe_detach b id s) (<[i := CStop [id]]> cs) now)).
Proof.
  intros Hwf Hi Hs. apply (reaches_one _ _ (Some _)). unfold spec_of. cbn [bs_bus bs_clients bs_clock]. simpl.
  rewrite list_fmap_insert.
  replace (alter (erase_sub id) (sub_topic s) (topics_ b)) with (alter (without id) (mb_topic (box_of s)) (topics_ b)).
  - apply (spec_unsubscribe _ _ _ _ _ i id (box_of s)); [exact (call_lookup _ _ _ Hi)|by apply box_lookup].
  - apply map_eq. intros t. rewrite !lookup_alter. simpl. case_decide; [|done].
    destruct (topics_ b !! sub_topic s) as [en|] eqn:Hen; simpl; [|done]. f_equal. symmetry. apply erase_without.
    by eapply wf_nodup.
Qed.

Lemma advertise_refines b cs now i topic type :
  cs !! i = Some CIdle ->
  reaches (spec_of (mkState b cs now)) []
    (spec_of (mkState (with_topics b (ensure_topic (topics_ b) topic type).1) cs now)).
Proof.
  intros Hi. apply (reaches_one _ _ None). unfold spec_of. simpl. rewrite ensure_entry.
  eapply spec_advertise. exact (call_lookup _ _ _ Hi).
Qed.

Lemma open_refines b cs now i id s :
  cs !! i = Some (CBacklog id []) -> heap b !! id = Some s -> not_joinable (sub_worker s) ->
  reaches (spec_of (mkState b cs now)) []
    (spec_of (mkState (update_sub b id (with_worker s WPopping)) (<[i := CIdle]> cs) now)).
Proof.
  intros Hi Hs Hj. apply (reaches_one _ _ None). rewrite spec_of_update, list_fmap_insert.
  change (box_of (with_worker s WPopping)) with (with_reader (box_of s) Ready).
  eapply spec_open; [exact (call_lookup _ _ _ Hi)|by apply box_lookup|]. simpl. by destruct Hj as [-> | ->].
Qed.

Lemma shutdown_refines b cs now i :
  cs !! i = Some CIdle ->
  reaches (spec_of (mkState b cs now)) [VDetach (shutdown_detach b).2]
    (spec_of (mkState (shutdown_detach b).1 (<[i := CStop (shutdown_detach b).2]> cs) now)).
Proof.
  intros Hi. apply (reaches_one _ _ (Some _)). unfold spec_of. simpl. rewrite list_fmap_insert.
  eapply spec_shutdown; [exact (call_lookup _ _ _ Hi)|done].
Qed.

Lemma joined_refines b cs now i id ids s :
  cs !! i = Some (CJoin id ids) -> heap b !! id = Some s -> sub_worker s = WExited ->
  reaches (spec_of (mkState b cs now)) []
    (spec_of (mkState (update_sub b id (with_worker s WJoined)) (<[i := CStop ids]> cs) now)).
Proof.
  intros Hi Hs Hw. pose proof (box_lookup _ _ _ Hs) as Hm.
  apply (reaches_one _ _ None). rewrite spec_of_update, list_fmap_insert.
  rewrite (list_insert_id _ id) by (rewrite Hm; unfold box_of; simpl; by rewrite Hw).
  eapply spec_joined; [exact (call_lookup _ _ _ Hi)|done|]. simpl. by rewrite Hw.
Qed.

Lemma back_refines b cs now id s e :
  heap b !! id = Some s -> sub_worker s = WCalling e ->
  reaches (spec_of (mkState b cs now)) [VReturn id e]
    (spec_of (mkState (update_sub b id (with_worker (deliver_done s) WPopping)) cs now)).
Proof.
  intros Hs Hw. apply (reader_refines b cs now id s _ (Some _) Hs).
  change (box_of (with_worker (deliver_done s) WPopping)) with (with_reader (box_of s) Ready).
  eapply spec_back; [by apply box_lookup|]. simpl. by rewrite Hw.
Qed.

Ltac same_state := unfold spec_of; cbn [bs_bus bs_clients bs_clock]; apply spec_stutter.

Lemma step_spec σ ev σ' :
  bus_wf (bs_bus σ) -> Forall (blocked_reliable (bs_bus σ)) (bs_clients σ) -> step σ ev σ' ->
  reaches (spec_of σ) (option_list (shown ev)) (spec_of σ').
Proof.
  intros Hwf Hblk Hs.
  destruct Hs as [b cs now i p message Hi Hv|b cs now i p Hi Hv|b cs now i p message t b' sel Hi Hp Hsel
    |b cs now i p message t b' e targets ms h Hi Hp|b cs now i topic m ms h e targets Hi
    |b cs now i topic h e targets Hi|b cs now i e id targets acc s sec Hi Hs Hp
    |b cs now i e id targets acc d s to Hi Hs Ht sec|b cs now i e acc Hi|b cs now i topic type qos Hi
    |b cs now i topic type qos b' Hi Hq Hr|b cs now i topic type qos b' id backlog Hi Hq Hr
    |b cs now i id e backlog s Hi Hs sec|b cs now i id s Hi Hs Hj|b cs now i id s Hi Hs|b cs now i Hi
    |b cs now i id ids s Hi Hs|b cs now i id ids s Hi Hs Hw|b cs now i id ids s Hi Hs Hj|b cs now i Hi
    |b cs now i h Hi|b cs now i d Hi|b cs now id s e Hs Hw sec Ho|b cs now id s Hs Hw sec Ho
    |b cs now id s e s' Hs Hw Hd|b cs now id s e s' Hs Hw Hd|b cs now id s e Hs Hw|b cs now now' Hle];
    cbn [bs_bus bs_clients bs_clock shown] in *; try pose proof (call_lookup _ _ _ Hi) as Hc;
    try pose proof (box_lookup _ _ _ Hs) as Hm.
  - by eapply (call_refines b cs now i _ _ None); [|apply spec_called].
  - apply (reaches_one _ _ (Some _)). by eapply spec_reject_invalid.
  - by eapply reject_spec.
  - by eapply select_refines.
  - same_state. by rewrite (call_insert _ _ _ (CNotify topic ms h e targets) Hi).
  - same_state. by rewrite (call_insert _ _ _ (CPublish e targets true) Hi).
  - by eapply send_refines.
  - eapply resume_refines; [done| |done|done|done]. rewrite Forall_lookup in Hblk. by eapply Hblk.
  - by eapply (call_refines b cs now i _ _ (Some _)); [|apply spec_published].
  - by apply (advertise_refines b cs now i topic type).
  - apply conflict_ensure in Hr as ->. by apply (advertise_refines b cs now i topic type).
  - by eapply subscribe_refines.
  - by apply replay_refines.
  - by eapply open_refines.
  - by apply detach_refines.
  - by apply shutdown_refines.
  - by apply stop_refines.
  - by eapply joined_refines.
  - eapply (call_refines b cs now i _ _ None); [done|]. eapply spec_joined; [done|done|].
    simpl. by destruct Hj as [-> | ->].
  - by eapply (call_refines b cs now i _ _ None); [|apply spec_left].
  - by same_state.
  - apply (reaches_one _ _ None). by eapply spec_set_timeout.
  - by apply (pop_box_refines b cs now id s (Some e)).
  - by apply (pop_box_refines b cs now id s None).
  - by apply (deliver_box_refines b cs now id s e s' false).
  - by apply (deliver_box_refines b cs now id s e s' true).
  - by apply back_refines.
  - apply (reaches_one _ _ None). by apply spec_time.
Qed.

(** ** The property *)

(** C4: the bus is a set of topics with a mailbox for each subscription: whatever
    its clients and callbacks see of a run (which publish chose which subscriptions
    and with what number, whether all accepted, what subscribers were handed, when
    each callback was entered and left, with which envelope, and what expired) they
    could have seen of the specification, where a publish takes effect on the topics
    at one moment, each hand-over and each taking is one operation on a mailbox, and
    a publisher waits only for a reliable mailbox without room. *)
Theorem bus_refines_mailboxes (n : nat) (now : Z) (tr : list event) (σ : bus_state) :
  run (bus_init n now) tr σ ->
  exists tr', run (bus_spec_init n now) tr' (spec_of σ) /\ omap id tr' = omap shown tr.
Proof.
  intros Hr. replace (bus_spec_init n now) with (spec_of (bus_init n now)).
  - apply (run_refines spec_of shown (bus_init n now)); [|done].
    intros tr0 σ0 ev σ1 Hr0 Hs. apply step_spec; [by eapply run_bus_wf|by eapply run_best_effort|done].
  - unfold spec_of, bus_spec_init. simpl. by rewrite fmap_replicate.
Qed.

(** A late subscriber is handed the history; then a publish finds its mailbox full
    and waits for room, which the reader makes. *)
Definition durable : QoS := mkQoS Reliable TransientLocal KeepLast 1 0 0.
Definition durable_pub : Publisher := mkPublisher true "t" 7 durable.

Definition late_and_full : list BusScheduler.command :=
  [BAdvertise 1 "t" 7 durable; BPublish 1 durable_pub 41; BNext 1; BNext 1; BNext 1;
   BSubscribe 0 "t" 7 durable; BNext 0; BNext 0; BPublish 1 durable_pub 42; BNext 1; BNext 1; BNext 1;
   BWork 0; BNext 1; BNext 1; BWork 0; BWork 0].

Lemma bus_refines_mailboxes_witness : exists tr σ tr',
  let e1 := mkEnvelope 41 1 5 in let e2 := mkEnvelope 42 2 5 in
  exec (bus_init 2 5) late_and_full = Some (tr, σ) /\
  run (bus_spec_init 2 5) tr' (spec_of σ) /\
  omap id tr' = [VPublish durable_pub e1 []; VPublished e1 true; VSubscribe 0 durable [e1];
                 VPublish durable_pub e2 [0%nat]; VPublished e2 true; VCall 0 e1 5; VReturn 0 e1].
Proof.
  assert (Hx : exists tr σ, exec (bus_init 2 5) late_and_full = Some (tr, σ)) by (do 2 eexists; vm_compute; reflexivity).
  destruct Hx as (tr & σ & Hx).
  destruct (bus_refines_mailboxes 2 5 tr σ (exec_sound _ late_and_full _ _ Hx)) as (tr' & Hr & Hv).
  exists tr, σ, tr'. split; [exact Hx|]. split; [exact Hr|]. rewrite Hv. clear -Hx.
  vm_compute in Hx. injection Hx as <- _. reflexivity.
Defined.
