(* ===== verification/BusShutdown.v ===== *)
(** * BusShutdown

    The end of a bus.  [stop_subscription] returns: a worker whose queue is closed
    has a bounded number of envelopes left, and exits.  And where no [subscribe] is
    underway when subscriptions are detached, every thread that runs belongs to a
    subscription some topic lists or some client is stopping; so [~TopicBus], which
    is [shutdown], leaves no thread behind. *)

From S2P Require Import Prelude Lts BoundedQueue Qos TopicBus BusSystem BusInvariants BusFlow.
From S2P Require Import BusOrder BusDelivery BusStop BusScheduler.
From stdpp Require Import strings.
Open Scope Z_scope.

#[export] Instance worker_state_eq_dec : EqDecision worker_state.
Proof. solve_decision. Defined.

(** ** A worker drains its closed queue *)

Definition working (w : worker_state) : Prop :=
  match w with WPopping | WHolding _ | WCalling _ | WExited => True | _ => False end.

(** The steps left to a worker with [n] envelopes in its queue. *)
Definition steps_left (s : Subscription) : nat :=
  3 * length (items_ (sub_queue s)) +
  match sub_worker s with WPopping => 1 | WHolding _ => 3 | WCalling _ => 2 | _ => 0 end.

Lemma update_twice b id s s' : update_sub (update_sub b id s) id s' = update_sub b id s'.
Proof. unfold update_sub, with_heap. simpl. by rewrite list_insert_insert_eq. Qed.

Lemma update_same b id s : heap b !! id = Some s -> update_sub b id s = b.
Proof. intros Hs. unfold update_sub, with_heap. rewrite list_insert_id by done. by destruct b. Qed.

Lemma update_lookup b id s s' :
  heap b !! id = Some s -> heap (update_sub b id s') !! id = Some s'.
Proof. intros Hs. simpl. apply list_lookup_insert_eq. by eapply lookup_lt_Some. Qed.

(** A worker with something to do. *)
Definition busy (s : Subscription) : Prop :=
  match sub_worker s with
  | WPopping => items_ (sub_queue s) <> []
  | WHolding _ | WCalling _ => True
  | _ => False
  end.

(** The envelopes whose callback is still to come, if the clock stands still. *)
Definition awaiting (now : Z) (s : Subscription) : list Envelope :=
  filter (fun e => is_expired (sub_qos s) e (u64 now) = false)
    (match sub_worker s with WHolding e => [e] | _ => [] end ++ items_ (sub_queue s)).

(** Its next step, with what it has done to the first envelope in line. *)
Lemma worker_step b cs now id s :
  heap b !! id = Some s -> busy s ->
  exists ev s', step (mkState b cs now) ev (mkState (update_sub b id s') cs now) /\
    closed_ (sub_queue s') = closed_ (sub_queue s) /\ working (sub_worker s') /\
    sub_worker s' <> WExited /\ (steps_left s' < steps_left s)%nat /\
    in_hand (sub_worker s) ++ items_ (sub_queue s) =
      finished_by id ev ++ in_hand (sub_worker s') ++ items_ (sub_queue s') /\
    awaiting now s = callbacks_by id ev ++ awaiting now s'.
Proof.
  intros Hs Hb. unfold busy, steps_left, awaiting in *. destruct (sub_worker s) as [| |e|e| |] eqn:Hwk; try done.
  - (* pop *)
    destruct (items_ (sub_queue s)) as [|e l] eqn:Hi; [done|].
    assert (Hp : pop (sub_queue s) = pop_front (sub_queue s)).
    { unfold pop, pop_until. rewrite Hi. by rewrite (proj2 (Z.eqb_neq _ _)) by len. }
    exists EvInternal. eexists. split.
    { eapply (step_pop _ _ _ _ _ e); [done|done|]. by rewrite Hp; unfold pop_front; rewrite Hi. }
    rewrite Hp. unfold pop_front. rewrite Hi. simpl. split_and!; [done|done|done|lia|done|done].
  - (* check *)
    destruct (deliver_check s e (u64 now)) as [s' []] eqn:Hd;
      pose proof (deliver_check_static _ _ _ _ _ Hd) as (Hst & Hq & _); injection Hst as _ _ Hqos;
      unfold deliver_check in Hd; destruct (is_expired (sub_qos s) e (u64 now)) eqn:He; try done.
    + exists (EvCallback id e (u64 now)). eexists. split.
      { eapply step_callback; [done|done|]. unfold deliver_check. rewrite He. exact Hd. }
      simpl. rewrite Hq, Hqos, decide_True, filter_cons_True by done. split_and!; [done|done|done|lia|done|done].
    + exists (EvExpire id e (u64 now)). eexists. split.
      { eapply step_expire; [done|done|]. unfold deliver_check. rewrite He. exact Hd. }
      simpl. rewrite Hq, Hqos, decide_True, filter_cons_False by congruence.
      split_and!; [done|done|done|lia|done|done].
  - exists (EvReturn id e). eexists. split; [by eapply step_return|]. simpl. rewrite decide_True by done.
    split_and!; [done|done|done|lia|done|done].
Qed.

(** With its queue closed it also has a last step. *)
Lemma worker_next b cs now id s :
  heap b !! id = Some s -> closed_ (sub_queue s) = true -> working (sub_worker s) ->
  sub_worker s <> WExited ->
  exists ev s', step (mkState b cs now) ev (mkState (update_sub b id s') cs now) /\
    closed_ (sub_queue s') = true /\ working (sub_worker s') /\ (steps_left s' < steps_left s)%nat /\
    (sub_worker s' = WExited -> items_ (sub_queue s') = []).
Proof.
  intros Hs Hc Hw Hne.
  destruct (decide (sub_worker s = WPopping /\ items_ (sub_queue s) = [])) as [[Hwk Hi]|Hb].
  - assert (Hp : pop (sub_queue s) = sec_return (sub_queue s) None).
    { unfold pop, pop_until, pop_front. by rewrite Hc, andb_false_r, Hi. }
    exists EvInternal. eexists. split; [eapply step_exit; [done|done|by rewrite Hp]|].
    rewrite Hp. unfold steps_left. rewrite Hwk. simpl. rewrite Hi. split_and!; [done|done|simpl; lia|done].
  - assert (Hbusy : busy s).
    { unfold busy. destruct (sub_worker s); simpl in *; try done. naive_solver. }
    destruct (worker_step b cs now id s Hs Hbusy) as (ev & s' & Hst & Hc' & Hw' & Hx & Hlt & _).
    exists ev, s'. rewrite Hc'. split_and!; done.
Qed.

Lemma worker_drains id cs now : forall b s,
  heap b !! id = Some s -> closed_ (sub_queue s) = true -> working (sub_worker s) ->
  (sub_worker s = WExited -> items_ (sub_queue s) = []) ->
  exists tr s', run (mkState b cs now) tr (mkState (update_sub b id s') cs now) /\
    (length tr <= steps_left s)%nat /\
    closed_ (sub_queue s') = true /\ sub_worker s' = WExited /\ items_ (sub_queue s') = [].
Proof.
  intros b s. remember (steps_left s) as m eqn:Hm. revert b s Hm.
  induction (lt_wf m) as [m _ IH]. intros b s -> Hs Hc Hw Hx.
  destruct (decide (sub_worker s = WExited)) as [He|Hne].
  { exists [], s. rewrite update_same by done. split; [constructor|]. simpl. split; [lia|auto]. }
  destruct (worker_next b cs now id s Hs Hc Hw Hne) as (ev & s1 & Hst & Hc1 & Hw1 & Hlt & Hx1).
  destruct (IH _ Hlt (update_sub b id s1) s1 eq_refl) as (tr & s2 & Hr & Hlen & Hrest);
    [by eapply update_lookup|done|done|done|].
  rewrite update_twice in Hr. exists (ev :: tr), s2. split; [by eapply run_cons|].
  simpl. split; [lia|done].
Qed.

(** ** Exited means drained *)

Definition drained_inv (b : TopicBus) : Prop :=
  forall id s, heap b !! id = Some s -> sub_worker s = WExited \/ sub_worker s = WJoined ->
    closed_ (sub_queue s) = true /\ items_ (sub_queue s) = [].

Lemma drained_counts b b' : counts_only (heap b) (heap b') -> drained_inv b -> drained_inv b'.
Proof.
  intros [_ Hh] Hd id s' Hs' Hw. destruct (Hh id s' Hs') as (s & Hs & _ & -> & Hws).
  rewrite Hws in Hw. eauto.
Qed.

Lemma drained_update b id s s' :
  heap b !! id = Some s -> drained_inv b ->
  (sub_worker s' = WExited \/ sub_worker s' = WJoined ->
     closed_ (sub_queue s') = true /\ items_ (sub_queue s') = []) ->
  drained_inv (update_sub b id s').
Proof.
  intros Hs Hd Hs' id' s1 [(<- & <- & _)|(_ & H1)]%list_lookup_insert_Some; [done|by eapply Hd].
Qed.

(** A closed queue takes nothing. *)
Lemma drained_push b id s e (sec : section Envelope PushStatus) :
  heap b !! id = Some s -> drained_inv b -> push_shape (sub_queue s) e sec ->
  drained_inv (queue_section b id s sec).
Proof.
  intros Hs Hd Hsh. eapply drained_update; [done|done|]. simpl. intros Hw.
  destruct (Hd id s Hs Hw) as [Hc Hi]. destruct Hsh; simpl; congruence || done.
Qed.

(** [pop] ends the loop only on a closed and empty queue. *)
Lemma pop_ended {T} (q : BoundedQueue T) :
  sec_outcome (pop q) = Returned None -> sec_queue (pop q) = q /\ closed_ q = true /\ items_ q = [].
Proof.
  unfold pop, pop_until. destruct (items_ q) as [|x l] eqn:Hi.
  - change (zlen [] =? 0) with true. destruct (closed_ q) eqn:Hc; simpl.
    + unfold pop_front. by rewrite Hi.
    + unfold pop_after_wait, cv_wait, pop_ready. rewrite Hc, Hi. simpl. done.
  - rewrite (proj2 (Z.eqb_neq _ _)) by len. simpl. unfold pop_front. by rewrite Hi.
Qed.

Lemma step_drained σ ev σ' : drained_inv (bs_bus σ) -> step σ ev σ' -> drained_inv (bs_bus σ').
Proof.
  intros Hd Hs. destruct Hs; simpl in *; try done;
    try (eapply drained_counts; [by eapply publish_counts_only|done]);
    try (eapply drained_push; [done|done|eauto with rdb]);
    try (eapply drained_update; [done|done|simpl; intros [Hw|Hw]; done]).
  - erewrite (conflict_ensure b _ _ _ b') by done. done.
  - apply subscribe_spec in H1 as (e & -> & _ & _ & _ & _ & Hh). intros id s. rewrite Hh.
    intros [Hs|[_ Hs]]%lookup_app_Some; [exact (Hd id s Hs)|].
    apply list_lookup_singleton_Some in Hs as [_ <-]. by intros [|].
  - eapply drained_update; [done|done|]. simpl. intros Hw. split; [done|]. exact (proj2 (Hd id s H0 Hw)).
  - eapply drained_update; [done|done|]. simpl. intros _. eapply Hd; eauto.
  - eapply drained_update; [done|done|]. simpl. intros _. subst sec.
    match goal with Hp : sec_outcome _ = _ |- _ => by destruct (pop_ended _ Hp) as (-> & ? & ?) end.
Qed.

Lemma run_drained n now tr σ : run (bus_init n now) tr σ -> drained_inv (bs_bus σ).
Proof.
  apply (run_invariant (fun σ => drained_inv (bs_bus σ))).
  - by intros [|id] s Hs.
  - intros σ1 e σ2. apply step_drained.
Qed.

(** ** [stop_subscription] returns *)

#[export] Instance working_dec w : Decision (working w).
Proof. destruct w; simpl; solve_decision. Defined.

(** What [stop_subscription] leaves: a thread that was running is joined, after
    it took everything out of the queue. *)
Definition ended (s s' : Subscription) : Prop :=
  closed_ (sub_queue s') = true /\
  if decide (working (sub_worker s)) then sub_worker s' = WJoined /\ items_ (sub_queue s') = []
  else sub_worker s' = sub_worker s /\ items_ (sub_queue s') = items_ (sub_queue s).

Lemma not_working w : ~ working w -> not_joinable w.
Proof. unfold not_joinable. destruct w; simpl; tauto. Qed.

(** The join of a subscription whose queue is closed. *)
Lemma join_returns b cs now i id ids s :
  cs !! i = Some (CJoin id ids) -> heap b !! id = Some s -> drained_inv b ->
  closed_ (sub_queue s) = true ->
  exists tr s', run (mkState b cs now) tr (mkState (update_sub b id s') (<[i := CStop ids]> cs) now) /\
    (length tr <= S (steps_left s))%nat /\ ended s s'.
Proof.
  intros Hi Hs Hd Hc. unfold ended. destruct (decide (working (sub_worker s))) as [Hw|Hw].
  - destruct (worker_drains id cs now b s Hs Hc Hw) as (tr & s1 & Hr & Hlen & Hc1 & Hw1 & Hi1);
      [by intros He; apply (Hd id s Hs); left|].
    exists (tr ++ [EvInternal]), (with_worker s1 WJoined). split.
    + eapply run_trans; [exact Hr|]. rewrite <-(update_twice b id s1 (with_worker s1 WJoined)). apply run_one.
      eapply step_join; [done|by eapply update_lookup|done].
    + rewrite length_app. simpl. split; [lia|done].
  - exists [EvInternal], s. rewrite update_same by done. split.
    + apply run_one. eapply step_not_joinable; [done|done|by apply not_working].
    + simpl. split; [lia|done].
Qed.

Lemma stop_closed b id s : heap b !! id = Some s -> drained_inv b -> drained_inv (update_sub b id (stop_close s)).
Proof.
  intros Hs Hd. eapply drained_update; [done|done|]. simpl. intros Hw. split; [done|].
  exact (proj2 (Hd id s Hs Hw)).
Qed.

Lemma ended_drained b id s s' :
  heap b !! id = Some s -> drained_inv b -> ended s s' -> drained_inv (update_sub b id s').
Proof.
  intros Hs Hd [Hc He]. eapply drained_update; [done|done|]. intros Hw. split; [done|].
  case_decide as Hwk; [apply He|]. destruct He as [Hsw ->]. rewrite Hsw in Hw.
  exact (proj2 (Hd id s Hs Hw)).
Qed.

Lemma ended_trans s1 s2 s3 : ended s1 s2 -> ended s2 s3 -> ended s1 s3.
Proof.
  intros [_ H12] [Hc H23]. split; [done|]. destruct (decide (working (sub_worker s1))) as [Hw|Hw].
  - destruct H12 as [Hw2 Hi2]. rewrite decide_False in H23 by (rewrite Hw2; simpl; tauto).
    destruct H23 as [-> ->]. done.
  - destruct H12 as [Hw2 Hi2]. rewrite decide_False in H23 by (rewrite Hw2; simpl; tauto).
    destruct H23 as [-> ->]. done.
Qed.

(** Who is stopped first, and who after: together they are all that is stopped. *)
Lemma stopped_first b b3 id s s2 ids :
  heap b !! id = Some s -> ended s s2 ->
  (forall id' s', heap (update_sub b id s2) !! id' = Some s' ->
     exists s3, heap b3 !! id' = Some s3 /\ if decide (id' ∈ ids) then ended s' s3 else s3 = s') ->
  forall id' s', heap b !! id' = Some s' ->
    exists s3, heap b3 !! id' = Some s3 /\ if decide (id' ∈ id :: ids) then ended s' s3 else s3 = s'.
Proof.
  intros Hs He Hall id' s' Hs'. destruct (decide (id' = id)) as [->|Hne].
  - destruct (Hall id s2) as (s3 & Hs3 & Hif); [by eapply update_lookup|].
    simplify_eq. exists s3. split; [done|]. rewrite decide_True by set_solver.
    case_decide; [|by subst s3]. by eapply ended_trans.
  - destruct (Hall id' s') as (s3 & Hs3 & Hif); [simpl; by rewrite list_lookup_insert_ne|].
    exists s3. split; [done|]. destruct (decide (id' ∈ ids)).
    + by rewrite decide_True by set_solver.
    + by rewrite decide_False by set_solver.
Qed.

(** The whole list, one after the other. *)
Lemma stops_return i now : forall ids b cs,
  cs !! i = Some (CStop ids) -> drained_inv b ->
  Forall (fun id => (id < length (heap b))%nat) ids ->
  exists tr b', run (mkState b cs now) tr (mkState b' (<[i := CIdle]> cs) now) /\
    topics_ b' = topics_ b /\ length (heap b') = length (heap b) /\
    forall id s, heap b !! id = Some s ->
      exists s', heap b' !! id = Some s' /\ if decide (id ∈ ids) then ended s s' else s' = s.
Proof.
  induction ids as [|id ids IH]; intros b cs Hi Hd Hlt.
  { exists [EvInternal], b. split; [by apply run_one, step_stopped|]. split; [done|]. split; [done|].
    intros id s Hs. exists s. split; [done|]. by rewrite decide_False by apply not_elem_of_nil. }
  apply Forall_cons in Hlt as [[s Hs]%lookup_lt_is_Some Hlt].
  pose proof (lookup_lt_Some _ _ _ Hi) as Hil.
  set (b1 := update_sub b id (stop_close s)).
  assert (Hs1 : heap b1 !! id = Some (stop_close s)) by by eapply update_lookup.
  assert (Hd1 : drained_inv b1) by by apply stop_closed.
  destruct (join_returns b1 (<[i := CJoin id ids]> cs) now i id ids (stop_close s))
    as (tr1 & s2 & Hr1 & _ & He); [by apply list_lookup_insert_eq|done..|].
  unfold b1 in Hr1. rewrite update_twice, list_insert_insert_eq in Hr1.
  set (b2 := update_sub b id s2) in *.
  assert (Hd2 : drained_inv b2).
  { pose proof (ended_drained b1 id (stop_close s) s2 Hs1 Hd1 He) as H2. unfold b1 in H2.
    by rewrite update_twice in H2. }
  destruct (IH b2 (<[i := CStop ids]> cs)) as (tr2 & b3 & Hr2 & Ht & Hl & Hall);
    [by apply list_lookup_insert_eq|done| |].
  { eapply Forall_impl; [exact Hlt|]. intros x. simpl. by rewrite length_insert. }
  rewrite list_insert_insert_eq in Hr2.
  exists (EvInternal :: tr1 ++ tr2), b3. split.
  { eapply run_cons; [by eapply step_stop_close|]. by eapply run_trans. }
  split; [done|]. split; [rewrite Hl; apply length_insert|].
  exact (stopped_first b b3 id s s2 ids Hs He Hall).
Qed.

(** ** Every thread is accounted for *)

(** The steps of a bus whose subscriptions are only detached when no [subscribe]
    is underway. *)
Definition subscribing_now (σ : bus_state) : Prop :=
  exists i id backlog, bs_clients σ !! i = Some (CBacklog id backlog).

Definition orderly_step (σ : bus_state) (ev : event) (σ' : bus_state) : Prop :=
  step σ ev σ' /\ match ev with EvDetach _ => ~ subscribing_now σ | _ => True end.

Definition orderly_lts : LTS bus_state event := orderly_step.

Lemma orderly_run σ0 tr σ : run (H := orderly_lts) σ0 tr σ -> run σ0 tr σ.
Proof. induction 1 as [|tr ev σ σ' Hr IH [Hs _]]; econstructor; eauto. Qed.

Definition stopping (c : client) : list nat :=
  match c with CStop ids => ids | CJoin id ids => id :: ids | _ => [] end.
Definition starting (c : client) : list nat :=
  match c with CBacklog id _ => [id] | _ => [] end.

Definition attached (b : TopicBus) (id : nat) : Prop :=
  exists t e, topics_ b !! t = Some e /\ id ∈ te_subs e.

Record threads_inv (b : TopicBus) (cs : list client) : Prop := {
  ti_sub id s : heap b !! id = Some s ->
    if decide (working (sub_worker s)) then attached b id \/ id ∈ cs ≫= stopping
    else sub_worker s = WNotStarted -> id ∈ cs ≫= starting;
  ti_start id : id ∈ cs ≫= starting -> attached b id
}.

Lemma bind_insert_keep {A B} (f : A -> list B) (l : list A) i y z (x : B) :
  l !! i = Some y -> (x ∈ f y -> x ∈ f z) -> x ∈ l ≫= f -> x ∈ <[i := z]> l ≫= f.
Proof.
  intros Hi Hyz (w & Hw & [j Hj]%list_elem_of_lookup)%list_elem_of_bind.
  apply list_elem_of_bind. destruct (decide (j = i)) as [->|Hne].
  - simplify_eq. exists z. split; [auto|]. apply list_elem_of_lookup_2 with (i := i).
    apply list_lookup_insert_eq. by eapply lookup_lt_Some.
  - exists w. split; [done|]. apply list_elem_of_lookup_2 with (i := j). by rewrite list_lookup_insert_ne.
Qed.

Lemma bind_insert_new {A B} (f : A -> list B) (l : list A) i z (x : B) :
  x ∈ <[i := z]> l ≫= f -> x ∈ l ≫= f \/ x ∈ f z.
Proof.
  intros (w & Hw & [j Hj]%list_elem_of_lookup)%list_elem_of_bind.
  apply list_lookup_insert_Some in Hj as [(_ & <- & _)|[_ Hj]]; [by right|left].
  apply list_elem_of_bind. exists w. split; [done|by eapply list_elem_of_lookup_2].
Qed.

(** A client moves on; the bus stays. *)
Lemma threads_client b cs i c c' :
  cs !! i = Some c -> threads_inv b cs ->
  (forall id, id ∈ stopping c -> id ∈ stopping c' \/
     (forall s, heap b !! id = Some s -> ~ working (sub_worker s))) ->
  (forall id, id ∈ starting c -> id ∈ starting c') ->
  (forall id, id ∈ starting c' -> attached b id) ->
  threads_inv b (<[i := c']> cs).
Proof.
  intros Hi [Hs Ht] Hstop Hstart Hatt. split.
  - intros id s Hid. specialize (Hs id s Hid). case_decide as Hw.
    + destruct Hs as [?|Hin]; [by left|right]. eapply bind_insert_keep; [done| |exact Hin].
      intros H. destruct (Hstop id H) as [?|Hn]; [done|]. by destruct (Hn s Hid).
    + intros Hn. eapply bind_insert_keep; [done|apply Hstart|by apply Hs].
  - intros id [?|?]%bind_insert_new; auto.
Qed.

(** The bus changes, and no worker starts or ends. *)
Lemma threads_bus b b' cs :
  (forall id, attached b id -> attached b' id) ->
  (forall id s', heap b' !! id = Some s' -> exists s, heap b !! id = Some s /\
     (working (sub_worker s') -> working (sub_worker s)) /\
     (sub_worker s' = WNotStarted -> sub_worker s = WNotStarted)) ->
  threads_inv b cs -> threads_inv b' cs.
Proof.
  intros Hatt Hheap [Hs Ht]. split; [|by eauto].
  intros id s' Hs'. destruct (Hheap id s' Hs') as (s & Hid & Hw & Hn). specialize (Hs id s Hid).
  destruct (decide (working (sub_worker s'))) as [Hws'|Hws'].
  - rewrite decide_True in Hs by auto. destruct Hs; auto.
  - intros Hns. specialize (Hn Hns). rewrite decide_False in Hs by (rewrite Hn; simpl; tauto).
    auto.
Qed.

Lemma threads_sub_update b cs id s s' :
  heap b !! id = Some s -> (working (sub_worker s') -> working (sub_worker s)) ->
  (sub_worker s' = WNotStarted -> sub_worker s = WNotStarted) ->
  threads_inv b cs -> threads_inv (update_sub b id s') cs.
Proof.
  intros Hs Hw Hn. apply threads_bus; [done|].
  intros id' s1 [(<- & <- & _)|(_ & H1)]%list_lookup_insert_Some; eauto.
Qed.

(** ** The threads stay accounted for *)

Lemma attached_ensure b t ty id :
  attached b id -> attached (with_topics b (ensure_topic (topics_ b) t ty).1) id.
Proof.
  intros (t' & e & He & Hin). exists t', e. split; [|done]. simpl. by rewrite ensure_topic_lookup, He.
Qed.

Lemma attached_publish b t ty q m now b' sel id :
  publish_select b t ty q m now = (b', sel) -> attached b id -> attached b' id.
Proof.
  unfold publish_select. destruct (topics_ b !! t) as [e|] eqn:He; [|intros; by simplify_eq].
  destruct (te_type e =? ty); simpl; intros; simplify_eq; [|done].
  destruct H0 as (t' & e' & He' & Hin). destruct (decide (t = t')) as [<-|Hne].
  - simplify_eq. eexists t, _. split; [simpl; by rewrite lookup_insert_eq|done].
  - exists t', e'. split; [simpl; by rewrite lookup_insert_ne|done].
Qed.

Lemma attached_unsubscribe b id s id' :
  id' <> id -> attached b id' -> attached (unsubscribe_detach b id s) id'.
Proof.
  intros Hne (t & e & He & Hin). destruct (decide (sub_topic s = t)) as [<-|Ht].
  - exists (sub_topic s), (erase_sub id e). split; [simpl; by rewrite lookup_alter_eq, He|].
    simpl. induction (te_subs e) as [|x l IH]; [done|]. simpl.
    case_bool_decide; [set_solver|]. apply elem_of_cons in Hin. set_solver.
  - exists t, e. split; [simpl; by rewrite lookup_alter_ne|done].
Qed.

Lemma attached_shutdown b id : attached b id -> id ∈ (shutdown_detach b).2.
Proof.
  intros (t & e & He & Hin). simpl. apply list_elem_of_bind. exists (t, e). split; [done|].
  by apply elem_of_map_to_list.
Qed.

Lemma threads_counts b b' cs :
  (forall id, attached b id -> attached b' id) -> counts_only (heap b) (heap b') ->
  threads_inv b cs -> threads_inv b' cs.
Proof.
  intros Ha [_ Hh]. apply threads_bus; [done|]. intros id s' Hs'.
  destruct (Hh id s' Hs') as (s & Hs & _ & _ & Hw). exists s. rewrite Hw. auto.
Qed.

Lemma after_target_roles e id targets acc sec :
  stopping (after_target e id targets acc sec) = [] /\ starting (after_target e id targets acc sec) = [].
Proof. unfold after_target. by destruct (sec_outcome sec). Qed.

(** A new subscription is attached, and its [subscribe] is underway. *)
Lemma threads_subscribe b cs i t ty q b' id backlog :
  cs !! i = Some CIdle -> subscribe_register b t ty q = (b', Some (id, backlog)) ->
  threads_inv b cs -> threads_inv b' (<[i := CBacklog id backlog]> cs).
Proof.
  intros Hi (e & -> & _ & He & _ & Hts & Hh)%subscribe_spec Hinv.
  assert (Hnew : attached b' (length (heap b))).
  { eexists t, _. split; [by rewrite Hts, lookup_insert_eq|]. simpl. set_solver. }
  assert (Hold : forall id', attached b id' -> attached b' id').
  { intros id' (t' & e' & He' & Hin). destruct (decide (t = t')) as [<-|Hne].
    - eexists t, _. split; [by rewrite Hts, lookup_insert_eq|]. simpl.
      destruct He as [He|[He _]]; simplify_eq. set_solver.
    - exists t', e'. by rewrite Hts, lookup_insert_ne. }
  destruct Hinv as [Hs Ht]. split.
  - intros id s. rewrite Hh. intros [Hid|[Hge Hid]]%lookup_app_Some.
    + specialize (Hs id s Hid). case_decide.
      * destruct Hs as [?|Hin]; [left; auto|right].
        eapply bind_insert_keep; [exact Hi|simpl; set_solver|done].
      * intros Hn. eapply bind_insert_keep; [exact Hi| |by apply Hs]; simpl; set_solver.
    + apply list_lookup_singleton_Some in Hid as [Hid <-].
      assert (id = length (heap b)) as -> by lia. simpl.
      intros _. apply list_elem_of_bind. exists (CBacklog (length (heap b)) backlog).
      split; [apply list_elem_of_here|].
      apply list_elem_of_lookup_2 with (i := i). apply list_lookup_insert_eq. by eapply lookup_lt_Some.
  - intros id [Hin| ->%list_elem_of_singleton]%bind_insert_new; auto.
Qed.

Lemma threads_quiet b cs i c c' :
  cs !! i = Some c -> stopping c = [] -> starting c = [] -> starting c' = [] ->
  threads_inv b cs -> threads_inv b (<[i := c']> cs).
Proof.
  intros Hi H1 H2 H3 Hinv. eapply threads_client; [exact Hi|done|..]; intros id; rewrite ?H1, ?H2, ?H3;
    by intros ?%not_elem_of_nil.
Qed.

(** The detached subscriptions are now the client's to stop. *)
Lemma threads_detach b b' cs i ids :
  cs !! i = Some CIdle -> heap b' = heap b -> (forall id, attached b id -> attached b' id \/ id ∈ ids) ->
  (forall id, id ∉ cs ≫= starting) -> threads_inv b cs -> threads_inv b' (<[i := CStop ids]> cs).
Proof.
  intros Hi Hh Hatt Hno [Hs Ht]. split.
  - intros id s. rewrite Hh. intros Hid. specialize (Hs id s Hid). case_decide.
    + assert (Hmine : id ∈ ids -> id ∈ <[i := CStop ids]> cs ≫= stopping).
      { intros Hin. apply list_elem_of_bind. exists (CStop ids). split; [done|].
        apply list_elem_of_lookup_2 with (i := i). apply list_lookup_insert_eq. by eapply lookup_lt_Some. }
      destruct Hs as [Ha|Hin]; [destruct (Hatt id Ha); auto|right].
      eapply bind_insert_keep; [exact Hi| |done]. by intros ?%not_elem_of_nil.
    + intros Hn. by destruct (Hno id (Hs Hn)).
  - intros id [Hin|Hin]%bind_insert_new; [by destruct (Hno id)|by apply not_elem_of_nil in Hin].
Qed.

Lemma not_subscribing b cs now id : ~ subscribing_now (mkState b cs now) -> id ∉ cs ≫= starting.
Proof.
  intros Hn (c & Hc & [i Hi]%list_elem_of_lookup)%list_elem_of_bind. apply Hn.
  destruct c; simpl in Hc; try by apply not_elem_of_nil in Hc. eexists _, _, _. exact Hi.
Qed.

(** A worker starts: its subscription is attached. *)
Lemma threads_start b cs i id s :
  cs !! i = Some (CBacklog id []) -> heap b !! id = Some s -> threads_inv b cs ->
  threads_inv (update_sub b id (with_worker s WPopping)) (<[i := CIdle]> cs).
Proof.
  intros Hi Hs0 [Hs Ht].
  assert (Hid : attached b id).
  { apply Ht, list_elem_of_bind. exists (CBacklog id []). split; [apply list_elem_of_here|].
    by eapply list_elem_of_lookup_2. }
  split.
  - intros id' s' [(<- & <- & _)|(Hne & H1)]%list_lookup_insert_Some; [by left|].
    specialize (Hs id' s' H1). case_decide.
    + destruct Hs as [?|Hin]; [by left|right]. eapply bind_insert_keep; [exact Hi|done|done].
    + intros Hn. eapply bind_insert_keep; [exact Hi| |by apply Hs]. simpl. set_solver.
  - intros id' [Hin|Hin]%bind_insert_new; [by apply Ht|by apply not_elem_of_nil in Hin].
Qed.

Lemma join_threads b cs i id ids s :
  cs !! i = Some (CJoin id ids) -> heap b !! id = Some s -> ~ working (sub_worker s) ->
  threads_inv b cs -> threads_inv b (<[i := CStop ids]> cs).
Proof.
  intros Hi Hs Hw Hinv.
  apply (threads_client b cs i (CJoin id ids)); [done|done| |done|by intros ? ?%not_elem_of_nil].
  simpl. intros id' [->|Hin]%elem_of_cons; [right|by left]. intros s' Hs'. congruence.
Qed.

Lemma step_threads σ ev σ' :
  orderly_step σ ev σ' -> threads_inv (bs_bus σ) (bs_clients σ) ->
  threads_inv (bs_bus σ') (bs_clients σ').
Proof.
  intros [Hs Hord] Hinv.
  destruct Hs; cbn [bs_bus bs_clients] in *; try done; try (by eapply threads_quiet).
  all: try (eapply threads_quiet; [done|done|done|done|];
            eapply threads_counts; [intros ?; by eapply attached_publish|by eapply publish_counts_only|done]).
  all: try (eapply threads_quiet; [done|done|done|apply after_target_roles|];
            eapply threads_sub_update; [done|done|done|done]).
  all: try (by eapply threads_sub_update; [done|intros _; rewrite H0; exact I|done|done]).
  - apply (threads_counts b); [intros ?; apply attached_ensure|apply counts_only_refl|done].
  - erewrite (conflict_ensure b _ _ _ b') by done.
    apply (threads_counts b); [intros ?; apply attached_ensure|apply counts_only_refl|done].
  - by eapply threads_subscribe.
  - eapply (threads_client _ _ _ (CBacklog id (e :: backlog)));
      [done| |by intros ? ?%not_elem_of_nil|done|].
    + eapply threads_sub_update; [done|done|done|done].
    + simpl. intros id' ->%list_elem_of_singleton. apply (ti_start _ _ Hinv), list_elem_of_bind.
      eexists. split; [|by eapply list_elem_of_lookup_2]. apply list_elem_of_here.
  - by eapply threads_start.
  - apply (threads_detach b); [done|done| |intros ?; by eapply not_subscribing|done].
    intros id' Ha. destruct (decide (id' = id)) as [->|]; [right; apply list_elem_of_here|left].
    by apply attached_unsubscribe.
  - apply (threads_detach b); [done|done| |intros ?; by eapply not_subscribing|done].
    intros id' Ha. right. by apply attached_shutdown.
  - eapply (threads_client _ _ _ (CStop (id :: ids))); [done| |intros ? ?; by left|done|by intros ? ?%not_elem_of_nil].
    eapply threads_sub_update; [done|done|done|done].
  - eapply join_threads; [done|by eapply update_lookup|simpl; tauto|].
    eapply threads_sub_update; [done|done|done|done].
  - eapply join_threads; [done|done| |done]. destruct H1 as [Hw|Hw]; rewrite Hw; simpl; tauto.
  - apply (threads_counts b); [done|apply counts_only_refl|done].
  - apply (threads_counts b); [done|apply counts_only_refl|done].
Qed.

Lemma run_threads n now tr σ :
  run (H := orderly_lts) (bus_init n now) tr σ -> threads_inv (bs_bus σ) (bs_clients σ).
Proof.
  induction 1 as [|tr ev σ σ' Hr IH Hs]; [|by eapply step_threads].
  split; [by intros [|id] s Hs|]. intros id (c & Hc & Hin)%list_elem_of_bind.
  apply elem_of_replicate in Hin as [-> _]. by apply not_elem_of_nil in Hc.
Qed.

(** ** Properties *)

(** The program points of [stop_subscription], for a list of subscriptions: before
    [close], and in the join. *)
Definition in_stop (c : client) : Prop :=
  match c with CStop _ | CJoin _ _ => True | _ => False end.

(** From either point a client comes back, in no time. *)
Lemma stopping_returns b cs now i cl :
  cs !! i = Some cl -> in_stop cl -> drained_inv b -> client_stop_inv b cl ->
  exists tr b', run (mkState b cs now) tr (mkState b' (<[i := CIdle]> cs) now) /\
    topics_ b' = topics_ b /\
    forall id s, heap b !! id = Some s ->
      exists s', heap b' !! id = Some s' /\ if decide (id ∈ stopping cl) then ended s s' else s' = s.
Proof.
  intros Hi Hin Hd Hf. destruct cl as [| | | | | |ids|id ids]; try done; simpl in *.
  - destruct (stops_return i now ids b cs Hi Hd) as (tr & b' & Hr' & Ht & _ & Hall).
    + eapply Forall_impl; [exact Hf|]. by intros id [? _].
    + exists tr, b'. auto.
  - destruct Hf as [(s & Hs & Hc) [_ Hf]%Forall_cons].
    destruct (join_returns b cs now i id ids s Hi Hs Hd Hc) as (tr1 & s2 & Hr1 & _ & He).
    destruct (stops_return i now ids (update_sub b id s2) (<[i := CStop ids]> cs))
      as (tr2 & b' & Hr2 & Ht & _ & Hall).
    + apply list_lookup_insert_eq. by eapply lookup_lt_Some.
    + by eapply ended_drained.
    + eapply Forall_impl; [exact Hf|]. simpl. intros x [? _]. by rewrite length_insert.
    + rewrite list_insert_insert_eq in Hr2. exists (tr1 ++ tr2), b'. split; [by eapply run_trans|].
      split; [exact Ht|]. exact (stopped_first b b' id s s2 ids Hs He Hall).
Qed.

(** C17: [unsubscribe] and [shutdown] return: wherever a client stands in
    [stop_subscription], about to close a queue or waiting in the join of a thread,
    the workers it waits for can drain their closed queues and exit, nobody else's
    help is needed, and it returns; each subscription that it was joining or had
    still to stop ends with a closed queue and, if its thread ran, that thread joined
    and the queue empty; the others are as they were. *)
Theorem stop_returns n now0 tr0 b cs now i cl :
  run (bus_init n now0) tr0 (mkState b cs now) -> cs !! i = Some cl -> in_stop cl ->
  exists tr b', run (mkState b cs now) tr (mkState b' (<[i := CIdle]> cs) now) /\
    topics_ b' = topics_ b /\
    forall id s, heap b !! id = Some s ->
      exists s', heap b' !! id = Some s' /\ if decide (id ∈ stopping cl) then ended s s' else s' = s.
Proof.
  intros Hr Hi Hin. apply (stopping_returns b cs now i cl Hi Hin (run_drained _ _ _ _ Hr)).
  exact (client_at _ _ _ _ (run_stop_inv _ _ _ _ Hr) Hi).
Qed.

(** C16: the destructor leaves no thread behind: in a bus that nobody uses any more,
    and whose subscriptions were never detached in the middle of a [subscribe],
    every thread belongs to a subscription that a topic lists; and [~TopicBus],
    which is [shutdown], can be run to its end, when every subscription ever made
    has its thread joined, its queue closed and empty. *)
Theorem destructor_joins_all n now0 tr0 b now :
  (0 < n)%nat ->
  run (H := orderly_lts) (bus_init n now0) tr0 (mkState b (replicate n CIdle) now) ->
  (forall id s, heap b !! id = Some s -> working (sub_worker s) -> attached b id) /\
  exists tr b', run (mkState b (replicate n CIdle) now) (EvDetach (shutdown_detach b).2 :: tr)
                  (mkState b' (replicate n CIdle) now) /\
    length (heap b') = length (heap b) /\
    forall id s, heap b' !! id = Some s ->
      sub_worker s = WJoined /\ closed_ (sub_queue s) = true /\ items_ (sub_queue s) = [].
Proof.
  intros Hn Hr. pose proof (run_threads _ _ _ _ Hr) as [Hth _]. apply orderly_run in Hr.
  pose proof (run_drained _ _ _ _ Hr) as Hd. pose proof (run_bus_wf _ _ _ _ Hr) as Hwf. simpl in *.
  assert (Hidle : replicate n CIdle !! 0%nat = Some CIdle) by by apply lookup_replicate_2.
  assert (Hnone : forall (f : client -> list nat) id, f CIdle = [] -> id ∉ replicate n CIdle ≫= f).
  { intros f id Hf (c & Hc & Hin)%list_elem_of_bind. apply elem_of_replicate in Hin as [-> _].
    rewrite Hf in Hc. by apply not_elem_of_nil in Hc. }
  split.
  { intros id s Hs Hw. specialize (Hth id s Hs). rewrite decide_True in Hth by done.
    destruct Hth as [|Hin]; [done|]. by destruct (Hnone stopping id eq_refl). }
  destruct (stops_return 0 now (shutdown_detach b).2 (shutdown_detach b).1
              (<[0%nat := CStop (shutdown_detach b).2]> (replicate n CIdle)))
    as (tr & b' & Hr' & _ & Hl & Hall).
  { apply list_lookup_insert_eq. by rewrite length_replicate. }
  { exact Hd. }
  { apply Forall_forall. intros id Hin. by destruct (shutdown_detached b id Hwf Hin). }
  rewrite list_insert_insert_eq, (list_insert_id _ _ _ Hidle) in Hr'.
  exists tr, b'. split; [eapply run_cons; [by apply step_shutdown|exact Hr']|].
  split; [exact Hl|]. intros id s' Hs'.
  assert (exists s, heap b !! id = Some s) as [s Hs].
  { apply lookup_lt_is_Some. apply lookup_lt_Some in Hs'. simpl in Hl. lia. }
  destruct (Hall id s Hs) as (s1 & Hs1 & Hif). simplify_eq. specialize (Hth id s Hs).
  destruct (decide (working (sub_worker s))) as [Hw|Hw].
  - destruct Hth as [Ha|Hin]; [|by destruct (Hnone stopping id eq_refl)].
    rewrite decide_True in Hif by by apply attached_shutdown.
    destruct Hif as [Hc He]. rewrite decide_True in He by done. destruct He. auto.
  - assert (Hj : sub_worker s = WJoined).
    { destruct (sub_worker s); simpl in Hw; try tauto.
      destruct (Hnone starting id eq_refl). by apply Hth. }
    destruct (Hd id s Hs (or_intror Hj)) as [Hc Hi]. case_decide; [|by subst].
    destruct Hif as [Hc' He]. rewrite decide_False in He by done. destruct He as [-> ->]. auto.
Qed.

(** ** Concrete interleavings *)

Definition is_backlog (c : client) : bool := match c with CBacklog _ _ => true | _ => false end.

Definition orderly_exec1 (σ : bus_state) (c : BusScheduler.command) : option (event * bus_state) :=
  match bus_exec1 σ c with
  | Some (EvDetach ids, σ') =>
      if existsb is_backlog (bs_clients σ) then None else Some (EvDetach ids, σ')
  | r => r
  end.

Lemma orderly_exec1_sound σ c ev σ' : orderly_exec1 σ c = Some (ev, σ') -> orderly_step σ ev σ'.
Proof.
  unfold orderly_exec1. destruct (bus_exec1 σ c) as [[ev0 σ0]|] eqn:Hx; [|done].
  apply bus_exec1_sound in Hx. intros Hs. destruct ev0; simplify_eq; try done.
  destruct (existsb is_backlog (bs_clients σ)) eqn:Hb; simplify_eq. split; [done|].
  intros (i & id & backlog & Hi). apply not_true_iff_false in Hb. apply Hb, existsb_exists.
  exists (CBacklog id backlog). split; [|done]. by apply list_elem_of_In, list_elem_of_lookup_2 with (i := i).
Qed.

#[export] Instance orderly_scheduler : Scheduler (H := orderly_lts) bus_state event BusScheduler.command :=
  {| exec1 := orderly_exec1; exec1_sound := orderly_exec1_sound |}.

(** Two subscriptions; one message is with each; the second was cancelled. *)
Definition two_subscribers : list BusScheduler.command :=
  let q := Qos.command 2 in
  [BSubscribe 0 "t" 7 q; BNext 0; BSubscribe 0 "t" 7 q; BNext 0;
   BPublish 1 (mkPublisher true "t" 7 q) 42; BNext 1; BNext 1; BNext 1; BNext 1; BNext 1; BWork 0;
   BUnsubscribe 0 1; BNext 0; BWork 1; BWork 1; BWork 1; BWork 1; BNext 0; BNext 0].

Lemma destructor_joins_all_witness : exists tr0 σ0 tr b' s,
  exec (H0 := orderly_scheduler) (bus_init 2 5) two_subscribers = Some (tr0, σ0) /\
  run σ0 (EvDetach [0%nat] :: tr) (mkState b' [CIdle; CIdle] 5) /\
  heap b' !! 0%nat = Some s /\ sub_worker s = WJoined.
Proof.
  assert (Hx : exists tr0 b, exec (H0 := orderly_scheduler) (bus_init 2 5) two_subscribers
                 = Some (tr0, mkState b [CIdle; CIdle] 5) /\ (shutdown_detach b).2 = [0%nat] /\
                 length (heap b) = 2%nat)
    by (do 2 eexists; split; [vm_compute; reflexivity|split; vm_compute; reflexivity]).
  destruct Hx as (tr0 & b & Hx & Hids & Hlen).
  pose proof (exec_sound (H0 := orderly_scheduler) _ _ _ _ Hx) as Hr.
  destruct (destructor_joins_all 2 5 tr0 b 5 ltac:(lia) Hr) as (_ & tr & b' & Hr' & Hl & Hall).
  rewrite Hids in Hr'. destruct (heap b' !! 0%nat) as [s|] eqn:Hs.
  - destruct (Hall 0%nat s Hs) as (Hj & _). exists tr0, (mkState b [CIdle; CIdle] 5), tr, b', s.
    split; [exact Hx|]. split; [exact Hr'|]. split; [exact Hs|exact Hj].
  - exfalso. apply lookup_ge_None in Hs. rewrite Hl, Hlen in Hs. lia.
Defined.

Lemma stop_returns_witness :
  let cmds := [BSubscribe 0 "t" 7 (Qos.command 2); BNext 0;
               BPublish 1 (mkPublisher true "t" 7 (Qos.command 2)) 42; BNext 1; BNext 1; BNext 1; BNext 1;
               BUnsubscribe 0 0; BNext 0] in
  exists tr0 σ tr σ', exec (bus_init 2 5) cmds = Some (tr0, σ) /\ bs_clients σ !! 0%nat = Some (CJoin 0%nat []) /\
    run σ tr σ' /\ bs_clients σ' !! 0%nat = Some CIdle.
Proof.
  intros cmds.
  assert (Hx : exists tr0 b, exec (bus_init 2 5) cmds = Some (tr0, mkState b [CJoin 0%nat []; CIdle] 5))
    by (do 2 eexists; vm_compute; reflexivity).
  destruct Hx as (tr0 & b & Hx).
  destruct (stop_returns 2 5 tr0 b [CJoin 0%nat []; CIdle] 5 0 (CJoin 0%nat []) (exec_sound _ _ _ _ Hx) eq_refl I)
    as (tr & b' & Hr & _).
  exists tr0, (mkState b [CJoin 0%nat []; CIdle] 5), tr, (mkState b' [CIdle; CIdle] 5).
  split; [exact Hx|]. split; [reflexivity|]. split; [exact Hr|reflexivity].
Defined.
