(* ===== verification/BusDrain.v ===== *)
(** * BusDrain

    Delivery needs nobody's help: whatever is in a subscription's queue, its own
    worker hands it to the callback, in the order of the queue, while every other
    thread stands still; and what a publisher handed over comes out. *)

From S2P Require Import Prelude Lts BoundedQueue Qos TopicBus BusSystem BusInvariants BusFlow.
From S2P Require Import BusScheduler BusStop BusShutdown.
From stdpp Require Import strings.
Open Scope Z_scope.

Lemma finished_cons id ev tr : finished id (ev :: tr) = finished_by id ev ++ finished id tr.
Proof. done. Qed.

Lemma callbacks_cons id ev tr : callbacks id (ev :: tr) = callbacks_by id ev ++ callbacks id tr.
Proof. done. Qed.

Lemma awaiting_nothing now s :
  working (sub_worker s) -> in_hand (sub_worker s) = [] -> items_ (sub_queue s) = [] -> awaiting now s = [].
Proof. unfold awaiting. intros Hw Hh ->. by destruct (sub_worker s). Qed.

(** The worker's steps, one after the other. *)
Lemma worker_delivers id cs now : forall b s,
  heap b !! id = Some s -> working (sub_worker s) ->
  (sub_worker s = WExited -> items_ (sub_queue s) = []) ->
  exists tr s', run (mkState b cs now) tr (mkState (update_sub b id s') cs now) /\
    (length tr <= steps_left s)%nat /\
    items_ (sub_queue s') = [] /\ in_hand (sub_worker s') = [] /\
    finished id tr = in_hand (sub_worker s) ++ items_ (sub_queue s) /\
    callbacks id tr = awaiting now s.
Proof.
  intros b s. remember (steps_left s) as m eqn:Hm. revert b s Hm.
  induction (lt_wf m) as [m _ IH]. intros b s -> Hs Hw Hx.
  destruct (decide (in_hand (sub_worker s) = [] /\ items_ (sub_queue s) = [])) as [[Hh Hi]|Hb].
  { exists [], s. rewrite update_same by done. split; [constructor|]. rewrite awaiting_nothing, Hh, Hi by done.
    simpl. split_and!; [lia|done..]. }
  assert (Hbusy : busy s).
  { unfold busy. destruct (sub_worker s); simpl in *; try done; naive_solver. }
  destruct (worker_step b cs now id s Hs Hbusy) as (ev & s1 & Hst & _ & Hw1 & Hne & Hlt & Hf & Hc).
  destruct (IH _ Hlt (update_sub b id s1) s1 eq_refl) as (tr & s2 & Hr & Hlen & Hi2 & Hh2 & Hf2 & Hc2);
    [by eapply update_lookup|done|done|].
  rewrite update_twice in Hr. exists (ev :: tr), s2. split; [by eapply run_cons|].
  rewrite finished_cons, callbacks_cons, Hf, Hc, Hf2, Hc2. simpl. split_and!; [lia|done..].
Qed.

(** C35: a subscription whose thread runs is served by that thread alone. From
    wherever the bus stands, it takes at most three steps per envelope to empty the
    queue; every envelope leaves in the order of the queue, and those that have not
    outlived their lifespan are given to the callback, in that order. *)
Theorem queued_is_delivered n now0 tr0 b cs now id s :
  run (bus_init n now0) tr0 (mkState b cs now) ->
  heap b !! id = Some s -> working (sub_worker s) ->
  exists tr s', run (mkState b cs now) tr (mkState (update_sub b id s') cs now) /\
    (length tr <= steps_left s)%nat /\
    items_ (sub_queue s') = [] /\ in_hand (sub_worker s') = [] /\
    finished id tr = in_hand (sub_worker s) ++ items_ (sub_queue s) /\
    callbacks id tr = awaiting now s.
Proof.
  intros Hr Hs Hw. apply worker_delivers; [done|done|]. intros Hx.
  apply (run_drained _ _ _ _ Hr id s Hs). by left.
Qed.

(** Two envelopes wait; the first is already in the worker's hands. *)
Definition two_waiting : list BusScheduler.command :=
  let q := Qos.command 4 in let p := mkPublisher true "t" 7 q in
  [BSubscribe 0 "t" 7 q; BNext 0;
   BPublish 1 p 41; BNext 1; BNext 1; BNext 1; BNext 1;
   BPublish 1 p 42; BNext 1; BNext 1; BNext 1; BNext 1; BWork 0].

Lemma queued_is_delivered_witness : exists tr0 σ s tr σ',
  exec (bus_init 2 5) two_waiting = Some (tr0, σ) /\ heap (bs_bus σ) !! 0%nat = Some s /\
  run σ tr σ' /\ payload <$> callbacks 0 tr = [41; 42].
Proof.
  assert (Hx : exists tr0 b s, exec (bus_init 2 5) two_waiting = Some (tr0, mkState b [CIdle; CIdle] 5) /\
                 heap b !! 0%nat = Some s /\ payload <$> awaiting 5 s = [41; 42] /\ working (sub_worker s))
    by (do 3 eexists; split; [vm_compute; reflexivity|split; [reflexivity|vm_compute; done]]).
  destruct Hx as (tr0 & b & s & Hx & Hs & Ha & Hw).
  destruct (queued_is_delivered 2 5 tr0 b [CIdle; CIdle] 5 0 s (exec_sound _ _ _ _ Hx) Hs Hw)
    as (tr & s' & Hr & _ & _ & _ & _ & Hc).
  exists tr0, (mkState b [CIdle; CIdle] 5), s, tr, (mkState (update_sub b 0 s') [CIdle; CIdle] 5).
  split; [exact Hx|]. split; [exact Hs|]. split; [exact Hr|]. rewrite Hc. exact Ha.
Defined.
