(* ===== verification/BusIdle.v ===== *)
(** * BusIdle

    [wait_for_idle] beside everything else that happens on the bus.  A pass asks one
    queue after the other, each under the queue's own mutex, so what it answers is
    about several moments; with nobody pushing it is about the moment it returns. *)

From S2P Require Import Prelude Lts BoundedQueue Qos TopicBus BusSystem BusInvariants BusScheduler.
From S2P Require Import BusFlow BusDelivery BusShutdown.
From stdpp Require Import strings.
Open Scope Z_scope.

(** ** The caller and the bus *)

Record watched := mkWatched { wa_bus : bus_state; wa_call : idle_wait }.

Definition returned (w : idle_wait) : Prop := match w with WReturn _ => True | _ => False end.

(** A pass holds [mutex_], shared: what changes the topics waits. *)
Definition scanning (w : idle_wait) : bool := match w with WScan _ => true | _ => false end.

(** [None] is a step of the call, up to its return; the rest is the bus's. *)
Inductive watch_step (limit : Z) : watched -> option event -> watched -> Prop :=
  | watch_call σ w :
      ~ returned w ->
      watch_step limit (mkWatched σ w) None
        (mkWatched σ (wait_for_idle limit w (bs_bus σ) (bs_clock σ)))
  | watch_bus σ ev σ' w :
      ~ returned w -> step σ ev σ' ->
      (scanning w = true -> topics_ (bs_bus σ') = topics_ (bs_bus σ)) ->
      watch_step limit (mkWatched σ w) (Some ev) (mkWatched σ' w).

Definition watch_lts (limit : Z) : LTS watched (option event) := watch_step limit.

(** ** Without pushes an empty queue stays empty *)

Definition pushes (ev : event) : bool := match ev with EvPush _ _ _ => true | _ => false end.

Definition empties_stay (b b' : TopicBus) : Prop :=
  forall id, queue_empty b id = true -> queue_empty b' id = true.

Lemma queue_empty_spec b id :
  queue_empty b id = true <-> forall s, heap b !! id = Some s -> items_ (sub_queue s) = [].
Proof.
  unfold queue_empty. destruct (heap b !! id) as [s|]; [|split; [by intros _ ?|done]].
  unfold BoundedQueue.empty, BoundedQueue.size. split.
  - intros H s' [= <-]. by apply zlen_0, Z.eqb_eq.
  - intros H. by rewrite (H s eq_refl).
Qed.

Lemma empties_counts b b' : counts_only (heap b) (heap b') -> empties_stay b b'.
Proof.
  intros [_ Hh] id. rewrite !queue_empty_spec. intros He s' Hs'.
  destruct (Hh id s' Hs') as (s & Hs & _ & -> & _). eauto.
Qed.

Lemma empties_update b id s s' :
  heap b !! id = Some s ->
  (items_ (sub_queue s) = [] -> items_ (sub_queue s') = []) -> empties_stay b (update_sub b id s').
Proof.
  intros Hs Hi id'. rewrite !queue_empty_spec.
  intros He s1 [(<- & <- & _)|(_ & H1)]%list_lookup_insert_Some; eauto.
Qed.

Lemma empties_heap b b' : heap b' = heap b -> empties_stay b b'.
Proof. intros Hh id. unfold queue_empty. by rewrite Hh. Qed.

(** A new subscription has an empty queue. *)
Lemma empties_subscribe b t ty q b' id backlog :
  subscribe_register b t ty q = (b', Some (id, backlog)) -> empties_stay b b'.
Proof.
  intros (e & _ & _ & _ & _ & _ & Hh)%subscribe_spec id'. rewrite !queue_empty_spec, Hh.
  intros He s [Hs|[_ Hs]]%lookup_app_Some; [by apply He|].
  by apply list_lookup_singleton_Some in Hs as [_ <-].
Qed.

Lemma pop_empties (q : BoundedQueue Envelope) : items_ q = [] -> items_ (sec_queue (pop q)) = [].
Proof. intros Hi. pose proof (pop_shape_items q (pop q) (pop_shape_pop q)) as H. rewrite Hi in H. by destruct (sec_popped _). Qed.

Lemma quiet_step_empties σ ev σ' :
  step σ ev σ' -> pushes ev = false -> empties_stay (bs_bus σ) (bs_bus σ').
Proof.
  intros Hs Hp. destruct Hs; simpl in *; try done; try (by apply empties_heap);
    try (eapply empties_counts; by eapply publish_counts_only);
    try (eapply empties_update; [done|done]).
  - erewrite (conflict_ensure b _ _ _ b') by done. by apply empties_heap.
  - by eapply empties_subscribe.
  - eapply empties_update; [done|]. apply pop_empties.
  - eapply empties_update; [done|]. apply pop_empties.
  - eapply empties_update; [done|]. simpl. by destruct (deliver_check_static _ _ _ _ _ H1) as (_ & -> & _).
  - eapply empties_update; [done|]. simpl. by destruct (deliver_check_static _ _ _ _ _ H1) as (_ & -> & _).
Qed.

(** ** What a pass has found *)

(** The queues asked so far, and all of them at the return. *)
Definition found (b : TopicBus) (w : idle_wait) : Prop :=
  match w with
  | WScan ids => forall id, id ∈ attached_ids b -> id ∉ ids -> queue_empty b id = true
  | WReturn true => forall id, id ∈ attached_ids b -> queue_empty b id = true
  | _ => True
  end.

Lemma call_found limit w b now : found b w -> found b (wait_for_idle limit w b now).
Proof.
  destruct w as [|[|id ids]| |r]; simpl; [|..|done].
  - intros _ id Hin Hnin. done.
  - intros Hf id Hin. apply Hf; [done|]. apply not_elem_of_nil.
  - intros Hf. destruct (queue_empty b id) eqn:He; [|done]. simpl. intros id' Hin Hnin.
    destruct (decide (id' = id)) as [->|Hne]; [done|]. apply Hf; [done|]. by rewrite not_elem_of_cons.
  - by destruct (limit <=? now).
Qed.

Lemma bus_found σ ev σ' w :
  step σ ev σ' -> pushes ev = false -> ~ returned w ->
  (scanning w = true -> topics_ (bs_bus σ') = topics_ (bs_bus σ)) ->
  found (bs_bus σ) w -> found (bs_bus σ') w.
Proof.
  intros Hs Hp Hw Ht. destruct w as [|ids| |r]; try done.
  simpl. unfold attached_ids. rewrite Ht by done. intros Hf id Hin Hnin.
  by apply (quiet_step_empties σ ev σ'), Hf.
Qed.

(** What [wait_for_idle] promises: if nobody pushes into a queue while it is
    called, and it returns true, then at that moment the queue of every attached
    subscription is empty, whatever the workers and the other callers did. *)
Theorem idle_is_drained limit σ0 tr σ :
  run (H := watch_lts limit) (mkWatched σ0 WLock) tr (mkWatched σ (WReturn true)) ->
  Forall (fun o => match o with Some ev => pushes ev = false | None => True end) tr ->
  forall id s, id ∈ attached_ids (bs_bus σ) -> heap (bs_bus σ) !! id = Some s -> items_ (sub_queue s) = [].
Proof.
  intros Hr Hp. assert (Hf : found (bs_bus σ) (WReturn true)).
  { remember (mkWatched σ (WReturn true)) as ω eqn:Hω. replace (WReturn true) with (wa_call ω) by by subst.
    replace σ with (wa_bus ω) by by subst. clear Hω.
    induction Hr as [|tr o ω1 ω2 Hr IH Hs]; [done|]. apply Forall_app in Hp as [Hp Ho].
    apply Forall_cons in Ho as [Ho _]. specialize (IH Hp).
    destruct Hs as [σ1 w Hw|σ1 ev σ2 w Hw Hs Ht]; simpl in *; [by apply call_found|by eapply bus_found]. }
  intros id s Hin Hs. exact (proj1 (queue_empty_spec (bs_bus σ) id) (Hf id Hin) s Hs).
Qed.

(** ** Concrete interleavings *)

#[export] Instance TopicEntry_eq_dec : EqDecision TopicEntry.
Proof. solve_decision. Defined.

Inductive watch_command := CallNext | OnBus (c : BusScheduler.command).

Definition bus_exec_beside (σ : bus_state) (w : idle_wait) (c : BusScheduler.command)
  : option (option event * watched) :=
  match bus_exec1 σ c with
  | Some (ev, σ') =>
      if negb (scanning w) || bool_decide (topics_ (bs_bus σ') = topics_ (bs_bus σ))
      then Some (Some ev, mkWatched σ' w) else None
  | None => None
  end.

Definition watch_exec1 (limit : Z) (ω : watched) (c : watch_command) : option (option event * watched) :=
  let '(mkWatched σ w) := ω in
  match w, c with
  | WReturn _, _ => None
  | _, CallNext => Some (None, mkWatched σ (wait_for_idle limit w (bs_bus σ) (bs_clock σ)))
  | _, OnBus c => bus_exec_beside σ w c
  end.

Lemma bus_beside_sound limit σ w c o ω' :
  ~ returned w -> bus_exec_beside σ w c = Some (o, ω') -> watch_step limit (mkWatched σ w) o ω'.
Proof.
  unfold bus_exec_beside. intros Hw. destruct (bus_exec1 σ c) as [[ev σ']|] eqn:Hs; [|done].
  apply bus_exec1_sound in Hs. destruct (scanning w) eqn:Hscan; simpl.
  - case_bool_decide; intros [= <- <-]. by apply watch_bus.
  - intros [= <- <-]. apply watch_bus; [done|done|congruence].
Qed.

Lemma watch_exec1_sound limit ω c o ω' : watch_exec1 limit ω c = Some (o, ω') -> watch_step limit ω o ω'.
Proof.
  destruct ω as [σ w], w, c; unfold watch_exec1; intros Hx; try done;
    first [apply (bus_beside_sound limit) in Hx; [done|by intros []]
          |injection Hx as <- <-; apply watch_call; by intros []].
Qed.

#[export] Instance watch_scheduler limit : Scheduler (H := watch_lts limit) watched (option event) watch_command :=
  {| exec1 := watch_exec1 limit; exec1_sound := watch_exec1_sound limit |}.

(** A subscription with one message on its way; then the worker takes it while
    the caller asks. *)
Definition one_queued : list BusScheduler.command :=
  let q := Qos.command 2 in
  [BSubscribe 0 "t" 7 q; BNext 0; BPublish 1 (mkPublisher true "t" 7 q) 42; BNext 1; BNext 1; BNext 1; BNext 1].

Definition asking : list watch_command :=
  [CallNext; CallNext; CallNext; OnBus (BWork 0); CallNext; CallNext; CallNext].

(** Evaluate a conjunction of equations, one after the other. *)
Ltac run_parts := repeat (split; [vm_compute; reflexivity|]); vm_compute; reflexivity.

Lemma idle_is_drained_witness : exists tr0 σ0 tr σ s,
  exec (bus_init 2 5) one_queued = Some (tr0, σ0) /\
  exec (H0 := watch_scheduler 100) (mkWatched σ0 WLock) asking = Some (tr, mkWatched σ (WReturn true)) /\
  attached_ids (bs_bus σ) = [0%nat] /\ heap (bs_bus σ) !! 0%nat = Some s /\ items_ (sub_queue s) = [].
Proof.
  assert (Hx : exists tr0 σ0 tr σ s,
    exec (bus_init 2 5) one_queued = Some (tr0, σ0) /\
    exec (H0 := watch_scheduler 100) (mkWatched σ0 WLock) asking = Some (tr, mkWatched σ (WReturn true)) /\
    attached_ids (bs_bus σ) = [0%nat] /\ heap (bs_bus σ) !! 0%nat = Some s /\
    forallb (fun o => match o with Some ev => negb (pushes ev) | None => true end) tr = true)
    by (do 5 eexists; run_parts).
  destruct Hx as (tr0 & σ0 & tr & σ & s & H0 & Hx & Ha & Hs & Hp). exists tr0, σ0, tr, σ, s.
  do 4 (split; [assumption|]).
  apply (idle_is_drained 100 σ0 tr σ (exec_sound _ _ _ _ Hx)) with (id := 0%nat);
    [|rewrite Ha; apply list_elem_of_here|exact Hs].
  apply Forall_forall. intros o Ho. apply list_elem_of_In in Ho. rewrite forallb_forall in Hp.
  specialize (Hp o Ho). destruct o; [|exact I]. by apply negb_true_iff.
Defined.

(** True is about the queues: the message that the worker took is still on its way
    to the callback. *)
Example idle_before_delivery :
  exists tr0 σ0 tr σ s e,
    exec (bus_init 2 5) one_queued = Some (tr0, σ0) /\
    exec (H0 := watch_scheduler 100) (mkWatched σ0 WLock) asking = Some (tr, mkWatched σ (WReturn true)) /\
    heap (bs_bus σ) !! 0%nat = Some s /\ sub_worker s = WHolding e /\ payload e = 42.
Proof. do 6 eexists. run_parts. Qed.

(** And with a publisher at work it is not about one moment: the first queue was
    asked before it was filled, the second after it was emptied. *)
Definition two_queues : list BusScheduler.command :=
  let q := Qos.command 2 in
  [BSubscribe 0 "t" 7 q; BNext 0; BSubscribe 0 "t" 7 q; BNext 0;
   BPublish 1 (mkPublisher true "t" 7 q) 41; BNext 1; BNext 1; BNext 1; BNext 1; BNext 1; BWork 0;
   BPublish 1 (mkPublisher true "t" 7 q) 42; BNext 1; BNext 1].

Definition size_of (σ : bus_state) (id : nat) : option Z :=
  (fun s => BoundedQueue.size (sub_queue s)) <$> heap (bs_bus σ) !! id.

Example idle_though_never_empty :
  exists tr0 σ0 tr1 ω1 tr2 ω2 tr3 σ3,
    exec (bus_init 2 5) two_queues = Some (tr0, σ0) /\ (size_of σ0 0, size_of σ0 1) = (Some 0, Some 1) /\
    exec (H0 := watch_scheduler 100) (mkWatched σ0 WLock) [CallNext; CallNext] = Some (tr1, ω1) /\
    exec (H0 := watch_scheduler 100) ω1 [OnBus (BNext 1)] = Some (tr2, ω2) /\
    (size_of (wa_bus ω2) 0, size_of (wa_bus ω2) 1) = (Some 1, Some 1) /\
    exec (H0 := watch_scheduler 100) ω2 [OnBus (BWork 1); CallNext; CallNext]
      = Some (tr3, mkWatched σ3 (WReturn true)) /\
    (size_of σ3 0, size_of σ3 1) = (Some 1, Some 0).
Proof. do 8 eexists. run_parts. Qed.
