(* ===== verification/BusTheorems.v ===== *)
(** * BusTheorems

    What [TopicBus] promises, for every interleaving of its clients and
    workers. *)

From S2P Require Import Prelude Lts BoundedQueue QueueTheorems Qos TopicBus BusSystem.
From S2P Require Import BusInvariants BusFlow BusOrder BusScheduler BusDelivery BusReliable BusStop BusLiveness.
From stdpp Require Import strings sorting.
Open Scope Z_scope.

(** ** Specifications of the blocks *)

(** The last [n] elements. *)
Definition keep_last {A} (n : nat) (l : list A) : list A := drop (length l - n) l.

(** Would subscription [id] refuse this publisher, and how is that reported? *)
Definition rejects (h : list Subscription) (q : QoS) (id : nat) : bool :=
  match h !! id with
  | Some s => negb (bool_decide (compatible q (sub_qos s)))
  | None => false
  end.

Definition report (h : list Subscription) (q : QoS) (id : nat) : option QosMismatch :=
  match h !! id with
  | Some s => if rejects h q id && negb (mismatch_reported s)
              then Some (check_compatible q (sub_qos s)) else None
  | None => None
  end.

(** A subscription after its mismatch is noted. *)
Definition noted (s : Subscription) : Subscription :=
  with_counts s (delivered s) (expired s) (deadline_missed s) (qos_rejected s +u 1)
    (last_delivery_ns s) true.

(** The concrete interleaving the properties are tried on: client 0 subscribes,
    client 1 publishes, the worker delivers. *)
Definition scenario_pub (q : QoS) : Publisher := mkPublisher true "t" 7 q.

Definition scenario : list BusScheduler.command :=
  [BSubscribe 0 "t" 7 (Qos.command 2); BNext 0; BPublish 1 (scenario_pub (Qos.command 2)) 42;
   BNext 1; BNext 1; BNext 1; BNext 1; BWork 0; BWork 0; BWork 0].

Definition subscribed : list BusScheduler.command :=
  [BSubscribe 0 "t" 7 (Qos.command 2); BNext 0].

(** Evaluate a goal about concrete states; a concrete execution is a run. *)
Ltac run_it := vm_compute; reflexivity.
Ltac ran cmds := apply (exec_sound _ cmds); run_it.

(** ** Helper lemmas *)

Lemma trim_keep_last l d : 0 <= d -> trim_latched l d = keep_last (Z.to_nat d) l.
Proof.
  intros Hd. unfold keep_last. induction l as [|x l IH]; [done|].
  cbn [trim_latched]. destruct (Z.ltb_spec d (zlen (x :: l))) as [Hlt|Hge].
  - rewrite IH. unfold zlen in Hlt. simpl in *.
    by replace (S (length l) - Z.to_nat d)%nat with (S (length l - Z.to_nat d)) by lia.
  - unfold zlen in Hge. simpl in *.
    by replace (S (length l) - Z.to_nat d)%nat with 0%nat by lia.
Qed.

(** One iteration of the scan. *)
Lemma scan_sub_exact q a id :
  sc_heap (scan_sub q a id) =
    (if rejects (sc_heap a) q id then alter noted id (sc_heap a) else sc_heap a) /\
  sc_mismatches (scan_sub q a id) =
    sc_mismatches a ++ (match report (sc_heap a) q id with Some m => [m] | None => [] end) /\
  u64 (sc_qos_mismatches (scan_sub q a id)) =
    u64 (sc_qos_mismatches a + (if rejects (sc_heap a) q id then 1 else 0)).
Proof.
  unfold scan_sub, rejects, report, rejects, compatible. destruct (sc_heap a !! id) as [s|] eqn:Hs;
    [|by rewrite app_nil_r, Z.add_0_r].
  case_bool_decide as Hm; simpl; [by rewrite app_nil_r, Z.add_0_r|].
  rewrite wrap_wrap. split; [|split; [|done]].
  - unfold alter, list_alter. clear -Hs. revert Hs. generalize (sc_heap a) as h. revert id.
    induction id as [|id IH]; intros [|x h] Hs; simplify_eq/=; [done|].
    f_equal. by apply IH.
  - destruct (mismatch_reported s); simpl; by rewrite ?app_nil_r.
Qed.

Lemma alter_noted_ne (h : list Subscription) id id' : id' <> id -> alter noted id h !! id' = h !! id'.
Proof. intros. by rewrite list_lookup_alter_ne. Qed.

Lemma rejects_alter h q id id' : id' <> id -> rejects (alter noted id h) q id' = rejects h q id'.
Proof. intros. unfold rejects. by rewrite alter_noted_ne. Qed.

Lemma report_alter h q id id' : id' <> id -> report (alter noted id h) q id' = report h q id'.
Proof. intros. unfold report. by rewrite alter_noted_ne, rejects_alter. Qed.

(** The whole scan, on a list without duplicates. *)
Lemma scan_exact q subs : forall a,
  NoDup subs ->
  let a' := foldl (scan_sub q) a subs in
  (forall id, sc_heap a' !! id =
     if bool_decide (id ∈ subs) && rejects (sc_heap a) q id
     then noted <$> sc_heap a !! id else sc_heap a !! id) /\
  sc_mismatches a' = sc_mismatches a ++ omap (report (sc_heap a) q) subs /\
  u64 (sc_qos_mismatches a') =
    u64 (sc_qos_mismatches a + Z.of_nat (countb (rejects (sc_heap a) q) subs)).
Proof.
  induction subs as [|x subs IH]; intros a Hnd; simpl.
  { rewrite app_nil_r, Z.add_0_r. done. }
  apply NoDup_cons in Hnd as [Hx Hnd]. destruct (scan_sub_exact q a x) as (Hh & Hm & Hq).
  destruct (IH (scan_sub q a x) Hnd) as (IHh & IHm & IHq).
  assert (Hrej : forall y, y ∈ subs -> rejects (sc_heap (scan_sub q a x)) q y = rejects (sc_heap a) q y).
  { intros y Hy. rewrite Hh. destruct (rejects _ _ x); [|done]. apply rejects_alter. set_solver. }
  assert (Hrep : omap (report (sc_heap (scan_sub q a x)) q) subs = omap (report (sc_heap a) q) subs).
  { apply omap_ext_elem. intros y Hy. rewrite Hh. destruct (rejects _ _ x); [|done].
    apply report_alter. set_solver. }
  assert (Hcnt : countb (rejects (sc_heap (scan_sub q a x)) q) subs
                 = countb (rejects (sc_heap a) q) subs) by (by apply countb_ext_elem).
  split; [|split].
  - intros id. rewrite IHh. destruct (decide (id = x)) as [->|Hne].
    + rewrite (bool_decide_false (x ∈ subs)), (bool_decide_true (x ∈ x :: subs)) by set_solver.
      simpl. rewrite Hh. destruct (rejects _ _ x); [apply list_lookup_alter_eq|done].
    + rewrite (bool_decide_ext (id ∈ x :: subs) (id ∈ subs)) by set_solver.
      rewrite Hh. destruct (rejects _ _ x); [|done]. by rewrite rejects_alter, alter_noted_ne.
  - rewrite IHm, Hm, Hrep, <-app_assoc. f_equal. by destruct (report _ _ x).
  - rewrite IHq, Hcnt, <-wrap_add_l, Hq, countb_cons. rewrite wrap_add_l.
    destruct (rejects (sc_heap a) q x); f_equal; lia.
Qed.

(** ** Properties of runs *)

Section properties.
Implicit Types (id n : nat) (now : Z) (tr : list event) (σ : bus_state).

(** C5: no envelope is lost or invented: every envelope destined to a
    subscription (selected for it by a publish, or handed to it as history) is,
    exactly as many times, either still held (by the publisher, in the queue,
    in the worker's hands) or finished (refused, evicted, expired, delivered). *)
Theorem bus_conservation id n now tr σ :
  run (bus_init n now) tr σ -> destined id tr ≡ₚ held id σ ++ finished id tr.
Proof.
  intros Hr. apply countb_Permutation. intros f. rewrite countb_app. by eapply run_flow.
Qed.

Lemma bus_conservation_witness : exists tr σ,
  exec (bus_init 2 5) scenario = Some (tr, σ) /\
  finished 0 tr = [mkEnvelope 42 1 5] /\
  destined 0 tr ≡ₚ held 0 σ ++ finished 0 tr.
Proof.
  do 2 eexists. split; [run_it|]. split; [run_it|].
  apply (bus_conservation 0 2 5). ran scenario.
Defined.

(** C8: the callback receives messages in the order in which the queue
    accepted them. *)
Theorem fifo_delivery id n now tr σ :
  run (bus_init n now) tr σ -> callbacks id tr `sublist_of` pushed id tr.
Proof.
  intros Hr. etransitivity; [|by eapply run_fifo]. by apply sublist_inserts_r.
Qed.

Lemma fifo_delivery_witness : exists tr σ,
  exec (bus_init 2 5) scenario = Some (tr, σ) /\
  callbacks 0 tr = [mkEnvelope 42 1 5] /\ callbacks 0 tr `sublist_of` pushed 0 tr.
Proof.
  do 2 eexists. split; [run_it|]. split; [run_it|].
  eapply (fifo_delivery 0 2 5). ran scenario.
Defined.

(** At most once: no two callbacks of a subscription carry the same
    sequence number (in runs of fewer than 2^64 steps, so the number does not
    wrap). *)
Theorem at_most_once id n now tr σ :
  run (bus_init n now) tr σ -> zlen tr < 2 ^ 64 -> NoDup (env_seq <$> callbacks id tr).
Proof.
  intros Hr Hlen. pose proof (run_order _ _ _ _ Hr Hlen) as Ho.
  apply NoDup_count. intros k. etransitivity; [by eapply run_callbacks|].
  apply countb_NoDup. destruct (heap (bs_bus σ) !! id) as [s|] eqn:Hs.
  - destruct (wf_home _ (run_bus_wf _ _ _ _ Hr) id s Hs) as (e & He & _).
    destruct (oi_sub _ _ Ho id s e Hs He) as [Ha _]. by eapply ascending_NoDup.
  - rewrite (oi_new _ _ Ho id Hs). constructor.
Qed.

Lemma at_most_once_witness : exists tr σ,
  exec (bus_init 2 5) scenario = Some (tr, σ) /\ NoDup (env_seq <$> callbacks 0 tr).
Proof.
  do 2 eexists. split; [run_it|].
  eapply (at_most_once 0 2 5); [ran scenario|done].
Defined.

(** C6: a reliable subscription loses nothing: the envelopes its queue accepted
    are, in that order, those its worker took and those that wait; and when no
    lifespan is set the worker delivered all it took, so every accepted message
    reaches the callback exactly once and in order. *)
Theorem reliable_no_loss id n now tr σ s :
  run (bus_init n now) tr σ -> heap (bs_bus σ) !! id = Some s ->
  reliability (sub_qos s) = Reliable ->
  pushed id tr = taken id tr ++ waiting id (bs_bus σ) /\
  (lifespan (sub_qos s) <= 0 -> pushed id tr = callbacks id tr ++ waiting id (bs_bus σ)).
Proof.
  intros Hr Hs Hrel.
  assert (Hp : pushed id tr = taken id tr ++ waiting id (bs_bus σ)).
  { eapply run_reliable; [done|]. intros s' Hs'. congruence. }
  split; [done|]. intros Hl. rewrite Hp, taken_callbacks; [done|].
  eapply run_no_expiry; [done|]. intros s' Hs'. congruence.
Qed.

Lemma reliable_no_loss_witness : exists tr σ,
  exec (bus_init 2 5) scenario = Some (tr, σ) /\ pushed 0 tr = [mkEnvelope 42 1 5] /\
  pushed 0 tr = callbacks 0 tr ++ waiting 0 (bs_bus σ).
Proof.
  do 2 eexists. split; [run_it|]. split; [run_it|].
  eapply (reliable_no_loss 0 2 5); [ran scenario|reflexivity|reflexivity|done].
Defined.

(** C7: [publish] tells the truth: it returns true when the queue of every
    subscription it targeted accepted the message, and false when one of them
    refused it. *)
Theorem publish_reports n now tr σ e acc σ' :
  run (bus_init n now) tr σ -> step σ (EvPublished e acc) σ' ->
  exists p targets, EvSelect p e targets ∈ tr /\
    if acc then Forall (fun id => e ∈ pushed id tr) targets
    else Exists (fun id => e ∈ rejected id tr) targets.
Proof.
  intros Hr Hs. pose proof (run_publishing _ _ _ _ Hr) as Hp. inversion Hs; subst.
  match goal with Hi : _ !! _ = Some _ |- _ => pose proof (publishing_at _ _ _ _ Hp Hi) as Hc end.
  simpl in Hc. destruct Hc as (p & served & Hin & Hv). rewrite app_nil_r in Hin.
  by exists p, served.
Qed.

(** The second of two publishes to a full reliable queue times out. *)
Definition timed_out_publish : list BusScheduler.command :=
  let q := Qos.command 1 in
  [BSubscribe 0 "t" 7 q; BNext 0;
   BPublish 1 (scenario_pub q) 1; BNext 1; BNext 1; BNext 1; BNext 1;
   BPublish 1 (scenario_pub q) 2; BNext 1; BNext 1; BNext 1; BTick 200000000; BTimeout 1].

Lemma publish_reports_witness : exists tr σ σ' p targets,
  exec (bus_init 2 5) timed_out_publish = Some (tr, σ) /\
  bus_exec1 σ (BNext 1) = Some (EvPublished (mkEnvelope 2 2 5) false, σ') /\
  EvSelect p (mkEnvelope 2 2 5) targets ∈ tr /\
  Exists (fun id => mkEnvelope 2 2 5 ∈ rejected id tr) targets.
Proof.
  edestruct publish_reports with (n := 2%nat) (now := 5) (acc := false) as (p & targets & Hin & Hv).
  3: { do 3 eexists. exists p, targets. split; [run_it|]. split; [run_it|]. split; [exact Hin|].
       cbv iota in Hv. exact Hv. }
  - ran timed_out_publish.
  - apply (bus_exec1_sound _ (BNext 1)). run_it.
Defined.

(** C10: type-safe delivery: whatever reaches a subscription's callback was
    published on the subscription's topic by a publisher of the type it was
    declared with, so the [static_pointer_cast] in the callback wrapper is
    sound. *)
Theorem type_safe_delivery id n now tr σ s e t :
  run (bus_init n now) tr σ -> zlen tr < 2 ^ 64 ->
  heap (bs_bus σ) !! id = Some s -> EvCallback id e t ∈ tr ->
  exists p targets, EvSelect p e targets ∈ tr /\
    pub_topic p = sub_topic s /\ pub_type p = sub_type s.
Proof.
  intros Hr Hlen Hs Hin. pose proof (run_order _ _ _ _ Hr Hlen) as Ho.
  destruct (wf_home _ (run_bus_wf _ _ _ _ Hr) id s Hs) as (en & Hen & Hty).
  destruct (oi_sub _ _ Ho id s en Hs Hen) as [_ Hor]. rewrite Hty, Forall_forall in Hor.
  apply Hor.
  pose proof (run_callbacks (fun x => bool_decide (x = e)) id n now tr σ Hr) as Hc.
  assert (0 < countb (fun x => bool_decide (x = e)) (destined id tr))%nat as Hpos.
  { eapply Nat.lt_le_trans; [|exact Hc]. eapply countb_le_elem; [|by apply bool_decide_true].
    apply list_elem_of_bind. exists (EvCallback id e t). split; [|done].
    simpl. rewrite decide_True by done. apply list_elem_of_here. }
  apply countb_elem_inv in Hpos as (x & Hx & Heq%bool_decide_eq_true). by subst.
Qed.

Lemma type_safe_delivery_witness : exists tr σ s,
  exec (bus_init 2 5) scenario = Some (tr, σ) /\ heap (bs_bus σ) !! 0%nat = Some s /\
  exists p targets, EvSelect p (mkEnvelope 42 1 5) targets ∈ tr /\
    pub_topic p = sub_topic s /\ pub_type p = sub_type s.
Proof.
  do 3 eexists. split; [run_it|]. split; [run_it|].
  eapply (type_safe_delivery 0 2 5 _ _ _ _ 5);
    [ran scenario|done|done|].
  do 8 (apply list_elem_of_further). apply list_elem_of_here.
Defined.

(** What one publish does to its topic and subscribers, on the accepting
    branch: the message gets the next sequence number; its targets are exactly
    the attached subscriptions whose QoS it satisfies; every other one has its
    mismatch counted, never dropped in silence, and reported exactly when it was
    not before; no other subscription changes. *)
Theorem publish_select_exact b t q m now en :
  bus_wf b -> topics_ b !! t = Some en -> fits 64 (qos_mismatches_ b) ->
  exists b' e,
    publish_select b t (te_type en) q m now =
      (b', Selected e (filter (fun id => accepts (heap b) q id = true) (te_subs en))
             (omap (report (heap b) q) (te_subs en)) (mismatch_handler_ b)) /\
    e = mkEnvelope m (te_published en +u 1) now /\
    (forall id, heap b' !! id =
       if bool_decide (id ∈ te_subs en) && rejects (heap b) q id
       then noted <$> heap b !! id else heap b !! id) /\
    qos_mismatches_ b' =
      qos_mismatches_ b +u Z.of_nat (countb (rejects (heap b) q) (te_subs en)) /\
    type_mismatches_ b' = type_mismatches_ b.
Proof.
  intros Hwf Hen Hf. unfold publish_select. rewrite Hen, Z.eqb_refl. simpl.
  set (a0 := mkScan (heap b) (qos_mismatches_ b) [] []).
  destruct (scan_exact q (te_subs en) a0 (wf_nodup b Hwf t en Hen)) as (Hh & Hm & Hq).
  destruct (scan_spec q (te_subs en) a0) as [_ Ht].
  do 2 eexists. split; [by rewrite Ht, Hm|]. split; [done|]. split; [exact Hh|].
  split; [|done]. simpl in *. rewrite <-Hq. symmetry. apply wrap_small.
  clear -Hf. unfold a0. generalize (te_subs en) as subs. intros subs.
  assert (forall a, fits 64 (sc_qos_mismatches a) ->
            fits 64 (sc_qos_mismatches (foldl (scan_sub q) a subs))) as H; [|by apply H].
  induction subs as [|x subs IH]; intros a Ha; simpl; [done|]. apply IH.
  unfold scan_sub. repeat case_match; simpl; auto with rdb lia.
Qed.

Lemma publish_select_exact_witness : exists tr σ en b' e,
  exec (bus_init 2 5) subscribed = Some (tr, σ) /\
  topics_ (bs_bus σ) !! "t"%string = Some en /\
  publish_select (bs_bus σ) "t" (te_type en) (sensor_data 1) 42 6 =
    (b', Selected e (filter (fun id => accepts (heap (bs_bus σ)) (sensor_data 1) id = true)
                       (te_subs en))
           (omap (report (heap (bs_bus σ)) (sensor_data 1)) (te_subs en))
           (mismatch_handler_ (bs_bus σ))) /\
  omap (report (heap (bs_bus σ)) (sensor_data 1)) (te_subs en) = [ReliabilityMismatch].
Proof.
  do 3 eexists. edestruct (publish_select_exact) as (b' & e & Hsel & _); cycle 3.
  - exists b', e. split; [run_it|]. split; [run_it|]. split; [exact Hsel|reflexivity].
  - eapply (run_bus_wf 2 5). ran subscribed.
  - reflexivity.
  - split; done.
Defined.

(** History for late joiners: after a publish with transient-local
    durability the topic keeps exactly the last [depth] messages of its history
    with the new one, and a transient-local subscription registered next is
    handed all of them, oldest first. *)
Theorem late_joiner_history b t ty q m now b' e targets ms h rq :
  publish_select b t ty q m now = (b', Selected e targets ms h) ->
  durability q = TransientLocal -> durability rq = TransientLocal -> 0 <= depth q ->
  exists en,
    topics_ b !! t = Some en /\
    (subscribe_register b' t ty rq).2 =
      Some (length (heap b), keep_last (Z.to_nat (depth q)) (te_latched en ++ [e])).
Proof.
  intros (en & Hen & Hty & _ & _ & [Hl _] & Hts)%select_spec Hq Hrq Hd. exists en.
  split; [done|]. unfold subscribe_register, ensure_topic.
  rewrite Hts, lookup_insert_eq. simpl. rewrite Hty, Z.eqb_refl. simpl.
  rewrite Hl, !bool_decide_true by done. by rewrite trim_keep_last.
Qed.

Lemma late_joiner_history_witness : exists b e en,
  publish_select (advertise new_bus "t" 7 (latched 1)).1 "t" 7 (latched 1) 42 9
    = (b, Selected e [] [] None) /\
  topics_ (advertise new_bus "t" 7 (latched 1)).1 !! "t"%string = Some en /\
  (subscribe_register b "t" 7 (latched 3)).2 =
    Some (0%nat, keep_last 1 (te_latched en ++ [e])).
Proof.
  edestruct (late_joiner_history (advertise new_bus "t" 7 (latched 1)).1 "t" 7 (latched 1) 42 9)
    as (en & Hen & Hr); [reflexivity|reflexivity| |done|].
  2: { do 3 eexists. split; [run_it|]. split; [exact Hen|exact Hr]. }
  reflexivity.
Defined.

(** A best-effort subscriber never holds a publisher up: every push into
    its queue returns at once, whatever the state of the queue. *)
Theorem best_effort_never_blocks id n now tr σ s e sec :
  run (bus_init n now) tr σ -> EvPush id e sec ∈ tr ->
  heap (bs_bus σ) !! id = Some s -> reliability (sub_qos s) = BestEffort ->
  exists st, sec_outcome sec = Returned st.
Proof.
  intros Hr Hin Hs Hrel. destruct (run_best_effort _ _ _ _ Hr) as [_ Hall].
  rewrite Forall_forall in Hall. destruct (Hall _ Hin) as (s' & Hs' & Hret). apply Hret. congruence.
Qed.

(** Two publishes into a best-effort queue of one place, never drained. *)
Lemma best_effort_never_blocks_witness :
  let q := sensor_data 1 in
  let cmds := [BSubscribe 0 "t" 7 q; BNext 0;
               BPublish 1 (scenario_pub q) 1; BNext 1; BNext 1; BNext 1; BNext 1;
               BPublish 1 (scenario_pub q) 2; BNext 1; BNext 1; BNext 1] in
  exists tr σ s e sec,
    exec (bus_init 2 5) cmds = Some (tr, σ) /\ tr !! 10%nat = Some (EvPush 0 e sec) /\
    heap (bs_bus σ) !! 0%nat = Some s /\ (exists st, sec_outcome sec = Returned st) /\
    sec_discarded sec = [mkEnvelope 1 1 5].
Proof.
  intros q cmds. do 5 eexists. split; [run_it|]. split; [run_it|].
  split; [run_it|]. split; [|reflexivity].
  eapply (best_effort_never_blocks 0 2 5); [ran cmds| |reflexivity|reflexivity].
  do 10 (apply list_elem_of_further). apply list_elem_of_here.
Defined.

(** C34: a publish always comes back: from the moment its targets are chosen, the
    call reaches its return by its own steps and the passing of at most the
    reliable timeout per target, with no step of any subscriber, worker or other
    client: a stuck subscriber cannot hang the publisher. *)
Theorem publish_completes n now0 tr0 b cs now i topic ms h e targets :
  run (bus_init n now0) tr0 (mkState b cs now) ->
  cs !! i = Some (CNotify topic ms h e targets) ->
  0 <= reliable_timeout_ b -> tp_min <= now ->
  now + zlen targets * reliable_timeout_ b < tp_max ->
  exists tr b' now' acc,
    run (mkState b cs now) (tr ++ [EvPublished e acc]) (mkState b' (<[i := CIdle]> cs) now') /\
    sub_worker <$> heap b' = sub_worker <$> heap b /\
    now <= now' <= now + zlen targets * reliable_timeout_ b.
Proof.
  intros Hr Hi Ht Hnow Hmax. pose proof (run_refs _ _ _ _ Hr) as Hrefs. unfold refs_inv in Hrefs.
  rewrite Forall_lookup in Hrefs. specialize (Hrefs i _ Hi).
  destruct (publishing_returns b cs now i _ e Hi) as (tr & b' & now' & acc & Hr' & (_ & _ & Hw) & Hn);
    [done|exact (run_bus_wf _ _ _ _ Hr)|done..|].
  exists tr, b', now', acc. done.
Qed.

(** A reliable subscriber whose worker never runs, with a full queue. *)
Lemma publish_completes_witness :
  let q := Qos.command 1 in
  let cmds := [BSubscribe 0 "t" 7 q; BNext 0;
               BPublish 1 (scenario_pub q) 1; BNext 1; BNext 1; BNext 1; BNext 1;
               BPublish 1 (scenario_pub q) 2; BNext 1] in
  exists tr0 σ tr σ' e acc,
    exec (bus_init 2 5) cmds = Some (tr0, σ) /\
    run σ (tr ++ [EvPublished e acc]) σ' /\ bs_clock σ' <= 5 + 100 * 1000 * 1000.
Proof.
  intros q cmds.
  edestruct publish_completes with (n := 2%nat) (now0 := 5) (i := 1%nat)
    as (tr & b' & now' & acc & Hr & _ & Hn);
    [ran cmds|reflexivity|done|done|done|].
  do 6 eexists. split; [run_it|]. split; [exact Hr|]. apply Hn.
Defined.

(** C33: [unsubscribe] is final: once the call has passed the join of the
    subscription's thread, no later publish targets the subscription, what is
    still underway to it is refused, and its callback is never entered again
    (as long as no [subscribe] is still about to start it: that race is
    [shutdown_leaves_worker]). *)
Theorem unsubscribe_is_final n now tr b cs clk i id ids ev σ1 tr' σ2 :
  run (bus_init n now) tr (mkState b cs clk) ->
  cs !! i = Some (CJoin id ids) ->
  (forall j backlog, cs !! j <> Some (CBacklog id backlog)) ->
  step (mkState b cs clk) ev σ1 -> bs_clients σ1 !! i = Some (CStop ids) ->
  run σ1 tr' σ2 -> Forall (leaves_alone id) tr'.
Proof.
  intros Hr Hi Hcl Hs H1 Hr'. eapply stopped_run; [|exact Hr'].
  pose proof (run_stop_inv _ _ _ _ Hr) as Hinv. unfold stop_inv in Hinv.
  rewrite Forall_lookup in Hinv. destruct (Hinv i _ Hi) as [Hclosed Hdet].
  apply Forall_cons in Hdet as [Hdet _]. simpl in Hclosed, Hdet.
  by eapply joined_stopped.
Qed.

Lemma unsubscribe_is_final_witness :
  let cmds := scenario ++ [BUnsubscribe 0 0; BNext 0; BWork 0] in
  let pub := [BPublish 1 (scenario_pub (Qos.command 2)) 43; BNext 1; BNext 1; BNext 1] in
  exists tr σ σ1 tr' σ2,
    exec (bus_init 2 5) cmds = Some (tr, σ) /\ bus_exec1 σ (BNext 0) = Some (EvInternal, σ1) /\
    exec σ1 pub = Some (tr', σ2) /\ Forall (leaves_alone 0) tr'.
Proof.
  intros cmds pub. do 5 eexists. split; [run_it|]. split; [run_it|].
  split; [run_it|].
  eapply (unsubscribe_is_final 2 5 _ _ _ _ 0 0 []).
  - ran cmds.
  - run_it.
  - by intros [|[|[|j]]] backlog.
  - apply (bus_exec1_sound _ (BNext 0)). run_it.
  - run_it.
  - ran pub.
Defined.

(** The worker's test before a callback, in true integers: an envelope is
    discarded exactly when the subscription has a lifespan and the envelope is
    older than it; otherwise it is delivered, and a deadline miss is counted
    exactly when a deadline is set, something was delivered before, and the gap
    since then exceeds the deadline. *)
Theorem deliver_check_exact s e now :
  fits 64 (publish_ns e) -> fits 64 now -> 0 <= last_delivery_ns s <= now ->
  lifespan (sub_qos s) < 2 ^ 63 -> deadline (sub_qos s) < 2 ^ 63 ->
  deliver_check s e now =
    if (0 <? lifespan (sub_qos s)) && (lifespan (sub_qos s) <? now - publish_ns e) then
      (with_counts s (delivered s) (expired s +u 1) (deadline_missed s) (qos_rejected s)
         (last_delivery_ns s) (mismatch_reported s), false)
    else
      (with_counts s (delivered s) (expired s)
         (if (0 <? deadline (sub_qos s)) && negb (last_delivery_ns s =? 0)
             && (deadline (sub_qos s) <? now - last_delivery_ns s)
          then deadline_missed s +u 1 else deadline_missed s)
         (qos_rejected s) now (mismatch_reported s), true).
Proof.
  intros Hp Hn Hl Hls Hdl. unfold deliver_check.
  replace (is_expired _ _ _) with
    ((0 <? lifespan (sub_qos s)) && (lifespan (sub_qos s) <? now - publish_ns e)).
  2: { unfold is_expired, effective_lifespan, fits in *.
       destruct (Z.ltb_spec 0 (lifespan (sub_qos s))); [|done].
       rewrite (wrap_small 64 (lifespan _)) by (unfold fits; lia).
       destruct (Z.ltb_spec (publish_ns e) now).
       - rewrite (wrap_small 64 (now - _)) by (unfold fits; lia). repeat case_bool; simpl; lia.
       - repeat case_bool; simpl; lia. }
  case_match; [done|].
  replace (misses_deadline _ _ _) with
    ((0 <? deadline (sub_qos s)) && negb (last_delivery_ns s =? 0)
     && (deadline (sub_qos s) <? now - last_delivery_ns s)); [done|].
  unfold misses_deadline, fits in *. destruct (Z.ltb_spec 0 (deadline (sub_qos s))); [|done].
  rewrite !(wrap_small 64) by (unfold fits; lia). done.
Qed.

Lemma deliver_check_exact_witness :
  let s := new_subscription "t" 7 (mkQoS Reliable Volatile KeepLast 2 0 10) in
  (deliver_check s (mkEnvelope 42 1 5) 20).2 = false /\
  (deliver_check s (mkEnvelope 42 1 10) 20).2 = true.
Proof.
  intros s. split; (rewrite (deliver_check_exact s); [reflexivity|done..]).
Defined.
End properties.
