(* ===== verification/BusFindings.v ===== *)
(** * BusFindings

    Interleavings and configurations in which [TopicBus] does less than its
    comments say, each one a concrete execution. *)

From S2P Require Import Prelude Lts BoundedQueue Qos TopicBus BusSystem BusFlow BusScheduler.
From stdpp Require Import strings.
Open Scope Z_scope.

Definition on_topic (q : QoS) : Publisher := mkPublisher true "t" 7 q.

(** One whole publish call by client [i], to one target or to none. *)
Definition publish_one (i : nat) (q : QoS) (message : Z) : list BusScheduler.command :=
  [BPublish i (on_topic q) message; BNext i; BNext i; BNext i; BNext i].
Definition publish_none (i : nat) (q : QoS) (message : Z) : list BusScheduler.command :=
  [BPublish i (on_topic q) message; BNext i; BNext i; BNext i].

(** The worker delivers one envelope. *)
Definition work_one (id : nat) : list BusScheduler.command := [BWork id; BWork id; BWork id].

(** Evaluate a conjunction of equations. *)
Ltac run_all :=
  cbv zeta; repeat lazymatch goal with |- _ /\ _ => split; [vm_compute; reflexivity|] end;
  vm_compute; reflexivity.

(** What the callback of subscription 0 saw. *)
Definition callback_values (o : option (list event * bus_state)) : option (list Z) :=
  (fun r => payload <$> callbacks 0 r.1) <$> o.

(** The subscription is attached to its topic before its history is pushed, and
    the history is pushed outside the lock: a message published in between is
    delivered first, although it is newer. *)
Example late_joiner_overtaken :
  let q := latched 3 in
  callback_values (exec (bus_init 2 5)
    ([BAdvertise 1 "t" 7 q] ++ publish_none 1 q 10 ++
     [BSubscribe 0 "t" 7 q] ++      (* registered; history [10] not yet pushed *)
     publish_one 1 q 20 ++          (* 20 goes straight into the queue *)
     [BNext 0; BNext 0] ++ work_one 0 ++ work_one 0))
  = Some [20; 10].
Proof. vm_compute. reflexivity. Qed.

(** [try_push] never waits, so a reliable subscription with a queue shorter than
    the history loses the newest of it, and nothing counts the loss. *)
Example late_joiner_truncated :
  let q := latched 3 in
  exists tr σ s,
    exec (bus_init 2 5)
      ([BAdvertise 1 "t" 7 q] ++ publish_none 1 q 10 ++ publish_none 1 q 20 ++
       [BSubscribe 0 "t" 7 (latched 1); BNext 0; BNext 0; BNext 0] ++ work_one 0)
      = Some (tr, σ) /\
    payload <$> callbacks 0 tr = [10] /\
    heap (bs_bus σ) !! 0%nat = Some s /\ dropped_ (sub_queue s) = 0.
Proof. do 3 eexists. run_all. Qed.

(** The history is handed over without the compatibility check that every
    publish applies: a reliable subscriber receives the retained message of a
    best-effort publisher that it refuses. *)
Example incompatible_history_delivered :
  let offered := mkQoS BestEffort TransientLocal KeepLast 3 0 0 in
  check_compatible offered (latched 3) = ReliabilityMismatch /\
  callback_values (exec (bus_init 2 5)
    ([BAdvertise 1 "t" 7 offered] ++ publish_none 1 offered 10 ++
     [BSubscribe 0 "t" 7 (latched 3); BNext 0; BNext 0] ++ work_one 0))
  = Some [10].
Proof. run_all. Qed.

(** [shutdown] that runs between the registration of a subscription and the
    start of its thread finds nothing to join: it returns, and the thread
    started afterwards is not joined by it. *)
Example shutdown_leaves_worker :
  exists tr σ s,
    exec (bus_init 2 5)
      [BSubscribe 0 "t" 7 (Qos.command 1);
       BShutdown 1; BNext 1; BNext 1; BNext 1;      (* shutdown returns here *)
       BNext 0]                                     (* subscribe starts the thread *)
      = Some (tr, σ) /\
    bs_clients σ = [CIdle; CIdle] /\
    heap (bs_bus σ) !! 0%nat = Some s /\ sub_worker s = WPopping.
Proof. do 3 eexists. run_all. Qed.

(** A handle can be copied: two clients that unsubscribe copies of one handle
    both come to the join of the same thread. *)
Example both_join :
  exists tr σ s,
    exec (bus_init 2 5)
      [BSubscribe 0 "t" 7 (Qos.command 1); BNext 0; BUnsubscribe 0 0; BUnsubscribe 1 0; BNext 0; BNext 1]
      = Some (tr, σ) /\
    bs_clients σ = [CJoin 0 []; CJoin 0 []] /\
    heap (bs_bus σ) !! 0%nat = Some s /\ sub_worker s = WPopping.
Proof. do 3 eexists. run_all. Qed.
