(* ===== verification/BusErrors.v ===== *)
(** * BusErrors

    The calls of [TopicBus] that fail: a publisher without a bus, a topic that
    nobody advertised, a type other than the topic's. *)

From S2P Require Import Prelude Lts BoundedQueue Qos TopicBus BusSystem BusInvariants BusScheduler BusTheorems.
From stdpp Require Import strings.
Open Scope Z_scope.

(** The bus after a publish of the wrong type. *)
Definition mismatch_noted (b : TopicBus) : TopicBus :=
  mkBus (topics_ b) (heap b) (mismatch_handler_ b) (qos_mismatches_ b)
    (type_mismatches_ b +u 1) (reliable_timeout_ b).

Lemma run_topics_kept σ0 tr σ : run σ0 tr σ -> topics_kept (bs_bus σ0) (bs_bus σ).
Proof.
  induction 1 as [|tr ev σ σ' _ IH Hs]; [intros t e He; eauto|].
  intros t e He. destruct (IH t e He) as (e1 & He1 & Hty).
  destruct (proj1 (change_kept _ _ (step_change _ _ _ Hs)) t e1 He1) as (e2 & He2 & Hty2).
  exists e2. split; [done|congruence].
Qed.

Lemma subscribe_conflict b t ty q en :
  topics_ b !! t = Some en -> te_type en <> ty -> subscribe_register b t ty q = (b, None).
Proof.
  intros Hen Hty. unfold subscribe_register, ensure_topic. rewrite Hen. simpl.
  rewrite (proj2 (Z.eqb_neq _ _)) by done. by destruct b.
Qed.

Lemma subscribe_accepted b t q en :
  topics_ b !! t = Some en -> is_Some (subscribe_register b t (te_type en) q).2.
Proof.
  intros Hen. unfold subscribe_register, ensure_topic. rewrite Hen. simpl.
  rewrite Z.eqb_refl. simpl. eauto.
Qed.

Lemma publish_conflict b t ty q m now en :
  topics_ b !! t = Some en -> te_type en <> ty ->
  publish_select b t ty q m now = (mismatch_noted b, WrongType).
Proof.
  intros Hen Hty. unfold publish_select. rewrite Hen. by rewrite (proj2 (Z.eqb_neq _ _)) by done.
Qed.

Lemma publish_accepted b t q m now en :
  topics_ b !! t = Some en ->
  exists e targets ms, (publish_select b t (te_type en) q m now).2 =
                       Selected e targets ms (mismatch_handler_ b).
Proof.
  intros Hen. unfold publish_select. rewrite Hen, Z.eqb_refl. simpl. eauto.
Qed.

(** The publish calls that a run rejects after they reached the bus. *)
Definition reached_and_rejected (ev : event) : bool :=
  match ev with EvReject p => pub_valid p | _ => false end.

(** Only a publisher that has a bus gets as far as stamping its message. *)
Definition stamped_valid (σ : bus_state) : Prop :=
  forall i p m t, bs_clients σ !! i = Some (CStamped p m t) -> pub_valid p = true.

Lemma after_target_not_stamped e id targets acc s p m t :
  after_target e id targets acc s <> CStamped p m t.
Proof. unfold after_target. by destruct (sec_outcome s). Qed.

Lemma step_stamped_valid σ ev σ' : stamped_valid σ -> step σ ev σ' -> stamped_valid σ'.
Proof.
  intros Hv Hs j p0 m0 t0. specialize (Hv j p0 m0 t0).
  destruct Hs; simpl in *; try done;
    intros [(_ & E & _)|[_ E]]%list_lookup_insert_Some;
    first [by apply Hv|by apply after_target_not_stamped in E|by simplify_eq].
Qed.

Lemma init_stamped_valid n now : stamped_valid (bus_init n now).
Proof. intros i p m t Hi. by apply lookup_replicate in Hi as [? _]. Qed.

Lemma run_stamped_valid n now tr σ : run (bus_init n now) tr σ -> stamped_valid σ.
Proof. apply run_invariant; [apply init_stamped_valid|apply step_stamped_valid]. Qed.

(** The counter is a word. *)
Lemma publish_type_mismatches b t ty q m now b' sel :
  publish_select b t ty q m now = (b', sel) ->
  type_mismatches_ b' =
    match sel with WrongType => type_mismatches_ b +u 1 | _ => type_mismatches_ b end.
Proof.
  unfold publish_select. destruct (topics_ b !! t) as [en|]; [|by intros [= <- <-]].
  destruct (negb _); by intros [= <- <-].
Qed.

Lemma subscribe_type_mismatches b t ty q b' r :
  subscribe_register b t ty q = (b', r) -> type_mismatches_ b' = type_mismatches_ b.
Proof.
  unfold subscribe_register. destruct (ensure_topic _ _ _). destruct (negb _); by intros [= <- <-].
Qed.

Lemma step_type_mismatches_fits σ ev σ' :
  fits 64 (type_mismatches_ (bs_bus σ)) -> step σ ev σ' -> fits 64 (type_mismatches_ (bs_bus σ')).
Proof.
  intros Hf Hs. destruct Hs; simpl in *; try done.
  - erewrite publish_type_mismatches by done. destruct sel; auto with rdb lia.
  - by erewrite publish_type_mismatches by done.
  - by erewrite subscribe_type_mismatches by done.
  - by erewrite subscribe_type_mismatches by done.
Qed.

Lemma run_type_mismatches_fits n now tr σ :
  run (bus_init n now) tr σ -> fits 64 (type_mismatches_ (bs_bus σ)).
Proof.
  apply (run_invariant (fun σ => fits 64 (type_mismatches_ (bs_bus σ))));
    [done|apply step_type_mismatches_fits].
Qed.

(** What a step does to the counter of type mismatches. *)
Lemma step_type_mismatches σ ev σ' :
  stamped_valid σ -> step σ ev σ' ->
  (forall p, ev = EvReject p -> pub_valid p = true -> is_Some (topics_ (bs_bus σ) !! pub_topic p)) ->
  type_mismatches_ (bs_bus σ') =
    if reached_and_rejected ev then type_mismatches_ (bs_bus σ) +u 1 else type_mismatches_ (bs_bus σ).
Proof.
  intros Hv Hs Hk. destruct Hs; simpl in *; try done;
    try (by erewrite publish_type_mismatches by done);
    try (by erewrite subscribe_type_mismatches by done).
  - by match goal with H : pub_valid _ = false |- _ => rewrite H end.
  - match goal with
    | Hi : cs !! _ = Some _, Hsel : publish_select _ _ _ _ _ _ = _, Hrej : _ \/ _ |- _ =>
        rewrite (Hv _ _ _ _ Hi); destruct (Hk p eq_refl (Hv _ _ _ _ Hi)) as [en Hen];
        rewrite (publish_type_mismatches _ _ _ _ _ _ _ _ Hsel);
        destruct sel; [|done|by destruct Hrej]; unfold publish_select in Hsel; rewrite Hen in Hsel
    end.
    by destruct (negb _).
Qed.

(** ** The concrete run the properties are tried on: somebody advertises topic
    [t] with type 7, then a publisher of type 8 tries it. *)

Definition wrong_pub : Publisher := mkPublisher true "t" 8 (Qos.command 2).

Definition advertised : list BusScheduler.command := [BAdvertise 0 "t" 7 (Qos.command 2)].

Definition wrong_publish : list BusScheduler.command :=
  [BPublish 1 wrong_pub 42; BNext 1; BPublish 1 wrong_pub 43; BNext 1].

Definition after_exec (σ : bus_state) (cs : list BusScheduler.command) : bus_state :=
  match exec σ cs with Some (_, σ') => σ' | None => σ end.

Definition advertised_state : bus_state := after_exec (bus_init 2 5) advertised.
Definition refused_state : bus_state := after_exec advertised_state wrong_publish.

Lemma advertised_run : run (bus_init 2 5) [EvInternal] advertised_state.
Proof. apply (exec_sound _ advertised). vm_compute. reflexivity. Qed.

Lemma refused_run :
  run advertised_state [EvInternal; EvReject wrong_pub; EvInternal; EvReject wrong_pub] refused_state.
Proof. apply (exec_sound _ wrong_publish). vm_compute. reflexivity. Qed.

Section properties.
Implicit Types (σ : bus_state) (t : string) (ty m : Z) (q : QoS).

(** C11: type errors are decided when a topic is first named and for good: from
    then on, whatever happens, a subscribe and a publish of another type fail, the
    first without any effect and the second with no other effect than one more type
    mismatch; and a subscribe and a publish of the topic's type never fail. *)
Theorem type_errors_exact σ0 tr σ t en ty q m now :
  run σ0 tr σ -> topics_ (bs_bus σ0) !! t = Some en ->
  if ty =? te_type en then
    is_Some (subscribe_register (bs_bus σ) t ty q).2 /\
    exists e targets ms, (publish_select (bs_bus σ) t ty q m now).2 =
                         Selected e targets ms (mismatch_handler_ (bs_bus σ))
  else
    subscribe_register (bs_bus σ) t ty q = (bs_bus σ, None) /\
    publish_select (bs_bus σ) t ty q m now = (mismatch_noted (bs_bus σ), WrongType).
Proof.
  intros Hr Hen. destruct (run_topics_kept _ _ _ Hr t en Hen) as (e & He & Hty).
  rewrite <-Hty. destruct (Z.eqb_spec ty (te_type e)) as [->|Hne].
  - split; [by apply subscribe_accepted|by apply publish_accepted].
  - split; [eapply subscribe_conflict|eapply publish_conflict]; done || congruence.
Qed.

Lemma type_errors_exact_witness :
  subscribe_register (bs_bus refused_state) "t" 8 (Qos.command 2) = (bs_bus refused_state, None) /\
  publish_select (bs_bus refused_state) "t" 8 (Qos.command 2) 44 5 =
    (mismatch_noted (bs_bus refused_state), WrongType).
Proof.
  apply (type_errors_exact _ _ _ "t" (mkTopicEntry 7 [] [] 0) 8 (Qos.command 2) 44 5 refused_run).
  vm_compute. reflexivity.
Defined.

(** And they are all counted: as long as publishers use topics that exist
    (those they advertised), the counter of type mismatches grows by exactly the
    number of calls of publish that reached the bus and returned false before
    choosing their targets. *)
Theorem type_mismatches_exact n now tr0 σ0 tr σ :
  run (bus_init n now) tr0 σ0 -> run σ0 tr σ ->
  (forall p, EvReject p ∈ tr -> pub_valid p = true -> is_Some (topics_ (bs_bus σ0) !! pub_topic p)) ->
  type_mismatch_count (bs_bus σ) =
    type_mismatch_count (bs_bus σ0) +u Z.of_nat (countb reached_and_rejected tr).
Proof.
  unfold type_mismatch_count. intros Hr0 Hr. pose proof (run_stamped_valid _ _ _ _ Hr0) as Hv0.
  induction Hr as [|tr ev σ σ' Hr IH Hs]; intros Hk.
  { rewrite Z.add_0_r. symmetry. apply wrap_small. eapply run_type_mismatches_fits, Hr0. }
  rewrite (step_type_mismatches _ _ _ (run_stamped_valid _ _ _ _ (run_trans _ _ _ _ _ Hr0 Hr)) Hs).
  - rewrite IH by (intros p Hp; apply Hk; set_solver). rewrite countb_app, countb_cons, countb_nil.
    destruct (reached_and_rejected ev); simpl Z.b2z; rewrite ?wrap_add_l; f_equal; lia.
  - intros p -> Hp. destruct (Hk p ltac:(set_solver) Hp) as [en Hen].
    destruct (run_topics_kept _ _ _ Hr _ _ Hen) as (e & He & _). eauto.
Qed.

Lemma type_mismatches_exact_witness :
  type_mismatch_count (bs_bus refused_state) = type_mismatch_count (bs_bus advertised_state) +u 2 /\
  type_mismatch_count (bs_bus refused_state) = 2.
Proof.
  split; [|vm_compute; reflexivity].
  apply (type_mismatches_exact 2 5 _ _ _ _ advertised_run refused_run).
  intros p Hp _. assert (pub_topic p = "t"%string) as ->.
  { rewrite !elem_of_cons in Hp. destruct Hp as [Hp|[Hp|[Hp|[Hp|Hp]]]];
      [discriminate Hp|by injection Hp as ->|discriminate Hp|by injection Hp as ->|].
    by apply elem_of_nil in Hp. }
  by eexists.
Defined.
End properties.
