(* ===== verification/Bytes.v ===== *)
(** * Bytes

    Bytes in memory, and the little-endian loops that the message header and
    the frame codec share:
      for (i) out[i] = (v >> (8 * i)) & 0xFF
      for (i) v |= in[i] << (8 * i)
    A buffer is the memory from a pointer on; an access past its end is
    undefined behaviour, [None]. *)

From S2P Require Import Prelude.

Definition Z_of_byte (b : byte) : Z := Z.of_N (Byte.to_N b).

(** [static_cast<std::byte>]: the low eight bits. *)
Definition byte_of_Z (z : Z) : byte :=
  match Byte.of_N (Z.to_N (wrap 8 z)) with Some b => b | None => x00 end.

(** [out[i] = b]. *)
Definition store (buf : list byte) (i : nat) (b : byte) : option (list byte) :=
  if (i <? length buf)%nat then Some (<[i := b]> buf) else None.

(** The store loop on [out + off], from index [i], for [k] more bytes. *)
Fixpoint put_loop (k i : nat) (buf : list byte) (off : nat) (v : Z) : option (list byte) :=
  match k with
  | O => Some buf
  | S k =>
      buf' ← store buf (off + i) (byte_of_Z (Z.land (Z.shiftr v (8 * Z.of_nat i)) 255));
      put_loop k (S i) buf' off v
  end.

(** The load loop on [in + off], in a [w]-bit accumulator. *)
Fixpoint get_loop (w : Z) (k i : nat) (buf : list byte) (off : nat) (v : Z) : option Z :=
  match k with
  | O => Some v
  | S k =>
      b ← buf !! (off + i)%nat;
      get_loop w k (S i) buf off
        (Z.lor v (wrap w (Z.shiftl (Z_of_byte b) (8 * Z.of_nat i))))
  end.

(** ** What the loops compute *)

(** The [n] low bytes of [v], least significant first, and the value of a byte
    list read the same way. *)
Fixpoint le_bytes (n : nat) (v : Z) : list byte :=
  match n with
  | O => []
  | S n => byte_of_Z v :: le_bytes n (Z.shiftr v 8)
  end.

Fixpoint le_value (l : list byte) : Z :=
  match l with
  | [] => 0
  | b :: l => Z_of_byte b + 256 * le_value l
  end.

Lemma Z_of_byte_bound b : 0 <= Z_of_byte b < 256.
Proof. unfold Z_of_byte. pose proof (Byte.to_N_bounded b). lia. Qed.

Lemma Z_of_byte_of_Z z : Z_of_byte (byte_of_Z z) = z `mod` 256.
Proof.
  unfold byte_of_Z, Z_of_byte, wrap. change (2 ^ 8) with 256.
  pose proof (Z.mod_pos_bound z 256 ltac:(lia)) as Hb.
  destruct (Byte.of_N _) as [b|] eqn:Hx.
  - apply Byte.to_of_N in Hx. rewrite Hx. lia.
  - apply Byte.of_N_None_iff in Hx. lia.
Qed.

Lemma byte_of_Z_of_byte b : byte_of_Z (Z_of_byte b) = b.
Proof.
  pose proof (Z_of_byte_bound b). unfold byte_of_Z, wrap. rewrite Z.mod_small by done.
  unfold Z_of_byte. rewrite N2Z.id. by rewrite Byte.of_to_N.
Qed.

Lemma Z_of_byte_inj b c : Z_of_byte b = Z_of_byte c -> b = c.
Proof. intros H. rewrite <-(byte_of_Z_of_byte b), <-(byte_of_Z_of_byte c). by rewrite H. Qed.

Lemma byte_of_Z_mod z : byte_of_Z (z `mod` 256) = byte_of_Z z.
Proof. apply Z_of_byte_inj. rewrite !Z_of_byte_of_Z. apply Zmod_mod. Qed.

Lemma byte_of_Z_land z : byte_of_Z (Z.land z 255) = byte_of_Z z.
Proof. change 255 with (Z.ones 8). rewrite Z.land_ones by lia. apply byte_of_Z_mod. Qed.

Lemma length_le_bytes n v : length (le_bytes n v) = n.
Proof. revert v. induction n; simpl; auto. Qed.

Lemma le_value_bound l : 0 <= le_value l < 2 ^ (8 * zlen l).
Proof.
  induction l as [|b l IH]; [done|]. cbn [le_value]. rewrite zlen_cons.
  pose proof (Z_of_byte_bound b). pose proof (zlen_nonneg l).
  replace (8 * (zlen l + 1)) with (8 + 8 * zlen l) by lia.
  rewrite Z.pow_add_r by lia. change (2 ^ 8) with 256. nia.
Qed.

(** Encoding then decoding keeps the low bytes. *)
Lemma le_value_bytes n v : le_value (le_bytes n v) = wrap (8 * Z.of_nat n) v.
Proof.
  revert v. induction n as [|n IH]; intros v; [symmetry; apply Z.mod_1_r|].
  cbn [le_bytes le_value]. rewrite IH, Z_of_byte_of_Z. unfold wrap.
  rewrite Z.shiftr_div_pow2 by lia. change (2 ^ 8) with 256.
  replace (8 * Z.of_nat (S n)) with (8 + 8 * Z.of_nat n) by lia.
  rewrite Z.pow_add_r by lia. change (2 ^ 8) with 256.
  rewrite Z.rem_mul_r by lia. done.
Qed.

(** Decoding then encoding gives the bytes back. *)
Lemma le_bytes_value l : le_bytes (length l) (le_value l) = l.
Proof.
  induction l as [|b l IH]; [done|]. cbn [le_value length le_bytes].
  pose proof (Z_of_byte_bound b). f_equal.
  - rewrite <-byte_of_Z_mod, Z.mul_comm, Z.mod_add by lia.
    rewrite byte_of_Z_mod. apply byte_of_Z_of_byte.
  - rewrite Z.shiftr_div_pow2 by lia. change (2 ^ 8) with 256.
    rewrite Z.mul_comm, Z.div_add, Z.div_small by lia. exact IH.
Qed.

Lemma store_app pre x post b : store (pre ++ x :: post) (length pre) b = Some (pre ++ b :: post).
Proof.
  unfold store. rewrite length_app. simpl. case_match eqn:Hlt; [|apply Nat.ltb_ge in Hlt; lia].
  f_equal. rewrite insert_app_r_alt by lia. by rewrite Nat.sub_diag.
Qed.

(** The store loop replaces [k] bytes. *)
Lemma put_loop_app k i pre pre' old post off v :
  off = length pre -> length pre' = i -> length old = k ->
  put_loop k i (pre ++ pre' ++ old ++ post) off v =
    Some (pre ++ pre' ++ le_bytes k (Z.shiftr v (8 * Z.of_nat i)) ++ post).
Proof.
  intros -> Hi. revert i pre' Hi old. induction k as [|k IH]; intros i pre' Hi old Hk.
  { apply length_zero_iff_nil in Hk as ->. done. }
  destruct old as [|x old]; [done|]. injection Hk as Hk. cbn [put_loop le_bytes].
  rewrite app_assoc. cbn [app].
  replace (length pre + i)%nat with (length (pre ++ pre')) by (rewrite length_app; lia).
  rewrite store_app. simpl. rewrite <-app_assoc.
  set (c := byte_of_Z _). 
  specialize (IH (S i) (pre' ++ [c]) ltac:(rewrite length_app; simpl; lia) old Hk).
  rewrite <-!app_assoc in IH. cbn [app] in IH. rewrite IH.
  f_equal. unfold c. rewrite byte_of_Z_land, Z.shiftr_shiftr by lia.
  by replace (8 * Z.of_nat i + 8) with (8 * Z.of_nat (S i)) by lia.
Qed.

(** The form in which a sequence of stores is followed: [done] is written. *)
Lemma put_loop_next n wrote rest off v :
  off = length wrote -> (n <= length rest)%nat ->
  put_loop n 0 (wrote ++ rest) off v = Some ((wrote ++ le_bytes n v) ++ drop n rest).
Proof.
  intros Hoff Hn. pose proof (put_loop_app n 0 wrote [] (take n rest) (drop n rest) off v Hoff) as H.
  cbn [app] in H. rewrite take_drop, <-app_assoc in *. rewrite H; [|done|by rewrite length_take_le].
  by rewrite Z.shiftr_0_r.
Qed.

(** Disjoint bits add up. *)
Lemma lor_add a b n : 0 <= n -> 0 <= a < 2 ^ n -> Z.lor a (b * 2 ^ n) = a + b * 2 ^ n.
Proof.
  intros Hn Ha. symmetry. apply Z.add_nocarry_lor. rewrite <-Z.shiftl_mul_pow2 by done.
  apply Z.bits_inj'. intros m Hm. rewrite Z.land_spec, Z.bits_0.
  destruct (Z.ltb_spec m n).
  - rewrite Z.shiftl_spec_low by lia. apply andb_false_r.
  - rewrite <-(Z.mod_small a (2 ^ n)) by done. rewrite Z.mod_pow2_bits_high by lia. done.
Qed.

Lemma le_value_snoc l b i :
  length l = i -> le_value l + Z_of_byte b * 2 ^ (8 * Z.of_nat i) = le_value (l ++ [b]).
Proof.
  intros <-. induction l as [|y l IH]; [simpl; lia|]. cbn [le_value app length]. rewrite <-IH.
  replace (8 * Z.of_nat (S (length l))) with (8 + 8 * Z.of_nat (length l)) by lia.
  rewrite Z.pow_add_r by lia. change (2 ^ 8) with 256. lia.
Qed.

(** The load loop reads [k] bytes, in a word wide enough for them. *)
Lemma get_loop_app w k i pre pre' mid post off :
  off = length pre -> length pre' = i -> length mid = k -> 8 * (Z.of_nat i + Z.of_nat k) <= w ->
  get_loop w k i (pre ++ pre' ++ mid ++ post) off (le_value pre') =
    Some (le_value (pre' ++ mid)).
Proof.
  intros -> Hi Hk. revert i pre' Hi mid Hk.
  induction k as [|k IH]; intros i pre' Hi mid Hk Hw.
  { apply length_zero_iff_nil in Hk as ->. by rewrite app_nil_r. }
  destruct mid as [|x mid]; [done|]. injection Hk as Hk. cbn [get_loop].
  rewrite app_assoc. cbn [app].
  rewrite (list_lookup_middle _ _ _ (length pre + i)) by (rewrite length_app; lia). simpl.
  rewrite <-app_assoc.
  assert (Hx : Z.lor (le_value pre') (wrap w (Z_of_byte x ≪ (8 * Z.of_nat i)))
               = le_value (pre' ++ [x])).
  { pose proof (Z_of_byte_bound x) as Hb. pose proof (le_value_bound pre') as Hv.
    unfold zlen in Hv. rewrite Hi in Hv.
    assert (0 < 2 ^ (8 * Z.of_nat i)) as Hpos by (apply Z.pow_pos_nonneg; lia).
    assert (2 ^ (8 + 8 * Z.of_nat i) <= 2 ^ w) as Hle by (apply Z.pow_le_mono_r; lia).
    rewrite Z.pow_add_r in Hle by lia. change (2 ^ 8) with 256 in Hle.
    rewrite Z.shiftl_mul_pow2 by lia. rewrite wrap_small by (unfold fits; nia).
    rewrite lor_add by lia. apply le_value_snoc. done. }
  rewrite Hx. specialize (IH (S i) (pre' ++ [x]) ltac:(rewrite length_app; simpl; lia) mid Hk ltac:(lia)).
  rewrite <-!app_assoc in IH. cbn [app] in IH. by rewrite IH.
Qed.

Lemma get_loop_next w n read rest off :
  off = length read -> (n <= length rest)%nat -> 8 * Z.of_nat n <= w ->
  get_loop w n 0 (read ++ rest) off 0 = Some (le_value (take n rest)).
Proof.
  intros Hoff Hn Hw.
  pose proof (get_loop_app w n 0 read [] (take n rest) (drop n rest) off Hoff eq_refl) as H.
  cbn [app] in H. rewrite take_drop in H. rewrite <-H; [done|by rewrite length_take_le|lia].
Qed.

Lemma get_loop_at w n buf off :
  (off + n <= length buf)%nat -> 8 * Z.of_nat n <= w ->
  get_loop w n 0 buf off 0 = Some (le_value (take n (drop off buf))).
Proof.
  intros Hn Hw. rewrite <-(take_drop off buf) at 1.
  apply get_loop_next; [|rewrite length_drop; lia|done]. rewrite length_take. lia.
Qed.
