(* ===== verification/Header.v ===== *)
(** * Header

    The fixed-length message header and the schema fingerprint
    (code/include/rdb/msg/header.h). *)

From S2P Require Import Prelude Bytes.

Definition kMessageMagic : Z := 0x31424452.
Definition kMessageVersion : Z := 1.
Definition kHeaderSize : Z := 48.

(** [enum MessageFlags : uint16_t]. *)
Definition kFlagNone : Z := 0.
Definition kFlagCompressed : Z := Z.shiftl 1 0.
Definition kFlagKeyFrame : Z := Z.shiftl 1 1.
Definition kFlagFragment : Z := Z.shiftl 1 2.
Definition kFlagLastFragment : Z := Z.shiftl 1 3.

Record MessageHeader := mkHeader {
  magic : Z;
  version : Z;
  flags : Z;
  schema_id : Z;
  schema_hash : Z;
  seq : Z;
  stamp_ns : Z;
  publish_ns : Z;
  payload_size : Z;
  reserved : Z
}.

Definition default_header : MessageHeader :=
  mkHeader kMessageMagic kMessageVersion kFlagNone 0 0 0 0 0 0 0.

(** The fields are machine integers of their declared widths. *)
Record header_ok (h : MessageHeader) : Prop := {
  ok_magic : fits 32 (magic h);
  ok_version : fits 16 (version h);
  ok_flags : fits 16 (flags h);
  ok_schema_id : fits 32 (schema_id h);
  ok_schema_hash : fits 32 (schema_hash h);
  ok_seq : fits 64 (seq h);
  ok_stamp : fits 64 (stamp_ns h);
  ok_publish : fits 64 (publish_ns h);
  ok_payload : fits 32 (payload_size h);
  ok_reserved : fits 32 (reserved h)
}.

(** ** Fields in memory *)

Definition put_u16 (buf : list byte) (off : nat) (v : Z) : option (list byte) :=
  buf ← store buf (off + 0) (byte_of_Z (Z.land v 255));
  store buf (off + 1) (byte_of_Z (Z.land (Z.shiftr v 8) 255)).

Definition put_u32 (buf : list byte) (off : nat) (v : Z) : option (list byte) :=
  put_loop 4 0 buf off v.

Definition put_u64 (buf : list byte) (off : nat) (v : Z) : option (list byte) :=
  put_loop 8 0 buf off v.

Definition get_u16 (buf : list byte) (off : nat) : option Z :=
  b0 ← buf !! (off + 0)%nat;
  b1 ← buf !! (off + 1)%nat;
  Some (u16 (Z.lor (Z_of_byte b0) (u16 (Z.shiftl (Z_of_byte b1) 8)))).

Definition get_u32 (buf : list byte) (off : nat) : option Z := get_loop 32 4 0 buf off 0.

Definition get_u64 (buf : list byte) (off : nat) : option Z := get_loop 64 8 0 buf off 0.

(** ** The codec *)

Definition encode_header (h : MessageHeader) (out : list byte) : option (list byte) :=
  out ← put_u32 out 0 (magic h);
  out ← put_u16 out 4 (version h);
  out ← put_u16 out 6 (flags h);
  out ← put_u32 out 8 (schema_id h);
  out ← put_u32 out 12 (schema_hash h);
  out ← put_u64 out 16 (seq h);
  out ← put_u64 out 24 (stamp_ns h);
  out ← put_u64 out 32 (publish_ns h);
  out ← put_u32 out 40 (payload_size h);
  put_u32 out 44 (reserved h).

Definition with_magic (h : MessageHeader) (m : Z) : MessageHeader :=
  mkHeader m (version h) (flags h) (schema_id h) (schema_hash h) (seq h) (stamp_ns h)
    (publish_ns h) (payload_size h) (reserved h).

Definition with_version (h : MessageHeader) (v : Z) : MessageHeader :=
  mkHeader (magic h) v (flags h) (schema_id h) (schema_hash h) (seq h) (stamp_ns h)
    (publish_ns h) (payload_size h) (reserved h).

(** The result, and what is left in [out]: the fields are assigned one by one,
    so a refused header has overwritten some.  [None]: a read outside [inp]. *)
Definition decode_header (inp : list byte) (size : Z) (out : MessageHeader)
  : option (bool * MessageHeader) :=
  if size <? kHeaderSize then Some (false, out)
  else
    m ← get_u32 inp 0;
    let out := with_magic out m in
    if negb (magic out =? kMessageMagic) then Some (false, out)
    else
      v ← get_u16 inp 4;
      let out := with_version out v in
      if (version out =? 0) || (kMessageVersion <? version out) then Some (false, out)
      else
        fl ← get_u16 inp 6;
        id ← get_u32 inp 8;
        hash ← get_u32 inp 12;
        sq ← get_u64 inp 16;
        stamp ← get_u64 inp 24;
        pub ← get_u64 inp 32;
        size ← get_u32 inp 40;
        res ← get_u32 inp 44;
        Some (true, mkHeader (magic out) (version out) fl id hash sq stamp pub size res).

(** FNV-1a over the characters of the signature, as bytes. *)
Fixpoint fingerprint_loop (hash : Z) (signature : list byte) : Z :=
  match signature with
  | [] => hash
  | c :: signature => fingerprint_loop (u32 (Z.lxor hash (Z_of_byte c) * 16777619)) signature
  end.

Definition schema_fingerprint (signature : list byte) : Z := fingerprint_loop 2166136261 signature.

(** ** Specification: the header as a byte string *)

Definition header_bytes (h : MessageHeader) : list byte :=
  le_bytes 4 (magic h) ++ le_bytes 2 (version h) ++ le_bytes 2 (flags h) ++
  le_bytes 4 (schema_id h) ++ le_bytes 4 (schema_hash h) ++ le_bytes 8 (seq h) ++
  le_bytes 8 (stamp_ns h) ++ le_bytes 8 (publish_ns h) ++ le_bytes 4 (payload_size h) ++
  le_bytes 4 (reserved h).

(** The field of [n] bytes at [off]. *)
Definition field (l : list byte) (off n : nat) : Z := le_value (take n (drop off l)).

(** The header that a byte string spells. *)
Definition parsed (l : list byte) : MessageHeader :=
  mkHeader (field l 0 4) (field l 4 2) (field l 6 2) (field l 8 4) (field l 12 4) (field l 16 8)
    (field l 24 8) (field l 32 8) (field l 40 4) (field l 44 4).

(** ** Helper lemmas *)

Lemma put_u16_loop buf off v : put_u16 buf off v = put_loop 2 0 buf off v.
Proof.
  unfold put_u16. simpl. rewrite Z.shiftr_0_r. destruct (store buf _ _) as [buf'|]; [simpl|done].
  by destruct (store buf' _ _).
Qed.

Lemma get_u16_loop buf off : get_u16 buf off = get_loop 16 2 0 buf off 0.
Proof.
  unfold get_u16. simpl. destruct (buf !! (off + 0)%nat) as [b0|]; [simpl|done].
  destruct (buf !! (off + 1)%nat) as [b1|]; [simpl|done].
  pose proof (Z_of_byte_bound b0) as H0. pose proof (Z_of_byte_bound b1) as H1.
  rewrite Z.shiftl_0_r, (wrap_small 16 (Z_of_byte b0)), Z.lor_0_l by (unfold fits; lia).
  change (8 * Z.of_nat 1) with 8. rewrite Z.shiftl_mul_pow2 by lia.
  rewrite !(wrap_small 16 (Z_of_byte b1 * _)) by (unfold fits; lia).
  rewrite wrap_small; [done|]. rewrite lor_add by lia. unfold fits. lia.
Qed.

Lemma length_header_bytes h : length (header_bytes h) = 48%nat.
Proof. unfold header_bytes. by rewrite !length_app, !length_le_bytes. Qed.

(** Each store of [encode_header] extends what is written. *)
Lemma encode_header_spec h out :
  (48 <= length out)%nat -> encode_header h out = Some (header_bytes h ++ drop 48 out).
Proof.
  intros Hlen. unfold encode_header, put_u32, put_u64, header_bytes.
  change out with ([] ++ out) at 1.
  repeat (rewrite ?put_u16_loop, put_loop_next;
    [cbn [mbind option_bind]; rewrite ?drop_drop
    |by rewrite ?length_app, ?length_le_bytes|rewrite ?length_drop; lia]).
  simpl Nat.add. by rewrite <-!app_assoc, app_nil_l.
Qed.

Lemma decode_fields inp (out : MessageHeader) :
  (48 <= length inp)%nat ->
  decode_header inp (zlen inp) out =
    Some (let p := parsed inp in
      if negb (magic p =? kMessageMagic) then (false, with_magic out (magic p))
      else if (version p =? 0) || (kMessageVersion <? version p)
      then (false, with_version (with_magic out (magic p)) (version p))
      else (true, p)).
Proof.
  intros Hlen. unfold decode_header, get_u32, get_u64. rewrite !get_u16_loop.
  rewrite !get_loop_at by (lia || done). destruct (Z.ltb_spec (zlen inp) kHeaderSize) as [Hs|_].
  { unfold zlen, kHeaderSize in Hs. lia. }
  cbn [mbind option_bind]. simpl. fold (field inp 0 4) (field inp 4 2).
  destruct (negb _); [done|]. by destruct (_ || _).
Qed.

Lemma field_app l off n pre mid post :
  l = pre ++ mid ++ post -> length pre = off -> length mid = n -> field l off n = le_value mid.
Proof.
  intros -> Hp Hm. unfold field. rewrite drop_app_length' by done. by rewrite take_app_length' by done.
Qed.

Lemma wrap_le n v : fits (8 * Z.of_nat n) v -> le_value (le_bytes n v) = v.
Proof. intros H. rewrite le_value_bytes. by apply wrap_small. Qed.

(** Only the first 48 bytes count. *)
Lemma decode_size inp size o :
  kHeaderSize <= size -> (48 <= length inp)%nat ->
  decode_header inp size o = decode_header inp (zlen inp) o.
Proof.
  intros Hs Hl. unfold decode_header, zlen, kHeaderSize in *.
  by rewrite !(proj2 (Z.ltb_ge _ _)) by lia.
Qed.

Lemma field_take l k off n : (off + n <= k)%nat -> field (take k l) off n = field l off n.
Proof. intros H. unfold field. by rewrite skipn_firstn_comm, take_take, Nat.min_l by lia. Qed.

Lemma parsed_take l : parsed (take 48 l) = parsed l.
Proof. unfold parsed. by rewrite !field_take by lia. Qed.

(** The parts of an encoded header are its fields. *)
Lemma parsed_header_bytes h rest : header_ok h -> parsed (header_bytes h ++ rest) = h.
Proof.
  intros Hok. destruct h, Hok; simpl in *. unfold parsed, header_bytes. cbn [magic version flags
    schema_id schema_hash seq stamp_ns publish_ns payload_size reserved].
  f_equal;
    match goal with |- field _ _ ?n = ?v => 
      transitivity (le_value (le_bytes n v)); [reflexivity|by apply wrap_le] end.
Qed.

(** Reading 48 bytes and writing them back. *)
Lemma header_bytes_parsed l : length l = 48%nat -> header_bytes (parsed l) = l.
Proof.
  intros Hl. do 48 (destruct l as [|? l]; [done|]). destruct l; [|done].
  unfold header_bytes, parsed, field.
  cbn [magic version flags schema_id schema_hash seq stamp_ns publish_ns payload_size reserved
       take drop].
  repeat match goal with
  | |- context [le_bytes ?n (le_value ?k)] =>
      rewrite (le_bytes_value k : le_bytes n (le_value k) = k)
  end. done.
Qed.

Lemma le_value_fits n l : length l = n -> fits (8 * Z.of_nat n) (le_value l).
Proof. intros <-. apply le_value_bound. Qed.

(** A word is its low bits. *)
Lemma fits_bits w z : 0 <= w -> (fits w z <-> wrap w z = z).
Proof.
  intros Hw. split; [apply wrap_small|]. intros <-. by apply fits_wrap.
Qed.

Lemma fits_lxor w a b : 0 <= w -> fits w a -> fits w b -> fits w (Z.lxor a b).
Proof.
  intros Hw Ha Hb. apply fits_bits in Ha, Hb; [|done..]. apply fits_bits; [done|].
  unfold wrap in *. apply Z.bits_inj'. intros n Hn. destruct (Z.ltb_spec n w).
  - by rewrite Z.mod_pow2_bits_low by lia.
  - rewrite Z.mod_pow2_bits_high, Z.lxor_spec by lia. rewrite <-Ha, <-Hb.
    by rewrite !Z.mod_pow2_bits_high by lia.
Qed.

(** The FNV prime is odd, so multiplying by it loses nothing. *)
Lemma fnv_step_inj x y :
  fits 32 x -> fits 32 y -> u32 (x * 16777619) = u32 (y * 16777619) -> x = y.
Proof.
  intros Hx Hy H. apply (f_equal (fun z => u32 (z * 899433627))) in H.
  rewrite !wrap_mul_l in H.
  assert (Hinv : forall z, fits 32 z -> u32 (z * 16777619 * 899433627) = z).
  { intros z Hz. rewrite <-Z.mul_assoc. unfold wrap.
    rewrite <-Zmult_mod_idemp_r. change (16777619 * 899433627 mod 2 ^ 32) with 1.
    rewrite Z.mul_1_r. by apply wrap_small. }
  by rewrite !Hinv in H.
Qed.

Lemma byte_fits32 c : fits 32 (Z_of_byte c).
Proof. pose proof (Z_of_byte_bound c). unfold fits. lia. Qed.

Lemma fingerprint_step_fits h c : fits 32 (u32 (Z.lxor h (Z_of_byte c) * 16777619)).
Proof. apply fits_wrap. lia. Qed.

#[local] Hint Resolve byte_fits32 fingerprint_step_fits : rdb.

Lemma fingerprint_loop_inj l : forall h1 h2,
  fits 32 h1 -> fits 32 h2 -> fingerprint_loop h1 l = fingerprint_loop h2 l -> h1 = h2.
Proof.
  induction l as [|c l IH]; intros h1 h2 H1 H2 H; [done|].
  apply IH in H; [|auto with rdb..].
  apply fnv_step_inj in H; [|apply fits_lxor; auto with rdb lia..].
  apply (f_equal (fun z => Z.lxor z (Z_of_byte c))) in H.
  by rewrite !Z.lxor_assoc, !Z.lxor_nilpotent, !Z.lxor_0_r in H.
Qed.

Lemma fingerprint_loop_app h l k :
  fingerprint_loop h (l ++ k) = fingerprint_loop (fingerprint_loop h l) k.
Proof. revert h. induction l; simpl; auto. Qed.

Lemma fingerprint_loop_fits h l : fits 32 h -> fits 32 (fingerprint_loop h l).
Proof. revert h. induction l; simpl; auto with rdb. Qed.

(** ** Properties *)

Section properties.
Implicit Types (h o : MessageHeader) (inp out : list byte).

(** C37: a well-formed header survives the wire: encoding it into a buffer of at
    least 48 bytes succeeds, writes the first 48 and nothing else, and decoding
    the result accepts and returns the same header. *)
Theorem header_roundtrip h o out :
  header_ok h -> magic h = kMessageMagic -> version h = kMessageVersion ->
  kHeaderSize <= zlen out ->
  exists buf,
    encode_header h out = Some buf /\ length buf = length out /\ drop 48 buf = drop 48 out /\
    decode_header buf (zlen buf) o = Some (true, h).
Proof.
  intros Hok Hm Hv Hlen. unfold kHeaderSize, zlen in Hlen.
  exists (header_bytes h ++ drop 48 out). rewrite encode_header_spec by lia.
  split; [done|]. split; [rewrite length_app, length_header_bytes, length_drop; lia|].
  split; [by rewrite drop_app_length' by by rewrite length_header_bytes|].
  rewrite decode_fields by (rewrite length_app, length_header_bytes; lia).
  rewrite parsed_header_bytes by done. cbv zeta. by rewrite Hm, Hv.
Qed.

Lemma header_roundtrip_witness : exists buf,
  encode_header (mkHeader kMessageMagic 1 kFlagKeyFrame 7 4000000000 5 (2 ^ 63) 6 100 0)
    (replicate 50 xff) = Some buf /\
  decode_header buf (zlen buf) default_header =
    Some (true, mkHeader kMessageMagic 1 kFlagKeyFrame 7 4000000000 5 (2 ^ 63) 6 100 0).
Proof.
  edestruct (header_roundtrip (mkHeader kMessageMagic 1 kFlagKeyFrame 7 4000000000 5 (2 ^ 63) 6 100 0)
               default_header (replicate 50 xff)) as (buf & He & _ & _ & Hd);
    [split; split; done|done|done|done|].
  exists buf. split; [exact He|exact Hd].
Defined.

(** Decoding is total and exact on any memory that holds the announced
    bytes: it reads only inside them; it accepts iff there are 48 bytes with the
    magic and a supported version; what it accepts re-encodes to the bytes read;
    and a refused header leaves every field but [magic] and [version] alone. *)
Theorem decode_header_exact inp size o :
  size <= zlen inp ->
  exists r h,
    decode_header inp size o = Some (r, h) /\
    (r = true <-> kHeaderSize <= size /\ field inp 0 4 = kMessageMagic /\
                  field inp 4 2 = kMessageVersion) /\
    (r = true -> header_bytes h = take 48 inp /\
                 h = mkHeader kMessageMagic kMessageVersion (flags h) (schema_id h)
                       (schema_hash h) (seq h) (stamp_ns h) (publish_ns h) (payload_size h)
                       (reserved h)) /\
    (r = false -> with_version (with_magic h (magic o)) (version o) = o).
Proof.
  intros Hs. destruct (Z.ltb_spec size kHeaderSize) as [Hlt|Hge].
  { unfold decode_header. rewrite (proj2 (Z.ltb_lt _ _) Hlt). do 2 eexists. split; [done|].
    split; [split; [done|lia]|]. split; [done|]. by destruct o. }
  assert (Hlen : (48 <= length inp)%nat) by (unfold zlen, kHeaderSize in *; lia).
  rewrite (decode_size inp size) by done. rewrite decode_fields by done. cbv zeta.
  pose proof (le_value_bound (take 2 (drop 4 inp))) as Hb. fold (field inp 4 2) in Hb.
  change (magic (parsed inp)) with (field inp 0 4).
  change (version (parsed inp)) with (field inp 4 2). unfold kMessageVersion.
  destruct (Z.eqb_spec (field inp 0 4) kMessageMagic) as [Hm|Hm]; simpl.
  2: { do 2 eexists. split; [done|]. split; [split; [done|tauto]|]. split; [done|]. by destruct o. }
  destruct ((field inp 4 2 =? 0) || (1 <? field inp 4 2)) eqn:Hv.
  { do 2 eexists. split; [done|]. split; [split; [done|lia]|]. split; [done|]. by destruct o. }
  exists true, (parsed inp). split; [done|]. split; [split; [lia|done]|]. split; [|done]. intros _.
  split; [|by rewrite <-Hm; replace 1 with (field inp 4 2) by lia].
  rewrite <-(header_bytes_parsed (take 48 inp)) by (rewrite length_take; lia).
  f_equal. by rewrite parsed_take.
Qed.

Lemma decode_header_exact_witness : exists r h,
  decode_header (replicate 60 x00) 60 default_header = Some (r, h) /\
  with_version (with_magic h kMessageMagic) 1 = default_header.
Proof.
  destruct (decode_header_exact (replicate 60 x00) 60 default_header) as (r & h & Hd & _ & _ & Hf);
    [done|].
  exists r, h. split; [exact Hd|]. apply Hf. vm_compute in Hd. by simplify_eq.
Defined.

(** The fingerprint detects every schema change of one character. *)
Theorem fingerprint_detects (pre suf : list byte) (c d : byte) :
  c <> d -> schema_fingerprint (pre ++ c :: suf) <> schema_fingerprint (pre ++ d :: suf).
Proof.
  intros Hcd H. unfold schema_fingerprint in H. rewrite !fingerprint_loop_app in H. simpl in H.
  assert (Hh : fits 32 (fingerprint_loop 2166136261 pre)) by by apply fingerprint_loop_fits.
  apply fingerprint_loop_inj in H; [|auto with rdb..].
  apply fnv_step_inj in H; [|apply fits_lxor; auto with rdb lia..].
  apply (f_equal (Z.lxor (fingerprint_loop 2166136261 pre))) in H.
  rewrite <-!Z.lxor_assoc, !Z.lxor_nilpotent, !Z.lxor_0_l in H. by apply Z_of_byte_inj in H.
Qed.

(** "x:f32" and "x:f64". *)
Lemma fingerprint_detects_witness :
  schema_fingerprint [x78; x3a; x66; x33; x32] <> schema_fingerprint [x78; x3a; x66; x36; x32].
Proof. apply (fingerprint_detects [x78; x3a; x66] [x32] x33 x36). done. Defined.
End properties.
