(* ===== verification/Framing.v ===== *)
(** * Framing

    Frames over a byte stream (code/include/rdb/transport/framing.h): the
    encoder, the incremental decoder, and the stream parser it implements. *)

From S2P Require Import Prelude Bytes.

Definition kFrameMagic : Z := 0x314D5246.
Definition kFramePrefixSize : Z := 8.

(** ** The encoder *)

(** [std::memcpy(buf + off, src, n)]; out of range is undefined. *)
Definition memcpy (buf : list byte) (off : nat) (src : list byte) (n : nat) : option (list byte) :=
  if (n <=? length src)%nat && (off + n <=? length buf)%nat
  then Some (take off buf ++ take n src ++ drop (off + n) buf) else None.

(** Append one frame to [out].  The length goes on the wire as 32 bits. *)
Definition encode_frame (payload : list byte) (size : nat) (out : list byte)
  : option (list byte) :=
  let offset := length out in
  let out := out ++ replicate (8 + size) x00 in
  out ← put_loop 4 0 out offset kFrameMagic;
  let len := u32 (Z.of_nat size) in
  out ← put_loop 4 0 out (offset + 4) len;
  if (0 <? size)%nat then memcpy out (offset + 8) payload size else Some out.

(** The overload that returns a new vector. *)
Definition encode_frame_new (payload : list byte) (size : nat) : option (list byte) :=
  encode_frame payload size [].

(** ** The decoder *)

Record FrameDecoder := mkDecoder {
  buffer_ : list byte;
  head_ : Z;
  max_frame_bytes_ : Z;
  frames_ : Z;
  error_ : bool
}.

Definition new_decoder (max_frame_bytes : Z) : FrameDecoder := mkDecoder [] 0 max_frame_bytes 0 false.

Definition default_decoder : FrameDecoder := new_decoder (8 * 1024 * 1024).

Definition feed (d : FrameDecoder) (data : list byte) : FrameDecoder :=
  if error_ d then d
  else mkDecoder (buffer_ d ++ data) (head_ d) (max_frame_bytes_ d) (frames_ d) (error_ d).

(** Move the unread bytes to the front when at least half are read. *)
Definition compact (d : FrameDecoder) : FrameDecoder :=
  if head_ d =? 0 then d
  else if head_ d =? zlen (buffer_ d)
  then mkDecoder [] 0 (max_frame_bytes_ d) (frames_ d) (error_ d)
  else if zlen (buffer_ d) <=? head_ d *u 2
  then mkDecoder (drop (Z.to_nat (head_ d)) (buffer_ d)) 0 (max_frame_bytes_ d) (frames_ d) (error_ d)
  else d.

Definition with_error (d : FrameDecoder) : FrameDecoder :=
  mkDecoder (buffer_ d) (head_ d) (max_frame_bytes_ d) (frames_ d) true.

Definition advance (d : FrameDecoder) (total : Z) : FrameDecoder :=
  mkDecoder (buffer_ d) (head_ d +u total) (max_frame_bytes_ d) (frames_ d +u 1) (error_ d).

(** [out.assign(p + first, p + last)] with [p] at [head]; out of range is
    undefined. *)
Definition slice (buf : list byte) (head first last : nat) : option (list byte) :=
  if (head + last <=? length buf)%nat && (first <=? last)%nat
  then Some (take (last - first) (drop (head + first) buf)) else None.

(** The result, the decoder and [out] afterwards; [None] is a read outside the
    buffer. *)
Definition next (d : FrameDecoder) (out : list byte) : option (bool * FrameDecoder * list byte) :=
  if error_ d then Some (false, d, out)
  else if zlen (buffer_ d) -u head_ d <? kFramePrefixSize then Some (false, compact d, out)
  else
    let p := Z.to_nat (head_ d) in
    magic ← get_loop 32 4 0 (buffer_ d) p 0;
    if negb (magic =? kFrameMagic) then Some (false, with_error d, out)
    else
      len ← get_loop 32 4 0 (buffer_ d) (p + 4) 0;
      if max_frame_bytes_ d <? len then Some (false, with_error d, out)
      else
        let total := kFramePrefixSize +u len in
        if zlen (buffer_ d) -u head_ d <? total then Some (false, compact d, out)
        else
          out ← slice (buffer_ d) p (Z.to_nat kFramePrefixSize) (Z.to_nat total);
          Some (true, compact (advance d total), out).

Definition error (d : FrameDecoder) : bool := error_ d.
Definition buffered (d : FrameDecoder) : Z := zlen (buffer_ d) -u head_ d.
Definition frames_decoded (d : FrameDecoder) : Z := frames_ d.

Definition reset (d : FrameDecoder) : FrameDecoder :=
  mkDecoder [] 0 (max_frame_bytes_ d) (frames_ d) false.

(** [while (decoder.next(frame)) ...]: how its callers empty it. *)
Fixpoint drain (fuel : nat) (d : FrameDecoder) : option (list (list byte) * FrameDecoder) :=
  match fuel with
  | O => None
  | S fuel =>
      r ← next d [];
      match r with
      | (false, d, _) => Some ([], d)
      | (true, d, frame) =>
          fd ← drain fuel d;
          Some (frame :: fd.1, fd.2)
      end
  end.

(** A connection: each chunk that arrives is fed, then the decoder is emptied.
    A frame takes at least eight bytes, so the bytes held are fuel enough. *)
Fixpoint session (d : FrameDecoder) (chunks : list (list byte))
  : option (list (list byte) * FrameDecoder) :=
  match chunks with
  | [] => Some ([], d)
  | chunk :: chunks =>
      let d := feed d chunk in
      fd ← drain (S (length (buffer_ d))) d;
      rest ← session fd.2 chunks;
      Some (fd.1 ++ rest.1, rest.2)
  end.

(** ** Specification: a byte stream read as frames *)

Inductive parse_result :=
  | More
  | Bad
  | Got (frame rest : list byte).

Definition parse1 (max : Z) (l : list byte) : parse_result :=
  if zlen l <? 8 then More
  else if negb (le_value (take 4 l) =? kFrameMagic) then Bad
  else
    let len := le_value (take 4 (drop 4 l)) in
    if max <? len then Bad
    else if zlen l <? 8 + len then More
    else Got (take (Z.to_nat len) (drop 8 l)) (drop (Z.to_nat (8 + len)) l).

(** The frames of [l], whether it then breaks the format, and what is left. *)
Fixpoint parse_all (fuel : nat) (max : Z) (l : list byte) : list (list byte) * bool * list byte :=
  match fuel with
  | O => ([], false, l)
  | S fuel =>
      match parse1 max l with
      | More => ([], false, l)
      | Bad => ([], true, l)
      | Got frame rest =>
          let '(frames, bad, tl) := parse_all fuel max rest in (frame :: frames, bad, tl)
      end
  end.

Definition stream (max : Z) (l : list byte) : list (list byte) * bool * list byte :=
  parse_all (S (length l)) max l.

(** The bytes not yet read. *)
Definition pending (d : FrameDecoder) : list byte := drop (Z.to_nat (head_ d)) (buffer_ d).

(** The read position is inside the buffer, and the buffer is one that a vector
    can hold ([max_size] is 2^63 - 1). *)
Record decoder_wf (d : FrameDecoder) : Prop := {
  wf_head : 0 <= head_ d <= zlen (buffer_ d);
  wf_buffer : zlen (buffer_ d) < 2 ^ 63
}.

(** ** Properties of the stream parser *)

Lemma parse1_got max l p r :
  parse1 max l = Got p r ->
  zlen p <= max /\ (length l = 8 + length p + length r)%nat /\ drop 8 l = p ++ r.
Proof.
  unfold parse1. repeat case_match; try done. intros; simplify_eq.
  pose proof (le_value_bound (take 4 (drop 4 l))) as Hb.
  repeat match goal with H : (_ <? _) = _ |- _ => first [apply Z.ltb_ge in H | apply Z.ltb_lt in H] end.
  set (len := le_value (take 4 (drop 4 l))) in *. unfold zlen in *.
  rewrite !length_take, !length_drop. split; [lia|]. split; [lia|].
  replace (Z.to_nat (8 + len)) with (8 + Z.to_nat len)%nat by lia.
  by rewrite <-drop_drop, take_drop.
Qed.

(** More bytes never change what a prefix has settled. *)
Lemma parse1_app max l k :
  parse1 max (l ++ k) =
    match parse1 max l with
    | More => parse1 max (l ++ k)
    | Bad => Bad
    | Got p r => Got p (r ++ k)
    end.
Proof.
  destruct (parse1 max l) as [| |p r] eqn:Hl; [done| |]; unfold parse1 in *;
    destruct (Z.ltb_spec (zlen l) 8) as [|H8]; try done; unfold zlen in *;
    rewrite (proj2 (Z.ltb_ge (Z.of_nat (length (l ++ k))) 8)) by (rewrite length_app; lia);
    rewrite drop_app_le, !take_app_le by (rewrite ?length_drop; lia);
    destruct (negb _); try done; set (len := le_value (take 4 (drop 4 l))) in *;
    destruct (max <? len); try done;
    destruct (Z.ltb_spec (Z.of_nat (length l)) (8 + len)); try done.
  pose proof (le_value_bound (take 4 (drop 4 l))) as Hb. fold len in Hb.
  rewrite (proj2 (Z.ltb_ge (Z.of_nat (length (l ++ k))) (8 + len))) by (rewrite length_app; lia).
  simplify_eq. f_equal.
  - rewrite drop_app_le, take_app_le by (rewrite ?length_drop; lia). done.
  - by rewrite drop_app_le by lia.
Qed.

Lemma parse_all_fuel max n m l :
  (length l < n)%nat -> (length l < m)%nat -> parse_all n max l = parse_all m max l.
Proof.
  revert m l. induction n as [|n IH]; intros [|m] l Hn Hm; try lia. simpl.
  destruct (parse1 max l) as [| |p r] eqn:Hp; try done.
  apply parse1_got in Hp as (_ & Hlen & _). rewrite (IH m r) by lia. done.
Qed.

Lemma stream_eq max l :
  stream max l =
    match parse1 max l with
    | More => ([], false, l)
    | Bad => ([], true, l)
    | Got p r => let '(fs, bad, tl) := stream max r in (p :: fs, bad, tl)
    end.
Proof.
  unfold stream at 1. cbn [parse_all]. destruct (parse1 max l) as [| |p r] eqn:Hp; try done.
  apply parse1_got in Hp as (_ & Hlen & _). unfold stream.
  by rewrite (parse_all_fuel max (length l) (S (length r))) by lia.
Qed.

Lemma parse1_more max l : parse1 max l = More -> zlen l < 8 + Z.max 0 max.
Proof.
  unfold parse1. destruct (Z.ltb_spec (zlen l) 8); [lia|]. destruct (negb _); [done|].
  destruct (Z.ltb_spec max (le_value (take 4 (drop 4 l)))); [done|].
  destruct (Z.ltb_spec (zlen l) (8 + le_value (take 4 (drop 4 l)))); [lia|done].
Qed.

(** What is left of a stream that keeps to the format is less than a frame. *)
Lemma stream_rest max l fs tl : stream max l = (fs, false, tl) -> parse1 max tl = More.
Proof.
  revert fs. remember (length l) as n eqn:Hn. revert l Hn.
  induction (lt_wf n) as [n _ IH]; intros l -> fs. rewrite stream_eq.
  destruct (parse1 max l) as [| |p r] eqn:Hp; intros H; simplify_eq; [done|].
  destruct (parse1_got _ _ _ _ Hp) as (_ & Hlen & _).
  destruct (stream max r) as [[fs' bad] tl'] eqn:Hr. simplify_eq. eapply (IH (length r)); [lia|done|done].
Qed.

(** A stream is read the same whatever the place where it is cut. *)
Lemma stream_app max l k :
  stream max (l ++ k) =
    let '(fs, bad, tl) := stream max l in
    if bad then (fs, true, tl ++ k)
    else let '(fs', bad', tl') := stream max (tl ++ k) in (fs ++ fs', bad', tl').
Proof.
  remember (length l) as n eqn:Hn. revert l Hn.
  induction (lt_wf n) as [n _ IH]; intros l ->.
  rewrite (stream_eq max l). destruct (parse1 max l) as [| |p r] eqn:Hp.
  - by destruct (stream max (l ++ k)) as [[fs bad] tl].
  - by rewrite stream_eq, parse1_app, Hp.
  - pose proof (parse1_got _ _ _ _ Hp) as (_ & Hlen & _).
    rewrite stream_eq, parse1_app, Hp, (IH (length r)) by lia.
    destruct (stream max r) as [[fs [|]] tl]; [done|].
    by destruct (stream max (tl ++ k)) as [[fs' bad'] tl'].
Qed.

(** ** The decoder implements the parser *)

Lemma decoder_split d : decoder_wf d -> exists pre, buffer_ d = pre ++ pending d /\ zlen pre = head_ d.
Proof.
  intros [Hh Hb]. exists (take (Z.to_nat (head_ d)) (buffer_ d)). unfold pending.
  rewrite take_drop. split; [done|]. unfold zlen in *. rewrite length_take. lia.
Qed.

Lemma pending_size d : decoder_wf d -> zlen (buffer_ d) -u head_ d = zlen (pending d).
Proof.
  intros Hwf. destruct (decoder_split d Hwf) as (pre & He & Hp). destruct Hwf as [Hh Hb].
  rewrite wrap_small by (unfold fits; lia). rewrite He at 1. rewrite zlen_app. lia.
Qed.

Lemma pending_bound d : decoder_wf d -> zlen (pending d) < 2 ^ 63.
Proof.
  intros Hwf. destruct (decoder_split d Hwf) as (pre & He & Hp). destruct Hwf as [Hh Hb].
  rewrite He in Hb. rewrite zlen_app in Hb. lia.
Qed.

(** [compact] changes where the unread bytes are, not what they are; afterwards
    they are more than half of the buffer. *)
Lemma compact_spec d :
  decoder_wf d ->
  decoder_wf (compact d) /\ pending (compact d) = pending d /\
  error_ (compact d) = error_ d /\ frames_ (compact d) = frames_ d /\
  max_frame_bytes_ (compact d) = max_frame_bytes_ d /\
  zlen (buffer_ (compact d)) <= 2 * zlen (pending d).
Proof.
  intros Hwf. destruct (decoder_split d Hwf) as (pre & He & Hp). pose proof Hwf as [Hh Hb].
  unfold compact. pose proof (zlen_nonneg (pending d)) as Hn.
  assert (Hlen : zlen (buffer_ d) = head_ d + zlen (pending d)) by (rewrite He at 1; rewrite zlen_app; lia).
  destruct (Z.eqb_spec (head_ d) 0) as [H0|H0]; [repeat split; try done; lia|].
  destruct (Z.eqb_spec (head_ d) (zlen (buffer_ d))) as [H1|H1].
  { assert (pending d = []) as Hnil by (apply zlen_0; lia). rewrite Hnil.
    repeat split; simpl; rewrite ?zlen_nil; done || lia. }
  rewrite wrap_small by (unfold fits; lia).
  destruct (Z.leb_spec (zlen (buffer_ d)) (head_ d * 2)); [|repeat split; try done; lia].
  change (drop (Z.to_nat (head_ d)) (buffer_ d)) with (pending d).
  repeat split; simpl; try done; lia.
Qed.

Lemma advance_spec d total :
  decoder_wf d -> 0 <= total <= zlen (pending d) ->
  decoder_wf (advance d total) /\ pending (advance d total) = drop (Z.to_nat total) (pending d).
Proof.
  intros Hwf Ht. destruct (decoder_split d Hwf) as (pre & He & Hp). pose proof Hwf as [Hh Hb].
  assert (Hlen : zlen (buffer_ d) = head_ d + zlen (pending d)) by (rewrite He at 1; rewrite zlen_app; lia).
  assert (Hsum : head_ d +u total = head_ d + total) by (apply wrap_small; unfold fits; lia).
  split; [split; simpl; rewrite ?Hsum; lia|].
  unfold pending. simpl. rewrite Hsum, drop_drop. f_equal. lia.
Qed.

Lemma feed_spec d data :
  decoder_wf d -> zlen (buffer_ d) + zlen data < 2 ^ 63 -> error_ d = false ->
  decoder_wf (feed d data) /\ pending (feed d data) = pending d ++ data /\
  error_ (feed d data) = false /\ frames_ (feed d data) = frames_ d /\
  max_frame_bytes_ (feed d data) = max_frame_bytes_ d.
Proof.
  intros [Hh Hb] Hs He. unfold feed. rewrite He. pose proof (zlen_nonneg data).
  split; [split; simpl; rewrite zlen_app; lia|]. split; [|done].
  unfold pending. simpl. unfold zlen in Hh. rewrite drop_app_le by lia. done.
Qed.

(** One call of [next], in terms of the unread bytes: it never reads outside the
    buffer, and answers what the parser answers. *)
Lemma next_spec d out :
  decoder_wf d -> error_ d = false ->
  next d out = Some
    match parse1 (max_frame_bytes_ d) (pending d) with
    | More => (false, compact d, out)
    | Bad => (false, with_error d, out)
    | Got p r => (true, compact (advance d (8 + zlen p)), p)
    end.
Proof.
  intros Hwf He. unfold next. rewrite He, (pending_size d Hwf).
  destruct (decoder_split d Hwf) as (pre & Hbuf & Hpre).
  pose proof (pending_bound d Hwf) as Hpb. pose proof (wf_head d Hwf) as Hh.
  unfold parse1. change kFramePrefixSize with 8.
  destruct (Z.ltb_spec (zlen (pending d)) 8) as [|H8]; [done|].
  assert (Hp : Z.to_nat (head_ d) = length pre) by (unfold zlen in Hpre; lia).
  assert (Hlen : (8 <= length (pending d))%nat) by (unfold zlen in H8; lia).
  assert (Hbl : length (buffer_ d) = (length pre + length (pending d))%nat)
    by (by rewrite Hbuf, length_app at 1).
  rewrite !get_loop_at by lia. rewrite Hp. cbn [mbind option_bind].
  assert (Hd : forall k, drop (length pre + k) (buffer_ d) = drop k (pending d)).
  { intros k. rewrite Hbuf at 1. by rewrite drop_app_add. }
  rewrite <-(Nat.add_0_r (length pre)) at 1. rewrite !Hd, drop_0.
  destruct (negb _); [done|].
  pose proof (le_value_bound (take 4 (drop 4 (pending d)))) as Hv.
  set (len := le_value (take 4 (drop 4 (pending d)))) in *.
  assert (len < 2 ^ 32) as Hv32.
  { destruct Hv as [_ Hv]. unfold zlen in Hv. rewrite length_take, length_drop in Hv.
    rewrite Nat.min_l in Hv by lia. exact Hv. }
  destruct (max_frame_bytes_ d <? len); [done|].
  rewrite (wrap_small 64 (8 + len)) by (unfold fits; lia).
  destruct (Z.ltb_spec (zlen (pending d)) (8 + len)) as [|Hge]; [done|].
  unfold zlen in Hge. unfold slice. change (Z.to_nat 8) with 8%nat.
  rewrite (proj2 (andb_true_iff _ _)) by (split; apply Nat.leb_le; lia).
  cbn [mbind option_bind]. rewrite Hd.
  replace (Z.to_nat (8 + len) - 8)%nat with (Z.to_nat len) by lia. do 5 f_equal.
  unfold zlen. rewrite length_take, length_drop. lia.
Qed.

(** [d'] is [d] after [fs] was read out of it. *)
Record emptied (d d' : FrameDecoder) (fs : list (list byte)) : Prop := {
  em_wf : decoder_wf d';
  em_max : max_frame_bytes_ d' = max_frame_bytes_ d;
  em_stream : stream (max_frame_bytes_ d) (pending d) = (fs, error_ d', pending d');
  em_frames : u64 (frames_ d') = u64 (frames_ d + zlen fs);
  em_buffer : zlen (buffer_ d') <= zlen (buffer_ d);
  em_slack : error_ d' = false -> zlen (buffer_ d') <= 2 * zlen (pending d')
}.

Lemma compact_buffer d : zlen (buffer_ (compact d)) <= zlen (buffer_ d).
Proof.
  unfold compact, zlen. repeat case_match; simpl; rewrite ?length_drop; lia.
Qed.

(** Emptying the decoder reads its pending bytes as a stream. *)
Lemma drain_spec fuel d :
  decoder_wf d -> error_ d = false -> (length (pending d) < fuel)%nat ->
  exists fs d', drain fuel d = Some (fs, d') /\ emptied d d' fs.
Proof.
  revert d. induction fuel as [|fuel IH]; intros d Hwf He Hf; [lia|].
  cbn [drain]. rewrite next_spec by done. cbn [mbind option_bind].
  destruct (compact_spec d Hwf) as (Cwf & Cp & Ce & Cf & Cm & Cs).
  pose proof (stream_eq (max_frame_bytes_ d) (pending d)) as Hst.
  destruct (parse1 (max_frame_bytes_ d) (pending d)) as [| |p r] eqn:Hp.
  - exists [], (compact d). split; [done|]. rewrite <-Cp in Cs.
    split; try done; [by rewrite Ce, He, Cp|by rewrite Cf, Z.add_0_r|apply compact_buffer].
  - exists [], (with_error d). split; [done|]. destruct Hwf.
    split; simpl; rewrite ?Z.add_0_r; done || lia.
  - destruct (parse1_got _ _ _ _ Hp) as (_ & Hlen & Hd8).
    destruct (advance_spec d (8 + zlen p) Hwf) as [Awf Ap]; [unfold zlen; lia|].
    assert (pending (advance d (8 + zlen p)) = r) as Hr.
    { rewrite Ap. unfold zlen. replace (Z.to_nat _) with (8 + length p)%nat by lia.
      rewrite <-drop_drop, Hd8. by apply drop_app_length'. }
    destruct (compact_spec _ Awf) as (Cwf' & Cp' & Ce' & Cf' & Cm' & Cs'). rewrite Hr in *.
    destruct (IH (compact (advance d (8 + zlen p)))) as (fs & d' & -> & [Ewf Em Es Ef Eb El]);
      [done|by rewrite Ce'|rewrite Cp'; lia|].
    exists (p :: fs), d'. split; [done|]. rewrite Cm', Cp' in Es. simpl in Es. rewrite Es in Hst.
    split; try done; [by rewrite Em, Cm'| |].
    + rewrite Ef, Cf'. simpl. rewrite wrap_add_l, zlen_cons. f_equal. lia.
    + pose proof (compact_buffer (advance d (8 + zlen p))) as Hc. simpl in Hc. lia.
Qed.

Lemma session_error d chunks : error_ d = true -> session d chunks = Some ([], d).
Proof.
  intros He. induction chunks as [|c chunks IH]; [done|]. cbn [session]. unfold feed at 1 2.
  rewrite He. cbn [drain]. unfold next. rewrite He. cbn [mbind option_bind].
  cbn [fst snd]. by rewrite IH.
Qed.

Lemma feed_buffer d data : zlen (buffer_ (feed d data)) <= zlen (buffer_ d) + zlen data.
Proof. unfold feed. pose proof (zlen_nonneg data). destruct (error_ d); simpl; len. Qed.

(** A whole connection. *)
Lemma session_spec d chunks :
  decoder_wf d -> error_ d = false ->
  zlen (buffer_ d) + zlen (concat chunks) < 2 ^ 63 ->
  zlen (buffer_ d) <= 2 * zlen (pending d) -> parse1 (max_frame_bytes_ d) (pending d) = More ->
  exists fs d' tl,
    session d chunks = Some (fs, d') /\ decoder_wf d' /\
    stream (max_frame_bytes_ d) (pending d ++ concat chunks) = (fs, error_ d', tl) /\
    u64 (frames_ d') = u64 (frames_ d + zlen fs) /\
    (error_ d' = false -> tl = pending d' /\ zlen (buffer_ d') <= 2 * zlen (pending d')).
Proof.
  revert d. induction chunks as [|c chunks IH]; intros d Hwf He Hsz Hsl Hmore.
  { exists [], d, (pending d). simpl. rewrite app_nil_r, stream_eq, Hmore, He, Z.add_0_r. done. }
  cbn [concat] in *. rewrite zlen_app in Hsz. pose proof (zlen_nonneg (concat chunks)) as Hn.
  destruct (feed_spec d c Hwf ltac:(lia) He) as (Fwf & Fp & Fe & Ff & Fm).
  cbn [session]. destruct (drain_spec (S (length (buffer_ (feed d c)))) (feed d c) Fwf Fe)
    as (fs & d1 & -> & [Ewf Em Es Ef Eb El]).
  { unfold pending. rewrite length_drop. lia. }
  cbn [mbind option_bind fst snd]. rewrite Fm, Fp in Es. rewrite Ff in Ef.
  rewrite app_assoc, stream_app, Es. destruct (error_ d1) eqn:He1.
  - rewrite session_error by done. exists (fs ++ []), d1, (pending d1 ++ concat chunks).
    rewrite He1. cbn [mbind option_bind fst snd]. rewrite app_nil_r.
    split; [done|]. split; [done|]. split; [done|]. by split.
  - pose proof (feed_buffer d c) as Hfb.
    destruct (IH d1) as (fs' & d' & tl & Dss & Dwf & Ds & Df & Dl);
      [done|done|lia|by apply El|by eapply stream_rest; rewrite Em, Fm|].
    rewrite Dss. cbn [mbind option_bind fst snd].
    rewrite Em, Fm in Ds. rewrite Ds. exists (fs ++ fs'), d', tl. split; [done|]. split; [done|].
    split; [done|]. split; [|done]. rewrite Df, <-wrap_add_l, Ef, wrap_add_l, zlen_app. f_equal. lia.
Qed.

(** ** The encoder *)

(** What one frame is on the wire. *)
Definition frame_bytes (payload : list byte) : list byte :=
  le_bytes 4 kFrameMagic ++ le_bytes 4 (zlen payload) ++ payload.

Lemma le_bytes_wrap n v : le_bytes n (wrap (8 * Z.of_nat n) v) = le_bytes n v.
Proof. rewrite <-le_value_bytes. rewrite <-(length_le_bytes n v) at 1. apply le_bytes_value. Qed.

Lemma encode_frame_spec payload size out :
  (size <= length payload)%nat ->
  encode_frame payload size out = Some (out ++ frame_bytes (take size payload)).
Proof.
  intros Hs. unfold encode_frame.
  rewrite put_loop_next by (rewrite ?length_replicate; lia). cbn [mbind option_bind].
  rewrite put_loop_next by
    (rewrite ?length_app, ?length_le_bytes, ?length_drop, ?length_replicate; lia).
  cbn [mbind option_bind]. change u32 with (wrap (8 * Z.of_nat 4)). rewrite le_bytes_wrap.
  unfold frame_bytes. replace (zlen (take size payload)) with (Z.of_nat size)
    by (unfold zlen; rewrite length_take; lia).
  rewrite drop_drop, drop_replicate. replace (8 + size - (4 + 4))%nat with size by lia.
  destruct (Nat.ltb_spec 0 size) as [Hpos|Hz].
  - unfold memcpy. rewrite (proj2 (andb_true_iff _ _)).
    2: { split; apply Nat.leb_le; rewrite ?length_app, ?length_le_bytes, ?length_replicate; lia. }
    rewrite take_app_length' by (rewrite !length_app, !length_le_bytes; lia).
    rewrite drop_ge by (rewrite !length_app, !length_le_bytes, length_replicate; lia).
    by rewrite app_nil_r, <-!app_assoc.
  - replace size with 0%nat by lia. by rewrite take_0, <-!app_assoc.
Qed.

(** Frame after frame into the same vector. *)
Fixpoint encode_frames (frames : list (list byte)) (out : list byte) : option (list byte) :=
  match frames with
  | [] => Some out
  | f :: frames =>
      out ← encode_frame f (length f) out;
      encode_frames frames out
  end.

Lemma encode_frames_spec frames out :
  encode_frames frames out = Some (out ++ concat (frame_bytes <$> frames)).
Proof.
  revert out. induction frames as [|f frames IH]; intros out; [by rewrite app_nil_r|].
  cbn [encode_frames]. rewrite encode_frame_spec, take_ge by lia. cbn [mbind option_bind].
  by rewrite IH, <-app_assoc.
Qed.

Lemma parse1_frame max p r :
  zlen p <= max -> zlen p < 2 ^ 32 -> parse1 max (frame_bytes p ++ r) = Got p r.
Proof.
  intros Hmax H32. unfold parse1, frame_bytes. rewrite <-!app_assoc.
  pose proof (zlen_nonneg p) as Hp. pose proof (zlen_nonneg r) as Hr.
  assert (H4 : forall v, zlen (le_bytes 4 v) = 4) by (intros; unfold zlen; by rewrite length_le_bytes).
  rewrite !zlen_app, !H4.
  rewrite (drop_app_length' (le_bytes 4 _)), !take_app_length' by (by rewrite length_le_bytes).
  rewrite !le_value_bytes. change (wrap (8 * Z.of_nat 4) kFrameMagic) with kFrameMagic.
  rewrite (wrap_small _ (zlen p)) by (unfold fits; simpl; lia).
  rewrite Z.eqb_refl. simpl negb. cbv iota zeta.
  destruct (Z.ltb_spec (4 + (4 + (zlen p + zlen r))) 8); [lia|].
  destruct (Z.ltb_spec max (zlen p)); [lia|].
  destruct (Z.ltb_spec (4 + (4 + (zlen p + zlen r))) (8 + zlen p)); [lia|].
  replace (Z.to_nat (8 + zlen p)) with (4 + (4 + length p))%nat by (unfold zlen; lia).
  replace 8%nat with (4 + 4)%nat by lia. rewrite <-!drop_drop.
  rewrite !(drop_app_length' (le_bytes 4 _)) by (by rewrite length_le_bytes).
  rewrite drop_app_length, take_app_length' by (unfold zlen; lia). done.
Qed.

Lemma stream_frames max frames r :
  Forall (fun f => zlen f <= max /\ zlen f < 2 ^ 32) frames ->
  stream max (concat (frame_bytes <$> frames) ++ r) =
    let '(fs, bad, tl) := stream max r in (frames ++ fs, bad, tl).
Proof.
  induction 1 as [|f frames [Hm H32] _ IH]; [simpl; by destruct (stream max r) as [[? ?] ?]|].
  rewrite fmap_cons. cbn [concat]. rewrite <-app_assoc, stream_eq, parse1_frame, IH by done.
  by destruct (stream max r) as [[? ?] ?].
Qed.

Lemma new_decoder_wf max : decoder_wf (new_decoder max).
Proof. split; unfold zlen; simpl; lia. Qed.

(** A connection from the start. *)
Lemma new_session max chunks :
  zlen (concat chunks) < 2 ^ 63 ->
  exists fs d tl,
    session (new_decoder max) chunks = Some (fs, d) /\ decoder_wf d /\
    stream max (concat chunks) = (fs, error d, tl) /\
    u64 (frames_decoded d) = u64 (zlen fs) /\
    (error d = false -> tl = pending d /\ zlen (buffer_ d) <= 2 * zlen (pending d)).
Proof.
  intros Hsz. by apply (session_spec (new_decoder max) chunks).
Qed.

(** ** Properties *)

Section properties.
Implicit Types (max : Z) (chunks frames : list (list byte)).

(** C18: the decoder reads the byte stream, not the chunks: however the bytes of a
    connection are cut into chunks, decoding never reads outside its buffer, and
    yields exactly the frames, the error state and (while there is no error) the
    unread bytes that the stream parser finds in their concatenation. *)
Theorem decoder_reads_stream max chunks :
  zlen (concat chunks) < 2 ^ 63 ->
  exists fs d tl,
    session (new_decoder max) chunks = Some (fs, d) /\
    stream max (concat chunks) = (fs, error d, tl) /\
    u64 (frames_decoded d) = u64 (zlen fs) /\ (error d = false -> pending d = tl).
Proof.
  intros Hsz. destruct (new_session max chunks Hsz) as (fs & d & tl & Hs & _ & Hst & Hf & Hp).
  exists fs, d, tl. repeat split; try done. intros He. symmetry. by apply Hp.
Qed.

(** A frame of one byte, cut inside its prefix. *)
Lemma decoder_reads_stream_witness :
  let chunks := [[x46; x52; x4d]; [x31; x01; x00; x00]; [x00; x2a; x46]] in
  exists fs d tl,
    session (new_decoder 16) chunks = Some (fs, d) /\
    stream 16 (concat chunks) = (fs, error d, tl) /\ fs = [[x2a]] /\ tl = [x46].
Proof.
  intros chunks. destruct (decoder_reads_stream 16 chunks) as (fs & d & tl & Hs & Hst & _); [done|].
  exists fs, d, tl. split; [exact Hs|]. split; [exact Hst|].
  vm_compute in Hst. injection Hst as <- _ <-. split; reflexivity.
Defined.

(** C19: frames survive the stream: frames no longer than the decoder's limit,
    encoded one after another and cut anywhere, come out exactly as they went in,
    with no error and nothing left over. *)
Theorem frames_roundtrip max frames chunks out :
  Forall (fun f => zlen f <= max /\ zlen f < 2 ^ 32) frames ->
  encode_frames frames [] = Some out -> concat chunks = out -> zlen out < 2 ^ 63 ->
  exists d, session (new_decoder max) chunks = Some (frames, d) /\
            error d = false /\ buffered d = 0.
Proof.
  intros Hf He Hc Hsz. rewrite encode_frames_spec, app_nil_l in He. injection He as <-.
  rewrite <-Hc in Hsz. destruct (new_session max chunks Hsz) as (fs & d & tl & Hs & Hwf & Hst & _ & Hp).
  rewrite Hc, <-(app_nil_r (concat _)), stream_frames in Hst by done.
  simpl in Hst. rewrite app_nil_r in Hst. injection Hst as Hfs He Htl.
  exists d. rewrite Hfs. split; [done|]. split; [done|].
  unfold buffered. rewrite pending_size by done. destruct Hp as [<- _]; [done|]. by rewrite <-Htl.
Qed.

Lemma frames_roundtrip_witness :
  let frames := [[x01; x02]; []; [x03]] in
  exists out d,
    encode_frames frames [] = Some out /\
    session (new_decoder 4) [take 5 out; take 9 (drop 5 out); drop 14 out] = Some (frames, d).
Proof.
  intros frames. eexists. edestruct (frames_roundtrip 4 frames) as (d & Hs & _);
    [by repeat constructor|reflexivity|shelve|done|].
  exists d. split; [reflexivity|exact Hs]. Unshelve. reflexivity.
Defined.

(** A peer cannot make the decoder hold more than about twice its limit:
    after any connection that is emptied as it is read and has not failed, less
    than a prefix and a maximal frame is unread, and the buffer is at most twice
    that. *)
Theorem decoder_memory_bounded max chunks fs d :
  0 <= max -> zlen (concat chunks) < 2 ^ 63 ->
  session (new_decoder max) chunks = Some (fs, d) -> error d = false ->
  buffered d < 8 + max /\ zlen (buffer_ d) <= 2 * buffered d.
Proof.
  intros Hmax Hsz Hs He.
  destruct (new_session max chunks Hsz) as (fs' & d' & tl & Hs' & Hwf & Hst & _ & Hp).
  rewrite Hs in Hs'. simplify_eq. rewrite He in Hst. destruct (Hp He) as [-> Hb].
  apply stream_rest, parse1_more in Hst. unfold buffered. rewrite pending_size by done. lia.
Qed.

Lemma decoder_memory_bounded_witness : exists fs d,
  session (new_decoder 4) [[x46; x52]; [x4d]] = Some (fs, d) /\
  buffered d < 8 + 4 /\ zlen (buffer_ d) <= 2 * buffered d.
Proof.
  do 2 eexists. split; [reflexivity|].
  eapply (decoder_memory_bounded 4 [[x46; x52]; [x4d]]); [done|done|reflexivity|reflexivity].
Defined.

(** The length on the wire has 32 bits: a payload of 2^32 bytes is announced as
    empty, and its bytes are then read as the next frame. *)
Lemma long_frame_truncated max payload :
  0 <= max -> zlen payload = 2 ^ 32 ->
  exists out, encode_frame_new payload (length payload) = Some out /\
              parse1 max out = Got [] payload.
Proof.
  intros Hmax Hlen. eexists. split; [by apply encode_frame_spec|].
  rewrite take_ge by done. unfold frame_bytes. rewrite <-le_bytes_wrap, Hlen.
  apply (parse1_frame max [] payload); [done|done].
Qed.
End properties.
