(* ===== verification/Doubles.v ===== *)
(** * Doubles

    The [double] of the source: binary64 values of [SpecFloat] (53 bits of
    precision, [emax] 1024), whose operations round to nearest, ties to even. *)

From S2P Require Import Prelude.
From Stdlib Require Export Floats.SpecFloat.
Open Scope Z_scope.

Definition double := spec_float.

(** [static_cast<double>] of an integer. *)
Definition to_double (z : Z) : double := binary_normalize 53 1024 z 0 false.
Definition double_div : double -> double -> double := SFdiv 53 1024.
Definition double_mul : double -> double -> double := SFmul 53 1024.

(** [static_cast<std::int64_t>] of a double: towards zero; undefined when the
    result does not fit. *)
Definition to_int64 (d : double) : option Z :=
  let fit z := if (- 2 ^ 63 <=? z) && (z <? 2 ^ 63) then Some z else None in
  match d with
  | S754_zero _ => Some 0
  | S754_finite s m e =>
      let a := if 0 <=? e then Z.pos m * 2 ^ e else Z.pos m / 2 ^ (- e) in
      fit (if s then - a else a)
  | _ => None
  end.
