(* ===== verification/Decimal.v ===== *)
(** * Decimal

    Decimal numerals: printing ([%llu], through stdpp's [pretty]) and reading
    the digits a string starts with. *)

From S2P Require Import Prelude.
From stdpp Require Import pretty.
From Stdlib Require Import Strings.Ascii.
Open Scope Z_scope.

(** [%llu], and [%lld]. *)
Definition dec_unsigned (n : Z) : string := pretty (Z.to_N n).

Definition dec_signed (n : Z) : string :=
  if n <? 0 then String "-" (dec_unsigned (- n)) else dec_unsigned n.

Definition digit (c : ascii) : option Z :=
  let n := Z.of_nat (nat_of_ascii c) in
  if (48 <=? n) && (n <=? 57) then Some (n - 48) else None.

(** The value of the leading digits, after [acc]. *)
Fixpoint read_digits (acc : Z) (s : string) : Z :=
  match s with
  | String c s' =>
      match digit c with Some d => read_digits (10 * acc + d) s' | None => acc end
  | EmptyString => acc
  end.

Lemma digit_char n : (n < 10)%N -> digit (pretty_N_char n) = Some (Z.of_N n).
Proof.
  intros Hn. unfold digit, pretty_N_char.
  destruct n as [|p]; [reflexivity|]. do 4 (destruct p as [p|p|]; try reflexivity; try lia).
Qed.

(** Induction on the digits, least significant first. *)
Lemma digits_ind (P : N -> Prop) :
  P 0%N -> (forall n, (0 < n)%N -> P (n / 10)%N -> P n) -> forall n, P n.
Proof.
  intros H0 Hs n. induction (N.lt_wf_0 n) as [n _ IH].
  destruct (decide (n = 0)%N) as [->|Hn]; [done|]. apply Hs; [lia|]. apply IH, N.div_lt; lia.
Qed.

Lemma read_pretty_go n s : read_digits 0 (pretty_N_go n s) = read_digits (Z.of_N n) s.
Proof.
  revert s. induction n as [|n Hn IH] using digits_ind; intros s; [done|].
  rewrite pretty_N_go_step, IH by done. simpl. rewrite digit_char by (apply N.mod_lt; lia).
  f_equal. pose proof (N.div_mod n 10 ltac:(done)). lia.
Qed.

Lemma read_dec n : 0 <= n -> read_digits 0 (dec_unsigned n) = n.
Proof.
  intros Hn. unfold dec_unsigned, pretty, pretty_N. case_decide as H0.
  - change (0 = n). lia.
  - rewrite read_pretty_go. cbn [read_digits]. lia.
Qed.

(** A numeral starts with a digit. *)
Lemma pretty_go_head n s :
  (exists c s', s = String c s' /\ is_Some (digit c)) ->
  exists c s', pretty_N_go n s = String c s' /\ is_Some (digit c).
Proof.
  revert s. induction n as [|n Hn IH] using digits_ind; intros s Hs; [done|].
  rewrite pretty_N_go_step by done. apply IH. do 2 eexists. split; [done|].
  rewrite digit_char by (apply N.mod_lt; lia). eauto.
Qed.

Lemma dec_head n : exists c s, dec_unsigned n = String c s /\ is_Some (digit c).
Proof.
  unfold dec_unsigned, pretty, pretty_N. case_decide as H0.
  - do 2 eexists. split; [done|]. eauto.
  - rewrite pretty_N_go_step by lia. apply pretty_go_head.
    do 2 eexists. split; [done|]. rewrite digit_char by (apply N.mod_lt; lia). eauto.
Qed.

(** The length of a numeral. *)
Lemma pretty_go_length n s k :
  (n < 10 ^ N.of_nat k)%N -> (String.length (pretty_N_go n s) <= k + String.length s)%nat.
Proof.
  revert s k. induction n as [|n Hn IH] using digits_ind; intros s k Hk; [rewrite pretty_N_go_0; lia|].
  rewrite pretty_N_go_step by done. destruct k as [|k]; [simpl in Hk; lia|].
  etransitivity; [apply (IH _ k)|simpl; lia].
  apply N.Div0.div_lt_upper_bound. rewrite Nat2N.inj_succ, N.pow_succ_r' in Hk. lia.
Qed.

Lemma dec_length n k :
  (0 < k)%nat -> 0 <= n < 10 ^ Z.of_nat k -> (String.length (dec_unsigned n) <= k)%nat.
Proof.
  intros Hk Hn. unfold dec_unsigned, pretty, pretty_N. case_decide; [simpl; lia|].
  etransitivity; [apply (pretty_go_length _ _ k)|simpl; lia].
  rewrite <-nat_N_Z in Hn. change 10 with (Z.of_N 10) in Hn. rewrite <-N2Z.inj_pow in Hn. lia.
Qed.
