(* ===== verification/Format.v ===== *)
(** * Format

    What [printf] writes for the conversions the source uses ([%.Nf], a minimal
    width on either side; [%llu] and [%lld] are in Decimal), and how large the
    doubles are that it is given: bounds by powers of two, through conversion
    from an integer and division, that bound the length of the text. *)

From Stdlib Require Import Strings.Ascii.
From S2P Require Import Prelude Doubles Decimal.
Open Scope Z_scope.

(** ** Text *)

Fixpoint repeat_char (c : Ascii.ascii) (n : nat) : string :=
  match n with O => EmptyString | S n => String c (repeat_char c n) end.

(** A minimal width: [%8s] and [%-8s]. *)
Definition pad_left (c : Ascii.ascii) (width : nat) (s : string) : string :=
  (repeat_char c (width - String.length s) ++ s)%string.

Definition pad_right (width : nat) (s : string) : string :=
  (s ++ repeat_char " "%char (width - String.length s))%string.

Definition newline : string := String (ascii_of_nat 10) EmptyString.

(** What [snprintf] keeps in a buffer of [size] bytes, the last one a zero. *)
Definition truncated (size : nat) (s : string) : string := String.substring 0 (size - 1) s.

(** ** [%.Nf] *)

(** The integer next to [m * 2 ^ e * 10 ^ prec], ties to even. *)
Definition scaled (prec m e : Z) : Z :=
  let n := m * 10 ^ prec in
  if 0 <=? e then n * 2 ^ e
  else
    let d := 2 ^ (- e) in
    let q := n / d in
    match 2 * (n mod d) ?= d with
    | Lt => q
    | Gt => q + 1
    | Eq => if Z.even q then q else q + 1
    end.

(** [n / 10 ^ prec], with its point. *)
Definition with_point (prec n : Z) : string :=
  let int := dec_unsigned (n / 10 ^ prec) in
  if prec =? 0 then int
  else (int ++ "." ++ pad_left "0"%char (Z.to_nat prec) (dec_unsigned (n mod 10 ^ prec)))%string.

Definition signed (s : bool) (text : string) : string :=
  if s then String "-" text else text.

(** [%.<prec>f]; how the C library spells NaN is its own choice. *)
Definition fixed (nan_text : string) (prec : Z) (d : double) : string :=
  match d with
  | S754_zero s => signed s (with_point prec 0)
  | S754_infinity s => signed s "inf"
  | S754_nan => nan_text
  | S754_finite s m e => signed s (with_point prec (scaled prec (Z.pos m) e))
  end.

Example fixed_tie : fixed "nan" 2 (double_div (to_double 1) (to_double 8)) = "0.12"%string.
Proof. vm_compute. reflexivity. Qed.

Example fixed_carry : fixed "nan" 2 (double_div (to_double 9999) (to_double 1000)) = "10.00"%string.
Proof. vm_compute. reflexivity. Qed.

(** The integer chosen is a nearest one. *)
Lemma scaled_nearest prec m e :
  0 <= prec -> e <= 0 ->
  2 * Z.abs (scaled prec m e * 2 ^ (- e) - m * 10 ^ prec) <= 2 ^ (- e).
Proof.
  intros Hp He. unfold scaled. destruct (Z.leb_spec 0 e).
  - replace e with 0 by lia. change (2 ^ 0) with 1. change (2 ^ (- 0)) with 1. lia.
  - set (n := m * 10 ^ prec). set (d := 2 ^ (- e)).
    assert (0 < d) by (apply Z.pow_pos_nonneg; lia).
    pose proof (Z.div_mod n d ltac:(lia)). pose proof (Z.mod_pos_bound n d ltac:(lia)).
    destruct (Z.compare_spec (2 * (n mod d)) d); [destruct (Z.even (n / d))|..]; nia.
Qed.

(** ** Lengths *)

Lemma length_append a b : String.length (a ++ b) = (String.length a + String.length b)%nat.
Proof. induction a as [|c a IH]; simpl; [done|by rewrite IH]. Qed.

Lemma repeat_char_length c n : String.length (repeat_char c n) = n.
Proof. induction n; simpl; auto. Qed.

Lemma pad_left_length c w s : String.length (pad_left c w s) = Nat.max w (String.length s).
Proof. unfold pad_left. rewrite length_append, repeat_char_length. lia. Qed.

(** A text that fits is kept whole. *)
Lemma truncated_fits size s : (String.length s < size)%nat -> truncated size s = s.
Proof.
  unfold truncated. intros H. assert (String.length s <= size - 1)%nat as Hl by lia.
  clear H. revert Hl. generalize (size - 1)%nat as k.
  induction s as [|c s IH]; intros [|k] Hl; simpl in *; [done|done|lia|].
  by rewrite IH by lia.
Qed.

Lemma with_point_length prec n k :
  0 < prec -> (0 < k)%nat -> 0 <= n < 10 ^ (Z.of_nat k + prec) ->
  (String.length (with_point prec n) <= k + 1 + Z.to_nat prec)%nat.
Proof.
  intros Hp Hk Hn. unfold with_point. rewrite (proj2 (Z.eqb_neq _ _)) by lia.
  assert (0 < 10 ^ prec) by (apply Z.pow_pos_nonneg; lia).
  rewrite Z.pow_add_r in Hn by lia.
  rewrite !length_append, pad_left_length. change (String.length ".") with 1%nat.
  assert (String.length (dec_unsigned (n / 10 ^ prec)) <= k)%nat.
  { apply dec_length; [done|]. split; [apply Z.div_pos; lia|].
    apply Z.div_lt_upper_bound; [done|]. lia. }
  assert (String.length (dec_unsigned (n mod 10 ^ prec)) <= Z.to_nat prec)%nat; [|lia].
  apply dec_length; [lia|]. rewrite Z2Nat.id by lia. apply Z.mod_pos_bound. lia.
Qed.

(** ** Magnitudes

    [lt_pow m e k]: [0 <= m * 2 ^ e < 2 ^ k], and [ge_pow m e k]: it is at least
    [2 ^ k]; through the number of bits of [m]. *)

Definition lt_pow (m e k : Z) : Prop := 0 <= m /\ exists n, 0 <= n /\ m < 2 ^ n /\ n + e <= k.
Definition ge_pow (m e k : Z) : Prop := exists n, 0 <= n /\ 2 ^ n <= m /\ k <= n + e.

(** A double that is neither negative nor infinite nor NaN, and less than [2 ^ k]. *)
Definition below (k : Z) (d : double) : Prop :=
  match d with
  | S754_zero false => True
  | S754_finite false m e => lt_pow (Z.pos m) e k
  | _ => False
  end.

(** A double that is at least [2 ^ k]. *)
Definition at_least (k : Z) (d : double) : Prop :=
  match d with
  | S754_finite false m e => ge_pow (Z.pos m) e k
  | S754_infinity false => True
  | _ => False
  end.

Lemma digits_log2 m : 0 < m -> Zdigits2 m = Z.log2 m + 1.
Proof.
  destruct m as [|p|p]; [done| |done]. intros _.
  induction p as [p IH|p IH|]; [..|done]; simpl Zdigits2 in *.
  - rewrite (Pos2Z.inj_xI p), Z.log2_succ_double by done. lia.
  - rewrite (Pos2Z.inj_xO p), Z.log2_double by done. lia.
Qed.

(** The bits of a number below [2 ^ n]. *)
Lemma digits_lt m n : 0 <= m -> 0 <= n -> m < 2 ^ n -> 0 <= Zdigits2 m <= n.
Proof.
  intros Hm Hn Hlt. destruct (Z.eq_dec m 0) as [->|]; [simpl; lia|].
  rewrite digits_log2 by lia. pose proof (Z.log2_nonneg m).
  assert (Z.log2 m < n) by (apply Z.log2_lt_pow2; lia). lia.
Qed.

Lemma digits_ge m n : 0 <= n -> 2 ^ n <= m -> n < Zdigits2 m.
Proof.
  intros Hn Hle. assert (0 < 2 ^ n) by (apply Z.pow_pos_nonneg; lia).
  rewrite digits_log2 by lia.
  assert (n <= Z.log2 m) by (apply Z.log2_le_pow2; lia). lia.
Qed.

Lemma ge_pow_weaken m m' e k : m <= m' -> ge_pow m e k -> ge_pow m' e k.
Proof. intros Hm (n & ? & ? & ?). exists n. repeat split; lia. Qed.

Lemma lt_pow_succ m e k : lt_pow m e k -> lt_pow (m + 1) e (k + 1).
Proof.
  intros (Hm & n & Hn & Hlt & He). split; [lia|]. exists (n + 1).
  rewrite Z.pow_add_r by lia. repeat split; lia.
Qed.

Lemma lt_pow_weaken m e k j : k <= j -> lt_pow m e k -> lt_pow m e j.
Proof. intros Hkj (Hm & n & ? & ? & ?). split; [done|]. exists n. repeat split; lia. Qed.

Lemma lt_pow_smaller m m' e k : 0 <= m' <= m -> lt_pow m e k -> lt_pow m' e k.
Proof. intros Hm (_ & n & ? & ? & ?). split; [lia|]. exists n. repeat split; lia. Qed.

Lemma below_weaken k j d : k <= j -> below k d -> below j d.
Proof. destruct d as [[]|?| |[] m e]; simpl; eauto using lt_pow_weaken. Qed.

(** *** Shifting right *)

Lemma shr_1_half r : 0 <= shr_m r -> shr_m (shr_1 r) = shr_m r / 2.
Proof.
  destruct r as [[|[p|p|]|p] rr rs]; simpl; intros H; [done|..|done|lia].
  - rewrite (Pos2Z.inj_xI p), Z.mul_comm, Z.add_comm, Z.div_add by lia. done.
  - rewrite (Pos2Z.inj_xO p), Z.mul_comm, Z.div_mul by lia. done.
Qed.

Lemma iter_pos_nat {A} (f : A -> A) p x : iter_pos f p x = Nat.iter (Pos.to_nat p) f x.
Proof.
  revert x. induction p as [p IH|p IH|]; intros x; simpl iter_pos; [..|done]; rewrite !IH.
  - rewrite Pos2Nat.inj_xI, Nat.iter_succ_r. replace (2 * Pos.to_nat p)%nat with (Pos.to_nat p + Pos.to_nat p)%nat by lia.
    by rewrite Nat.iter_add.
  - rewrite Pos2Nat.inj_xO. replace (2 * Pos.to_nat p)%nat with (Pos.to_nat p + Pos.to_nat p)%nat by lia.
    by rewrite Nat.iter_add.
Qed.

Lemma iter_shr_1 n r :
  0 <= shr_m r -> shr_m (Nat.iter n shr_1 r) = shr_m r / 2 ^ Z.of_nat n.
Proof.
  intros H. induction n as [|n IH]; simpl Nat.iter.
  - by rewrite Z.div_1_r.
  - assert (0 < 2 ^ Z.of_nat n) by (apply Z.pow_pos_nonneg; lia).
    rewrite shr_1_half; rewrite IH; [|apply Z.div_pos; lia].
    rewrite Z.div_div by lia. f_equal. rewrite Nat2Z.inj_succ, Z.pow_succ_r by lia. lia.
Qed.

(** Where the mantissa and the exponent go. *)
Lemma shr_fexp_spec m e l r e' :
  0 <= m -> shr_fexp 53 1024 m e l = (r, e') ->
  e' = Z.max e (fexp 53 1024 (Zdigits2 m + e)) /\ shr_m r = m / 2 ^ (e' - e).
Proof.
  intros Hm. unfold shr_fexp, shr.
  assert (Hr : shr_m (shr_record_of_loc m l) = m) by (by destruct l as [|[]]).
  remember (fexp 53 1024 (Zdigits2 m + e)) as f.
  destruct (f - e) as [|p|p] eqn:Hd; intros [= <- <-].
  - rewrite Hr. replace (Z.max e f) with e by lia. by rewrite Z.sub_diag, Z.div_1_r.
  - split; [lia|]. rewrite iter_pos_nat, iter_shr_1, Hr by lia.
    do 2 f_equal. rewrite positive_nat_Z. lia.
  - rewrite Hr. replace (Z.max e f) with e by lia. by rewrite Z.sub_diag, Z.div_1_r.
Qed.

Lemma shr_fexp_lt m e l k r e' :
  -1074 <= k -> lt_pow m e k -> shr_fexp 53 1024 m e l = (r, e') -> lt_pow (shr_m r) e' k.
Proof.
  intros Hk (Hm & n & Hn & Hlt & He) Heq.
  destruct (shr_fexp_spec _ _ _ _ _ Hm Heq) as [-> ->].
  pose proof (digits_lt m n Hm Hn Hlt) as Hd. unfold fexp, emin.
  set (s := Z.max _ _ - e). assert (0 <= s) by lia. assert (0 < 2 ^ s) by (apply Z.pow_pos_nonneg; lia).
  split; [apply Z.div_pos; lia|]. destruct (Z.le_gt_cases s n).
  - exists (n - s). split; [lia|]. split; [|lia].
    apply Z.div_lt_upper_bound; [done|]. rewrite <-Z.pow_add_r by lia.
    by replace (s + (n - s)) with n by lia.
  - exists 0. split; [lia|]. split; [|lia].
    apply Z.div_lt_upper_bound; [done|]. rewrite Z.pow_0_r, Z.mul_1_r.
    assert (2 ^ n <= 2 ^ s) by (apply Z.pow_le_mono_r; lia). lia.
Qed.

Lemma shr_fexp_ge m e l k r e' :
  0 <= m -> -1074 <= k -> ge_pow m e k -> shr_fexp 53 1024 m e l = (r, e') -> ge_pow (shr_m r) e' k.
Proof.
  intros Hm Hk (n & Hn & Hle & He) Heq.
  destruct (shr_fexp_spec _ _ _ _ _ Hm Heq) as [-> ->].
  pose proof (digits_ge m n Hn Hle) as Hd. assert (0 < 2 ^ n) by (apply Z.pow_pos_nonneg; lia).
  rewrite digits_log2 in * by lia. unfold fexp, emin.
  set (s := Z.max _ _ - e). assert (0 <= s <= Z.log2 m) by lia.
  exists (Z.log2 m - s). split; [lia|]. split; [|lia].
  apply Z.div_le_lower_bound; [apply Z.pow_pos_nonneg; lia|].
  rewrite <-Z.pow_add_r by lia. replace (s + (Z.log2 m - s)) with (Z.log2 m) by lia.
  apply Z.log2_spec. lia.
Qed.

(** *** Rounding *)

Lemma round_even_range m l : m <= round_nearest_even m l <= m + 1.
Proof. destruct l as [|[]]; simpl; [lia|destruct (Z.even m)|..]; lia. Qed.

Lemma round_aux_below m e l k :
  -1074 <= k <= 971 -> lt_pow m e k -> below (k + 1) (binary_round_aux 53 1024 false m e l).
Proof.
  intros Hk Hlt. unfold binary_round_aux.
  destruct (shr_fexp 53 1024 m e l) as [r1 e1] eqn:H1.
  pose proof (shr_fexp_lt _ _ _ _ _ _ (proj1 Hk) Hlt H1) as Hlt1.
  pose proof (round_even_range (shr_m r1) (loc_of_shr_record r1)) as Hr.
  set (m1 := round_nearest_even _ _) in *.
  destruct (shr_fexp 53 1024 m1 e1 loc_Exact) as [r2 e2] eqn:H2.
  assert (Hlt2 : lt_pow (shr_m r2) e2 (k + 1)).
  { eapply shr_fexp_lt; [lia| |exact H2]. eapply lt_pow_smaller, lt_pow_succ, Hlt1.
    destruct Hlt1. lia. }
  destruct (shr_m r2) as [|p|p]; [done| |by destruct Hlt2].
  destruct Hlt2 as (Hp & n & Hn & Hpn & He).
  destruct (Z.eq_dec n 0) as [->|]; [simpl in Hpn; lia|].
  rewrite (proj2 (Z.leb_le _ _)) by lia. split; [done|]. by exists n.
Qed.

Lemma round_aux_at_least m e l k :
  0 <= m -> -1074 <= k -> ge_pow m e k -> at_least k (binary_round_aux 53 1024 false m e l).
Proof.
  intros Hm Hk Hge. unfold binary_round_aux.
  destruct (shr_fexp 53 1024 m e l) as [r1 e1] eqn:H1.
  pose proof (shr_fexp_ge _ _ _ _ _ _ Hm Hk Hge H1) as Hge1.
  pose proof (round_even_range (shr_m r1) (loc_of_shr_record r1)) as Hr.
  assert (0 <= shr_m r1) by (destruct Hge1 as (n & ? & ? & ?); pose proof (Z.pow_nonneg 2 n); lia).
  set (m1 := round_nearest_even _ _) in *.
  destruct (shr_fexp 53 1024 m1 e1 loc_Exact) as [r2 e2] eqn:H2.
  assert (Hge2 : ge_pow (shr_m r2) e2 k).
  { eapply shr_fexp_ge; [| |eapply ge_pow_weaken; [|done]|exact H2]; lia. }
  destruct Hge2 as (n & Hn & Hle & He). assert (0 < 2 ^ n) by (apply Z.pow_pos_nonneg; lia).
  destruct (shr_m r2) as [|p|p]; [lia| |lia]. destruct (e2 <=? 1024 - 53); [|done].
  by exists n.
Qed.

(** *** Conversion of an integer *)

Lemma iter_xO m d : Z.pos (Pos.iter xO m d) = Z.pos m * 2 ^ Z.pos d.
Proof.
  induction d as [|d IH] using Pos.peano_ind; [simpl; lia|].
  rewrite Pos.iter_succ, Pos2Z.inj_xO, IH, Pos2Z.inj_succ, Z.pow_succ_r by lia. lia.
Qed.

Lemma shl_align_spec m e e' mz ez :
  shl_align m e e' = (mz, ez) -> ez = Z.min e e' /\ Z.pos mz = Z.pos m * 2 ^ (e - ez).
Proof.
  unfold shl_align. destruct (e' - e) as [|p|p] eqn:Hd; intros [= <- <-].
  1,2: rewrite Z.sub_diag; lia.
  rewrite iter_xO. replace (e - e') with (Z.pos p) by lia. lia.
Qed.

Lemma to_double_pos p :
  exists m e, to_double (Z.pos p) = binary_round_aux 53 1024 false m e loc_Exact /\
              e <= 0 /\ m = Z.pos p * 2 ^ (- e).
Proof.
  unfold to_double, binary_normalize, binary_round.
  destruct (shl_align _ _ _) as [mz ez] eqn:H. apply shl_align_spec in H as [He Hm].
  exists (Z.pos mz), ez. split; [done|]. split; [lia|]. by rewrite Z.sub_0_l in Hm.
Qed.

Lemma to_double_below z k : 0 <= k <= 971 -> 0 <= z < 2 ^ k -> below (k + 1) (to_double z).
Proof.
  intros Hk Hz. destruct z as [|p|p]; [done| |lia].
  destruct (to_double_pos p) as (m & e & -> & He & ->). apply round_aux_below; [lia|].
  split; [lia|]. exists (k - e). split; [lia|]. split; [|lia].
  unfold Z.sub. rewrite Z.pow_add_r by lia. apply Z.mul_lt_mono_pos_r; [|lia].
  apply Z.pow_pos_nonneg; lia.
Qed.

Lemma to_double_at_least z : 1 <= z -> at_least 0 (to_double z).
Proof.
  intros Hz. destruct z as [|p|p]; [done| |lia].
  destruct (to_double_pos p) as (m & e & -> & He & ->).
  assert (0 < 2 ^ (- e)) by (apply Z.pow_pos_nonneg; lia).
  apply round_aux_at_least; [lia..|]. exists (- e). repeat split; nia.
Qed.

(** *** Division *)

Lemma div_core_lt m1 e1 m2 e2 k1 k2 q e l :
  -1074 <= k1 - k2 -> lt_pow m1 e1 k1 -> ge_pow m2 e2 k2 ->
  SFdiv_core_binary 53 1024 m1 e1 m2 e2 = (q, e, l) -> lt_pow q e (k1 - k2).
Proof.
  intros Hk (Hm1 & n1 & Hn1 & Hlt & He1) (n2 & Hn2 & Hge & He2). unfold SFdiv_core_binary.
  set (e' := Z.min _ _). set (m' := match _ with Z0 => _ | _ => _ end).
  assert (He' : e' <= e1 - e2) by lia. assert (0 < 2 ^ n2) by (apply Z.pow_pos_nonneg; lia).
  assert (Hm' : m' = m1 * 2 ^ (e1 - e2 - e')).
  { subst m'. destruct (e1 - e2 - e') as [|s|s] eqn:Hs; [lia| |lia]. by rewrite Z.shiftl_mul_pow2. }
  pose proof (Z_div_mod m' m2) as Hdiv. destruct (Z.div_eucl m' m2) as [q' r].
  intros [= <- <- _]. destruct Hdiv as [Heq Hr]; [lia|].
  set (s := e1 - e2 - e') in *. assert (0 < 2 ^ s) by (apply Z.pow_pos_nonneg; lia).
  assert (Hm'2 : 0 <= m' < 2 ^ (n1 + s)) by (rewrite Z.pow_add_r by lia; nia).
  assert (0 <= q') by nia. split; [done|]. destruct (Z.le_gt_cases n2 (n1 + s)).
  - exists (n1 + s - n2). split; [lia|]. split; [|lia].
    replace (n1 + s) with (n2 + (n1 + s - n2)) in Hm'2 by lia.
    rewrite Z.pow_add_r in Hm'2 by lia. nia.
  - assert (2 ^ (n1 + s) <= 2 ^ n2) by (apply Z.pow_le_mono_r; lia).
    assert (q' = 0) as -> by nia. exists 0. split; [done|]. split; [done|].
    pose proof (digits_lt m1 n1 Hm1 Hn1 Hlt). pose proof (digits_ge m2 n2 Hn2 Hge).
    assert (e' <= fexp 53 1024 (Zdigits2 m1 + e1 - (Zdigits2 m2 + e2))) by lia.
    unfold fexp, emin in *. lia.
Qed.

Lemma double_div_below x y k1 k2 :
  -1074 <= k1 - k2 <= 971 -> below k1 x -> at_least k2 y -> below (k1 - k2 + 1) (double_div x y).
Proof.
  intros Hk Hx Hy. destruct x as [[]|?| |[] m1 e1]; try done;
    destruct y as [?|[]| |[] m2 e2]; try done.
  unfold double_div, SFdiv. destruct (SFdiv_core_binary _ _ _ _ _ _) as [[q e] l] eqn:Hq.
  apply round_aux_below; [lia|]. eapply div_core_lt; [lia|exact Hx|exact Hy|exact Hq].
Qed.

(** *** The length of [%.Nf] *)

Lemma scaled_lt prec m e k :
  0 <= prec -> 0 <= k -> lt_pow m e k -> 0 <= scaled prec m e <= 2 ^ k * 10 ^ prec.
Proof.
  intros Hp Hk (Hm & n & Hn & Hlt & He).
  assert (0 < 10 ^ prec) by (apply Z.pow_pos_nonneg; lia).
  assert (Hmb : forall x, n <= x -> m < 2 ^ x).
  { intros x Hx. assert (2 ^ n <= 2 ^ x) by (apply Z.pow_le_mono_r; lia). lia. }
  unfold scaled. destruct (Z.leb_spec 0 e).
  - assert (0 < 2 ^ e) by (apply Z.pow_pos_nonneg; lia). specialize (Hmb (k - e) ltac:(lia)).
    replace k with (k - e + e) by lia. rewrite Z.pow_add_r by lia. nia.
  - assert (0 < 2 ^ (- e)) by (apply Z.pow_pos_nonneg; lia). specialize (Hmb (k + - e) ltac:(lia)).
    rewrite Z.pow_add_r in Hmb by lia.
    assert (m * 10 ^ prec / 2 ^ (- e) < 2 ^ k * 10 ^ prec) by (apply Z.div_lt_upper_bound; nia).
    assert (0 <= m * 10 ^ prec / 2 ^ (- e)) by (apply Z.div_pos; nia).
    destruct (2 * _ ?= _); [destruct (Z.even (m * 10 ^ prec / 2 ^ (- e)))|..]; lia.
Qed.

Lemma fixed_length nan prec d k digits :
  0 < prec -> 0 <= k -> (0 < digits)%nat -> 2 ^ k < 10 ^ Z.of_nat digits -> below k d ->
  (String.length (fixed nan prec d) <= digits + 1 + Z.to_nat prec)%nat.
Proof.
  intros Hp Hk Hdig Hpow Hb. assert (0 < 10 ^ prec) by (apply Z.pow_pos_nonneg; lia).
  destruct d as [[]|?| |[] m e]; try done; cbn [fixed signed]; apply with_point_length;
    [done|done| |done|done|]; rewrite Z.pow_add_r by lia.
  - assert (0 < 10 ^ Z.of_nat digits) by (apply Z.pow_pos_nonneg; lia). nia.
  - pose proof (scaled_lt prec (Z.pos m) e k ltac:(lia) Hk Hb). nia.
Qed.
