(* ===== verification/Rounding.v ===== *)
(** * Rounding

    Rounding is monotone: what [SpecFloat] computes for the product of two
    non-negative doubles, for a quotient and for the conversion of an integer is a
    non-decreasing function of the exact value.  An exact value is a fraction
    [N / D] times a power of two; [SpecFloat] keeps its integral part with the
    location of the rest. *)

From S2P Require Import Prelude Doubles Format.
Open Scope Z_scope.

(** ** Fractions and their locations *)

Definition locate (N D : Z) : location :=
  if N mod D =? 0 then loc_Exact else loc_Inexact (2 * (N mod D) ?= D).

Definition located (N D : Z) : shr_record := shr_record_of_loc (N / D) (locate N D).

Lemma located_m N D : shr_m (located N D) = N / D.
Proof. unfold located. by destruct (locate N D) as [|[]]. Qed.

Lemma located_loc N D : loc_of_shr_record (located N D) = locate N D.
Proof. unfold located. by destruct (locate N D) as [|[]]. Qed.

(** The record of a quotient and a remainder. *)
Lemma located_intro N D q r :
  0 < D -> 0 <= r < D -> N = D * q + r ->
  located N D = shr_record_of_loc q (if r =? 0 then loc_Exact else loc_Inexact (2 * r ?= D)).
Proof.
  intros HD Hr ->. unfold located, locate.
  assert (Hq : (D * q + r) / D = q) by (symmetry; apply (Z.div_unique_pos _ _ _ r); lia).
  assert (Hm : (D * q + r) mod D = r) by (symmetry; apply (Z.mod_unique_pos _ _ q); lia).
  by rewrite Hq, Hm.
Qed.

Lemma shr_1_located N D : 0 <= N -> 0 < D -> shr_1 (located N D) = located N (D * 2).
Proof.
  intros HN HD.
  pose proof (Z.div_mod N D ltac:(lia)) as HNq. pose proof (Z.mod_pos_bound N D HD) as Hr.
  set (q := N / D) in *. set (r := N mod D) in *.
  assert (Hq0 : 0 <= q) by (apply Z.div_pos; lia).
  pose proof (Z.div_mod q 2 ltac:(lia)) as Hq. pose proof (Z.mod_pos_bound q 2 ltac:(lia)) as Hb.
  set (h := q / 2) in *. set (b := q mod 2) in *.
  rewrite (located_intro N D q r HD Hr HNq).
  rewrite (located_intro N (D * 2) h (D * b + r)) by nia.
  assert (Hh : forall s t, shr_1 (Build_shr_record q s t) = Build_shr_record h (b =? 1) (s || t)).
  { intros s t. clearbody q h b. destruct q as [|p|p]; [|destruct p as [p|p|]|lia]; simpl.
    - assert (h = 0 /\ b = 0) as [-> ->] by lia. done.
    - assert (h = Z.pos p /\ b = 1) as [-> ->] by lia. done.
    - assert (h = Z.pos p /\ b = 0) as [-> ->] by lia. done.
    - assert (h = 0 /\ b = 1) as [-> ->] by lia. done. }
  assert (b = 0 \/ b = 1) as [Eb|Eb] by lia; rewrite Eb in *.
  - replace (D * 0 + r) with r by lia.
    destruct (Z.eqb_spec r 0) as [->|Hne]; [apply Hh|].
    assert (2 * r ?= D * 2 = Lt) as -> by (apply Z.compare_lt_iff; lia).
    destruct (2 * r ?= D); exact (Hh _ _).
  - rewrite Z.mul_1_r. rewrite (proj2 (Z.eqb_neq (D + r) 0)) by lia.
    destruct (Z.eqb_spec r 0) as [->|Hne].
    + assert (2 * (D + 0) ?= D * 2 = Eq) as -> by (apply Z.compare_eq_iff; lia). apply Hh.
    + assert (2 * (D + r) ?= D * 2 = Gt) as -> by (apply Z.compare_gt_iff; lia).
      destruct (2 * r ?= D); exact (Hh _ _).
Qed.

Lemma iter_located N D k :
  0 <= N -> 0 < D -> iter_pos shr_1 k (located N D) = located N (D * 2 ^ Z.pos k).
Proof.
  intros HN. revert D. induction k as [k IH|k IH|]; intros D HD; simpl iter_pos.
  - rewrite shr_1_located by lia. rewrite IH by lia.
    assert (0 < 2 ^ Z.pos k) by (apply Z.pow_pos_nonneg; lia). rewrite IH by nia.
    f_equal. rewrite (Pos2Z.inj_xI k), Z.pow_add_r, Z.pow_mul_r, Z.pow_1_r by lia. 
    replace (2 ^ 2) with (2 * 2) by lia. rewrite Z.pow_mul_l. lia.
  - rewrite IH by lia. assert (0 < 2 ^ Z.pos k) by (apply Z.pow_pos_nonneg; lia). rewrite IH by nia.
    f_equal. rewrite (Pos2Z.inj_xO k), Z.pow_mul_r by lia. replace (2 ^ 2) with (2 * 2) by lia.
    rewrite Z.pow_mul_l. lia.
  - rewrite shr_1_located by lia. done.
Qed.

(** ** Rounding to the nearest integer *)

Definition rne (N D : Z) : Z := round_nearest_even (N / D) (locate N D).

Lemma rne_mono N D N' D' :
  0 <= N -> 0 < D -> 0 <= N' -> 0 < D' -> N * D' <= N' * D -> rne N D <= rne N' D'.
Proof.
  intros HN HD HN' HD' Hle. unfold rne.
  pose proof (round_even_range (N / D) (locate N D)) as Hr1.
  pose proof (round_even_range (N' / D') (locate N' D')) as Hr2.
  unfold locate in *.
  pose proof (Z.div_mod N D ltac:(lia)) as HNq. pose proof (Z.mod_pos_bound N D HD) as Hr.
  pose proof (Z.div_mod N' D' ltac:(lia)) as HNq'. pose proof (Z.mod_pos_bound N' D' HD') as Hr'.
  set (q := N / D) in *. set (r := N mod D) in *. set (q' := N' / D') in *. set (r' := N' mod D') in *.
  assert (Hqq : q <= q').
  { unfold q'. apply Z.div_le_lower_bound; [done|]. apply (Z.mul_le_mono_pos_r _ _ D); [done|].
    assert (D * q * D' <= N * D') by (apply Z.mul_le_mono_nonneg_r; lia). lia. }
  destruct (Z.eq_dec q q') as [Eq|]; [|lia]. rewrite <-Eq in *.
  assert (Hrr : r * D' <= r' * D) by nia.
  destruct (Z.eqb_spec r 0) as [E0|H0]; [destruct (r' =? 0); [done|]; simpl in *; lia|].
  destruct (Z.eqb_spec r' 0) as [E0'|H0']; [exfalso; nia|].
  destruct (Z.compare_spec (2 * r) D) as [C|C|C], (Z.compare_spec (2 * r') D') as [C'|C'|C'];
    cbn [round_nearest_even] in *; try lia; try (exfalso; nia); destruct (Z.even q); lia.
Qed.

Lemma rne_bound N D k : 0 <= N -> 0 < D -> N < k * D -> rne N D <= k.
Proof.
  intros HN HD Hk. pose proof (round_even_range (N / D) (locate N D)).
  assert (N / D < k) by (apply Z.div_lt_upper_bound; lia). unfold rne. lia.
Qed.

Lemma rne_at_least N D k : 0 < D -> k * D <= N -> k <= rne N D.
Proof.
  intros HD Hk. pose proof (round_even_range (N / D) (locate N D)).
  assert (k <= N / D) by (apply Z.div_le_lower_bound; lia). unfold rne. lia.
Qed.

Lemma rne_exact k D : 0 < D -> rne (k * D) D = k.
Proof. intros HD. unfold rne, locate. by rewrite Z.mod_mul, Z.div_mul by lia. Qed.

(** ** Rounding to 53 bits *)

(** The exponent of the result. *)
Definition result_exp (N D e : Z) : Z := fexp 53 1024 (Zdigits2 (N / D) + e).

(** The mantissa [N / D] has the digits that rounding needs. *)
Definition enough (N D e : Z) : Prop := e <= result_exp N D e.

(** The result [n * 2 ^ E]: a carry moves into the exponent, too much is
    infinite. *)
Definition finish (E n : Z) : double :=
  if n =? 0 then S754_zero false
  else
    let '(n, E) := if n =? 2 ^ 53 then (2 ^ 52, E + 1) else (n, E) in
    if E <=? 971 then S754_finite false (Z.to_pos n) E else S754_infinity false.

Lemma shr_fexp_located N D e :
  0 <= N -> 0 < D -> enough N D e ->
  let E := result_exp N D e in
  shr_fexp 53 1024 (N / D) e (locate N D) = (located N (D * 2 ^ (E - e)), E).
Proof.
  intros HN HD He. cbv zeta. unfold shr_fexp, shr. fold (located N D).
  unfold enough in He. fold (result_exp N D e). set (E := result_exp N D e) in *.
  destruct (E - e) as [|p|p] eqn:Hd; [|..|lia].
  - rewrite Z.pow_0_r, Z.mul_1_r. by replace E with e by lia.
  - rewrite iter_located by done. f_equal. lia.
Qed.

(** The second shift of [binary_round_aux] only absorbs a carry. *)
Lemma shr_fexp_carry n E :
  0 <= n <= 2 ^ 53 -> -1074 <= E ->
  shr_fexp 53 1024 n E loc_Exact =
    if n =? 2 ^ 53 then (Build_shr_record (2 ^ 52) false false, E + 1)
    else (Build_shr_record n false false, E).
Proof.
  intros Hn HE. unfold shr_fexp, shr. destruct (Z.eqb_spec n (2 ^ 53)) as [->|Hne].
  - change (Zdigits2 (2 ^ 53)) with 54. unfold fexp, emin.
    replace (Z.max (54 + E - 53) (3 - 1024 - 53) - E) with 1 by lia. done.
  - pose proof (digits_lt n 53 ltac:(lia) ltac:(lia) ltac:(lia)) as Hd. unfold fexp, emin.
    set (k := _ - E). assert (Hk : k <= 0) by (unfold k; lia). clearbody k. by destruct k.
Qed.

Lemma result_exp_min N D e : -1074 <= result_exp N D e.
Proof. unfold result_exp, fexp, emin. lia. Qed.

Lemma result_mantissa N D e :
  0 <= N -> 0 < D -> enough N D e ->
  let E := result_exp N D e in
  0 <= rne N (D * 2 ^ (E - e)) <= 2 ^ 53 /\ (-1074 < E -> 2 ^ 52 <= rne N (D * 2 ^ (E - e))).
Proof.
  intros HN HD He E. unfold enough in He. fold E in He.
  assert (Hp : 0 < 2 ^ (E - e)) by (apply Z.pow_pos_nonneg; lia).
  assert (HE : E = Z.max (Zdigits2 (N / D) + e - 53) (-1074)) by done.
  pose proof (Z.div_mod N D ltac:(lia)) as HNq. pose proof (Z.mod_pos_bound N D HD) as Hr.
  assert (Hq : 0 <= N / D) by (apply Z.div_pos; lia).
  split; [split|].
  - apply rne_at_least; nia.
  - apply rne_bound; [done|nia|].
    assert (Hd : N / D < 2 ^ Z.max 0 (Zdigits2 (N / D))).
    { destruct (Z.eq_dec (N / D) 0) as [->|]; [simpl; lia|]. rewrite digits_log2 by lia.
      pose proof (Z.log2_nonneg (N / D)). rewrite Z.max_r by lia. apply Z.log2_spec. lia. }
    assert (2 ^ Z.max 0 (Zdigits2 (N / D)) <= 2 ^ (53 + (E - e))) by (apply Z.pow_le_mono_r; lia).
    rewrite Z.pow_add_r in * by lia. nia.
  - intros Hlt. apply rne_at_least; [nia|].
    assert (Hk : E - e = Zdigits2 (N / D) - 53) by lia.
    assert (Hpos : 0 < N / D).
    { destruct (Z.eq_dec (N / D) 0) as [E0|]; [|lia]. rewrite E0 in Hk. simpl in Hk. lia. }
    rewrite digits_log2 in Hk by done. pose proof (Z.log2_spec (N / D) Hpos) as [Hl _].
    replace (Z.log2 (N / D)) with (52 + (E - e)) in Hl by lia.
    rewrite Z.pow_add_r in Hl by lia. nia.
Qed.

Lemma round_result N D e :
  0 <= N -> 0 < D -> enough N D e ->
  let E := result_exp N D e in
  binary_round_aux 53 1024 false (N / D) e (locate N D) = finish E (rne N (D * 2 ^ (E - e))).
Proof.
  intros HN HD He. cbv zeta. pose proof (result_mantissa N D e HN HD He) as [Hn _]. cbv zeta in Hn.
  pose proof (result_exp_min N D e) as HE.
  unfold binary_round_aux. rewrite (shr_fexp_located N D e HN HD He). cbv zeta.
  rewrite located_m, located_loc.
  change (round_nearest_even (N / (D * 2 ^ (result_exp N D e - e)))
    (locate N (D * 2 ^ (result_exp N D e - e)))) with (rne N (D * 2 ^ (result_exp N D e - e))).
  set (E := result_exp N D e) in *. set (n := rne N _) in *. clearbody n E.
  rewrite shr_fexp_carry by done. unfold finish.
  destruct (Z.eqb_spec n 0) as [->|H0]; [done|].
  destruct (Z.eqb_spec n (2 ^ 53)) as [->|H1]; [done|].
  simpl. destruct n; [done|done|lia].
Qed.

(** ** The order of the results *)

Definition canonical (m : positive) (e : Z) : Prop :=
  -1074 <= e /\ Z.pos m < 2 ^ 53 /\ (-1074 < e -> 2 ^ 52 <= Z.pos m).

(** Doubles as rounding makes them, without a sign. *)
Definition nonneg (d : double) : Prop :=
  match d with
  | S754_zero _ => True
  | S754_infinity s => s = false
  | S754_finite s m e => s = false /\ canonical m e /\ e <= 971
  | S754_nan => False
  end.

Lemma leb_finite m e m' e' :
  SFleb (S754_finite false m e) (S754_finite false m' e') = true <->
  e < e' \/ (e = e' /\ Z.pos m <= Z.pos m').
Proof.
  unfold SFleb, SFcompare. destruct (Z.compare_spec e e') as [->|?|?].
  - change (Pos.compare_cont Eq m m') with (m ?= m')%positive.
    destruct (Pos.compare_spec m m'); split; try done; lia.
  - split; [auto|done].
  - split; [done|lia].
Qed.

Lemma nonneg_cases x :
  nonneg x ->
  (exists s, x = S754_zero s) \/ x = S754_infinity false \/
  exists m e, x = S754_finite false m e /\ canonical m e /\ e <= 971.
Proof.
  destruct x as [s|[]| |[] m e]; intros Hx; [by left; exists s|done|by right; left|done|by destruct Hx|].
  right; right. exists m, e. destruct Hx as (_ & ? & ?). done.
Qed.

Lemma leb_trans x y z : nonneg x -> nonneg y -> nonneg z ->
  SFleb x y = true -> SFleb y z = true -> SFleb x z = true.
Proof.
  destruct x as [?|[]| |[] m1 e1], y as [?|[]| |[] m2 e2], z as [?|[]| |[] m3 e3]; try done;
    try (by intros (? & _)); try (by intros _ (? & _)); try (by intros _ _ (? & _)).
  intros _ _ _. rewrite !leb_finite. lia.
Qed.

Lemma leb_refl x : nonneg x -> SFleb x x = true.
Proof.
  destruct x as [?|[]| |[] m e]; try done; [by intros (? & _)|].
  intros _. apply leb_finite. lia.
Qed.

(** What [finish] makes of a mantissa within its range. *)
Lemma finish_cases E n :
  0 <= n <= 2 ^ 53 -> -1074 <= E -> (-1074 < E -> 2 ^ 52 <= n) ->
  (n = 0 /\ finish E n = S754_zero false) \/
  (exists m e, finish E n = (if e <=? 971 then S754_finite false m e else S754_infinity false) /\
     canonical m e /\
     ((n = 2 ^ 53 /\ Z.pos m = 2 ^ 52 /\ e = E + 1) \/ (0 < n < 2 ^ 53 /\ Z.pos m = n /\ e = E))).
Proof.
  intros Hn HE Hlow. unfold finish. destruct (Z.eqb_spec n 0) as [->|H0]; [by left|right].
  destruct (Z.eqb_spec n (2 ^ 53)) as [->|H1].
  - exists (Z.to_pos (2 ^ 52)), (E + 1). split; [done|]. split; [|left; repeat split; lia].
    split_and!; [lia|done|done].
  - exists (Z.to_pos n), E. split; [done|]. rewrite Z2Pos.id by lia.
    split; [|right; repeat split; lia]. unfold canonical. rewrite Z2Pos.id by lia. split_and!; [lia|lia|auto].
Qed.

Lemma finish_nonneg E n :
  0 <= n <= 2 ^ 53 -> -1074 <= E -> (-1074 < E -> 2 ^ 52 <= n) -> nonneg (finish E n).
Proof.
  intros Hn HE Hlow. destruct (finish_cases E n Hn HE Hlow) as [(_ & ->)|(m & e & -> & Hnn & _)]; [done|].
  destruct (Z.leb_spec e 971); done.
Qed.

Lemma finish_le E1 n1 E2 n2 :
  0 <= n1 <= 2 ^ 53 -> -1074 <= E1 -> (-1074 < E1 -> 2 ^ 52 <= n1) ->
  0 <= n2 <= 2 ^ 53 -> -1074 <= E2 -> (-1074 < E2 -> 2 ^ 52 <= n2) ->
  E1 < E2 \/ (E1 = E2 /\ n1 <= n2) -> SFleb (finish E1 n1) (finish E2 n2) = true.
Proof.
  intros Hn1 HE1 Hl1 Hn2 HE2 Hl2 Hle.
  destruct (finish_cases E1 n1 Hn1 HE1 Hl1) as [(_ & ->)|(m1 & e1 & -> & _ & H1)].
  - pose proof (finish_nonneg E2 n2 Hn2 HE2 Hl2) as H2.
    destruct (finish E2 n2) as [?|[]| |[] ? ?]; try done. by destruct H2.
  - destruct (finish_cases E2 n2 Hn2 HE2 Hl2) as [(H2 & _)|(m2 & e2 & -> & _ & H2)]; [lia|].
    assert (Hme : e1 < e2 \/ (e1 = e2 /\ Z.pos m1 <= Z.pos m2)) by lia.
    destruct (Z.leb_spec e1 971), (Z.leb_spec e2 971); try done; [by apply leb_finite|lia].
Qed.

(** ** Monotonicity *)

(** [N / D * 2 ^ e <= N' / D' * 2 ^ e']. *)
Definition frac_le (N D e N' D' e' : Z) : Prop :=
  N * D' * 2 ^ (e - Z.min e e') <= N' * D * 2 ^ (e' - Z.min e e').

Lemma frac_le_at E N D e N' D' e' :
  e <= E -> e' <= E -> frac_le N D e N' D' e' ->
  N * (D' * 2 ^ (E - e')) <= N' * (D * 2 ^ (E - e)).
Proof.
  intros He He'. unfold frac_le. set (c := Z.min e e'). intros Hle.
  assert (0 < 2 ^ (e - c)) by (apply Z.pow_pos_nonneg; lia).
  assert (0 < 2 ^ (e' - c)) by (apply Z.pow_pos_nonneg; lia).
  assert (H1 : 2 ^ (E - c) = 2 ^ (E - e) * 2 ^ (e - c)) by (rewrite <-Z.pow_add_r by lia; f_equal; lia).
  assert (H2 : 2 ^ (E - c) = 2 ^ (E - e') * 2 ^ (e' - c)) by (rewrite <-Z.pow_add_r by lia; f_equal; lia).
  assert (0 < 2 ^ (E - c)) by (apply Z.pow_pos_nonneg; lia).
  apply (Z.mul_le_mono_pos_r _ _ (2 ^ (e - c) * 2 ^ (e' - c))); [nia|].
  replace (N * (D' * 2 ^ (E - e')) * (2 ^ (e - c) * 2 ^ (e' - c)))
    with (N * D' * 2 ^ (e - c) * (2 ^ (E - e') * 2 ^ (e' - c))) by ring.
  replace (N' * (D * 2 ^ (E - e)) * (2 ^ (e - c) * 2 ^ (e' - c)))
    with (N' * D * 2 ^ (e' - c) * (2 ^ (E - e) * 2 ^ (e - c))) by ring.
  rewrite <-H1, <-H2. apply Z.mul_le_mono_nonneg_r; lia.
Qed.

Lemma result_exp_mono N D e N' D' e' :
  0 <= N -> 0 < D -> 0 <= N' -> 0 < D' -> enough N D e -> frac_le N D e N' D' e' ->
  result_exp N D e <= result_exp N' D' e'.
Proof.
  intros HN HD HN' HD' Hen Hle.
  destruct (Z.eq_dec (N / D) 0) as [E0|Hq].
  { unfold enough, result_exp, fexp, emin in *. rewrite E0 in *. simpl Zdigits2 in *. lia. }
  pose proof (Z.div_mod N D ltac:(lia)) as HNq. pose proof (Z.mod_pos_bound N D HD) as Hr.
  pose proof (Z.div_mod N' D' ltac:(lia)) as HNq'. pose proof (Z.mod_pos_bound N' D' HD') as Hr'.
  assert (Hq0 : 0 <= N / D) by (apply Z.div_pos; lia). assert (0 <= N' / D') by (apply Z.div_pos; lia).
  unfold result_exp. set (d := Zdigits2 (N / D)). set (d' := Zdigits2 (N' / D')).
  assert (Hd : 1 <= d /\ 2 ^ (d - 1) * D <= N).
  { unfold d. rewrite digits_log2 by lia. pose proof (Z.log2_nonneg (N / D)).
    pose proof (Z.log2_spec (N / D) ltac:(lia)) as [Hl _]. split; [lia|].
    replace (Z.log2 (N / D) + 1 - 1) with (Z.log2 (N / D)) by lia. nia. }
  assert (Hd' : 0 <= d' /\ N' < 2 ^ d' * D').
  { unfold d'. destruct (Z.eq_dec (N' / D') 0) as [E0|]; [rewrite E0 in *; simpl; lia|].
    rewrite digits_log2 by lia. pose proof (Z.log2_nonneg (N' / D')).
    pose proof (Z.log2_spec (N' / D') ltac:(lia)) as [_ Hl]. unfold Z.succ in Hl. split; [lia|nia]. }
  destruct Hd as [Hd1 Hd], Hd' as [Hd1' Hd'].
  assert (Hdd : d + e <= d' + e'); [|unfold fexp; lia].
  unfold frac_le in Hle. set (c := Z.min e e') in *.
  assert (0 < 2 ^ (e - c)) by (apply Z.pow_pos_nonneg; lia).
  assert (0 < 2 ^ (e' - c)) by (apply Z.pow_pos_nonneg; lia).
  assert (Hlt : 2 ^ (d - 1 + (e - c)) * (D * D') < 2 ^ (d' + (e' - c)) * (D * D')).
  { rewrite !Z.pow_add_r by lia.
    assert (2 ^ (d - 1) * D * (D' * 2 ^ (e - c)) <= N * (D' * 2 ^ (e - c))) by (apply Z.mul_le_mono_nonneg_r; nia).
    assert (N' * (D * 2 ^ (e' - c)) < 2 ^ d' * D' * (D * 2 ^ (e' - c))) by (apply Z.mul_lt_mono_pos_r; nia).
    lia. }
  apply Z.mul_lt_mono_pos_r in Hlt; [|nia]. apply Z.pow_lt_mono_r_iff in Hlt; lia.
Qed.

(** Rounding preserves the order of the exact values. *)
Lemma round_mono N D e N' D' e' :
  0 <= N -> 0 < D -> enough N D e -> 0 <= N' -> 0 < D' -> enough N' D' e' -> frac_le N D e N' D' e' ->
  SFleb (binary_round_aux 53 1024 false (N / D) e (locate N D))
        (binary_round_aux 53 1024 false (N' / D') e' (locate N' D')) = true.
Proof.
  intros HN HD Hen HN' HD' Hen' Hle. rewrite !round_result by done.
  pose proof (result_exp_mono N D e N' D' e' HN HD HN' HD' Hen Hle) as HE.
  destruct (result_mantissa N D e HN HD Hen) as [Hn Hl].
  destruct (result_mantissa N' D' e' HN' HD' Hen') as [Hn' Hl']. cbv zeta in *.
  apply finish_le; try done; try apply result_exp_min.
  destruct (Z.eq_dec (result_exp N D e) (result_exp N' D' e')) as [EE|]; [right|left; lia].
  split; [done|]. unfold enough in *. rewrite <-EE in *.
  apply rne_mono; [done|apply Z.mul_pos_pos; [done|apply Z.pow_pos_nonneg; lia]|done
                  |apply Z.mul_pos_pos; [done|apply Z.pow_pos_nonneg; lia]|].
  by apply frac_le_at.
Qed.

Lemma round_nonneg N D e :
  0 <= N -> 0 < D -> enough N D e -> nonneg (binary_round_aux 53 1024 false (N / D) e (locate N D)).
Proof.
  intros HN HD Hen. rewrite round_result by done.
  destruct (result_mantissa N D e HN HD Hen) as [Hn Hl].
  apply finish_nonneg; [done|apply result_exp_min|done].
Qed.

(** ** Conversion, division and multiplication *)

Lemma locate_1 N : 0 <= N -> N / 1 = N /\ locate N 1 = loc_Exact.
Proof. intros HN. unfold locate. by rewrite Z.mod_1_r, Z.div_1_r. Qed.

Lemma digits_shift m k : 0 < m -> 0 <= k -> Zdigits2 (m * 2 ^ k) = Zdigits2 m + k.
Proof.
  intros Hm Hk. assert (0 < 2 ^ k) by (apply Z.pow_pos_nonneg; lia).
  rewrite !digits_log2 by nia. rewrite Z.log2_mul_pow2 by lia. lia.
Qed.

Lemma digits_mono m m' : 0 < m <= m' -> Zdigits2 m <= Zdigits2 m'.
Proof. intros Hm. rewrite !digits_log2 by lia. pose proof (Z.log2_le_mono m m'). lia. Qed.

Lemma canonical_exp m e : canonical m e -> fexp 53 1024 (Zdigits2 (Z.pos m) + e) = e.
Proof.
  intros (He & Hm & Hl). unfold fexp, emin.
  pose proof (digits_lt (Z.pos m) 53 ltac:(lia) ltac:(lia) Hm).
  destruct (Z.eq_dec e (-1074)) as [->|]; [lia|].
  pose proof (digits_ge (Z.pos m) 52 ltac:(lia) ltac:(apply Hl; lia)). lia.
Qed.

(** [frac_le] may be tested with any common exponent. *)
Lemma frac_le_any c N D e N' D' e' :
  c <= e -> c <= e' -> N * D' * 2 ^ (e - c) <= N' * D * 2 ^ (e' - c) <-> frac_le N D e N' D' e'.
Proof.
  intros Hc Hc'. unfold frac_le. set (d := Z.min e e').
  assert (0 < 2 ^ (d - c)) by (apply Z.pow_pos_nonneg; lia).
  replace (2 ^ (e - c)) with (2 ^ (e - d) * 2 ^ (d - c)) by (rewrite <-Z.pow_add_r by lia; f_equal; lia).
  replace (2 ^ (e' - c)) with (2 ^ (e' - d) * 2 ^ (d - c)) by (rewrite <-Z.pow_add_r by lia; f_equal; lia).
  rewrite !Z.mul_assoc. symmetry. by apply Z.mul_le_mono_pos_r.
Qed.

(** The order of doubles is that of their values. *)
Lemma leb_frac m e m' e' :
  canonical m e -> canonical m' e' -> SFleb (S754_finite false m e) (S754_finite false m' e') = true ->
  frac_le (Z.pos m) 1 e (Z.pos m') 1 e'.
Proof.
  intros (He & Hm & Hl) (He' & Hm' & Hl') [Hlt|[-> Hle]]%leb_finite; unfold frac_le.
  - rewrite Z.min_l, Z.sub_diag by lia.
    assert (2 ^ 1 <= 2 ^ (e' - e)) by (apply Z.pow_le_mono_r; lia).
    specialize (Hl' ltac:(lia)). nia.
  - rewrite Z.min_id, Z.sub_diag. lia.
Qed.

(** What each operation rounds: a fraction that has digits enough. *)
Definition rounds (d : double) (N D e : Z) : Prop :=
  d = binary_round_aux 53 1024 false (N / D) e (locate N D) /\ 0 <= N /\ 0 < D /\ enough N D e.

Lemma rounds_nonneg d N D e : rounds d N D e -> nonneg d.
Proof. intros (-> & HN & HD & Hen). by apply round_nonneg. Qed.

Lemma rounds_mono d N D e d' N' D' e' :
  rounds d N D e -> rounds d' N' D' e' -> frac_le N D e N' D' e' -> SFleb d d' = true.
Proof. intros (-> & ? & ? & ?) (-> & ? & ? & ?) Hle. by apply round_mono. Qed.

Lemma zero_leb s d : nonneg d -> SFleb (S754_zero s) d = true.
Proof. destruct d as [?|[]| |[] m e]; try done. by intros (? & _). Qed.

Lemma rounds_integer p :
  exists e, rounds (to_double (Z.pos p)) (Z.pos p * 2 ^ (- e)) 1 e /\
            e = Z.min 0 (fexp 53 1024 (Zdigits2 (Z.pos p))).
Proof.
  unfold to_double, binary_normalize, binary_round.
  destruct (shl_align _ _ _) as [mz ez] eqn:H. apply shl_align_spec in H as [He Hm].
  rewrite Z.add_0_r in He. rewrite Z.sub_0_l in Hm. exists ez.
  change (Z.pos (digits2_pos p)) with (Zdigits2 (Z.pos p)) in He. split; [|lia].
  rewrite <-Hm. destruct (locate_1 (Z.pos mz) ltac:(done)) as [Hd Hl].
  unfold rounds, enough, result_exp. rewrite Hd, Hl. split_and!; [done..|].
  rewrite Hm, digits_shift by lia.
  replace (Zdigits2 (Z.pos p) + - ez + ez) with (Zdigits2 (Z.pos p)) by lia. lia.
Qed.

Lemma to_double_nonneg z : 0 <= z -> nonneg (to_double z).
Proof.
  destruct z as [|p|p]; intros Hz; [done| |lia]. destruct (rounds_integer p) as (e & H & _).
  by eapply rounds_nonneg.
Qed.

(** Conversion preserves the order of the integers. *)
Lemma to_double_mono z z' : 0 <= z <= z' -> SFleb (to_double z) (to_double z') = true.
Proof.
  intros Hz. destruct z as [|p|p]; [apply zero_leb, to_double_nonneg; lia| |lia].
  destruct z' as [|p'|p']; [lia| |lia].
  destruct (rounds_integer p) as (e & H & He), (rounds_integer p') as (e' & H' & He').
  apply (rounds_mono _ _ _ _ _ _ _ _ H H'). unfold frac_le. set (c := Z.min e e').
  rewrite !Z.mul_1_r, <-!Z.mul_assoc, <-!Z.pow_add_r by lia.
  replace (- e + (e - c)) with (- c) by lia. replace (- e' + (e' - c)) with (- c) by lia.
  apply Z.mul_le_mono_nonneg_r; [apply Z.pow_nonneg|]; lia.
Qed.

(** Below [2 ^ 53] it is exact, hence strictly monotone. *)
Lemma to_double_exact p :
  Z.pos p < 2 ^ 53 ->
  exists m e, to_double (Z.pos p) = S754_finite false m e /\ canonical m e /\
              Z.pos m = Z.pos p * 2 ^ (- e) /\ e <= 0.
Proof.
  intros Hp. destruct (rounds_integer p) as (e & (Hd & HN & HD & Hen) & He).
  pose proof (to_double_nonneg (Z.pos p) ltac:(done)) as Hnn. revert Hnn.
  rewrite Hd. rewrite round_result by done. cbv zeta.
  pose proof (digits_lt (Z.pos p) 53 ltac:(done) ltac:(done) Hp) as Hdig.
  assert (Hx : result_exp (Z.pos p * 2 ^ (- e)) 1 e = e).
  { unfold result_exp. rewrite Z.div_1_r, digits_shift by lia.
    replace (Zdigits2 (Z.pos p) + - e + e) with (Zdigits2 (Z.pos p)) by lia. unfold fexp, emin in *. lia. }
  rewrite Hx, Z.sub_diag. change (1 * 2 ^ 0) with 1. 
  pose proof (rne_exact (Z.pos p * 2 ^ (- e)) 1 ltac:(done)) as Hr. rewrite Z.mul_1_r in Hr. rewrite Hr.
  assert (0 < 2 ^ (- e)) by (apply Z.pow_pos_nonneg; lia).
  assert (Hlt : Z.pos p * 2 ^ (- e) < 2 ^ 53).
  { assert (Z.pos p < 2 ^ Zdigits2 (Z.pos p)) by (rewrite digits_log2 by done; by apply Z.log2_spec).
    assert (2 ^ (Zdigits2 (Z.pos p) + - e) <= 2 ^ 53) by (apply Z.pow_le_mono_r; unfold fexp, emin in *; lia).
    rewrite Z.pow_add_r in * by lia. nia. }
  unfold finish. rewrite (proj2 (Z.eqb_neq _ 0)), (proj2 (Z.eqb_neq _ (2 ^ 53))) by nia.
  rewrite (proj2 (Z.leb_le e 971)) by lia. intros (_ & Hc & _).
  exists (Z.to_pos (Z.pos p * 2 ^ (- e))), e. split_and!; [done|done|apply Z2Pos.id; nia|lia].
Qed.

Lemma to_double_lt z z' : 0 <= z < z' -> z' < 2 ^ 53 -> SFleb (to_double z') (to_double z) = false.
Proof.
  intros Hz Hz'. destruct z' as [|p'|p']; [lia| |lia].
  destruct (to_double_exact p' Hz') as (m' & e' & -> & Hc' & Hm' & He').
  destruct z as [|p|p]; [done| |lia].
  destruct (to_double_exact p ltac:(lia)) as (m & e & -> & Hc & Hm & He).
  destruct (SFleb _ _) eqn:Hle; [|done]. exfalso.
  pose proof (leb_frac _ _ _ _ Hc' Hc Hle) as Hf. unfold frac_le in Hf. rewrite Hm, Hm' in Hf.
  set (c := Z.min e' e) in *. rewrite !Z.mul_1_r, <-!Z.mul_assoc, <-!Z.pow_add_r in Hf by lia.
  replace (- e' + (e' - c)) with (- c) in Hf by lia. replace (- e + (e - c)) with (- c) in Hf by lia.
  apply Z.mul_le_mono_pos_r in Hf; [lia|]. apply Z.pow_pos_nonneg; lia.
Qed.

(** *** Division *)

Lemma new_location_locate m2 m' :
  0 < m2 -> new_location m2 (m' mod m2) = locate m' m2.
Proof.
  intros Hm2. pose proof (Z.mod_pos_bound m' m2 Hm2) as Hr.
  unfold new_location, new_location_even, new_location_odd, locate. set (r := m' mod m2) in *.
  destruct (Z.even m2) eqn:He; [done|]. destruct (r =? 0); [done|]. f_equal.
  rewrite <-Z.negb_odd in He. apply negb_false_iff, Z.odd_spec in He as [k ->].
  destruct (Z.compare_spec (2 * r + 1) (2 * k + 1)), (Z.compare_spec (2 * r) (2 * k + 1)); lia || done.
Qed.

Lemma rounds_div m1 e1 m2 e2 :
  exists e, rounds (double_div (S754_finite false m1 e1) (S754_finite false m2 e2))
              (Z.pos m1 * 2 ^ (e1 - e2 - e)) (Z.pos m2) e /\ e <= e1 - e2.
Proof.
  unfold double_div, SFdiv, SFdiv_core_binary. cbn [xorb].
  set (e := Z.min _ _). exists e. assert (He : e <= e1 - e2) by lia. split; [|done].
  set (m' := match _ with Z0 => _ | _ => _ end).
  assert (Hm' : m' = Z.pos m1 * 2 ^ (e1 - e2 - e)).
  { subst m'. destruct (e1 - e2 - e) as [|s|s] eqn:Hs; [lia| |lia]. by rewrite Z.shiftl_mul_pow2. }
  rewrite <-Hm'. pose proof (Z_div_mod m' (Z.pos m2) ltac:(lia)) as Hdiv.
  destruct (Z.div_eucl m' (Z.pos m2)) as [q r] eqn:Hqr. destruct Hdiv as [Heq Hr].
  assert (Hq : m' / Z.pos m2 = q) by (symmetry; apply (Z.div_unique_pos _ _ _ r); lia).
  assert (Hr' : m' mod Z.pos m2 = r) by (symmetry; apply (Z.mod_unique_pos _ _ q); lia).
  assert (0 < 2 ^ (e1 - e2 - e)) by (apply Z.pow_pos_nonneg; lia).
  unfold rounds. rewrite Hq. rewrite <-Hr', new_location_locate by done. split_and!; [done|nia|done|].
  unfold enough, result_exp. rewrite Hq.
  set (d1 := Zdigits2 (Z.pos m1)). set (d2 := Zdigits2 (Z.pos m2)).
  assert (e <= fexp 53 1024 (d1 + e1 - (d2 + e2))) by (unfold d1, d2; lia).
  assert (Hd : d1 + (e1 - e2 - e) - d2 <= Zdigits2 q \/ e <= -1074); [|unfold fexp, emin in *; lia].
  destruct (Z.le_gt_cases e (-1074)); [by right|left].
  set (s := e1 - e2 - e) in *.
  assert (Hl1 : 2 ^ (d1 - 1 + s) <= m').
  { rewrite Z.pow_add_r by (unfold d1; rewrite ?digits_log2 by done; pose proof (Z.log2_nonneg (Z.pos m1)); lia).
    rewrite Hm'. apply Z.mul_le_mono_nonneg_r; [lia|]. unfold d1. rewrite digits_log2 by done.
    pose proof (Z.log2_spec (Z.pos m1) ltac:(done)) as [Hl _].
    by replace (Z.log2 (Z.pos m1) + 1 - 1) with (Z.log2 (Z.pos m1)) by lia. }
  assert (Hl2 : Z.pos m2 < 2 ^ d2).
  { unfold d2. rewrite digits_log2 by done. apply (Z.log2_spec (Z.pos m2)). done. }
  assert (Hd1 : 1 <= d1) by (unfold d1; rewrite digits_log2 by done; pose proof (Z.log2_nonneg (Z.pos m1)); lia).
  assert (Hd2 : 1 <= d2) by (unfold d2; rewrite digits_log2 by done; pose proof (Z.log2_nonneg (Z.pos m2)); lia).
  destruct (Z.le_gt_cases (d1 + s - d2) 0).
  { assert (0 <= Zdigits2 q); [|lia]. assert (0 <= q) by nia. destruct q as [|q|q]; [done|done|lia]. }
  assert (2 ^ (d1 + s - d2 - 1) <= q); [|pose proof (digits_ge q (d1 + s - d2 - 1)); lia].
  assert (2 ^ (d1 - 1 + s) = 2 ^ (d1 + s - d2 - 1) * 2 ^ d2) as Hpow
    by (rewrite <-Z.pow_add_r by lia; f_equal; lia).
  assert (0 < 2 ^ (d1 + s - d2 - 1)) by (apply Z.pow_pos_nonneg; lia).
  nia.
Qed.

(** A positive divisor preserves the order. *)
Lemma double_div_mono x x' m e :
  nonneg x -> nonneg x' -> SFleb x x' = true ->
  SFleb (double_div x (S754_finite false m e)) (double_div x' (S754_finite false m e)) = true.
Proof.
  destruct x as [?|[]| |[] m1 e1], x' as [?|[]| |[] m2 e2]; try done;
    try (by intros (? & _)); try (by intros _ (? & _)); intros Hx Hx' Hle.
  - destruct (rounds_div m2 e2 m e) as (k & H & _). by apply zero_leb, (rounds_nonneg _ _ _ _ H).
  - destruct (rounds_div m1 e1 m e) as (k & H & _). pose proof (rounds_nonneg _ _ _ _ H) as Hn.
    simpl double_div at 2. destruct (double_div _ _) as [?|[]| |[] ? ?]; try done.
  - destruct Hx as (_ & Hc1 & _), Hx' as (_ & Hc2 & _).
    destruct (rounds_div m1 e1 m e) as (k & H & Hk), (rounds_div m2 e2 m e) as (k' & H' & Hk').
    apply (rounds_mono _ _ _ _ _ _ _ _ H H').
    pose proof (leb_frac _ _ _ _ Hc1 Hc2 Hle) as Hf. apply (frac_le_any (Z.min k k' + e)) in Hf; [|lia..].
    unfold frac_le. set (c := Z.min k k') in *.
    replace (Z.pos m1 * 2 ^ (e1 - e - k) * Z.pos m * 2 ^ (k - c))
      with (Z.pos m1 * Z.pos m * (2 ^ (e1 - e - k) * 2 ^ (k - c))) by ring.
    replace (Z.pos m2 * 2 ^ (e2 - e - k') * Z.pos m * 2 ^ (k' - c))
      with (Z.pos m2 * Z.pos m * (2 ^ (e2 - e - k') * 2 ^ (k' - c))) by ring.
    rewrite <-!Z.pow_add_r by lia.
    replace (e1 - e - k + (k - c)) with (e1 - (c + e)) by lia.
    replace (e2 - e - k' + (k' - c)) with (e2 - (c + e)) by lia. nia.
Qed.

(** A larger divisor makes a quotient smaller. *)
Lemma double_div_anti m e m1 e1 m2 e2 :
  canonical m1 e1 -> canonical m2 e2 -> SFleb (S754_finite false m1 e1) (S754_finite false m2 e2) = true ->
  SFleb (double_div (S754_finite false m e) (S754_finite false m2 e2))
        (double_div (S754_finite false m e) (S754_finite false m1 e1)) = true.
Proof.
  intros Hc1 Hc2 Hle. destruct (rounds_div m e m2 e2) as (k & H & Hk), (rounds_div m e m1 e1) as (k' & H' & Hk').
  apply (rounds_mono _ _ _ _ _ _ _ _ H H'). pose proof (leb_frac _ _ _ _ Hc1 Hc2 Hle) as Hf.
  set (c := Z.min k k'). apply (frac_le_any (e1 + e2 + c - e)) in Hf; [|lia..]. unfold frac_le. fold c.
  replace (Z.pos m * 2 ^ (e - e2 - k) * Z.pos m1 * 2 ^ (k - c))
    with (Z.pos m * Z.pos m1 * (2 ^ (e - e2 - k) * 2 ^ (k - c))) by ring.
  replace (Z.pos m * 2 ^ (e - e1 - k') * Z.pos m2 * 2 ^ (k' - c))
    with (Z.pos m * Z.pos m2 * (2 ^ (e - e1 - k') * 2 ^ (k' - c))) by ring.
  rewrite <-!Z.pow_add_r by lia.
  replace (e - e2 - k + (k - c)) with (e1 - (e1 + e2 + c - e)) by lia.
  replace (e - e1 - k' + (k' - c)) with (e2 - (e1 + e2 + c - e)) by lia. nia.
Qed.

(** Truncated, a double of at most 10^9 is at most 10^9. *)
Lemma to_int64_bound d :
  nonneg d -> SFleb d (to_double 1000000000) = true -> exists z, to_int64 d = Some z /\ 0 <= z <= 1000000000.
Proof.
  change (to_double 1000000000) with (S754_finite false (Z.to_pos (1000000000 * 2 ^ 23)) (-23)).
  intros Hn. destruct (nonneg_cases d Hn) as [[s ->]|[->|(m & e & -> & (He & Hm & _) & _)]]; [by exists 0|done|].
  rewrite leb_finite. intros Hle. rewrite Z2Pos.id in Hle by done. simpl to_int64.
  rewrite (proj2 (Z.leb_gt 0 e)) by lia. set (z := Z.pos m / 2 ^ (- e)).
  assert (Hz : 0 <= z <= 1000000000).
  { assert (0 < 2 ^ (- e)) by (apply Z.pow_pos_nonneg; lia). split; [apply Z.div_pos; lia|].
    apply Z.div_le_upper_bound; [done|]. destruct Hle as [Hlt|[-> Hle]]; [|simpl Z.pow in *; lia].
    assert (2 ^ 24 <= 2 ^ (- e)) by (apply Z.pow_le_mono_r; lia). simpl Z.pow in *. lia. }
  exists z. split; [|done]. by rewrite (proj2 (andb_true_iff _ _)) by lia.
Qed.

Lemma double_div_nonneg x m e : nonneg x -> nonneg (double_div x (S754_finite false m e)).
Proof.
  destruct x as [?|[]| |[] m1 e1]; try done; [by intros (? & _)|]. intros _.
  destruct (rounds_div m1 e1 m e) as (k & H & _). by eapply rounds_nonneg.
Qed.

(** *** Multiplication *)

Lemma rounds_mul m1 e1 m2 e2 :
  canonical m1 e1 -> canonical m2 e2 ->
  rounds (double_mul (S754_finite false m1 e1) (S754_finite false m2 e2))
    (Z.pos m1 * Z.pos m2) 1 (e1 + e2).
Proof.
  intros (He1 & Hm1 & Hl1) (He2 & Hm2 & Hl2). destruct (locate_1 (Z.pos m1 * Z.pos m2) ltac:(done)) as [Hd Hl].
  unfold rounds, enough, result_exp. rewrite Hd, Hl. split_and!; [done..|].
  destruct (Z.le_gt_cases (e1 + e2) (-1074)); [unfold fexp, emin; lia|].
  assert (52 < Zdigits2 (Z.pos m1 * Z.pos m2)); [|unfold fexp, emin; lia].
  apply digits_ge; [done|]. destruct (Z.eq_dec e1 (-1074)) as [->|]; [|specialize (Hl1 ltac:(lia)); nia].
  specialize (Hl2 ltac:(lia)). nia.
Qed.

Lemma double_mul_nonneg x m e : nonneg x -> canonical m e -> nonneg (double_mul x (S754_finite false m e)).
Proof.
  destruct x as [?|[]| |[] m1 e1]; try done; [by intros (? & _)|]. intros (_ & Hc & _) Hc'.
  eapply rounds_nonneg, rounds_mul; done.
Qed.

(** A positive factor preserves the order. *)
Lemma double_mul_mono x x' m e :
  nonneg x -> nonneg x' -> canonical m e -> SFleb x x' = true ->
  SFleb (double_mul x (S754_finite false m e)) (double_mul x' (S754_finite false m e)) = true.
Proof.
  intros Hx Hx' Hc Hle. pose proof (double_mul_nonneg x m e Hx Hc) as Hn.
  pose proof (double_mul_nonneg x' m e Hx' Hc) as Hn'.
  destruct (nonneg_cases x Hx) as [[s ->]|[->|(m1 & e1 & -> & Hc1 & _)]]; [by apply zero_leb| |];
    destruct (nonneg_cases x' Hx') as [[s' ->]|[->|(m2 & e2 & -> & Hc2 & _)]]; try done.
  { change (double_mul (S754_infinity false) _) with (S754_infinity false).
    by destruct (nonneg_cases _ Hn) as [[s ->]|[->|(? & ? & -> & _)]]. }
  apply (rounds_mono _ _ _ _ _ _ _ _ (rounds_mul _ _ _ _ Hc1 Hc) (rounds_mul _ _ _ _ Hc2 Hc)).
  pose proof (leb_frac _ _ _ _ Hc1 Hc2 Hle) as Hf. unfold frac_le in *.
  replace (Z.min (e1 + e) (e2 + e)) with (Z.min e1 e2 + e) by lia.
  replace (e1 + e - (Z.min e1 e2 + e)) with (e1 - Z.min e1 e2) by lia.
  replace (e2 + e - (Z.min e1 e2 + e)) with (e2 - Z.min e1 e2) by lia. nia.
Qed.

(** One is neutral. *)
Lemma double_mul_1 m e :
  canonical m e -> e <= 971 -> double_mul (to_double 1) (S754_finite false m e) = S754_finite false m e.
Proof.
  intros Hc He. pose proof (canonical_exp m e Hc) as Hexp. destruct Hc as (He1 & Hm & Hl).
  change (to_double 1) with (S754_finite false (Z.to_pos (2 ^ 52)) (-52)).
  destruct (rounds_mul (Z.to_pos (2 ^ 52)) (-52) m e) as (-> & HN & HD & Hen); [by vm_compute|done|].
  rewrite round_result by done. rewrite Z2Pos.id in * by done.
  assert (HE : result_exp (2 ^ 52 * Z.pos m) 1 (-52 + e) = e).
  { unfold result_exp. rewrite Z.div_1_r, Z.mul_comm, digits_shift by lia.
    rewrite <-Hexp at 2. f_equal. lia. }
  rewrite HE. replace (1 * 2 ^ (e - (-52 + e))) with (2 ^ 52) by (replace (e - (-52 + e)) with 52 by lia; lia).
  rewrite Z.mul_comm, rne_exact by done. unfold finish.
  rewrite (proj2 (Z.eqb_neq (Z.pos m) 0)), (proj2 (Z.eqb_neq (Z.pos m) (2 ^ 53))) by lia.
  by rewrite (proj2 (Z.leb_le _ _)) by done.
Qed.
