(* ===== verification/Histogram.v ===== *)
(** * Histogram

    The logarithmic histogram (code/include/rdb/metrics/histogram.h). *)

From S2P Require Import Prelude Doubles.
Open Scope Z_scope.

Definition kSubBits : Z := 6.
Definition kSubCount : Z := Z.shiftl 1 kSubBits.
Definition kBucketCount : Z := kSubCount * (64 - kSubBits + 1).

Definition uint64_max : Z := 2 ^ 64 - 1.

(** [std::bit_width] of a value that is not zero. *)
Definition bit_width (v : Z) : Z := Z.log2 v + 1.

Definition index_of (value : Z) : Z :=
  if value <? kSubCount then value
  else
    let exponent := bit_width value - 1 in
    let shift := exponent - kSubBits in
    let sub := Z.shiftr (value -u u64 (Z.shiftl 1 exponent)) shift in
    kSubCount +u shift *u kSubCount +u sub.

Definition bucket_upper (index : Z) : Z :=
  if index <? kSubCount then index
  else
    let rel := index -u kSubCount in
    let shift := rel / kSubCount in
    let sub := rel `mod` kSubCount in
    let exponent := shift + kSubBits in
    let width := u64 (Z.shiftl 1 shift) in
    u64 (Z.shiftl 1 exponent) +u (sub +u 1) *u width -u 1.

Record Histogram := mkHistogram {
  counts_ : list Z;
  count_ : Z;
  sum_ : Z;
  min_ : Z;
  max_ : Z
}.

Definition new_histogram : Histogram :=
  mkHistogram (replicate (Z.to_nat kBucketCount) 0) 0 0 uint64_max 0.

Definition record (h : Histogram) (value : Z) : Histogram :=
  mkHistogram (alter (fun c => c +u 1) (Z.to_nat (index_of value)) (counts_ h))
    (count_ h +u 1) (sum_ h +u value)
    (if value <? min_ h then value else min_ h)
    (if max_ h <? value then value else max_ h).

Definition merge (h other : Histogram) : Histogram :=
  mkHistogram (zip_with (fun c d => c +u d) (counts_ h) (counts_ other))
    (count_ h +u count_ other) (sum_ h +u sum_ other)
    (Z.min (min_ h) (min_ other)) (Z.max (max_ h) (max_ other)).

Definition reset (h : Histogram) : Histogram :=
  mkHistogram ((fun _ => 0) <$> counts_ h) 0 0 uint64_max 0.

Definition count (h : Histogram) : Z := count_ h.
Definition min (h : Histogram) : Z := if count_ h =? 0 then 0 else min_ h.
Definition max (h : Histogram) : Z := max_ h.

(** ** Statistics *)

Definition mean (h : Histogram) : double :=
  if count_ h =? 0 then S754_zero false else double_div (to_double (sum_ h)) (to_double (count_ h)).

(** The scan of the buckets from index [i], with what was seen before. *)
Fixpoint percentile_loop (target : double) (max i seen : Z) (counts : list Z) : Z :=
  match counts with
  | [] => max
  | c :: counts =>
      let seen := seen +u c in
      if SFleb target (to_double seen) then bucket_upper i
      else percentile_loop target max (i + 1) seen counts
  end.

(** [p], forced between 0 and 100 (NaN stays). *)
Definition clamp (p : double) : double :=
  let p := if SFltb p (S754_zero false) then S754_zero false else p in
  if SFltb (to_double 100) p then to_double 100 else p.

Definition target_of (p : double) (count : Z) : double :=
  double_mul (double_div (clamp p) (to_double 100)) (to_double count).

Definition percentile (h : Histogram) (p : double) : Z :=
  if count_ h =? 0 then 0
  else percentile_loop (target_of p (count_ h)) (max_ h) 0 0 (counts_ h).

(** ** Where the buckets are *)

(** The least value of bucket [i]. *)
Definition bucket_lower (i : Z) : Z :=
  if i <? 64 then i else 2 ^ (i / 64 + 5) + (i `mod` 64) * 2 ^ (i / 64 - 1).

Ltac pow_pos :=
  repeat match goal with
  | |- context [2 ^ ?s] =>
      lazymatch goal with
      | _ : 0 < 2 ^ s |- _ => fail
      | _ => assert (0 < 2 ^ s) by (apply Z.pow_pos_nonneg; lia)
      end
  end.

(** Bucket [64 + 64 * s + k]. *)
Lemma bucket_lower_at s k :
  0 <= s -> 0 <= k < 64 -> bucket_lower (64 + 64 * s + k) = 2 ^ (s + 6) + k * 2 ^ s.
Proof.
  intros Hs Hk. unfold bucket_lower. rewrite (proj2 (Z.ltb_ge _ _)) by lia.
  replace (64 + 64 * s + k) with (k + (s + 1) * 64) by lia.
  rewrite Z.div_add, Z.mod_add, Z.div_small, Z.mod_small by lia.
  f_equal; [f_equal; lia|]. do 2 f_equal; lia.
Qed.

Lemma pow_split s : 0 <= s -> 2 ^ (s + 6) = 64 * 2 ^ s.
Proof. intros. rewrite Z.pow_add_r by lia. lia. Qed.

Lemma bucket_upper_at s k :
  0 <= s <= 57 -> 0 <= k < 64 ->
  bucket_upper (64 + 64 * s + k) = 2 ^ (s + 6) + (k + 1) * 2 ^ s - 1.
Proof.
  intros Hs Hk. unfold bucket_upper. change kSubCount with 64. change kSubBits with 6.
  rewrite (proj2 (Z.ltb_ge _ _)) by lia.
  rewrite (wrap_small 64 (64 + 64 * s + k - 64)) by (unfold fits; lia).
  replace (64 + 64 * s + k - 64) with (k + s * 64) by lia.
  rewrite Z.div_add, Z.mod_add, Z.div_small, Z.mod_small by lia.
  replace (0 + s) with s by lia. rewrite !Z.shiftl_1_l.
  assert (2 ^ s <= 2 ^ 57) by (apply Z.pow_le_mono_r; lia).
  assert (0 < 2 ^ s) by (apply Z.pow_pos_nonneg; lia).
  rewrite pow_split by lia. rewrite (wrap_small 64 (64 * 2 ^ s)) by (unfold fits; lia).
  rewrite (wrap_small 64 (k + 1)), (wrap_small 64 (2 ^ s)) by (unfold fits; lia).
  rewrite (wrap_small 64 ((k + 1) * 2 ^ s)) by (unfold fits; nia).
  rewrite wrap_sub_l. apply wrap_small. unfold fits. nia.
Qed.

(** The buckets follow one another without gap. *)
Lemma bucket_next i : 0 <= i < kBucketCount -> bucket_lower (i + 1) = bucket_upper i + 1.
Proof.
  change kBucketCount with 3776. intros Hi. destruct (Z.ltb_spec i 64) as [Hlt|Hge].
  - unfold bucket_upper. change kSubCount with 64. rewrite (proj2 (Z.ltb_lt i 64)) by done.
    destruct (Z.eq_dec i 63) as [->|]; [done|]. unfold bucket_lower.
    by rewrite (proj2 (Z.ltb_lt _ _)) by lia.
  - set (s := i / 64 - 1). set (k := i mod 64).
    pose proof (Z.div_mod i 64 ltac:(lia)) as Hdm. pose proof (Z.mod_pos_bound i 64 ltac:(lia)).
    assert (i / 64 < 59) by (apply Z.div_lt_upper_bound; lia).
    assert (1 <= i / 64) by (apply Z.div_le_lower_bound; lia).
    replace i with (64 + 64 * s + k) by lia. rewrite bucket_upper_at by lia.
    destruct (Z.eq_dec k 63) as [Hk|Hk].
    + replace (64 + 64 * s + k + 1) with (64 + 64 * (s + 1) + 0) by lia.
      rewrite bucket_lower_at, Hk by lia. replace (s + 1 + 6) with ((s + 6) + 1) by lia.
      rewrite Z.pow_add_r, pow_split by lia. lia.
    + replace (64 + 64 * s + k + 1) with (64 + 64 * s + (k + 1)) by lia.
      rewrite bucket_lower_at by lia. lia.
Qed.

Lemma bucket_width i : 0 <= i < kBucketCount -> bucket_lower i <= bucket_upper i.
Proof.
  change kBucketCount with 3776. intros Hi. destruct (Z.ltb_spec i 64) as [Hlt|Hge].
  - unfold bucket_upper, bucket_lower. change kSubCount with 64.
    rewrite (proj2 (Z.ltb_lt i 64)) by done. lia.
  - set (s := i / 64 - 1). set (k := i mod 64).
    pose proof (Z.div_mod i 64 ltac:(lia)) as Hdm. pose proof (Z.mod_pos_bound i 64 ltac:(lia)).
    assert (i / 64 < 59) by (apply Z.div_lt_upper_bound; lia).
    assert (1 <= i / 64) by (apply Z.div_le_lower_bound; lia).
    replace i with (64 + 64 * s + k) by lia. rewrite bucket_upper_at, bucket_lower_at by lia.
    assert (0 < 2 ^ s) by (apply Z.pow_pos_nonneg; lia). lia.
Qed.

Lemma bucket_lower_mono i j :
  0 <= i <= j -> j <= kBucketCount -> bucket_lower i <= bucket_lower j.
Proof.
  intros [Hi Hij] Hj. revert Hj. pattern j. apply Zlt_lower_bound_ind with (z := i); [|done].
  intros n IH Hn Hle. destruct (Z.eq_dec n i) as [->|]; [lia|].
  etransitivity; [apply (IH (n - 1)); lia|].
  pose proof (bucket_next (n - 1) ltac:(lia)) as Hnext. replace (n - 1 + 1) with n in Hnext by lia.
  pose proof (bucket_width (n - 1) ltac:(lia)). lia.
Qed.

(** The bucket of a value. *)
Lemma index_of_small v : 0 <= v < 64 -> index_of v = v.
Proof. intros Hv. unfold index_of. change kSubCount with 64. by rewrite (proj2 (Z.ltb_lt _ _)) by lia. Qed.

Lemma index_of_large v :
  64 <= v < 2 ^ 64 ->
  let s := Z.log2 v - 6 in
  let k := (v - 2 ^ (s + 6)) / 2 ^ s in
  0 <= s <= 57 /\ 0 <= k < 64 /\ index_of v = 64 + 64 * s + k /\
  2 ^ (s + 6) + k * 2 ^ s <= v < 2 ^ (s + 6) + (k + 1) * 2 ^ s.
Proof.
  intros Hv s k.
  assert (Hs : 0 <= s <= 57).
  { subst s. split.
    - pose proof (Z.log2_le_mono 64 v ltac:(lia)) as H. change (Z.log2 64) with 6 in H. lia.
    - pose proof (proj1 (Z.log2_lt_pow2 v 64 ltac:(lia)) ltac:(lia)). lia. }
  pose proof (Z.log2_spec v ltac:(lia)) as [Hlo Hhi]. assert (Hlog : Z.log2 v = s + 6) by (subst s; lia).
  rewrite Hlog in Hlo, Hhi.
  replace (Z.succ (s + 6)) with (s + 6 + 1) in Hhi by lia. rewrite (Z.pow_add_r _ (s + 6)) in Hhi by lia.
  assert (Hp : 0 < 2 ^ s) by (apply Z.pow_pos_nonneg; lia).
  pose proof (pow_split s ltac:(lia)) as Hsp.
  assert (Hk : 0 <= k < 64).
  { subst k. split; [apply Z.div_pos; lia|apply Z.div_lt_upper_bound; lia]. }
  pose proof (Z.div_mod (v - 2 ^ (s + 6)) (2 ^ s) ltac:(lia)) as Hdm. fold k in Hdm.
  pose proof (Z.mod_pos_bound (v - 2 ^ (s + 6)) (2 ^ s) Hp).
  split; [done|]. split; [done|]. split; [|split; lia].
  unfold index_of, bit_width. change kSubCount with 64. change kSubBits with 6.
  rewrite (proj2 (Z.ltb_ge _ _)) by lia. cbv zeta.
  rewrite Hlog. replace (s + 6 + 1 - 1) with (s + 6) by lia. replace (s + 6 - 6) with s by lia.
  rewrite Z.shiftl_1_l, (wrap_small 64 (2 ^ (s + 6))) by (unfold fits; lia).
  rewrite (wrap_small 64 (v - _)), Z.shiftr_div_pow2 by (unfold fits; lia). fold k.
  rewrite (wrap_small 64 (s * 64)), (wrap_small 64 (64 + s * 64)), (wrap_small 64) by (unfold fits; lia). lia.
Qed.

Lemma index_of_spec v :
  fits 64 v ->
  0 <= index_of v < kBucketCount /\ bucket_lower (index_of v) <= v <= bucket_upper (index_of v).
Proof.
  intros [H0 Hv]. change kBucketCount with 3776. destruct (Z.ltb_spec v 64) as [Hlt|Hge].
  - rewrite index_of_small by lia. unfold bucket_lower, bucket_upper. change kSubCount with 64.
    rewrite (proj2 (Z.ltb_lt v 64)) by done. lia.
  - destruct (index_of_large v) as (Hs & Hk & -> & Hb); [lia|].
    rewrite bucket_lower_at, bucket_upper_at by lia. lia.
Qed.

(** A bucket's upper bound splits the values as its index does. *)
Lemma index_le_iff v i : fits 64 v -> 0 <= i < kBucketCount -> index_of v <= i <-> v <= bucket_upper i.
Proof.
  intros Hv Hi. destruct (index_of_spec v Hv) as [Hr [Hlo Hhi]].
  pose proof (bucket_next i Hi) as Hn. split; intros H.
  - pose proof (bucket_next (index_of v) Hr).
    pose proof (bucket_lower_mono (index_of v + 1) (i + 1) ltac:(lia) ltac:(lia)). lia.
  - destruct (Z.le_gt_cases (index_of v) i); [done|].
    pose proof (bucket_lower_mono (i + 1) (index_of v) ltac:(lia) ltac:(lia)). lia.
Qed.

(** ** Recording *)

Definition recorded (h : Histogram) (samples : list Z) : Histogram := foldl record h samples.

Definition of_samples (samples : list Z) : Histogram := recorded new_histogram samples.

(** The counters are words, one per bucket. *)
Record histogram_wf (h : Histogram) : Prop := {
  wf_len : length (counts_ h) = Z.to_nat kBucketCount;
  wf_counts : Forall (fits 64) (counts_ h);
  wf_count : fits 64 (count_ h);
  wf_sum : fits 64 (sum_ h);
  wf_min : min_ h <= uint64_max;
  wf_max : 0 <= max_ h
}.

Lemma Forall_alter_fits (l : list Z) i :
  Forall (fits 64) l -> Forall (fits 64) (alter (fun c => c +u 1) i l).
Proof.
  revert i. induction l as [|x l IH]; intros [|i] H; [done|done| |];
    apply Forall_cons in H as [Hx Hl]; constructor; auto with rdb lia.
Qed.

Lemma new_histogram_wf : histogram_wf new_histogram.
Proof.
  split; [apply length_replicate|by apply Forall_replicate|done..].
Qed.

Lemma record_wf h v : histogram_wf h -> histogram_wf (record h v).
Proof.
  intros [Hl Hc Hn Hs Hmin Hmax]. split; simpl; auto with rdb lia.
  - by rewrite length_alter.
  - by apply Forall_alter_fits.
  - case_bool; lia.
  - case_bool; lia.
Qed.

Lemma of_samples_wf l : histogram_wf (of_samples l).
Proof.
  unfold of_samples, recorded. pose proof new_histogram_wf as H. revert H.
  generalize new_histogram. induction l as [|v l IH]; intros h Hh; [done|]. apply IH, record_wf, Hh.
Qed.

Lemma alter_same_comm {A} (f : A -> A) (l : list A) i j :
  alter f i (alter f j l) = alter f j (alter f i l).
Proof.
  revert i j. induction l as [|x l IH]; intros [|i] [|j]; simpl; try done.
  f_equal. apply IH.
Qed.

(** The order of two recordings does not matter. *)
Lemma record_comm h v w : record (record h v) w = record (record h w) v.
Proof.
  unfold record. simpl. f_equal.
  - apply alter_same_comm.
  - rewrite !wrap_add_l. f_equal. lia.
  - repeat case_bool; lia.
  - repeat case_bool; lia.
Qed.

(** Recordings into [h] in any order: [recorded] respects permutations. *)
#[export] Instance recorded_proper : Proper ((=) ==> (≡ₚ) ==> (=)) recorded.
Proof.
  intros h ? <- l k Hlk. unfold recorded. revert h.
  induction Hlk as [|v l k _ IH|v w l|l k m _ IH1 _ IH2]; intros h; simpl; auto.
  - by rewrite record_comm.
  - by rewrite IH1.
Qed.

#[export] Instance of_samples_proper : Proper ((≡ₚ) ==> (=)) of_samples.
Proof. intros l k Hlk. unfold of_samples. by rewrite Hlk. Qed.

Lemma recorded_app h l k : recorded h (l ++ k) = recorded (recorded h l) k.
Proof. apply foldl_app. Qed.

Lemma zip_alter_r (l k : list Z) i :
  length l = length k ->
  zip_with (fun c d => c +u d) l (alter (fun c => c +u 1) i k) =
  alter (fun c => c +u 1) i (zip_with (fun c d => c +u d) l k).
Proof.
  revert k i. induction l as [|x l IH]; intros [|y k] [|i] Hl; try done; simpl in *.
  - f_equal. rewrite wrap_add_r, wrap_add_l. f_equal. lia.
  - f_equal. apply IH. lia.
Qed.

(** Merging distributes over one more recording. *)
Lemma merge_record h k v :
  length (counts_ h) = length (counts_ k) -> merge h (record k v) = record (merge h k) v.
Proof.
  intros Hl. unfold merge, record. simpl. f_equal.
  - by apply zip_alter_r.
  - autorewrite with rdb. f_equal. lia.
  - autorewrite with rdb. f_equal. lia.
  - repeat case_bool; lia.
  - repeat case_bool; lia.
Qed.

Lemma zip_zeros (l : list Z) n :
  length l = n -> Forall (fits 64) l -> zip_with (fun c d => c +u d) l (replicate n 0) = l.
Proof.
  revert n. induction l as [|x l IH]; intros [|n] Hl Hf; simplify_eq/=; [done|].
  apply Forall_cons in Hf as [Hx Hf]. rewrite Z.add_0_r, wrap_small by done. f_equal. auto.
Qed.

Lemma merge_new h : histogram_wf h -> merge h new_histogram = h.
Proof.
  intros [Hl Hc Hn Hs Hmin Hmax]. destruct h as [cs n s mn mx]. unfold merge, new_histogram.
  cbn [counts_ count_ sum_ min_ max_] in *. rewrite zip_zeros, !Z.add_0_r, !wrap_small by done. f_equal; lia.
Qed.

Lemma merge_recorded h l : histogram_wf h -> merge h (of_samples l) = recorded h l.
Proof.
  intros Hh. induction l as [|v l IH] using rev_ind; [by apply merge_new|].
  unfold of_samples. rewrite !recorded_app. fold (of_samples l).
  change (recorded ?g [v]) with (record g v).
  rewrite merge_record, IH; [done|]. pose proof (of_samples_wf l) as Hw.
  by rewrite (wf_len _ Hh), (wf_len _ Hw).
Qed.

(** ** Percentiles *)

Definition in_bucket (i : Z) (v : Z) : bool := index_of v =? i.

(** How many samples are at most [x]. *)
Definition at_most (l : list Z) (x : Z) : Z := Z.of_nat (countb (fun v => v <=? x) l).

Lemma alter_lookup (l : list Z) i j c :
  l !! i = Some c ->
  alter (fun c => c +u 1) j l !! i = Some (if Nat.eqb i j then c +u 1 else c).
Proof.
  intros Hc. destruct (Nat.eqb_spec i j) as [->|Hne].
  - by rewrite list_lookup_alter_eq, Hc.
  - by rewrite list_lookup_alter_ne.
Qed.

(** Each counter holds the number of samples in its bucket. *)
Lemma counts_of_samples l i :
  Forall (fits 64) l -> 0 <= i < kBucketCount ->
  counts_ (of_samples l) !! Z.to_nat i = Some (u64 (Z.of_nat (countb (in_bucket i) l))).
Proof.
  intros Hl Hi. induction l as [|v l IH] using rev_ind.
  - unfold of_samples, recorded, new_histogram. cbn [foldl counts_].
    apply lookup_replicate. split; [done|]. change kBucketCount with 3776 in *. lia.
  - apply Forall_app in Hl as [Hl Hv]. apply Forall_cons in Hv as [Hv _].
    destruct (index_of_spec v Hv) as [Hr _].
    unfold of_samples. rewrite recorded_app. fold (of_samples l).
    change (recorded ?g [v]) with (record g v). cbn [record counts_].
    rewrite (alter_lookup _ _ _ _ (IH Hl)). f_equal.
    rewrite countb_app, countb_cons, countb_nil.
    change (in_bucket i v) with (index_of v =? i).
    destruct (Nat.eqb_spec (Z.to_nat i) (Z.to_nat (index_of v))) as [He|He];
      destruct (Z.eqb_spec (index_of v) i); try lia; rewrite ?wrap_add_l; f_equal; lia.
Qed.

Lemma count_of_samples l : count_ (of_samples l) = u64 (zlen l).
Proof.
  induction l as [|v l IH] using rev_ind; [done|].
  unfold of_samples. rewrite recorded_app. fold (of_samples l).
  change (recorded ?g [v]) with (record g v). cbn [record count_].
  rewrite IH, wrap_add_l, zlen_app. done.
Qed.

(** Samples in the buckets up to [i]. *)
Definition up_to (l : list Z) (i : Z) : Z := Z.of_nat (countb (fun v => index_of v <=? i) l).

Lemma up_to_step l i : up_to l (i - 1) + Z.of_nat (countb (in_bucket i) l) = up_to l i.
Proof.
  unfold up_to, in_bucket. induction l as [|v l IH]; [done|]. rewrite !countb_cons.
  destruct (Z.eqb_spec (index_of v) i), (Z.leb_spec (index_of v) i), (Z.leb_spec (index_of v) (i - 1)); lia.
Qed.

Lemma up_to_at_most l i :
  Forall (fits 64) l -> 0 <= i < kBucketCount -> up_to l i = at_most l (bucket_upper i).
Proof.
  intros Hl Hi. unfold up_to, at_most. f_equal. apply countb_ext_elem. intros v Hv.
  rewrite Forall_forall in Hl. pose proof (index_le_iff v i (Hl v Hv) Hi).
  repeat case_bool; tauto || lia.
Qed.

(** Is the target reached by the samples that are at most [x]? *)
Definition reached (l : list Z) (target : double) (x : Z) : bool :=
  SFleb target (to_double (u64 (at_most l x))).

(** The scan stops at the first bucket that reaches the target. *)
Lemma percentile_loop_spec l target mx n i :
  Forall (fits 64) l -> 0 <= i -> i + Z.of_nat n = kBucketCount ->
  let r := percentile_loop target mx i (u64 (up_to l (i - 1))) (drop (Z.to_nat i) (counts_ (of_samples l))) in
  (exists j, i <= j < kBucketCount /\ r = bucket_upper j /\
             reached l target (bucket_upper j) = true /\
             forall k, i <= k < j -> reached l target (bucket_upper k) = false) \/
  (r = mx /\ forall k, i <= k < kBucketCount -> reached l target (bucket_upper k) = false).
Proof.
  intros Hl. pose proof (of_samples_wf l) as Hw. revert i.
  induction n as [|n IH]; intros i Hi Hn; cbv zeta.
  - rewrite drop_ge by (rewrite (wf_len _ Hw); lia). right. split; [done|lia].
  - erewrite drop_S by (apply counts_of_samples; [done|lia]). cbn [percentile_loop].
    rewrite wrap_add_l, wrap_add_r, up_to_step.
    assert (Hr : SFleb target (to_double (u64 (up_to l i))) = reached l target (bucket_upper i)).
    { unfold reached. by rewrite <-up_to_at_most by (done || lia). }
    rewrite Hr. destruct (reached l target (bucket_upper i)) eqn:Hreach.
    + left. exists i. split; [lia|]. split; [done|]. split; [done|]. lia.
    + specialize (IH (i + 1) ltac:(lia) ltac:(lia)). cbv zeta in IH.
      replace (i + 1 - 1) with i in IH by lia.
      replace (Z.to_nat (i + 1)) with (S (Z.to_nat i)) in IH by lia.
      assert (Hext : forall j, (forall k, i + 1 <= k < j -> reached l target (bucket_upper k) = false) ->
                 forall k, i <= k < j -> reached l target (bucket_upper k) = false).
      { intros j H k Hk. destruct (Z.eq_dec k i) as [->|]; [done|]. apply H. lia. }
      destruct IH as [(j & Hj & Hrj & Htj & Hk)|[Hrm Hk]].
      * left. exists j. split; [lia|]. split; [done|]. split; [done|]. by apply Hext.
      * right. split; [done|]. by apply Hext.
Qed.

(** The scan over the whole table. *)
Lemma percentile_scan l p :
  Forall (fits 64) l -> 0 < zlen l < 2 ^ 64 ->
  let target := target_of p (zlen l) in
  let r := percentile (of_samples l) p in
  (exists j, 0 <= j < kBucketCount /\ r = bucket_upper j /\
             reached l target (bucket_upper j) = true /\
             forall k, 0 <= k < j -> reached l target (bucket_upper k) = false) \/
  (r = max (of_samples l) /\
   forall k, 0 <= k < kBucketCount -> reached l target (bucket_upper k) = false).
Proof.
  intros Hl Hlen target r. subst target r. unfold percentile.
  rewrite count_of_samples, (wrap_small 64 (zlen l)) by (unfold fits; lia).
  rewrite (proj2 (Z.eqb_neq _ _)) by lia.
  assert (H0 : u64 (up_to l (0 - 1)) = 0).
  { unfold up_to. rewrite countb_zero; [done|]. intros v Hv. rewrite Forall_forall in Hl.
    destruct (index_of_spec v (Hl v Hv)) as [Hr _]. apply Z.leb_gt. lia. }
  pose proof (percentile_loop_spec l (target_of p (zlen l)) (max_ (of_samples l))
                (Z.to_nat kBucketCount) 0 Hl ltac:(lia) eq_refl) as H.
  cbv zeta in H. rewrite H0 in H. exact H.
Qed.

(** ** Properties *)

Section properties.
Implicit Types (l m : list Z) (v i : Z) (p : double).

(** C38: every 64-bit value has a bucket of the table; the bucket's upper bound is
    at least the value, exceeds it by less than one part in 64, and no earlier
    bucket's bound reaches the value. *)
Theorem bucket_bracket v :
  fits 64 v ->
  let i := index_of v in
  0 <= i < kBucketCount /\ v <= bucket_upper i /\ (bucket_upper i - v) * 64 <= v /\
  (v < 64 -> bucket_upper i = v) /\
  forall j, 0 <= j < i -> bucket_upper j < v.
Proof.
  intros Hv i. destruct (index_of_spec v Hv) as [Hr [Hlo Hhi]]. fold i in Hr, Hlo, Hhi.
  split; [done|]. split; [done|].
  assert (Hj : forall j, 0 <= j < i -> bucket_upper j < v).
  { intros j Hj. pose proof (index_le_iff v j Hv ltac:(lia)). fold i in H. lia. }
  destruct Hv as [H0 Hv]. destruct (Z.ltb_spec v 64) as [Hlt|Hge].
  - assert (bucket_upper i = v) as ->; [|split; [lia|split; [done|exact Hj]]].
    subst i. rewrite index_of_small by lia. unfold bucket_upper. change kSubCount with 64.
    by rewrite (proj2 (Z.ltb_lt v 64)) by done.
  - split; [|split; [lia|exact Hj]]. subst i.
    destruct (index_of_large v) as (Hs & Hk & -> & Hb); [lia|].
    rewrite bucket_upper_at, pow_split in * by lia.
    assert (0 < 2 ^ (Z.log2 v - 6)) by (apply Z.pow_pos_nonneg; lia). nia.
Qed.

Lemma bucket_bracket_witness :
  let i := index_of 1000000 in
  0 <= i < kBucketCount /\ 1000000 <= bucket_upper i /\
  (bucket_upper i - 1000000) * 64 <= 1000000 /\
  (1000000 < 64 -> bucket_upper i = 1000000) /\ forall j, 0 <= j < i -> bucket_upper j < 1000000.
Proof. apply (bucket_bracket 1000000). done. Defined.

(** C39: a histogram depends only on the multiset of its samples, and merging two
    histograms is recording both sets of samples: threads can record apart and
    be merged in any order. *)
Theorem merge_of_samples l k m :
  m ≡ₚ l ++ k -> merge (of_samples l) (of_samples k) = of_samples m.
Proof.
  intros ->. rewrite merge_recorded by apply of_samples_wf.
  unfold of_samples. by rewrite recorded_app.
Qed.

Lemma merge_of_samples_witness :
  merge (of_samples [5; 70]) (of_samples [3]) = of_samples [3; 5; 70].
Proof. apply (merge_of_samples [5; 70] [3] [3; 5; 70]). apply (Permutation_middle [5; 70] [] 3). Defined.

(** C40: what a percentile is: the bound of the first bucket such that the
    number of samples at most that bound reaches [p / 100 * count], compared as
    doubles; and [max] when no bucket does (which NaN asks for). *)
Theorem percentile_exact l p :
  Forall (fits 64) l -> 0 < zlen l < 2 ^ 64 ->
  let target := target_of p (zlen l) in
  let r := percentile (of_samples l) p in
  (exists j, 0 <= j < kBucketCount /\ r = bucket_upper j /\
             reached l target (bucket_upper j) = true /\
             forall k, 0 <= k < j -> reached l target (bucket_upper k) = false) \/
  (r = max (of_samples l) /\
   forall k, 0 <= k < kBucketCount -> reached l target (bucket_upper k) = false).
Proof. apply percentile_scan. Qed.

Lemma percentile_exact_witness :
  let l := [10; 20; 30; 1000] in
  let p := to_double 50 in
  (exists j, 0 <= j < kBucketCount /\ percentile (of_samples l) p = bucket_upper j /\
             reached l (target_of p 4) (bucket_upper j) = true /\
             forall k, 0 <= k < j -> reached l (target_of p 4) (bucket_upper k) = false) \/
  (percentile (of_samples l) p = max (of_samples l) /\
   forall k, 0 <= k < kBucketCount -> reached l (target_of p 4) (bucket_upper k) = false).
Proof.
  intros l p. apply (percentile_exact l p); [by repeat constructor|done].
Defined.

Example percentile_of_four :
  (fun z => percentile (of_samples [10; 20; 30; 1000]) (to_double z)) <$> [25; 50; 75; 100]
  = [10; 20; 30; 1007].
Proof. vm_compute. reflexivity. Qed.

(** Percentile 0 is 0 whatever was recorded: no sample is needed to reach a
    target of zero, so the scan stops at the first, empty, bucket. *)
Example percentile_zero :
  percentile (of_samples [1000; 2000]) (to_double 0) = 0 /\ min (of_samples [1000; 2000]) = 1000.
Proof. vm_compute. auto. Qed.

(** The relative error reaches nearly 1/64, not 1/128. *)
Example bucket_error_above_128th :
  let v := 2 ^ 13 in bucket_upper (index_of v) - v = 127 /\ 127 * 128 > v.
Proof. vm_compute. auto. Qed.
End properties.
