(* ===== verification/Percentiles.v ===== *)
(** * Percentiles

    What the percentiles of one histogram have to do with one another
    ([Histogram::percentile] of code/include/rdb/metrics/histogram.h), through the
    rounding of the doubles it computes with. *)

From S2P Require Import Prelude Doubles Format Rounding Histogram.
Open Scope Z_scope.

(** ** The doubles of a caller *)

(** A double as the machine has them, and a number. *)
Definition number (p : double) : Prop := valid_binary 53 1024 p = true /\ p <> S754_nan.

#[export] Instance number_dec p : Decision (number p).
Proof.
  unfold number. destruct p as [s|s| |s m e]; [left; done|left; done|right; intros [_ H]; done|].
  destruct (valid_binary 53 1024 (S754_finite s m e)); [left|right]; [done|intros [H _]; done].
Defined.

(** Is there a minus sign before something that is not zero? *)
Definition negative (p : double) : bool :=
  match p with S754_infinity s | S754_finite s _ _ => s | _ => false end.

Lemma number_nonneg p : number p -> negative p = false -> nonneg p.
Proof.
  intros [Hv Hn] Hs. destruct p as [s|s| |s m e]; [done|done|done|]. split; [done|].
  apply andb_true_iff in Hv as [Hv Hmax]. apply Z.eqb_eq in Hv. apply Z.leb_le in Hmax.
  split; [|exact Hmax]. unfold fexp, emin in Hv. change (Z.pos (digits2_pos m)) with (Zdigits2 (Z.pos m)) in Hv.
  pose proof (Z.log2_spec (Z.pos m) ltac:(done)) as [Hl1 Hl2]. rewrite digits_log2 in Hv by done.
  split; [lia|]. split.
  - assert (2 ^ Z.succ (Z.log2 (Z.pos m)) <= 2 ^ 53) by (apply Z.pow_le_mono_r; lia). lia.
  - intros He. replace (Z.log2 (Z.pos m)) with 52 in Hl1 by lia. done.
Qed.

Lemma ltb_leb x y : nonneg x -> nonneg y -> SFltb x y = negb (SFleb y x).
Proof.
  intros Hx Hy. destruct (nonneg_cases x Hx) as [[s ->]|[->|(m & e & -> & _)]],
    (nonneg_cases y Hy) as [[s' ->]|[->|(m' & e' & -> & _)]]; try done.
  unfold SFltb, SFleb, SFcompare. rewrite (Z.compare_antisym e' e).
  change (Pos.compare_cont Eq m m') with (m ?= m')%positive.
  change (Pos.compare_cont Eq m' m) with (m' ?= m)%positive. rewrite (Pos.compare_antisym m m').
  destruct (e' ?= e); [destruct (m ?= m')%positive|..]; done.
Qed.

Lemma leb_total x y : nonneg x -> nonneg y -> SFleb x y = true \/ SFleb y x = true.
Proof.
  intros Hx Hy. destruct (nonneg_cases x Hx) as [[s ->]|[->|(m & e & -> & _)]],
    (nonneg_cases y Hy) as [[s' ->]|[->|(m' & e' & -> & _)]]; auto.
  rewrite !leb_finite. lia.
Qed.

(** ** The target *)

Lemma hundred_nonneg : nonneg (to_double 100).
Proof. apply to_double_nonneg. lia. Qed.

Lemma clamp_negative p : negative p = true -> clamp p = S754_zero false.
Proof. destruct p as [s|[]| |[] m e]; done. Qed.

Lemma clamp_positive p : nonneg p -> clamp p = if SFleb p (to_double 100) then p else to_double 100.
Proof.
  intros Hp. unfold clamp.
  assert (SFltb p (S754_zero false) = false) as ->.
  { by destruct (nonneg_cases p Hp) as [[s ->]|[->|(m & e & -> & _)]]. }
  rewrite ltb_leb by done || apply hundred_nonneg. by destruct (SFleb p (to_double 100)).
Qed.

Lemma clamp_range p : number p -> nonneg (clamp p) /\ SFleb (clamp p) (to_double 100) = true.
Proof.
  intros Hp. destruct (negative p) eqn:Hs; [by rewrite clamp_negative|].
  pose proof (number_nonneg p Hp Hs) as Hn. rewrite clamp_positive by done.
  destruct (SFleb p (to_double 100)) eqn:Hle; [done|]. split; [apply hundred_nonneg|done].
Qed.

Lemma clamp_mono p p' : number p -> number p' -> SFleb p p' = true -> SFleb (clamp p) (clamp p') = true.
Proof.
  intros Hp Hp' Hle. destruct (negative p) eqn:Hs.
  { rewrite clamp_negative by done. by apply zero_leb, clamp_range. }
  destruct (negative p') eqn:Hs'.
  { destruct p as [s|[]| |[] m e], p' as [s'|[]| |[] m' e']; done. }
  pose proof (number_nonneg p Hp Hs) as Hn. pose proof (number_nonneg p' Hp' Hs') as Hn'.
  rewrite !clamp_positive by done.
  destruct (SFleb p (to_double 100)) eqn:H1, (SFleb p' (to_double 100)) eqn:H2; [done|done| |done].
  exfalso. pose proof (leb_trans p p' (to_double 100) Hn Hn' hundred_nonneg Hle H2). congruence.
Qed.

(** A number of samples is a positive finite double. *)
Lemma count_double n :
  0 < n < 2 ^ 64 -> exists m e, to_double n = S754_finite false m e /\ canonical m e /\ e <= 971.
Proof.
  intros Hn. pose proof (to_double_nonneg n ltac:(lia)) as H.
  pose proof (to_double_below n 64 ltac:(lia) ltac:(lia)) as Hb.
  pose proof (to_double_at_least n ltac:(lia)) as Ha.
  destruct (nonneg_cases _ H) as [[[] E]|[E|H']]; [..|done]; rewrite E in *; done.
Qed.

Definition hundred_m : positive := 7036874417766400.

Lemma hundred_finite : to_double 100 = S754_finite false hundred_m (-46).
Proof. reflexivity. Qed.

Lemma target_clamped p p' n :
  number p -> number p' -> 0 < n < 2 ^ 64 -> SFleb (clamp p) (clamp p') = true ->
  SFleb (target_of p n) (target_of p' n) = true.
Proof.
  intros Hp Hp' Hn Hle. destruct (count_double n Hn) as (m & e & E & Hc & _).
  destruct (clamp_range p Hp) as [Hcp _], (clamp_range p' Hp') as [Hcp' _].
  unfold target_of. rewrite E, hundred_finite. apply double_mul_mono; [..|done|];
    [by apply double_div_nonneg..|]. by apply double_div_mono.
Qed.

Lemma target_nonneg p n : number p -> 0 < n < 2 ^ 64 -> nonneg (target_of p n).
Proof.
  intros Hp Hn. destruct (count_double n Hn) as (m & e & E & Hc & _).
  unfold target_of. rewrite E, hundred_finite. apply double_mul_nonneg; [|done].
  by apply double_div_nonneg, clamp_range.
Qed.

Lemma target_100 n : 0 < n < 2 ^ 64 -> target_of (to_double 100) n = to_double n.
Proof.
  intros Hn. destruct (count_double n Hn) as (m & e & E & Hc & He). unfold target_of.
  change (double_div (clamp (to_double 100)) (to_double 100)) with (to_double 1).
  rewrite E. by apply double_mul_1.
Qed.

Lemma target_le_count p n : number p -> 0 < n < 2 ^ 64 -> SFleb (target_of p n) (to_double n) = true.
Proof.
  intros Hp Hn. rewrite <-(target_100 n Hn) at 1.
  apply target_clamped; [done|by apply (bool_decide_unpack _)|done|].
  change (clamp (to_double 100)) with (to_double 100). by apply clamp_range.
Qed.

(** ** The bucket where the scan stops *)

Lemma bucket_upper_mono i j : 0 <= i <= j -> j < kBucketCount -> bucket_upper i <= bucket_upper j.
Proof.
  intros Hi Hj. pose proof (bucket_next i ltac:(lia)). pose proof (bucket_next j ltac:(lia)).
  pose proof (bucket_lower_mono (i + 1) (j + 1) ltac:(lia) ltac:(lia)). lia.
Qed.

(** The maximum is a sample, and no sample is larger. *)
Lemma max_of_samples l :
  Forall (fits 64) l -> l <> [] ->
  max_ (of_samples l) ∈ l /\ forall v, v ∈ l -> v <= max_ (of_samples l).
Proof.
  intros Hl Hne. induction l as [|v l IH] using rev_ind; [done|].
  apply Forall_app in Hl as [Hl Hv]. apply Forall_cons in Hv as [[Hv _] _].
  unfold of_samples. rewrite recorded_app. fold (of_samples l).
  change (recorded ?g [v]) with (record g v). cbn [record max_].
  destruct (decide (l = [])) as [->|Hln].
  - simpl. case_bool; (split; [|intros w ->%list_elem_of_singleton]; [|lia]); [by left|].
    assert (v = 0) as -> by lia. by left.
  - destruct (IH Hl Hln) as [Hin Hmax]. split.
    + case_bool; apply elem_of_app; [right; by left|by left].
    + intros w [Hw| ->%list_elem_of_singleton]%elem_of_app; [pose proof (Hmax w Hw)|]; case_bool; lia.
Qed.

Definition max_bucket (l : list Z) : Z := index_of (max_ (of_samples l)).

Lemma at_most_all l x : (forall v, v ∈ l -> v <= x) -> at_most l x = zlen l.
Proof.
  intros Hx. unfold at_most, zlen. f_equal. rewrite <-(countb_true l).
  apply countb_ext_elem. intros v Hv. apply Z.leb_le; auto.
Qed.

Lemma at_most_mono l x y : x <= y -> at_most l x <= at_most l y.
Proof.
  intros Hxy. unfold at_most. induction l as [|v l IH]; [done|]. rewrite !countb_cons. repeat case_bool; lia.
Qed.

Lemma at_most_range l x : 0 <= at_most l x <= zlen l.
Proof. unfold at_most, zlen. pose proof (countb_le_length (fun v => v <=? x) l). lia. Qed.

(** A sample above [x] is not among those at most [x]. *)
Lemma at_most_lt l x v : v ∈ l -> x < v -> at_most l x < zlen l.
Proof.
  intros Hv Hx. unfold at_most, zlen. induction l as [|w l IH]; [by apply not_elem_of_nil in Hv|].
  rewrite countb_cons. pose proof (countb_le_length (fun v => v <=? x) l). simpl length.
  apply elem_of_cons in Hv as [<-|Hv]; [|specialize (IH Hv)]; case_bool; lia.
Qed.

Section scan.
Context (l : list Z) (Hl : Forall (fits 64) l) (Hlen : 0 < zlen l < 2 ^ 64).

Lemma not_nil : l <> [].
Proof. intros ->. unfold zlen in Hlen. simpl in Hlen. lia. Qed.

Lemma max_bucket_range : 0 <= max_bucket l < kBucketCount.
Proof.
  destruct (max_of_samples l Hl not_nil) as [Hin _]. rewrite Forall_forall in Hl.
  apply (index_of_spec _ (Hl _ Hin)).
Qed.

Lemma max_bucket_all v : v ∈ l -> v <= bucket_upper (max_bucket l).
Proof.
  destruct (max_of_samples l Hl not_nil) as [Hin Hmax]. pose proof Hl as Hf. rewrite Forall_forall in Hf.
  destruct (index_of_spec _ (Hf _ Hin)) as [_ [_ Hu]]. intros Hv. specialize (Hmax v Hv).
  fold (max_bucket l) in Hu. lia.
Qed.

(** The bucket of the maximum reaches every target. *)
Lemma max_bucket_reached p :
  number p -> reached l (target_of p (zlen l)) (bucket_upper (max_bucket l)) = true.
Proof.
  intros Hp. unfold reached. rewrite at_most_all by apply max_bucket_all.
  rewrite wrap_small by (unfold fits; lia). by apply target_le_count.
Qed.

Lemma percentile_bucket p :
  number p ->
  exists j, 0 <= j <= max_bucket l /\ percentile (of_samples l) p = bucket_upper j /\
            reached l (target_of p (zlen l)) (bucket_upper j) = true /\
            forall k, 0 <= k < j -> reached l (target_of p (zlen l)) (bucket_upper k) = false.
Proof.
  intros Hp. pose proof max_bucket_range as Hr. pose proof (max_bucket_reached p Hp) as Hm.
  destruct (percentile_scan l p Hl Hlen) as [(j & Hj & Hpj & Hrj & Hk)|[_ Hk]].
  - exists j. split; [|done]. destruct (Z.le_gt_cases j (max_bucket l)); [lia|].
    rewrite Hk in Hm by lia. done.
  - rewrite Hk in Hm by lia. done.
Qed.

(** A smaller target is reached earlier. *)
Lemma reached_mono t t' x :
  nonneg t -> nonneg t' -> SFleb t t' = true -> reached l t' x = true -> reached l t x = true.
Proof.
  unfold reached. intros Ht Ht' Hle Hr. apply (leb_trans t t'); [done|done| |done|done].
  apply to_double_nonneg. by apply (fits_wrap 64 (at_most l x)).
Qed.
End scan.

(** ** Properties *)

(** C36: percentiles are ordered: a larger argument never gives a smaller result,
    through all the rounding of the target, and no percentile exceeds the bound of
    the bucket of the maximum, so that the scan never runs off the table
    (at most 1/64 above the largest sample, by [bucket_bracket]). *)
Theorem percentiles_ordered l p q :
  Forall (fits 64) l -> 0 < zlen l < 2 ^ 64 -> number p -> number q -> SFleb p q = true ->
  let h := of_samples l in
  percentile h p <= percentile h q <= bucket_upper (index_of (max h)).
Proof.
  intros Hl Hlen Hp Hq Hle h.
  destruct (percentile_bucket l Hl Hlen p Hp) as (i & Hi & Ei & _ & Hki).
  destruct (percentile_bucket l Hl Hlen q Hq) as (j & Hj & Ej & Hrj & _).
  pose proof (max_bucket_range l Hl Hlen) as Hr. unfold h. rewrite Ei, Ej. change (index_of _) with (max_bucket l).
  split; apply bucket_upper_mono; try lia. split; [lia|]. destruct (Z.le_gt_cases i j); [done|].
  pose proof (reached_mono l (target_of p (zlen l)) (target_of q (zlen l)) (bucket_upper j)) as H'.
  rewrite Hki in H' by lia. discriminate H'; [by apply target_nonneg..| |done].
  apply target_clamped; [done..|]. by apply clamp_mono.
Qed.

Lemma percentiles_ordered_witness :
  let h := of_samples [10; 20; 30; 1000] in
  percentile h (to_double 50) <= percentile h (to_double 99) <= bucket_upper (index_of (max h)).
Proof.
  apply (percentiles_ordered [10; 20; 30; 1000] (to_double 50) (to_double 99));
    [by repeat constructor|done|by apply (bool_decide_unpack _)|by apply (bool_decide_unpack _)|done].
Defined.

(** Percentile 100 is the bound of the bucket of the maximum, as long as
    the number of samples is exact in a double. *)
Theorem percentile_hundred l :
  Forall (fits 64) l -> 0 < zlen l < 2 ^ 53 ->
  percentile (of_samples l) (to_double 100) = bucket_upper (index_of (max (of_samples l))).
Proof.
  intros Hl Hlen. assert (Hlen' : 0 < zlen l < 2 ^ 64) by lia.
  destruct (percentile_bucket l Hl Hlen' (to_double 100)) as (j & Hj & -> & Hr & _);
    [by apply (bool_decide_unpack _)|].
  change (index_of _) with (max_bucket l). pose proof (max_bucket_range l Hl Hlen') as Hmr.
  destruct (Z.eq_dec j (max_bucket l)) as [->|]; [done|exfalso].
  destruct (max_of_samples l Hl (not_nil l Hl Hlen')) as [Hin _].
  pose proof Hl as Hf. rewrite Forall_forall in Hf.
  pose proof (index_le_iff _ j (Hf _ Hin) ltac:(lia)) as Hiff. fold (max_bucket l) in Hiff.
  pose proof (at_most_lt l (bucket_upper j) _ Hin ltac:(lia)) as Hlt.
  pose proof (at_most_range l (bucket_upper j)) as Hrange.
  unfold reached in Hr. rewrite target_100, wrap_small in Hr by (unfold fits; lia).
  rewrite to_double_lt in Hr by lia. done.
Qed.

Lemma percentile_hundred_witness :
  percentile (of_samples [10; 20; 30; 1000]) (to_double 100) =
  bucket_upper (index_of (max (of_samples [10; 20; 30; 1000]))).
Proof. apply percentile_hundred; [by repeat constructor|done]. Defined.
