(* ===== verification/Summary.v ===== *)
(** * Summary

    [Histogram::summary] (code/include/rdb/metrics/histogram.h): the line that
    reports a histogram, written into a buffer of 256 bytes. *)

From S2P Require Import Prelude Doubles Decimal Format Histogram.
Open Scope Z_scope.

(** The percentile asked for by [99.9]. *)
Definition p999 : double := double_div (to_double 999) (to_double 10).

(** The line, before it is cut to the buffer. *)
Definition summary_line (nan_text : string) (h : Histogram) (unit : string) (scale : double) : string :=
  let scaled v := fixed nan_text 2 (double_div (to_double v) scale) in
  ("n=" ++ dec_unsigned (count_ h) ++
   " min=" ++ scaled (min h) ++
   " p50=" ++ scaled (percentile h (to_double 50)) ++
   " p90=" ++ scaled (percentile h (to_double 90)) ++
   " p99=" ++ scaled (percentile h (to_double 99)) ++
   " p99.9=" ++ scaled (percentile h p999) ++
   " max=" ++ scaled (max h) ++
   " mean=" ++ fixed nan_text 2 (double_div (mean h) scale) ++
   " (" ++ unit ++ ")")%string.

Definition summary (nan_text : string) (h : Histogram) (unit : string) (scale : double) : string :=
  truncated 256 (summary_line nan_text h unit scale).

Example summary_of_three :
  summary "nan" (of_samples [1500; 2500; 100000]) "us" (to_double 1000) =
    "n=3 min=1.50 p50=2.53 p90=100.35 p99=100.35 p99.9=100.35 max=100.00 mean=34.67 (us)"%string.
Proof. vm_compute. reflexivity. Qed.

(** A percentile is the bound of a bucket, so it can exceed the largest sample. *)
Example summary_p99_above_max :
  max (of_samples [100000]) < percentile (of_samples [100000]) (to_double 99).
Proof. vm_compute. reflexivity. Qed.

(** A scale below one can make the line longer than the buffer. *)
Example summary_cut :
  String.length (summary "nan" (of_samples [uint64_max]) "ns" (to_double 1)) = 207%nat /\
  let tiny := S754_finite false (2 ^ 52) (- 152) in
  Nat.ltb 256 (String.length (summary_line "nan" (of_samples [uint64_max]) "ns" tiny)) = true /\
  String.length (summary "nan" (of_samples [uint64_max]) "ns" tiny) = 255%nat.
Proof. vm_compute. auto. Qed.

Lemma bucket_upper_fits i : 0 <= i -> fits 64 (bucket_upper i).
Proof.
  intros Hi. unfold bucket_upper. destruct (Z.ltb_spec i kSubCount) as [Hlt|]; [|cbv zeta; by apply fits_wrap].
  change kSubCount with 64 in Hlt. unfold fits. lia.
Qed.

Lemma percentile_loop_fits target mx i seen l :
  fits 64 mx -> 0 <= i -> fits 64 (percentile_loop target mx i seen l).
Proof.
  intros Hm. revert i seen. induction l as [|c l IH]; intros i seen Hi; [done|].
  cbn [percentile_loop]. destruct (SFleb _ _); [by apply bucket_upper_fits|apply IH; lia].
Qed.

Lemma percentile_fits h p : fits 64 (max_ h) -> fits 64 (percentile h p).
Proof.
  intros Hm. unfold percentile. destruct (_ =? _); [done|]. by apply percentile_loop_fits.
Qed.

Lemma min_fits h : fits 64 (min_ h) -> fits 64 (min h).
Proof. intros. unfold min. by destruct (_ =? _). Qed.

(** The samples' bounds are words when the samples are. *)
Lemma of_samples_bounds l :
  Forall (fits 64) l -> fits 64 (min_ (of_samples l)) /\ fits 64 (max_ (of_samples l)).
Proof.
  unfold of_samples, recorded. assert (H0 : fits 64 (min_ new_histogram) /\ fits 64 (max_ new_histogram)) by done.
  revert H0. generalize new_histogram as h.
  induction l as [|v l IH]; intros h Hh; [done|]. intros [Hv Hl]%Forall_cons.
  apply IH; [|done]. destruct Hh. simpl. by split; case_bool.
Qed.

(** A word, and the mean, printed in a unit of at least one nanosecond. *)
Lemma scaled_below v scale :
  fits 64 v -> at_least 0 scale -> below 67 (double_div (to_double v) scale).
Proof.
  intros Hv Hs. pose proof (to_double_below v 64 ltac:(lia) Hv) as Hb.
  apply (below_weaken 66); [lia|]. by apply (double_div_below _ _ 65 0).
Qed.

Lemma mean_below h :
  fits 64 (sum_ h) -> fits 64 (count_ h) -> below 66 (mean h).
Proof.
  intros Hs Hc. unfold mean. destruct (Z.eqb_spec (count_ h) 0); [done|].
  apply (double_div_below _ _ 65 0); [lia|by apply (to_double_below _ 64)|].
  apply to_double_at_least. unfold fits in Hc. lia.
Qed.

Lemma number_length nan d : below 67 d -> (String.length (fixed nan 2 d) <= 24)%nat.
Proof. intros H. apply (fixed_length nan 2 d 67 21); [lia..|done|done]. Qed.

(** The 256 bytes are enough: whatever was recorded, in any unit of at least
    one nanosecond whose name has at most 24 characters, the line is not cut. *)
Theorem summary_not_truncated nan_text (h : Histogram) (unit : string) (scale : double) :
  fits 64 (count_ h) -> fits 64 (sum_ h) -> fits 64 (min_ h) -> fits 64 (max_ h) ->
  at_least 0 scale -> (String.length unit <= 24)%nat ->
  summary nan_text h unit scale = summary_line nan_text h unit scale.
Proof.
  intros Hn Hsum Hmin Hmax Hs Hu. apply truncated_fits. unfold summary_line.
  assert (Hv : forall v, fits 64 v ->
    (String.length (fixed nan_text 2 (double_div (to_double v) scale)) <= 24)%nat).
  { intros v Hv. by apply number_length, scaled_below. }
  pose proof (Hv _ (min_fits h Hmin)). pose proof (Hv _ Hmax) as Hx. fold (max h) in Hx.
  pose proof (Hv _ (percentile_fits h (to_double 50) Hmax)).
  pose proof (Hv _ (percentile_fits h (to_double 90) Hmax)).
  pose proof (Hv _ (percentile_fits h (to_double 99) Hmax)).
  pose proof (Hv _ (percentile_fits h p999 Hmax)).
  assert (String.length (fixed nan_text 2 (double_div (mean h) scale)) <= 24)%nat.
  { apply number_length, (double_div_below _ _ 66 0); [lia|by apply mean_below|done]. }
  assert (String.length (dec_unsigned (count_ h)) <= 20)%nat.
  { apply dec_length; [lia|]. unfold fits in Hn. change (10 ^ Z.of_nat 20) with 100000000000000000000. lia. }
  rewrite !length_append. cbn [String.length]. lia.
Qed.

Lemma summary_not_truncated_witness :
  let h := of_samples [1500; 2500; uint64_max] in
  summary "nan" h "us" (to_double 1000) = summary_line "nan" h "us" (to_double 1000).
Proof.
  apply (summary_not_truncated "nan" (of_samples [1500; 2500; uint64_max]) "us" (to_double 1000));
    [done|done|done|done|by apply to_double_at_least|simpl; lia].
Defined.
