(* ===== verification/SpscRing.v ===== *)
(** * SpscRing

    The single-producer single-consumer ring
    (code/include/rdb/concurrency/spsc_ring.h).  Each thread's operation is cut
    at its accesses to shared memory; the acquire load of the other thread's
    counter may return any value the counter has had since the last load, not
    only the newest. *)

From S2P Require Import Prelude Lts.

(** ** The capacity *)

(** [for (shift = 1; shift < 64; shift <<= 1) v |= v >> shift]. *)
Definition shifts : list Z := [1; 2; 4; 8; 16; 32].

Definition smear (v : Z) : Z := foldl (fun v shift => Z.lor v (Z.shiftr v shift)) v shifts.

Definition round_up_pow2 (v : Z) : Z :=
  if v <? 2 then 2 else smear (v -u 1) +u 1.

(** ** The ring *)

Record SpscRing {T : Type} := mkRing {
  mask_ : Z;
  slots_ : list T;
  write_ : Z;
  read_cache_ : Z;
  read_ : Z;
  write_cache_ : Z
}.
Arguments SpscRing : clear implicits.

(** Where the producer is: outside [push]; past the check, about to write its
    slot; about to store [write_].  The consumer likewise. *)
Inductive producer {T : Type} := PIdle | PWriting (v : T) | PStoring (v : T).
Inductive consumer {T : Type} := CIdle | CReading | CStoring (v : T).
Arguments producer : clear implicits.
Arguments consumer : clear implicits.

Section ops.
(** [T()], and what [std::move] leaves behind. *)
Context {T : Type} (dflt : T) (moved : T -> T).
Implicit Types (r : SpscRing T) (v : T).

Definition new_ring (capacity : Z) : SpscRing T :=
  let mask := round_up_pow2 capacity -u 1 in
  mkRing T mask (replicate (Z.to_nat (mask +u 1)) dflt) 0 0 0 0.

Definition capacity r : Z := mask_ r +u 1.

Definition slot_of r (counter : Z) : nat := Z.to_nat (Z.land counter (mask_ r)).

(** The check that opens [push]; [loaded] is what [read_.load] returns, if it is
    executed.  [false]: the ring is full. *)
Definition push_check r (loaded : Z) : SpscRing T * bool :=
  if write_ r -u read_cache_ r =? capacity r then
    let r' := mkRing T (mask_ r) (slots_ r) (write_ r) loaded (read_ r) (write_cache_ r) in
    (r', negb (write_ r -u loaded =? capacity r))
  else (r, true).

Definition push_write r v : SpscRing T :=
  mkRing T (mask_ r) (<[slot_of r (write_ r) := v]> (slots_ r)) (write_ r) (read_cache_ r)
    (read_ r) (write_cache_ r).

Definition push_store r : SpscRing T :=
  mkRing T (mask_ r) (slots_ r) (write_ r +u 1) (read_cache_ r) (read_ r) (write_cache_ r).

(** [push] with nothing in between. *)
Definition push r v : SpscRing T * bool :=
  let '(r', ok) := push_check r (read_ r) in
  if ok then (push_store (push_write r' v), true) else (r', false).

Definition pop_check r (loaded : Z) : SpscRing T * bool :=
  if read_ r =? write_cache_ r then
    let r' := mkRing T (mask_ r) (slots_ r) (write_ r) (read_cache_ r) (read_ r) loaded in
    (r', negb (read_ r =? loaded))
  else (r, true).

(** [out = std::move(slots_[read & mask_])]. *)
Definition pop_read r : option (SpscRing T * T) :=
  v ← slots_ r !! slot_of r (read_ r);
  Some (mkRing T (mask_ r) (<[slot_of r (read_ r) := moved v]> (slots_ r)) (write_ r)
          (read_cache_ r) (read_ r) (write_cache_ r), v).

Definition pop_store r : SpscRing T :=
  mkRing T (mask_ r) (slots_ r) (write_ r) (read_cache_ r) (read_ r +u 1) (write_cache_ r).

(** [pop] with nothing in between: [None] is a slot out of range. *)
Definition pop r : option (SpscRing T * option T) :=
  let '(r', ok) := pop_check r (write_ r) in
  if ok then rv ← pop_read r'; Some (pop_store rv.1, Some rv.2) else Some (r', None).

(** [size] loads one counter and then the other, from rings seen then. *)
Definition size_of (at_write at_read : SpscRing T) : Z := write_ at_write -u read_ at_read.
Definition size r : Z := size_of r r.
Definition empty r : bool := size r =? 0.
End ops.

(** ** The two threads *)

Record ring_state {T : Type} := mkState {
  st_ring : SpscRing T;
  st_producer : producer T;
  st_consumer : consumer T
}.
Arguments ring_state : clear implicits.

Inductive event {T : Type} :=
  (* [push v] passed its check, or wrote its slot *)
  | EvPushing (v : T)
  | EvPushed (v : T)
  | EvFull (v : T)
  (* [pop] passed its check, or read its slot *)
  | EvPopping
  | EvPopped (v : T)
  | EvEmpty.
Arguments event : clear implicits.

Section system.
Context {T : Type} (dflt : T) (moved : T -> T).
Implicit Types (r : SpscRing T) (v : T).

(** A load of a counter whose last loaded value was [last] and whose newest is
    [newest] returns something in between, going round. *)
Definition may_load (last newest loaded : Z) : Prop :=
  fits 64 loaded /\ loaded -u last <= newest -u last.

Inductive step : ring_state T -> event T -> ring_state T -> Prop :=
  | step_push_check r c v loaded r' :
      may_load (read_cache_ r) (read_ r) loaded ->
      push_check r loaded = (r', true) ->
      step (mkState T r PIdle c) (EvPushing v) (mkState T r' (PWriting v) c)
  | step_push_full r c v loaded r' :
      may_load (read_cache_ r) (read_ r) loaded ->
      push_check r loaded = (r', false) ->
      step (mkState T r PIdle c) (EvFull v) (mkState T r' PIdle c)
  | step_push_write r c v :
      step (mkState T r (PWriting v) c) (EvPushing v) (mkState T (push_write r v) (PStoring v) c)
  | step_push_store r c v :
      step (mkState T r (PStoring v) c) (EvPushed v) (mkState T (push_store r) PIdle c)
  | step_pop_check r p loaded r' :
      may_load (write_cache_ r) (write_ r) loaded ->
      pop_check r loaded = (r', true) ->
      step (mkState T r p CIdle) EvPopping (mkState T r' p CReading)
  | step_pop_empty r p loaded r' :
      may_load (write_cache_ r) (write_ r) loaded ->
      pop_check r loaded = (r', false) ->
      step (mkState T r p CIdle) EvEmpty (mkState T r' p CIdle)
  | step_pop_read r p r' v :
      pop_read moved r = Some (r', v) ->
      step (mkState T r p CReading) EvPopping (mkState T r' p (CStoring v))
  | step_pop_store r p v :
      step (mkState T r p (CStoring v)) (EvPopped v) (mkState T (pop_store r) p CIdle).

#[export] Instance ring_lts : LTS (ring_state T) (event T) := step.

Definition ring_init (capacity : Z) : ring_state T :=
  mkState T (new_ring dflt capacity) PIdle CIdle.

Definition pushed_by (e : event T) : list T := match e with EvPushed v => [v] | _ => [] end.
Definition popped_by (e : event T) : list T := match e with EvPopped v => [v] | _ => [] end.
Definition pushed (tr : list (event T)) : list T := tr ≫= pushed_by.
Definition popped (tr : list (event T)) : list T := tr ≫= popped_by.
End system.

(** ** Powers of two *)

Lemma smear_step v s n k :
  0 < s <= k -> 0 <= v ->
  (forall j, 0 <= j -> n - k < j <= n -> Z.testbit v j = true) ->
  (forall j, n < j -> Z.testbit v j = false) ->
  let v' := Z.lor v (Z.shiftr v s) in
  0 <= v' /\
  (forall j, 0 <= j -> n - (k + s) < j <= n -> Z.testbit v' j = true) /\
  (forall j, n < j -> Z.testbit v' j = false).
Proof.
  intros Hs Hv Hlow Hhigh v'. subst v'. split; [|split].
  - apply Z.lor_nonneg. split; [done|]. by apply Z.shiftr_nonneg.
  - intros j Hj Hr. rewrite Z.lor_spec, Z.shiftr_spec by done.
    destruct (Z.ltb_spec (n - k) j).
    + by rewrite Hlow by lia.
    + rewrite (Hlow (j + s)) by lia. apply orb_true_r.
  - intros j Hj. destruct (Z.ltb_spec j 0); [by apply Z.testbit_neg_r|].
    rewrite Z.lor_spec, Z.shiftr_spec by done. rewrite !Hhigh by lia. done.
Qed.

(** Smearing sets every bit below the highest one. *)
Lemma smear_spec v : 0 < v < 2 ^ 64 -> smear v = 2 ^ (Z.log2 v + 1) - 1.
Proof.
  intros Hv. set (n := Z.log2 v).
  assert (Hn : n < 64) by (apply Z.log2_lt_pow2; lia).
  assert (Hn0 : 0 <= n) by apply Z.log2_nonneg.
  assert (Hbits : 0 <= smear v /\ (forall j, 0 <= j -> n - 64 < j <= n -> Z.testbit (smear v) j = true)
                  /\ forall j, n < j -> Z.testbit (smear v) j = false).
  { unfold smear, shifts. cbn [foldl].
    destruct (smear_step v 1 n 1) as (H1 & L1 & U1); [lia|lia| | |].
    { intros j Hj Hr. replace j with (Z.log2 v) by lia. apply Z.bit_log2. lia. }
    { intros j Hj. apply Z.bits_above_log2; lia. }
    destruct (smear_step _ 2 n 2 ltac:(lia) H1 L1 U1) as (H2 & L2 & U2).
    destruct (smear_step _ 4 n 4 ltac:(lia) H2 L2 U2) as (H3 & L3 & U3).
    destruct (smear_step _ 8 n 8 ltac:(lia) H3 L3 U3) as (H4 & L4 & U4).
    destruct (smear_step _ 16 n 16 ltac:(lia) H4 L4 U4) as (H5 & L5 & U5).
    exact (smear_step _ 32 n 32 ltac:(lia) H5 L5 U5). }
  destruct Hbits as (_ & Hlow & Hhigh).
  replace (2 ^ (n + 1) - 1) with (Z.ones (n + 1)) by (rewrite Z.ones_equiv; lia).
  apply Z.bits_inj'. intros j Hj. rewrite Z.testbit_ones_nonneg by lia.
  destruct (Z.ltb_spec j (n + 1)); [apply Hlow; lia|apply Hhigh; lia].
Qed.

Lemma round_up_spec v :
  0 <= v <= 2 ^ 63 ->
  exists k, 1 <= k <= 63 /\ round_up_pow2 v = 2 ^ k /\ v <= 2 ^ k /\ (2 < v -> 2 ^ k < 2 * v).
Proof.
  intros Hv. unfold round_up_pow2. destruct (Z.ltb_spec v 2) as [H2|H2].
  { exists 1. split; [lia|]. split; [done|]. lia. }
  rewrite (wrap_small 64 (v - 1)), smear_spec by (unfold fits; lia).
  set (n := Z.log2 (v - 1)).
  pose proof (Z.log2_spec (v - 1) ltac:(lia)) as [Hlo Hhi]. fold n in Hlo, Hhi.
  assert (0 <= n) by apply Z.log2_nonneg.
  assert (n < 63) by (apply Z.log2_lt_pow2; lia).
  assert (Hpow : 2 ^ (n + 1) = 2 * 2 ^ n) by (by rewrite Z.pow_add_r, Z.mul_comm by lia).
  assert (2 ^ (n + 1) <= 2 ^ 63) by (apply Z.pow_le_mono_r; lia).
  replace (Z.succ n) with (n + 1) in Hhi by lia.
  exists (n + 1). split; [lia|]. rewrite wrap_small by (unfold fits; lia). lia.
Qed.

(** ** The invariant

    The counters are words of unbounded counters W (written), R (read) and of
    what each thread last knew of the other's, RC and WC. *)

Lemma u64_inj a b : 0 <= b - a < 2 ^ 64 -> u64 a = u64 b -> a = b.
Proof.
  unfold wrap. intros H He. assert (E : (b - a) mod 2 ^ 64 = 0).
  { rewrite Zminus_mod, He, Z.sub_diag. apply Z.mod_0_l. lia. }
  rewrite Z.mod_small in E by lia. lia.
Qed.

Lemma u64_sub a b : 0 <= a - b < 2 ^ 64 -> u64 a -u u64 b = a - b.
Proof. intros H. autorewrite with rdb. by apply wrap_small. Qed.

(** Counters less than a capacity apart have different slots. *)
Lemma mod_ne c a b : a < b < a + c -> a mod c <> b mod c.
Proof.
  intros H He. assert (E : (b - a) mod c = 0).
  { rewrite Zminus_mod, He, Z.sub_diag. apply Z.mod_0_l. lia. }
  rewrite Z.mod_small in E by lia. lia.
Qed.

Lemma may_load_between a b loaded :
  0 <= b - a < 2 ^ 64 -> may_load (u64 a) (u64 b) loaded -> exists l, loaded = u64 l /\ a <= l <= b.
Proof.
  intros Hab [Hf Hle]. rewrite (u64_sub b a) in Hle by done.
  exists (a + (loaded -u u64 a)). split.
  - autorewrite with rdb. replace (a + (loaded - a)) with loaded by lia. by rewrite wrap_small.
  - pose proof (fits_wrap 64 (loaded - u64 a) ltac:(lia)) as [? _]. lia.
Qed.

Section invariant.
Context {T : Type} (dflt : T) (moved : T -> T) (κ : Z) (Hκ : 1 <= κ <= 63).
Implicit Types (r : SpscRing T) (σ : ring_state T) (q : list T).

Record counters r (W R RC WC : Z) : Prop := {
  ct_mask : mask_ r = 2 ^ κ - 1;
  ct_slots : zlen (slots_ r) = 2 ^ κ;
  ct_write : write_ r = u64 W;
  ct_read : read_ r = u64 R;
  ct_read_cache : read_cache_ r = u64 RC;
  ct_write_cache : write_cache_ r = u64 WC;
  ct_order : RC <= R /\ R <= WC <= W;
  ct_bound : W - RC <= 2 ^ κ
}.

(** The slots from R on hold [q], the first only until the consumer took it. *)
Record ring_inv σ q (W R RC WC : Z) : Prop := {
  ri_counters : counters (st_ring σ) W R RC WC;
  ri_size : zlen q = W - R;
  ri_slots i : (match st_consumer σ with CStoring _ => 0 | _ => -1 end) < i < W - R ->
    slots_ (st_ring σ) !! Z.to_nat ((R + i) mod 2 ^ κ) = q !! Z.to_nat i;
  ri_producer :
    match st_producer σ with
    | PIdle => True
    | PWriting _ => W - RC < 2 ^ κ
    | PStoring v => W - RC < 2 ^ κ /\ slots_ (st_ring σ) !! Z.to_nat (W mod 2 ^ κ) = Some v
    end;
  ri_consumer :
    match st_consumer σ with
    | CIdle => True
    | CReading => R < WC
    | CStoring v => R < WC /\ head q = Some v
    end
}.

Lemma pow_bounds : 2 <= 2 ^ κ <= 2 ^ 63.
Proof.
  split; [change 2 with (2 ^ 1) at 1|]; apply Z.pow_le_mono_r; lia.
Qed.

Lemma capacity_pow r W R RC WC : counters r W R RC WC -> capacity r = 2 ^ κ.
Proof.
  intros Hc. unfold capacity. rewrite (ct_mask _ _ _ _ _ Hc). pose proof pow_bounds.
  rewrite wrap_small by (unfold fits; lia). lia.
Qed.

Lemma slot_of_pow r W R RC WC c :
  counters r W R RC WC -> slot_of r (u64 c) = Z.to_nat (c mod 2 ^ κ).
Proof.
  intros Hc. unfold slot_of. rewrite (ct_mask _ _ _ _ _ Hc). f_equal.
  replace (2 ^ κ - 1) with (Z.ones κ) by (rewrite Z.ones_equiv; lia).
  rewrite Z.land_ones by lia. unfold wrap. apply Z.mod_mod_divide.
  exists (2 ^ (64 - κ)). rewrite <-Z.pow_add_r by lia. f_equal. lia.
Qed.

Lemma slot_bound r W R RC WC c :
  counters r W R RC WC -> (Z.to_nat (c mod 2 ^ κ) < length (slots_ r))%nat.
Proof.
  intros Hc. pose proof (ct_slots _ _ _ _ _ Hc) as Hs. unfold zlen in Hs.
  pose proof pow_bounds. pose proof (Z.mod_pos_bound c (2 ^ κ) ltac:(lia)). lia.
Qed.

Lemma slot_ne a b : a < b < a + 2 ^ κ -> Z.to_nat (a mod 2 ^ κ) <> Z.to_nat (b mod 2 ^ κ).
Proof.
  intros H. pose proof (mod_ne (2 ^ κ) a b H). pose proof pow_bounds.
  pose proof (Z.mod_pos_bound a (2 ^ κ) ltac:(lia)).
  pose proof (Z.mod_pos_bound b (2 ^ κ) ltac:(lia)). lia.
Qed.

(** The producer's check answers for the counters it knows. *)
Lemma push_check_spec r W R RC WC loaded r' ok :
  counters r W R RC WC -> may_load (read_cache_ r) (read_ r) loaded ->
  push_check r loaded = (r', ok) ->
  slots_ r' = slots_ r /\
  exists RC', counters r' W R RC' WC /\ RC <= RC' /\ ok = negb (W - RC' =? 2 ^ κ).
Proof.
  intros Hc Hl. pose proof pow_bounds as Hp. pose proof (capacity_pow _ _ _ _ _ Hc) as Hcap.
  destruct Hc as [Hm Hs Hw Hr Hrc Hwc Ho Hb]. unfold push_check.
  rewrite Hcap, Hw, Hrc, u64_sub in * by lia. rewrite Hr in Hl.
  destruct (Z.eqb_spec (W - RC) (2 ^ κ)) as [He|Hne]; intros; simplify_eq.
  - apply may_load_between in Hl as (RC' & -> & HRC); [|lia].
    split; [done|]. exists RC'. rewrite u64_sub by lia.
    split; [split; simpl; auto; lia|]. split; [lia|done].
  - split; [done|]. exists RC. split; [by split|]. split; [lia|].
    by rewrite (proj2 (Z.eqb_neq _ _)).
Qed.

Lemma pop_check_spec r W R RC WC loaded r' ok :
  counters r W R RC WC -> may_load (write_cache_ r) (write_ r) loaded ->
  pop_check r loaded = (r', ok) ->
  slots_ r' = slots_ r /\
  exists WC', counters r' W R RC WC' /\ WC <= WC' /\ ok = negb (R =? WC').
Proof.
  intros Hc Hl. pose proof pow_bounds as Hp.
  destruct Hc as [Hm Hs Hw Hr Hrc Hwc Ho Hb]. unfold pop_check. rewrite Hr, Hwc, Hw in *.
  assert (Heq : forall a, R <= a <= W -> (u64 R =? u64 a) = (R =? a)).
  { intros a Ha. destruct (Z.eqb_spec R a) as [->|Hne]; [apply Z.eqb_refl|].
    apply Z.eqb_neq. intros He%u64_inj; lia. }
  rewrite Heq by lia. destruct (Z.eqb_spec R WC) as [He|Hne]; intros; simplify_eq.
  - apply may_load_between in Hl as (WC' & -> & HWC); [|lia].
    split; [done|]. exists WC'. rewrite Heq by lia.
    split; [split; simpl; auto; lia|]. split; [lia|done].
  - split; [done|]. exists WC. split; [by split|]. split; [lia|].
    by rewrite (proj2 (Z.eqb_neq _ _)).
Qed.

Lemma head_0 q : head q = q !! 0%nat.
Proof. by destruct q. Qed.

(** The four accesses to the slots and the counters. *)
Lemma push_write_inv r c v q W R RC WC :
  ring_inv (mkState T r (PWriting v) c) q W R RC WC ->
  ring_inv (mkState T (push_write r v) (PStoring v) c) q W R RC WC.
Proof.
  intros [Hc Hsz Hsl Hp Hco]. cbn in *. pose proof (slot_bound r _ _ _ _ W Hc) as Hlt.
  pose proof (slot_of_pow r _ _ _ _ W Hc) as Hso. rewrite <-(ct_write _ _ _ _ _ Hc) in Hso.
  pose proof (ct_order _ _ _ _ _ Hc) as Ho.
  split; cbn; rewrite ?Hso; auto.
  - destruct Hc. split; cbn; auto. unfold zlen in *. by rewrite length_insert.
  - intros i Hi. rewrite list_lookup_insert_ne; [by apply Hsl|].
    apply not_eq_sym, slot_ne. destruct c; lia.
  - split; [done|]. by apply list_lookup_insert_eq.
Qed.

Lemma push_store_inv r c v q W R RC WC :
  ring_inv (mkState T r (PStoring v) c) q W R RC WC ->
  ring_inv (mkState T (push_store r) PIdle c) (q ++ [v]) (W + 1) R RC WC.
Proof.
  intros [Hc Hsz Hsl [Hlt Hv] Hco]. cbn in *. pose proof (ct_order _ _ _ _ _ Hc) as Ho.
  split; cbn; auto.
  - destruct Hc as [? ? Hw ? ? ? ? ?]. split; cbn; auto; try lia.
    rewrite Hw. by rewrite wrap_add_l.
  - rewrite zlen_app. change (zlen [v]) with 1. lia.
  - intros i Hi. unfold zlen in Hsz. destruct (Z.eq_dec i (W - R)) as [->|Hne].
    + replace (R + (W - R)) with W by lia. rewrite Hv. symmetry. apply list_lookup_middle. lia.
    + rewrite Hsl, lookup_app_l by (destruct c; lia). done.
  - destruct c; auto. destruct Hco as [? Hh]. split; [done|]. by destruct q.
Qed.

Lemma pop_read_inv r p r' v q W R RC WC :
  ring_inv (mkState T r p CReading) q W R RC WC -> pop_read moved r = Some (r', v) ->
  ring_inv (mkState T r' p (CStoring v)) q W R RC WC.
Proof.
  intros [Hc Hsz Hsl Hp Hco] Hk. cbn in *. unfold pop_read in Hk.
  pose proof (slot_of_pow r _ _ _ _ R Hc) as Hso. rewrite <-(ct_read _ _ _ _ _ Hc) in Hso.
  rewrite Hso in Hk. pose proof (ct_order _ _ _ _ _ Hc) as Ho.
  destruct (slots_ r !! Z.to_nat (R mod 2 ^ κ)) as [x|] eqn:Hx; simplify_eq/=.
  split; cbn; rewrite ?Hso; auto.
  - destruct Hc. split; cbn; auto. unfold zlen in *. by rewrite length_insert.
  - intros i Hi. rewrite list_lookup_insert_ne; [apply Hsl; lia|].
    apply slot_ne. destruct Hc. lia.
  - destruct p as [|x|x]; auto. destruct Hp as [? Hv]. split; [done|].
    rewrite list_lookup_insert_ne; [done|]. apply slot_ne. destruct Hc. lia.
  - split; [done|]. specialize (Hsl 0). rewrite Z.add_0_r, Hx in Hsl. rewrite head_0.
    symmetry. apply Hsl. destruct Hc. lia.
Qed.

Lemma pop_store_inv r p v x q W R RC WC :
  ring_inv (mkState T r p (CStoring v)) (x :: q) W R RC WC ->
  x = v /\ ring_inv (mkState T (pop_store r) p CIdle) q W (R + 1) RC WC.
Proof.
  intros [Hc Hsz Hsl Hp [Hlt Hh]]. cbn in *. injection Hh as ->. split; [done|].
  rewrite zlen_cons in Hsz. split; cbn; auto.
  - destruct Hc as [? ? ? Hr ? ? ? ?]. split; cbn; auto; try lia.
    rewrite Hr. by rewrite wrap_add_l.
  - lia.
  - intros i Hi. replace (R + 1 + i) with (R + (i + 1)) by lia. rewrite Hsl by lia.
    replace (Z.to_nat (i + 1)) with (S (Z.to_nat i)) by lia. done.
Qed.

(** Every step keeps the invariant and moves the queue as its label says. *)
Lemma step_inv σ ev σ' q W R RC WC :
  ring_inv σ q W R RC WC -> step moved σ ev σ' ->
  exists q' W' R' RC' WC', ring_inv σ' q' W' R' RC' WC' /\ q ++ pushed_by ev = popped_by ev ++ q'.
Proof.
  intros Hinv Hs. pose proof Hinv as [Hc Hsz Hsl Hp Hco].
  destruct Hs as [r c v loaded r' Hl Hk|r c v loaded r' Hl Hk|r c v|r c v
                 |r p loaded r' Hl Hk|r p loaded r' Hl Hk|r p r' v Hk|r p v];
    cbn [st_ring st_producer st_consumer pushed_by popped_by] in *; rewrite ?app_nil_r.
  - destruct (push_check_spec _ _ _ _ _ _ _ _ Hc Hl Hk) as (Hss & RC' & Hc' & ? & Hok).
    exists q, W, R, RC', WC. split; [|done]. split; cbn; rewrite ?Hss; auto.
    destruct Hc'. symmetry in Hok. apply negb_true_iff, Z.eqb_neq in Hok. lia.
  - destruct (push_check_spec _ _ _ _ _ _ _ _ Hc Hl Hk) as (Hss & RC' & Hc' & ? & Hok).
    exists q, W, R, RC', WC. split; [|done]. split; cbn; rewrite ?Hss; auto.
  - exists q, W, R, RC, WC. split; [by apply push_write_inv|done].
  - exists (q ++ [v]), (W + 1), R, RC, WC. split; [by apply push_store_inv|done].
  - destruct (pop_check_spec _ _ _ _ _ _ _ _ Hc Hl Hk) as (Hss & WC' & Hc' & ? & Hok).
    exists q, W, R, RC, WC'. split; [|done]. split; cbn; rewrite ?Hss; auto.
    destruct Hc'. symmetry in Hok. apply negb_true_iff, Z.eqb_neq in Hok. lia.
  - destruct (pop_check_spec _ _ _ _ _ _ _ _ Hc Hl Hk) as (Hss & WC' & Hc' & ? & Hok).
    exists q, W, R, RC, WC'. split; [|done]. split; cbn; rewrite ?Hss; auto.
  - exists q, W, R, RC, WC. split; [by eapply pop_read_inv|done].
  - destruct q as [|x q]; [by destruct Hco|]. apply pop_store_inv in Hinv as [-> Hinv].
    by exists q, W, (R + 1), RC, WC.
Qed.
End invariant.

(** ** Concrete interleavings *)

Inductive ring_command {T : Type} :=
  | RPushCheck (v : T) (loaded : Z)
  | RPushNext
  | RPopCheck (loaded : Z)
  | RPopNext.
Arguments ring_command : clear implicits.

Section scheduler.
Context {T : Type} (moved : T -> T).

Definition may_loadb (last newest loaded : Z) : bool :=
  (0 <=? loaded) && (loaded <? 2 ^ 64) && (loaded -u last <=? newest -u last).

Definition ring_exec1 (σ : ring_state T) (c : ring_command T) : option (event T * ring_state T) :=
  let '(mkState _ r p q) := σ in
  match c, p, q with
  | RPushCheck v loaded, PIdle, _ =>
      if may_loadb (read_cache_ r) (read_ r) loaded then
        match push_check r loaded with
        | (r', true) => Some (EvPushing v, mkState T r' (PWriting v) q)
        | (r', false) => Some (EvFull v, mkState T r' PIdle q)
        end
      else None
  | RPushNext, PWriting v, _ => Some (EvPushing v, mkState T (push_write r v) (PStoring v) q)
  | RPushNext, PStoring v, _ => Some (EvPushed v, mkState T (push_store r) PIdle q)
  | RPopCheck loaded, _, CIdle =>
      if may_loadb (write_cache_ r) (write_ r) loaded then
        match pop_check r loaded with
        | (r', true) => Some (EvPopping, mkState T r' p CReading)
        | (r', false) => Some (EvEmpty, mkState T r' p CIdle)
        end
      else None
  | RPopNext, _, CReading =>
      rv ← pop_read moved r; Some (EvPopping, mkState T rv.1 p (CStoring rv.2))
  | RPopNext, _, CStoring v => Some (EvPopped v, mkState T (pop_store r) p CIdle)
  | _, _, _ => None
  end.

Lemma may_loadb_spec a b l : may_loadb a b l = true -> may_load a b l.
Proof.
  unfold may_loadb, may_load, fits. rewrite !andb_true_iff, !Z.leb_le, Z.ltb_lt. tauto.
Qed.

Lemma ring_exec1_sound σ c e σ' : ring_exec1 σ c = Some (e, σ') -> step moved σ e σ'.
Proof.
  destruct σ as [r p q]. unfold ring_exec1. intros H.
  destruct c; repeat (case_match; simplify_eq); eauto using @step, may_loadb_spec.
  destruct (pop_read moved r) as [[r' v]|] eqn:Hr; simplify_eq/=. by constructor.
Qed.
End scheduler.

(** The ring of integers that the properties are tried on. *)
#[export] Instance int_ring_lts : LTS (ring_state Z) (event Z) := step (fun v => v).
#[export] Instance int_ring_scheduler : Scheduler (ring_state Z) (event Z) (ring_command Z) :=
  {| exec1 := ring_exec1 (fun v => v); exec1_sound := ring_exec1_sound (fun v => v) |}.

(** ** Properties *)

Section properties.
Context {T : Type} (dflt : T) (moved : T -> T).
#[local] Instance moved_lts : LTS (ring_state T) (event T) := step moved.

Lemma init_inv c :
  0 <= c <= 2 ^ 63 -> exists κ, 1 <= κ <= 63 /\ ring_inv κ (ring_init dflt c) [] 0 0 0 0.
Proof.
  intros Hc. destruct (round_up_spec c Hc) as (κ & Hκ & Hr & _). exists κ. split; [done|].
  pose proof (pow_bounds κ Hκ) as Hp.
  assert (Hm : round_up_pow2 c -u 1 = 2 ^ κ - 1).
  { rewrite Hr. apply wrap_small. unfold fits. lia. }
  split; [|done|intros i Hi; simpl in Hi; lia|done|done]. split; simpl; try done; try lia.
  unfold zlen. rewrite length_replicate, Hm, wrap_small by (unfold fits; lia). lia.
Qed.

Lemma run_inv c tr σ :
  0 <= c <= 2 ^ 63 -> run (ring_init dflt c) tr σ ->
  exists κ q W R RC WC, 1 <= κ <= 63 /\ ring_inv κ σ q W R RC WC /\ pushed tr = popped tr ++ q.
Proof.
  intros Hc Hr. destruct (init_inv c Hc) as (κ & Hκ & H0).
  enough (exists q W R RC WC, ring_inv κ σ q W R RC WC /\ pushed tr = popped tr ++ q)
    as (q & W & R & RC & WC & ? & ?) by (by exists κ, q, W, R, RC, WC).
  induction Hr as [|tr ev σ σ' Hr (q & W & R & RC & WC & Hi & Hq) Hs]; [by exists [], 0, 0, 0, 0|].
  destruct (step_inv moved κ Hκ _ _ _ _ _ _ _ _ Hi Hs) as (q' & W' & R' & RC' & WC' & Hi' & Hq').
  exists q', W', R', RC', WC'. split; [done|]. unfold pushed, popped in *.
  rewrite !bind_app, Hq. simpl. rewrite !app_nil_r, <-!app_assoc. by rewrite Hq'.
Qed.

Lemma inv_size κ (σ : ring_state T) q W R RC WC :
  1 <= κ <= 63 -> ring_inv κ σ q W R RC WC ->
  size (st_ring σ) = zlen q /\ zlen q <= capacity (st_ring σ) /\ capacity (st_ring σ) = 2 ^ κ.
Proof.
  intros Hκ [Hc Hsz _ _ _]. pose proof (pow_bounds κ Hκ). unfold size, size_of.
  rewrite (capacity_pow κ Hκ _ _ _ _ _ Hc). destruct Hc as [_ _ Hw Hr _ _ Ho Hb].
  rewrite Hw, Hr, u64_sub, Hsz by lia. lia.
Qed.

(** C20: the ring is a FIFO queue: in every interleaving of the two threads'
    memory accesses, with loads of the other's counter as stale as the memory
    model allows, what was popped is exactly a prefix of what was pushed, in
    order; the rest is what [size] counts, and it fits in the capacity. *)
Theorem spsc_fifo c tr σ :
  0 <= c <= 2 ^ 63 -> run (ring_init dflt c) tr σ ->
  exists q, pushed tr = popped tr ++ q /\ size (st_ring σ) = zlen q /\
            zlen q <= capacity (st_ring σ).
Proof.
  intros Hc Hr. destruct (run_inv c tr σ Hc Hr) as (κ & q & W & R & RC & WC & Hκ & Hi & Hq).
  destruct (inv_size κ _ _ _ _ _ _ Hκ Hi) as (? & ? & _). by exists q.
Qed.

(** C21: the threads never touch the same slot at the same time: while the producer
    is about to write its slot and the consumer about to read its own, the two
    are different, so the plain accesses to the slots do not race. *)
Theorem spsc_no_race c tr r v :
  0 <= c <= 2 ^ 63 -> run (ring_init dflt c) tr (mkState T r (PWriting v) CReading) ->
  slot_of r (write_ r) <> slot_of r (read_ r) /\
  (slot_of r (write_ r) < length (slots_ r))%nat /\ (slot_of r (read_ r) < length (slots_ r))%nat.
Proof.
  intros Hc Hr. destruct (run_inv c tr _ Hc Hr) as (κ & q & W & R & RC & WC & Hκ & [Hct _ _ Hp Hco] & _).
  simpl in *. pose proof (slot_of_pow κ Hκ r _ _ _ _ W Hct) as Hw.
  pose proof (slot_of_pow κ Hκ r _ _ _ _ R Hct) as Hrd.
  rewrite <-(ct_write _ _ _ _ _ _ Hct) in Hw. rewrite <-(ct_read _ _ _ _ _ _ Hct) in Hrd.
  rewrite Hw, Hrd. split; [|split; by eapply slot_bound].
  apply not_eq_sym, slot_ne; [done|]. destruct Hct. lia.
Qed.

(** The capacity is the least power of two that is at least 2 and at least
    what was asked for. *)
Theorem ring_capacity c :
  0 <= c <= 2 ^ 63 ->
  exists k, 1 <= k <= 63 /\ capacity (new_ring dflt c) = 2 ^ k /\ c <= 2 ^ k /\
    forall j, 1 <= j -> c <= 2 ^ j -> k <= j.
Proof.
  intros Hc. destruct (round_up_spec c Hc) as (k & Hk & Hr & Hle & Hlt).
  exists k. split; [done|]. pose proof (pow_bounds k Hk) as Hp. split; [|split; [done|]].
  - unfold capacity, new_ring. simpl. autorewrite with rdb. rewrite Hr.
    rewrite wrap_small by (unfold fits; lia). lia.
  - intros j Hj Hcj. destruct (Z.leb_spec c 2) as [H2|H2].
    + unfold round_up_pow2 in Hr. assert (2 ^ k = 2) as Hk2.
      { rewrite <-Hr. destruct (Z.ltb_spec c 2); [done|]. by replace c with 2 by lia. }
      apply (Z.pow_inj_r 2 k 1) in Hk2; lia.
    + destruct (Z.le_gt_cases k j); [done|].
      assert (2 ^ (j + 1) <= 2 ^ k) as Hpow by (apply Z.pow_le_mono_r; lia).
      rewrite Z.pow_add_r in Hpow by lia. specialize (Hlt ltac:(lia)). lia.
Qed.

(** A load that sees the newest value. *)
Lemma may_load_newest a b : fits 64 b -> may_load a b b.
Proof. intros Hb. split; [done|lia]. Qed.

(** With fresh loads, the checks answer exactly: full, and empty. *)
Lemma push_check_fresh κ r p q W R RC WC l :
  1 <= κ <= 63 -> ring_inv κ (mkState T r p q) l W R RC WC ->
  (push_check r (read_ r)).2 = negb (size r =? capacity r).
Proof.
  intros Hκ Hi. destruct (inv_size κ _ _ _ _ _ _ Hκ Hi) as (Hsz & _ & Hcap). simpl in *.
  destruct Hi as [Hct Hlen _ _ _]. simpl in *. pose proof (pow_bounds κ Hκ) as Hp.
  rewrite Hsz, Hcap, Hlen. unfold push_check. rewrite (capacity_pow κ Hκ _ _ _ _ _ Hct).
  destruct Hct as [_ _ Hw Hrd Hrc _ Ho Hb]. rewrite Hw, Hrc, Hrd, !u64_sub by lia.
  destruct (Z.eqb_spec (W - RC) (2 ^ κ)); simpl; [done|].
  symmetry. apply negb_true_iff, Z.eqb_neq. lia.
Qed.

Lemma pop_check_fresh κ r p q W R RC WC l :
  1 <= κ <= 63 -> ring_inv κ (mkState T r p q) l W R RC WC ->
  (pop_check r (write_ r)).2 = negb (size r =? 0) /\
  slots_ (pop_check r (write_ r)).1 = slots_ r /\
  slot_of (pop_check r (write_ r)).1 (read_ (pop_check r (write_ r)).1) = slot_of r (read_ r).
Proof.
  intros Hκ Hi. destruct (inv_size κ _ _ _ _ _ _ Hκ Hi) as (Hsz & _ & _). simpl in *.
  destruct Hi as [Hct Hlen _ _ _]. simpl in *. pose proof (pow_bounds κ Hκ) as Hp.
  rewrite Hsz, Hlen. unfold pop_check. destruct Hct as [_ _ Hw Hrd _ Hwc Ho Hb].
  rewrite Hw, Hrd, Hwc.
  assert (Heq : forall a, R <= a <= W -> (u64 R =? u64 a) = (R =? a)).
  { intros a Ha. destruct (Z.eqb_spec R a) as [->|Hne]; [apply Z.eqb_refl|].
    apply Z.eqb_neq. intros He%u64_inj; lia. }
  rewrite !Heq by lia. replace (W - R =? 0) with (R =? W) by (repeat case_bool; lia).
  destruct (Z.eqb_spec R WC) as [He|Hne]; simpl; rewrite ?Hrd; [done|].
  by rewrite (proj2 (Z.eqb_neq R W)) by lia.
Qed.

(** With no operation in progress, [push] is refused exactly when the ring is
    full and [pop] exactly when it is empty; a refused call changes no content. *)
Theorem spsc_exact c tr r v :
  0 <= c <= 2 ^ 63 -> run (ring_init dflt c) tr (mkState T r PIdle CIdle) ->
  (push r v).2 = negb (size r =? capacity r) /\
  exists r' o, pop moved r = Some (r', o) /\ (o = None <-> size r = 0) /\
    forall x, o = Some x -> exists q, pushed tr = popped tr ++ x :: q.
Proof.
  intros Hc Hr. destruct (run_inv c tr _ Hc Hr) as (κ & q & W & R & RC & WC & Hκ & Hi & Hq).
  destruct (inv_size κ _ _ _ _ _ _ Hκ Hi) as (Hsz & _ & _). simpl in Hsz. split.
  - rewrite <-(push_check_fresh κ r _ _ _ _ _ _ _ Hκ Hi). unfold push.
    by destruct (push_check r (read_ r)) as [r' []].
  - destruct (pop_check_fresh κ r _ _ _ _ _ _ _ Hκ Hi) as (Hok & Hss & Hso). unfold pop.
    destruct (pop_check r (write_ r)) as [r' ok]. simpl in Hok, Hss, Hso. subst ok.
    destruct (Z.eqb_spec (size r) 0) as [He|Hne]; cbn [negb].
    + exists r', None. split; [done|]. split; [split; [lia|done]|done].
    + destruct Hi as [Hct Hlen Hsl _ _]. simpl in *. zlen_pos q. specialize (Hsl 0 ltac:(lia)).
      rewrite Z.add_0_r in Hsl.
      destruct q as [|x q]; [by rewrite Hsz in Hne|]. simpl in Hsl.
      unfold pop_read. rewrite Hss, Hso.
      pose proof (slot_of_pow κ Hκ r _ _ _ _ R Hct) as Hslot.
      rewrite <-(ct_read _ _ _ _ _ _ Hct) in Hslot. rewrite Hslot, Hsl. simpl.
      do 2 eexists. split; [done|]. split; [split; [done|lia]|].
      intros y [= <-]. by exists q.
Qed.
End properties.

(** ** Witnesses and findings *)

Definition one_through : list (ring_command Z) :=
  [RPushCheck 7 0; RPushNext; RPushNext; RPopCheck 1; RPopNext; RPopNext].

(** The second check of [pop] loads a stale [write_] and finds the ring empty. *)
Definition stale_pop : list (ring_command Z) :=
  one_through ++ [RPushCheck 8 0; RPushNext; RPushNext; RPopCheck 1].

Lemma spsc_fifo_witness : exists tr σ,
  exec (ring_init 0 2) stale_pop = Some (tr, σ) /\ pushed tr = [7; 8] /\ popped tr = [7] /\
  exists q, pushed tr = popped tr ++ q /\ size (st_ring σ) = zlen q /\
            zlen q <= capacity (st_ring σ).
Proof.
  do 2 eexists. split; [vm_compute; reflexivity|]. split; [reflexivity|]. split; [reflexivity|].
  apply (spsc_fifo 0 (fun v => v) 2); [lia|]. apply (exec_sound _ stale_pop). vm_compute. reflexivity.
Defined.

Definition both_busy : list (ring_command Z) :=
  [RPushCheck 7 0; RPushNext; RPushNext; RPopCheck 1; RPushCheck 8 0].

Lemma spsc_no_race_witness : exists tr r v,
  exec (ring_init 0 2) both_busy = Some (tr, mkState Z r (PWriting v) CReading) /\
  slot_of r (write_ r) <> slot_of r (read_ r).
Proof.
  do 3 eexists. split; [vm_compute; reflexivity|].
  eapply (spsc_no_race 0 (fun v => v) 2); [lia|].
  apply (exec_sound _ both_busy). vm_compute. reflexivity.
Defined.

Lemma ring_capacity_witness :
  exists k, 1 <= k <= 63 /\ capacity (new_ring 0 5) = 2 ^ k /\ 5 <= 2 ^ k /\
    forall j, 1 <= j -> 5 <= 2 ^ j -> k <= j.
Proof. apply (ring_capacity 0 5). lia. Defined.

Lemma spsc_exact_witness : exists tr r,
  exec (ring_init 0 2) one_through = Some (tr, mkState Z r PIdle CIdle) /\
  (push r 9).2 = negb (size r =? capacity r) /\ size r = 0.
Proof.
  do 2 eexists. split; [vm_compute; reflexivity|]. split; [|reflexivity].
  eapply (spsc_exact 0 (fun v => v) 2); [lia|].
  apply (exec_sound _ one_through). vm_compute. reflexivity.
Defined.

(** [size] from a third thread: [write_] loaded, then an element goes through,
    then [read_] loaded; the difference wraps around. *)
Example size_underflow : exists tr r p c,
  exec (ring_init 0 2) one_through = Some (tr, mkState Z r p c) /\
  size_of (st_ring (ring_init 0 2)) r = 2 ^ 64 - 1.
Proof. do 4 eexists. split; [vm_compute; reflexivity|]. vm_compute. reflexivity. Qed.
