(* ===== verification/BufferPool.v ===== *)
(** * BufferPool

    The fixed-size buffer pool (code/include/rdb/msg/buffer_pool.h): the pool and
    its buffers, the shared handles with their reference counts, and the
    deleters that bring a buffer back, run by several threads.

    Buffers are heap objects, known by an index; a deleted one is [None].  A
    handle is a control block of [shared_ptr<Buffer>]; the pool object lives as
    long as some [shared_ptr<BufferPool>] does: those of its users, and the one
    that a deleter holds between [weak.lock()] and its end.  The bytes of the
    buffers are in [BufferData]. *)

From S2P Require Import Prelude Lts.

Record Buffer := mkBuffer { storage_ : Z; size_ : Z }.

Definition capacity (b : Buffer) : Z := storage_ b.
Definition size (b : Buffer) : Z := size_ b.

Definition resize (b : Buffer) (n : Z) : Buffer * bool :=
  if storage_ b <? n then (b, false) else (mkBuffer (storage_ b) n, true).

Record BufferPool := mkPool {
  free_ : list nat;
  buffer_bytes_ : Z;
  total_ : Z;
  exhausted_ : Z
}.

Record Handle := mkHandle { h_buffer : nat; h_refs : nat }.

(** A deleter: called; holding the pool, about to release; about to give up the
    pool; returned. *)
Inductive deleter := DStart (b : nat) | DReleasing (b : nat) | DLeaving | DDone.

Record pool_state := mkState {
  ps_buffers : list (option Buffer);
  (* [None] when the pool object is destroyed *)
  ps_pool : option BufferPool;
  ps_users : nat;
  ps_handles : list Handle;
  ps_deleters : list deleter
}.

(** ** The operations *)

(** [Buffer(bytes)] and [BufferPool(buffer_bytes, count)], before [preallocate]. *)
Definition new_buffer (bytes : Z) : Buffer := mkBuffer bytes 0.

Definition new_pool (buffer_bytes count : Z) : BufferPool :=
  mkPool [] (if buffer_bytes =? 0 then 1 else buffer_bytes) (if count =? 0 then 1 else count) 0.

Definition buffer_bytes (p : BufferPool) : Z := buffer_bytes_ p.
Definition total (p : BufferPool) : Z := total_ p.

(** The loop of [preallocate], [k] rounds: a new buffer goes at the end of the
    heap and of the free list. *)
Fixpoint preallocate (k : nat) (bufs : list (option Buffer)) (p : BufferPool)
  : list (option Buffer) * BufferPool :=
  match k with
  | O => (bufs, p)
  | S k =>
      preallocate k (bufs ++ [Some (new_buffer (buffer_bytes_ p))])
        (mkPool (free_ p ++ [length bufs]) (buffer_bytes_ p) (total_ p) (exhausted_ p))
  end.

(** [create]: one user holds the pool. *)
Definition create (buffer_bytes count : Z) : pool_state :=
  let pool := new_pool buffer_bytes count in
  let '(bufs, pool) := preallocate (Z.to_nat (total_ pool)) [] pool in
  mkState bufs (Some pool) 1 [] [].

(** [free_.back()] and [free_.pop_back()]. *)
Fixpoint pop_back (l : list nat) : option (list nat * nat) :=
  match l with
  | [] => None
  | [x] => Some ([], x)
  | x :: l => match pop_back l with Some (l', y) => Some (x :: l', y) | None => None end
  end.

Definition set_size (bufs : list (option Buffer)) (b : nat) (n : Z) : list (option Buffer) :=
  alter (fmap (fun x => mkBuffer (storage_ x) n)) b bufs.

(** The locked block of [acquire]. *)
Definition take_free (p : BufferPool) : BufferPool * option nat :=
  match pop_back (free_ p) with
  | None => (mkPool (free_ p) (buffer_bytes_ p) (total_ p) (exhausted_ p +u 1), None)
  | Some (free, b) => (mkPool free (buffer_bytes_ p) (total_ p) (exhausted_ p), Some b)
  end.

(** [acquire]: the new handle's index, or null. *)
Definition acquire (σ : pool_state) (p : BufferPool) : pool_state * option nat :=
  match take_free p with
  | (p', None) => (mkState (ps_buffers σ) (Some p') (ps_users σ) (ps_handles σ) (ps_deleters σ), None)
  | (p', Some b) =>
      (mkState (set_size (ps_buffers σ) b 0) (Some p') (ps_users σ)
         (ps_handles σ ++ [mkHandle b 1]) (ps_deleters σ), Some (length (ps_handles σ)))
  end.

Definition available (p : BufferPool) : Z := zlen (free_ p).
Definition in_use (p : BufferPool) : Z := total_ p -u available p.
Definition exhausted_count (p : BufferPool) : Z := exhausted_ p.

(** [release], with the size reset before the lock. *)
Definition release (bufs : list (option Buffer)) (p : BufferPool) (b : nat)
  : list (option Buffer) * BufferPool :=
  (set_size bufs b 0,
   mkPool (free_ p ++ [b]) (buffer_bytes_ p) (total_ p) (exhausted_ p)).

(** [delete p]. *)
Definition free_buffer (bufs : list (option Buffer)) (b : nat) : list (option Buffer) :=
  <[b := None]> bufs.

(** [~BufferPool]: [free_] deletes what it holds. *)
Definition destroy (bufs : list (option Buffer)) (p : BufferPool) : list (option Buffer) :=
  foldl free_buffer bufs (free_ p).

Definition holds_pool (d : deleter) : bool :=
  match d with DReleasing _ | DLeaving => true | _ => false end.

(** [use_count] of the pool. *)
Definition strong (σ : pool_state) : nat := ps_users σ + countb holds_pool (ps_deleters σ).

(** What follows when one owner of the pool lets go of it. *)
Definition unref (σ : pool_state) : pool_state :=
  if (strong σ =? 0)%nat then
    match ps_pool σ with
    | Some p => mkState (destroy (ps_buffers σ) p) None (ps_users σ) (ps_handles σ) (ps_deleters σ)
    | None => σ
    end
  else σ.

Definition with_deleter (σ : pool_state) (i : nat) (d : deleter) : pool_state :=
  mkState (ps_buffers σ) (ps_pool σ) (ps_users σ) (ps_handles σ) (<[i := d]> (ps_deleters σ)).

Definition with_users (σ : pool_state) (n : nat) : pool_state :=
  mkState (ps_buffers σ) (ps_pool σ) n (ps_handles σ) (ps_deleters σ).

(** The deleter of a handle runs when its count reaches zero. *)
Definition last_owner (b n : nat) : list deleter := if (n =? 0)%nat then [DStart b] else [].

(** ** The threads *)

Inductive event :=
  | EvAcquire (h : option nat)
  | EvResize (h : nat) (n : Z) (ok : bool)
  | EvInternal.

Inductive step : pool_state -> event -> pool_state -> Prop :=
  (* a user holds the pool alive while it calls *)
  | step_acquire σ p :
      ps_pool σ = Some p -> (0 < ps_users σ)%nat ->
      step σ (EvAcquire (acquire σ p).2) (acquire σ p).1
  | step_copy_pool σ :
      (0 < ps_users σ)%nat -> step σ EvInternal (with_users σ (S (ps_users σ)))
  | step_drop_pool σ n :
      ps_users σ = S n -> step σ EvInternal (unref (with_users σ n))
  | step_copy_handle σ i b n :
      ps_handles σ !! i = Some (mkHandle b (S n)) ->
      step σ EvInternal
        (mkState (ps_buffers σ) (ps_pool σ) (ps_users σ) (<[i := mkHandle b (S (S n))]> (ps_handles σ))
           (ps_deleters σ))
  (* the last owner of the handle runs its deleter *)
  | step_drop_handle σ i b n :
      ps_handles σ !! i = Some (mkHandle b (S n)) ->
      step σ EvInternal
        (mkState (ps_buffers σ) (ps_pool σ) (ps_users σ) (<[i := mkHandle b n]> (ps_handles σ))
           (ps_deleters σ ++ last_owner b n))
  | step_resize σ i b n x x' ok k :
      ps_handles σ !! i = Some (mkHandle b (S n)) -> ps_buffers σ !! b = Some (Some x) ->
      resize x k = (x', ok) ->
      step σ (EvResize i k ok)
        (mkState (<[b := Some x']> (ps_buffers σ)) (ps_pool σ) (ps_users σ) (ps_handles σ)
           (ps_deleters σ))
  (* weak.lock() *)
  | step_lock σ i b :
      ps_deleters σ !! i = Some (DStart b) -> (0 < strong σ)%nat ->
      step σ EvInternal (with_deleter σ i (DReleasing b))
  | step_delete σ i b :
      ps_deleters σ !! i = Some (DStart b) -> strong σ = 0%nat ->
      step σ EvInternal
        (mkState (free_buffer (ps_buffers σ) b) (ps_pool σ) (ps_users σ) (ps_handles σ)
           (<[i := DDone]> (ps_deleters σ)))
  | step_release σ i b p :
      ps_deleters σ !! i = Some (DReleasing b) -> ps_pool σ = Some p ->
      step σ EvInternal
        (mkState (release (ps_buffers σ) p b).1 (Some (release (ps_buffers σ) p b).2) (ps_users σ)
           (ps_handles σ) (<[i := DLeaving]> (ps_deleters σ)))
  | step_leave σ i :
      ps_deleters σ !! i = Some DLeaving ->
      step σ EvInternal (unref (with_deleter σ i DDone)).

#[export] Instance pool_lts : LTS pool_state event := step.

(** ** Where the buffers are *)

Definition held_by (h : Handle) : list nat :=
  if (h_refs h =? 0)%nat then [] else [h_buffer h].

Definition carried_by (d : deleter) : list nat :=
  match d with DStart b | DReleasing b => [b] | _ => [] end.

Definition free_in (p : option BufferPool) : list nat :=
  match p with Some p => free_ p | None => [] end.

Definition places (σ : pool_state) : list nat :=
  free_in (ps_pool σ) ++ (ps_handles σ ≫= held_by) ++ (ps_deleters σ ≫= carried_by).

Definition allocated (bufs : list (option Buffer)) (b : nat) : bool :=
  match bufs !! b with Some (Some _) => true | _ => false end.

Record pool_inv (bytes : Z) (n : nat) (σ : pool_state) : Prop := {
  (* every buffer that exists is in exactly one place, and no other index is *)
  pi_places b : countb (Nat.eqb b) (places σ) = if allocated (ps_buffers σ) b then 1%nat else 0%nat;
  pi_length : length (ps_buffers σ) = n;
  pi_alive : is_Some (ps_pool σ) <-> (0 < strong σ)%nat;
  pi_all b : is_Some (ps_pool σ) -> (b < n)%nat -> allocated (ps_buffers σ) b = true;
  pi_total p : ps_pool σ = Some p -> total_ p = Z.of_nat n;
  pi_storage b x : ps_buffers σ !! b = Some (Some x) -> storage_ x = bytes
}.

(** ** Lemmas on the heap *)

Lemma allocated_set_size bufs b n c : allocated (set_size bufs b n) c = allocated bufs c.
Proof.
  unfold allocated, set_size. destruct (decide (c = b)) as [->|Hne].
  - rewrite list_lookup_alter_eq. by destruct (bufs !! b) as [[]|].
  - by rewrite list_lookup_alter_ne.
Qed.

Lemma allocated_free bufs b c :
  allocated (free_buffer bufs b) c = allocated bufs c && negb (Nat.eqb c b).
Proof.
  unfold allocated, free_buffer. destruct (Nat.eqb_spec c b) as [->|Hne]; simpl.
  - rewrite andb_false_r. destruct (decide (b < length bufs)%nat).
    + by rewrite list_lookup_insert_eq.
    + rewrite list_insert_ge by lia. by rewrite lookup_ge_None_2 by lia.
  - by rewrite andb_true_r, list_lookup_insert_ne.
Qed.

Lemma allocated_destroy free : forall bufs c,
  allocated (foldl free_buffer bufs free) c = allocated bufs c && negb (bool_decide (c ∈ free)).
Proof.
  induction free as [|b free IH]; intros bufs c; simpl; [by rewrite andb_true_r|].
  rewrite IH, allocated_free. destruct (Nat.eqb_spec c b) as [->|Hne].
  - rewrite (bool_decide_true (b ∈ b :: free)) by set_solver. by rewrite !andb_false_r.
  - rewrite (bool_decide_ext (c ∈ b :: free) (c ∈ free)) by set_solver. by rewrite andb_true_r.
Qed.

Lemma destroy_storage free : forall bufs b x,
  foldl free_buffer bufs free !! b = Some (Some x) -> bufs !! b = Some (Some x).
Proof.
  induction free as [|c free IH]; intros bufs b x; simpl; [done|].
  intros H%IH. unfold free_buffer in H.
  by apply list_lookup_insert_Some in H as [(_ & ? & _)|(_ & ?)].
Qed.

Lemma destroy_length free : forall bufs, length (foldl free_buffer bufs free) = length bufs.
Proof.
  induction free as [|c free IH]; intros bufs; simpl; [done|]. rewrite IH.
  apply length_insert.
Qed.

Lemma set_size_storage bufs b n c x :
  set_size bufs b n !! c = Some (Some x) -> exists y, bufs !! c = Some (Some y) /\ storage_ x = storage_ y.
Proof.
  unfold set_size. destruct (decide (c = b)) as [->|Hne].
  - rewrite list_lookup_alter_eq. destruct (bufs !! b) as [[y|]|]; simpl; intros; simplify_eq. eauto.
  - rewrite list_lookup_alter_ne by done. eauto.
Qed.

Lemma pop_back_spec l l' x : pop_back l = Some (l', x) -> l = l' ++ [x].
Proof.
  revert l'. induction l as [|y l IH]; intros l' H; [done|]. simpl in H.
  destruct l as [|z l]; [by simplify_eq|].
  destruct (pop_back (z :: l)) as [[l'' w]|] eqn:Hp; simplify_eq. by rewrite (IH l'') at 1.
Qed.

Lemma pop_back_none l : pop_back l = None -> l = [].
Proof.
  induction l as [|y l IH]; [done|]. simpl. destruct l as [|z l]; [done|].
  destruct (pop_back (z :: l)) as [[? ?]|] eqn:Hp; [done|]. intros _. by specialize (IH eq_refl).
Qed.

(** ** The invariant is kept *)

(** The invariant, but for the pool that nobody owns any more. *)
Definition pool_inv_open (bytes : Z) (n : nat) (σ : pool_state) : Prop :=
  (forall b, countb (Nat.eqb b) (places σ) = if allocated (ps_buffers σ) b then 1%nat else 0%nat) /\
  length (ps_buffers σ) = n /\
  ((0 < strong σ)%nat -> is_Some (ps_pool σ)) /\
  (forall b, is_Some (ps_pool σ) -> (b < n)%nat -> allocated (ps_buffers σ) b = true) /\
  (forall p, ps_pool σ = Some p -> total_ p = Z.of_nat n) /\
  (forall b x, ps_buffers σ !! b = Some (Some x) -> storage_ x = bytes).

Lemma pool_inv_opened bytes n σ : pool_inv bytes n σ -> pool_inv_open bytes n σ.
Proof. intros [? ? [? ?] ? ? ?]. by repeat split. Qed.

Lemma countb_elem_nat b (l : list nat) : (0 < countb (Nat.eqb b) l)%nat <-> b ∈ l.
Proof.
  split.
  - intros (x & Hx & ->%Nat.eqb_eq)%countb_elem_inv. done.
  - intros Hb. eapply countb_le_elem; [done|]. apply Nat.eqb_refl.
Qed.

Lemma NoDup_count_nat (l : list nat) : (forall b, (countb (Nat.eqb b) l <= 1)%nat) -> NoDup l.
Proof.
  induction l as [|a l IH]; intros H; constructor.
  - intros Hin%countb_elem_nat. specialize (H a). rewrite countb_cons, Nat.eqb_refl in H. lia.
  - apply IH. intros b. specialize (H b). rewrite countb_cons in H. lia.
Qed.

(** Letting go of the pool: the last owner destroys it. *)
Lemma unref_inv bytes n σ : pool_inv_open bytes n σ -> pool_inv bytes n (unref σ).
Proof.
  intros (Hp & Hl & Ha & Hall & Ht & Hs). unfold unref.
  destruct (Nat.eqb_spec (strong σ) 0) as [H0|H0]; [|by split; auto; split; auto with lia].
  destruct (ps_pool σ) as [p|] eqn:Hpool.
  - split; simpl; auto.
    + intros b. specialize (Hp b). unfold places in *. rewrite Hpool in Hp. simpl in *.
      rewrite countb_app in Hp. unfold destroy. rewrite allocated_destroy.
      pose proof (countb_elem_nat b (free_ p)) as Hfree.
      case_bool_decide as Hin; simpl; rewrite ?andb_true_r, ?andb_false_r.
      * apply Hfree in Hin. destruct (allocated (ps_buffers σ) b); lia.
      * destruct (Nat.eq_dec (countb (Nat.eqb b) (free_ p)) 0); [|exfalso; apply Hin, Hfree; lia].
        destruct (allocated (ps_buffers σ) b); lia.
    + unfold destroy. by rewrite destroy_length.
    + unfold strong in *. simpl. split; [by intros [? ?]|lia].
    + by intros b [? ?].
    + done.
    + intros b x Hx. by apply Hs with b, (destroy_storage (free_ p)).
  - split; rewrite ?Hpool; auto. split; [by intros [? ?]|lia].
Qed.

Lemma places_insert_deleter bufs pool u hs ds i d d' f :
  ds !! i = Some d ->
  (countb f (places (mkState bufs pool u hs (<[i := d']> ds))) + countb f (carried_by d)
   = countb f (places (mkState bufs pool u hs ds)) + countb f (carried_by d'))%nat.
Proof.
  intros Hd. unfold places. simpl. rewrite !countb_app.
  pose proof (countb_bind_insert f carried_by ds i d d' Hd). lia.
Qed.

Lemma places_insert_handle bufs pool u hs ds i h h' f :
  hs !! i = Some h ->
  (countb f (places (mkState bufs pool u (<[i := h']> hs) ds)) + countb f (held_by h)
   = countb f (places (mkState bufs pool u hs ds)) + countb f (held_by h'))%nat.
Proof.
  intros Hh. unfold places. simpl. rewrite !countb_app.
  pose proof (countb_bind_insert f held_by hs i h h' Hh). lia.
Qed.

(** Changing deleter [i] moves the pool's owners by what it holds. *)
Lemma strong_insert bufs pool u hs ds i d d' :
  ds !! i = Some d ->
  (strong (mkState bufs pool u hs (<[i := d']> ds)) + (if holds_pool d then 1 else 0)
   = strong (mkState bufs pool u hs ds) + (if holds_pool d' then 1 else 0))%nat.
Proof.
  intros Hd. unfold strong. simpl. pose proof (countb_insert holds_pool ds i d d' Hd). lia.
Qed.

Lemma strong_snoc bufs pool u hs ds b :
  strong (mkState bufs pool u hs (ds ++ [DStart b])) = strong (mkState bufs pool u hs ds).
Proof. unfold strong. simpl. rewrite countb_app. unfold countb. simpl. lia. Qed.

Lemma acquire_inv bytes n σ p :
  ps_pool σ = Some p -> pool_inv bytes n σ -> pool_inv bytes n (acquire σ p).1.
Proof.
  intros Hpool [Hp Hl Ha Hall Ht Hs]. destruct σ as [bufs pool u hs ds]. simpl in *. subst pool.
  unfold acquire, take_free, strong in *. simpl in *.
  destruct (pop_back (free_ p)) as [[free b]|] eqn:Hpop; simpl.
  - apply pop_back_spec in Hpop. split; simpl.
    + intros c. rewrite allocated_set_size, <-Hp. unfold places. simpl.
      rewrite Hpop, !bind_app, !countb_app. simpl. lia.
    + unfold set_size. by rewrite length_alter.
    + unfold strong. simpl. rewrite <-Ha. split; eauto.
    + intros c _ Hc. rewrite allocated_set_size. eauto.
    + intros p' [= <-]. simpl. by apply Ht.
    + intros c x (y & Hy & ->)%set_size_storage. eauto.
  - split; simpl; auto.
    + unfold strong. simpl. rewrite <-Ha. split; eauto.
    + intros p' [= <-]. simpl. by apply Ht.
Qed.

Lemma release_inv bytes n bufs p u hs ds i b :
  ds !! i = Some (DReleasing b) -> pool_inv bytes n (mkState bufs (Some p) u hs ds) ->
  pool_inv bytes n (mkState (release bufs p b).1 (Some (release bufs p b).2) u hs (<[i := DLeaving]> ds)).
Proof.
  intros Hd [Hp Hl Ha Hall Ht Hs]. simpl in *. split; simpl.
  - intros c. rewrite allocated_set_size, <-Hp. clear -Hd. unfold places. simpl.
    pose proof (countb_bind_insert (Nat.eqb c) carried_by ds i _ DLeaving Hd).
    rewrite !countb_app in *. simpl in *. rewrite countb_nil in *. lia.
  - unfold set_size. by rewrite length_alter.
  - pose proof (strong_insert bufs (Some p) u hs ds i _ DLeaving Hd) as Hst. simpl in Hst.
    unfold strong in *. simpl in *. split; [|eauto]. intros _.
    assert (is_Some (Some p)) as Hsome by eauto. apply Ha in Hsome. lia.
  - intros c _ Hc. rewrite allocated_set_size. eauto.
  - intros p' [= <-]. simpl. by apply Ht.
  - intros c x (y & Hy & ->)%set_size_storage. eauto.
Qed.

(** Any other change that keeps the pool object and the heap's shape. *)
Lemma same_heap_inv bytes n bufs pool u hs ds u' hs' ds' :
  (forall b, countb (Nat.eqb b) (places (mkState bufs pool u' hs' ds'))
             = countb (Nat.eqb b) (places (mkState bufs pool u hs ds))) ->
  ((0 < strong (mkState bufs pool u' hs' ds'))%nat <-> (0 < strong (mkState bufs pool u hs ds))%nat) ->
  pool_inv bytes n (mkState bufs pool u hs ds) -> pool_inv bytes n (mkState bufs pool u' hs' ds').
Proof.
  intros Hpl Hst [Hp Hl Ha Hall Ht Hs]. simpl in *. split; simpl; auto.
  - intros b. by rewrite Hpl, Hp.
  - by rewrite Ha, Hst.
Qed.

Lemma resize_inv bytes n bufs pool us hs ds b x x' sz ok :
  pool_inv bytes n (mkState bufs pool us hs ds) ->
  bufs !! b = Some (Some x) -> resize x sz = (x', ok) ->
  pool_inv bytes n (mkState (<[b := Some x']> bufs) pool us hs ds).
Proof.
  intros [Hp Hl Ha Hall Ht Hs] Hb Hr. simpl in *.
  assert (Halloc : forall c, allocated (<[b := Some x']> bufs) c = allocated bufs c).
  { intros c. unfold allocated. destruct (decide (c = b)) as [->|].
    - rewrite list_lookup_insert_eq, Hb by (by eapply lookup_lt_Some). done.
    - by rewrite list_lookup_insert_ne. }
  split; simpl; auto.
  - intros c. rewrite Halloc. apply Hp.
  - by rewrite length_insert.
  - intros c Hc Hlt. rewrite Halloc. auto.
  - intros c y [(<- & [= <-] & _)|(_ & Hy)]%list_lookup_insert_Some; [|eauto].
    unfold resize in Hr. destruct (storage_ x <? sz); simplify_eq/=; eauto.
Qed.

(** A deleter that finds the pool gone frees its buffer. *)
Lemma delete_inv bytes n bufs pool us hs ds i b :
  pool_inv bytes n (mkState bufs pool us hs ds) ->
  ds !! i = Some (DStart b) -> strong (mkState bufs pool us hs ds) = 0%nat ->
  pool_inv bytes n (mkState (free_buffer bufs b) pool us hs (<[i := DDone]> ds)).
Proof.
  intros [Hp Hl Ha Hall Ht Hs] Hd Hst. simpl in *.
  pose proof (strong_insert bufs pool us hs ds i _ DDone Hd) as Hss. simpl in Hss.
  assert (pool = None) as ->.
  { destruct pool; [|done]. assert (0 < 0)%nat; [|lia]. rewrite <-Hst at 2. apply Ha. eauto. }
  split; simpl.
  - intros c. rewrite allocated_free. specialize (Hp c).
    pose proof (places_insert_deleter bufs None us hs ds i _ DDone (Nat.eqb c) Hd) as H'.
    unfold places in *. simpl in *. rewrite countb_cons, !countb_nil in H'.
    destruct (Nat.eqb_spec c b), (allocated bufs c); simpl; lia.
  - unfold free_buffer. by rewrite length_insert.
  - unfold strong in *. simpl in *. split; [by intros [? ?]|lia].
  - by intros c [? ?].
  - done.
  - intros c y Hy. unfold free_buffer in Hy.
    apply list_lookup_insert_Some in Hy as [(_ & ? & _)|(_ & Hy)]; [done|eauto].
Qed.

Lemma step_pool_inv bytes n σ ev σ' : pool_inv bytes n σ -> step σ ev σ' -> pool_inv bytes n σ'.
Proof.
  intros Hinv Hs. destruct Hs as [σ p Hp Hu|σ Hu|σ u Hu|σ i b k Hh|σ i b k Hh|σ i b k x x' ok sz Hh Hb Hr
                                 |σ i b Hd Hst|σ i b Hd Hst|σ i b p Hd Hp|σ i Hd];
    destruct σ as [bufs pool us hs ds]; simpl in *; subst.
  - by apply acquire_inv.
  - apply (same_heap_inv bytes n bufs pool us hs ds); [| |exact Hinv]; [done|]. unfold strong. simpl. lia.
  - apply unref_inv. destruct Hinv as [Hp Hl Ha Hall Ht Hs]. unfold with_users. simpl in *.
    repeat split; auto. intros H. apply Ha. unfold strong in *. simpl in *. lia.
  - apply (same_heap_inv bytes n bufs pool us hs ds); [|done|exact Hinv]. intros c.
    pose proof (places_insert_handle bufs pool us hs ds i _ (mkHandle b (S (S k))) (Nat.eqb c) Hh) as H.
    unfold held_by in H. simpl in H. lia.
  - apply (same_heap_inv bytes n bufs pool us hs ds); [| |exact Hinv].
    + intros c.
      pose proof (places_insert_handle bufs pool us hs ds i _ (mkHandle b k) (Nat.eqb c) Hh) as H.
      unfold held_by in H. simpl in H. unfold places in *. simpl in *.
      rewrite bind_app, !countb_app in *. unfold last_owner.
      destruct (k =? 0)%nat; simpl in *; rewrite ?countb_nil in *; lia.
    + unfold strong, last_owner. simpl. rewrite countb_app. destruct (k =? 0)%nat; unfold countb; simpl; lia.
  - by eapply resize_inv.
  - pose proof (strong_insert bufs pool us hs ds i _ (DReleasing b) Hd) as H. simpl in H.
    unfold with_deleter. simpl.
    apply (same_heap_inv bytes n bufs pool us hs ds); [|lia|exact Hinv]. intros c.
    pose proof (places_insert_deleter bufs pool us hs ds i _ (DReleasing b) (Nat.eqb c) Hd) as H'.
    simpl in H'. lia.
  - by apply delete_inv.
  - by apply release_inv.
  - apply unref_inv. unfold with_deleter. simpl.
    pose proof (strong_insert bufs pool us hs ds i _ DDone Hd) as Hss. simpl in Hss.
    destruct Hinv as [Hp Hl Ha Hall Ht Hs]. simpl in *. repeat split; auto.
    + intros c. rewrite <-Hp.
      pose proof (places_insert_deleter bufs pool us hs ds i _ DDone (Nat.eqb c) Hd) as H'.
      simpl in H'. rewrite !countb_nil in H'. lia.
    + intros H. apply Ha. lia.
Qed.

Lemma preallocate_spec k : forall bufs p,
  preallocate k bufs p =
    (bufs ++ replicate k (Some (new_buffer (buffer_bytes_ p))),
     mkPool (free_ p ++ seq (length bufs) k) (buffer_bytes_ p) (total_ p) (exhausted_ p)).
Proof.
  induction k as [|k IH]; intros bufs p; simpl.
  - rewrite !app_nil_r. by destruct p.
  - rewrite IH. simpl. rewrite <-!app_assoc, length_app. simpl. by rewrite Nat.add_1_r.
Qed.

Lemma create_spec bytes count :
  create bytes count =
    let b := if bytes =? 0 then 1 else bytes in
    let n := if count =? 0 then 1 else count in
    mkState (replicate (Z.to_nat n) (Some (mkBuffer b 0)))
      (Some (mkPool (seq 0 (Z.to_nat n)) b n 0)) 1 [] [].
Proof. unfold create. by rewrite preallocate_spec. Qed.

Lemma create_inv bytes count :
  0 <= bytes -> 0 <= count ->
  pool_inv (if bytes =? 0 then 1 else bytes) (Z.to_nat (if count =? 0 then 1 else count))
    (create bytes count).
Proof.
  intros Hb Hc. rewrite create_spec. cbv zeta. set (n := Z.to_nat (if count =? 0 then 1 else count)).
  assert (Hal : forall b, allocated (replicate n (Some (mkBuffer (if bytes =? 0 then 1 else bytes) 0))) b
                          = bool_decide (b < n)%nat).
  { intros b. unfold allocated. case_bool_decide as Hlt.
    - by rewrite lookup_replicate_2.
    - by rewrite lookup_ge_None_2 by (rewrite length_replicate; lia). }
  split; simpl.
  - intros b. rewrite Hal. unfold places. simpl. rewrite !app_nil_r.
    assert (Hseq : forall k m, countb (Nat.eqb b) (seq k m) = if bool_decide (k <= b < k + m)%nat then 1%nat else 0%nat).
    { intros k m. revert k. induction m as [|m IH]; intros k; simpl.
      - rewrite bool_decide_false by lia. done.
      - rewrite countb_cons, IH. destruct (Nat.eqb_spec b k) as [->|].
        + rewrite (bool_decide_false (S k <= k < S k + m)%nat), (bool_decide_true (k <= k < k + S m)%nat) by lia. done.
        + rewrite (bool_decide_ext (k <= b < k + S m)%nat (S k <= b < S k + m)%nat) by lia. done. }
    rewrite Hseq. by rewrite (bool_decide_ext (0 <= b < 0 + n)%nat (b < n)%nat) by lia.
  - apply length_replicate.
  - unfold strong. simpl. split; [lia|eauto].
  - intros b _ Hlt. rewrite Hal. by apply bool_decide_true.
  - intros p [= <-]. simpl. unfold n. repeat case_bool; lia.
  - intros b x Hx. by apply lookup_replicate in Hx as [[= ->] _].
Qed.

Lemma run_pool_inv bytes count tr σ :
  0 <= bytes -> 0 <= count -> run (create bytes count) tr σ ->
  pool_inv (if bytes =? 0 then 1 else bytes) (Z.to_nat (if count =? 0 then 1 else count)) σ.
Proof.
  intros Hb Hc. apply run_invariant; [by apply create_inv|].
  intros σ1 e σ2. apply step_pool_inv.
Qed.

(** ** Concrete interleavings *)

Inductive pool_command :=
  | PAcquire
  | PCopyPool
  | PDropPool
  | PCopy (h : nat)
  | PDrop (h : nat)
  | PResize (h : nat) (n : Z)
  (* deleter [i] runs its next block *)
  | PDelete (i : nat).

Definition delete_next (σ : pool_state) (i : nat) : option (event * pool_state) :=
  match ps_deleters σ !! i with
  | Some (DStart b) =>
      if (0 <? strong σ)%nat then Some (EvInternal, with_deleter σ i (DReleasing b))
      else Some (EvInternal,
                 mkState (free_buffer (ps_buffers σ) b) (ps_pool σ) (ps_users σ) (ps_handles σ)
                   (<[i := DDone]> (ps_deleters σ)))
  | Some (DReleasing b) =>
      match ps_pool σ with
      | Some p =>
          Some (EvInternal,
                mkState (release (ps_buffers σ) p b).1 (Some (release (ps_buffers σ) p b).2)
                  (ps_users σ) (ps_handles σ) (<[i := DLeaving]> (ps_deleters σ)))
      | None => None
      end
  | Some DLeaving => Some (EvInternal, unref (with_deleter σ i DDone))
  | _ => None
  end.

Definition pool_exec1 (σ : pool_state) (c : pool_command) : option (event * pool_state) :=
  match c with
  | PAcquire =>
      match ps_pool σ with
      | Some p => if (0 <? ps_users σ)%nat
                  then Some (EvAcquire (acquire σ p).2, (acquire σ p).1) else None
      | None => None
      end
  | PCopyPool =>
      if (0 <? ps_users σ)%nat then Some (EvInternal, with_users σ (S (ps_users σ))) else None
  | PDropPool =>
      match ps_users σ with
      | S n => Some (EvInternal, unref (with_users σ n))
      | O => None
      end
  | PCopy i =>
      match ps_handles σ !! i with
      | Some (mkHandle b (S n)) =>
          Some (EvInternal,
                mkState (ps_buffers σ) (ps_pool σ) (ps_users σ)
                  (<[i := mkHandle b (S (S n))]> (ps_handles σ)) (ps_deleters σ))
      | _ => None
      end
  | PDrop i =>
      match ps_handles σ !! i with
      | Some (mkHandle b (S n)) =>
          Some (EvInternal,
                mkState (ps_buffers σ) (ps_pool σ) (ps_users σ) (<[i := mkHandle b n]> (ps_handles σ))
                  (ps_deleters σ ++ last_owner b n))
      | _ => None
      end
  | PResize i k =>
      match ps_handles σ !! i with
      | Some (mkHandle b (S n)) =>
          match ps_buffers σ !! b with
          | Some (Some x) =>
              Some (EvResize i k (resize x k).2,
                    mkState (<[b := Some (resize x k).1]> (ps_buffers σ)) (ps_pool σ) (ps_users σ)
                      (ps_handles σ) (ps_deleters σ))
          | _ => None
          end
      | _ => None
      end
  | PDelete i => delete_next σ i
  end.

Lemma pool_exec1_sound σ c e σ' : pool_exec1 σ c = Some (e, σ') -> step σ e σ'.
Proof.
  unfold pool_exec1, delete_next. intros H.
  destruct c; repeat (case_match; simplify_eq);
    repeat match goal with
    | Hb : (_ <? _)%nat = true |- _ => apply Nat.ltb_lt in Hb
    | Hb : (_ <? _)%nat = false |- _ => apply Nat.ltb_ge in Hb
    end; eauto using step.
  - eapply step_resize; [done|done|apply surjective_pairing].
  - eapply step_delete; [done|lia].
Qed.

#[export] Instance pool_scheduler : Scheduler pool_state event pool_command :=
  {| exec1 := pool_exec1; exec1_sound := pool_exec1_sound |}.

(** Each buffer is in one place. *)
Lemma places_exact bytes count tr σ :
  0 <= bytes -> 0 <= count -> run (create bytes count) tr σ ->
  NoDup (places σ) /\ (forall b, b ∈ places σ <-> allocated (ps_buffers σ) b = true) /\
  (forall p, ps_pool σ = Some p -> zlen (places σ) = total_ p).
Proof.
  intros Hb Hc Hr. destruct (run_pool_inv _ _ _ _ Hb Hc Hr) as [Hp Hl Ha Hall Ht _].
  assert (Hin : forall b, b ∈ places σ <-> allocated (ps_buffers σ) b = true).
  { intros b. rewrite <-countb_elem_nat, Hp. destruct (allocated _ b); split; try done; lia. }
  assert (Hnd : NoDup (places σ)).
  { apply NoDup_count_nat. intros b. rewrite Hp. destruct (allocated _ b); lia. }
  split; [done|]. split; [done|]. intros p Hpool. rewrite (Ht p Hpool), <-Hl. unfold zlen. f_equal.
  transitivity (length (seq 0 (length (ps_buffers σ)))); [|by rewrite length_seq].
  apply Permutation_length.
  apply NoDup_Permutation; [done|apply NoDup_seq|]. intros b. rewrite Hin, elem_of_seq.
  split; [|intros [_ Hlt]; apply Hall; [by exists p|lia]].
  unfold allocated. intros Hx. destruct (ps_buffers σ !! b) eqn:Hbuf; [|done].
  apply lookup_lt_Some in Hbuf. lia.
Qed.

(** ** Properties *)

Section properties.
Implicit Types (bytes count : Z) (tr : list event) (σ : pool_state).

(** C22: at any moment each buffer that exists is in exactly one place: in the free
    list, behind one live handle, or with one deleter; and nothing else is.  So no
    buffer is handed out twice, returned twice or lost, and while the pool lives
    these places account for all its buffers. *)
Theorem pool_exclusive bytes count tr σ :
  0 <= bytes -> 0 <= count -> run (create bytes count) tr σ ->
  NoDup (places σ) /\ (forall b, b ∈ places σ <-> allocated (ps_buffers σ) b = true) /\
  (forall p, ps_pool σ = Some p -> zlen (places σ) = total_ p).
Proof. apply places_exact. Qed.

(** Two handles; the first is copied and dropped, the second returned. *)
Definition two_handles : list pool_command :=
  [PAcquire; PAcquire; PAcquire; PCopy 0; PDrop 0; PDrop 1; PDelete 0; PDelete 0].

Lemma pool_exclusive_witness : exists tr σ,
  exec (create 16 2) two_handles = Some (tr, σ) /\ places σ = [0%nat; 1%nat] /\
  NoDup (places σ) /\ tr !! 2%nat = Some (EvAcquire None).
Proof.
  do 2 eexists. split; [vm_compute; reflexivity|]. split; [reflexivity|]. split; [|reflexivity].
  eapply (pool_exclusive 16 2); [done|done|].
  apply (exec_sound _ two_handles). vm_compute. reflexivity.
Defined.

(** A handle outlives the pool: the buffer behind a live handle, or with a
    running deleter, exists with its full capacity whether the pool is still
    there or not; and once the pool is gone, nothing but those is left. *)
Theorem handle_outlives_pool bytes count tr σ :
  0 < bytes -> 0 <= count -> run (create bytes count) tr σ ->
  (forall i h, ps_handles σ !! i = Some h -> (0 < h_refs h)%nat ->
     exists x, ps_buffers σ !! h_buffer h = Some (Some x) /\ capacity x = bytes) /\
  (forall i b, ps_deleters σ !! i = Some (DStart b) \/ ps_deleters σ !! i = Some (DReleasing b) ->
     exists x, ps_buffers σ !! b = Some (Some x) /\ capacity x = bytes) /\
  (ps_pool σ = None -> forall b, allocated (ps_buffers σ) b = true ->
     b ∈ (ps_handles σ ≫= held_by) ++ (ps_deleters σ ≫= carried_by)).
Proof.
  intros Hb Hc Hr. assert (Hb0 : 0 <= bytes) by lia.
  destruct (run_pool_inv _ _ _ _ Hb0 Hc Hr) as [Hp Hl Ha Hall Ht Hs].
  rewrite (proj2 (Z.eqb_neq bytes 0)) in Hs by lia.
  assert (Hex : forall b, b ∈ places σ ->
            exists x, ps_buffers σ !! b = Some (Some x) /\ capacity x = bytes).
  { intros b Hin%countb_elem_nat. rewrite Hp in Hin. unfold allocated in Hin.
    destruct (ps_buffers σ !! b) as [[x|]|] eqn:Hx; [|lia..]. exists x. split; [done|by eapply Hs]. }
  unfold places in *. split; [|split].
  - intros i h Hi Hrefs. apply Hex. rewrite !elem_of_app. right. left.
    apply list_elem_of_bind. exists h. split; [|by eapply list_elem_of_lookup_2].
    unfold held_by. destruct (Nat.eqb_spec (h_refs h) 0); [lia|]. apply list_elem_of_here.
  - intros i b Hi. apply Hex. rewrite !elem_of_app. right. right. apply list_elem_of_bind.
    destruct Hi as [Hi|Hi]; (eexists; split; [|by eapply list_elem_of_lookup_2]);
      apply list_elem_of_here.
  - intros Hnone b Hal. specialize (Hp b). rewrite Hal, Hnone in Hp. simpl in Hp.
    apply countb_elem_nat. lia.
Qed.

(** The pool is dropped while a handle is out; the handle is dropped later. *)
Lemma handle_outlives_pool_witness :
  let cmds := [PAcquire; PResize 0 16; PDropPool] in
  exists tr σ x,
    exec (create 16 2) cmds = Some (tr, σ) /\ ps_pool σ = None /\
    ps_buffers σ !! 1%nat = Some (Some x) /\ capacity x = 16 /\
    exists tr' σ', exec σ [PDrop 0; PDelete 0] = Some (tr', σ') /\ ps_buffers σ' = [None; None].
Proof.
  intros cmds.
  assert (Hr : run (create 16 2) [EvAcquire (Some 0%nat); EvResize 0 16 true; EvInternal]
                 (mkState [None; Some (mkBuffer 16 16)] None 0 [mkHandle 1 1] [])).
  { apply (exec_sound _ cmds). vm_compute. reflexivity. }
  destruct (handle_outlives_pool 16 2 _ _ ltac:(done) ltac:(done) Hr) as (Hh & _ & _).
  destruct (Hh 0%nat (mkHandle 1 1)) as (x & Hx & Hcap); [reflexivity|simpl; lia|].
  do 2 eexists. exists x. split; [vm_compute; reflexivity|]. split; [reflexivity|].
  split; [exact Hx|]. split; [exact Hcap|].
  do 2 eexists. split; [vm_compute; reflexivity|reflexivity].
Defined.

(** [acquire] hands out a buffer exactly when one is available, empty and
    owned by the new handle alone; otherwise it only counts the exhaustion.  What
    [in_use] reports is the number of buffers that are out. *)
Theorem acquire_exact bytes count tr σ p :
  0 <= bytes -> 0 <= count < 2 ^ 64 -> run (create bytes count) tr σ -> ps_pool σ = Some p ->
  in_use p = zlen (places σ) - available p /\
  match acquire σ p with
  | (σ', Some h) =>
      0 < available p /\
      exists b x, ps_handles σ' !! h = Some (mkHandle b 1) /\
        ps_buffers σ' !! b = Some (Some x) /\ size x = 0 /\ b ∉ (ps_handles σ ≫= held_by)
  | (σ', None) =>
      available p = 0 /\
      σ' = mkState (ps_buffers σ)
             (Some (mkPool [] (buffer_bytes_ p) (total_ p) (exhausted_count p +u 1)))
             (ps_users σ) (ps_handles σ) (ps_deleters σ)
  end.
Proof.
  intros Hb Hc Hr Hpool. assert (Hc0 : 0 <= count) by lia.
  destruct (places_exact _ _ _ _ Hb Hc0 Hr) as (Hnd & Hin & Htot).
  pose proof (run_pool_inv _ _ _ _ Hb Hc0 Hr) as Hinv.
  split.
  - unfold in_use, available. rewrite (Htot p Hpool). apply wrap_small.
    pose proof (pi_total _ _ _ Hinv p Hpool) as Ht. pose proof (Htot p Hpool) as Hz.
    unfold places in Hz. rewrite Hpool in Hz. simpl in Hz. rewrite zlen_app in Hz.
    pose proof (zlen_nonneg (free_ p)).
    pose proof (zlen_nonneg ((ps_handles σ ≫= held_by) ++ (ps_deleters σ ≫= carried_by))).
    unfold fits. case_bool; lia.
  - unfold acquire, take_free, available.
    destruct (pop_back (free_ p)) as [[free b]|] eqn:Hpop.
    + apply pop_back_spec in Hpop. rewrite Hpop, zlen_app. pose proof (zlen_nonneg free).
      split; [change (zlen [b]) with 1; lia|].
      assert (Hbin : b ∈ places σ).
      { unfold places. rewrite Hpool. simpl. rewrite Hpop. set_solver. }
      apply Hin in Hbin as Hal. unfold allocated in Hal.
      destruct (ps_buffers σ !! b) as [[x|]|] eqn:Hx; try done.
      exists b, (mkBuffer (storage_ x) 0). simpl.
      split; [by apply list_lookup_middle|]. split; [|split; [done|]].
      * unfold set_size. by rewrite list_lookup_alter_eq, Hx.
      * unfold places in Hnd. rewrite Hpool in Hnd. simpl in Hnd.
        apply NoDup_app in Hnd as (_ & Hdis & _). intros Hheld.
        apply (Hdis b); [rewrite Hpop|]; set_solver.
    + apply pop_back_none in Hpop. by rewrite Hpop.
Qed.

Lemma acquire_exact_witness : exists tr σ p,
  exec (create 16 1) [PAcquire] = Some (tr, σ) /\ ps_pool σ = Some p /\ in_use p = 1 /\
  in_use p = zlen (places σ) - available p.
Proof.
  do 3 eexists. split; [vm_compute; reflexivity|]. split; [reflexivity|]. split; [reflexivity|].
  eapply (acquire_exact 16 1); [done|done| |reflexivity].
  apply (exec_sound _ [PAcquire]). vm_compute. reflexivity.
Defined.
End properties.
