(* ===== verification/BufferData.v ===== *)
(** * BufferData

    The bytes behind the handles of a [BufferPool] (code/include/rdb/msg/buffer_pool.h):
    [Buffer::data()] and what users read and write through it, on top of the
    steps of the pool.  The promise to the users is the abstract machine
    [private_step], in which every handle owns an array that no other handle, and
    nothing the pool does, ever touches. *)

From S2P Require Import Prelude Lts Bytes BufferPool.

(** [storage_] of each buffer, by its index, next to the state of the pool. *)
Record data_state := mkData { ds_pool : pool_state; ds_mem : list (list byte) }.

Inductive data_event :=
  | DPool (e : event)
  | DWrite (h off : nat) (v : byte)
  | DRead (h off : nat) (v : byte).

(** [storage_(bytes)] is zeroed. *)
Definition create_data (bytes count : Z) : data_state :=
  let π := create bytes count in
  mkData π ((fun x => match x with Some b => replicate (Z.to_nat (storage_ b)) x00 | None => [] end)
              <$> ps_buffers π).

(** The buffer of a handle that somebody owns. *)
Definition buffer_of (π : pool_state) (h : nat) : option nat :=
  match ps_handles π !! h with
  | Some (mkHandle b (S _)) => if allocated (ps_buffers π) b then Some b else None
  | _ => None
  end.

(** [( *handle).data()]: the memory it points to. *)
Definition data (σ : data_state) (h : nat) : option (list byte) :=
  b ← buffer_of (ds_pool σ) h; ds_mem σ !! b.

(** [data()[off] = v] and [data()[off]]; [None] is undefined behaviour. *)
Definition write_byte (σ : data_state) (h off : nat) (v : byte) : option data_state :=
  b ← buffer_of (ds_pool σ) h;
  m ← ds_mem σ !! b;
  m' ← store m off v;
  Some (mkData (ds_pool σ) (<[b := m']> (ds_mem σ))).

Definition read_byte (σ : data_state) (h off : nat) : option byte :=
  m ← data σ h; m !! off.

Inductive data_step : data_state -> data_event -> data_state -> Prop :=
  | data_pool π mem e π' : step π e π' -> data_step (mkData π mem) (DPool e) (mkData π' mem)
  | data_write σ h off v σ' : write_byte σ h off v = Some σ' -> data_step σ (DWrite h off v) σ'
  | data_read σ h off v : read_byte σ h off = Some v -> data_step σ (DRead h off v) σ.

#[export] Instance data_lts : LTS data_state data_event := data_step.

(** ** What a handle promises *)

(** An array per handle, in the order of the calls of [acquire].  A new one has
    the size of the pool's buffers; its contents are whatever they are. *)
Inductive private_step (bytes : Z) : list (list byte) -> data_event -> list (list byte) -> Prop :=
  | private_acquire A l :
      zlen l = bytes -> private_step bytes A (DPool (EvAcquire (Some (length A)))) (A ++ [l])
  | private_pool A e : (forall h, e <> EvAcquire (Some h)) -> private_step bytes A (DPool e) A
  | private_write A h off v l l' :
      A !! h = Some l -> store l off v = Some l' -> private_step bytes A (DWrite h off v) (<[h := l']> A)
  | private_read A h off v l : A !! h = Some l -> l !! off = Some v -> private_step bytes A (DRead h off v) A.

Definition private_lts (bytes : Z) : LTS (list (list byte)) data_event := private_step bytes.

(** ** Lemmas *)

Lemma buffer_of_live π h b :
  buffer_of π h = Some b <->
  (exists n, ps_handles π !! h = Some (mkHandle b (S n))) /\ allocated (ps_buffers π) b = true.
Proof.
  unfold buffer_of. split.
  - destruct (ps_handles π !! h) as [[b' [|n]]|]; try done.
    destruct (allocated (ps_buffers π) b') eqn:Hal; intros; simplify_eq. eauto.
  - intros ((n & ->) & ->). done.
Qed.

(** A deleted buffer does not come back. *)
Lemma allocated_unref π b : allocated (ps_buffers (unref π)) b = true -> allocated (ps_buffers π) b = true.
Proof.
  unfold unref, destroy. destruct (strong π =? 0)%nat; [|done]. destruct (ps_pool π); [|done]. simpl.
  rewrite allocated_destroy. by intros [? _]%andb_true_iff.
Qed.

Lemma handles_unref π : ps_handles (unref π) = ps_handles π.
Proof. unfold unref. destruct (strong π =? 0)%nat; [|done]. by destruct (ps_pool π). Qed.

Lemma acquire_owner π p :
  match acquire π p with
  | (π', Some h) => h = length (ps_handles π) /\ (exists b, ps_handles π' = ps_handles π ++ [mkHandle b 1]) /\
      forall b, allocated (ps_buffers π') b = allocated (ps_buffers π) b
  | (π', None) => ps_handles π' = ps_handles π /\ ps_buffers π' = ps_buffers π
  end.
Proof.
  unfold acquire. destruct (take_free p) as [p' [b|]]; simpl; [|done].
  split; [done|]. split; [by exists b|]. intros c. apply allocated_set_size.
Qed.

(** Only [acquire] gives a handle a buffer. *)
Lemma step_owner π e π' :
  step π e π' ->
  (e = EvAcquire (Some (length (ps_handles π))) /\ (exists b, ps_handles π' = ps_handles π ++ [mkHandle b 1]) /\
   forall h b, h <> length (ps_handles π) -> buffer_of π' h = Some b -> buffer_of π h = Some b) \/
  ((forall h, e <> EvAcquire (Some h)) /\ length (ps_handles π') = length (ps_handles π) /\
   forall h b, buffer_of π' h = Some b -> buffer_of π h = Some b).
Proof.
  intros Hs. destruct Hs as [π p Hp Hu|π Hu|π n Hu|π i b n Hh|π i b n Hh|π i b n x x' ok k Hh Hb Hr
                            |π i b Hd Hst|π i b Hd Hst|π i b p Hd Hp|π i Hd].
  1: { pose proof (acquire_owner π p) as Ha. destruct (acquire π p) as [π' [h|]]; simpl in *.
       - destruct Ha as (-> & (b0 & Hh) & Hal). left. split; [done|].
         split; [by exists b0|]. intros h b Hne. rewrite !buffer_of_live, Hal, Hh. intros ((n & Hl) & ?). split; [|done].
         apply lookup_app_Some in Hl as [Hl|[Hge Hl]]; [eauto|].
         apply list_lookup_singleton_Some in Hl as [Hl _]. lia.
       - destruct Ha as [Hh Hb]. right. split; [done|]. rewrite Hh. split; [done|].
         intros h b. by rewrite !buffer_of_live, Hh, Hb. }
  all: right; (split; [done|]).
  all: split; [rewrite ?handles_unref; simpl; rewrite ?length_insert; done|].
  all: intros h c; rewrite !buffer_of_live, ?handles_unref; simpl; intros [[m Hc] Hal]; split.
  all: try (by eauto).
  all: try (apply list_lookup_insert_Some in Hc as [(-> & ? & _)|[_ Hc]]; simplify_eq; by eauto).
  - by apply allocated_unref in Hal.
  - unfold allocated in *. destruct (decide (c = b)) as [->|Hne]; [by rewrite Hb|].
    by rewrite list_lookup_insert_ne in Hal.
  - rewrite allocated_free in Hal. by apply andb_true_iff in Hal as [? _].
  - by rewrite allocated_set_size in Hal.
  - by apply allocated_unref in Hal.
Qed.

(** Two handles that somebody owns have two buffers. *)
Lemma owners_disjoint bytes n π h h' b :
  pool_inv bytes n π -> buffer_of π h = Some b -> buffer_of π h' = Some b -> h = h'.
Proof.
  intros Hinv ((k & Hh) & _)%buffer_of_live ((k' & Hh') & _)%buffer_of_live.
  destruct (decide (h = h')) as [|Hne]; [done|]. exfalso.
  assert (Hnd : NoDup (places π)).
  { apply NoDup_count_nat. intros c. rewrite (pi_places _ _ _ Hinv). destruct (allocated _ c); lia. }
  unfold places in Hnd. apply NoDup_app in Hnd as (_ & _ & Hnd). apply NoDup_app in Hnd as (Hnd & _ & _).
  eapply (bind_disjoint _ _ h h' _ _ b Hnd Hh Hh' Hne); apply list_elem_of_here.
Qed.

Lemma live_allocated bytes n π h hd :
  pool_inv bytes n π -> ps_handles π !! h = Some hd -> (0 < h_refs hd)%nat ->
  buffer_of π h = Some (h_buffer hd) /\ (h_buffer hd < n)%nat.
Proof.
  intros Hinv Hh Hr. assert (Hal : allocated (ps_buffers π) (h_buffer hd) = true).
  { pose proof (pi_places _ _ _ Hinv (h_buffer hd)) as Hp. destruct (allocated _ _); [done|].
    assert (0 < countb (Nat.eqb (h_buffer hd)) (places π))%nat; [|lia]. apply countb_elem_nat.
    unfold places. rewrite !elem_of_app. right. left. apply list_elem_of_bind. exists hd.
    split; [|by eapply list_elem_of_lookup_2]. unfold held_by.
    destruct (Nat.eqb_spec (h_refs hd) 0); [lia|]. apply list_elem_of_here. }
  split.
  - apply buffer_of_live. split; [|done]. destruct hd as [b [|k]]; [simpl in Hr; lia|by exists k].
  - rewrite <-(pi_length _ _ _ Hinv). unfold allocated in Hal.
    destruct (ps_buffers π !! h_buffer hd) eqn:Hb; [by eapply lookup_lt_Some|done].
Qed.

(** ** The refinement *)

Record data_inv (bytes : Z) (n : nat) (σ : data_state) (A : list (list byte)) : Prop := {
  di_pool : pool_inv bytes n (ds_pool σ);
  di_length : length (ds_mem σ) = n;
  di_bytes b l : ds_mem σ !! b = Some l -> zlen l = bytes;
  di_handles : length A = length (ps_handles (ds_pool σ));
  di_view h b : buffer_of (ds_pool σ) h = Some b -> ds_mem σ !! b = A !! h
}.

Lemma store_spec (l l' : list byte) i v : store l i v = Some l' -> (i < length l)%nat /\ l' = <[i := v]> l.
Proof. unfold store. destruct (Nat.ltb_spec i (length l)); intros; by simplify_eq. Qed.

Lemma view_lookup bytes n σ A h b :
  data_inv bytes n σ A -> buffer_of (ds_pool σ) h = Some b ->
  exists l, ds_mem σ !! b = Some l /\ A !! h = Some l /\ zlen l = bytes.
Proof.
  intros [Hp Hl Hb Hh Hv] Ho. pose proof (Hv h b Ho) as Hview.
  apply buffer_of_live in Ho as ((k & Hk) & _).
  destruct (lookup_lt_is_Some_2 A h) as [l Hl']; [rewrite Hh; by eapply lookup_lt_Some|].
  exists l. rewrite Hview. split; [done|]. split; [done|]. apply (Hb b). by rewrite Hview.
Qed.

Lemma pool_refines bytes n π mem e π' A :
  data_inv bytes n (mkData π mem) A -> step π e π' ->
  exists A', private_step bytes A (DPool e) A' /\ data_inv bytes n (mkData π' mem) A'.
Proof.
  intros [Hp Hl Hb Hh Hv] Hs. simpl in *.
  pose proof (step_pool_inv _ _ _ _ _ Hp Hs) as Hp'.
  destruct (step_owner π e π' Hs) as [(-> & (b0 & Hnew) & Hold)|(Hne & Hlen & Hold)].
  - (* the array of the new handle is what its buffer holds *)
    destruct (live_allocated bytes n π' (length (ps_handles π)) (mkHandle b0 1) Hp') as [Hb0 Hlt];
      [rewrite Hnew; by apply list_lookup_middle|simpl; lia|].
    destruct (lookup_lt_is_Some_2 mem b0) as [l Hl0]; [simpl in Hlt; lia|].
    exists (A ++ [l]). split; [rewrite <-Hh; constructor; by eapply Hb|].
    split; simpl; try done; [rewrite Hnew, !length_app, Hh; done|].
    intros h b Ho. destruct (decide (h = length (ps_handles π))) as [->|Hne].
    + rewrite Hb0 in Ho. injection Ho as <-. by rewrite Hl0, <-Hh, list_lookup_middle.
    + rewrite (Hv h b (Hold h b Hne Ho)). symmetry. apply lookup_app_l.
      apply buffer_of_live in Ho as ((k & Hk) & _). apply lookup_lt_Some in Hk.
      rewrite Hnew, length_app in Hk. simpl in Hk. lia.
  - exists A. split; [by constructor|]. split; simpl; try done; [congruence|eauto].
Qed.

Lemma write_refines bytes n σ h off v σ' A :
  data_inv bytes n σ A -> write_byte σ h off v = Some σ' ->
  exists A', private_step bytes A (DWrite h off v) A' /\ data_inv bytes n σ' A'.
Proof.
  intros Hinv Hw. unfold write_byte in Hw. destruct (buffer_of (ds_pool σ) h) as [b|] eqn:Ho; [|done].
  destruct (view_lookup _ _ _ _ _ _ Hinv Ho) as (l & Hm & HA & Hz).
  simpl in Hw. rewrite Hm in Hw. simpl in Hw. destruct (store l off v) as [l'|] eqn:Hst; [|done].
  simplify_eq/=. exists (<[h := l']> A). split; [by econstructor|].
  destruct Hinv as [Hp Hl Hb Hh Hv]. apply store_spec in Hst as [Hoff ->].
  split; simpl; rewrite ?length_insert; try done.
  - intros c l1 [(_ & <- & _)|[_ Hc]]%list_lookup_insert_Some; [|by eapply Hb].
    unfold zlen in *. by rewrite length_insert.
  - intros h1 b1 Ho1. destruct (decide (h1 = h)) as [->|Hne].
    + rewrite Ho in Ho1. injection Ho1 as <-.
      rewrite !list_lookup_insert_eq by (by eapply lookup_lt_Some). done.
    + rewrite !list_lookup_insert_ne; [by apply Hv|done|].
      intros <-. apply Hne. by eapply owners_disjoint.
Qed.

Lemma data_step_refines bytes n σ e σ' A :
  data_inv bytes n σ A -> data_step σ e σ' ->
  exists A', private_step bytes A e A' /\ data_inv bytes n σ' A'.
Proof.
  intros Hinv Hs. destruct Hs as [π mem e π' Hs|σ h off v σ' Hw|σ h off v Hr].
  - by eapply pool_refines.
  - by eapply write_refines.
  - exists A. split; [|done]. unfold read_byte, data in Hr.
    destruct (buffer_of (ds_pool σ) h) as [b|] eqn:Ho; [|done].
    destruct (view_lookup _ _ _ _ _ _ Hinv Ho) as (l & Hm & HA & _).
    simpl in Hr. rewrite Hm in Hr. by econstructor.
Qed.

Lemma create_data_inv bytes count :
  0 < bytes -> 0 <= count ->
  data_inv bytes (Z.to_nat (if count =? 0 then 1 else count)) (create_data bytes count) [].
Proof.
  intros Hb Hc. assert (Hpi := create_inv bytes count ltac:(lia) Hc).
  rewrite (proj2 (Z.eqb_neq bytes 0)) in Hpi by lia.
  split; simpl; try done.
  - rewrite length_fmap. by rewrite (pi_length _ _ _ Hpi).
  - intros b l Hl. apply list_lookup_fmap_Some in Hl as ([x|] & -> & Hx).
    + rewrite (pi_storage _ _ _ Hpi b x Hx). unfold zlen. rewrite length_replicate. lia.
    + exfalso. pose proof (lookup_lt_Some _ _ _ Hx) as Hlt. rewrite (pi_length _ _ _ Hpi) in Hlt.
      assert (Hal : allocated (ps_buffers (create bytes count)) b = true).
      { apply (pi_all _ _ _ Hpi); [rewrite create_spec; by eexists|done]. }
      unfold allocated in Hal. by rewrite Hx in Hal.
  - by rewrite create_spec.
  - intros h b. rewrite create_spec. simpl. unfold buffer_of. done.
Qed.

(** ** Concrete interleavings *)

Inductive data_command := DCPool (c : pool_command) | DCWrite (h off : nat) (v : byte) | DCRead (h off : nat).

Definition data_exec1 (σ : data_state) (c : data_command) : option (data_event * data_state) :=
  match c with
  | DCPool c =>
      match pool_exec1 (ds_pool σ) c with
      | Some (e, π') => Some (DPool e, mkData π' (ds_mem σ))
      | None => None
      end
  | DCWrite h off v =>
      match write_byte σ h off v with Some σ' => Some (DWrite h off v, σ') | None => None end
  | DCRead h off =>
      match read_byte σ h off with Some v => Some (DRead h off v, σ) | None => None end
  end.

Lemma data_exec1_sound σ c e σ' : data_exec1 σ c = Some (e, σ') -> data_step σ e σ'.
Proof.
  unfold data_exec1. intros Hx. destruct c as [c|h off v|h off].
  - destruct (pool_exec1 (ds_pool σ) c) as [[e1 π']|] eqn:Hc; simplify_eq.
    apply pool_exec1_sound in Hc. destruct σ. by constructor.
  - destruct (write_byte σ h off v) eqn:Hw; simplify_eq. by constructor.
  - destruct (read_byte σ h off) eqn:Hr; simplify_eq. by constructor.
Qed.

#[export] Instance data_scheduler : Scheduler data_state data_event data_command :=
  {| exec1 := data_exec1; exec1_sound := data_exec1_sound |}.

(** ** Properties *)

(** C23: behind a handle is an array of its own: every run of the pool and its users,
    with all their reads and writes, is a run of the machine in which each handle
    owns a private array of the pool's buffer size; the bytes behind an owned
    handle are those of its array, all of them defined. *)
Theorem handles_private bytes count tr σ :
  0 < bytes -> 0 <= count -> run (create_data bytes count) tr σ ->
  exists A, run (H := private_lts bytes) [] tr A /\
    forall h hd, ps_handles (ds_pool σ) !! h = Some hd -> (0 < h_refs hd)%nat ->
      exists l, A !! h = Some l /\ data σ h = Some l /\ zlen l = bytes.
Proof.
  intros Hb Hc Hr.
  assert (HA : exists A, run (H := private_lts bytes) [] tr A /\
            data_inv bytes (Z.to_nat (if count =? 0 then 1 else count)) σ A).
  { induction Hr as [|tr e σ σ' Hr (A & HrA & Hinv) Hs].
    - exists []. split; [constructor|by apply create_data_inv].
    - destruct (data_step_refines _ _ _ _ _ _ Hinv Hs) as (A' & Hs' & Hinv').
      exists A'. split; [by econstructor|done]. }
  destruct HA as (A & HrA & Hinv). exists A. split; [done|]. intros h hd Hh Hrefs.
  destruct (live_allocated _ _ _ _ _ (di_pool _ _ _ _ Hinv) Hh Hrefs) as [Ho _].
  destruct (view_lookup _ _ _ _ _ _ Hinv Ho) as (l & Hm & HA & Hz).
  exists l. split; [done|]. split; [|done]. unfold data. by rewrite Ho.
Qed.

(** Two handles of two buffers; the first is dropped and its buffer, with the
    byte still in it, goes to the third handle. *)
Definition two_writers : list data_command :=
  [DCPool PAcquire; DCPool PAcquire; DCWrite 0 2 "a"; DCWrite 1 2 "b"; DCRead 0 2;
   DCPool (PDrop 0); DCPool (PDelete 0); DCPool (PDelete 0); DCPool (PDelete 0);
   DCPool PAcquire; DCRead 2 2].

Lemma handles_private_witness : exists tr σ A,
  exec (create_data 4 2) two_writers = Some (tr, σ) /\ last tr = Some (DRead 2 2 "a") /\
  run (H := private_lts 4) [] tr A /\
  data σ 1 = Some [x00; x00; "b"%byte; x00] /\ A !! 1%nat = data σ 1.
Proof.
  assert (Hx : exists tr σ, exec (create_data 4 2) two_writers = Some (tr, σ) /\
    last tr = Some (DRead 2 2 "a") /\ data σ 1 = Some [x00; x00; "b"%byte; x00] /\
    ps_handles (ds_pool σ) !! 1%nat = Some (mkHandle 0 1))
    by (do 2 eexists; split; [vm_compute; reflexivity|repeat split; reflexivity]).
  destruct Hx as (tr & σ & Hx & Hl & Hd & Hh). exists tr, σ.
  destruct (handles_private 4 2 tr σ ltac:(lia) ltac:(lia) (exec_sound _ _ _ _ Hx)) as (A & HA & Hview).
  destruct (Hview 1%nat _ Hh ltac:(simpl; lia)) as (l & HAl & Hdl & _).
  exists A. split; [exact Hx|]. split; [exact Hl|]. split; [exact HA|]. split; [exact Hd|].
  rewrite HAl. symmetry. exact Hdl.
Defined.
