(* ===== verification/TaskQueue.v ===== *)
(** * TaskQueue

    What [ThreadPool] relies on of its queue: the interface, with its laws, and
    the proof that a [BoundedQueue] with the [Block] policy provides it.

    An operation that would sleep answers [None] and is tried again later: a
    sleeping [push] or [pop] leaves the queue as it was, is woken whenever it
    could go on (proved in [QueueTheorems]), and then does what a new call would
    do ([push_resume_push], [pop_resume_pop]). *)

From S2P Require Import Prelude BoundedQueue.

Class TaskQueue (Q A : Type) := {
  tq_ok : Q -> Prop;
  tq_items : Q -> list A;
  tq_closed : Q -> bool;
  tq_capacity : Q -> Z;
  tq_high_water : Q -> Z;
  (* push == PushStatus::Ok, try_push == PushStatus::Ok *)
  tq_push : Q -> A -> option (Q * bool);
  tq_try_push : Q -> A -> Q * bool;
  tq_pop : Q -> option (Q * option A);
  tq_close : Q -> Q;
  tq_clear : Q -> Q;

  tq_push_ok q a q' : tq_ok q -> tq_push q a = Some (q', true) ->
    tq_ok q' /\ tq_closed q = false /\ tq_closed q' = false /\ tq_items q' = tq_items q ++ [a];
  tq_push_refused q a q' : tq_ok q -> tq_push q a = Some (q', false) -> q' = q /\ tq_closed q = true;
  tq_try_push_ok q a q' : tq_ok q -> tq_try_push q a = (q', true) ->
    tq_ok q' /\ tq_closed q = false /\ tq_closed q' = false /\ tq_items q' = tq_items q ++ [a];
  tq_try_push_refused q a q' : tq_ok q -> tq_try_push q a = (q', false) -> q' = q;
  tq_pop_some q q' a : tq_ok q -> tq_pop q = Some (q', Some a) ->
    tq_ok q' /\ tq_closed q' = tq_closed q /\ tq_items q = a :: tq_items q';
  tq_pop_none q q' : tq_ok q -> tq_pop q = Some (q', None) ->
    q' = q /\ tq_closed q = true /\ tq_items q = [];
  tq_pop_closed q : tq_ok q -> tq_closed q = true -> is_Some (tq_pop q);
  tq_pop_items q : tq_ok q -> tq_items q <> [] -> is_Some (tq_pop q);
  tq_close_spec q : tq_ok q ->
    tq_ok (tq_close q) /\ tq_closed (tq_close q) = true /\ tq_items (tq_close q) = tq_items q;
  tq_clear_spec q : tq_ok q ->
    tq_ok (tq_clear q) /\ tq_closed (tq_clear q) = tq_closed q /\ tq_items (tq_clear q) = [];

  tq_bounded q : tq_ok q -> zlen (tq_items q) <= tq_high_water q <= tq_capacity q;
  tq_push_capacity q a q' r : tq_ok q -> tq_push q a = Some (q', r) -> tq_capacity q' = tq_capacity q;
  tq_push_blocks q a : tq_ok q -> tq_push q a = None ->
    tq_closed q = false /\ zlen (tq_items q) = tq_capacity q;
  tq_try_push_capacity q a : tq_ok q -> tq_capacity (tq_try_push q a).1 = tq_capacity q;
  tq_try_push_rejects q a q' : tq_ok q -> tq_try_push q a = (q', false) ->
    tq_closed q = true \/ zlen (tq_items q) = tq_capacity q;
  tq_pop_capacity q q' r : tq_ok q -> tq_pop q = Some (q', r) -> tq_capacity q' = tq_capacity q;
  tq_close_capacity q : tq_capacity (tq_close q) = tq_capacity q;
  tq_clear_capacity q : tq_capacity (tq_clear q) = tq_capacity q
}.

Section instance.
Context {A : Type}.
Implicit Types (q : BoundedQueue A) (a : A).

(** [== PushStatus::Ok], and sleeping. *)
Definition section_ok (s : section A PushStatus) : option (BoundedQueue A * bool) :=
  match sec_outcome s with
  | Returned Ok => Some (sec_queue s, true)
  | Returned _ => Some (sec_queue s, false)
  | Sleeps _ _ => None
  end.

Definition section_value (s : section A (option A)) : option (BoundedQueue A * option A) :=
  match sec_outcome s with
  | Returned r => Some (sec_queue s, r)
  | Sleeps _ _ => None
  end.

Definition block_ok q : Prop := queue_wf q /\ policy_ q = Block.

Lemma push_resume_push q a :
  policy_ q = Block -> push_resume q a tp_max false = push q a.
Proof.
  intros Hp. unfold push_resume, push, push_until, push_after_wait, wait_for_space, cv_wait, push_ready.
  rewrite Hp. destruct (closed_ q); simpl; [done|].
  repeat case_bool; simpl; done || lia.
Qed.

Lemma shape_ok q a (s : section A PushStatus) :
  block_ok q -> push_shape q a s ->
  match section_ok s with
  | Some (q', true) =>
      block_ok q' /\ closed_ q = false /\ closed_ q' = false /\ items_ q' = items_ q ++ [a]
  | Some (q', false) => q' = q
  | None => True
  end.
Proof.
  intros [Hwf Hp] Hs. pose proof (push_shape_wf _ _ _ Hs Hwf) as Hwf'.
  pose proof (push_shape_config _ _ _ Hs) as (_ & Hp' & Hc').
  destruct Hs; try done; try congruence.
  unfold section_ok. simpl in *. repeat split; try congruence; try apply Hwf'.
  apply push_back_items.
Qed.

Lemma push_refused q a q' :
  policy_ q = Block -> section_ok (push q a) = Some (q', false) -> closed_ q = true.
Proof.
  intros Hp. unfold section_ok, push, push_until, wait_for_space, push_after_wait, cv_wait, push_ready.
  rewrite Hp. destruct (closed_ q); simpl; [done|].
  repeat case_bool; simpl; intros; simplify_eq; done || lia.
Qed.

(** What an open queue that does not take the value tells of it. *)
Lemma push_open_full q a deadline :
  policy_ q = Block -> closed_ q = false ->
  (forall q', section_ok (push_until q a deadline) <> Some (q', true)) ->
  capacity_ q <= zlen (items_ q).
Proof.
  intros Hp Hc Hno. destruct (Z.leb_spec (capacity_ q) (zlen (items_ q))) as [|Hlt]; [done|].
  exfalso. eapply Hno. unfold push_until. rewrite Hc, (proj2 (Z.leb_gt _ _)) by done.
  unfold push_back, section_ok. simpl. reflexivity.
Qed.

Lemma section_ok_capacity q a deadline q' r :
  section_ok (push_until q a deadline) = Some (q', r) -> capacity_ q' = capacity_ q.
Proof.
  pose proof (push_shape_config _ _ _ (push_until_shape q a deadline)) as (Hc & _ & _).
  unfold section_ok. destruct (sec_outcome _) as [[]|]; intros; simplify_eq; done.
Qed.

Lemma pop_shape_of_pop q : pop_shape q (pop q).
Proof. apply pop_until_shape. Qed.

#[export] Program Instance bounded_task_queue : TaskQueue (BoundedQueue A) A := {|
  tq_ok := block_ok;
  tq_items := items_;
  tq_closed := closed_;
  tq_capacity := capacity_;
  tq_high_water := high_water_;
  tq_push q a := section_ok (push q a);
  tq_try_push q a :=
    match section_ok (try_push q a) with Some r => r | None => (q, false) end;
  tq_pop q := section_value (pop q);
  tq_close q := sec_queue (close q);
  tq_clear q := sec_queue (clear q)
|}.
Next Obligation.
  intros q a q' Hok H. pose proof (shape_ok q a _ Hok (push_until_shape q a tp_max)) as Hs.
  unfold push in H. by rewrite H in Hs.
Qed.
Next Obligation.
  intros q a q' Hok H. split; [|exact (push_refused q a q' (proj2 Hok) H)].
  pose proof (shape_ok q a _ Hok (push_until_shape q a tp_max)) as Hs.
  unfold push in H. by rewrite H in Hs.
Qed.
Next Obligation.
  intros q a q' Hok H. pose proof (shape_ok q a _ Hok (push_until_shape q a tp_min)) as Hs.
  unfold try_push in H. by destruct (section_ok (push_until q a tp_min)) as [[? []]|]; simplify_eq.
Qed.
Next Obligation.
  intros q a q' Hok H. pose proof (shape_ok q a _ Hok (push_until_shape q a tp_min)) as Hs.
  unfold try_push in H. by destruct (section_ok (push_until q a tp_min)) as [[? []]|]; simplify_eq.
Qed.
Next Obligation.
  intros q q' a [Hwf Hp] H. pose proof (pop_shape_of_pop q) as Hs.
  pose proof (pop_shape_wf _ _ Hs Hwf) as Hwf'. pose proof (pop_shape_config _ _ Hs) as (_ & Hp' & Hc).
  pose proof (pop_shape_items _ _ Hs) as Hi. unfold section_value, sec_popped in *.
  destruct (sec_outcome (pop q)); simplify_eq. unfold block_ok. repeat split; try done; congruence || apply Hwf'.
Qed.
Next Obligation.
  intros q q' [Hwf Hp] H. pose proof (pop_shape_of_pop q) as Hs. unfold section_value, pop, pop_until in *.
  unfold pop_after_wait, pop_front, cv_wait, pop_ready in *.
  destruct (closed_ q) eqn:Hc, (items_ q) eqn:Hi; simpl in *; simplify_eq; try done.
Qed.
Next Obligation.
  intros q [Hwf Hp] Hc. unfold section_value, pop, pop_until, pop_front. rewrite Hc, andb_false_r.
  destruct (items_ q); simpl; eauto.
Qed.
Next Obligation.
  intros q [Hwf Hp] Hi. unfold section_value, pop, pop_until, pop_front.
  destruct (items_ q); simpl; [done|eauto].
Qed.
Next Obligation. intros q [Hwf Hp]. split; [split; [by apply close_wf|done]|done]. Qed.
Next Obligation. intros q [Hwf Hp]. split; [split; [by apply clear_wf|done]|done]. Qed.
Next Obligation. intros q [[] Hp]. lia. Qed.
Next Obligation. intros q a q' r _ Hs. exact (section_ok_capacity q a tp_max q' r Hs). Qed.
Next Obligation.
  intros q a [[] Hp] Hs. unfold push in Hs. destruct (closed_ q) eqn:Hc.
  - unfold push_until in Hs. by rewrite Hc in Hs.
  - split; [done|]. assert (capacity_ q <= zlen (items_ q)); [|lia].
    apply (push_open_full q a tp_max Hp Hc). intros q'. by rewrite Hs.
Qed.
Next Obligation.
  intros q a _. unfold try_push. destruct (section_ok (push_until q a tp_min)) as [[q' r]|] eqn:Hs; [|done].
  by eapply section_ok_capacity.
Qed.
Next Obligation.
  intros q a q' [[] Hp] Hs. unfold try_push in Hs. destruct (closed_ q) eqn:Hc; [by left|right].
  assert (capacity_ q <= zlen (items_ q)); [|lia].
  apply (push_open_full q a tp_min Hp Hc). intros q1 Hq1. by rewrite Hq1 in Hs.
Qed.
Next Obligation.
  intros q q' r _ Hs. pose proof (pop_shape_config _ _ (pop_shape_of_pop q)) as (Hc & _ & _).
  unfold section_value in Hs. destruct (sec_outcome _); by simplify_eq.
Qed.
Next Obligation. done. Qed.
Next Obligation. done. Qed.
End instance.
