(* ===== verification/ThreadPool.v ===== *)
(** * ThreadPool

    The fixed-size thread pool (code/include/rdb/concurrency/thread_pool.h),
    over any queue with the [TaskQueue] interface.  A step is one operation on
    the queue, the start or the end of a task, the count of one, or one stage of
    [stop]; between the pop of a task, its start, its end and its count the other
    threads can take any number of steps.  A task is a value, and running it takes
    an arbitrary time but ends. *)

From S2P Require Import Prelude Lts BoundedQueue TaskQueue.

(** Where a worker is in [run]: at the pop; with a task it has popped; in the
    task; at [completed_.fetch_add]; returned. *)
Inductive worker {A : Type} :=
  | WWaiting | WPopped (task : A) | WRunning (task : A) | WCounting | WExited.
Arguments worker : clear implicits.

(** The one call of [stop] that won [stopping_]: about to clear, to close, to
    join; [StopDone] when it has cleared [workers_]. *)
Inductive stopper := NotStopping | StopClear | StopClose | StopJoin | StopDone.

Record ThreadPool {Q A : Type} := mkPool {
  queue_ : Q;
  workers_ : list (worker A);
  stopping_ : bool;
  completed_ : Z;
  tp_stopper : stopper
}.
Arguments ThreadPool : clear implicits.

Inductive event {A : Type} :=
  | EvPost (task : A) (accepted : bool)
  | EvTake (task : A)
  | EvStart (task : A)
  | EvRan (task : A)
  | EvCounted
  | EvExit
  | EvStop (drain won : bool)
  | EvDiscard (tasks : list A)
  | EvClosed
  | EvStopped.
Arguments event : clear implicits.

Section pool.
Context {Q A : Type} `{TaskQueue Q A}.
Implicit Types (p : ThreadPool Q A) (tr : list (event A)).

(** The constructor: at least one worker. *)
Definition new_pool (threads : Z) (q : Q) : ThreadPool Q A :=
  let n := if threads =? 0 then 1 else threads in
  mkPool Q A q (replicate (Z.to_nat n) WWaiting) false 0 NotStopping.

Definition with_queue p (q : Q) : ThreadPool Q A :=
  mkPool Q A q (workers_ p) (stopping_ p) (completed_ p) (tp_stopper p).

Definition with_worker p (i : nat) (w : worker A) : ThreadPool Q A :=
  mkPool Q A (queue_ p) (<[i := w]> (workers_ p)) (stopping_ p) (completed_ p) (tp_stopper p).

Definition with_stopper p (s : stopper) : ThreadPool Q A :=
  mkPool Q A (queue_ p) (workers_ p) (stopping_ p) (completed_ p) s.

(** [post]; [None] while it blocks.  [submit], which posts a packaged task, is in
    [Futures]. *)
Definition post p (task : A) : option (ThreadPool Q A * bool) :=
  qb ← tq_push (queue_ p) task; Some (with_queue p qb.1, qb.2).

Definition try_post p (task : A) : ThreadPool Q A * bool :=
  let qb := tq_try_push (queue_ p) task in (with_queue p qb.1, qb.2).

(** The pop of [run], by worker [i]. *)
Definition run_pop p (i : nat) : option (ThreadPool Q A * option A) :=
  qr ← tq_pop (queue_ p);
  Some (with_worker (with_queue p qr.1) i
          (match qr.2 with Some task => WPopped task | None => WExited end), qr.2).

(** [( *task)()] is called, and returns. *)
Definition run_start p (i : nat) (task : A) : ThreadPool Q A := with_worker p i (WRunning task).
Definition run_returned p (i : nat) : ThreadPool Q A := with_worker p i WCounting.

(** [completed_.fetch_add(1)]. *)
Definition run_done p (i : nat) : ThreadPool Q A :=
  let p := with_worker p i WWaiting in
  mkPool Q A (queue_ p) (workers_ p) (stopping_ p) (completed_ p +u 1) (tp_stopper p).

(** [stopping_.compare_exchange_strong(expected, true)]: [false] returns. *)
Definition stop_begin p (drain : bool) : ThreadPool Q A * bool :=
  if stopping_ p then (p, false)
  else (mkPool Q A (queue_ p) (workers_ p) true (completed_ p)
          (if drain then StopClose else StopClear), true).

Definition stop_clear p : ThreadPool Q A :=
  with_stopper (with_queue p (tq_clear (queue_ p))) StopClose.

Definition stop_close p : ThreadPool Q A :=
  with_stopper (with_queue p (tq_close (queue_ p))) StopJoin.

(** Every thread is joined: [workers_.clear()]. *)
Definition stop_join p : ThreadPool Q A :=
  mkPool Q A (queue_ p) [] (stopping_ p) (completed_ p) StopDone.

Definition thread_count p : Z := zlen (workers_ p).
Definition pending p : Z := zlen (tq_items (queue_ p)).
Definition completed p : Z := completed_ p.
Definition queue_high_water p : Z := tq_high_water (queue_ p).

Definition exited (w : worker A) : bool := match w with WExited => true | _ => false end.

Inductive step : ThreadPool Q A -> event A -> ThreadPool Q A -> Prop :=
  | step_post p task p' ok : post p task = Some (p', ok) -> step p (EvPost task ok) p'
  | step_try_post p task p' ok : try_post p task = (p', ok) -> step p (EvPost task ok) p'
  | step_pop p i task p' :
      workers_ p !! i = Some WWaiting -> run_pop p i = Some (p', Some task) ->
      step p (EvTake task) p'
  | step_exit p i p' :
      workers_ p !! i = Some WWaiting -> run_pop p i = Some (p', None) -> step p EvExit p'
  | step_start p i task :
      workers_ p !! i = Some (WPopped task) -> step p (EvStart task) (run_start p i task)
  | step_ran p i task :
      workers_ p !! i = Some (WRunning task) -> step p (EvRan task) (run_returned p i)
  | step_counted p i :
      workers_ p !! i = Some WCounting -> step p EvCounted (run_done p i)
  | step_stop p drain p' ok : stop_begin p drain = (p', ok) -> step p (EvStop drain ok) p'
  | step_clear p :
      tp_stopper p = StopClear -> step p (EvDiscard (tq_items (queue_ p))) (stop_clear p)
  | step_close p : tp_stopper p = StopClose -> step p EvClosed (stop_close p)
  | step_join p :
      tp_stopper p = StopJoin -> forallb exited (workers_ p) = true ->
      step p EvStopped (stop_join p).

#[export] Instance thread_pool_lts : LTS (ThreadPool Q A) (event A) := step.

(** ** Histories *)

Definition accepted_by (e : event A) : list A :=
  match e with EvPost task true => [task] | _ => [] end.
Definition ran_by (e : event A) : list A := match e with EvRan task => [task] | _ => [] end.
Definition started_by (e : event A) : list A := match e with EvStart task => [task] | _ => [] end.
(** What an event takes out of the queue. *)
Definition taken_by (e : event A) : list A :=
  match e with EvTake task => [task] | EvDiscard l => l | _ => [] end.
Definition popped_by (e : event A) : list A := match e with EvTake task => [task] | _ => [] end.
(** The steps of the workers. *)
Definition worker_step (e : event A) : bool :=
  match e with EvTake _ | EvStart _ | EvRan _ | EvCounted | EvExit => true | _ => false end.
Definition discarded_by (e : event A) : list A := match e with EvDiscard l => l | _ => [] end.

Definition accepted tr := tr ≫= accepted_by.
Definition ran tr := tr ≫= ran_by.
Definition popped tr := tr ≫= popped_by.
Definition started tr := tr ≫= started_by.
Definition discarded tr := tr ≫= discarded_by.

(** The tasks that the workers run, those they have popped and not yet called, and
    both; and how many have run a task that [completed_] does not count yet. *)
Definition task_of (w : worker A) : list A := match w with WRunning t => [t] | _ => [] end.
Definition hand_of (w : worker A) : list A := match w with WPopped t => [t] | _ => [] end.
Definition held_of (w : worker A) : list A := match w with WPopped t | WRunning t => [t] | _ => [] end.
Definition is_counting (w : worker A) : bool := match w with WCounting => true | _ => false end.
Definition running p : list A := workers_ p ≫= task_of.
Definition in_hand p : list A := workers_ p ≫= hand_of.
Definition held p : list A := workers_ p ≫= held_of.
Definition counting p : Z := Z.of_nat (countb is_counting (workers_ p)).

(** ** Invariants *)

Record pool_inv p : Prop := {
  pi_ok : tq_ok (queue_ p);
  pi_exited i : workers_ p !! i = Some WExited ->
    tq_closed (queue_ p) = true /\ tq_items (queue_ p) = [];
  pi_workers : tp_stopper p <> StopDone -> workers_ p <> [];
  pi_stopper : match tp_stopper p with
               | NotStopping => stopping_ p = false
               | StopClear | StopClose => stopping_ p = true
               | StopJoin => stopping_ p = true /\ tq_closed (queue_ p) = true
               | StopDone => stopping_ p = true /\ tq_closed (queue_ p) = true /\
                             tq_items (queue_ p) = [] /\ workers_ p = []
               end
}.

Lemma new_workers_inv threads q : 0 <= threads -> tq_ok q -> pool_inv (new_pool threads q).
Proof.
  intros Ht Hq. split; simpl; try done.
  - intros i [[=] _]%lookup_replicate.
  - intros _. case_bool; [done|]. by destruct (Z.to_nat threads) eqn:?; [lia|].
Qed.

(** A post does one of two things. *)
Lemma post_cases p task p' ok :
  tq_ok (queue_ p) -> post p task = Some (p', ok) \/ try_post p task = (p', ok) ->
  (ok = false /\ p' = p) \/
  (ok = true /\ exists q', p' = with_queue p q' /\ tq_ok q' /\ tq_closed (queue_ p) = false /\
                tq_closed q' = false /\ tq_items q' = tq_items (queue_ p) ++ [task]).
Proof.
  intros Hok Hp. assert (Hsame : with_queue p (queue_ p) = p) by by destruct p.
  destruct Hp as [Hp|Hp].
  - unfold post in Hp. destruct (tq_push (queue_ p) task) as [[q' []]|] eqn:Hq; simplify_eq/=.
    + right. split; [done|]. exists q'. split; [done|]. by eapply tq_push_ok.
    + left. apply tq_push_refused in Hq as [-> _]; [|done]. done.
  - unfold try_post in Hp. destruct (tq_try_push (queue_ p) task) as [q' []] eqn:Hq; simplify_eq/=.
    + right. split; [done|]. exists q'. split; [done|]. by eapply tq_try_push_ok.
    + left. apply tq_try_push_refused in Hq as ->; done.
Qed.

Lemma run_pop_cases p i p' r :
  tq_ok (queue_ p) -> run_pop p i = Some (p', r) ->
  match r with
  | Some task => exists q', p' = with_worker (with_queue p q') i (WPopped task) /\ tq_ok q' /\
      tq_closed q' = tq_closed (queue_ p) /\ tq_items (queue_ p) = task :: tq_items q'
  | None => p' = with_worker p i WExited /\ tq_closed (queue_ p) = true /\ tq_items (queue_ p) = []
  end.
Proof.
  intros Hok Hr. unfold run_pop in Hr. destruct (tq_pop (queue_ p)) as [[q' [task|]]|] eqn:Hq;
    simplify_eq/=.
  - exists q'. split; [done|]. by eapply tq_pop_some.
  - apply tq_pop_none in Hq as (-> & ? & ?); [|done]. split; [|done]. by destruct p.
Qed.

Lemma insert_not_nil {B} (l : list B) i x : l <> [] -> <[i := x]> l <> [].
Proof. intros Hl Hi. apply Hl, length_zero_iff_nil. apply (f_equal length) in Hi. by rewrite length_insert in Hi. Qed.

(** A worker goes on and does not return. *)
Lemma worker_inv p i w w' (n : Z) :
  pool_inv p -> workers_ p !! i = Some w -> w' <> WExited ->
  pool_inv (mkPool Q A (queue_ p) (<[i := w']> (workers_ p)) (stopping_ p) n (tp_stopper p)).
Proof.
  intros [Hok Hex Hne Hst] Hw Hw'. split; simpl; auto using insert_not_nil.
  - intros j [(_ & ? & _)|(_ & Hj)]%list_lookup_insert_Some; [done|eauto].
  - destruct (tp_stopper p); try done. destruct Hst as (_ & _ & _ & Hnil). by rewrite Hnil in Hw.
Qed.

Lemma step_workers_inv p ev p' : pool_inv p -> step p ev p' -> pool_inv p'.
Proof.
  intros Hinv Hs. pose proof Hinv as [Hok Hex Hne Hst].
  assert (Hpost : forall task ok p', post p task = Some (p', ok) \/ try_post p task = (p', ok) ->
            pool_inv p').
  { intros task ok p1 [[_ ->]|(_ & q' & -> & Hq' & Hc & Hc' & Hi)]%post_cases; [by split| |done].
    split; simpl; auto.
    - intros i Hi'. destruct (Hex i Hi'). congruence.
    - destruct (tp_stopper p); naive_solver congruence. }
  destruct Hs as [p task p' ok Hp|p task p' ok Hp|p i task p' Hw Hp|p i p' Hw Hp|p i task Hw|p i task Hw
                 |p i Hw|p drain p' ok Hp|p Hp|p Hp|p Hp Hall]; eauto.
  - apply run_pop_cases in Hp as (q' & -> & Hq' & Hc & Hi); [|done]. split; simpl; auto using insert_not_nil.
    + intros j [(_ & ? & _)|(_ & Hj)]%list_lookup_insert_Some; [done|].
      destruct (Hex j Hj). rewrite Hi in *. done.
    + destruct (tp_stopper p); try done; rewrite Hc; [done|]. destruct Hst as (_ & _ & _ & Hnil).
      by rewrite Hnil in Hw.
  - apply run_pop_cases in Hp as (-> & Hc & Hi); [|done]. split; simpl; auto using insert_not_nil.
    destruct (tp_stopper p); try done. destruct Hst as (_ & _ & _ & Hnil). by rewrite Hnil in Hw.
  - by eapply worker_inv.
  - by eapply worker_inv.
  - by apply (worker_inv p i WCounting WWaiting).
  - unfold stop_begin in Hp. destruct (stopping_ p) eqn:Hsp; simplify_eq; [split; try done; by rewrite Hsp|].
    split; simpl; auto.
    + intros _. apply Hne. intros Hd. rewrite Hd in Hst. naive_solver.
    + by destruct drain.
  - rewrite Hp in *. destruct (tq_clear_spec (queue_ p) Hok) as (Hq & Hc & Hi).
    split; simpl; auto. intros i Hi'. destruct (Hex i Hi'). by rewrite Hc, Hi.
  - rewrite Hp in *. destruct (tq_close_spec (queue_ p) Hok) as (Hq & Hc & Hi).
    split; simpl; auto. intros i Hi'. destruct (Hex i Hi'). by rewrite Hc, Hi.
  - rewrite Hp in *. destruct Hst as [Hsp Hc]. split; simpl; try done.
    split; [done|]. split; [done|]. split; [|done].
    destruct (workers_ p) as [|w ws] eqn:Hws; [by specialize (Hne ltac:(done))|].
    simpl in Hall. apply andb_true_iff in Hall as [Hw _]. destruct w; try done.
    by apply (Hex 0%nat).
Qed.

(** Workers that have all returned hold nothing. *)
Lemma exited_bind {B} (g : worker A -> list B) ws :
  forallb exited ws = true -> g WExited = [] -> ws ≫= g = [].
Proof.
  intros Hall Hg. induction ws as [|w ws IH]; [done|].
  apply andb_true_iff in Hall as [Hw Hall]. destruct w; try done. rewrite bind_cons, Hg. by apply IH.
Qed.

Lemma exited_not_counting ws : forallb exited ws = true -> countb is_counting ws = 0%nat.
Proof.
  induction ws as [|w ws IH]; [done|]. simpl. intros [Hw Hall]%andb_true_iff.
  rewrite countb_cons, IH by done. by destruct w.
Qed.

(** Tasks move, none appears or disappears. *)
Lemma step_tasks f p ev p' :
  pool_inv p -> step p ev p' ->
  (countb f (tq_items (queue_ p) ++ held p) + countb f (accepted_by ev)
   = countb f (tq_items (queue_ p') ++ held p') + countb f (ran_by ev ++ discarded_by ev))%nat.
Proof.
  intros Hinv Hs. destruct Hinv as [Hok Hex Hne Hst].
  assert (Hpost : forall task ok p', post p task = Some (p', ok) \/ try_post p task = (p', ok) ->
    (countb f (tq_items (queue_ p) ++ held p) + countb f (accepted_by (EvPost task ok))
     = countb f (tq_items (queue_ p') ++ held p'))%nat).
  { intros task ok p1 [[-> ->]|(-> & q' & -> & _ & _ & _ & Hi)]%post_cases; [|simpl|done].
    - simpl. rewrite countb_nil. lia.
    - rewrite Hi, !countb_app. unfold held. simpl. lia. }
  assert (Hwork : forall i w w', workers_ p !! i = Some w ->
    (countb f (<[i := w']> (workers_ p) ≫= held_of) + countb f (held_of w)
     = countb f (held p) + countb f (held_of w'))%nat).
  { intros i w w' Hw. by apply countb_bind_insert. }
  destruct Hs as [p task p' ok Hp|p task p' ok Hp|p i task p' Hw Hp|p i p' Hw Hp|p i task Hw|p i task Hw
                 |p i Hw|p drain p' ok Hp|p Hp|p Hp|p Hp Hall]; simpl; rewrite ?countb_nil, ?countb_app.
  - specialize (Hpost task ok p' (or_introl Hp)). simpl in Hpost. rewrite !countb_app in Hpost. lia.
  - specialize (Hpost task ok p' (or_intror Hp)). simpl in Hpost. rewrite !countb_app in Hpost. lia.
  - apply run_pop_cases in Hp as (q' & -> & _ & _ & Hi); [|done]. rewrite Hi. unfold held at 2. simpl.
    specialize (Hwork i _ (WPopped task) Hw). simpl in Hwork. rewrite countb_cons in *.
    rewrite ?countb_nil in *. lia.
  - apply run_pop_cases in Hp as (-> & _ & _); [|done]. unfold held at 2. simpl.
    specialize (Hwork i _ WExited Hw). simpl in Hwork. lia.
  - unfold held at 2. simpl. specialize (Hwork i _ (WRunning task) Hw). simpl in Hwork. lia.
  - unfold held at 2. simpl. specialize (Hwork i _ WCounting Hw). simpl in Hwork.
    rewrite !countb_cons, ?countb_nil in *. lia.
  - unfold held at 2. simpl. specialize (Hwork i _ WWaiting Hw). simpl in Hwork. lia.
  - unfold stop_begin in Hp. destruct (stopping_ p); simplify_eq; unfold held; simpl; lia.
  - destruct (tq_clear_spec (queue_ p) Hok) as (_ & _ & ->). unfold held. simpl. rewrite ?countb_nil. lia.
  - destruct (tq_close_spec (queue_ p) Hok) as (_ & _ & ->). unfold held. simpl. lia.
  - unfold held. simpl. rewrite exited_bind by done. lia.
Qed.

Lemma run_workers_inv threads q tr p :
  0 <= threads -> tq_ok q -> run (new_pool threads q) tr p -> pool_inv p.
Proof.
  intros Ht Hq. apply run_invariant; [by apply new_workers_inv|]. intros p1 e p2. apply step_workers_inv.
Qed.

Lemma run_tasks f threads q tr p :
  0 <= threads -> tq_ok q -> tq_items q = [] -> run (new_pool threads q) tr p ->
  countb f (accepted tr) =
    (countb f (tq_items (queue_ p) ++ held p) + countb f (ran tr ++ discarded tr))%nat.
Proof.
  intros Ht Hq Hi. induction 1 as [|tr ev p p' Hr IH Hs].
  - simpl. rewrite Hi. unfold held. simpl.
    assert (Hz : forall k, replicate k WWaiting ≫= held_of = []) by (by induction k).
    by rewrite Hz.
  - pose proof (step_tasks f p ev p' (run_workers_inv _ _ _ _ Ht Hq Hr) Hs) as Hst.
    unfold accepted, ran, discarded in *. rewrite !bind_app, !countb_app in *. simpl.
    rewrite !app_nil_r. lia.
Qed.

(** The queue hands the tasks out in the order it took them. *)
Lemma step_taken p ev p' :
  pool_inv p -> step p ev p' ->
  tq_items (queue_ p) ++ accepted_by ev = taken_by ev ++ tq_items (queue_ p').
Proof.
  intros Hinv Hs. pose proof (pi_ok p Hinv) as Hok.
  assert (Hpost : forall task ok p', post p task = Some (p', ok) \/ try_post p task = (p', ok) ->
    tq_items (queue_ p) ++ accepted_by (EvPost task ok) = tq_items (queue_ p')).
  { intros task ok p1 [[-> ->]|(-> & q' & -> & _ & _ & _ & Hi)]%post_cases;
      [apply app_nil_r|by simpl; rewrite Hi|done]. }
  destruct Hs as [p task p' ok Hp|p task p' ok Hp|p i task p' Hw Hp|p i p' Hw Hp|p i task Hw|p i task Hw
                 |p i Hw|p drain p' ok Hp|p Hp|p Hp|p Hp Hall]; simpl.
  - exact (Hpost _ _ _ (or_introl Hp)).
  - exact (Hpost _ _ _ (or_intror Hp)).
  - apply run_pop_cases in Hp as (q' & -> & _ & _ & Hi); [|done]. by rewrite Hi, app_nil_r.
  - apply run_pop_cases in Hp as (-> & _ & _); [|done]. apply app_nil_r.
  - apply app_nil_r.
  - apply app_nil_r.
  - apply app_nil_r.
  - unfold stop_begin in Hp. destruct (stopping_ p); simplify_eq; apply app_nil_r.
  - by destruct (tq_clear_spec (queue_ p) Hok) as (_ & _ & ->); rewrite app_nil_r.
  - by destruct (tq_close_spec (queue_ p) Hok) as (_ & _ & ->); rewrite app_nil_r.
  - apply app_nil_r.
Qed.

Lemma run_taken threads q tr p :
  0 <= threads -> tq_ok q -> tq_items q = [] -> run (new_pool threads q) tr p ->
  accepted tr = (tr ≫= taken_by) ++ tq_items (queue_ p).
Proof.
  intros Ht Hq Hi. induction 1 as [|tr ev p p' Hr IH Hs]; [done|].
  pose proof (step_taken p ev p' (run_workers_inv _ _ _ _ Ht Hq Hr) Hs) as Hst.
  unfold accepted in *. rewrite !bind_app, IH, <-!app_assoc. simpl.
  rewrite !app_nil_r. by rewrite Hst.
Qed.

Lemma popped_taken tr : popped tr `sublist_of` (tr ≫= taken_by).
Proof.
  unfold popped. induction tr as [|ev tr IH]; simpl; [constructor|]. apply sublist_app; [|exact IH].
  destruct ev; simpl; done || apply sublist_nil_l.
Qed.

(** What is with a worker is popped and not yet called, or running. *)
Lemma held_split f p : countb f (held p) = (countb f (in_hand p) + countb f (running p))%nat.
Proof.
  unfold held, in_hand, running. induction (workers_ p) as [|w ws IH]; [done|].
  rewrite !bind_cons, !countb_app, IH. destruct w; simpl; rewrite ?countb_nil; lia.
Qed.

Lemma elem_of_held task p : task ∈ held p <-> task ∈ in_hand p \/ task ∈ running p.
Proof.
  unfold held, in_hand, running. induction (workers_ p) as [|w ws IH].
  - simpl. rewrite elem_of_nil. tauto.
  - rewrite !bind_cons, !elem_of_app, IH. destruct w; simpl; rewrite ?elem_of_nil; tauto.
Qed.

(** What leaves the queue, what is called and what ends. *)
Definition moves (p : ThreadPool Q A) (ev : event A) (p' : ThreadPool Q A) : Prop :=
  (forall f, (countb f (running p) + countb f (started_by ev)
             = countb f (running p') + countb f (ran_by ev))%nat) /\
  ((length (workers_ p) <= 1)%nat -> in_hand p ++ popped_by ev = started_by ev ++ in_hand p') /\
  counting p + zlen (ran_by ev) = counting p' + (if ev is EvCounted then 1 else 0).

Lemma moves_worker p (i : nat) w w' (q : Q) (b : bool) (n : Z) (k : stopper) ev :
  workers_ p !! i = Some w ->
  (forall f, (countb f (task_of w) + countb f (started_by ev) = countb f (task_of w') + countb f (ran_by ev))%nat) ->
  hand_of w ++ popped_by ev = started_by ev ++ hand_of w' ->
  (if is_counting w then 1 else 0) + zlen (ran_by ev)
    = (if is_counting w' then 1 else 0) + (if ev is EvCounted then 1 else 0) ->
  moves p ev (mkPool Q A q (<[i := w']> (workers_ p)) b n k).
Proof.
  intros Hw Hrun Hhand Hc. split; [|split].
  - intros f. pose proof (countb_bind_insert f task_of (workers_ p) i w w' Hw) as H1.
    specialize (Hrun f). unfold running in *. simpl. lia.
  - intros Hl. unfold in_hand. simpl. destruct (workers_ p) as [|x [|y ws]]; [done| |simpl in Hl; lia].
    apply list_lookup_singleton_Some in Hw as [-> ->]. simpl. by rewrite !app_nil_r.
  - pose proof (countb_insert is_counting (workers_ p) i w w' Hw) as H1. unfold counting. simpl.
    destruct (is_counting w), (is_counting w'); lia.
Qed.

Lemma moves_same p ev p' :
  workers_ p' = workers_ p -> popped_by ev = [] -> started_by ev = [] -> ran_by ev = [] ->
  (if ev is EvCounted then False else True) -> moves p ev p'.
Proof.
  intros Hw H1 H2 H3 H4. unfold moves, running, in_hand, counting. rewrite Hw, H1, H2, H3, app_nil_r.
  split; [done|]. split; [done|]. change (zlen []) with 0. destruct ev; done || lia.
Qed.

Lemma step_moves p ev p' : pool_inv p -> step p ev p' -> moves p ev p'.
Proof.
  intros [Hok _ _ _] Hs.
  destruct Hs as [p task p' ok Hp|p task p' ok Hp|p i task p' Hw Hp|p i p' Hw Hp|p i task Hw|p i task Hw
                 |p i Hw|p drain p' ok Hp|p Hp|p Hp|p Hp Hall].
  - destruct (post_cases p task p' ok Hok (or_introl Hp)) as [[_ ->]|(_ & q' & -> & _)]; by apply moves_same.
  - destruct (post_cases p task p' ok Hok (or_intror Hp)) as [[_ ->]|(_ & q' & -> & _)]; by apply moves_same.
  - apply run_pop_cases in Hp as (q' & -> & _); [|done]. by apply (moves_worker p i WWaiting).
  - apply run_pop_cases in Hp as (-> & _); [|done]. by apply (moves_worker p i WWaiting).
  - by apply (moves_worker p i (WPopped task)).
  - by apply (moves_worker p i (WRunning task)).
  - by apply (moves_worker p i WCounting).
  - unfold stop_begin in Hp. destruct (stopping_ p); simplify_eq; by apply moves_same.
  - by apply moves_same.
  - by apply moves_same.
  - unfold moves, running, in_hand, counting. simpl. rewrite !exited_bind, exited_not_counting by done.
    split; [done|]. by split.
Qed.

(** A [stop(true)] that won means that nothing is thrown away. *)
Lemma run_drain threads q tr p :
  run (new_pool threads q) tr p ->
  (stopping_ p = false -> tp_stopper p = NotStopping /\ discarded tr = [] /\ EvStop true true ∉ tr) /\
  (EvStop true true ∈ tr -> tp_stopper p <> StopClear /\ discarded tr = []).
Proof.
  induction 1 as [|tr ev p p' Hr IH Hs]; [simpl; set_solver|].
  unfold discarded in *. rewrite bind_app, elem_of_app, list_elem_of_singleton. simpl.
  destruct Hs as [p task p' ok Hp|p task p' ok Hp|p i task p' Hw Hp|p i p' Hw Hp|p i task Hw|p i task Hw
                 |p i Hw|p drain p' ok Hp|p Hp|p Hp|p Hp Hall]; simpl; rewrite ?app_nil_r.
  - unfold post in Hp. destruct (tq_push _ _) as [[? ?]|]; simplify_eq/=. naive_solver.
  - unfold try_post in Hp. simplify_eq/=. naive_solver.
  - unfold run_pop in Hp. destruct (tq_pop _) as [[? ?]|]; simplify_eq/=. naive_solver.
  - unfold run_pop in Hp. destruct (tq_pop _) as [[? ?]|]; simplify_eq/=. naive_solver.
  - naive_solver.
  - naive_solver.
  - naive_solver.
  - unfold stop_begin in Hp. destruct (stopping_ p) eqn:Hsp; simplify_eq/=; [naive_solver|].
    destruct IH as (IH & _). destruct (IH eq_refl) as (_ & Hd & Hn).
    destruct drain; naive_solver.
  - rewrite Hp in *. naive_solver.
  - rewrite Hp in *. naive_solver.
  - rewrite Hp in *. naive_solver.
Qed.

(** The capacity stays, and no worker is ever added. *)
Lemma step_size p ev p' :
  tq_ok (queue_ p) -> step p ev p' ->
  tq_capacity (queue_ p') = tq_capacity (queue_ p) /\ (length (workers_ p') <= length (workers_ p))%nat.
Proof.
  intros Hok Hs.
  destruct Hs as [p task p' ok Hp|p task p' ok Hp|p i task p' Hw Hp|p i p' Hw Hp|p i task Hw|p i task Hw
                 |p i Hw|p drain p' ok Hp|p Hp|p Hp|p Hp Hall]; simpl; rewrite ?length_insert; try (split; [done|lia]).
  - unfold post in Hp. destruct (tq_push _ _) as [[q' r]|] eqn:Hq; simplify_eq/=. split; [|lia].
    exact (tq_push_capacity _ _ _ _ Hok Hq).
  - unfold try_post in Hp. simplify_eq/=. split; [by apply tq_try_push_capacity|lia].
  - unfold run_pop in Hp. destruct (tq_pop _) as [[q' r]|] eqn:Hq; simplify_eq/=.
    rewrite length_insert. split; [exact (tq_pop_capacity _ _ _ Hok Hq)|lia].
  - unfold run_pop in Hp. destruct (tq_pop _) as [[q' r]|] eqn:Hq; simplify_eq/=.
    rewrite length_insert. split; [exact (tq_pop_capacity _ _ _ Hok Hq)|lia].
  - unfold stop_begin in Hp. destruct (stopping_ p); simplify_eq/=; split; done || lia.
  - split; [apply tq_clear_capacity|lia].
  - split; [apply tq_close_capacity|lia].
Qed.

Lemma run_size threads q tr p :
  0 <= threads -> tq_ok q -> run (new_pool threads q) tr p ->
  tq_capacity (queue_ p) = tq_capacity q /\ thread_count p <= Z.max threads 1.
Proof.
  intros Ht Hq. induction 1 as [|tr ev p p' Hr [IHc IHl] Hs].
  - split; [done|]. unfold thread_count, zlen. simpl. rewrite length_replicate. destruct (Z.eqb_spec threads 0); lia.
  - destruct (step_size p ev p' (pi_ok _ (run_workers_inv _ _ _ _ Ht Hq Hr)) Hs) as [Hc Hl].
    unfold thread_count, zlen in *. split; [congruence|lia].
Qed.

Lemma held_length p : zlen (held p) <= thread_count p.
Proof.
  unfold held, thread_count, zlen. induction (workers_ p) as [|w ws IH]; [done|].
  rewrite bind_cons, length_app. destruct w; simpl length; lia.
Qed.

Lemma step_completed p ev p' :
  step p ev p' -> completed_ p' = if ev is EvCounted then completed_ p +u 1 else completed_ p.
Proof.
  intros Hs. destruct Hs as [p task p' ok Hp|p task p' ok Hp|p i task p' Hw Hp|p i p' Hw Hp|p i task Hw|p i task Hw
                 |p i Hw|p drain p' ok Hp|p Hp|p Hp|p Hp Hall]; try done.
  - unfold post in Hp. by destruct (tq_push _ _) as [[? ?]|]; simplify_eq/=.
  - unfold try_post in Hp. by simplify_eq/=.
  - unfold run_pop in Hp. by destruct (tq_pop _) as [[? ?]|]; simplify_eq/=.
  - unfold run_pop in Hp. by destruct (tq_pop _) as [[? ?]|]; simplify_eq/=.
  - unfold stop_begin in Hp. by destruct (stopping_ p); simplify_eq/=.
Qed.

(** The calls that have begun are those that have ended and those underway; the
    counter lags behind by those at the increment. *)
Lemma run_moves threads q tr p :
  0 <= threads -> tq_ok q -> run (new_pool threads q) tr p ->
  (forall f, countb f (started tr) = (countb f (ran tr) + countb f (running p))%nat) /\
  (threads <= 1 -> popped tr = started tr ++ in_hand p) /\
  completed_ p = u64 (zlen (ran tr) - counting p).
Proof.
  intros Ht Hq. induction 1 as [|tr ev p p' Hr (IHs & IHp & IHc) Hs].
  - unfold running, in_hand, counting. simpl.
    assert (Hz : forall {B} (g : worker A -> list B) k, g WWaiting = [] -> replicate k WWaiting ≫= g = [])
      by (intros B g k Hg; induction k as [|k IH]; [done|]; by rewrite replicate_S, bind_cons, Hg).
    rewrite !Hz by done. assert (Hk : forall k, countb is_counting (replicate k WWaiting) = 0%nat)
      by (intros k; induction k as [|k IH]; [done|]; by rewrite replicate_S, countb_cons).
    by rewrite Hk.
  - pose proof (run_workers_inv _ _ _ _ Ht Hq Hr) as Hinv.
    destruct (step_moves p ev p' Hinv Hs) as (M1 & M2 & M3).
    destruct (run_size threads q tr p Ht Hq Hr) as [_ Hn].
    unfold started, ran, popped in *. rewrite !bind_app. cbn [mbind list_bind]. rewrite !app_nil_r.
    split; [|split].
    + intros f. specialize (IHs f). specialize (M1 f). rewrite !countb_app. lia.
    + intros H1. rewrite (IHp H1), <-!app_assoc. f_equal. apply M2. unfold thread_count, zlen in Hn. lia.
    + rewrite zlen_app, (step_completed p ev p' Hs), IHc.
      destruct ev; cbn [ran_by] in *; rewrite ?zlen_nil, ?wrap_add_l in *; f_equal; try lia.
Qed.
End pool.

(** ** Progress of [stop] *)

Section progress.
Context {Q A : Type} `{TaskQueue Q A}.
Implicit Types (p : ThreadPool Q A).

Definition weight (w : worker A) : nat :=
  match w with WWaiting => 1 | WPopped _ => 4 | WRunning _ => 3 | WCounting => 2 | WExited => 0 end.

(** What the workers have left to do. *)
Definition work_left p : nat :=
  4 * length (tq_items (queue_ p)) + sum_list_with weight (workers_ p).

Lemma sum_insert (l : list (worker A)) i w w' :
  l !! i = Some w ->
  (sum_list_with weight (<[i := w']> l) + weight w = sum_list_with weight l + weight w')%nat.
Proof.
  revert i. induction l as [|x l IH]; intros [|i] Hi; simplify_eq/=; [lia|].
  specialize (IH i Hi). lia.
Qed.

Lemma not_all_exited (l : list (worker A)) :
  forallb exited l = false -> exists i w, l !! i = Some w /\ exited w = false.
Proof.
  induction l as [|x l IH]; [done|]. simpl. intros Hf.
  destruct (exited x) eqn:Hx; [|by exists 0%nat, x].
  destruct (IH Hf) as (i & w & ? & ?). by exists (S i), w.
Qed.

(** A worker past its pop goes on. *)
Lemma worker_goes_on p i w :
  workers_ p !! i = Some w -> w <> WWaiting -> exited w = false ->
  exists ev w' n, step p ev (mkPool Q A (queue_ p) (<[i := w']> (workers_ p)) (stopping_ p) n (tp_stopper p)) /\
    worker_step ev = true /\ accepted_by ev = [] /\ (forall task, w = WRunning task <-> ev = EvRan task) /\
    (weight w' < weight w)%nat.
Proof.
  intros Hi Hw Hx. destruct w as [|task|task| |]; try done.
  - exists (EvStart task), (WRunning task), (completed_ p). split; [by apply step_start|]. by split_and!; try (simpl; lia).
  - exists (EvRan task), WCounting, (completed_ p). split; [by apply step_ran|].
    split_and!; try done; [|simpl; lia]. intros task'. split; congruence.
  - exists EvCounted, WWaiting, (completed_ p +u 1). split; [by apply (step_counted p i)|].
    by split_and!; try (simpl; lia).
Qed.

(** A worker whose pop does not block takes a task, or exits. *)
Lemma worker_pops p i p' r :
  pool_inv p -> workers_ p !! i = Some WWaiting -> run_pop p i = Some (p', r) ->
  exists ev, step p ev p' /\ worker_step ev = true /\ accepted_by ev = [] /\
    (forall task, ev <> EvRan task) /\ tp_stopper p' = tp_stopper p /\ (work_left p' < work_left p)%nat.
Proof.
  intros [Hok _ _ _] Hi Hr. pose proof (run_pop_cases p i p' r Hok Hr) as Hc. destruct r as [task|].
  - exists (EvTake task). split; [by eapply step_pop|]. destruct Hc as (q1 & -> & _ & _ & Hitems).
    pose proof (sum_insert (workers_ p) i _ (WPopped task) Hi) as Hs. unfold work_left. simpl in *.
    rewrite Hitems. simpl. by split_and!; try lia.
  - exists EvExit. split; [by eapply step_exit|]. destruct Hc as (-> & _ & _).
    pose proof (sum_insert (workers_ p) i _ WExited Hi) as Hs. unfold work_left. simpl in *.
    by split_and!; try lia.
Qed.

Lemma work_left_insert p i w w' n :
  workers_ p !! i = Some w -> (weight w' < weight w)%nat ->
  (work_left (mkPool Q A (queue_ p) (<[i := w']> (workers_ p)) (stopping_ p) n (tp_stopper p)) < work_left p)%nat.
Proof. intros Hi Hlt. pose proof (sum_insert (workers_ p) i w w' Hi). unfold work_left. simpl. lia. Qed.

(** A worker that has not exited can go on, with less left to do. *)
Lemma worker_progress p :
  pool_inv p -> tp_stopper p = StopJoin -> forallb exited (workers_ p) = false ->
  exists ev p', step p ev p' /\ tp_stopper p' = StopJoin /\ accepted_by ev = [] /\
    (work_left p' < work_left p)%nat.
Proof.
  intros Hinv Hj (i & w & Hi & Hw)%not_all_exited. pose proof Hinv as [Hok _ _ Hst]. rewrite Hj in Hst.
  destruct Hst as [_ Hclosed]. destruct (decide (weight w = 1)%nat) as [H1|H1].
  - assert (w = WWaiting) as -> by by destruct w.
    destruct (tq_pop_closed (queue_ p) Hok Hclosed) as [[q' r] Hpop].
    assert (Hr : exists p', run_pop p i = Some (p', r)) by (unfold run_pop; rewrite Hpop; eauto).
    destruct Hr as [p' Hr]. destruct (worker_pops p i p' r Hinv Hi Hr) as (ev & Hs & _ & Hacc & _ & Hsp & Hlt).
    exists ev, p'. split; [done|]. by rewrite Hsp.
  - destruct (worker_goes_on p i w Hi) as (ev & w' & n & Hs & _ & Hacc & _ & Hlt); [by intros ->|done|].
    eexists ev, _. split; [exact Hs|]. split; [done|]. split; [done|]. by apply work_left_insert with w.
Qed.

(** While a task is queued or with a worker, a worker runs one or goes on. *)
Lemma busy_progress p :
  pool_inv p -> tq_items (queue_ p) <> [] \/ held p <> [] ->
  (exists i task, workers_ p !! i = Some (WRunning task)) \/
  (exists ev p', step p ev p' /\ worker_step ev = true /\ (forall task, ev <> EvRan task) /\
     (work_left p' < work_left p)%nat).
Proof.
  intros Hinv Hbusy. pose proof Hinv as [Hok Hex Hne Hst].
  assert (Hgo : forall i w, workers_ p !! i = Some w -> w <> WWaiting -> exited w = false ->
    (exists i task, workers_ p !! i = Some (WRunning task)) \/
    (exists ev p', step p ev p' /\ worker_step ev = true /\ (forall task, ev <> EvRan task) /\
       (work_left p' < work_left p)%nat)).
  { intros i w Hi Hw Hx. destruct (worker_goes_on p i w Hi Hw Hx) as (ev & w' & n & Hs & He & _ & Hrun & Hlt).
    destruct (decide (weight w = 3)%nat) as [H3|H3]; [left; destruct w; simplify_eq/=; eauto|right].
    eexists ev, _. split; [exact Hs|]. split; [done|]. split; [|by apply work_left_insert with w].
    intros task Hev%Hrun. by subst w. }
  destruct Hbusy as [Hi|Hr].
  - assert (workers_ p <> []) as Hws.
    { intros Hws. apply Hne; [|done]. intros Hd. rewrite Hd in Hst. naive_solver. }
    destruct (workers_ p) as [|w ws] eqn:Hw; [done|].
    destruct (exited w) eqn:Hx; [destruct w; try done; by destruct (Hex 0%nat eq_refl)|].
    destruct (decide (weight w = 1)%nat) as [H1|H1]; [|apply (Hgo 0%nat w); [done|by intros ->|done]].
    right. assert (w = WWaiting) as -> by by destruct w.
    destruct (tq_pop_items (queue_ p) Hok Hi) as [[q' r] Hpop].
    assert (Hr : exists p', run_pop p 0 = Some (p', r)) by (unfold run_pop; rewrite Hpop; eauto).
    destruct Hr as [p' Hr]. destruct (worker_pops p 0 p' r Hinv) as (ev & Hs & He & _ & Hn & _ & Hlt);
      [by rewrite Hw|done|]. eauto 6.
  - destruct (held p) as [|t ts] eqn:Ht; [done|].
    assert (t ∈ held p) as (w & Hw & [i Hi]%list_elem_of_lookup)%list_elem_of_bind by (rewrite Ht; left).
    apply (Hgo i w Hi); intros; destruct w; simpl in Hw; try by apply not_elem_of_nil in Hw. all: done.
Qed.

(** Once the queue is closed for good, no step gives the workers more to do, and
    each of their own leaves less. *)
Definition joining p : Prop := tp_stopper p = StopJoin \/ tp_stopper p = StopDone.

Lemma joining_step p ev p' :
  pool_inv p -> joining p -> step p ev p' ->
  joining p' /\ (work_left p' + (if worker_step ev then 1 else 0) <= work_left p)%nat.
Proof.
  intros Hinv Hj Hs. unfold joining, work_left in *.
  destruct Hinv as [Hok Hex Hne Hst].
  assert (tq_closed (queue_ p) = true) as Hclosed.
  { destruct Hj as [Hj|Hj]; rewrite Hj in Hst; apply Hst. }
  assert (Hpost : forall task ok p', post p task = Some (p', ok) \/ try_post p task = (p', ok) -> p' = p).
  { intros task ok p1 [[_ ->]|(_ & q' & _ & _ & Hc & _)]%post_cases; [done|congruence|done]. }
  destruct Hs as [p task p' ok Hp|p task p' ok Hp|p i task p' Hw Hp|p i p' Hw Hp|p i task Hw|p i task Hw
                 |p i Hw|p drain p' ok Hp|p Hp|p Hp|p Hp Hall]; simpl.
  - rewrite (Hpost task ok p') by auto. split; [done|lia].
  - rewrite (Hpost task ok p') by auto. split; [done|lia].
  - apply run_pop_cases in Hp as (q' & -> & _ & _ & Hi); [|done]. split; [done|]. simpl.
    rewrite Hi. simpl. pose proof (sum_insert (workers_ p) i _ (WPopped task) Hw) as Hsum.
    simpl in Hsum. lia.
  - apply run_pop_cases in Hp as (-> & _ & _); [|done]. split; [done|]. simpl.
    pose proof (sum_insert (workers_ p) i _ WExited Hw) as Hsum. simpl in Hsum. lia.
  - split; [done|]. pose proof (sum_insert (workers_ p) i _ (WRunning task) Hw) as Hsum.
    simpl in Hsum. lia.
  - split; [done|]. pose proof (sum_insert (workers_ p) i _ WCounting Hw) as Hsum.
    simpl in Hsum. lia.
  - split; [done|]. pose proof (sum_insert (workers_ p) i _ WWaiting Hw) as Hsum.
    simpl in Hsum. lia.
  - assert (stopping_ p = true) as Hsp by (destruct Hj as [Hj|Hj]; rewrite Hj in Hst; apply Hst).
    unfold stop_begin in Hp. rewrite Hsp in Hp.
    simplify_eq. split; [done|lia].
  - destruct Hj; congruence.
  - destruct Hj; congruence.
  - split; [by right|lia].
Qed.

Lemma joining_run p tr p' :
  pool_inv p -> joining p -> run p tr p' ->
  joining p' /\ pool_inv p' /\ (work_left p' + countb worker_step tr <= work_left p)%nat.
Proof.
  intros Hinv Hj. induction 1 as [|tr ev p1 p2 Hr (Hj1 & Hi1 & Hle) Hs].
  - rewrite countb_nil. split; [done|]. split; [done|lia].
  - destruct (joining_step p1 ev p2 Hi1 Hj1 Hs) as [Hj2 Hle2].
    split; [done|]. split; [by eapply step_workers_inv|].
    rewrite countb_app, countb_cons, countb_nil. destruct (worker_step ev); lia.
Qed.

Lemma join_completes p :
  pool_inv p -> tp_stopper p = StopJoin ->
  exists tr p', run p tr p' /\ tp_stopper p' = StopDone /\ accepted tr = [].
Proof.
  remember (work_left p) as m eqn:Hm. revert p Hm.
  induction (lt_wf m) as [m _ IH]. intros p -> Hinv Hj.
  destruct (forallb exited (workers_ p)) eqn:Hall.
  - exists [EvStopped], (stop_join p). split; [by apply run_one, step_join|done].
  - destruct (worker_progress p Hinv Hj Hall) as (ev & p1 & Hs & Hj1 & Hacc & Hlt).
    destruct (IH (work_left p1) Hlt p1 eq_refl (step_workers_inv _ _ _ Hinv Hs) Hj1)
      as (tr & p' & Hr & Hd & Htr).
    exists (ev :: tr), p'. split; [by eapply run_cons|]. split; [done|].
    change (accepted_by ev ++ accepted tr = []). by rewrite Hacc, Htr.
Qed.
End progress.

(** ** Concrete interleavings, over a [BoundedQueue] *)
Section scheduler.
Context {A : Type}.

Inductive tasks_command :=
  | TPost (task : A)
  | TTryPost (task : A)
  | TWork (i : nat)
  | TStop (drain : bool)
  | TStopNext.

Abbreviation queue_pool := (ThreadPool (BoundedQueue A) A).

Definition tasks_exec1 (p : queue_pool) (c : tasks_command) : option (event A * queue_pool) :=
  match c with
  | TPost task => pr ← post p task; Some (EvPost task pr.2, pr.1)
  | TTryPost task => let pr := try_post p task in Some (EvPost task pr.2, pr.1)
  | TWork i =>
      match workers_ p !! i with
      | Some WWaiting =>
          match run_pop p i with
          | Some (p', Some task) => Some (EvTake task, p')
          | Some (p', None) => Some (EvExit, p')
          | None => None
          end
      | Some (WPopped task) => Some (EvStart task, run_start p i task)
      | Some (WRunning task) => Some (EvRan task, run_returned p i)
      | Some WCounting => Some (EvCounted, run_done p i)
      | _ => None
      end
  | TStop drain => let pr := stop_begin p drain in Some (EvStop drain pr.2, pr.1)
  | TStopNext =>
      match tp_stopper p with
      | StopClear => Some (EvDiscard (tq_items (queue_ p)), stop_clear p)
      | StopClose => Some (EvClosed, stop_close p)
      | StopJoin => if forallb exited (workers_ p) then Some (EvStopped, stop_join p) else None
      | _ => None
      end
  end.

Lemma tasks_exec1_sound p c e p' : tasks_exec1 p c = Some (e, p') -> step p e p'.
Proof.
  unfold tasks_exec1. intros Hx. destruct c as [task|task|i|drain|].
  - destruct (post p task) as [[p1 ok]|] eqn:Hp; simplify_eq/=. by apply step_post.
  - injection Hx as <- <-. by apply step_try_post.
  - destruct (workers_ p !! i) as [[]|] eqn:Hw; simplify_eq;
      [|by apply step_start|by apply step_ran|by apply step_counted].
    destruct (run_pop p i) as [[p1 [task|]]|] eqn:Hp; simplify_eq;
      [by eapply step_pop|by eapply step_exit].
  - injection Hx as <- <-. eapply step_stop, surjective_pairing.
  - destruct (tp_stopper p) eqn:Hs; simplify_eq;
      [exact (step_clear p Hs)|exact (step_close p Hs)|].
    destruct (forallb exited (workers_ p)) eqn:Hall; simplify_eq. by apply step_join.
Qed.

#[export] Instance tasks_scheduler : Scheduler queue_pool (event A) tasks_command :=
  {| exec1 := tasks_exec1; exec1_sound := tasks_exec1_sound |}.

Definition task_queue (capacity : Z) : BoundedQueue A := BoundedQueue.new_queue capacity Block.

Lemma task_queue_ok capacity : fits 64 capacity -> tq_ok (task_queue capacity).
Proof. intros Hc. split; [by apply new_queue_wf|done]. Qed.
End scheduler.
Arguments tasks_command : clear implicits.

(** ** Properties, for any queue with the interface *)

Section properties.
Context {Q A : Type} `{TaskQueue Q A} `{EqDecision A}.
Implicit Types (q : Q) (p : ThreadPool Q A) (tr : list (event A)).

(** C26: every accepted task is, exactly once, executed, being executed, popped by a
    worker that is about to call it, queued or discarded by [stop(false)], and
    nothing else is ever called.  The workers pop the tasks in the order in which
    they were accepted; a pool of one worker also calls them in that order (of two
    workers the second can overtake the first between the pop and the call).
    [completed] is the number of executed tasks, less those whose worker has not
    come to the increment. *)
Theorem tasks_exactly_once threads q tr p :
  0 <= threads -> tq_ok q -> tq_items q = [] -> run (new_pool threads q) tr p ->
  accepted tr ≡ₚ ran tr ++ running p ++ in_hand p ++ tq_items (queue_ p) ++ discarded tr /\
  started tr ≡ₚ ran tr ++ running p /\
  popped tr `sublist_of` accepted tr /\
  (threads <= 1 -> started tr `sublist_of` accepted tr) /\
  completed p = u64 (zlen (ran tr) - counting p).
Proof.
  intros Ht Hq Hi Hr. destruct (run_moves threads q tr p Ht Hq Hr) as (Hstart & Hone & Hc).
  assert (Hpop : popped tr `sublist_of` accepted tr).
  { rewrite (run_taken threads q tr p) by done. apply sublist_inserts_r, popped_taken. }
  split; [|split; [|split; [done|split; [|done]]]].
  - apply countb_Permutation. intros f. rewrite (run_tasks f threads q tr p) by done.
    rewrite !countb_app, held_split. lia.
  - apply countb_Permutation. intros f. rewrite countb_app. apply Hstart.
  - intros H1. etransitivity; [|exact Hpop]. rewrite (Hone H1). by apply sublist_inserts_r.
Qed.

(** C27: [stop] drains: when the call that stopped the pool has joined its workers,
    nothing is queued or running, and every task ever accepted has been executed
    exactly once or discarded; none was discarded if that call was
    [stop(true)]. *)
Theorem stop_drains threads q tr p :
  0 <= threads -> tq_ok q -> tq_items q = [] -> run (new_pool threads q) tr p ->
  tp_stopper p = StopDone ->
  accepted tr ≡ₚ ran tr ++ discarded tr /\ pending p = 0 /\ thread_count p = 0 /\
  (EvStop true true ∈ tr -> accepted tr ≡ₚ ran tr).
Proof.
  intros Ht Hq Hi Hr Hd. pose proof (pi_stopper _ (run_workers_inv _ _ _ _ Ht Hq Hr)) as Hst.
  rewrite Hd in Hst. destruct Hst as (_ & _ & Hitems & Hws).
  unfold pending, thread_count. rewrite Hitems, Hws.
  assert (Hacc : accepted tr ≡ₚ ran tr ++ discarded tr).
  { apply countb_Permutation. intros f. rewrite (run_tasks f threads q tr p) by done.
    unfold held. rewrite Hitems, Hws. done. }
  split; [done|]. split; [done|]. split; [done|]. intros Hstop.
  destruct (run_drain _ _ _ _ Hr) as (_ & Hdis).
  destruct (Hdis Hstop) as [_ Hnil]. by rewrite Hnil, app_nil_r in Hacc.
Qed.

(** C28: [stop] terminates: once the queue is closed, wherever the pool goes the
    workers have taken at most [work_left] steps, and as long as [stop] has not
    returned it still can, by steps of the workers and its join. *)
Theorem stop_completes threads q tr p tr1 p1 :
  0 <= threads -> tq_ok q -> run (new_pool threads q) tr p -> tp_stopper p = StopJoin ->
  run p tr1 p1 ->
  (countb worker_step tr1 <= work_left p)%nat /\
  (tp_stopper p1 = StopDone \/
   exists tr2 p2, run p1 tr2 p2 /\ tp_stopper p2 = StopDone /\ accepted tr2 = []).
Proof.
  intros Ht Hq Hr Hj Hr1.
  destruct (joining_run p tr1 p1) as (Hj1 & Hinv & Hle);
    [by eapply run_workers_inv|by left|done|]. split; [lia|].
  destruct Hj1 as [Hj1|]; [right; by apply join_completes|by left].
Qed.

(** The pool pushes back: at no time are more accepted tasks unfinished than
    the queue holds and the workers run, and [queue_high_water] bounds what is
    queued and stays within the capacity; [try_post] refuses a task only when the
    queue is full or closed, and [post] blocks only when it is full. *)
Theorem backlog_bounded threads q tr p :
  0 <= threads -> tq_ok q -> tq_items q = [] -> run (new_pool threads q) tr p ->
  zlen (accepted tr) - zlen (ran tr) - zlen (discarded tr) <= Z.max threads 1 + tq_capacity q /\
  pending p <= queue_high_water p <= tq_capacity q /\
  (forall task p', try_post p task = (p', false) ->
     p' = p /\ (tq_closed (queue_ p) = true \/ pending p = tq_capacity q)) /\
  (forall task, post p task = None -> tq_closed (queue_ p) = false /\ pending p = tq_capacity q).
Proof.
  intros Ht Hq Hi Hr. destruct (run_size threads q tr p Ht Hq Hr) as [Hcap Hws].
  pose proof (pi_ok _ (run_workers_inv _ _ _ _ Ht Hq Hr)) as Hok. rewrite <-Hcap. split; [|split; [by apply tq_bounded|split]].
  - pose proof (run_tasks (fun _ => true) threads q tr p Ht Hq Hi Hr) as Hn.
    rewrite !countb_app, !countb_true in Hn.
    pose proof (tq_bounded _ Hok) as Hb. pose proof (held_length p) as Hl.
    unfold zlen in *. lia.
  - intros task p' Hp. split.
    + destruct (post_cases p task p' false Hok (or_intror Hp)) as [[_ ->]|[? _]]; done.
    + unfold try_post in Hp. destruct (tq_try_push _ _) as [q' b] eqn:Htp. simplify_eq/=.
      by eapply tq_try_push_rejects.
  - intros task Hp. unfold post in Hp. destruct (tq_push _ _) as [[? ?]|] eqn:Htp; [done|].
    by eapply tq_push_blocks.
Qed.
End properties.

(** Two workers; three tasks; the third is posted when the queue is full.  The
    second worker overtakes the first between its pop and its call. *)
Definition three_tasks : list (tasks_command Z) :=
  [TPost 1; TPost 2; TTryPost 3; TWork 0; TTryPost 3; TWork 1; TWork 1].

Definition drained : list (tasks_command Z) :=
  three_tasks ++ [TStop true; TStopNext] ++ replicate 7 (TWork 1) ++ replicate 4 (TWork 0) ++ [TStopNext].

Definition stopping : list (tasks_command Z) := three_tasks ++ [TStop true; TStopNext].

Lemma tasks_exactly_once_witness : exists tr p,
  exec (new_pool 2 (task_queue (A:=Z) 2)) three_tasks = Some (tr, p) /\
  popped tr = [1; 2] /\ started tr = [2] /\ accepted tr = [1; 2; 3] /\
  accepted tr ≡ₚ ran tr ++ running p ++ in_hand p ++ tq_items (queue_ p) ++ discarded tr /\
  popped tr `sublist_of` accepted tr.
Proof.
  do 2 eexists. do 4 (split; [vm_compute; reflexivity|]).
  edestruct (tasks_exactly_once 2 (task_queue (A:=Z) 2)) as (Ha & _ & Hp & _);
    [done|by apply task_queue_ok|done|apply (exec_sound _ three_tasks); vm_compute; reflexivity|].
  split; [exact Ha|exact Hp].
Defined.

Lemma stop_drains_witness : exists tr p,
  exec (new_pool 2 (task_queue (A:=Z) 2)) drained = Some (tr, p) /\ ran tr = [2; 3; 1] /\
  accepted tr ≡ₚ ran tr.
Proof.
  do 2 eexists. split; [vm_compute; reflexivity|]. split; [reflexivity|].
  eapply (stop_drains 2 (task_queue (A:=Z) 2));
    [done|by apply task_queue_ok|done|apply (exec_sound _ drained); vm_compute; reflexivity|reflexivity|].
  apply list_elem_of_lookup_2 with (i := 7%nat). reflexivity.
Defined.

Lemma stop_completes_witness : exists tr p p1 tr2 p2,
  exec (new_pool 2 (task_queue (A:=Z) 2)) stopping = Some (tr, p) /\ work_left p = 11%nat /\
  exec p [TPost 5; TWork 1] = Some ([EvPost 5 false; EvRan 2], p1) /\
  run p1 tr2 p2 /\ tp_stopper p2 = StopDone.
Proof.
  edestruct (stop_completes 2 (task_queue (A:=Z) 2)) as [_ [Hd|(tr2 & p2 & Hr & Hd & _)]];
    [done|by apply task_queue_ok|apply (exec_sound _ stopping); vm_compute; reflexivity|reflexivity
    |apply (exec_sound _ [TPost 5; TWork 1]); vm_compute; reflexivity|discriminate Hd|].
  do 5 eexists. split; [vm_compute; reflexivity|]. split; [reflexivity|].
  split; [vm_compute; reflexivity|]. split; [exact Hr|exact Hd].
Defined.

(** One worker, two places: one task is taken, two wait, the fourth is refused. *)
Definition saturated : list (tasks_command Z) := [TPost 0; TWork 0; TTryPost 1; TTryPost 2; TTryPost 3].

Lemma backlog_bounded_witness : exists tr p,
  exec (new_pool 1 (task_queue (A:=Z) 2)) saturated = Some (tr, p) /\
  tr = [EvPost 0 true; EvTake 0; EvPost 1 true; EvPost 2 true; EvPost 3 false] /\
  pending p = 2 /\
  zlen (accepted tr) - zlen (ran tr) - zlen (discarded tr) <= Z.max 1 1 + 2.
Proof.
  do 2 eexists. split; [vm_compute; reflexivity|]. split; [reflexivity|]. split; [reflexivity|].
  edestruct (backlog_bounded 1 (task_queue (A:=Z) 2)) as [Hb _];
    [done|by apply task_queue_ok|done|apply (exec_sound _ saturated); vm_compute; reflexivity|exact Hb].
Defined.

(** Only the call that won [stopping_] waits: a second [stop(true)] returns at
    once, here while a task still runs. *)
Example second_stop_returns : exists tr p,
  exec (new_pool 1 (task_queue (A:=Z) 2)) [TPost 0; TWork 0; TWork 0; TStop true; TStop true] = Some (tr, p) /\
  EvStop true false ∈ tr /\ running p = [0] /\ tp_stopper p = StopClose.
Proof.
  do 2 eexists. split; [vm_compute; reflexivity|]. split; [|done].
  apply list_elem_of_lookup_2 with (i := 4%nat). reflexivity.
Qed.
