(* ===== verification/Futures.v ===== *)
(** * Futures

    [ThreadPool::submit]: a packaged task goes through the queue of the pool and
    its result, or its exception, reaches a future.  The tasks of the pool are
    here either plain functions ([post], [try_post]) or packaged tasks, numbered
    in the order of the calls of [submit]; what the standard library keeps for
    the pair of a packaged task and its future is one [shared_state].  What a
    task returns is arbitrary: it may depend on anything. *)

From S2P Require Import Prelude Lts BoundedQueue TaskQueue ThreadPool.

(** The [std::function<void()>] in the queue. *)
Inductive job := Posted (id : Z) | Packaged (k : nat).

#[export] Instance job_eq_dec : EqDecision job.
Proof. solve_decision. Defined.

(** How a callable ended. *)
Inductive outcome {R E : Type} := Value (r : R) | Threw (e : E).
Arguments outcome : clear implicits.

(** [Broken]: the packaged task was destroyed without having run. *)
Inductive shared_state {R E : Type} := NotReady | Ready (o : outcome R E) | Broken.
Arguments shared_state : clear implicits.

Record Futures {Q R E : Type} := mkFutures {
  f_pool : ThreadPool Q job;
  f_shared : list (shared_state R E);
  f_terminated : bool
}.
Arguments Futures : clear implicits.

Inductive fevent {R E : Type} :=
  | FSubmit (k : nat) (accepted : bool)
  | FPost (id : Z) (accepted : bool)
  | FRan (k : nat) (o : outcome R E)
  | FPosted (id : Z)
  | FTerminate
  | FDiscard (jobs : list job)
  | FPool (e : event job).
Arguments fevent : clear implicits.

Section futures.
Context {Q R E : Type} `{TaskQueue Q job}.
Implicit Types (f : Futures Q R E) (tr : list (fevent R E)).

Definition new_futures (threads : Z) (q : Q) : Futures Q R E :=
  mkFutures Q R E (new_pool threads q) [] false.

Definition with_pool f (p : ThreadPool Q job) : Futures Q R E :=
  mkFutures Q R E p (f_shared f) (f_terminated f).

Definition set_shared f (k : nat) (s : shared_state R E) : Futures Q R E :=
  mkFutures Q R E (f_pool f) (<[k := s]> (f_shared f)) (f_terminated f).

(** [std::terminate]: an exception left the function of a thread. *)
Definition terminate f : Futures Q R E := mkFutures Q R E (f_pool f) (f_shared f) true.

(** [submit], with the future it returns; [None] while it blocks.  When it is
    refused the packaged task dies with the call, and so does its future. *)
Definition submit f : option (Futures Q R E * option nat) :=
  let task := length (f_shared f) in
  match post (f_pool f) (Packaged task) with
  | Some (p, true) => Some (mkFutures Q R E p (f_shared f ++ [NotReady]) (f_terminated f), Some task)
  | Some (p, false) => Some (with_pool f p, None)
  | None => None
  end.

(** [packaged_task::operator()] keeps what the callable returned or threw; a
    second call of it would throw. *)
Definition run_packaged f (i k : nat) (o : outcome R E) : Futures Q R E * bool :=
  match f_shared f !! k with
  | Some NotReady => (set_shared (with_pool f (run_returned (f_pool f) i)) k (Ready o), true)
  | _ => (terminate f, false)
  end.

(** The destructor of a task that [clear] drops breaks its promise. *)
Definition destroy (shared : list (shared_state R E)) (j : job) : list (shared_state R E) :=
  match j with
  | Packaged k => match shared !! k with Some NotReady => <[k := Broken]> shared | _ => shared end
  | Posted _ => shared
  end.

Definition discard f (jobs : list job) (p : ThreadPool Q job) : Futures Q R E :=
  mkFutures Q R E p (fold_left destroy jobs (f_shared f)) (f_terminated f).

(** [future::get]: the result, [None] while it blocks; [None] inside is the
    [future_error] of a broken promise. *)
Definition get f (k : nat) : option (option (outcome R E)) :=
  match f_shared f !! k with
  | Some (Ready o) => Some (Some o)
  | Some Broken => Some None
  | _ => None
  end.

(** The events of the pool that concern no particular task's end. *)
Definition quiet (e : event job) : bool :=
  match e with EvTake _ | EvStart _ | EvCounted | EvExit | EvStop _ _ | EvClosed | EvStopped => true | _ => false end.

Inductive fstep : Futures Q R E -> fevent R E -> Futures Q R E -> Prop :=
  | fstep_submit f f' r :
      f_terminated f = false -> submit f = Some (f', r) ->
      fstep f (FSubmit (length (f_shared f)) (bool_decide (is_Some r))) f'
  | fstep_post f id ok p' :
      f_terminated f = false -> post (f_pool f) (Posted id) = Some (p', ok) ->
      fstep f (FPost id ok) (with_pool f p')
  | fstep_try_post f id ok p' :
      f_terminated f = false -> try_post (f_pool f) (Posted id) = (p', ok) ->
      fstep f (FPost id ok) (with_pool f p')
  | fstep_ran f i k o f' :
      f_terminated f = false -> workers_ (f_pool f) !! i = Some (WRunning (Packaged k)) ->
      run_packaged f i k o = (f', true) -> fstep f (FRan k o) f'
  | fstep_ran_twice f i k o f' :
      f_terminated f = false -> workers_ (f_pool f) !! i = Some (WRunning (Packaged k)) ->
      run_packaged f i k o = (f', false) -> fstep f FTerminate f'
  | fstep_posted f i id :
      f_terminated f = false -> workers_ (f_pool f) !! i = Some (WRunning (Posted id)) ->
      fstep f (FPosted id) (with_pool f (run_returned (f_pool f) i))
  | fstep_posted_threw f i id :
      f_terminated f = false -> workers_ (f_pool f) !! i = Some (WRunning (Posted id)) ->
      fstep f FTerminate (terminate f)
  | fstep_discard f jobs p' :
      f_terminated f = false -> step (f_pool f) (EvDiscard jobs) p' ->
      fstep f (FDiscard jobs) (discard f jobs p')
  | fstep_pool f e p' :
      f_terminated f = false -> quiet e = true -> step (f_pool f) e p' ->
      fstep f (FPool e) (with_pool f p').

#[export] Instance futures_lts : LTS (Futures Q R E) (fevent R E) := fstep.

(** ** The pool underneath *)

Definition pool_events (e : fevent R E) : list (event job) :=
  match e with
  | FSubmit k ok => [EvPost (Packaged k) ok]
  | FPost id ok => [EvPost (Posted id) ok]
  | FRan k _ => [EvRan (Packaged k)]
  | FPosted id => [EvRan (Posted id)]
  | FTerminate => []
  | FDiscard jobs => [EvDiscard jobs]
  | FPool e => [e]
  end.

(** What the runs of packaged task [k] ended with. *)
Definition outcomes_by (k : nat) (e : fevent R E) : list (outcome R E) :=
  match e with FRan k' o => if decide (k' = k) then [o] else [] | _ => [] end.
Definition outcomes (k : nat) tr := tr ≫= outcomes_by k.

Definition is_task (k : nat) (j : job) : bool := bool_decide (j = Packaged k).

Lemma fstep_under f e f' : fstep f e f' -> run (f_pool f) (pool_events e) (f_pool f').
Proof.
  destruct 1 as [f f' r _ Hs|f id ok p' _ Hp|f id ok p' _ Hp|f i k o f' _ Hw Hr|f i k o f' _ Hw Hr
                |f i id _ Hw|f i id _ Hw|f jobs p' _ Hp|f e p' _ _ Hp]; simpl.
  - apply run_one. unfold submit in Hs.
    destruct (post (f_pool f) _) as [[p []]|] eqn:Hp; simplify_eq/=; by apply step_post.
  - by apply run_one, step_post.
  - by apply run_one, step_try_post.
  - apply run_one. unfold run_packaged in Hr.
    destruct (f_shared f !! k) as [[]|]; simplify_eq/=. by apply step_ran.
  - unfold run_packaged in Hr. destruct (f_shared f !! k) as [[]|]; simplify_eq/=; constructor.
  - by apply run_one, step_ran.
  - constructor.
  - by apply run_one.
  - by apply run_one.
Qed.

Lemma frun_under threads q tr f :
  run (new_futures threads q) tr f -> run (new_pool threads q) (tr ≫= pool_events) (f_pool f).
Proof.
  induction 1 as [|tr e f f' Hr IH Hs]; [constructor|]. rewrite bind_app. simpl. rewrite app_nil_r.
  eapply run_trans; [exact IH|by apply fstep_under].
Qed.

(** ** What each event does to the shared states *)

Lemma destroy_all_length jobs (shared : list (shared_state R E)) :
  length (fold_left destroy jobs shared) = length shared.
Proof.
  revert shared. induction jobs as [|j jobs IH]; intros shared; [done|]. simpl. rewrite IH.
  unfold destroy. destruct j as [|k]; [done|]. destruct (shared !! k) as [[]|]; rewrite ?length_insert; done.
Qed.

Lemma destroy_all_lookup jobs (shared : list (shared_state R E)) k :
  fold_left destroy jobs shared !! k =
  match shared !! k with
  | Some NotReady => Some (if decide (Packaged k ∈ jobs) then Broken else NotReady)
  | s => s
  end.
Proof.
  revert shared. induction jobs as [|j jobs IH]; intros shared; simpl.
  - by destruct (shared !! k) as [[]|].
  - rewrite IH. destruct j as [id|k']; simpl.
    + destruct (shared !! k) as [[]|]; try done. do 2 f_equal. apply decide_ext. set_solver.
    + destruct (decide (k' = k)) as [->|Hne].
      * destruct (shared !! k) as [[]|] eqn:Hk; rewrite ?Hk; try done.
        rewrite list_lookup_insert_eq by (by eapply lookup_lt_Some).
        by rewrite decide_True by set_solver.
      * assert (Hsame : match shared !! k' with
                        | Some NotReady => <[k' := Broken]> shared
                        | _ => shared
                        end !! k = shared !! k).
        { destruct (shared !! k') as [[]|]; rewrite ?list_lookup_insert_ne by done; done. }
        rewrite Hsame. destruct (shared !! k) as [[]|]; try done.
        do 2 f_equal. apply decide_ext. set_solver.
Qed.

(** A packaged task runs exactly as often as [FRan] says. *)
Lemma ran_outcomes threads q tr f k :
  run (new_futures threads q) tr f ->
  countb (is_task k) (ran (tr ≫= pool_events)) = length (outcomes k tr).
Proof.
  induction 1 as [|tr e f f' Hr IH Hs]; [done|].
  unfold ran, outcomes in *. rewrite !bind_app, countb_app, length_app, IH. f_equal.
  destruct Hs; simpl; rewrite ?app_nil_r; try done.
  - rewrite countb_cons, countb_nil. unfold is_task. case_bool_decide; case_decide; congruence || done.
  - by destruct e.
Qed.

(** ** The invariant *)

(** What the shared state of task [k] says of the past. *)
Definition promise_kept (k : nat) tr (s : shared_state R E) : Prop :=
  match s with
  | NotReady => outcomes k tr = [] /\ Packaged k ∉ discarded (tr ≫= pool_events)
  | Ready o => outcomes k tr = [o] /\ Packaged k ∉ discarded (tr ≫= pool_events)
  | Broken => outcomes k tr = [] /\ Packaged k ∈ discarded (tr ≫= pool_events)
  end.

Record futures_inv tr f : Prop := {
  fi_accepted k : countb (is_task k) (accepted (tr ≫= pool_events))
                  = (if decide (k < length (f_shared f)) then 1 else 0)%nat;
  fi_kept k s : f_shared f !! k = Some s -> promise_kept k tr s
}.

Lemma is_task_elem k (l : list job) : (0 < countb (is_task k) l)%nat <-> Packaged k ∈ l.
Proof.
  split.
  - intros (x & Hx & ->%bool_decide_eq_true)%countb_elem_inv. done.
  - intros Hk. eapply countb_le_elem; [done|]. by apply bool_decide_eq_true.
Qed.

(** Where task [k] is. *)
Lemma task_somewhere threads q tr f k :
  0 <= threads -> tq_ok q -> tq_items q = [] -> run (new_futures threads q) tr f -> futures_inv tr f ->
  (countb (is_task k) (tq_items (queue_ (f_pool f))) + countb (is_task k) (held (f_pool f))
   + length (outcomes k tr) + countb (is_task k) (discarded (tr ≫= pool_events))
   = if decide (k < length (f_shared f)) then 1 else 0)%nat.
Proof.
  intros Ht Hq Hi Hr Hinv. rewrite <-(fi_accepted tr f Hinv).
  rewrite (run_tasks _ threads q _ (f_pool f)) by (done || by apply frun_under).
  rewrite !countb_app, (ran_outcomes threads q tr f k Hr). lia.
Qed.

Lemma pool_accepted_snoc tr e :
  accepted ((tr ++ [e]) ≫= pool_events) = accepted (tr ≫= pool_events) ++ accepted (pool_events e).
Proof. unfold accepted. rewrite !bind_app. simpl. by rewrite app_nil_r. Qed.

Lemma pool_discarded_snoc tr e :
  discarded ((tr ++ [e]) ≫= pool_events) = discarded (tr ≫= pool_events) ++ discarded (pool_events e).
Proof. unfold discarded. rewrite !bind_app. simpl. by rewrite app_nil_r. Qed.

Lemma outcomes_snoc k tr e : outcomes k (tr ++ [e]) = outcomes k tr ++ outcomes_by k e.
Proof. unfold outcomes. rewrite bind_app. simpl. by rewrite app_nil_r. Qed.

(** Only an accepted [submit] makes a task, and it is the next one. *)
Lemma fstep_accepted f e f' k :
  fstep f e f' ->
  ((if decide (k < length (f_shared f)) then 1 else 0) + countb (is_task k) (accepted (pool_events e))
   = if decide (k < length (f_shared f')) then 1 else 0)%nat.
Proof.
  intros Hs. assert (Hquiet : forall id ok, countb (is_task k) (accepted [EvPost (Posted id) ok]) = 0%nat)
    by (intros id []; done).
  destruct Hs as [f f' r _ Hs|f id ok p' _ Hp|f id ok p' _ Hp|f i k0 o f' _ Hw Hr|f i k0 o f' _ Hw Hr
                 |f i id _ Hw|f i id _ Hw|f jobs p' _ Hp|f e p' _ Hq Hp]; simpl pool_events; rewrite ?Hquiet;
    try (simpl; rewrite ?destroy_all_length, ?countb_nil; lia).
  - unfold submit in Hs. destruct (post (f_pool f) _) as [[p []]|] eqn:Hp; simplify_eq/=; [|rewrite countb_nil; lia].
    rewrite length_app, countb_cons, countb_nil. unfold is_task. simpl.
    destruct (decide (k = length (f_shared f))) as [->|Hne].
    + rewrite bool_decide_true by done. repeat case_decide; simpl; lia.
    + rewrite bool_decide_false by congruence. repeat case_decide; simpl; lia.
  - unfold run_packaged in Hr. destruct (f_shared f !! k0) as [[]|]; simplify_eq/=.
    rewrite length_insert, countb_nil. lia.
  - unfold run_packaged in Hr. destruct (f_shared f !! k0) as [[]|]; simplify_eq/=; rewrite countb_nil; lia.
  - destruct e; try done; simpl; rewrite countb_nil; lia.
Qed.

(** An event that neither ends nor drops task [k] leaves its promise. *)
Lemma kept_frame k tr e s :
  outcomes_by k e = [] -> Packaged k ∉ discarded (pool_events e) ->
  promise_kept k tr s -> promise_kept k (tr ++ [e]) s.
Proof.
  intros Ho Hd. unfold promise_kept. rewrite outcomes_snoc, pool_discarded_snoc, Ho, app_nil_r.
  destruct s; set_solver.
Qed.

Lemma submit_kept threads q tr f f' r :
  0 <= threads -> tq_ok q -> tq_items q = [] -> run (new_futures threads q) tr f -> futures_inv tr f ->
  submit f = Some (f', r) ->
  forall k s, f_shared f' !! k = Some s ->
  promise_kept k (tr ++ [FSubmit (length (f_shared f)) (bool_decide (is_Some r))]) s.
Proof.
  intros Ht Hq Hi Hr Hinv Hs k s Hk.
  apply kept_frame; [done|destruct (bool_decide _); simpl; apply not_elem_of_nil|].
  unfold submit in Hs. destruct (post (f_pool f) _) as [[p []]|]; simplify_eq/=;
    [|by apply (fi_kept tr f Hinv)].
  apply lookup_app_Some in Hk as [Hk|[Hlen Hk]]; [by apply (fi_kept tr f Hinv)|].
  apply list_lookup_singleton_Some in Hk as [Hk <-]. assert (k = length (f_shared f)) as -> by lia.
  pose proof (task_somewhere threads q tr f (length (f_shared f)) Ht Hq Hi Hr Hinv) as Hz.
  rewrite decide_False in Hz by lia. simpl. split.
  - apply length_zero_iff_nil. lia.
  - rewrite <-is_task_elem. lia.
Qed.

Lemma ran_kept tr f i k0 o f' :
  futures_inv tr f -> run_packaged f i k0 o = (f', true) ->
  forall k s, f_shared f' !! k = Some s -> promise_kept k (tr ++ [FRan k0 o]) s.
Proof.
  intros Hinv Hr k s Hk. unfold run_packaged in Hr.
  destruct (f_shared f !! k0) as [[]|] eqn:Hk0; simplify_eq/=.
  apply list_lookup_insert_Some in Hk as [(-> & <- & _)|[Hne Hk]].
  - destruct (fi_kept tr f Hinv _ _ Hk0) as [Hout Hdis].
    simpl. rewrite outcomes_snoc, pool_discarded_snoc, Hout. simpl. rewrite decide_True by done.
    split; [done|]. by rewrite app_nil_r.
  - apply kept_frame; [simpl; by rewrite decide_False|apply not_elem_of_nil|].
    by apply (fi_kept tr f Hinv).
Qed.

Lemma discard_kept threads q tr f jobs p' :
  0 <= threads -> tq_ok q -> tq_items q = [] -> run (new_futures threads q) tr f -> futures_inv tr f ->
  step (f_pool f) (EvDiscard jobs) p' ->
  forall k s, fold_left destroy jobs (f_shared f) !! k = Some s ->
  promise_kept k (tr ++ [FDiscard jobs]) s.
Proof.
  intros Ht Hq Hi Hr Hinv Hs k s Hk. inversion Hs; subst.
  rewrite destroy_all_lookup in Hk. destruct (f_shared f !! k) as [s0|] eqn:Hk0; [|done].
  pose proof (fi_kept tr f Hinv k s0 Hk0) as Hkept.
  pose proof (task_somewhere threads q tr f k Ht Hq Hi Hr Hinv) as Hz.
  rewrite decide_True in Hz by (by eapply lookup_lt_Some).
  unfold promise_kept in *. rewrite outcomes_snoc, pool_discarded_snoc. simpl. rewrite !app_nil_r.
  destruct s0 as [|o|]; simplify_eq/=.
  - destruct Hkept as [Hout Hdis]. case_decide; set_solver.
  - destruct Hkept as [Hout Hdis]. split; [done|]. rewrite elem_of_app.
    intros [?|Hin%is_task_elem]; [done|]. rewrite Hout in Hz. simpl in Hz. lia.
  - set_solver.
Qed.

Lemma run_futures_inv threads q tr f :
  0 <= threads -> tq_ok q -> tq_items q = [] -> run (new_futures threads q) tr f -> futures_inv tr f.
Proof.
  intros Ht Hq Hi. induction 1 as [|tr e f f' Hr IH Hs]; [split; [done|by intros k s Hk]|].
  split.
  - intros k. rewrite pool_accepted_snoc, countb_app, (fi_accepted tr f IH). by apply fstep_accepted.
  - assert (Hframe : (forall k, outcomes_by k e = []) ->
              discarded (pool_events e) = [] -> f_shared f' = f_shared f ->
              forall k s, f_shared f' !! k = Some s -> promise_kept k (tr ++ [e]) s).
    { intros Ho Hd -> k s Hk. apply kept_frame; [done|rewrite Hd; apply not_elem_of_nil|].
      by apply (fi_kept tr f IH). }
    destruct Hs as [f f' r _ Hs|f id ok p' _ Hp|f id ok p' _ Hp|f i k0 o f' _ Hw Hs|f i k0 o f' _ Hw Hs
                   |f i id _ Hw|f i id _ Hw|f jobs p' _ Hp|f e p' _ Hquiet Hp]; try (apply Hframe; done).
    + eapply submit_kept; eauto.
    + eapply ran_kept; eauto.
    + apply Hframe; try done. unfold run_packaged in Hs.
      by destruct (f_shared f !! k0) as [[]|]; simplify_eq/=.
    + eapply discard_kept; eauto.
    + apply Hframe; try done. by destruct e.
Qed.

(** ** Consequences *)

(** The task of a worker has not run before. *)
Lemma running_not_ready threads q tr f i k :
  0 <= threads -> tq_ok q -> tq_items q = [] -> run (new_futures threads q) tr f ->
  workers_ (f_pool f) !! i = Some (WRunning (Packaged k)) -> f_shared f !! k = Some NotReady.
Proof.
  intros Ht Hq Hi Hr Hw. pose proof (run_futures_inv threads q tr f Ht Hq Hi Hr) as Hinv.
  pose proof (task_somewhere threads q tr f k Ht Hq Hi Hr Hinv) as Hz.
  assert (0 < countb (is_task k) (held (f_pool f)))%nat as Hpos.
  { apply is_task_elem, list_elem_of_bind. exists (WRunning (Packaged k)).
    split; [left|by eapply list_elem_of_lookup_2]. }
  case_decide as Hlen; [|lia]. destruct (lookup_lt_is_Some_2 _ _ Hlen) as [s Hs].
  pose proof (fi_kept tr f Hinv k s Hs) as Hk. destruct s as [|o|]; [done| |]; exfalso.
  - destruct Hk as [Ho _]. rewrite Ho in Hz. simpl in Hz. lia.
  - destruct Hk as [_ Hd%is_task_elem]. lia.
Qed.

(** A task whose future is not ready is queued or with a worker. *)
Lemma not_ready_busy threads q tr f k :
  0 <= threads -> tq_ok q -> tq_items q = [] -> run (new_futures threads q) tr f ->
  f_shared f !! k = Some NotReady ->
  Packaged k ∈ tq_items (queue_ (f_pool f)) \/ Packaged k ∈ held (f_pool f).
Proof.
  intros Ht Hq Hi Hr Hk. pose proof (run_futures_inv threads q tr f Ht Hq Hi Hr) as Hinv.
  pose proof (task_somewhere threads q tr f k Ht Hq Hi Hr Hinv) as Hz.
  destruct (fi_kept tr f Hinv k _ Hk) as [Ho Hd].
  rewrite decide_True in Hz by (by eapply lookup_lt_Some). rewrite Ho in Hz. simpl in Hz.
  rewrite <-is_task_elem in Hd. rewrite <-!is_task_elem. lia.
Qed.

Definition worker_fevent (e : fevent R E) : bool :=
  match e with FRan _ _ | FPosted _ => true | FPool e => worker_step e | _ => false end.

(** While a future is not ready a worker can go on, with less left to do; the
    task ends, if this is its end, with [out]. *)
Lemma future_progress (out : nat -> outcome R E) threads q tr f k :
  0 <= threads -> tq_ok q -> tq_items q = [] -> run (new_futures threads q) tr f ->
  f_terminated f = false -> f_shared f !! k = Some NotReady ->
  exists e f', fstep f e f' /\ worker_fevent e = true /\ f_terminated f' = false /\
    (work_left (f_pool f') < work_left (f_pool f))%nat /\
    (f_shared f' !! k = Some NotReady \/ f_shared f' !! k = Some (Ready (out k))).
Proof.
  intros Ht Hq Hi Hr Hf Hk.
  assert (pool_inv (f_pool f)) as Hinv by (eapply run_workers_inv; [done..|by apply frun_under]).
  assert (tq_items (queue_ (f_pool f)) <> [] \/ held (f_pool f) <> []) as Hbusy.
  { destruct (not_ready_busy threads q tr f k Ht Hq Hi Hr Hk) as [Hin|Hin]; [left|right];
      intros Hn; rewrite Hn in Hin; by apply not_elem_of_nil in Hin. }
  destruct (busy_progress _ Hinv Hbusy) as [(i & task & Hw)|(ev & p' & Hs & Hev & Hran & Hlt)].
  - assert (Hlt : (work_left (run_returned (f_pool f) i) < work_left (f_pool f))%nat).
    { apply work_left_insert with (WRunning task); [done|simpl; lia]. }
    destruct task as [id|k'].
    + exists (FPosted id). eexists. split; [by eapply fstep_posted|]. auto.
    + pose proof (running_not_ready threads q tr f i k' Ht Hq Hi Hr Hw) as Hk'.
      exists (FRan k' (out k')). eexists. split.
      { eapply fstep_ran; [done..|]. unfold run_packaged. by rewrite Hk'. }
      split; [done|]. split; [done|]. split; [done|]. simpl.
      destruct (decide (k' = k)) as [->|Hne].
      * right. apply list_lookup_insert_eq. by eapply lookup_lt_Some.
      * left. by rewrite list_lookup_insert_ne.
  - exists (FPool ev), (with_pool f p'). split; [|by auto].
    apply fstep_pool; [done| |done]. destruct ev as [| |task'|task'| | | | | |]; try done. by destruct (Hran task').
Qed.

Lemma future_completes (out : nat -> outcome R E) threads q tr f k :
  0 <= threads -> tq_ok q -> tq_items q = [] -> run (new_futures threads q) tr f ->
  f_terminated f = false -> f_shared f !! k = Some NotReady ->
  exists tr2 f2, run f tr2 f2 /\ forallb worker_fevent tr2 = true /\
    (length tr2 <= work_left (f_pool f))%nat /\ f_shared f2 !! k = Some (Ready (out k)).
Proof.
  intros Ht Hq Hi. remember (work_left (f_pool f)) as m eqn:Hm. revert tr f Hm.
  induction (lt_wf m) as [m _ IH]. intros tr f -> Hr Hf Hk.
  destruct (future_progress out threads q tr f k Ht Hq Hi Hr Hf Hk)
    as (e & f1 & Hs & He & Hf1 & Hlt & [Hk1|Hk1]).
  - destruct (IH _ Hlt (tr ++ [e]) f1 eq_refl) as (tr2 & f2 & Hr2 & Hw2 & Hlen & Hk2);
      [by eapply run_snoc|done|done|].
    exists (e :: tr2), f2. split; [by eapply run_cons|]. simpl. rewrite He. split; [done|].
    split; [lia|done].
  - exists [e], f1. split; [by apply run_one|]. simpl. rewrite He. split; [done|]. split; [lia|done].
Qed.

(** A program that [submit]s only never ends in [std::terminate]. *)
Lemma terminated_posted threads q tr f :
  0 <= threads -> tq_ok q -> tq_items q = [] -> run (new_futures threads q) tr f ->
  f_terminated f = true -> exists i id, workers_ (f_pool f) !! i = Some (WRunning (Posted id)).
Proof.
  intros Ht Hq Hi. induction 1 as [|tr e f f' Hr IH Hs]; [done|]. intros Hf.
  destruct Hs as [f f' r Hn Hs|f id ok p' Hn Hp|f id ok p' Hn Hp|f i k0 o f' Hn Hw Hs|f i k0 o f' Hn Hw Hs
                 |f i id Hn Hw|f i id Hn Hw|f jobs p' Hn Hp|f e p' Hn Hquiet Hp]; simpl in *; try congruence.
  - unfold submit in Hs. destruct (post (f_pool f) _) as [[p []]|]; simplify_eq/=; congruence.
  - unfold run_packaged in Hs. destruct (f_shared f !! k0) as [[]|]; simplify_eq/=; congruence.
  - pose proof (running_not_ready threads q tr f i k0 Ht Hq Hi Hr Hw) as Hk.
    unfold run_packaged in Hs. rewrite Hk in Hs. done.
  - eauto.
Qed.
End futures.

(** ** Concrete interleavings, over a [BoundedQueue] *)

Section scheduler.
Context {R E : Type}.

Inductive fcommand :=
  | CSubmit
  | CPost (id : Z)
  | CTryPost (id : Z)
  | CWork (i : nat) (o : outcome R E)
  | CThrow (i : nat)
  | CPool (c : tasks_command job).

Abbreviation queue_futures := (Futures (BoundedQueue job) R E).

(** A step of the pool below, as an event of the futures. *)
Definition lift_pool (f : queue_futures) (r : option (event job * ThreadPool (BoundedQueue job) job))
  : option (fevent R E * queue_futures) :=
  match r with
  | Some (EvDiscard jobs, p') => Some (FDiscard jobs, discard f jobs p')
  | Some (e, p') => if quiet e then Some (FPool e, with_pool f p') else None
  | None => None
  end.

Definition futures_exec1 (f : queue_futures) (c : fcommand) : option (fevent R E * queue_futures) :=
  if f_terminated f then None
  else
    match c with
    | CSubmit =>
        match submit f with
        | Some (f', r) => Some (FSubmit (length (f_shared f)) (bool_decide (is_Some r)), f')
        | None => None
        end
    | CPost id =>
        match post (f_pool f) (Posted id) with
        | Some (p', ok) => Some (FPost id ok, with_pool f p')
        | None => None
        end
    | CTryPost id => let pr := try_post (f_pool f) (Posted id) in Some (FPost id pr.2, with_pool f pr.1)
    | CWork i o =>
        match workers_ (f_pool f) !! i with
        | Some (WRunning (Packaged k)) =>
            match run_packaged f i k o with
            | (f', true) => Some (FRan k o, f')
            | (f', false) => Some (FTerminate, f')
            end
        | Some (WRunning (Posted id)) => Some (FPosted id, with_pool f (run_returned (f_pool f) i))
        | _ => lift_pool f (tasks_exec1 (f_pool f) (TWork i))
        end
    | CThrow i =>
        match workers_ (f_pool f) !! i with
        | Some (WRunning (Posted id)) => Some (FTerminate, terminate f)
        | _ => None
        end
    | CPool c => lift_pool f (tasks_exec1 (f_pool f) c)
    end.

Lemma lift_pool_sound f c e f' :
  f_terminated f = false -> lift_pool f (tasks_exec1 (f_pool f) c) = Some (e, f') -> fstep f e f'.
Proof.
  intros Ht Hx. unfold lift_pool in Hx. destruct (tasks_exec1 (f_pool f) c) as [[e1 p1]|] eqn:Hc; [|done].
  apply tasks_exec1_sound in Hc.
  destruct e1; simplify_eq/=; by (apply fstep_discard) || by (apply fstep_pool).
Qed.

Lemma futures_exec1_sound f c e f' : futures_exec1 f c = Some (e, f') -> fstep f e f'.
Proof.
  unfold futures_exec1. destruct (f_terminated f) eqn:Ht; [done|]. intros Hx.
  destruct c as [|id|id|i o|i|c].
  - destruct (submit f) as [[f1 r]|] eqn:Hs; simplify_eq. by apply fstep_submit.
  - destruct (post (f_pool f) _) as [[p1 ok]|] eqn:Hp; simplify_eq. by apply fstep_post.
  - destruct (try_post (f_pool f) (Posted id)) as [p1 ok] eqn:Hp. simplify_eq/=. by apply fstep_try_post.
  - destruct (workers_ (f_pool f) !! i) as [[|[id|k]|[id|k]| |]|] eqn:Hw; try (by eapply lift_pool_sound).
    + simplify_eq. by apply fstep_posted.
    + destruct (run_packaged f i k o) as [f1 []] eqn:Hr; simplify_eq;
        [by eapply fstep_ran|by eapply fstep_ran_twice].
  - destruct (workers_ (f_pool f) !! i) as [[|[id|k]|[id|k]| |]|] eqn:Hw; simplify_eq. by eapply fstep_posted_threw.
  - by eapply lift_pool_sound.
Qed.

#[export] Instance futures_scheduler : Scheduler queue_futures (fevent R E) fcommand :=
  {| exec1 := futures_exec1; exec1_sound := futures_exec1_sound |}.
End scheduler.
Arguments fcommand : clear implicits.

(** ** Properties *)

Section properties.
Context {Q R E : Type} `{TaskQueue Q job}.
Implicit Types (f : Futures Q R E) (tr : list (fevent R E)).


End properties.

(** One worker and two places.  The first task is run, the second throws, the
    third and the fourth are still queued when [stop(false)] comes, the fifth is
    refused. *)
Definition five_submits : list (fcommand Z Z) :=
  [CSubmit; CSubmit; CWork 0 (Value 0); CWork 0 (Value 0); CWork 0 (Value 42); CWork 0 (Value 0);
   CWork 0 (Value 0); CWork 0 (Value 0); CSubmit; CSubmit; CWork 0 (Threw 7); CPool (TStop false); CPool TStopNext; CPool TStopNext; CSubmit].

Definition one_worker : Futures (BoundedQueue job) Z Z := new_futures 1 (task_queue 2).


(** Two tasks in the queue of a pool whose worker is busy with a third. *)
Definition three_waiting : list (fcommand Z Z) :=
  [CSubmit; CWork 0 (Value 0); CWork 0 (Value 0); CPost 5; CSubmit].


(** A plain task that throws takes the program with it. *)
Example posted_throw_terminates : exists tr f,
  exec one_worker [CPost 5; CWork 0 (Value 0); CWork 0 (Value 0); CThrow 0] = Some (tr, f) /\ f_terminated f = true /\
  completed (f_pool f) = 0.
Proof. do 2 eexists. split; [vm_compute; reflexivity|done]. Qed.
