(* ===== verification/Time.v ===== *)
(** * Time

    Clock readings and the fixed-rate ticker (code/include/rdb/common/time.h).
    The clocks themselves are inputs: a reading is the signed 64-bit count of
    nanoseconds that [time_since_epoch] gives. *)

From S2P Require Import Prelude Doubles Rounding.
Open Scope Z_scope.

(** [now_ns] and [wall_ns], from the reading of their clock. *)
Definition now_ns (reading : Z) : Z := u64 reading.
Definition wall_ns (reading : Z) : Z := u64 reading.

Definition ns_to_ms (ns : Z) : double := double_div (to_double ns) (to_double 1000000).
Definition ns_to_us (ns : Z) : double := double_div (to_double ns) (to_double 1000).

Record Ticker := mkTicker { period_ : Z; next_ : Z }.

(** [Ticker(hz)], constructed when the clock reads [now]. *)
Definition new_ticker (hz : double) (now : Z) : option Ticker :=
  let rate := if SFltb (S754_zero false) hz then hz else to_double 1 in
  period ← to_int64 (double_div (to_double 1000000000) rate);
  Some (mkTicker period now).

(** [sleep_until_next], with the clock reading between: whether a beat was missed;
    otherwise the thread sleeps until [next_].  [None]: the time overflows. *)
Definition sleep_until_next (t : Ticker) (now : Z) : option (Ticker * bool) :=
  next ← tp_add (next_ t) (period_ t);
  if next <=? now then Some (mkTicker (period_ t) now, true)
  else Some (mkTicker (period_ t) next, false).

(** The rate is an integer: there is a ticker of that rate, and its period is at
    most a second. *)
Lemma new_ticker_total z :
  exists p, 0 <= p <= 1000000000 /\ forall now, new_ticker (to_double z) now = Some (mkTicker p now).
Proof.
  unfold new_ticker. destruct (SFltb (S754_zero false) (to_double z)) eqn:Hz;
    [|exists 1000000000; split; [lia|done]].
  destruct z as [|x|x]; [done| |].
  - assert (Hb : exists p, to_int64 (double_div (to_double 1000000000) (to_double (Z.pos x))) = Some p /\
                   0 <= p <= 1000000000); [|destruct Hb as (p & -> & Hp); by exists p].
    pose proof (to_double_mono 1 (Z.pos x) ltac:(lia)) as Hle.
    destruct (nonneg_cases _ (to_double_nonneg (Z.pos x) ltac:(lia))) as [[s Hx]|[Hx|(m & e & Hx & Hc & _)]];
      rewrite Hx in *; [done|by exists 0|].
    change (to_double 1) with (S754_finite false (Z.to_pos (2 ^ 52)) (-52)) in Hle.
    change (to_double 1000000000) with (S754_finite false (Z.to_pos (1000000000 * 2 ^ 23)) (-23)).
    apply to_int64_bound; [apply double_div_nonneg; by repeat split|].
    change (to_double 1000000000) with (double_div (S754_finite false (Z.to_pos (1000000000 * 2 ^ 23)) (-23))
      (S754_finite false (Z.to_pos (2 ^ 52)) (-52))).
    apply double_div_anti; [by repeat split|done|done].
  - exfalso. unfold to_double, binary_normalize in Hz.
    unfold binary_round, binary_round_aux in Hz. by repeat case_match.
Qed.

(** A loop that calls it at these readings. *)
Fixpoint ticks (t : Ticker) (readings : list Z) : option (Ticker * list bool) :=
  match readings with
  | [] => Some (t, [])
  | now :: readings =>
      r ← sleep_until_next t now;
      rest ← ticks r.1 readings;
      Some (rest.1, r.2 :: rest.2)
  end.

(** The beat after the ones already counted. *)
Definition beat (t : Ticker) (k : nat) : Z := next_ t + Z.of_nat k * period_ t.

Lemma sleep_on_time t now :
  tp_min <= beat t 1 <= tp_max -> now < beat t 1 ->
  sleep_until_next t now = Some (mkTicker (period_ t) (beat t 1), false).
Proof.
  unfold beat. intros Hb Hn. unfold sleep_until_next, tp_add.
  replace (Z.of_nat 1 * period_ t) with (period_ t) in * by lia.
  rewrite (proj2 (andb_true_iff _ _)) by lia. simpl. by rewrite (proj2 (Z.leb_gt _ _)) by lia.
Qed.

Section properties.
(** The ticker does not drift: as long as each round is done before its beat,
    the k-th call sleeps until exactly the start plus k periods, whatever the
    rounds took. *)
Theorem ticker_no_drift (t : Ticker) (readings : list Z) :
  0 < period_ t -> tp_min <= next_ t -> beat t (length readings) <= tp_max ->
  (forall k now, readings !! k = Some now -> now < beat t (S k)) ->
  ticks t readings =
    Some (mkTicker (period_ t) (beat t (length readings)), replicate (length readings) false).
Proof.
  revert t. induction readings as [|now readings IH]; intros t Hp Hmin Hmax Hk.
  { unfold beat. simpl. rewrite Z.add_0_r. by destruct t. }
  unfold beat in Hmax. simpl length in Hmax.
  cbn [ticks]. rewrite sleep_on_time; [|unfold beat; nia|by apply (Hk 0%nat)].
  cbn [mbind option_bind fst snd].
  assert (Hbeat : forall k, beat (mkTicker (period_ t) (beat t 1)) k = beat t (S k)).
  { intros k. unfold beat. simpl next_. simpl period_. lia. }
  rewrite IH; simpl period_; [|done|unfold beat; simpl next_; lia| |].
  - by rewrite Hbeat.
  - rewrite Hbeat. unfold beat. simpl length. lia.
  - intros k now' Hnow. rewrite Hbeat. by apply (Hk (S k)).
Qed.

Lemma ticker_no_drift_witness :
  ticks (mkTicker 1000 0) [10; 1999; 2500] = Some (mkTicker 1000 3000, [false; false; false]).
Proof.
  apply (ticker_no_drift (mkTicker 1000 0) [10; 1999; 2500]); [done|done|done|].
  intros [|[|[|k]]] now Hk; simplify_eq/=; done.
Defined.

(** 50 Hz; a rate that is not positive counts as 1 Hz. *)
Example ticker_rates :
  new_ticker (to_double 50) 7 = Some (mkTicker 20000000 7) /\
  new_ticker (to_double (-3)) 7 = Some (mkTicker 1000000000 7).
Proof. vm_compute. auto. Qed.

(** Above 1 GHz the period is zero, and every call reports a missed beat. *)
Example ticker_zero_period :
  (t ← new_ticker (to_double 2000000000) 7; sleep_until_next t 7) = Some (mkTicker 0 7, true).
Proof. vm_compute. auto. Qed.
End properties.
