(* ===== verification/Args.v ===== *)
(** * Args

    The command line of the benchmarks (code/bench/args.h): [--name value] and
    [--flag].  [argv] is the list of the [argc] arguments, the program's name
    first; a C string is a [string]. *)

From S2P Require Import Prelude Decimal.
From Stdlib Require Import Strings.Ascii.
Open Scope Z_scope.

(** ** [std::atoll] *)

(** [isspace] in the "C" locale. *)
Definition is_space (c : ascii) : bool :=
  let n := nat_of_ascii c in (n =? 32)%nat || ((9 <=? n) && (n <=? 13))%nat.

Fixpoint skip_spaces (s : string) : string :=
  match s with
  | String c s' => if is_space c then skip_spaces s' else s
  | EmptyString => s
  end.

(** The value does not fit a [long long]: undefined, [None]. *)
Definition atoll (s : string) : option Z :=
  let value :=
    match skip_spaces s with
    | String "-" s' => - read_digits 0 s'
    | String "+" s' => read_digits 0 s'
    | s' => read_digits 0 s'
    end in
  if (- 2 ^ 63 <=? value) && (value <? 2 ^ 63) then Some value else None.

(** ** The three scans *)

(** [for (i = 1; i + 1 < argc; ++i)]: the argument after the first one equal to
    [name]. [rest] is [argv + i]. *)
Fixpoint scan_value (rest : list string) (name : string) : option string :=
  match rest with
  | arg :: ((value :: _) as rest') =>
      if String.eqb arg name then Some value else scan_value rest' name
  | _ => None
  end.

Definition arg_int (argv : list string) (name : string) (fallback : Z) : option Z :=
  match scan_value (tail argv) name with
  | Some value => atoll value
  | None => Some fallback
  end.

Definition arg_str (argv : list string) (name fallback : string) : string :=
  match scan_value (tail argv) name with
  | Some value => value
  | None => fallback
  end.

(** [for (i = 1; i < argc; ++i)]. *)
Fixpoint scan_flag (rest : list string) (name : string) : bool :=
  match rest with
  | arg :: rest' => if String.eqb arg name then true else scan_flag rest' name
  | [] => false
  end.

Definition arg_flag (argv : list string) (name : string) : bool := scan_flag (tail argv) name.

(** ** Lemmas *)

(** The first position of [name] that has an argument after it. *)
Definition first_at (rest : list string) (name : string) (i : nat) : Prop :=
  rest !! i = Some name /\ forall j, (j < i)%nat -> rest !! j <> Some name.

Lemma scan_value_some rest name v :
  scan_value rest name = Some v <-> exists i, first_at rest name i /\ rest !! S i = Some v.
Proof.
  unfold first_at. revert v. induction rest as [|a rest IH]; intros v; simpl.
  { split; [done|]. intros (i & [Hi _] & _). by rewrite lookup_nil in Hi. }
  destruct rest as [|b rest].
  { split; [done|]. intros (i & _ & Hi). done. }
  destruct (String.eqb_spec a name) as [->|Hne].
  - split.
    + intros [= ->]. exists 0%nat. split; [|done]. split; [done|lia].
    + intros ([|i] & [_ Hj] & Hv); [done|]. exfalso. by apply (Hj 0%nat); [lia|].
  - rewrite IH. split; intros (i & [Hi Hj] & Hv).
    + exists (S i). split; [|done]. split; [done|]. intros [|j] Hlt; [simpl; congruence|]. apply (Hj j). lia.
    + destruct i as [|i]; [simpl in Hi; congruence|]. exists i. split; [|done]. split; [done|].
      intros j Hlt. apply (Hj (S j)). lia.
Qed.

Lemma scan_skip arg rest name :
  String.eqb arg name = false -> scan_value (arg :: rest) name = scan_value rest name.
Proof. intros Ha. destruct rest; simpl; [done|]. by rewrite Ha. Qed.

Lemma scan_value_none rest name :
  scan_value rest name = None <-> name ∉ removelast rest.
Proof.
  induction rest as [|a rest IH]; simpl; [set_solver|].
  destruct rest as [|b rest]; [set_solver|].
  destruct (String.eqb_spec a name) as [->|Hne]; [set_solver|]. rewrite IH. set_solver.
Qed.

Lemma scan_flag_spec rest name : scan_flag rest name = true <-> name ∈ rest.
Proof.
  induction rest as [|a rest IH]; simpl; [set_solver|].
  destruct (String.eqb_spec a name) as [->|Hne]; [set_solver|]. rewrite IH. set_solver.
Qed.

(** ** Command lines *)

(** The text of [--name value] options. *)
Definition command_line (prog : string) (opts : list (string * Z)) : list string :=
  prog :: (opts ≫= fun o => [o.1; dec_signed o.2]).

(** The names that the programs use start with two dashes. *)
Definition option_name (name : string) : Prop := exists s, name = String "-" (String "-" s).

(** The value given first. *)
Fixpoint option_value (opts : list (string * Z)) (name : string) : option Z :=
  match opts with
  | [] => None
  | (n, v) :: opts => if String.eqb n name then Some v else option_value opts name
  end.

Lemma digit_not_dash c : is_Some (digit c) -> c <> "-"%char /\ c <> "+"%char /\ is_space c = false.
Proof.
  unfold digit, is_space. intros [d Hd]. split; [|split].
  - by intros ->.
  - by intros ->.
  - apply orb_false_iff. rewrite andb_false_iff, Nat.eqb_neq, !Nat.leb_gt. case_match eqn:Hc; [|done].
    apply andb_true_iff in Hc as [H1%Z.leb_le _]. lia.
Qed.

Lemma dec_signed_not_option v name : option_name name -> String.eqb (dec_signed v) name = false.
Proof.
  intros [s ->]. apply String.eqb_neq. unfold dec_signed.
  destruct (dec_head (if v <? 0 then - v else v)) as (c & s' & Hc & Hd%digit_not_dash).
  case_bool; rewrite Hc; intros [=]; tauto.
Qed.

(** [atoll] reads back what was printed. *)
Lemma atoll_dec v : - 2 ^ 63 <= v < 2 ^ 63 -> atoll (dec_signed v) = Some v.
Proof.
  intros Hv.
  assert (Hgoal : forall x, x = v ->
            (if (- 2 ^ 63 <=? x) && (x <? 2 ^ 63) then Some x else None) = Some v).
  { intros x ->. by rewrite (proj2 (andb_true_iff _ _)) by lia. }
  unfold atoll, dec_signed. case_bool.
  { apply Hgoal. change (- read_digits 0 (dec_unsigned (- v)) = v). rewrite read_dec; lia. }
  pose proof (read_dec v ltac:(lia)) as Hr. destruct (dec_head v) as (c & s & Hs & Hd).
  rewrite Hs in *. apply digit_not_dash in Hd as (Hm & Hp & Hsp). simpl skip_spaces. rewrite Hsp.
  apply Hgoal. rewrite <-Hr.
  destruct c as [[] [] [] [] [] [] [] []]; (done || by contradict Hm || by contradict Hp).
Qed.

Section properties.
(** The command line is read back: for options [--name value] printed one after
    another, [arg_int] finds the value printed after the first occurrence of the
    name, or falls back when there is none. *)
Theorem arg_int_reads_back prog opts name fallback :
  option_name name -> Forall (fun o => - 2 ^ 63 <= o.2 < 2 ^ 63) opts ->
  arg_int (command_line prog opts) name fallback =
    Some (match option_value opts name with Some v => v | None => fallback end).
Proof.
  intros Hn Hv. unfold arg_int, command_line. simpl tail.
  induction Hv as [|[n v] opts Hv _ IH]; [done|]. rewrite bind_cons. cbn [app fst snd option_value].
  destruct (String.eqb n name) eqn:Heq.
  - simpl. rewrite Heq. by apply atoll_dec.
  - by rewrite !scan_skip by auto using dec_signed_not_option.
Qed.

Lemma arg_int_reads_back_witness :
  arg_int ["bench"; "--count"; "200"; "--depth"; "-7"; "--count"; "3"] "--depth" 64 = Some (-7) /\
  arg_int ["bench"; "--count"; "200"; "--depth"; "-7"; "--count"; "3"] "--count" 64 = Some 200 /\
  arg_int ["bench"; "--count"; "200"; "--depth"; "-7"; "--count"; "3"] "--pool" 256 = Some 256.
Proof.
  pose proof (fun name => arg_int_reads_back "bench" [("--count", 200); ("--depth", -7); ("--count", 3)] name)
    as H. split; [|split].
  - apply (H "--depth"); [by eexists|]. repeat constructor; done.
  - apply (H "--count"); [by eexists|]. repeat constructor; done.
  - apply (H "--pool"); [by eexists|]. repeat constructor; done.
Defined.

(** A scan does not tell names from values: the value of [--name] counts as a flag,
    and an option without its value takes the next name for it. *)
Example value_taken_for_flag :
  arg_flag ["bench"; "--out"; "--best-effort"] "--best-effort" = true /\
  arg_int ["bench"; "--count"; "--rate"; "5"] "--count" 100 = Some 0 /\
  arg_int ["bench"; "--count"] "--count" 100 = Some 100.
Proof. vm_compute. auto. Qed.
End properties.
