(* ===== verification/BenchQueue.v ===== *)
(** * BenchQueue

    [run_bounded_queue] of code/bench/bench_queue_throughput.cpp: one consumer,
    [producers] writers and the main thread over one blocking [BoundedQueue].
    The queue's own steps are those of [QueueSystem]; this file adds the program
    point of each thread, and a scheduler.  The invariant is in [BenchQueueInv],
    progress in [BenchQueueLive], the properties in [BenchQueueTheorems]. *)

From S2P Require Import Prelude Lts BoundedQueue QueueSystem QueueTheorems Doubles.
Open Scope Z_scope.

(** ** The result of a run *)

Record Result := mkResult {
  seconds : double;
  msgs_per_sec : double;
  consumed : Z
}.

(** The last lines of a run: the clock readings around it and the counter. *)
Definition make_result (start stop n : Z) : Result :=
  let seconds := double_div (to_double (stop -u start)) (to_double 1000000000) in
  {| seconds := seconds;
     msgs_per_sec :=
       double_div (to_double n)
         (if SFltb (S754_zero false) seconds then seconds else to_double 1);
     consumed := n |}.

(** ** The threads of the program *)

(** Where the main thread is. *)
Inductive main_point :=
  | MSpawn
  | MJoin (p : nat)
  | MClose
  | MClosing
  | MJoinConsumer
  | MDone.

#[export] Instance main_point_eq_dec : EqDecision main_point.
Proof. solve_decision. Defined.

(** [b_writers] holds the loop counter [i] of every writer started so far. *)
Record bench := mkBench {
  b_queue : system Z;
  b_consumer_done : bool;
  b_consumed : Z;
  b_writers : list Z;
  b_main : main_point
}.

(** [count / producers] of two [long long]: undefined for zero, and for the one
    quotient that does not fit. *)
Definition per_producer (count producers : Z) : option Z :=
  if producers =? 0 then None
  else
    let q := Z.quot count producers in
    if (- 2 ^ 63 <=? q) && (q <? 2 ^ 63) then Some q else None.

(** The threads of the queue system: the consumer, the main thread, writer [p]. *)
Definition consumer_id : nat := 0.
Definition main_id : nat := 1.
Definition writer_id (p : nat) : nat := S (S p).

Definition bench_init (capacity producers now : Z) : bench :=
  {| b_queue := init (u64 capacity) Block (2 + Z.to_nat producers) now;
     b_consumer_done := false;
     b_consumed := 0;
     b_writers := [];
     b_main := MSpawn |}.

(** The consumer's loop body, once [pop] has run a section. *)
Definition consume (s : section Z (option Z)) (n : Z) : bool * Z :=
  match sec_outcome s with
  | Returned None => (true, n)
  | Returned (Some _) => (false, n +u 1)
  | Sleeps _ _ => (false, n)
  end.

(** The writer's loop counter, once [push] has run a section; the status it
    returns is ignored. *)
Definition advance (s : section Z PushStatus) (i : Z) : Z :=
  match sec_outcome s with
  | Returned _ => i + 1
  | Sleeps _ _ => i
  end.

Definition with_queue (β : bench) (σ : system Z) : bench :=
  mkBench σ (b_consumer_done β) (b_consumed β) (b_writers β) (b_main β).
Definition with_main (β : bench) (m : main_point) : bench :=
  mkBench (b_queue β) (b_consumer_done β) (b_consumed β) (b_writers β) m.
Definition with_writers (β : bench) (ws : list Z) : bench :=
  mkBench (b_queue β) (b_consumer_done β) (b_consumed β) ws (b_main β).

(** A section of the queue; a step of a thread outside it; a thread woken for no
    reason; time. *)
Inductive bench_event :=
  | BQueue (e : event Z)
  | BControl
  | BSpurious
  | BTick.

(** The steps that a thread of the program takes. *)
Definition thread_step (e : bench_event) : bool :=
  match e with BQueue _ | BControl => true | BSpurious | BTick => false end.
Definition is_spurious (e : bench_event) : bool :=
  match e with BSpurious => true | _ => false end.

Section bench.
Variables (producers per : Z).

Inductive bench_step : bench -> bench_event -> bench -> Prop :=
  | bench_consume β s σ' done' n' :
      b_consumer_done β = false ->
      step (b_queue β) (EvPop consumer_id tp_max s) σ' ->
      consume s (b_consumed β) = (done', n') ->
      bench_step β (BQueue (EvPop consumer_id tp_max s))
        (mkBench σ' done' n' (b_writers β) (b_main β))
  | bench_spawn β :
      b_main β = MSpawn -> zlen (b_writers β) < producers ->
      bench_step β BControl (with_writers β (b_writers β ++ [0]))
  | bench_spawned β :
      b_main β = MSpawn -> producers <= zlen (b_writers β) ->
      bench_step β BControl (with_main β (MJoin 0))
  | bench_write β p i s σ' :
      b_writers β !! p = Some i -> i < per ->
      step (b_queue β) (EvPush (writer_id p) (u64 i) tp_max s) σ' ->
      bench_step β (BQueue (EvPush (writer_id p) (u64 i) tp_max s))
        (with_writers (with_queue β σ') (<[p := advance s i]> (b_writers β)))
  | bench_join β p i :
      b_main β = MJoin p -> b_writers β !! p = Some i -> per <= i ->
      bench_step β BControl (with_main β (MJoin (S p)))
  | bench_joined β p :
      b_main β = MJoin p -> b_writers β !! p = None ->
      bench_step β BControl (with_main β MClose)
  | bench_close β σ' :
      b_main β = MClose -> step (b_queue β) (EvClose main_id) σ' ->
      bench_step β (BQueue (EvClose main_id)) (with_main (with_queue β σ') MClosing)
  | bench_closing β σ' :
      b_main β = MClosing -> step (b_queue β) (EvClosing main_id) σ' ->
      bench_step β (BQueue (EvClosing main_id)) (with_queue β σ')
  | bench_closed β :
      b_main β = MClosing -> sys_threads (b_queue β) !! main_id = Some Idle ->
      bench_step β BControl (with_main β MJoinConsumer)
  | bench_join_consumer β :
      b_main β = MJoinConsumer -> b_consumer_done β = true ->
      bench_step β BControl (with_main β MDone)
  | bench_spurious β σ' :
      step (b_queue β) EvInternal σ' -> sys_threads σ' <> sys_threads (b_queue β) ->
      bench_step β BSpurious (with_queue β σ')
  | bench_tick β σ' :
      step (b_queue β) EvInternal σ' -> sys_threads σ' = sys_threads (b_queue β) ->
      bench_step β BTick (with_queue β σ').
End bench.

#[export] Instance bench_lts producers per : LTS bench bench_event := bench_step producers per.

(** What a run of the program is to its queue. *)
Definition queue_event (e : bench_event) : list (event Z) :=
  match e with
  | BQueue e => [e]
  | BControl => []
  | BSpurious | BTick => [EvInternal]
  end.

Definition queue_trace (tr : list bench_event) : list (event Z) := tr ≫= queue_event.

Lemma queue_trace_snoc tr e : queue_trace (tr ++ [e]) = queue_trace tr ++ queue_event e.
Proof. unfold queue_trace. rewrite bind_app. simpl. by rewrite app_nil_r. Qed.

Lemma queue_trace_queue tr e : queue_trace (tr ++ [BQueue e]) = queue_trace tr ++ [e].
Proof. apply queue_trace_snoc. Qed.

(** The messages that the queue took, each with the writer that sent it. *)
Definition tagged_by (e : bench_event) : list (nat * Z) :=
  match e with BQueue (EvPush (S (S p)) v _ s) => pair p <$> sec_accepted v s | _ => [] end.
Definition tagged (tr : list bench_event) : list (nat * Z) := tr ≫= tagged_by.

(** Of tagged messages those of writer [p]. *)
Definition from_writer (p : nat) (l : list (nat * Z)) : list Z := (filter (fun m => m.1 = p) l).*2.

Lemma tagged_snoc tr e : tagged (tr ++ [e]) = tagged tr ++ tagged_by e.
Proof. unfold tagged. rewrite bind_app. simpl. by rewrite app_nil_r. Qed.

Lemma from_writer_app p l k : from_writer p (l ++ k) = from_writer p l ++ from_writer p k.
Proof. unfold from_writer. by rewrite filter_app, fmap_app. Qed.

Lemma from_writer_same p (l : list Z) : from_writer p (pair p <$> l) = l.
Proof.
  unfold from_writer. induction l as [|v l IH]; [done|]. cbn [fmap list_fmap].
  rewrite filter_cons_True by done. cbn [fmap list_fmap snd]. by f_equal.
Qed.

Lemma from_writer_other p p' (l : list Z) : p' <> p -> from_writer p (pair p' <$> l) = [].
Proof.
  intros Hne. unfold from_writer. induction l as [|v l IH]; [done|]. cbn [fmap list_fmap].
  by rewrite filter_cons_False.
Qed.

Lemma queue_trace_control tr : queue_trace (tr ++ [BControl]) = queue_trace tr.
Proof. rewrite queue_trace_snoc. apply app_nil_r. Qed.

(** The messages a writer has sent once its counter is [i]. *)
Definition sent (i : Z) : list Z := u64 <$> seqZ 0 i.

Lemma sent_succ i : 0 <= i -> sent (i + 1) = sent i ++ [u64 i].
Proof. intros Hi. unfold sent. rewrite seqZ_app by lia. by rewrite fmap_app. Qed.

Lemma sent_max i : sent (Z.max 0 i) = sent i.
Proof.
  unfold sent. destruct (decide (0 <= i)); [by rewrite Z.max_r|].
  rewrite Z.max_l by lia. by rewrite (seqZ_nil 0 i) by lia.
Qed.

Lemma zlen_sent i : zlen (sent i) = Z.max 0 i.
Proof. unfold zlen, sent. rewrite length_fmap, length_seqZ. lia. Qed.

(** ** A scheduler *)
Section scheduler.
Variables (producers per : Z).

Inductive bench_command := DoConsume | DoWrite (p : nat) | DoMain.

Definition is_idle (t : option (thread Z)) : bool :=
  match t with Some Idle => true | _ => false end.

(** Run thread [j]: a first section if it is idle, else the one it waits in. *)
Definition run_thread (σ : system Z) (j : nat) (first : command Z) : option (event Z * system Z) :=
  queue_exec1 σ (if decide (is_idle (sys_threads σ !! j)) then first else CResume j).

Definition consumer_exec (β : bench) : option (bench_event * bench) :=
  if b_consumer_done β then None
  else match run_thread (b_queue β) consumer_id (CPop consumer_id tp_max) with
       | Some (EvPop O d s, σ') =>
           if d =? tp_max then
             let r := consume s (b_consumed β) in
             Some (BQueue (EvPop consumer_id tp_max s), mkBench σ' r.1 r.2 (b_writers β) (b_main β))
           else None
       | _ => None
       end.

Definition writer_exec (β : bench) (p : nat) : option (bench_event * bench) :=
  match b_writers β !! p with
  | Some i =>
      if i <? per then
        match run_thread (b_queue β) (writer_id p) (CPush (writer_id p) (u64 i) tp_max) with
        | Some (EvPush j v d s, σ') =>
            if decide (j = writer_id p) then
              if (v =? u64 i) && (d =? tp_max) then
                Some (BQueue (EvPush (writer_id p) (u64 i) tp_max s),
                      with_writers (with_queue β σ') (<[p := advance s i]> (b_writers β)))
              else None
            else None
        | _ => None
        end
      else None
  | None => None
  end.

Definition main_exec (β : bench) : option (bench_event * bench) :=
  match b_main β with
  | MSpawn =>
      Some (BControl, if zlen (b_writers β) <? producers then with_writers β (b_writers β ++ [0])
                      else with_main β (MJoin 0))
  | MJoin p =>
      match b_writers β !! p with
      | Some i => if per <=? i then Some (BControl, with_main β (MJoin (S p))) else None
      | None => Some (BControl, with_main β MClose)
      end
  | MClose =>
      match queue_exec1 (b_queue β) (CClose main_id) with
      | Some (EvClose 1, σ') => Some (BQueue (EvClose main_id), with_main (with_queue β σ') MClosing)
      | _ => None
      end
  | MClosing =>
      if decide (is_idle (sys_threads (b_queue β) !! main_id)) then
        Some (BControl, with_main β MJoinConsumer)
      else match queue_exec1 (b_queue β) (CCloseNext main_id) with
           | Some (EvClosing 1, σ') => Some (BQueue (EvClosing main_id), with_queue β σ')
           | _ => None
           end
  | MJoinConsumer => if b_consumer_done β then Some (BControl, with_main β MDone) else None
  | MDone => None
  end.

Definition bench_exec1 (β : bench) (c : bench_command) : option (bench_event * bench) :=
  match c with
  | DoConsume => consumer_exec β
  | DoWrite p => writer_exec β p
  | DoMain => main_exec β
  end.

Lemma bq_exec1_sound β c e β' :
  bench_exec1 β c = Some (e, β') -> bench_step producers per β e β'.
Proof.
  destruct c as [|p|]; simpl; unfold consumer_exec, writer_exec, main_exec, run_thread; intros Hx;
    repeat case_match; simplify_eq;
    repeat match goal with
    | H : queue_exec1 _ _ = Some _ |- _ => apply queue_exec1_sound in H
    | H : andb _ _ = true |- _ => apply andb_true_iff in H as [? ?]
    | H : (_ =? _) = true |- _ => apply Z.eqb_eq in H; subst
    | H : (_ <? _) = true |- _ => apply Z.ltb_lt in H
    | H : (_ <? _) = false |- _ => apply Z.ltb_ge in H
    | H : (_ <=? _) = true |- _ => apply Z.leb_le in H
    end; eauto using bench_step.
  1,2: apply bench_consume; [done|done|apply surjective_pairing].
  apply bench_closed; [done|]. unfold is_idle in *. by repeat case_match; simplify_eq.
Qed.

#[export] Instance bench_scheduler : Scheduler (H := bench_lts producers per) bench bench_event bench_command :=
  {| exec1 := bench_exec1; exec1_sound := bq_exec1_sound |}.
End scheduler.

(** Seven messages, three writers of two each, a queue of one place: a writer
    blocks, a consumer sleeps, and the last message is never sent. *)
Definition bench_commands : list bench_command :=
  [DoConsume; DoMain; DoMain; DoWrite 0; DoWrite 1; DoConsume; DoWrite 1; DoConsume; DoWrite 0;
   DoMain; DoMain; DoConsume; DoWrite 1; DoConsume; DoMain; DoMain; DoWrite 2; DoConsume; DoWrite 2;
   DoMain; DoMain; DoMain; DoMain; DoMain; DoMain; DoConsume; DoConsume; DoMain; DoMain].

Example bench_commands_end :
  option_map (fun r => (b_main r.2, b_consumed r.2))
    (exec (H := bench_lts 3 2) (bench_init 1 3 0) bench_commands) = Some (MDone, 6).
Proof. vm_compute. reflexivity. Qed.
