(* ===== verification/BenchQueueInv.v ===== *)
(** * BenchQueueInv

    The invariant of [run_bounded_queue] ([BenchQueue]): where each thread is, what
    the queue's history says of the counters, and that every step keeps it. *)

From S2P Require Import Prelude Lts BoundedQueue QueueSystem QueueTheorems BenchQueue.
Open Scope Z_scope.

(** ** Facts about single steps of the queue *)
Section steps.
Context {T : Type}.
Implicit Types (th : list (thread T)) (σ : system T).

Lemma wake_wake (t : thread T) : wake (wake t) = wake t.
Proof. by destruct t. Qed.

(** A notification only wakes threads. *)
Lemma notified_lookup sg th th' k t' :
  notified sg th th' -> th' !! k = Some t' ->
  exists t, th !! k = Some t /\ (t' = t \/ t' = wake t).
Proof.
  destruct 1 as [|c th i t Hi Ht|c th]; intros Hk; [eauto| |].
  - destruct (decide (k = i)) as [->|Hne].
    + rewrite list_lookup_insert_eq in Hk by by eapply lookup_lt_Some. simplify_eq. eauto.
    + rewrite list_lookup_insert_ne in Hk by done. eauto.
  - rewrite list_lookup_fmap in Hk. destruct (th !! k) as [t|]; [|done]. simplify_eq/=.
    exists t. split; [done|]. unfold wake_on. case_match; auto.
Qed.

Lemma notifieds_lookup sgs th th' k t' :
  notifieds sgs th th' -> th' !! k = Some t' ->
  exists t, th !! k = Some t /\ (t' = t \/ t' = wake t).
Proof.
  induction 1 as [|sg sgs th th1 th2 Hn Hns IH]; intros Hk; [eauto|].
  destruct (IH Hk) as (t1 & Hk1 & Ht1).
  destruct (notified_lookup _ _ _ _ _ Hn Hk1) as (t & Hkt & Ht). exists t. split; [done|].
  destruct Ht1 as [->| ->], Ht as [->| ->]; rewrite ?wake_wake; auto.
Qed.

Lemma notifieds_length sgs th th' : notifieds sgs th th' -> length th' = length th.
Proof.
  induction 1 as [|sg sgs th th1 th2 Hn Hns IH]; [done|]. rewrite IH.
  destruct Hn; by rewrite ?length_insert, ?length_fmap.
Qed.

(** What a push without a deadline does to the queue and to the threads. *)
Lemma push_step_inv σ j v s σ' :
  step σ (EvPush j v tp_max s) σ' ->
  push_shape (sys_queue σ) v s /\ sys_queue σ' = sec_queue s /\
  notifieds (sec_signals s) (<[j := after_push v s]> (sys_threads σ)) (sys_threads σ') /\
  (exists t, sys_threads σ !! j = Some t /\ pusher t) /\
  (after_push v s = Idle \/ after_push v s = Pushing v tp_max false) /\
  sec_outcome s <> Returned Full.
Proof.
  intros Hs. inversion Hs as [q th now ? ? ? th' Hi s0 Hn|q th now ? ? ? aw to th' Hi Hto s0 Hn
    | | | | | | | |]; subst; simpl.
  - split; [apply push_until_shape|]. do 2 (split; [done|]). split; [by eexists|]. split.
    + unfold after_push. destruct sec_outcome as [|c d] eqn:Ho; [by left|right].
      by apply push_until_sleeps in Ho as ->.
    + intros Hf. apply (push_until_full _ _ _ now) in Hf as (_ & _ & [?|[? _]]); done.
  - split; [apply push_resume_shape|]. do 2 (split; [done|]). split; [by eexists|]. split.
    + unfold after_push. destruct sec_outcome as [|c d] eqn:Ho; [by left|right].
      by apply push_after_wait_sleeps in Ho as ->.
    + intros Hf. apply push_resume_full in Hf as (-> & _). by destruct Hto.
Qed.

Lemma pop_step_inv σ j s σ' :
  step σ (EvPop j tp_max s) σ' ->
  pop_shape (sys_queue σ) s /\ sys_queue σ' = sec_queue s /\
  notifieds (sec_signals s) (<[j := after_pop s]> (sys_threads σ)) (sys_threads σ') /\
  (after_pop s = Idle \/ after_pop s = Popping tp_max false) /\
  (sec_outcome s = Returned None -> closed_ (sys_queue σ) = true /\ items_ (sys_queue σ) = []).
Proof.
  intros Hs. inversion Hs as [| |q th now ? ? th' Hi s0 Hn|q th now ? ? aw to th' Hi Hto s0 Hn
    | | | | | |]; subst; simpl.
  - split; [apply pop_until_shape|]. do 2 (split; [done|]). split.
    + unfold after_pop. destruct sec_outcome as [|c d] eqn:Ho; [by left|right].
      by apply pop_until_sleeps in Ho as ->.
    + intros Hf. apply (pop_until_none _ _ now) in Hf as (? & [?|[?|[? _]]]); done.
  - split; [apply pop_resume_shape|]. do 2 (split; [done|]). split.
    + unfold after_pop. destruct sec_outcome as [|c d] eqn:Ho; [by left|right].
      by apply pop_after_wait_sleeps in Ho as ->.
    + intros Hf. apply pop_resume_none in Hf as (? & [?|Ht]); [done|].
      rewrite Ht in Hto. by destruct Hto.
Qed.
End steps.

(** ** The invariant of the program *)
Section invariant.
Variables (capacity producers per now : Z).

(** What each thread of the queue may be doing. *)
Definition thread_ok (β : bench) (j : nat) (t : thread Z) : Prop :=
  t = Idle \/
  match j with
  | O => b_consumer_done β = false /\ exists awake, t = Popping tp_max awake
  | S O => b_main β = MClosing /\ exists pending, t = Closing pending
  | S (S p) => exists i awake, b_writers β !! p = Some i /\ i < per /\
                 t = Pushing (u64 i) tp_max awake
  end.

Definition threads_ok (β : bench) : Prop :=
  forall j t, sys_threads (b_queue β) !! j = Some t -> thread_ok β j t.

(** Every writer started and ended. *)
Definition all_sent (ws : list Z) : Prop :=
  length ws = Z.to_nat producers /\ forall p i, ws !! p = Some i -> per <= i.

Definition joined_up_to (k : nat) (ws : list Z) : Prop :=
  length ws = Z.to_nat producers /\ forall p i, (p < k)%nat -> ws !! p = Some i -> per <= i.

Definition main_ok (β : bench) : Prop :=
  match b_main β with
  | MSpawn => closed_ (sys_queue (b_queue β)) = false
  | MJoin k => joined_up_to k (b_writers β) /\ closed_ (sys_queue (b_queue β)) = false
  | MClose => all_sent (b_writers β) /\ closed_ (sys_queue (b_queue β)) = false
  | MClosing => all_sent (b_writers β) /\ closed_ (sys_queue (b_queue β)) = true
  | MJoinConsumer => all_sent (b_writers β) /\ closed_ (sys_queue (b_queue β)) = true
  | MDone => all_sent (b_writers β) /\ closed_ (sys_queue (b_queue β)) = true /\
      b_consumer_done β = true
  end.

Record bench_inv (tr : list bench_event) (β : bench) : Prop := {
  inv_threads : threads_ok β;
  inv_count : length (sys_threads (b_queue β)) = (2 + Z.to_nat producers)%nat;
  inv_counters : forall p i, b_writers β !! p = Some i -> 0 <= i <= Z.max 0 per;
  inv_writers : (length (b_writers β) <= Z.to_nat producers)%nat;
  inv_main : main_ok β;
  inv_accepted : accepted (queue_trace tr) ≡ₚ b_writers β ≫= sent;
  inv_removed : removed (queue_trace tr) = popped (queue_trace tr);
  inv_consumed : b_consumed β = u64 (zlen (popped (queue_trace tr)));
  inv_done : b_consumer_done β = true ->
    closed_ (sys_queue (b_queue β)) = true /\ items_ (sys_queue (b_queue β)) = []
}.

Lemma run_queue tr β :
  run (H := bench_lts producers per) (bench_init capacity producers now) tr β ->
  run (init (u64 capacity) Block (2 + Z.to_nat producers) now) (queue_trace tr) (b_queue β).
Proof.
  induction 1 as [|tr e β β' Hr IH Hs]; [constructor|]. rewrite queue_trace_snoc.
  destruct Hs; simpl in *; rewrite ?app_nil_r; try done; by econstructor.
Qed.

(** A counter that moves on is one more message sent. *)
Lemma sent_insert ws p i :
  ws !! p = Some i -> 0 <= i ->
  <[p := i + 1]> ws ≫= sent ≡ₚ (ws ≫= sent) ++ [u64 i].
Proof.
  revert p. induction ws as [|w ws IH]; intros [|p] Hp Hi; simplify_eq/=.
  - change (sent (i + 1) ++ (ws ≫= sent) ≡ₚ (sent i ++ (ws ≫= sent)) ++ [u64 i]).
    rewrite sent_succ, <-!app_assoc by done. by rewrite (Permutation_app_comm [_]).
  - change (sent w ++ (<[p := i + 1]> ws ≫= sent) ≡ₚ (sent w ++ (ws ≫= sent)) ++ [u64 i]).
    by rewrite (IH p), app_assoc.
Qed.

Lemma thread_ok_wake β j t t' : thread_ok β j t -> t' = t \/ t' = wake t -> thread_ok β j t'.
Proof.
  intros Ht [->| ->]; [done|]. destruct Ht as [->|Ht]; [by left|right].
  destruct j as [|[|p]]; simpl in *.
  - destruct Ht as (? & aw & ->). eauto.
  - destruct Ht as (? & pd & ->). eauto.
  - destruct Ht as (i & aw & ? & ? & ->). eauto.
Qed.

(** The threads after thread [j] has run and notified some others. *)
Lemma threads_update β β' j t' sgs :
  threads_ok β ->
  notifieds sgs (<[j := t']> (sys_threads (b_queue β))) (sys_threads (b_queue β')) ->
  (forall k t, k <> j -> thread_ok β k t -> thread_ok β' k t) ->
  thread_ok β' j t' -> threads_ok β'.
Proof.
  intros Hok Hn Hk Hj k t Hlk. destruct (notifieds_lookup _ _ _ _ _ Hn Hlk) as (t0 & H0 & Ht).
  apply (thread_ok_wake β' k t0); [|done]. destruct (decide (k = j)) as [->|Hne].
  - apply list_lookup_insert_Some in H0 as [(_ & -> & _)|[? _]]; [|done]. done.
  - rewrite list_lookup_insert_ne in H0 by done. auto.
Qed.

(** A writer that still runs: the queue is open. *)
Lemma writing_open β p i :
  main_ok β -> b_writers β !! p = Some i -> i < per ->
  closed_ (sys_queue (b_queue β)) = false.
Proof.
  unfold main_ok, all_sent. intros Hm Hp Hi.
  destruct (b_main β); try done; try (by destruct Hm);
    destruct Hm as [[_ Hall] _]; specialize (Hall _ _ Hp); lia.
Qed.

(** On an open blocking queue a push without a deadline is accepted or waits. *)
Lemma blocking_push q v (s : section Z PushStatus) :
  push_shape q v s -> policy_ q = Block -> closed_ q = false ->
  sec_outcome s <> Returned Full ->
  sec_discarded s = [] /\ closed_ (sec_queue s) = false /\
  ((sec_outcome s = Returned Ok /\ sec_accepted v s = [v] /\ after_push v s = Idle) \/
   (exists d, sec_outcome s = Sleeps not_full_ d /\ sec_accepted v s = [] /\
      after_push v s = Pushing v d false)).
Proof.
  intros Hs Hp Hc Hf. destruct Hs; simpl in *; try congruence.
  - split_and!; [done..|]. right. by exists d.
  - split_and!; [done|by case_bool|]. by left.
Qed.

Lemma write_keeps_inv tr β p i s σ' :
  bench_inv tr β -> policy_ (sys_queue (b_queue β)) = Block ->
  b_writers β !! p = Some i -> i < per ->
  step (b_queue β) (EvPush (writer_id p) (u64 i) tp_max s) σ' ->
  bench_inv (tr ++ [BQueue (EvPush (writer_id p) (u64 i) tp_max s)])
    (with_writers (with_queue β σ') (<[p := advance s i]> (b_writers β))).
Proof.
  intros [Hth Hcnt Hctr Hnw Hm Hacc Hrem Hcon Hdone] Hpol Hp Hi Hs.
  destruct (push_step_inv _ _ _ _ _ Hs) as (Hsh & Hq & Hn & _ & Haf & Hf).
  pose proof (writing_open β p i Hm Hp Hi) as Hopen.
  destruct (blocking_push _ _ _ Hsh Hpol Hopen Hf) as (Hd & Hcl & Ho).
  pose proof (Hctr _ _ Hp) as Hi0.
  assert (Hadv : (advance s i = i + 1 /\ sec_accepted (u64 i) s = [u64 i] /\ after_push (u64 i) s = Idle)
    \/ (advance s i = i /\ sec_accepted (u64 i) s = [] /\
        after_push (u64 i) s = Pushing (u64 i) tp_max false)).
  { unfold advance. destruct Ho as [(-> & ? & ?)|(d & -> & ? & E)]; [by left|right].
    split_and!; [done..|]. destruct Haf as [E'|E']; congruence. }
  split; simpl.
  - eapply (threads_update β _ (writer_id p)); [done|exact Hn| |].
    + intros [|[|k]] t Hne [->|Hk]; try (by left); right; simpl in *; [done|done|].
      destruct Hk as (i' & aw & Hk & ? & ->). exists i', aw. split; [|done].
      rewrite list_lookup_insert_ne; [done|]. unfold writer_id in Hne. congruence.
    + destruct Hadv as [(_ & _ & ->)|(-> & _ & ->)]; [by left|right]. simpl.
      exists i, false. rewrite list_lookup_insert_eq; [done|]. by eapply lookup_lt_Some.
  - rewrite (notifieds_length _ _ _ Hn). by rewrite length_insert.
  - intros k j [(-> & <- & _)|[_ Hk]]%list_lookup_insert_Some; [|eauto].
    destruct Hadv as [(-> & _)|(-> & _)]; lia.
  - by rewrite length_insert.
  - unfold main_ok in *. simpl. rewrite Hq, Hcl. destruct (b_main β) as [|k| | | |]; try done; try (destruct Hm as [[_ Hall] _]; specialize (Hall _ _ Hp); lia).
    destruct Hm as [[Hlen Hj] _]. split; [|done]. split; [by rewrite length_insert|].
    intros k' j Hk' [(-> & <- & _)|[_ Hk]]%list_lookup_insert_Some; [|by eauto].
    specialize (Hj _ _ Hk' Hp). lia.
  - rewrite queue_trace_queue, accepted_snoc, Hacc. simpl.
    destruct Hadv as [(-> & -> & _)|(-> & -> & _)].
    + by rewrite sent_insert by (done || lia).
    + by rewrite list_insert_id, app_nil_r by done.
  - rewrite queue_trace_queue, removed_snoc, popped_snoc. simpl. by rewrite Hd, Hrem.
  - rewrite queue_trace_queue, popped_snoc. simpl. by rewrite app_nil_r.
  - intros Hdn. destruct (Hdone Hdn). congruence.
Qed.

Lemma consume_keeps_inv tr β s σ' done' n' :
  bench_inv tr β -> b_consumer_done β = false ->
  step (b_queue β) (EvPop consumer_id tp_max s) σ' ->
  consume s (b_consumed β) = (done', n') ->
  bench_inv (tr ++ [BQueue (EvPop consumer_id tp_max s)])
    (mkBench σ' done' n' (b_writers β) (b_main β)).
Proof.
  intros [Hth Hcnt Hctr Hnw Hm Hacc Hrem Hcon Hdone] Hd Hs Hc.
  destruct (pop_step_inv _ _ _ _ Hs) as (Hsh & Hq & Hn & Haf & Hnone).
  destruct (pop_shape_config _ _ Hsh) as (_ & _ & Hcl).
  split; simpl.
  - eapply (threads_update β _ consumer_id); [done|exact Hn| |].
    + intros [|[|k]] t Hne [->|Hk]; try (by left); by right.
    + unfold consume, after_pop in *. destruct (sec_outcome s) as [[v|]|c d]; simplify_eq;
        [by left|by left|]. destruct Haf as [E|E]; simplify_eq. right. simpl. eauto.
  - rewrite (notifieds_length _ _ _ Hn). by rewrite length_insert.
  - done.
  - done.
  - unfold main_ok in *. simpl. rewrite Hq, Hcl. destruct (b_main β); try done.
    destruct Hm as (_ & _ & Hm). congruence.
  - rewrite queue_trace_queue, accepted_snoc. simpl. by rewrite app_nil_r.
  - rewrite queue_trace_queue, removed_snoc, popped_snoc. simpl. by rewrite Hrem.
  - rewrite queue_trace_queue, popped_snoc, zlen_app. simpl. unfold consume, sec_popped in *.
    destruct (sec_outcome s) as [[v|]|c d]; simplify_eq; rewrite Hcon;
      rewrite ?zlen_nil, ?Z.add_0_r; [|done..]. by rewrite wrap_add_l.
  - unfold consume in Hc. destruct (sec_outcome s) as [[v|]|c d] eqn:Ho; simplify_eq; try done.
    intros _. destruct (Hnone eq_refl) as [Hcl0 Hi0]. rewrite Hq, Hcl. split; [done|].
    destruct Hsh as [| | |v rest Hi]; simpl in *; congruence.
Qed.

(** A step that leaves the queue's history and the counters alone. *)
Definition quiet (e : bench_event) : bool :=
  match e with
  | BQueue (EvClose _) | BQueue (EvClosing _) | BControl | BSpurious | BTick => true
  | _ => false
  end.

Lemma quiet_history tr e :
  quiet e = true ->
  accepted (queue_trace (tr ++ [e])) = accepted (queue_trace tr) /\
  removed (queue_trace (tr ++ [e])) = removed (queue_trace tr) /\
  popped (queue_trace (tr ++ [e])) = popped (queue_trace tr).
Proof.
  rewrite queue_trace_snoc. unfold accepted, removed, popped. rewrite !bind_app.
  destruct e as [[]| | |]; simpl; rewrite ?app_nil_r; done.
Qed.

Lemma quiet_keeps_inv tr e β β' :
  bench_inv tr β -> quiet e = true -> threads_ok β' ->
  length (sys_threads (b_queue β')) = length (sys_threads (b_queue β)) ->
  items_ (sys_queue (b_queue β')) = items_ (sys_queue (b_queue β)) ->
  (closed_ (sys_queue (b_queue β)) = true -> closed_ (sys_queue (b_queue β')) = true) ->
  b_writers β' = b_writers β -> b_consumed β' = b_consumed β ->
  b_consumer_done β' = b_consumer_done β ->
  main_ok β' -> bench_inv (tr ++ [e]) β'.
Proof.
  intros [Hth Hcnt Hctr Hnw Hm Hacc Hrem Hcon Hdone] Hq Hth' Hlen Hi Hcl Hw Hc Hd Hm'.
  destruct (quiet_history tr e Hq) as (Ha & Hr & Hp).
  split; rewrite ?Hlen, ?Hw, ?Hc, ?Hd, ?Ha, ?Hr, ?Hp, ?Hi; try done.
  intros Hdn. destruct (Hdone Hdn). auto.
Qed.

Lemma spawn_keeps_inv tr β :
  bench_inv tr β -> b_main β = MSpawn -> zlen (b_writers β) < producers ->
  bench_inv (tr ++ [BControl]) (with_writers β (b_writers β ++ [0])).
Proof.
  intros [Hth Hcnt Hctr Hnw Hm Hacc Hrem Hcon Hdone] Hmp Hlt.
  split; rewrite ?queue_trace_control; simpl; try done.
  - intros j t Hj. destruct (Hth j t Hj) as [->|Ht]; [by left|right].
    destruct j as [|[|p]]; [done..|]. destruct Ht as (i & aw & Hp & Ht).
    exists i, aw. split; [|done]. simpl. by apply lookup_app_l_Some.
  - intros p i [Hp|[_ Hp]]%lookup_app_Some; [by eauto|].
    apply list_lookup_singleton_Some in Hp as [_ <-]. lia.
  - rewrite length_app. simpl. unfold zlen in Hlt. lia.
  - unfold main_ok in *. simpl. by rewrite Hmp in *.
  - rewrite Hacc, bind_app. simpl. by rewrite app_nil_r.
Qed.

Lemma closing_threads β σ' :
  threads_ok β -> b_main β = MClosing -> step (b_queue β) (EvClosing main_id) σ' ->
  threads_ok (with_queue β σ') /\ sys_queue σ' = sys_queue (b_queue β) /\
  length (sys_threads σ') = length (sys_threads (b_queue β)).
Proof.
  intros Hth Hm Hs. inversion Hs as [| | | | |q th clk ? sg pending th' Hi Hn|q th clk ? Hi| | |];
    match goal with H : _ = b_queue β |- _ => symmetry in H; rename H into Hb end;
    subst; simpl.
  - assert (Hn' : notifieds [sg] (<[main_id := Closing pending]> th) th')
      by (econstructor; [done|constructor]).
    split; [|split; [done|by rewrite (notifieds_length _ _ _ Hn'), length_insert]].
    eapply (threads_update β _ main_id); [done|simpl; rewrite Hb; exact Hn'|done|].
    right. simpl. eauto.
  - split; [|split; [done|by rewrite length_insert]].
    eapply (threads_update β _ main_id _ []); [done|simpl; rewrite Hb; constructor|done|by left].
Qed.

Lemma environment_threads β σ' :
  threads_ok β -> step (b_queue β) EvInternal σ' ->
  threads_ok (with_queue β σ') /\ sys_queue σ' = sys_queue (b_queue β) /\
  length (sys_threads σ') = length (sys_threads (b_queue β)).
Proof.
  intros Hth Hs. inversion Hs as [| | | | | | | |q th clk i t Hi|q th clk clk' Hle];
    match goal with H : _ = b_queue β |- _ => symmetry in H; rename H into Hb end;
    subst; simpl.
  - split; [|split; [done|by rewrite length_insert]].
    eapply (threads_update β _ i _ []); [done|simpl; rewrite Hb; constructor|done|].
    apply (thread_ok_wake _ _ t); [|by right]. apply (Hth i t). by rewrite Hb.
  - split; [|done]. intros j t Hj. apply (Hth j t). by rewrite Hb.
Qed.

Lemma bq_init_inv : bench_inv [] (bench_init capacity producers now).
Proof.
  split; simpl; try done; try lia.
  - intros j t Hj. left. unfold bench_init in Hj. cbn [b_queue sys_threads init] in Hj.
    by apply lookup_replicate in Hj as [-> _].
  - by rewrite length_replicate.
Qed.

Lemma threads_ok_main β m :
  threads_ok β -> b_main β <> MClosing \/ sys_threads (b_queue β) !! main_id = Some Idle ->
  threads_ok (with_main β m).
Proof.
  intros Hth Hm j t Hj. destruct (Hth j t Hj) as [->|Ht]; [by left|].
  destruct j as [|[|p]]; simpl in *; [by right| |by right].
  destruct Ht as [? ?], Hm as [?|Hm]; [done|]. left. unfold main_id in Hm. congruence.
Qed.

(** A step of the main thread that only moves its program point. *)
Lemma control_keeps_inv tr β m :
  bench_inv tr β ->
  b_main β <> MClosing \/ sys_threads (b_queue β) !! main_id = Some Idle ->
  main_ok (with_main β m) -> bench_inv (tr ++ [BControl]) (with_main β m).
Proof.
  intros Hinv Hm Hok. apply (quiet_keeps_inv tr _ β); try done.
  apply threads_ok_main; [|done]. by destruct Hinv.
Qed.

Lemma close_keeps_inv tr β σ' :
  bench_inv tr β -> b_main β = MClose -> step (b_queue β) (EvClose main_id) σ' ->
  bench_inv (tr ++ [BQueue (EvClose main_id)]) (with_main (with_queue β σ') MClosing).
Proof.
  intros Hinv Hmp Hs. pose proof Hinv as [Hth _ _ _ Hm _ _ _ _]. unfold main_ok in Hm.
  rewrite Hmp in Hm. destruct Hm as [Hall _]. inversion Hs as [| | | |q th clk ? Hi| | | | |].
  match goal with H : _ = b_queue β |- _ => symmetry in H; rename H into Hb end. subst.
  apply (quiet_keeps_inv tr _ β); simpl; rewrite ?Hb; try done.
  - eapply (threads_update β _ main_id _ []); [done|simpl; rewrite Hb; constructor| |].
    + intros [|[|k]] t Hne [->|Hk]; try (by left); by right.
    + right. simpl. eauto.
  - simpl. by rewrite length_insert.
Qed.

(** What joining a writer, and having joined them all, establishes. *)
Lemma joined_succ p i ws :
  joined_up_to p ws -> ws !! p = Some i -> per <= i -> joined_up_to (S p) ws.
Proof.
  intros [Hl Hj] Hp Hi. split; [done|]. intros k j Hk Hkj.
  destruct (decide (k = p)) as [->|]; [congruence|]. apply (Hj k); [lia|done].
Qed.

Lemma joined_all p ws : joined_up_to p ws -> ws !! p = None -> all_sent ws.
Proof.
  intros [Hl Hj] Hp%lookup_ge_None. split; [done|]. intros k j Hkj.
  apply (Hj k); [|done]. apply lookup_lt_Some in Hkj. lia.
Qed.

Lemma environment_keeps_inv tr e β σ' :
  bench_inv tr β -> quiet e = true -> step (b_queue β) EvInternal σ' ->
  bench_inv (tr ++ [e]) (with_queue β σ').
Proof.
  intros Hinv Hqe Hs. pose proof Hinv as [Hth _ _ _ Hm _ _ _ _].
  destruct (environment_threads β σ' Hth Hs) as (Hth' & Hq & Hl).
  apply (quiet_keeps_inv tr _ β); simpl; rewrite ?Hq; try done.
  unfold main_ok in *. simpl. by rewrite Hq.
Qed.

Lemma step_keeps_inv tr β e β' :
  policy_ (sys_queue (b_queue β)) = Block ->
  bench_inv tr β -> bench_step producers per β e β' -> bench_inv (tr ++ [e]) β'.
Proof.
  intros Hpol Hinv Hs. pose proof Hinv as [Hth _ _ Hnw Hm _ _ _ _]. unfold main_ok in Hm.
  destruct Hs as [β s σ' done' n' Hd Hs Hc|β Hmp Hlt|β Hmp Hle|β p i s σ' Hp Hi Hs
    |β p i Hmp Hp Hi|β p Hmp Hp|β σ' Hmp Hs|β σ' Hmp Hs|β Hmp Hid|β Hmp Hd|β σ' Hs Hth'|β σ' Hs Hth'];
    try rewrite Hmp in Hm.
  - by apply consume_keeps_inv.
  - by apply spawn_keeps_inv.
  - apply control_keeps_inv; [done|left; congruence|]. split; [|done].
    split; [simpl; unfold zlen in *; lia|]. intros p i Hp. lia.
  - by apply write_keeps_inv.
  - apply control_keeps_inv; [done|left; congruence|]. destruct Hm as [Hj Ho].
    split; [by eapply joined_succ|done].
  - apply control_keeps_inv; [done|left; congruence|]. destruct Hm as [Hj Ho].
    split; [by eapply joined_all|done].
  - by apply close_keeps_inv.
  - destruct (closing_threads β σ' Hth Hmp Hs) as (Hth' & Hq & Hl).
    apply (quiet_keeps_inv tr _ β); simpl; rewrite ?Hq; try done.
    unfold main_ok. simpl. by rewrite Hq, Hmp.
  - apply control_keeps_inv; auto.
  - apply control_keeps_inv; [done|left; congruence|]. by destruct Hm.
  - by apply environment_keeps_inv.
  - by apply environment_keeps_inv.
Qed.

Lemma bq_run_inv tr β :
  run (H := bench_lts producers per) (bench_init capacity producers now) tr β ->
  bench_inv tr β /\ policy_ (sys_queue (b_queue β)) = Block.
Proof.
  intros Hr. split; [|by destruct (run_config _ _ _ _ _ _ (run_queue tr β Hr))].
  induction Hr as [|tr e β β' Hr IH Hs]; [apply bq_init_inv|].
  destruct (run_config _ _ _ _ _ _ (run_queue tr β Hr)) as [_ Hpol].
  by apply (step_keeps_inv _ β).
Qed.
End invariant.
