(* ===== verification/BenchQueueLive.v ===== *)
(** * BenchQueueLive

    Progress of [run_bounded_queue] ([BenchQueue]): in every reachable state that is
    not the end, some thread has a step to take, and less is left to do. *)

From S2P Require Import Prelude Lts BoundedQueue QueueSystem QueueTheorems BenchQueue BenchQueueInv.
Open Scope Z_scope.

(** ** The benchmark can always end *)
Section progress.
Variables (capacity producers per now : Z).

Definition left (i : Z) : nat := Z.to_nat (per - i).
Definition all_left (ws : list Z) : nat := sum_list_with left ws.

Definition pending (th : list (thread Z)) : nat :=
  match th !! main_id with
  | Some (Closing sgs) => S (length sgs)
  | _ => O
  end.

Definition stage (β : bench) : nat :=
  match b_main β with
  | MSpawn => Z.to_nat producers + 10
  | MJoin p => (Z.to_nat producers - p) + 9
  | MClose => 8
  | MClosing => 4 + pending (sys_threads (b_queue β))
  | MJoinConsumer => 3
  | MDone => 0
  end.

(** Each step taken below makes this smaller. *)
Definition work (β : bench) : nat :=
  2 * all_left (b_writers β)
  + (Z.to_nat producers - length (b_writers β)) * S (2 * left 0)
  + length (items_ (sys_queue (b_queue β)))
  + stage β + (if b_consumer_done β then 0 else 1).

(** What the proof uses of a reachable state. *)
Record live (β : bench) : Prop := {
  live_threads : threads_ok per β;
  live_count : length (sys_threads (b_queue β)) = (2 + Z.to_nat producers)%nat;
  live_writers : (length (b_writers β) <= Z.to_nat producers)%nat;
  live_main : main_ok producers per β;
  live_done : b_consumer_done β = true -> closed_ (sys_queue (b_queue β)) = true;
  live_policy : policy_ (sys_queue (b_queue β)) = Block;
  live_wf : queue_wf (sys_queue (b_queue β));
  live_wake cv : wake_inv (sys_queue (b_queue β)) (sys_threads (b_queue β)) cv
}.

(** A step of a thread that leaves less to do. *)
Definition advances (β : bench) : Prop :=
  exists e β', bench_step producers per β e β' /\ thread_step e = true /\ (work β' < work β)%nat.

Lemma all_left_insert ws p i j :
  ws !! p = Some i -> (all_left (<[p := j]> ws) + left i = all_left ws + left j)%nat.
Proof.
  revert p. induction ws as [|w ws IH]; intros [|p] Hp; simplify_eq/=; [lia|].
  specialize (IH p Hp). unfold all_left in *. simpl. lia.
Qed.

Lemma all_left_app ws i : all_left (ws ++ [i]) = (all_left ws + left i)%nat.
Proof. unfold all_left. induction ws; simpl in *; lia. Qed.

Lemma pending_update sgs th th' j t :
  notifieds sgs (<[j := t]> th) th' -> j <> main_id -> (main_id < length th)%nat ->
  pending th' = pending th.
Proof.
  intros Hn Hj Hlt. unfold pending.
  destruct (th' !! main_id) as [t'|] eqn:Ht'.
  - destruct (notifieds_lookup _ _ _ _ _ Hn Ht') as (t0 & H0 & Ht0).
    rewrite list_lookup_insert_ne in H0 by done. rewrite H0.
    destruct Ht0 as [->| ->]; by destruct t0.
  - apply lookup_ge_None in Ht'. rewrite (notifieds_length _ _ _ Hn), length_insert in Ht'. lia.
Qed.

Lemma stage_queue β σ' b n ws :
  pending (sys_threads σ') = pending (sys_threads (b_queue β)) ->
  stage (mkBench σ' b n ws (b_main β)) = stage β.
Proof. unfold stage. simpl. by intros ->. Qed.

(** The consumer, when it has something to do and is not waiting, does it. *)
Lemma consumer_step β s :
  live β -> b_consumer_done β = false ->
  (exists t, sys_threads (b_queue β) !! consumer_id = Some t /\
     (t = Idle /\ s = pop_until (sys_queue (b_queue β)) tp_max \/
      t = Popping tp_max true /\ s = pop_resume (sys_queue (b_queue β)) tp_max false)) ->
  s = pop_front (sys_queue (b_queue β)) -> advances β.
Proof.
  intros Hl Hd (t & Ht & Hs) Hf. destruct Hl as [_ Hcnt _ _ _ _ _ _].
  set (th' := notify_seq (sec_signals s) (<[consumer_id := after_pop s]> (sys_threads (b_queue β)))).
  assert (Hn : notifieds (sec_signals s) (<[consumer_id := after_pop s]> (sys_threads (b_queue β))) th')
    by apply notify_seq_notifieds.
  assert (Hstep : step (b_queue β) (EvPop consumer_id tp_max s)
                    (mkSystem (sec_queue s) th' (sys_clock (b_queue β)))).
  { destruct (b_queue β) as [q th clk]; simpl in *. destruct Hs as [[-> ->]|[-> ->]].
    - by apply step_pop.
    - by eapply (step_pop_resume _ _ _ _ _ true false). }
  destruct (consume s (b_consumed β)) as [d n] eqn:Hc.
  eexists _, _. split; [by eapply bench_consume|]. split; [done|].
  unfold work. rewrite stage_queue by (eapply pending_update; [exact Hn|done|unfold main_id; lia]).
  cbn [b_writers b_queue b_consumer_done sys_queue]. rewrite Hd.
  unfold consume, pop_front in *. destruct (items_ (sys_queue (b_queue β))) eqn:Hi;
    subst s; simpl in *; simplify_eq; rewrite ?Hi; simpl; lia.
Qed.

Lemma woken_thread β cv :
  (0 < woken cv (sys_threads (b_queue β)))%nat ->
  exists j t, sys_threads (b_queue β) !! j = Some t /\ awake_on cv t = true.
Proof. intros H. by apply countb_pos_inv in H. Qed.

(** If the consumer sleeps although it should not, the wake-up it needs is due. *)
Lemma consumer_awake β :
  live β -> sys_threads (b_queue β) !! consumer_id = Some (Popping tp_max false) ->
  (forall pd, sys_threads (b_queue β) !! main_id <> Some (Closing pd)) ->
  closed_ (sys_queue (b_queue β)) = false /\ items_ (sys_queue (b_queue β)) = [].
Proof.
  intros [Hth _ _ _ _ _ _ Hw] H0 Hnc.
  specialize (Hw not_empty_ (sleeper_counts not_empty_ _ _ _ H0 eq_refl)).
  destruct (closed_ (sys_queue (b_queue β))).
  - exfalso. apply countb_pos_inv in Hw as (j & t & Hj & Ht).
    destruct (Hth j t Hj) as [->|Hok]; [done|]. destruct j as [|[|p]]; simpl in Hok.
    + by destruct Hok as (_ & aw & ->).
    + destruct Hok as (_ & pd & ->). by apply (Hnc pd).
    + by destruct Hok as (i & aw & _ & _ & ->).
  - split; [done|]. simpl in Hw.
    destruct (decide (items_ (sys_queue (b_queue β)) = [])) as [|Hne]; [done|exfalso].
    destruct (woken_thread β not_empty_) as (j & t & Hj & Ht).
    { destruct (items_ (sys_queue (b_queue β))); [done|]. len. }
    destruct (Hth j t Hj) as [->|Hok]; [done|]. destruct j as [|[|p]]; simpl in Hok.
    + unfold consumer_id in H0. rewrite H0 in Hj. by simplify_eq.
    + by destruct Hok as (_ & pd & ->).
    + by destruct Hok as (i & [] & _ & _ & ->).
Qed.

Lemma consumer_progress β :
  live β -> b_consumer_done β = false ->
  (closed_ (sys_queue (b_queue β)) = true \/ items_ (sys_queue (b_queue β)) <> []) ->
  (forall pd, sys_threads (b_queue β) !! main_id <> Some (Closing pd)) -> advances β.
Proof.
  intros Hl Hd Hdo Hnc. pose proof Hl as [Hth Hcnt _ _ _ _ _ _].
  destruct (lookup_lt_is_Some_2 (sys_threads (b_queue β)) consumer_id) as [t Ht];
    [unfold consumer_id; lia|].
  assert (Hready : pop_ready (sys_queue (b_queue β)) = true).
  { unfold pop_ready. destruct Hdo as [->|Hne]; [done|].
    destruct (items_ (sys_queue (b_queue β))); [done|]. rewrite zlen_cons.
    case_bool; [len|by rewrite orb_true_r]. }
  destruct (Hth _ _ Ht) as [->|[_ [[] ->]]].
  - eapply consumer_step; [done|done|eexists; split; [done|by left]|].
    unfold pop_until, pop_after_wait, cv_wait. rewrite Hready. by case_match.
  - eapply consumer_step; [done|done|eexists; split; [done|by right]|].
    unfold pop_resume, pop_after_wait, cv_wait. by rewrite Hready.
  - exfalso. destruct (consumer_awake β Hl Ht Hnc) as [Hc Hi].
    destruct Hdo; congruence.
Qed.

Lemma push_until_room q (v : Z) d :
  closed_ q = false -> zlen (items_ q) < capacity_ q -> push_until q v d = push_back q v.
Proof. unfold push_until. intros -> Hr. case_bool; [lia|done]. Qed.

Lemma push_resume_room q (v : Z) d t :
  closed_ q = false -> zlen (items_ q) < capacity_ q -> push_resume q v d t = push_back q v.
Proof.
  unfold push_resume, push_after_wait, cv_wait, push_ready. intros Hc Hr. rewrite Hc.
  case_bool; [done|lia].
Qed.

(** A writer with a place in the queue and something to send sends it. *)
Lemma writer_step β p i t :
  live β -> b_writers β !! p = Some i -> i < per ->
  closed_ (sys_queue (b_queue β)) = false ->
  zlen (items_ (sys_queue (b_queue β))) < capacity_ (sys_queue (b_queue β)) ->
  sys_threads (b_queue β) !! writer_id p = Some t ->
  t = Idle \/ t = Pushing (u64 i) tp_max true -> advances β.
Proof.
  intros Hl Hp Hi Hc Hroom Ht Hrun. destruct Hl as [_ Hcnt _ _ _ _ _ _].
  set (s := push_back (sys_queue (b_queue β)) (u64 i)).
  set (th' := notify_seq (sec_signals s) (<[writer_id p := after_push (u64 i) s]> (sys_threads (b_queue β)))).
  assert (Hn : notifieds (sec_signals s) (<[writer_id p := after_push (u64 i) s]> (sys_threads (b_queue β))) th')
    by apply notify_seq_notifieds.
  assert (Hstep : step (b_queue β) (EvPush (writer_id p) (u64 i) tp_max s)
                    (mkSystem (sec_queue s) th' (sys_clock (b_queue β)))).
  { clearbody th'. destruct (b_queue β) as [q th clk]; cbn [sys_queue sys_threads sys_clock] in *.
    destruct Hrun as [-> | ->].
    - pose proof (step_push q th clk (writer_id p) (u64 i) tp_max th' Ht) as Hst. cbv zeta in Hst.
      rewrite push_until_room in Hst by done. by apply Hst.
    - pose proof (step_push_resume q th clk (writer_id p) (u64 i) tp_max true false th' Ht eq_refl) as Hst.
      cbv zeta in Hst. rewrite push_resume_room in Hst by done. by apply Hst. }
  eexists _, _. split; [by eapply bench_write|]. split; [done|].
  unfold work. unfold with_writers, with_queue. simpl b_main.
  rewrite stage_queue by (eapply pending_update; [exact Hn|done|unfold main_id; lia]).
  cbn [b_writers b_queue b_consumer_done sys_queue]. rewrite length_insert.
  unfold s at 2. rewrite push_back_items, length_app.
  pose proof (all_left_insert (b_writers β) p i (advance s i) Hp) as Hw.
  replace (advance s i) with (i + 1) in * by done. unfold left in Hw. simpl length. lia.
Qed.

(** As long as a writer has something to send, somebody can run. *)
Lemma writers_progress β p i :
  live β -> b_writers β !! p = Some i -> i < per ->
  (forall pd, sys_threads (b_queue β) !! main_id <> Some (Closing pd)) -> advances β.
Proof.
  intros Hl Hp Hi Hnc. pose proof Hl as [Hth Hcnt Hnw Hm Hd _ Hwf Hw].
  pose proof (writing_open _ _ β p i Hm Hp Hi) as Hopen.
  destruct (decide (zlen (items_ (sys_queue (b_queue β))) < capacity_ (sys_queue (b_queue β))))
    as [Hroom|Hfull].
  2:{ apply consumer_progress; [done| | |done].
      - destruct (b_consumer_done β); [|done]. rewrite Hd in Hopen by done. done.
      - right. intros He. rewrite He in Hfull. destruct Hwf as [Hcap _ _ _]. rewrite zlen_nil in Hfull. lia. }
  destruct (lookup_lt_is_Some_2 (sys_threads (b_queue β)) (writer_id p)) as [t Ht].
  { apply lookup_lt_Some in Hp. unfold writer_id. lia. }
  destruct (Hth _ _ Ht) as [->|(i' & aw & Hp' & _ & ->)]; [by eapply writer_step; eauto|].
  simplify_eq. destruct aw; [by eapply writer_step; eauto|].
  specialize (Hw not_full_ (sleeper_counts not_full_ _ _ _ Ht eq_refl)). rewrite Hopen in Hw. simpl in Hw.
  destruct (woken_thread β not_full_) as (j & t & Hj & Haw); [lia|].
  destruct (Hth _ _ Hj) as [->|Hok]; [done|]. destruct j as [|[|p']]; simpl in Hok.
  - by destruct Hok as (_ & [] & ->).
  - by destruct Hok as (_ & pd & ->).
  - destruct Hok as (j & [] & Hp'' & Hj' & ->); [|done].
    by eapply (writer_step β p' j); eauto.
Qed.

Lemma not_closing β : live β -> b_main β <> MClosing ->
  forall pd, sys_threads (b_queue β) !! main_id <> Some (Closing pd).
Proof.
  intros [Hth _ _ _ _ _ _ _] Hm pd Hpd. by destruct (Hth _ _ Hpd) as [?|[? _]].
Qed.

(** A control step of the main thread to an earlier stage. *)
Lemma main_step β m :
  bench_step producers per β BControl (with_main β m) -> (stage (with_main β m) < stage β)%nat ->
  advances β.
Proof.
  intros Hs Hlt. eexists _, _. split; [exact Hs|]. split; [done|].
  unfold work. simpl b_writers. simpl b_queue. simpl b_consumer_done. lia.
Qed.

Lemma closing_progress β : live β -> b_main β = MClosing -> advances β.
Proof.
  intros Hl Hmp. pose proof Hl as [Hth Hcnt _ _ _ _ _ _].
  destruct (lookup_lt_is_Some_2 (sys_threads (b_queue β)) main_id) as [t Ht];
    [unfold main_id; lia|].
  destruct (Hth _ _ Ht) as [->|[_ [sgs ->]]].
  - apply (main_step β MJoinConsumer); [by apply bench_closed|].
    unfold stage. rewrite Hmp. simpl. lia.
  - destruct (b_queue β) as [q th clk] eqn:Hb. simpl in Ht.
    assert (Hs : exists th', step (mkSystem q th clk) (EvClosing main_id) (mkSystem q th' clk) /\
                   (pending th' < pending th)%nat).
    { assert (Hlt : (main_id < length th)%nat) by by eapply lookup_lt_Some.
      destruct sgs as [|sg sgs].
      - eexists. split; [by apply step_close_return|]. unfold pending.
        rewrite list_lookup_insert_eq, Ht by done. lia.
      - eexists. split; [eapply step_close_notify; [done|apply notify_notified]|].
        assert (Hn : notifieds [sg] (<[main_id := Closing sgs]> th) (notify sg (<[main_id := Closing sgs]> th)))
          by (econstructor; [apply notify_notified|constructor]).
        unfold pending. rewrite Ht. destruct (notify _ _ !! main_id) as [t'|] eqn:Ht'; [|simpl; lia].
        destruct (notifieds_lookup _ _ _ _ _ Hn Ht') as (t0 & H0 & Ht0).
        rewrite list_lookup_insert_eq in H0 by done. simplify_eq.
        destruct Ht0 as [->| ->]; simpl; lia. }
    destruct Hs as (th' & Hs & Hlt). rewrite <-Hb in Hs.
    eexists _, _. split; [by apply bench_closing|]. split; [done|].
    unfold work, stage. simpl. rewrite Hmp, Hb. simpl. lia.
Qed.

Lemma progress β : live β -> b_main β <> MDone -> advances β.
Proof.
  intros Hl Hnd. pose proof Hl as [Hth Hcnt Hnw Hm _ _ _ _].
  destruct (b_main β) as [|p| | | |] eqn:Hmp; try done.
  - destruct (decide (zlen (b_writers β) < producers)) as [Hlt|Hge].
    + eexists _, _. split; [by apply bench_spawn|]. split; [done|].
      unfold work, stage. simpl. rewrite Hmp, all_left_app, length_app. simpl length.
      unfold zlen in Hlt.
      replace (Z.to_nat producers - length (b_writers β))%nat
        with (S (Z.to_nat producers - (length (b_writers β) + 1))) by lia. lia.
    + apply (main_step β (MJoin 0)); [apply bench_spawned; [done|lia]|].
      unfold stage. rewrite Hmp. simpl. lia.
  - destruct (b_writers β !! p) as [i|] eqn:Hp.
    + destruct (decide (i < per)) as [Hi|Hi].
      * eapply writers_progress; [done..|]. apply not_closing; [done|congruence].
      * apply (main_step β (MJoin (S p))); [apply (bench_join _ _ β p i); [done|done|lia]|].
        unfold stage. rewrite Hmp. simpl. apply lookup_lt_Some in Hp. lia.
    + apply (main_step β MClose); [by eapply bench_joined|]. unfold stage. rewrite Hmp. simpl. lia.
  - destruct (lookup_lt_is_Some_2 (sys_threads (b_queue β)) main_id) as [t Ht];
      [unfold main_id; lia|].
    destruct (Hth _ _ Ht) as [->|[? _]]; [|congruence].
    assert (Hlt : (main_id < length (sys_threads (b_queue β)))%nat) by by eapply lookup_lt_Some.
    destruct (b_queue β) as [q th clk] eqn:Hb. simpl in *.
    eexists _, _. split; [eapply bench_close; [done|rewrite Hb; by apply step_close]|]. split; [done|].
    unfold work, stage. simpl. rewrite Hmp, Hb. simpl. unfold pending.
    rewrite list_lookup_insert_eq by done. simpl. lia.
  - by apply closing_progress.
  - destruct (b_consumer_done β) eqn:Hd.
    + apply (main_step β MDone); [by apply bench_join_consumer|]. unfold stage. rewrite Hmp. simpl. lia.
    + apply consumer_progress; [done|done| |apply not_closing; [done|congruence]].
      left. unfold main_ok in Hm. rewrite Hmp in Hm. by destruct Hm.
Qed.

Lemma run_live tr β :
  run (H := bench_lts producers per) (bench_init capacity producers now) tr β -> live β.
Proof.
  intros Hr. destruct (bq_run_inv capacity producers per now tr β Hr) as [Hi Hpol].
  pose proof Hi as []. pose proof (run_queue capacity producers per now tr β Hr) as Hq.
  split; try done; [intros Hcd; by destruct (inv_done Hcd)|eapply run_queue_wf|intros cv; eapply run_wake_inv]; try exact Hq;
    by apply fits_wrap.
Qed.

End progress.
