(* ===== verification/BenchQueueBound.v ===== *)
(** * BenchQueueBound

    [run_bounded_queue] ([BenchQueue]) ends under every schedule: each step of one
    of its threads uses up some of a fixed amount, to which only a spurious wake-up
    adds; and before the end some thread can always step ([BenchQueueLive]). *)

From S2P Require Import Prelude Lts BoundedQueue QueueSystem QueueTheorems BenchQueue BenchQueueInv.
From S2P Require Import BenchQueueLive.
Open Scope Z_scope.

(** ** Threads that are not asleep *)
Section runnable.
Context {T : Type}.
Implicit Types (th : list (thread T)) (σ : system T).

Definition runnable (t : thread T) : bool := negb (asleep_on not_full_ t || asleep_on not_empty_ t).

Definition awake th : nat := countb runnable th.

Lemma awake_insert th i t t' :
  th !! i = Some t -> (awake (<[i := t']> th) + one (runnable t) = awake th + one (runnable t'))%nat.
Proof. intros Hi. by apply countb_insert. Qed.

(** How many threads a notification can wake. *)
Definition wakes (n : nat) (sg : signal) : nat :=
  match sg with notify_one _ => 1 | notify_all _ => n end.

Lemma notified_awake sg th th' : notified sg th th' -> (awake th' <= awake th + wakes (length th) sg)%nat.
Proof.
  destruct 1 as [|c th i t Hi Ht|c th]; simpl; [lia| |].
  - pose proof (awake_insert th i t (wake t) Hi). destruct (runnable (wake t)), (runnable t); simpl in *; lia.
  - unfold awake. pose proof (countb_le_length runnable (wake_on c <$> th)) as Hl.
    rewrite length_fmap in Hl. lia.
Qed.

Lemma notifieds_awake sgs th th' :
  notifieds sgs th th' -> (awake th' <= awake th + sum_list_with (wakes (length th)) sgs)%nat.
Proof.
  induction 1 as [|sg sgs th th1 th2 Hn Hns IH]; simpl; [lia|].
  pose proof (notified_awake _ _ _ Hn). assert (length th1 = length th) as Hl.
  { apply (notifieds_length [sg]). econstructor; [done|constructor]. }
  rewrite Hl in IH. lia.
Qed.

(** A thread that runs a section was not asleep: without a deadline nobody
    leaves a wait by himself. *)
Lemma push_step_runnable σ j v s σ' :
  step σ (EvPush j v tp_max s) σ' -> exists t, sys_threads σ !! j = Some t /\ runnable t = true.
Proof.
  intros Hs. inversion Hs as [q th now ? ? ? th' Hi|q th now ? ? ? aw to th' Hi Hto
    | | | | | | | |]; subst; simpl; eexists; (split; [exact Hi|]); [done|].
  destruct to; [by destruct Hto|by subst].
Qed.

Lemma pop_step_runnable σ j s σ' :
  step σ (EvPop j tp_max s) σ' -> exists t, sys_threads σ !! j = Some t /\ runnable t = true.
Proof.
  intros Hs. inversion Hs as [| |q th now ? ? th' Hi|q th now ? ? aw to th' Hi Hto
    | | | | | |]; subst; simpl; eexists; (split; [exact Hi|]); [done|].
  destruct to; [by destruct Hto|by subst].
Qed.
End runnable.

(** ** What is left to do *)
Section bound.
Variables (capacity producers per now : Z).

Abbreviation threads := (2 + Z.to_nat producers)%nat.

(** What is left to the main thread; each of the notifications of [close] may
    wake everybody. *)
Definition main_left (β : bench) : nat :=
  match b_main β with
  | MSpawn => Z.to_nat producers + 7 + 4 * S threads
  | MJoin p => (Z.to_nat producers - p) + 6 + 4 * S threads
  | MClose => 5 + 4 * S threads
  | MClosing => 4 + pending (sys_threads (b_queue β)) * S threads
  | MJoinConsumer => 3
  | MDone => 0
  end.

(** A message left to send costs its push, its pop and the wake-ups of both. *)
Definition fuel (β : bench) : nat :=
  4 * all_left per (b_writers β)
  + (Z.to_nat producers - length (b_writers β)) * S (4 * left per 0)
  + 2 * length (items_ (sys_queue (b_queue β)))
  + awake (sys_threads (b_queue β)) + main_left β + one (negb (b_consumer_done β)).

(** The most steps the threads can take, spurious wake-ups apart. *)
Definition step_bound : nat :=
  Z.to_nat producers * S (4 * left per 0) + threads + (Z.to_nat producers + 7 + 4 * S threads) + 1.

Lemma init_fuel : fuel (bench_init capacity producers now) = step_bound.
Proof.
  unfold fuel, step_bound, main_left, bench_init, awake. simpl b_main. simpl b_writers.
  cbn [b_queue b_consumer_done sys_queue sys_threads init items_ new_queue length all_left sum_list_with].
  assert (Ha : forall n, countb runnable (replicate n (@Idle Z)) = n).
  { induction n as [|n IH]; [done|]. rewrite replicate_S, countb_cons, IH. done. }
  rewrite Ha. simpl. lia.
Qed.

(** What the environment may add to the fuel. *)
Definition refill (e : bench_event) : nat :=
  if is_spurious e then 1 else 0.

Lemma main_left_queue β σ' b n ws :
  pending (sys_threads σ') = pending (sys_threads (b_queue β)) ->
  main_left (mkBench σ' b n ws (b_main β)) = main_left β.
Proof. unfold main_left. simpl. by intros ->. Qed.

Lemma push_section_cost (q : BoundedQueue Z) v s :
  push_shape q v s ->
  (2 * length (items_ (sec_queue s)) + sum_list_with (wakes threads) (sec_signals s)
     <= 2 * length (items_ q) + match sec_outcome s with Returned _ => 3 | Sleeps _ _ => 0 end)%nat.
Proof.
  destruct 1; simpl; try lia.
  - rewrite length_app. destruct (items_ q); simpl; lia.
  - unfold push_back. case_bool; simpl; rewrite length_app; simpl; lia.
Qed.

Lemma pop_section_cost (q : BoundedQueue Z) s :
  pop_shape q s ->
  (2 * length (items_ (sec_queue s)) + sum_list_with (wakes threads) (sec_signals s)
     + match sec_outcome s with Returned (Some _) => 1 | _ => 0 end <= 2 * length (items_ q))%nat.
Proof. destruct 1 as [| | |v rest Hi]; simpl; rewrite ?Hi; simpl; lia. Qed.
(** *** Every step of a thread uses some of it *)

(** The claim for one step. *)
Definition pays (β : bench) (e : bench_event) (β' : bench) : Prop :=
  (fuel β' + (if thread_step e then 1 else 0) <= fuel β + refill e)%nat.

Lemma consume_pays β s σ' done' n' :
  live producers per β -> b_consumer_done β = false ->
  step (b_queue β) (EvPop consumer_id tp_max s) σ' ->
  consume s (b_consumed β) = (done', n') ->
  pays β (BQueue (EvPop consumer_id tp_max s)) (mkBench σ' done' n' (b_writers β) (b_main β)).
Proof.
  intros Hl Hd Hs Hc. destruct (pop_step_inv _ _ _ _ Hs) as (Hsh & Hq & Hn & Haf & _).
  destruct (pop_step_runnable _ _ _ _ Hs) as (t & Ht & Hrun). pose proof (live_count _ _ _ Hl) as Hcnt.
  pose proof (notifieds_awake _ _ _ Hn) as Haw. rewrite length_insert, Hcnt in Haw.
  pose proof (awake_insert _ _ _ (after_pop s) Ht) as Hins. rewrite Hrun in Hins.
  pose proof (pop_section_cost _ _ Hsh) as Hcost.
  unfold pays, fuel. rewrite main_left_queue by (eapply pending_update; [exact Hn|done|unfold main_id; lia]).
  cbn [b_writers b_queue b_consumer_done refill is_spurious thread_step]. rewrite Hq, Hd.
  unfold consume, after_pop in *. destruct (sec_outcome s) as [[v|]|c d]; simplify_eq/=; lia.
Qed.

Lemma write_pays β p i s σ' :
  live producers per β -> b_writers β !! p = Some i -> i < per ->
  step (b_queue β) (EvPush (writer_id p) (u64 i) tp_max s) σ' ->
  pays β (BQueue (EvPush (writer_id p) (u64 i) tp_max s))
    (with_writers (with_queue β σ') (<[p := advance s i]> (b_writers β))).
Proof.
  intros Hl Hp Hi Hs. destruct (push_step_inv _ _ _ _ _ Hs) as (Hsh & Hq & Hn & _ & Haf & _).
  destruct (push_step_runnable _ _ _ _ _ Hs) as (t & Ht & Hrun). pose proof (live_count _ _ _ Hl) as Hcnt.
  pose proof (notifieds_awake _ _ _ Hn) as Haw. rewrite length_insert, Hcnt in Haw.
  pose proof (awake_insert _ _ _ (after_push (u64 i) s) Ht) as Hins. rewrite Hrun in Hins.
  pose proof (push_section_cost _ _ _ Hsh) as Hcost.
  unfold pays, fuel, with_writers, with_queue. simpl b_main.
  rewrite main_left_queue by (eapply pending_update; [exact Hn|done|unfold main_id; lia]).
  cbn [b_writers b_queue b_consumer_done refill is_spurious thread_step]. rewrite Hq, length_insert.
  pose proof (all_left_insert per (b_writers β) p i (advance s i) Hp) as Hw.
  unfold advance, after_push in *. destruct (sec_outcome s) as [st|c d] eqn:Ho.
  - assert (left per i = S (left per (i + 1))) by (unfold left; lia).
    change (runnable Idle) with true in Hins. lia.
  - change (one (runnable (Pushing (u64 i) d false))) with 0%nat in Hins.
    change (one true) with 1%nat in Hins. lia.
Qed.

(** The main thread alone moves. *)
Lemma control_pays β m :
  (main_left (with_main β m) < main_left β)%nat -> pays β BControl (with_main β m).
Proof. intros Hlt. unfold pays, fuel. simpl b_writers. simpl b_queue. simpl b_consumer_done. cbn [refill is_spurious thread_step]. lia. Qed.

Lemma pending_notified sgs th th' sg :
  th !! main_id = Some (Closing (sg :: sgs)) ->
  notified sg (<[main_id := Closing sgs]> th) th' -> pending th' = S (length sgs).
Proof.
  intros Hi Hn. pose proof (lookup_lt_Some _ _ _ Hi) as Hlt.
  assert (Hn' : notifieds [sg] (<[main_id := Closing sgs]> th) th') by (econstructor; [done|constructor]).
  unfold pending. destruct (th' !! main_id) as [t'|] eqn:Ht'.
  - destruct (notifieds_lookup _ _ _ _ _ Hn' Ht') as (t0 & H0 & Ht0).
    rewrite list_lookup_insert_eq in H0 by done. simplify_eq. by destruct Ht0 as [->| ->].
  - apply lookup_ge_None in Ht'. rewrite (notifieds_length _ _ _ Hn'), length_insert in Ht'. lia.
Qed.

Lemma closing_pays β σ' :
  live producers per β -> b_main β = MClosing -> step (b_queue β) (EvClosing main_id) σ' ->
  pays β (BQueue (EvClosing main_id)) (with_queue β σ').
Proof.
  intros Hl Hmp Hs. pose proof (live_count _ _ _ Hl) as Hcnt.
  inversion Hs as [| | | | |q th clk ? sg sgs th' Hi Hn|q th clk ? Hi| | |];
    match goal with H : _ = b_queue β |- _ => symmetry in H; rename H into Hb end; subst.
  - pose proof (notified_awake _ _ _ Hn) as Haw.
    pose proof (awake_insert _ _ _ (Closing sgs) Hi) as Hins.
    rewrite Hb in Hcnt. rewrite length_insert in Haw. simpl in Hcnt, Hins.
    unfold pays, fuel, main_left, with_queue. simpl b_main. rewrite Hmp, Hb.
    cbn [b_writers b_queue b_consumer_done sys_queue sys_threads refill is_spurious thread_step].
    rewrite (pending_notified _ _ _ _ Hi Hn). unfold pending at 1. rewrite Hi. simpl length.
    destruct sg; simpl in Haw; lia.
  - pose proof (awake_insert _ _ _ Idle Hi) as Hins. simpl in Hins.
    unfold pays, fuel, main_left, with_queue. simpl b_main. rewrite Hmp, Hb.
    cbn [b_writers b_queue b_consumer_done sys_queue sys_threads refill is_spurious thread_step].
    unfold pending. rewrite list_lookup_insert_eq, Hi by by eapply lookup_lt_Some. simpl length. lia.
Qed.

Lemma spurious_pays β σ' :
  step (b_queue β) EvInternal σ' -> pays β BSpurious (with_queue β σ').
Proof.
  intros Hs. inversion Hs as [| | | | | | | |q th clk i t Hi|q th clk clk' Hle];
    match goal with H : _ = b_queue β |- _ => symmetry in H; rename H into Hb end; subst.
  - pose proof (awake_insert _ _ _ (wake t) Hi) as Hins.
    assert (Hpd : pending (<[i := wake t]> th) = pending th).
    { unfold pending. destruct (decide (i = main_id)) as [->|Hne].
      - rewrite list_lookup_insert_eq, Hi by by eapply lookup_lt_Some. by destruct t.
      - by rewrite list_lookup_insert_ne. }
    unfold pays, fuel, main_left, with_queue. simpl b_main. rewrite Hb.
    cbn [b_writers b_queue b_consumer_done sys_queue sys_threads refill is_spurious thread_step]. rewrite Hpd.
    destruct (runnable t), (runnable (wake t)); simpl in Hins; destruct (b_main β); lia.
  - unfold pays, fuel, main_left, with_queue. simpl b_main. rewrite Hb.
    cbn [b_writers b_queue b_consumer_done sys_queue sys_threads refill is_spurious thread_step]. lia.
Qed.

Lemma tick_pays β σ' :
  step (b_queue β) EvInternal σ' -> sys_threads σ' = sys_threads (b_queue β) ->
  pays β BTick (with_queue β σ').
Proof.
  intros Hs Hth. assert (Hq : sys_queue σ' = sys_queue (b_queue β)) by by inversion Hs.
  unfold pays, fuel, main_left, with_queue. simpl b_main. simpl b_queue. rewrite Hth, Hq.
  cbn [b_writers b_consumer_done refill is_spurious thread_step]. lia.
Qed.

Lemma step_pays β e β' : live producers per β -> bench_step producers per β e β' -> pays β e β'.
Proof.
  intros Hl Hs. pose proof (live_count _ _ _ Hl) as Hcnt. pose proof (live_writers _ _ _ Hl) as Hnw.
  destruct Hs as [β s σ' done' n' Hd Hs Hc|β Hmp Hlt|β Hmp Hle|β p i s σ' Hp Hi Hs
    |β p i Hmp Hp Hi|β p Hmp Hp|β σ' Hmp Hs|β σ' Hmp Hs|β Hmp Hid|β Hmp Hd|β σ' Hs Hth|β σ' Hs Hth].
  - by apply consume_pays.
  - unfold pays, fuel, main_left. simpl. rewrite Hmp, all_left_app, length_app. simpl length.
    unfold zlen in Hlt.
    replace (Z.to_nat producers - length (b_writers β))%nat
      with (S (Z.to_nat producers - (length (b_writers β) + 1))) by lia. lia.
  - apply control_pays. unfold main_left. simpl. rewrite Hmp. lia.
  - by apply write_pays.
  - apply control_pays. unfold main_left. simpl. rewrite Hmp. apply lookup_lt_Some in Hp. lia.
  - apply control_pays. unfold main_left. simpl. rewrite Hmp. lia.
  - inversion Hs as [| | | |q th clk ? Hi| | | | |].
    match goal with H : _ = b_queue β |- _ => symmetry in H; rename H into Hb end. subst.
    pose proof (awake_insert _ _ _ (Closing close_signals) Hi) as Hins. simpl in Hins.
    unfold pays, fuel, main_left, with_main, with_queue. simpl b_main. rewrite Hmp, Hb.
    cbn [b_writers b_queue b_consumer_done sys_queue sys_threads refill is_spurious thread_step].
    unfold pending. rewrite list_lookup_insert_eq by by eapply lookup_lt_Some. simpl. lia.
  - by apply closing_pays.
  - apply control_pays. unfold main_left. simpl. rewrite Hmp. lia.
  - apply control_pays. unfold main_left. simpl. rewrite Hmp. lia.
  - by apply spurious_pays.
  - by apply tick_pays.
Qed.

Lemma run_fuel tr β :
  run (H := bench_lts producers per) (bench_init capacity producers now) tr β ->
  (fuel β + countb thread_step tr <= step_bound + countb is_spurious tr)%nat.
Proof.
  induction 1 as [|tr e β β' Hr IH Hs]; [rewrite init_fuel, !countb_nil; lia|].
  pose proof (step_pays β e β' (run_live capacity producers per now tr β Hr) Hs) as Hp.
  rewrite !countb_app, !countb_cons, !countb_nil. unfold pays in Hp.
  destruct e; cbn [refill is_spurious thread_step one] in *; lia.
Qed.

(** C30: the benchmark over the bounded queue terminates under every schedule. The
    steps of its threads are bounded by a number that depends on the arguments
    alone, plus one for each spurious wake-up, however often the clock ticks; and
    as long as the main thread has not ended, some thread has a step to take. *)
Theorem bench_queue_terminates (tr : list bench_event) (β : bench) :
  run (H := bench_lts producers per) (bench_init capacity producers now) tr β ->
  (countb thread_step tr <= step_bound + countb is_spurious tr)%nat /\
  (b_main β <> MDone -> exists e β', bench_step producers per β e β' /\ thread_step e = true).
Proof.
  intros Hr. split; [pose proof (run_fuel tr β Hr); lia|]. intros Hd.
  destruct (progress producers per β (run_live capacity producers per now tr β Hr) Hd) as (e & β' & Hs & He & _).
  by exists e, β'.
Qed.
End bound.

(** Seven messages for three writers: at most 67 steps; this schedule takes 29. *)
Lemma bench_queue_terminates_witness :
  exists tr β, exec (H := bench_lts 3 2) (bench_init 1 3 0) bench_commands = Some (tr, β) /\
    (countb thread_step tr <= step_bound 3 2 + countb is_spurious tr)%nat /\
    step_bound 3 2 = 67%nat /\ countb is_spurious tr = 0%nat /\ countb thread_step tr = 29%nat.
Proof.
  do 2 eexists. split; [vm_compute; reflexivity|]. split; [|by vm_compute].
  eapply (bench_queue_terminates 1 3 2 0).
  apply (exec_sound (H := bench_lts 3 2) _ bench_commands). vm_compute. reflexivity.
Defined.
