(* ===== verification/BenchQueueTheorems.v ===== *)
(** * BenchQueueTheorems

    What [run_bounded_queue] counts, and that it can always end. *)

From S2P Require Import Prelude Lts BoundedQueue QueueSystem QueueTheorems BenchQueue.
From S2P Require Import BenchQueueInv BenchQueueLive.
Open Scope Z_scope.

(** ** What the benchmark counts *)
Section result.
Variables (capacity count producers per now : Z).
Hypothesis Hper : per_producer count producers = Some per.

Abbreviation bench_run := (run (H := bench_lts producers per) (bench_init capacity producers now)).

Lemma all_sent_counters tr β :
  bench_inv producers per tr β -> all_sent producers per (b_writers β) ->
  b_writers β = replicate (Z.to_nat producers) (Z.max 0 per).
Proof.
  intros [_ _ Hctr _ _ _ _ _ _] [Hl Hall]. apply list_eq. intros p.
  destruct (b_writers β !! p) as [i|] eqn:Hp.
  - specialize (Hctr _ _ Hp). specialize (Hall _ _ Hp).
    apply lookup_lt_Some in Hp. rewrite lookup_replicate_2 by lia. f_equal. lia.
  - apply lookup_ge_None in Hp. symmetry. apply lookup_ge_None. rewrite length_replicate. lia.
Qed.

Lemma bind_sent_max n i : replicate n (Z.max 0 i) ≫= sent = replicate n i ≫= sent.
Proof.
  induction n as [|n IH]; [done|]. by rewrite !replicate_S, !bind_cons, IH, sent_max.
Qed.

Lemma zlen_replicate_sent n i :
  zlen (replicate n i ≫= sent) = Z.of_nat n * Z.max 0 i.
Proof.
  induction n as [|n IH]; [done|].
  change (zlen (sent i ++ (replicate n i ≫= sent)) = Z.of_nat (S n) * Z.max 0 i).
  rewrite zlen_app, IH, zlen_sent. lia.
Qed.

(** At the end every writer has sent its share, and all of it was popped. *)
Lemma bench_over tr β :
  bench_run tr β -> b_main β = MDone ->
  b_writers β = replicate (Z.to_nat producers) (Z.max 0 per) /\
  popped (queue_trace tr) = accepted (queue_trace tr) /\
  popped (queue_trace tr) ≡ₚ replicate (Z.to_nat producers) per ≫= sent.
Proof.
  intros Hr Hd. destruct (bq_run_inv capacity producers per now tr β Hr) as [Hinv Hpol].
  pose proof Hinv as [_ _ _ _ Hm Hacc Hrem Hcon Hdone]. unfold main_ok in Hm. rewrite Hd in Hm.
  destruct Hm as (Hall & Hcl & Hcd). destruct (Hdone Hcd) as [_ Hi].
  pose proof (run_history _ _ _ _ _ _ (fits_wrap 64 capacity ltac:(lia))
                (run_queue capacity producers per now tr β Hr)) as Hh.
  rewrite Hi, app_nil_r, Hrem in Hh.
  pose proof (all_sent_counters tr β Hinv Hall) as Hw. split; [done|]. split; [done|].
  by rewrite <-Hh, Hacc, Hw, bind_sent_max.
Qed.

(** What the queue took, with and without the names of the senders. *)
Lemma run_tagged tr β : bench_run tr β -> (tagged tr).*2 = accepted (queue_trace tr).
Proof.
  induction 1 as [|tr e β β' Hr IH Hs]; [done|].
  rewrite tagged_snoc, fmap_app, IH, queue_trace_snoc. unfold accepted. rewrite bind_app. f_equal.
  destruct Hs; simpl; rewrite ?app_nil_r; try done. by rewrite <-list_fmap_compose, list_fmap_id.
Qed.

Lemma sec_accepted_shape (q : BoundedQueue Z) v s :
  push_shape q v s -> sec_accepted v s = [] \/ sec_accepted v s = [v].
Proof. destruct 1; simpl; auto. Qed.

(** What each writer has sent so far, in the order in which it was taken. *)
Lemma run_from_writer tr β p :
  bench_run tr β -> from_writer p (tagged tr) = sent (default 0 (b_writers β !! p)).
Proof.
  induction 1 as [|tr e β β' Hr IH Hs]; [done|].
  destruct (bq_run_inv capacity producers per now tr β Hr) as [Hinv Hpol].
  rewrite tagged_snoc, from_writer_app, IH.
  destruct Hs as [β s σ' done' n' Hd Hs Hc|β Hmp Hlt| |β k i s σ' Hk Hi Hs| | | | | | |  |]; simpl;
    rewrite ?app_nil_r; try done.
  - rewrite lookup_app. by destruct (b_writers β !! p) as [i|] eqn:Hp; [|destruct (p - _)%nat].
  - destruct (push_step_inv _ _ _ _ _ Hs) as (Hsh & _ & _ & _ & _ & Hf).
    pose proof (writing_open producers per β k i (inv_main _ _ _ _ Hinv) Hk Hi) as Hopen.
    destruct (blocking_push _ _ _ Hsh Hpol Hopen Hf) as (_ & _ & Ho).
    destruct (inv_counters _ _ _ _ Hinv k i Hk) as [Hi0 _].
    destruct (decide (k = p)) as [->|Hne].
    + rewrite from_writer_same, list_lookup_insert_eq, Hk by by eapply lookup_lt_Some. simpl.
      unfold advance. destruct Ho as [(-> & -> & _)|(d & -> & -> & _)]; [by rewrite sent_succ|apply app_nil_r].
    + by rewrite from_writer_other, app_nil_r, list_lookup_insert_ne by done.
Qed.

(** C29: when the benchmark over the bounded queue ends, the consumer has popped
    exactly what the writers sent, in an order that keeps the order of each
    writer: of the messages popped, each known by its sender, those of a writer are
    0, 1, up to [count / producers - 1], and there are no others.  What the consumer
    reports is their number, [count / producers] for each of the [producers]; when
    [producers] divides [count] that is [count]. *)
Theorem bench_queue_exact (tr : list bench_event) (β : bench) :
  bench_run tr β -> b_main β = MDone ->
  popped (queue_trace tr) = (tagged tr).*2 /\
  (forall p, from_writer p (tagged tr) = if decide (p < Z.to_nat producers)%nat then sent per else []) /\
  popped (queue_trace tr) ≡ₚ replicate (Z.to_nat producers) per ≫= sent /\
  b_consumed β = u64 (Z.max 0 producers * Z.max 0 per) /\
  (0 < producers -> 0 <= count < 2 ^ 63 -> Z.divide producers count -> b_consumed β = count).
Proof.
  intros Hr Hd. destruct (bench_over tr β Hr Hd) as (Hw & Hpop & Hperm).
  pose proof (bq_run_inv capacity producers per now tr β Hr) as [[_ _ _ _ _ _ _ Hcon _] _].
  assert (Hlen : zlen (popped (queue_trace tr)) = Z.max 0 producers * Z.max 0 per).
  { unfold zlen at 1. rewrite Hperm. fold (zlen (replicate (Z.to_nat producers) per ≫= sent)).
    rewrite zlen_replicate_sent. lia. }
  split; [by rewrite Hpop, (run_tagged tr β Hr)|]. split.
  { intros p. rewrite (run_from_writer tr β p Hr), Hw. case_decide.
    - rewrite lookup_replicate_2 by done. apply sent_max.
    - rewrite lookup_ge_None_2; [done|]. rewrite length_replicate. lia. }
  split; [done|]. split; [congruence|]. intros Hp Hc [k ->]. rewrite Hcon, Hlen.
  unfold per_producer in Hper. repeat case_bool; simplify_eq/=.
  rewrite Z.quot_mul by lia. assert (0 <= k) by nia. rewrite !Z.max_r by lia.
  rewrite Z.mul_comm. apply wrap_small. split; lia.
Qed.
End result.

(** ** The benchmark can always end *)
Section ends.
Variables (capacity producers per now : Z).

(** The benchmark over the bounded queue can always end: from every state the
    program can reach there is a way to the end in which no thread wakes
    spuriously and no time need pass, so nobody waits for ever for a wake-up. *)
Theorem bench_queue_ends (tr : list bench_event) (β : bench) :
  run (H := bench_lts producers per) (bench_init capacity producers now) tr β ->
  exists tr' β', run (H := bench_lts producers per) β tr' β' /\
    forallb thread_step tr' = true /\ b_main β' = MDone.
Proof.
  remember (work producers per β) as n eqn:Hn. revert tr β Hn.
  induction (lt_wf n) as [n _ IH]. intros tr β Hn Hr.
  destruct (decide (b_main β = MDone)) as [Hd|Hd].
  { exists [], β. by split; [constructor|]. }
  destruct (progress producers per β (run_live capacity producers per now tr β Hr) Hd) as (e & β1 & Hs & He & Hlt).
  destruct (IH (work producers per β1) ltac:(lia) (tr ++ [e]) β1 eq_refl) as (tr' & β' & Hr' & Hne & Hd');
    [by econstructor|].
  exists (e :: tr'), β'. split; [by eapply run_cons|]. split; [|done].
  simpl. by rewrite He.
Qed.
End ends.

(** ** Witnesses *)
Section witnesses.
Lemma bench_queue_exact_witness :
  exists tr β, exec (H := bench_lts 3 2) (bench_init 1 3 0) bench_commands = Some (tr, β) /\
    tagged tr = [(0%nat, 0); (1%nat, 0); (0%nat, 1); (1%nat, 1); (2%nat, 0); (2%nat, 1)] /\
    popped (queue_trace tr) = (tagged tr).*2 /\ from_writer 1 (tagged tr) = sent 2 /\
    b_consumed β = u64 (Z.max 0 3 * Z.max 0 2).
Proof.
  do 2 eexists. split; [vm_compute; reflexivity|]. split; [vm_compute; reflexivity|].
  edestruct (bench_queue_exact 1 7 3 2 0) as (Hp & Hw & _ & Hc & _);
    [reflexivity|apply (exec_sound (H := bench_lts 3 2) _ bench_commands); vm_compute; reflexivity
    |reflexivity|].
  split; [exact Hp|]. split; [exact (Hw 1%nat)|exact Hc].
Defined.

(** From the state in which a writer and the consumer are both asleep. *)
Lemma bench_queue_ends_witness :
  exists tr β, exec (H := bench_lts 3 2) (bench_init 1 3 0) (take 5 bench_commands) = Some (tr, β) /\
    exists tr' β', run (H := bench_lts 3 2) β tr' β' /\ forallb thread_step tr' = true /\ b_main β' = MDone.
Proof.
  do 2 eexists. split; [vm_compute; reflexivity|].
  eapply (bench_queue_ends 1 3 2 0).
  apply (exec_sound (H := bench_lts 3 2) _ (take 5 bench_commands)). vm_compute. reflexivity.
Defined.
End witnesses.
