(* ===== verification/BenchRing.v ===== *)
(** * BenchRing

    [run_spsc_ring] of code/bench/bench_queue_throughput.cpp: the main thread
    pushes [count] numbers into an [SpscRing], spinning while it is full, then
    sets [done]; the consumer pops until it has seen them all, and looks at
    [done] when the ring seems empty.  The ring's own steps, stale loads
    included, are those of [SpscRing]. *)

From S2P Require Import Prelude Lts SpscRing BenchQueue.
Open Scope Z_scope.

(** Where the consumer is: at the head of its loop or in its first [pop]; about
    to load [done]; in the [pop] that follows; past the loop. *)
Inductive consumer_point := CLoop | CDone | CRetry | CEnd.

(** [rb_i] is the producer's loop counter, [rb_seen] the consumer's; [rb_broke]
    notes that the consumer left its loop by [break], [rb_consumed] is the atomic
    counter, [rb_joined] that the main thread has joined the consumer. *)
Record ring_bench := mkRingBench {
  rb_ring : ring_state Z;
  rb_i : Z;
  rb_done : bool;
  rb_seen : Z;
  rb_point : consumer_point;
  rb_broke : bool;
  rb_consumed : Z;
  rb_joined : bool
}.

Definition ring_bench_init (capacity : Z) : ring_bench :=
  {| rb_ring := ring_init 0 (u64 capacity);
     rb_i := 0;
     rb_done := false;
     rb_seen := 0;
     rb_point := CLoop;
     rb_broke := false;
     rb_consumed := 0;
     rb_joined := false |}.

(** The producer's loop counter after an event of its [push]. *)
Definition produced (e : event Z) (i : Z) : Z :=
  match e with EvPushed _ => i + 1 | _ => i end.

(** The consumer after an event of the [pop] in its loop head, and of the one
    after it saw [done]; [break] leaves the loop as its condition does. *)
Definition looped (e : event Z) : consumer_point :=
  match e with EvEmpty => CDone | _ => CLoop end.

Definition retried (e : event Z) : consumer_point :=
  match e with EvPopped _ => CLoop | _ => CRetry end.

Definition saw (e : event Z) (seen : Z) : Z :=
  match e with EvPopped _ => seen +u 1 | _ => seen end.

Definition producer_event (v : Z) (e : event Z) : Prop :=
  e = EvPushing v \/ e = EvPushed v \/ e = EvFull v.
Definition consumer_event (e : event Z) : Prop :=
  e = EvPopping \/ (exists v, e = EvPopped v) \/ e = EvEmpty.

(** A check that loads [write_] loads its newest value.  After an acquire load
    of [done] has read [true], everything the producer did before it stored
    [done] is visible. *)
Definition fresh_load (σ σ' : ring_state Z) : Prop :=
  st_consumer σ = CIdle -> read_ (st_ring σ) = write_cache_ (st_ring σ) ->
  write_cache_ (st_ring σ') = write_ (st_ring σ).

Definition with_point (β : ring_bench) (p : consumer_point) : ring_bench :=
  mkRingBench (rb_ring β) (rb_i β) (rb_done β) (rb_seen β) p (rb_broke β) (rb_consumed β) (rb_joined β).

(** The store of [seen] after the loop. *)
Definition finish (β : ring_bench) (broke : bool) (seen : Z) (σ : ring_state Z) : ring_bench :=
  mkRingBench σ (rb_i β) (rb_done β) seen CEnd broke seen (rb_joined β).

Inductive ring_bench_event := RRing (e : event Z) | RControl.

Section bench.
Variable count : Z.

Inductive ring_bench_step : ring_bench -> ring_bench_event -> ring_bench -> Prop :=
  | rb_produce β e σ' :
      rb_i β < count -> producer_event (u64 (rb_i β)) e -> step (fun v => v) (rb_ring β) e σ' ->
      ring_bench_step β (RRing e)
        (mkRingBench σ' (produced e (rb_i β)) (rb_done β) (rb_seen β) (rb_point β) (rb_broke β)
           (rb_consumed β) (rb_joined β))
  | rb_set_done β :
      count <= rb_i β -> rb_done β = false ->
      ring_bench_step β RControl
        (mkRingBench (rb_ring β) (rb_i β) true (rb_seen β) (rb_point β) (rb_broke β)
           (rb_consumed β) (rb_joined β))
  | rb_loop β e σ' :
      rb_point β = CLoop -> rb_seen β < u64 count -> consumer_event e -> step (fun v => v) (rb_ring β) e σ' ->
      ring_bench_step β (RRing e)
        (mkRingBench σ' (rb_i β) (rb_done β) (saw e (rb_seen β)) (looped e) (rb_broke β)
           (rb_consumed β) (rb_joined β))
  | rb_load_done β :
      rb_point β = CDone -> rb_done β = true ->
      ring_bench_step β RControl (with_point β CRetry)
  | rb_load_not_done β :
      rb_point β = CDone ->
      ring_bench_step β RControl (with_point β CLoop)
  | rb_retry β e σ' :
      rb_point β = CRetry -> e <> EvEmpty -> consumer_event e -> step (fun v => v) (rb_ring β) e σ' ->
      fresh_load (rb_ring β) σ' ->
      ring_bench_step β (RRing e)
        (mkRingBench σ' (rb_i β) (rb_done β) (saw e (rb_seen β)) (retried e) (rb_broke β)
           (rb_consumed β) (rb_joined β))
  | rb_break β σ' :
      rb_point β = CRetry -> step (fun v => v) (rb_ring β) EvEmpty σ' -> fresh_load (rb_ring β) σ' ->
      ring_bench_step β (RRing EvEmpty) (finish β true (rb_seen β) σ')
  | rb_exit β :
      rb_point β = CLoop -> st_consumer (rb_ring β) = CIdle -> u64 count <= rb_seen β ->
      ring_bench_step β RControl (finish β (rb_broke β) (rb_seen β) (rb_ring β))
  | rb_join β :
      rb_done β = true -> rb_point β = CEnd -> rb_joined β = false ->
      ring_bench_step β RControl
        (mkRingBench (rb_ring β) (rb_i β) true (rb_seen β) CEnd (rb_broke β) (rb_consumed β) true).

#[export] Instance ring_bench_lts : LTS ring_bench ring_bench_event := ring_bench_step.

(** What a run of the program is to its ring. *)
Definition ring_event (e : ring_bench_event) : list (event Z) :=
  match e with RRing e => [e] | RControl => [] end.
Definition ring_trace (tr : list ring_bench_event) : list (event Z) := tr ≫= ring_event.

Lemma ring_trace_ring tr e : ring_trace (tr ++ [RRing e]) = ring_trace tr ++ [e].
Proof. unfold ring_trace. by rewrite bind_app. Qed.

Lemma ring_trace_control tr : ring_trace (tr ++ [RControl]) = ring_trace tr.
Proof. unfold ring_trace. rewrite bind_app. apply app_nil_r. Qed.

Lemma pushed_snoc (tr : list (event Z)) e : pushed (tr ++ [e]) = pushed tr ++ pushed_by e.
Proof. unfold pushed. rewrite bind_app. simpl. by rewrite app_nil_r. Qed.

Lemma ring_popped_snoc (tr : list (event Z)) e : popped (tr ++ [e]) = popped tr ++ popped_by e.
Proof. unfold popped. rewrite bind_app. simpl. by rewrite app_nil_r. Qed.

(** ** The invariant of the program *)
Section invariant.
Variable capacity : Z.
Hypothesis Hcapacity : 0 <= capacity <= 2 ^ 63.
Hypothesis Hcount : - 2 ^ 63 <= count < 2 ^ 63.

Lemma run_ring tr β :
  run (ring_bench_init capacity) tr β ->
  run (H := int_ring_lts) (ring_init 0 (u64 capacity)) (ring_trace tr) (rb_ring β).
Proof.
  induction 1 as [|tr e β β' Hr IH Hs]; [constructor|].
  destruct Hs; rewrite ?ring_trace_ring, ?ring_trace_control; simpl; try done; by econstructor.
Qed.

(** What is in the ring. *)
Lemma run_content tr β :
  run (ring_bench_init capacity) tr β ->
  exists q, pushed (ring_trace tr) = popped (ring_trace tr) ++ q /\
    size (st_ring (rb_ring β)) = zlen q.
Proof.
  intros Hr%run_ring. rewrite wrap_small in Hr by (unfold fits; lia).
  destruct (SpscRing.run_inv 0 (fun v => v) capacity _ _ Hcapacity Hr)
    as (κ & q & W & R & RC & WC & Hκ & Hi & Hq).
  exists q. split; [done|]. by destruct (inv_size κ _ _ _ _ _ _ Hκ Hi).
Qed.

Definition producer_ok (i : Z) (p : producer Z) : Prop :=
  match p with
  | PIdle => True
  | PWriting v | PStoring v => v = u64 i /\ i < count
  end.

Definition point_ok (β : ring_bench) (out : list Z) : Prop :=
  match rb_point β with
  | CLoop => rb_broke β = false /\ (st_consumer (rb_ring β) = CIdle \/ rb_seen β < u64 count)
  | CDone => rb_broke β = false /\ st_consumer (rb_ring β) = CIdle /\ rb_seen β < u64 count
  | CRetry => rb_broke β = false /\ rb_done β = true /\ rb_seen β < u64 count
  | CEnd => st_consumer (rb_ring β) = CIdle /\ out = sent count /\
      (rb_broke β = true -> count < 0) /\ rb_consumed β = rb_seen β
  end.

Record rb_inv (tr : list ring_bench_event) (β : ring_bench) : Prop := {
  rbi_pushed : pushed (ring_trace tr) = sent (rb_i β);
  rbi_counter : 0 <= rb_i β <= Z.max 0 count;
  rbi_producer : producer_ok (rb_i β) (st_producer (rb_ring β));
  rbi_seen : rb_seen β = zlen (popped (ring_trace tr));
  rbi_done : rb_done β = true -> count <= rb_i β;
  rbi_point : point_ok β (popped (ring_trace tr));
  rbi_joined : rb_joined β = true -> rb_done β = true /\ rb_point β = CEnd
}.

(** A step of one thread is invisible to the other. *)
Lemma producer_step_inv v σ e σ' :
  producer_event v e -> step (fun v => v) σ e σ' ->
  st_consumer σ' = st_consumer σ /\ popped_by e = [] /\
  match e with
  | EvPushed _ => st_producer σ = PStoring v /\ st_producer σ' = PIdle /\ pushed_by e = [v]
  | _ => pushed_by e = [] /\ (st_producer σ' = PIdle \/ st_producer σ' = PWriting v \/
           st_producer σ' = PStoring v)
  end.
Proof. intros [->|[->| ->]] Hs; inversion Hs; subst; simpl; auto 10. Qed.

Lemma consumer_step_inv σ e σ' :
  consumer_event e -> step (fun v => v) σ e σ' ->
  st_producer σ' = st_producer σ /\ pushed_by e = [] /\
  (e <> EvPopping -> st_consumer σ' = CIdle).
Proof.
  intros [->|[[v ->]| ->]] Hs; inversion Hs; subst; simpl; split_and!; done.
Qed.

(** [pop] after the acquire load of [done] says empty only if the ring is. *)
Lemma fresh_empty σ σ' :
  step (fun v => v) σ EvEmpty σ' -> fresh_load σ σ' ->
  st_consumer σ' = CIdle /\ write_ (st_ring σ) = read_ (st_ring σ).
Proof.
  intros Hs Hf. inversion Hs as [| | | | |r p loaded r' Hl Hk| |]; subst. split; [done|].
  unfold fresh_load in Hf. unfold pop_check in Hk. simpl in *.
  destruct (Z.eqb_spec (read_ r) (write_cache_ r)) as [He|]; [|done].
  injection Hk as <- Hk. simpl in Hf.
  rewrite <-(Hf eq_refl He). by apply negb_false_iff, Z.eqb_eq in Hk.
Qed.

Lemma seen_bound tr β q :
  rb_inv tr β -> pushed (ring_trace tr) = popped (ring_trace tr) ++ q ->
  rb_seen β + zlen q = rb_i β.
Proof.
  intros [Hpu Hi _ Hse _ _ _] Hq. rewrite Hpu in Hq. apply (f_equal zlen) in Hq.
  rewrite zlen_sent, zlen_app in Hq. lia.
Qed.

Lemma u64_count : u64 count = if count <? 0 then count + 2 ^ 64 else count.
Proof.
  case_bool; [|apply wrap_small; unfold fits; lia].
  unfold wrap. rewrite <-(Z.mod_add count 1), Z.mul_1_l by lia. apply Z.mod_small. lia.
Qed.

(** With nothing left in the ring and nothing left to push, all is out. *)
Lemma all_out tr β :
  rb_inv tr β -> pushed (ring_trace tr) = popped (ring_trace tr) -> count <= rb_i β ->
  popped (ring_trace tr) = sent count.
Proof.
  intros [Hpu Hi _ _ _ _ _] Heq Hc. rewrite <-Heq, Hpu, <-(sent_max count). f_equal. lia.
Qed.

Lemma produce_keeps_inv tr β e σ' :
  rb_inv tr β -> rb_i β < count -> producer_event (u64 (rb_i β)) e ->
  step (fun v => v) (rb_ring β) e σ' ->
  rb_inv (tr ++ [RRing e])
    (mkRingBench σ' (produced e (rb_i β)) (rb_done β) (rb_seen β) (rb_point β) (rb_broke β)
       (rb_consumed β) (rb_joined β)).
Proof.
  intros [Hpu Hi Hpr Hse Hd Hpt Hj] Hlt He Hs.
  destruct (producer_step_inv _ _ _ _ He Hs) as (Hc & Hpop & Hprod).
  split; simpl; rewrite ?ring_trace_ring, ?pushed_snoc, ?ring_popped_snoc, ?Hpop, ?app_nil_r; try done.
  - destruct He as [->|[->| ->]]; simpl; rewrite ?app_nil_r; try done.
    by rewrite sent_succ, Hpu by lia.
  - destruct e; simpl; lia.
  - destruct He as [->|[->| ->]]; simpl in *.
    + by destruct Hprod as [_ [->|[->| ->]]].
    + by destruct Hprod as (_ & -> & _).
    + by destruct Hprod as [_ [->|[->| ->]]].
  - intros Hdn. specialize (Hd Hdn). lia.
  - unfold point_ok in *. simpl. by rewrite Hc.
Qed.

Lemma saw_popped e n (out : list Z) :
  fits 64 (n + 1) -> consumer_event e -> n = zlen out -> saw e n = zlen (out ++ popped_by e).
Proof.
  intros Hf [->|[[v ->]| ->]] Hn; simpl; rewrite ?app_nil_r; try done.
  rewrite zlen_app, wrap_small by done. change (zlen [v]) with 1. lia.
Qed.

(** A step of the consumer's [pop], in the loop head or after [done]. *)
Lemma rb_consume_keeps_inv tr β q e σ' point broke n :
  rb_inv tr β -> pushed (ring_trace tr) = popped (ring_trace tr) ++ q ->
  consumer_event e -> step (fun v => v) (rb_ring β) e σ' -> rb_point β <> CEnd ->
  let β' := mkRingBench σ' (rb_i β) (rb_done β) (saw e (rb_seen β)) point broke n (rb_joined β) in
  point_ok β' (popped (ring_trace tr) ++ popped_by e) -> rb_inv (tr ++ [RRing e]) β'.
Proof.
  intros Hinv Hq He Hs Hne β' Hpt'. pose proof (seen_bound tr β q Hinv Hq) as Hsb.
  pose proof (zlen_nonneg q) as Hq0. destruct Hinv as [Hpu Hi Hpr Hse Hd Hpt Hj].
  pose proof (zlen_nonneg (popped (ring_trace tr))) as Hp0.
  destruct (consumer_step_inv _ _ _ He Hs) as (Hp & Hpb & _).
  split; simpl; rewrite ?ring_trace_ring, ?pushed_snoc, ?ring_popped_snoc, ?Hpb, ?app_nil_r; try done.
  - by rewrite Hp.
  - apply saw_popped; [unfold fits; lia|done|done].
  - intros Hjn. by destruct (Hj Hjn).
Qed.

(** A step of either thread that does not touch the ring. *)
Lemma rb_control_keeps_inv tr β β' :
  rb_inv tr β -> rb_ring β' = rb_ring β -> rb_i β' = rb_i β -> rb_seen β' = rb_seen β ->
  (rb_done β' = true -> count <= rb_i β) -> point_ok β' (popped (ring_trace tr)) ->
  (rb_joined β' = true -> rb_done β' = true /\ rb_point β' = CEnd) ->
  rb_inv (tr ++ [RControl]) β'.
Proof.
  intros [Hpu Hi Hpr Hse Hd Hpt Hj] Hr Hc Hs Hd' Hpt' Hj'.
  split; rewrite ?ring_trace_control, ?Hr, ?Hc, ?Hs; done.
Qed.

(** What leaving the loop establishes, by [break] and by its condition. *)
Lemma break_ok tr β q :
  rb_inv tr β -> pushed (ring_trace tr) = popped (ring_trace tr) ++ q ->
  size (st_ring (rb_ring β)) = zlen q -> rb_point β = CRetry ->
  write_ (st_ring (rb_ring β)) = read_ (st_ring (rb_ring β)) ->
  popped (ring_trace tr) = sent count /\ count < 0.
Proof.
  intros Hinv Hq Hsz Hp Hwr. pose proof (seen_bound tr β q Hinv Hq) as Hsb.
  unfold size, size_of in Hsz. rewrite Hwr, Z.sub_diag in Hsz. symmetry in Hsz.
  apply zlen_0 in Hsz as ->. rewrite app_nil_r in Hq. rewrite zlen_nil in Hsb.
  pose proof Hinv as [_ Hi _ _ Hd Hpt _]. unfold point_ok in Hpt. rewrite Hp in Hpt.
  destruct Hpt as (_ & Hdn & Hlt). specialize (Hd Hdn). split; [by eapply all_out|].
  rewrite u64_count in Hlt. case_bool; lia.
Qed.

Lemma exit_ok tr β q :
  rb_inv tr β -> pushed (ring_trace tr) = popped (ring_trace tr) ++ q ->
  u64 count <= rb_seen β -> popped (ring_trace tr) = sent count.
Proof.
  intros Hinv Hq Hle. pose proof (seen_bound tr β q Hinv Hq) as Hsb.
  pose proof (rbi_counter _ _ Hinv) as Hi. zlen_pos q. rewrite u64_count in Hle.
  case_bool; [lia|]. assert (q = []) as -> by (apply zlen_0; lia).
  rewrite app_nil_r in Hq. eapply all_out; [done|done|]. rewrite zlen_nil in Hsb. lia.
Qed.

Lemma rb_step_keeps_inv tr β e β' q :
  rb_inv tr β -> pushed (ring_trace tr) = popped (ring_trace tr) ++ q ->
  size (st_ring (rb_ring β)) = zlen q ->
  ring_bench_step β e β' -> rb_inv (tr ++ [e]) β'.
Proof.
  intros Hinv Hq Hsz Hs. pose proof Hinv as [_ _ _ _ Hd Hpt Hj]. unfold point_ok in Hpt.
  destruct Hs as [β e σ' Hlt He Hs|β Hle Hdn|β e σ' Hp Hlt He Hs|β Hp Hdn|β Hp
    |β e σ' Hp Hne He Hs Hf|β σ' Hp Hs Hf|β Hp Hc Hle|β Hdn Hp Hjn]; try rewrite Hp in Hpt.
  - by apply produce_keeps_inv.
  - apply (rb_control_keeps_inv tr β); try done; simpl.
    + unfold point_ok. simpl. destruct (rb_point β); try done. by destruct Hpt as (? & _ & ?).
    + intros Hjn. by destruct (Hj Hjn).
  - apply (rb_consume_keeps_inv tr β q); try done; [congruence|].
    destruct (consumer_step_inv _ _ _ He Hs) as (_ & _ & Hidle). destruct Hpt as [Hb _].
    destruct He as [->|[[v ->]| ->]]; unfold point_ok; simpl; split_and!; auto.
  - apply (rb_control_keeps_inv tr β); try done.
    + by destruct Hpt as (? & _ & ?).
    + intros Hjn. destruct (Hj Hjn). congruence.
  - apply (rb_control_keeps_inv tr β); try done.
    + destruct Hpt as (? & ? & ?). split; [done|by left].
    + intros Hjn. destruct (Hj Hjn). congruence.
  - apply (rb_consume_keeps_inv tr β q); try done; [congruence|].
    destruct (consumer_step_inv _ _ _ He Hs) as (_ & _ & Hidle). destruct Hpt as (Hb & Hdn & Hlt).
    destruct He as [->|[[v ->]| ->]]; [| |done]; unfold point_ok; simpl; split_and!; auto.
  - destruct (fresh_empty _ _ Hs Hf) as [Hidle Hwr].
    destruct (break_ok tr β q Hinv Hq Hsz Hp Hwr) as [Hout Hneg].
    apply (rb_consume_keeps_inv tr β q EvEmpty); try done; [by right; right|congruence|].
    unfold point_ok. simpl. rewrite app_nil_r. auto.
  - apply (rb_control_keeps_inv tr β); try done.
    + destruct Hpt as [Hb _]. unfold point_ok. simpl. split_and!; [done| |congruence|done].
      by eapply exit_ok.
    + intros Hjn. destruct (Hj Hjn). congruence.
  - apply (rb_control_keeps_inv tr β); try done.
    intros _. by apply Hd.
Qed.

Lemma rb_init_inv : rb_inv [] (ring_bench_init capacity).
Proof. split; simpl; try done; [lia|]. unfold point_ok. simpl. auto. Qed.

Lemma rb_run_inv tr β : run (ring_bench_init capacity) tr β -> rb_inv tr β.
Proof.
  induction 1 as [|tr e β β' Hr IH Hs]; [apply rb_init_inv|].
  destruct (run_content tr β Hr) as (q & Hq & Hsz). by eapply rb_step_keeps_inv.
Qed.

(** C31: when the benchmark over the ring ends, the consumer has popped exactly the
    numbers from 0 to [count - 1], in order, and reports [count] of them; it
    never leaves its loop by [break], unless [count] is negative: after [done]
    is seen the ring cannot be empty before the last number is out, however
    stale the loads before. *)
Theorem bench_ring_exact (tr : list ring_bench_event) (β : ring_bench) :
  run (ring_bench_init capacity) tr β -> rb_joined β = true ->
  popped (ring_trace tr) = sent count /\ rb_consumed β = Z.max 0 count /\
  (0 <= count -> rb_broke β = false).
Proof.
  intros Hr Hj. destruct (rb_run_inv tr β Hr) as [_ _ _ Hse _ Hpt Hjn].
  destruct (Hjn Hj) as [_ Hp]. unfold point_ok in Hpt. rewrite Hp in Hpt.
  destruct Hpt as (_ & Hout & Hb & Hc). split; [done|]. split.
  - by rewrite Hc, Hse, Hout, zlen_sent.
  - intros Hn. destruct (rb_broke β); [|done]. specialize (Hb eq_refl). lia.
Qed.

(** ** The benchmark can always end *)

Definition producer_phase (p : producer Z) : nat :=
  match p with PIdle => 2 | PWriting _ => 1 | PStoring _ => 0 end.
Definition consumer_phase (c : consumer Z) : nat :=
  match c with CIdle => 2 | CReading => 1 | CStoring _ => 0 end.

Definition point_work (β : ring_bench) : nat :=
  match rb_point β with
  | CLoop => 3
  | CDone => if rb_done β then 2 else 4
  | CRetry => 1
  | CEnd => 0
  end.

(** Each step taken below makes this smaller. *)
Definition ring_work (β : ring_bench) : nat :=
  3 * Z.to_nat (count - rb_i β) + producer_phase (st_producer (rb_ring β))
  + (if rb_done β then 0 else 1)
  + 8 * Z.to_nat (Z.max 0 count - rb_seen β) + consumer_phase (st_consumer (rb_ring β))
  + point_work β + (if rb_joined β then 0 else 1).

Definition ring_advances (β : ring_bench) : Prop :=
  exists e β', ring_bench_step β e β' /\ (ring_work β' < ring_work β)%nat.

(** What the proof uses of a reachable state. *)
Record ring_live (β : ring_bench) : Prop := {
  rl_ring : exists κ q W R RC WC, 1 <= κ <= 63 /\ ring_inv κ (rb_ring β) q W R RC WC /\
    rb_seen β + zlen q = rb_i β;
  rl_counter : 0 <= rb_i β <= Z.max 0 count;
  rl_seen : 0 <= rb_seen β;
  rl_producer : producer_ok (rb_i β) (st_producer (rb_ring β));
  rl_done : rb_done β = true -> count <= rb_i β;
  rl_point : rb_point β <> CEnd -> rb_point β <> CLoop -> rb_seen β < u64 count;
  rl_idle : rb_point β = CDone \/ rb_point β = CEnd -> st_consumer (rb_ring β) = CIdle;
  rl_busy : rb_point β = CLoop -> st_consumer (rb_ring β) = CIdle \/ rb_seen β < u64 count;
  rl_retry : rb_point β = CRetry -> rb_done β = true;
  rl_end : rb_point β = CEnd -> rb_seen β = Z.max 0 count
}.

Lemma run_ring_live tr β : run (ring_bench_init capacity) tr β -> ring_live β.
Proof.
  intros Hr. pose proof (rb_run_inv tr β Hr) as Hinv. pose proof (run_ring tr β Hr) as Hrr.
  rewrite wrap_small in Hrr by (unfold fits; lia).
  destruct (SpscRing.run_inv 0 (fun v => v) capacity _ _ Hcapacity Hrr)
    as (κ & q & W & R & RC & WC & Hκ & Hi & Hq).
  pose proof (seen_bound tr β q Hinv Hq) as Hsb.
  destruct Hinv as [Hpu Hc Hpr Hse Hd Hpt Hj]. unfold point_ok in Hpt.
  split; try done.
  - by exists κ, q, W, R, RC, WC.
  - rewrite Hse. apply zlen_nonneg.
  - intros H1 H2. destruct (rb_point β);
      [destruct (H2 eq_refl)|apply Hpt|apply Hpt|destruct (H1 eq_refl)].
  - intros [H1|H1]; rewrite H1 in Hpt; apply Hpt.
  - intros H1. rewrite H1 in Hpt. apply Hpt.
  - intros H1. rewrite H1 in Hpt. apply Hpt.
  - intros H1. rewrite H1 in Hpt. destruct Hpt as (_ & Hout & _). by rewrite Hse, Hout, zlen_sent.
Qed.

(** The consumer's next access, with a fresh load. *)
Lemma consumer_next κ σ q W R RC WC :
  1 <= κ <= 63 -> ring_inv κ σ q W R RC WC ->
  exists e σ', step (fun v => v) σ e σ' /\ fresh_load σ σ' /\ st_producer σ' = st_producer σ /\
    match e with
    | EvPopping => (consumer_phase (st_consumer σ') < consumer_phase (st_consumer σ))%nat /\
        (st_consumer σ = CIdle -> q <> [])
    | EvPopped _ => st_consumer σ' = CIdle /\ consumer_phase (st_consumer σ) = 0%nat /\ q <> []
    | EvEmpty => st_consumer σ = CIdle /\ st_consumer σ' = CIdle /\ q = []
    | _ => False
    end.
Proof.
  intros Hκ Hi. destruct σ as [r p c]. destruct c as [| |v].
  - destruct (pop_check_fresh κ r p CIdle W R RC WC q Hκ Hi) as (Hok & _ & _).
    destruct (inv_size κ _ _ _ _ _ _ Hκ Hi) as (Hsz & _ & _). simpl in Hsz.
    assert (Hl : may_load (write_cache_ r) (write_ r) (write_ r)).
    { apply may_load_newest. destruct Hi as [[_ _ Hw _ _ _ _ _] _ _ _ _]. cbn in Hw. rewrite Hw.
      by apply fits_wrap. }
    assert (Hf : read_ r = write_cache_ r -> write_cache_ (pop_check r (write_ r)).1 = write_ r).
    { unfold pop_check. intros <-. by rewrite Z.eqb_refl. }
    destruct (pop_check r (write_ r)) as [r' ok] eqn:Hk. simpl in Hok, Hf. rewrite Hsz in Hok.
    destruct ok.
    + exists EvPopping, (mkState Z r' p CReading). split; [by eapply step_pop_check|].
      split; [by intros _|]. split; [done|]. split; [simpl; lia|]. intros _ ->. done.
    + exists EvEmpty, (mkState Z r' p CIdle). split; [by eapply step_pop_empty|].
      split; [by intros _|]. split_and!; try done. symmetry in Hok.
      apply negb_false_iff, Z.eqb_eq in Hok. by apply zlen_0.
  - destruct (pop_read (fun v => v) r) as [[r' v]|] eqn:Hk.
    + exists EvPopping, (mkState Z r' p (CStoring v)). split; [by apply step_pop_read|].
      split; [done|]. split; [done|]. split; [simpl; lia|done].
    + exfalso. destruct Hi as [Hc _ _ _ _]. cbn in Hc. unfold pop_read in Hk.
      rewrite (ct_read _ _ _ _ _ _ Hc), (slot_of_pow κ Hκ _ _ _ _ _ _ Hc) in Hk.
      destruct (lookup_lt_is_Some_2 _ _ (slot_bound κ Hκ r _ _ _ _ R Hc)) as [x Hx].
      by rewrite Hx in Hk.
  - exists (EvPopped v), (mkState Z (pop_store r) p CIdle). split; [by apply step_pop_store|].
    split; [done|]. split_and!; try done. intros ->. destruct Hi as [_ _ _ _ [_ Hh]]. done.
Qed.

(** A producer that is past its check, or has room, goes on. *)
Lemma producer_progress β :
  ring_live β -> rb_i β < count ->
  (st_producer (rb_ring β) = PIdle ->
     size (st_ring (rb_ring β)) <> SpscRing.capacity (st_ring (rb_ring β))) ->
  ring_advances β.
Proof.
  intros [(κ & q & W & R & RC & WC & Hκ & Hi & _) Hc _ Hp _ _ _ _ _ _] Hlt Hroom.
  destruct (rb_ring β) as [r p c] eqn:Hb. destruct p as [|v|v]; simpl in Hp, Hroom.
  - pose proof (push_check_fresh κ r PIdle c W R RC WC q Hκ Hi) as Hok.
    assert (Hl : may_load (read_cache_ r) (read_ r) (read_ r)).
    { apply may_load_newest. destruct Hi as [[_ _ _ Hr _ _ _ _] _ _ _ _]. cbn in Hr. rewrite Hr.
      by apply fits_wrap. }
    rewrite (proj2 (Z.eqb_neq _ _) (Hroom eq_refl)) in Hok.
    destruct (push_check r (read_ r)) as [r' ok] eqn:Hk. simpl in Hok. subst ok.
    eexists _, _. split; [eapply (rb_produce β (EvPushing (u64 (rb_i β)))); [done|by left|]|].
    + rewrite Hb. by eapply step_push_check.
    + unfold ring_work, point_work. simpl. rewrite Hb. simpl. lia.
  - destruct Hp as [-> _]. eexists _, _.
    split; [eapply (rb_produce β (EvPushing (u64 (rb_i β)))); [done|by left|]|].
    + rewrite Hb. apply step_push_write.
    + unfold ring_work, point_work. simpl. rewrite Hb. simpl. lia.
  - destruct Hp as [-> _]. eexists _, _.
    split; [eapply (rb_produce β (EvPushed (u64 (rb_i β)))); [done|by right; left|]|].
    + rewrite Hb. apply step_push_store.
    + unfold ring_work, point_work. simpl. rewrite Hb. simpl.
      replace (Z.to_nat (count - rb_i β)) with (S (Z.to_nat (count - (rb_i β + 1)))) by lia. lia.
Qed.

(** An event of [consumer_next] is one of the consumer's. *)
Lemma consumer_loops β e σ' :
  ring_live β -> rb_point β = CLoop -> rb_seen β < u64 count ->
  consumer_event e -> step (fun v => v) (rb_ring β) e σ' ->
  st_producer σ' = st_producer (rb_ring β) ->
  match e with
  | EvPopping => (consumer_phase (st_consumer σ') < consumer_phase (st_consumer (rb_ring β)))%nat
  | EvPopped _ => st_consumer σ' = CIdle /\ consumer_phase (st_consumer (rb_ring β)) = 0%nat /\
      rb_seen β < Z.max 0 count
  | _ => rb_done β = true /\ st_consumer σ' = st_consumer (rb_ring β)
  end -> ring_advances β.
Proof.
  intros Hl Hp Hlt He Hs Hpr Hm. pose proof (rl_seen _ Hl) as Hs0.
  eexists _, _. split; [by eapply rb_loop|].
  unfold ring_work, point_work. simpl. rewrite Hp, Hpr.
  destruct He as [->|[[v ->]| ->]]; simpl in *.
  - lia.
  - destruct Hm as (-> & -> & Hm). rewrite wrap_small by (unfold fits; lia). simpl.
    destruct (rb_done β); lia.
  - destruct Hm as [-> ->]. lia.
Qed.

Lemma consumer_retries β e σ' :
  ring_live β -> rb_point β = CRetry ->
  consumer_event e -> step (fun v => v) (rb_ring β) e σ' -> fresh_load (rb_ring β) σ' ->
  st_producer σ' = st_producer (rb_ring β) ->
  match e with
  | EvPopping => (consumer_phase (st_consumer σ') < consumer_phase (st_consumer (rb_ring β)))%nat
  | EvPopped _ => st_consumer σ' = CIdle /\ consumer_phase (st_consumer (rb_ring β)) = 0%nat /\
      rb_seen β < Z.max 0 count
  | _ => st_consumer σ' = st_consumer (rb_ring β)
  end -> ring_advances β.
Proof.
  intros Hl Hp He Hs Hf Hpr Hm. pose proof (rl_seen _ Hl) as Hs0.
  destruct He as [->|[[v ->]| ->]].
  - eexists _, _. split; [apply (rb_retry _ EvPopping σ'); [done|done|by left|done|done]|].
    unfold ring_work, point_work. simpl. rewrite Hp, Hpr. lia.
  - eexists _, _. split; [apply (rb_retry _ (EvPopped v) σ'); [done|done|by right; left; eexists|done|done]|].
    unfold ring_work, point_work. simpl. rewrite Hp, Hpr. destruct Hm as (-> & -> & Hm).
    rewrite wrap_small by (unfold fits; lia). simpl. lia.
  - eexists _, _. split; [by apply rb_break|].
    unfold ring_work, point_work. simpl. rewrite Hp, Hpr. rewrite Hm. lia.
Qed.

(** The consumer goes on, unless it should wait for the producer. *)
Lemma consumer_runs β :
  ring_live β ->
  (rb_point β = CRetry \/
   rb_point β = CLoop /\ rb_seen β < u64 count /\ (rb_seen β < rb_i β \/ rb_done β = true)) ->
  ring_advances β.
Proof.
  intros Hl Hp. pose proof Hl as [(κ & q & W & R & RC & WC & Hκ & Hi & Hq) Hc _ _ _ _ _ _ _ _].
  destruct (consumer_next κ _ q W R RC WC Hκ Hi) as (e & σ' & Hs & Hf & Hpr & Hm).
  assert (Hpop : q <> [] -> rb_seen β < Z.max 0 count).
  { intros Hne. destruct q as [|x q]; [done|]. rewrite zlen_cons in Hq. zlen_pos q. lia. }
  assert (He : consumer_event e).
  { destruct e; try done; [by left|right; left; by eexists|by right; right]. }
  destruct Hp as [Hp|(Hp & Hlt & Hdo)].
  - apply (consumer_retries β e σ'); [done..|].
    destruct e as [| | | |v|]; [done..|apply Hm| |].
    + destruct Hm as (? & ? & Hne). auto.
    + destruct Hm as (-> & -> & _). done.
  - apply (consumer_loops β e σ'); [done..|].
    destruct e as [| | | |v|]; [done..|apply Hm| |].
    + destruct Hm as (? & ? & Hne). auto.
    + destruct Hm as (-> & -> & ->). split; [|done]. destruct Hdo as [Hlt'|]; [|done].
      rewrite zlen_nil in Hq. lia.
Qed.

Lemma ring_progress β : ring_live β -> rb_joined β = false -> ring_advances β.
Proof.
  intros Hl Hj. pose proof Hl as [(κ & q & W & R & RC & WC & Hκ & Hi & Hq) Hc Hs0 _ Hd Hpt Hidle Hbusy Hrt Hend].
  destruct (decide (rb_i β < count)) as [Hlt|Hge].
  - assert (Hnd : rb_done β = false) by (destruct (rb_done β); [specialize (Hd eq_refl); lia|done]).
    destruct (inv_size κ _ _ _ _ _ _ Hκ Hi) as (Hsz & _ & Hcap). pose proof (pow_bounds κ Hκ) as Hpow.
    destruct (decide (size (st_ring (rb_ring β)) = SpscRing.capacity (st_ring (rb_ring β)))) as [Hfull|Hroom];
      [|by apply producer_progress].
    assert (Hseen : rb_seen β < rb_i β) by lia.
    destruct (rb_point β) eqn:Hp.
    + apply consumer_runs; [done|right]. split_and!; [done| |by left].
      rewrite u64_count. case_bool; lia.
    + eexists _, _. split; [by apply rb_load_not_done|].
      unfold ring_work, point_work. simpl. rewrite Hp, Hnd. lia.
    + by rewrite Hrt in Hnd.
    + specialize (Hend eq_refl). lia.
  - destruct (rb_done β) eqn:Hdn.
    2:{ eexists _, _. split; [apply rb_set_done; [lia|done]|].
        unfold ring_work, point_work. simpl. rewrite Hdn. destruct (rb_point β); lia. }
    destruct (rb_point β) eqn:Hp.
    + destruct (decide (rb_seen β < u64 count)) as [Hlt|Hle];
        [apply consumer_runs; auto|].
      destruct (Hbusy eq_refl) as [Hid|]; [|done].
      eexists _, _. split; [apply rb_exit; [done|done|lia]|].
      unfold ring_work, point_work. simpl. rewrite Hp. lia.
    + eexists _, _. split; [by apply rb_load_done|].
      unfold ring_work, point_work. simpl. rewrite Hp, Hdn. lia.
    + apply consumer_runs; auto.
    + eexists _, _. split; [by apply rb_join|].
      unfold ring_work, point_work. simpl. rewrite Hp, Hj, Hdn. lia.
Qed.

(** The benchmark over the ring can always end: from every state it can reach,
    whatever stale values were loaded on the way, the two threads' own steps lead
    to the join. *)
Theorem bench_ring_ends (tr : list ring_bench_event) (β : ring_bench) :
  run (ring_bench_init capacity) tr β ->
  exists tr' β', run β tr' β' /\ rb_joined β' = true.
Proof.
  remember (ring_work β) as n eqn:Hn. revert tr β Hn.
  induction (lt_wf n) as [n _ IH]. intros tr β Hn Hr.
  destruct (rb_joined β) eqn:Hj; [by exists [], β; split; [constructor|]|].
  destruct (ring_progress β (run_ring_live tr β Hr) Hj) as (e & β1 & Hs & Hlt).
  destruct (IH (ring_work β1) ltac:(lia) (tr ++ [e]) β1 eq_refl) as (tr' & β' & Hr' & Hj');
    [by econstructor|].
  exists (e :: tr'), β'. split; [by eapply run_cons|done].
Qed.
End invariant.
End bench.

(** ** A scheduler and witnesses *)
Section scheduler.
Variable count : Z.

(** The producer's next access; the consumer's next access; the load of [done];
    the end of the loop; [done] set, or the join. *)
Inductive ring_bench_command :=
  | DoPush (loaded : Z)
  | DoPop (loaded : Z)
  | DoLoad (seen_done : bool)
  | DoExit
  | DoMainThread.

Definition push_exec (β : ring_bench) (loaded : Z) : option (ring_bench_event * ring_bench) :=
  if rb_i β <? count then
    let cmd := match st_producer (rb_ring β) with
               | PIdle => RPushCheck (u64 (rb_i β)) loaded
               | _ => RPushNext
               end in
    match ring_exec1 (fun v => v) (rb_ring β) cmd with
    | Some (e, σ') =>
        if match e with EvPushing v | EvPushed v | EvFull v => v =? u64 (rb_i β) | _ => false end
        then Some (RRing e, mkRingBench σ' (produced e (rb_i β)) (rb_done β) (rb_seen β) (rb_point β)
                              (rb_broke β) (rb_consumed β) (rb_joined β))
        else None
    | None => None
    end
  else None.

Definition fresh_loadb (σ σ' : ring_state Z) : bool :=
  match st_consumer σ with
  | CIdle => negb (read_ (st_ring σ) =? write_cache_ (st_ring σ)) ||
             (write_cache_ (st_ring σ') =? write_ (st_ring σ))
  | _ => true
  end.

Lemma fresh_loadb_spec σ σ' : fresh_loadb σ σ' = true -> fresh_load σ σ'.
Proof.
  unfold fresh_loadb, fresh_load. intros Hf Hc He.
  rewrite Hc, He, Z.eqb_refl in Hf. by apply Z.eqb_eq in Hf.
Qed.

Definition pop_exec (β : ring_bench) (loaded : Z) : option (ring_bench_event * ring_bench) :=
  let cmd := match st_consumer (rb_ring β) with CIdle => RPopCheck loaded | _ => RPopNext end in
  match ring_exec1 (fun v => v) (rb_ring β) cmd with
  | Some (e, σ') =>
      if match e with EvPopping | EvPopped _ | EvEmpty => true | _ => false end then
        match rb_point β with
        | CLoop =>
            if rb_seen β <? u64 count then
              Some (RRing e, mkRingBench σ' (rb_i β) (rb_done β) (saw e (rb_seen β)) (looped e)
                               (rb_broke β) (rb_consumed β) (rb_joined β))
            else None
        | CRetry =>
            if fresh_loadb (rb_ring β) σ' then
              match e with
              | EvEmpty => Some (RRing EvEmpty, finish β true (rb_seen β) σ')
              | _ => Some (RRing e, mkRingBench σ' (rb_i β) (rb_done β) (saw e (rb_seen β)) (retried e)
                                      (rb_broke β) (rb_consumed β) (rb_joined β))
              end
            else None
        | _ => None
        end
      else None
  | None => None
  end.

Definition ring_bench_exec1 (β : ring_bench) (c : ring_bench_command)
  : option (ring_bench_event * ring_bench) :=
  match c with
  | DoPush loaded => push_exec β loaded
  | DoPop loaded => pop_exec β loaded
  | DoLoad b =>
      match rb_point β with
      | CDone => if b then if rb_done β then Some (RControl, with_point β CRetry) else None
                 else Some (RControl, with_point β CLoop)
      | _ => None
      end
  | DoExit =>
      match rb_point β, st_consumer (rb_ring β) with
      | CLoop, CIdle =>
          if u64 count <=? rb_seen β
          then Some (RControl, finish β (rb_broke β) (rb_seen β) (rb_ring β)) else None
      | _, _ => None
      end
  | DoMainThread =>
      if rb_done β then
        match rb_point β, rb_joined β with
        | CEnd, false =>
            Some (RControl, mkRingBench (rb_ring β) (rb_i β) true (rb_seen β) CEnd (rb_broke β)
                              (rb_consumed β) true)
        | _, _ => None
        end
      else if count <=? rb_i β then
        Some (RControl, mkRingBench (rb_ring β) (rb_i β) true (rb_seen β) (rb_point β) (rb_broke β)
                          (rb_consumed β) (rb_joined β))
      else None
  end.

Lemma push_exec_sound β l e β' : push_exec β l = Some (e, β') -> ring_bench_step count β e β'.
Proof.
  unfold push_exec. destruct (Z.ltb_spec (rb_i β) count); [|done].
  destruct (ring_exec1 _ _ _) as [[ev σ']|] eqn:Hx; [|done]. apply ring_exec1_sound in Hx.
  intros Hs. destruct ev; simplify_eq; case_bool; simplify_eq; apply rb_produce; unfold producer_event; auto.
Qed.

Lemma pop_exec_sound β l e β' : pop_exec β l = Some (e, β') -> ring_bench_step count β e β'.
Proof.
  unfold pop_exec. destruct (ring_exec1 _ _ _) as [[ev σ']|] eqn:Hx; [|done].
  apply ring_exec1_sound in Hx. intros Hs.
  assert (He : consumer_event ev) by (destruct ev; try done; unfold consumer_event; eauto).
  destruct ev as [| | | |v|]; try done.
  all: destruct (rb_point β) eqn:Hp; try done.
  all: try (destruct (Z.ltb_spec (rb_seen β) (u64 count)); [|done]; simplify_eq; by apply rb_loop).
  all: destruct (fresh_loadb (rb_ring β) σ') eqn:Hf; [|done]; apply fresh_loadb_spec in Hf;
    simplify_eq; by apply rb_retry || by apply rb_break.
Qed.

Lemma ring_bench_exec1_sound β c e β' :
  ring_bench_exec1 β c = Some (e, β') -> ring_bench_step count β e β'.
Proof.
  destruct c; simpl; [apply push_exec_sound|apply pop_exec_sound|..]; intros Hx;
    repeat case_match; simplify_eq;
    repeat match goal with
    | H : (_ <=? _) = true |- _ => apply Z.leb_le in H
    end; eauto using ring_bench_step.
Qed.

#[export] Instance ring_bench_scheduler :
    Scheduler (H := ring_bench_lts count) ring_bench ring_bench_event ring_bench_command :=
  {| exec1 := ring_bench_exec1; exec1_sound := ring_bench_exec1_sound |}.
End scheduler.

(** Three numbers through a ring of two: a pop that finds the ring empty, a push
    that finds it full, and a last pop that sees [done] after a stale load. *)
Definition ring_bench_commands : list ring_bench_command :=
  [DoPop 0; DoLoad false; DoPush 0; DoPush 0; DoPush 0; DoPush 0; DoPush 0; DoPush 0; DoPush 0;
   DoPop 1; DoPop 0; DoPop 0; DoPush 1; DoPush 0; DoPush 0; DoPop 2; DoPop 0; DoPop 0; DoPop 2;
   DoMainThread; DoLoad true; DoPop 3; DoPop 0; DoPop 0; DoExit; DoMainThread].

Lemma bench_ring_exact_witness :
  exists tr β, exec (H0 := ring_bench_scheduler 3) (ring_bench_init 2) ring_bench_commands = Some (tr, β) /\
    popped (ring_trace tr) = [0; 1; 2] /\
    rb_consumed β = Z.max 0 3 /\ (0 <= 3 -> rb_broke β = false).
Proof.
  do 2 eexists. split; [vm_compute; reflexivity|]. split; [vm_compute; reflexivity|].
  edestruct (bench_ring_exact 3 2) as (_ & Hc & Hb);
    [lia|lia|apply (exec_sound (H0 := ring_bench_scheduler 3) _ ring_bench_commands); vm_compute; reflexivity
    |reflexivity|].
  split; [exact Hc|exact Hb].
Defined.

(** From the state in which the ring is full and the producer was refused. *)
Lemma bench_ring_ends_witness :
  exists tr β, exec (H0 := ring_bench_scheduler 3) (ring_bench_init 2) (take 9 ring_bench_commands) = Some (tr, β) /\
    exists tr' β', run (H := ring_bench_lts 3) β tr' β' /\ rb_joined β' = true.
Proof.
  do 2 eexists. split; [vm_compute; reflexivity|].
  eapply (bench_ring_ends 3 2); [lia|lia|].
  apply (exec_sound (H0 := ring_bench_scheduler 3) _ (take 9 ring_bench_commands)).
  vm_compute. reflexivity.
Defined.
