(* ===== verification/BenchRingFair.v ===== *)
(** * BenchRingFair

    The benchmark over the ring ends whenever its two threads are scheduled fairly.
    Both spin: the producer on a full ring, the consumer on an empty one, and what
    they spin on are loads that may be stale.  That they get out needs a scheduler
    that never forgets a thread that can run, and stores that become visible in
    finite time, which C++ asks of its implementations. *)

From S2P Require Import Prelude Lts SpscRing BenchQueue BenchRing.
Open Scope Z_scope.

(** ** Infinite runs

    At every moment a state and the event that leads to the next; [None] when the
    program is over. *)
Section fairness.
Variables (count capacity : Z).
Hypothesis Hcapacity : 0 <= capacity <= 2 ^ 63.
Hypothesis Hcount : - 2 ^ 63 <= count < 2 ^ 63.
Implicit Types (f : nat -> ring_bench) (ev : nat -> option ring_bench_event).

Abbreviation ring_run := (run (H := ring_bench_lts count) (ring_bench_init capacity)).

(** Whose step it is.  Steps outside the ring that move the consumer's point are
    the consumer's; the others are the main thread's. *)
Definition by_main (β : ring_bench) (o : option ring_bench_event) (β' : ring_bench) : Prop :=
  match o with
  | Some (RRing (EvPushing _ | EvPushed _ | EvFull _)) => True
  | Some RControl => rb_point β' = rb_point β
  | _ => False
  end.
Definition by_consumer (β : ring_bench) (o : option ring_bench_event) (β' : ring_bench) : Prop :=
  match o with
  | Some (RRing (EvPopping | EvPopped _ | EvEmpty)) => True
  | Some RControl => rb_point β' <> rb_point β
  | _ => False
  end.

(** The main thread is over, or waits in [join]. *)
Definition main_blocked (β : ring_bench) : Prop :=
  rb_joined β = true \/ (rb_done β = true /\ rb_point β <> CEnd).

(** A step out of [β] loads values at least as new as those of [β0]. *)
Definition sees (β0 β : ring_bench) (o : option ring_bench_event) (β' : ring_bench) : Prop :=
  let newest := st_ring (rb_ring β) in
  let loaded := st_ring (rb_ring β') in
  match o with
  | Some (RRing (EvFull _)) => may_load (read_ (st_ring (rb_ring β0))) (read_ newest) (read_cache_ loaded)
  | Some (RRing EvEmpty) => may_load (write_ (st_ring (rb_ring β0))) (write_ newest) (write_cache_ loaded)
  | Some RControl => rb_point β = CDone -> rb_point β' = CLoop -> rb_done β0 = false
  | _ => True
  end.

Record fair_run f ev : Prop := {
  fr_start : f 0%nat = ring_bench_init capacity;
  fr_step k :
    match ev k with
    | Some e => ring_bench_step count (f k) e (f (S k))
    | None => rb_joined (f k) = true /\ f (S k) = f k
    end;
  (* a thread that is not blocked is scheduled again *)
  fr_main k : exists j, (k <= j)%nat /\ (by_main (f j) (ev j) (f (S j)) \/ main_blocked (f j));
  fr_consumer k : exists j, (k <= j)%nat /\ (by_consumer (f j) (ev j) (f (S j)) \/ rb_point (f j) = CEnd);
  (* what is stored is seen from some time on *)
  fr_visible k : exists j, (k <= j)%nat /\ forall m, (j <= m)%nat -> sees (f k) (f m) (ev m) (f (S m))
}.

(** ** Work and polls *)

Definition point_left (p : consumer_point) : nat :=
  match p with CLoop | CDone => 3 | CRetry => 1 | CEnd => 0 end.

Definition work (β : ring_bench) : nat :=
  3 * Z.to_nat (count - rb_i β) + producer_phase (st_producer (rb_ring β))
  + (if rb_done β then 0 else 1)
  + 8 * Z.to_nat (Z.max 0 count - rb_seen β) + consumer_phase (st_consumer (rb_ring β))
  + point_left (rb_point β) + (if rb_joined β then 0 else 1).

(** What a poll leaves as it was. *)
Definition alike (β β' : ring_bench) : Prop :=
  rb_i β' = rb_i β /\ rb_done β' = rb_done β /\ rb_joined β' = rb_joined β /\
  write_ (st_ring (rb_ring β')) = write_ (st_ring (rb_ring β)) /\
  read_ (st_ring (rb_ring β')) = read_ (st_ring (rb_ring β)) /\
  SpscRing.capacity (st_ring (rb_ring β')) = SpscRing.capacity (st_ring (rb_ring β)).

(** A thread looked and found nothing to do. *)
Definition polled (β : ring_bench) (o : option ring_bench_event) (β' : ring_bench) : Prop :=
  alike β β' /\
  let r := st_ring (rb_ring β) in let r' := st_ring (rb_ring β') in
  match o with
  | Some (RRing (EvFull _)) =>
      rb_point β' = rb_point β /\ rb_i β < count /\ write_ r -u read_cache_ r' = SpscRing.capacity r
  | Some (RRing EvEmpty) => rb_point β = CLoop /\ rb_point β' = CDone /\ read_ r = write_cache_ r'
  | Some RControl => rb_point β = CDone /\ rb_point β' = CLoop
  | _ => False
  end.

Lemma push_check_full (r : SpscRing Z) loaded r' :
  push_check r loaded = (r', false) ->
  write_ r' = write_ r /\ read_ r' = read_ r /\ SpscRing.capacity r' = SpscRing.capacity r /\
  write_ r -u read_cache_ r' = SpscRing.capacity r.
Proof.
  unfold push_check. case_match; [|done]. injection 1 as <- Hn. simpl.
  by apply negb_false_iff, Z.eqb_eq in Hn.
Qed.

Lemma pop_check_empty (r : SpscRing Z) loaded r' :
  pop_check r loaded = (r', false) ->
  write_ r' = write_ r /\ read_ r' = read_ r /\ SpscRing.capacity r' = SpscRing.capacity r /\
  read_ r = write_cache_ r'.
Proof.
  unfold pop_check. case_match; [|done]. injection 1 as <- Hn. simpl.
  by apply negb_false_iff, Z.eqb_eq in Hn.
Qed.
Lemma produce_works β e σ' :
  rb_i β < count -> producer_event (u64 (rb_i β)) e -> step (fun v => v) (rb_ring β) e σ' ->
  let β' := mkRingBench σ' (produced e (rb_i β)) (rb_done β) (rb_seen β) (rb_point β) (rb_broke β)
              (rb_consumed β) (rb_joined β) in
  (work β' < work β)%nat \/ work β' = work β /\ polled β (Some (RRing e)) β'.
Proof.
  intros Hlt He Hs β'. unfold work. subst β'.
  inversion Hs as [r cc v loaded r' Hl Hk|r cc v loaded r' Hl Hk|r cc v|r cc v|r p loaded r' Hl Hk
    |r p loaded r' Hl Hk|r p r' v Hr|r p v]; subst e σ'; simpl; try (left; simpl; lia);
    try (by destruct He as [?|[?|?]]).
  right. split; [reflexivity|]. unfold polled, alike. match goal with H : _ = rb_ring β |- _ => rewrite <-H end. simpl.
  destruct (push_check_full _ _ _ Hk) as (-> & -> & -> & Hf). by split_and!.
Qed.

(** A value taken was one of those still to see. *)
Lemma popped_left tr β v σ' :
  ring_run tr β -> step (fun v => v) (rb_ring β) (EvPopped v) σ' ->
  rb_seen β < Z.max 0 count /\ 0 <= rb_seen β.
Proof.
  intros Hr Hs. destruct (run_ring_live count capacity Hcapacity Hcount tr β Hr)
    as [(κ & q & W & R & RC & WC & Hκ & Hi & Hq) Hc H0 _ _ _ _ _ _ _].
  inversion Hs as [| | | | | | |r p v0 Hb]; subst. destruct Hi as [_ _ _ _ Hcons]. rewrite <-Hb in Hcons.
  simpl in Hcons. destruct Hcons as [_ Hh]. destruct q as [|x q]; [done|]. rewrite zlen_cons in Hq.
  pose proof (zlen_nonneg q). lia.
Qed.

Lemma consume_works tr β e σ' p :
  ring_run tr β -> consumer_event e -> step (fun v => v) (rb_ring β) e σ' ->
  rb_point β = CLoop /\ p = looped e \/ rb_point β = CRetry /\ e <> EvEmpty /\ p = retried e ->
  let β' := mkRingBench σ' (rb_i β) (rb_done β) (saw e (rb_seen β)) p (rb_broke β)
              (rb_consumed β) (rb_joined β) in
  (work β' < work β)%nat \/ work β' = work β /\ polled β (Some (RRing e)) β'.
Proof.
  intros Hr He Hs Hp β'. unfold work. subst β'.
  inversion Hs as [r cc v loaded r' Hl Hk|r cc v loaded r' Hl Hk|r cc v|r cc v|r pp loaded r' Hl Hk
    |r pp loaded r' Hl Hk|r pp r' v Hrd|r pp v]; subst e σ'; try (by destruct He as [?|[[? ?]|?]]).
  - left. simpl. destruct Hp as [[-> ->]|(-> & _ & ->)]; simpl; lia.
  - right. destruct Hp as [[Hp ->]|(_ & ? & _)]; [|done]. split; [simpl; by rewrite Hp|]. unfold polled, alike.
    match goal with H : _ = rb_ring β |- _ => rewrite <-H end. simpl.
    destruct (pop_check_empty _ _ _ Hk) as (-> & -> & -> & Hf). by split_and!.
  - left. simpl. destruct Hp as [[-> ->]|(-> & _ & ->)]; simpl; lia.
  - left. match goal with H : _ = rb_ring β |- _ => rename H into Hb end.
    destruct (popped_left tr β v _ Hr Hs) as [Hlt H0]. simpl. rewrite wrap_small by (unfold fits; lia).
    destruct Hp as [[-> ->]|(-> & _ & ->)]; simpl; lia.
Qed.

Lemma step_works tr β e β' :
  ring_run tr β -> ring_bench_step count β e β' ->
  (work β' < work β)%nat \/ work β' = work β /\ polled β (Some e) β'.
Proof.
  intros Hr Hs. destruct Hs as [β e σ' Hlt He Hs|β Hle Hdn|β e σ' Hp Hlt He Hs|β Hp Hdn|β Hp
    |β e σ' Hp Hne He Hs Hf|β σ' Hp Hs Hf|β Hp Hc Hle|β Hdn Hp Hjn].
  - by apply produce_works.
  - left. unfold work. simpl. rewrite Hdn. lia.
  - apply (consume_works tr); auto.
  - left. unfold work. simpl. rewrite Hp. simpl. lia.
  - right. split; [unfold work; simpl; by rewrite Hp|]. split; [by split_and!|]. done.
  - apply (consume_works tr); auto.
  - left. inversion Hs as [| | | | |r p loaded r' Hl Hk Hb| |]. unfold work. simpl. rewrite Hp, <-Hb. simpl. lia.
  - left. unfold work. simpl. rewrite Hp. simpl. lia.
  - left. unfold work. simpl. rewrite Hp, Hjn, Hdn. simpl. lia.
Qed.
(** ** A stretch of polls *)
Section stretch.
Variables (f : nat -> ring_bench) (ev : nat -> option ring_bench_event).
Hypothesis Hfair : fair_run f ev.

Lemma fair_reaches k : exists tr, ring_run tr (f k).
Proof.
  induction k as [|k [tr Hr]]; [exists []; rewrite (fr_start _ _ Hfair); constructor|].
  pose proof (fr_step _ _ Hfair k) as Hs. destruct (ev k) as [e|].
  - exists (tr ++ [e]). by econstructor.
  - destruct Hs as [_ ->]. by exists tr.
Qed.

Definition all_polls (a b : nat) : Prop := forall m, (a <= m < b)%nat -> polled (f m) (ev m) (f (S m)).

Lemma polls_alike a b : (a <= b)%nat -> all_polls a b -> alike (f a) (f b).
Proof.
  intros Hab. induction Hab as [|b Hab IH]; intros Hp; [by split_and!|].
  destruct IH as (E1 & E2 & E3 & E4 & E5 & E6); [intros m Hm; apply Hp; lia|].
  destruct (Hp b ltac:(lia)) as [(F1 & F2 & F3 & F4 & F5 & F6) _]. split_and!; congruence.
Qed.

(** Either somebody worked, or there were only polls. *)
Lemma work_or_polls k n :
  rb_joined (f k) = false ->
  (exists m, (k <= m)%nat /\ (work (f (S m)) < work (f m))%nat) \/ all_polls k (k + n).
Proof.
  intros Hj. induction n as [|n [IH|IH]]; [right; intros m; lia|by left|].
  destruct (polls_alike k (k + n) ltac:(lia) IH) as (_ & _ & Hjn & _). rewrite Hj in Hjn.
  destruct (fair_reaches (k + n)) as [tr Hr]. pose proof (fr_step _ _ Hfair (k + n)) as Hs.
  destruct (ev (k + n)) as [e|] eqn:He; [|destruct Hs; congruence].
  destruct (step_works tr _ e _ Hr Hs) as [Hlt|[_ Hp]].
  - left. exists (k + n)%nat. split; [lia|done].
  - right. intros m Hm. destruct (decide (m = (k + n)%nat)) as [->|]; [by rewrite He|apply IH; lia].
Qed.

(** Between two points of the loop there is the event that leads over. *)
Lemma polls_between a b :
  (a <= b)%nat -> all_polls a b -> rb_point (f a) <> CEnd ->
  rb_point (f b) <> CEnd /\
  (rb_point (f a) <> CLoop -> rb_point (f b) = CLoop -> exists m, (a <= m < b)%nat /\ ev m = Some RControl) /\
  (rb_point (f a) <> CDone -> rb_point (f b) = CDone -> exists m, (a <= m < b)%nat /\ ev m = Some (RRing EvEmpty)).
Proof.
  intros Hab. induction Hab as [|b Hab IH]; intros Hp Hend; [done|].
  destruct IH as (IH1 & IH2 & IH3); [intros m Hm; apply Hp; lia|done|].
  destruct (Hp b ltac:(lia)) as [_ Hb]. destruct (ev b) as [[[| |v| | |]|]|] eqn:He; try done.
  - destruct Hb as (-> & _ & _). split; [done|].
    split; intros H1 H2; [destruct (IH2 H1 H2) as (m & ? & ?)|destruct (IH3 H1 H2) as (m & ? & ?)];
      exists m; (split; [lia|done]).
  - destruct Hb as (_ & -> & _). split_and!; [done|done|]. intros _ _. exists b. split; [lia|done].
  - destruct Hb as (_ & ->). split_and!; [done| |done]. intros _ _. exists b. split; [lia|done].
Qed.
(** A consumer that only polls does both: it asks the ring, and loads [done]. *)
Lemma consumer_polls j2 j3 :
  (S j2 <= j3)%nat -> all_polls j2 (S j3) ->
  by_consumer (f j2) (ev j2) (f (S j2)) -> by_consumer (f j3) (ev j3) (f (S j3)) ->
  (exists m, (j2 <= m <= j3)%nat /\ ev m = Some (RRing EvEmpty)) /\
  (exists m, (j2 <= m <= j3)%nat /\ ev m = Some RControl).
Proof.
  intros Hle Hp H2 H3. destruct (Hp j2 ltac:(lia)) as [_ Hp2]. destruct (Hp j3 ltac:(lia)) as [_ Hp3].
  assert (Hb : rb_point (f (S j2)) <> CEnd -> _) by (apply (polls_between (S j2) j3); [done|intros m Hm; apply Hp; lia]).
  destruct (ev j2) as [[[]|]|] eqn:E2; try done; destruct Hp2 as [Ha2 Hb2];
    destruct (ev j3) as [[[]|]|] eqn:E3; try done; destruct Hp3 as [Ha3 Hb3].
  - destruct Hb2 as [Hb2 _]. destruct Hb as (_ & Hl & _); [congruence|].
    destruct Hl as (m & Hm & He); [congruence|done|].
    split; [exists j2; split; [lia|done]|exists m; split; [lia|done]].
  - split; [exists j2|exists j3]; (split; [lia|done]).
  - split; [exists j3|exists j2]; (split; [lia|done]).
  - destruct Hb as (_ & _ & Hl); [congruence|].
    destruct Hl as (m & Hm & He); [congruence|done|].
    split; [exists m; split; [lia|done]|exists j2; split; [lia|done]].
Qed.

Lemma may_load_same a x : fits 64 a -> may_load a a x -> x = a.
Proof.
  intros Ha Hl. rewrite <-(wrap_small 64 a Ha) in Hl |- *.
  apply may_load_between in Hl as (l & -> & Hl); [|lia]. by replace l with a by lia.
Qed.

(** The ring cannot be full for the producer and empty for the consumer. *)
Lemma full_not_empty β :
  (exists tr, ring_run tr β) -> let r := st_ring (rb_ring β) in
  write_ r -u read_ r = SpscRing.capacity r -> read_ r = write_ r -> False.
Proof.
  intros [tr Hr] r Hf He. subst r. destruct (run_ring_live count capacity Hcapacity Hcount tr β Hr)
    as [(κ & q & W & R & RC & WC & Hκ & Hi & _) _ _ _ _ _ _ _ _ _].
  rewrite (capacity_pow κ Hκ _ _ _ _ _ (ri_counters _ _ _ _ _ _ _ Hi)) in Hf.
  pose proof (pow_bounds κ Hκ). rewrite He, Z.sub_diag in Hf. change (u64 0) with 0 in Hf. lia.
Qed.
Lemma work_falls a b : (a <= b)%nat -> (work (f b) <= work (f a))%nat.
Proof.
  intros Hab. induction Hab as [|b Hab IH]; [done|]. destruct (fair_reaches b) as [tr Hr].
  pose proof (fr_step _ _ Hfair b) as Hs. destruct (ev b) as [e|].
  - destruct (step_works tr _ e _ Hr Hs) as [Hlt|[Heq _]]; lia.
  - by destruct Hs as [_ ->].
Qed.

(** The counters of a reachable ring are words. *)
Lemma ring_words β :
  (exists tr, ring_run tr β) ->
  fits 64 (read_ (st_ring (rb_ring β))) /\ fits 64 (write_ (st_ring (rb_ring β))) /\
  (rb_i β < count -> rb_point β <> CEnd) /\ (rb_done β = true -> count <= rb_i β).
Proof.
  intros [tr Hr]. destruct (run_ring_live count capacity Hcapacity Hcount tr β Hr)
    as [(κ & q & W & R & RC & WC & Hκ & Hi & Hq) Hc _ _ Hd _ _ _ _ He].
  destruct Hi as [[_ _ Hw Hrd _ _ _ _] _ _ _ _]. rewrite Hw, Hrd.
  split; [by apply fits_wrap|]. split; [by apply fits_wrap|]. split; [|done].
  intros Hlt Hp. specialize (He Hp). pose proof (zlen_nonneg q). lia.
Qed.

(** A producer that finds the ring full, beside a consumer that finds it empty. *)
Lemma no_mutual_polls k j1 m :
  (k <= j1)%nat -> (k <= m)%nat -> all_polls k (S (Nat.max j1 m)) ->
  sees (f k) (f j1) (ev j1) (f (S j1)) -> sees (f k) (f m) (ev m) (f (S m)) ->
  (exists v, ev j1 = Some (RRing (EvFull v))) -> ev m = Some (RRing EvEmpty) -> False.
Proof.
  intros H1 Hm Hp S1 Sm [v E1] Em. rewrite E1 in S1. rewrite Em in Sm. simpl in S1, Sm.
  destruct (polls_alike k j1 H1) as (_ & _ & _ & W1 & R1 & C1); [intros x ?; apply Hp; lia|].
  destruct (polls_alike k m Hm) as (_ & _ & _ & Wm & Rm & _); [intros x ?; apply Hp; lia|].
  destruct (ring_words (f k) (fair_reaches k)) as (Hfr & Hfw & _).
  rewrite R1 in S1. rewrite Wm in Sm. apply may_load_same in S1; [|done]. apply may_load_same in Sm; [|done].
  destruct (Hp j1 ltac:(lia)) as [_ F1]. rewrite E1 in F1. destruct F1 as (_ & _ & F1).
  destruct (Hp m ltac:(lia)) as [_ Fm]. rewrite Em in Fm. destruct Fm as (_ & _ & Fm).
  apply (full_not_empty (f k) (fair_reaches k)); congruence.
Qed.

(** Before the join, sooner or later somebody works. *)
Lemma work_comes k :
  rb_joined (f k) = false -> exists m, (k <= m)%nat /\ (work (f (S m)) < work (f m))%nat.
Proof.
  intros Hj. destruct (fr_visible _ _ Hfair k) as (J & HkJ & Hvis).
  destruct (fr_main _ _ Hfair J) as (j1 & Hj1 & Hmain).
  destruct (fr_consumer _ _ Hfair (S j1)) as (j2 & Hj2 & Hc2).
  destruct (fr_consumer _ _ Hfair (S j2)) as (j3 & Hj3 & Hc3).
  destruct (work_or_polls k (S j3 - k) Hj) as [|Hp]; [done|exfalso].
  replace (k + (S j3 - k))%nat with (S j3) in Hp by lia.
  assert (Hsub : forall a b, (k <= a)%nat -> (b <= S j3)%nat -> all_polls a b) by (intros a b ? ? x ?; apply Hp; lia).
  assert (Hal : forall m, (k <= m <= S j3)%nat -> alike (f k) (f m)) by (intros m ?; apply polls_alike; [lia|apply Hsub; lia]).
  destruct Hmain as [Hmain|[Hjoin|[Hdn Hend]]].
  - destruct (Hp j1 ltac:(lia)) as [_ H1]. pose proof (Hvis j1 ltac:(lia)) as S1.
    destruct (ev j1) as [[[| |v| | |]|]|] eqn:E1; try done; simpl in Hmain; [|destruct H1; congruence].
    destruct H1 as (_ & Hlt & _).
    assert (Hne : forall m, (k <= m <= S j3)%nat -> rb_point (f m) <> CEnd).
    { intros m Hm. apply (ring_words (f m) (fair_reaches m)). destruct (Hal m Hm) as (-> & _).
      by destruct (Hal j1 ltac:(lia)) as (<- & _). }
    destruct Hc2 as [Hc2|Hc2]; [|by destruct (Hne j2 ltac:(lia))].
    destruct Hc3 as [Hc3|Hc3]; [|by destruct (Hne j3 ltac:(lia))].
    destruct (consumer_polls j2 j3 ltac:(lia) ltac:(apply Hsub; lia) Hc2 Hc3) as [(m & Hm & Em) _].
    apply (no_mutual_polls k j1 m); [lia|lia|apply Hsub; lia|by rewrite E1|apply Hvis; lia|by exists v; rewrite E1|done].
  - destruct (Hal j1 ltac:(lia)) as (_ & _ & H & _). congruence.
  - assert (Hne : forall b, (j1 <= b <= S j3)%nat -> rb_point (f b) <> CEnd)
      by (intros b ?; apply (polls_between j1 b); [lia|apply Hsub; lia|done]).
    destruct Hc2 as [Hc2|Hc2]; [|by destruct (Hne j2 ltac:(lia))].
    destruct Hc3 as [Hc3|Hc3]; [|by destruct (Hne j3 ltac:(lia))].
    destruct (consumer_polls j2 j3 ltac:(lia) ltac:(apply Hsub; lia) Hc2 Hc3) as [_ (m & Hm & Em)].
    pose proof (Hvis m ltac:(lia)) as Sm. destruct (Hp m ltac:(lia)) as [_ Fm]. rewrite Em in Sm, Fm.
    destruct Fm as [F1 F2]. specialize (Sm F1 F2). destruct (Hal j1 ltac:(lia)) as (_ & H & _). congruence.
Qed.
Lemma joins_from (k : nat) : exists m, rb_joined (f m) = true.
Proof.
  remember (work (f k)) as n eqn:Hn. revert k Hn. induction (lt_wf n) as [n _ IH]. intros k ->.
  destruct (rb_joined (f k)) eqn:Hj; [by exists k|].
  destruct (work_comes k Hj) as (m & Hkm & Hlt). pose proof (work_falls k m Hkm).
  apply (IH (work (f (S m))) ltac:(lia) (S m) eq_refl).
Qed.
End stretch.

(** C32: scheduled fairly, the benchmark over the ring ends, with every number popped
    once and in order, although both threads spin on loads that may be stale: in
    every infinite run in which a thread that is not blocked is scheduled again and
    a stored value is seen from some time on, the main thread comes past its join. *)
Theorem bench_ring_fair (f : nat -> ring_bench) (ev : nat -> option ring_bench_event) :
  fair_run f ev -> exists k, rb_joined (f k) = true /\ rb_consumed (f k) = Z.max 0 count.
Proof.
  intros Hf. destruct (joins_from f ev Hf 0) as [k Hk]. exists k. split; [done|].
  destruct (fair_reaches f ev Hf k) as [tr Hr].
  destruct (rb_run_inv count capacity Hcapacity Hcount tr _ Hr) as [_ _ _ Hse _ Hpt Hj].
  destruct (Hj Hk) as [_ Hp]. unfold point_ok in Hpt. rewrite Hp in Hpt. destruct Hpt as (_ & Hout & _ & ->).
  by rewrite Hse, Hout, zlen_sent.
Qed.
End fairness.

(** The run of [ring_bench_commands], and after it nothing. *)
Definition ring_fair_state (k : nat) : ring_bench :=
  match exec (H0 := ring_bench_scheduler 3) (ring_bench_init 2) (take k ring_bench_commands) with
  | Some (_, β) => β
  | None => ring_bench_init 2
  end.
Definition ring_fair_event (k : nat) : option ring_bench_event :=
  c ← ring_bench_commands !! k; fst <$> ring_bench_exec1 3 (ring_fair_state k) c.

Lemma ring_fair_step (k : nat) :
  (k < 26)%nat ->
  exists c e, ring_fair_event k = Some e /\
    ring_bench_exec1 3 (ring_fair_state k) c = Some (e, ring_fair_state (S k)).
Proof.
  intros Hk. exists (default DoMainThread (ring_bench_commands !! k)).
  do 26 (destruct k as [|k]; [eexists; split; vm_compute; reflexivity|]). lia.
Qed.

Lemma ring_fair_over (k : nat) :
  (26 <= k)%nat -> ring_fair_event k = None /\ ring_fair_state k = ring_fair_state 26.
Proof.
  intros Hk. unfold ring_fair_event, ring_fair_state.
  rewrite (lookup_ge_None_2 ring_bench_commands k) by done. split; [done|].
  by rewrite take_ge, (take_ge ring_bench_commands 26).
Qed.

Lemma ring_fair_main (k : nat) :
  exists j, (k <= j)%nat /\
    (by_main (ring_fair_state j) (ring_fair_event j) (ring_fair_state (S j)) \/
     main_blocked (ring_fair_state j)).
Proof.
  exists (k `max` 26)%nat. split; [lia|]. right. left.
  destruct (ring_fair_over (k `max` 26)) as [_ ->]; [lia|]. by vm_compute.
Qed.

Lemma bench_ring_fair_witness :
  fair_run 3 2 ring_fair_state ring_fair_event /\
  exists k, rb_joined (ring_fair_state k) = true /\ rb_consumed (ring_fair_state k) = Z.max 0 3.
Proof.
  assert (Hf : fair_run 3 2 ring_fair_state ring_fair_event).
  { split; [reflexivity| |exact ring_fair_main| |]; intros k.
    - destruct (decide (k < 26)%nat) as [Hk|Hk].
      + destruct (ring_fair_step k Hk) as (c & e & -> & Hs). exact (ring_bench_exec1_sound 3 _ c e _ Hs).
      + destruct (ring_fair_over k) as [-> ->]; [lia|]. destruct (ring_fair_over (S k)) as [_ ->]; [lia|].
        split; vm_compute; reflexivity.
    - exists (k `max` 26)%nat. split; [lia|]. right.
      destruct (ring_fair_over (k `max` 26)) as [_ ->]; [lia|]. vm_compute. reflexivity.
    - exists (k `max` 26)%nat. split; [lia|]. intros m Hm.
      destruct (ring_fair_over m) as [-> _]; [lia|]. exact I. }
  split; [exact Hf|]. exact (bench_ring_fair 3 2 ltac:(lia) ltac:(lia) _ _ Hf).
Defined.
