(* ===== verification/BenchBus.v ===== *)
(** * BenchBus

    The end-to-end benchmark (code/bench/bench_bus_latency.cpp): one thread takes
    a buffer from a [BufferPool], puts it in a message and publishes it on a
    [TopicBus], at the beat of a [Ticker]; the workers of the bus call back into
    the statistics of their subscriber.  The bus and the pool are those of
    [BusSystem] and [BufferPool]; this file adds the program around them. *)

From S2P Require Import Prelude Lts Doubles BoundedQueue Qos TopicBus BusSystem BusInvariants.
From S2P Require Import BusFlow BusOrder BusDelivery BusSerial.
From S2P Require BufferPool Histogram Time Args.
From stdpp Require Import strings sorting.
Open Scope Z_scope.

(** ** The data *)

(** The payload is a handle of the pool. *)
Record Sample := mkSample { seq : Z; sample_ns : Z; sample_payload : nat }.

(** [work] is in microseconds. *)
Record SubscriberState := mkSubscriberState {
  latency : Histogram.Histogram;
  received : Z;
  out_of_order : Z;
  last_seq : Z;
  work : Z
}.

Definition new_state (work : Z) : SubscriberState :=
  mkSubscriberState Histogram.new_histogram 0 0 0 work.

(** The callback, when its clock reads [now]; the sleep that follows changes
    nothing. *)
Definition on_message (st : SubscriberState) (message : Sample) (now : Z) : SubscriberState :=
  {| latency := Histogram.record (latency st) (now -u sample_ns message);
     received := received st +u 1;
     out_of_order := if seq message <? last_seq st then out_of_order st +u 1 else out_of_order st;
     last_seq := seq message;
     work := work st |}.

(** The command line.  [None]: a value does not fit. *)
Record config := mkConfig {
  rate_hz : Z;
  cfg_count : Z;
  subscribers : Z;
  payload_bytes : Z;
  cfg_depth : Z;
  pool_size : Z;
  slow_ms : Z;
  reliable_timeout_ms : Z;
  best_effort : bool
}.

Definition read_config (argv : list string) : option config :=
  rate_hz ← Args.arg_int argv "--rate" 1000;
  count ← Args.arg_int argv "--count" 100000;
  subscribers ← Args.arg_int argv "--subscribers" 1;
  payload_bytes ← Args.arg_int argv "--payload" 1024;
  depth ← Args.arg_int argv "--depth" 64;
  pool_size ← Args.arg_int argv "--pool" 256;
  slow_ms ← Args.arg_int argv "--slow-ms" 0;
  reliable_timeout_ms ← Args.arg_int argv "--reliable-timeout-ms" 50;
  Some (mkConfig rate_hz count subscribers payload_bytes depth pool_size slow_ms reliable_timeout_ms
          (Args.arg_flag argv "--best-effort")).

Definition bench_qos (c : config) : QoS :=
  let q := default_qos in
  mkQoS (if best_effort c then BestEffort else Reliable) (durability q) (history q) (u64 (cfg_depth c))
    (deadline q) (lifespan q).

(** The state of subscriber [i]: the first can be slowed down. *)
Definition subscriber_state (c : config) (i : nat) : SubscriberState :=
  new_state (if (i =? 0)%nat && (0 <? slow_ms c) then slow_ms c * 1000 else 0).

(** ** The program *)

(** Where the main thread is. *)
Inductive point :=
  | PSubscribe
  | PLoop
  | PHave (h : nat)
  | PMade
  | PPublishing
  | PTick
  | PSleep (until : Z)
  | PDrain (limit : Z) (w : idle_wait)
  | PShutdown
  | PStopping
  | PDone.

(** [bb_ticker] is made when the main thread comes to it.  [bb_samples] are the messages made so far: the address of a message, which
    the bus knows as the payload of an envelope, is its place in the list. *)
Record bench_bus := mkBenchBus {
  bb_bus : bus_state;
  bb_pool : BufferPool.pool_state;
  bb_samples : list Sample;
  bb_states : list SubscriberState;
  bb_i : Z;
  bb_failed : Z;
  bb_empty : Z;
  bb_missed : Z;
  bb_ticker : option Time.Ticker;
  bb_point : point
}.

Definition with_bus (β : bench_bus) (σ : bus_state) : bench_bus :=
  mkBenchBus σ (bb_pool β) (bb_samples β) (bb_states β) (bb_i β) (bb_failed β) (bb_empty β)
    (bb_missed β) (bb_ticker β) (bb_point β).
Definition with_pool (β : bench_bus) (π : BufferPool.pool_state) : bench_bus :=
  mkBenchBus (bb_bus β) π (bb_samples β) (bb_states β) (bb_i β) (bb_failed β) (bb_empty β)
    (bb_missed β) (bb_ticker β) (bb_point β).
Definition with_samples (β : bench_bus) (l : list Sample) : bench_bus :=
  mkBenchBus (bb_bus β) (bb_pool β) l (bb_states β) (bb_i β) (bb_failed β) (bb_empty β)
    (bb_missed β) (bb_ticker β) (bb_point β).
Definition with_states (β : bench_bus) (l : list SubscriberState) : bench_bus :=
  mkBenchBus (bb_bus β) (bb_pool β) (bb_samples β) l (bb_i β) (bb_failed β) (bb_empty β)
    (bb_missed β) (bb_ticker β) (bb_point β).
Definition with_point (β : bench_bus) (p : point) : bench_bus :=
  mkBenchBus (bb_bus β) (bb_pool β) (bb_samples β) (bb_states β) (bb_i β) (bb_failed β) (bb_empty β)
    (bb_missed β) (bb_ticker β) p.
Definition with_counters (β : bench_bus) (i failed empty missed : Z) (t : option Time.Ticker) : bench_bus :=
  mkBenchBus (bb_bus β) (bb_pool β) (bb_samples β) (bb_states β) i failed empty missed t (bb_point β).

(** What a subscriber's state becomes when the bus calls back with envelope [e]. *)
Definition called_back (samples : list Sample) (states : list SubscriberState) (id : nat) (e : Envelope)
    (now : Z) : list SubscriberState :=
  match samples !! Z.to_nat (payload e) with
  | Some message => alter (fun st => on_message st message now) id states
  | None => states
  end.

(** The program after a step of the bus: the callback ran, reading the clock at
    [now]; or publish returned. *)
Definition after_event (β : bench_bus) (ev : event) (now : Z) : bench_bus :=
  match ev with
  | EvCallback id e _ => with_states β (called_back (bb_samples β) (bb_states β) id e now)
  | EvPublished _ acc =>
      with_point (with_counters β (bb_i β) (if acc then bb_failed β else bb_failed β +u 1)
                    (bb_empty β) (bb_missed β) (bb_ticker β)) PTick
  | EvReject _ =>
      with_point (with_counters β (bb_i β) (bb_failed β +u 1) (bb_empty β) (bb_missed β) (bb_ticker β))
        PTick
  | _ => β
  end.

(** A step of the bus that is not the main thread's: a worker's, or time. *)
Definition unattended (σ : bus_state) (ev : event) (σ' : bus_state) : Prop :=
  bs_clients σ' = bs_clients σ /\ topics_ (bs_bus σ') = topics_ (bs_bus σ) /\
  mismatch_handler_ (bs_bus σ') = mismatch_handler_ (bs_bus σ) /\
  reliable_timeout_ (bs_bus σ') = reliable_timeout_ (bs_bus σ) /\
  forall p, ev <> EvReject p.

(** The messages that somebody still points to. *)
Definition client_holds (c : client) : list Z :=
  match c with
  | CStamped _ message _ => [message]
  | CNotify _ _ _ e _ | CPublish e _ _ | CBlocked e _ _ _ _ => [payload e]
  | CBacklog _ backlog => payload <$> backlog
  | _ => []
  end.

Definition bus_holds (b : TopicBus) : list Z :=
  (map_to_list (topics_ b) ≫= fun kv => payload <$> te_latched kv.2) ++
  (heap b ≫= fun s => payload <$> in_sub s).

Definition reachable (β : bench_bus) (k : nat) : Prop :=
  Z.of_nat k ∈ (bs_clients (bb_bus β) ≫= client_holds) \/
  Z.of_nat k ∈ bus_holds (bs_bus (bb_bus β)) \/
  (bb_point β = PMade /\ S k = length (bb_samples β)).

Inductive bench_bus_event :=
  | BBus (ev : event)
  | BPool (ev : BufferPool.event)
  | BMain.

Section program.
(** The command line, and the [type_index] of [Sample]. *)
Variables (c : config) (sample_type : Z).

Definition bench_publisher : Publisher := mkPublisher true "bench" sample_type (bench_qos c).

Definition bench_init (now : Z) : bench_bus :=
  let bus := set_reliable_timeout new_bus (reliable_timeout_ms c * 1000000) in
  {| bb_bus := mkState (advertise bus "bench" sample_type (bench_qos c)).1 [CIdle] now;
     bb_pool := BufferPool.create (u64 (payload_bytes c)) (u64 (pool_size c));
     bb_samples := [];
     bb_states := [];
     bb_i := 0; bb_failed := 0; bb_empty := 0; bb_missed := 0;
     bb_ticker := None;
     bb_point := PSubscribe |}.

Definition idle_main (β : bench_bus) : Prop := bs_clients (bb_bus β) = [CIdle].

Inductive bench_bus_step : bench_bus -> bench_bus_event -> bench_bus -> Prop :=
  (** the loop that subscribes *)
  | bb_subscribe β id σ' :
      bb_point β = PSubscribe -> idle_main β -> zlen (bb_states β) < subscribers c ->
      let b := bs_bus (bb_bus β) in
      subscribe_register b "bench" sample_type (bench_qos c) = (bs_bus σ', Some (id, [])) ->
      bs_clients σ' = [CBacklog id []] -> bs_clock σ' = bs_clock (bb_bus β) ->
      bench_bus_step β (BBus (EvSubscribe id (bench_qos c) []))
        (with_states (with_bus β σ') (bb_states β ++ [subscriber_state c (length (bb_states β))]))
  (** [Ticker ticker(rate_hz)] reads the clock *)
  | bb_subscribed β t :
      bb_point β = PSubscribe -> idle_main β -> subscribers c <= zlen (bb_states β) ->
      Time.new_ticker (to_double (rate_hz c)) (bs_clock (bb_bus β)) = Some t ->
      bench_bus_step β BMain
        (with_point (with_counters β (bb_i β) (bb_failed β) (bb_empty β) (bb_missed β) (Some t)) PLoop)
  (** the publishing loop *)
  | bb_acquired β h π' :
      bb_point β = PLoop -> bb_i β < cfg_count c ->
      BufferPool.step (bb_pool β) (BufferPool.EvAcquire (Some h)) π' ->
      bench_bus_step β (BPool (BufferPool.EvAcquire (Some h))) (with_point (with_pool β π') (PHave h))
  | bb_exhausted β π' :
      bb_point β = PLoop -> bb_i β < cfg_count c ->
      BufferPool.step (bb_pool β) (BufferPool.EvAcquire None) π' ->
      bench_bus_step β (BPool (BufferPool.EvAcquire None))
        (with_point (with_counters (with_pool β π') (bb_i β) (bb_failed β) (bb_empty β +u 1)
                       (bb_missed β) (bb_ticker β)) PTick)
  | bb_make β h ok π' :
      bb_point β = PHave h ->
      BufferPool.step (bb_pool β) (BufferPool.EvResize h (u64 (payload_bytes c)) ok) π' ->
      bench_bus_step β (BPool (BufferPool.EvResize h (u64 (payload_bytes c)) ok))
        (with_point (with_samples (with_pool β π')
           (bb_samples β ++ [mkSample (u64 (bb_i β)) (u64 (bs_clock (bb_bus β))) h])) PMade)
  | bb_publish β :
      bb_point β = PMade -> idle_main β ->
      let message := zlen (bb_samples β) - 1 in
      let σ := bb_bus β in
      bench_bus_step β (BBus EvInternal)
        (with_point (with_bus β (mkState (bs_bus σ) [CStamped bench_publisher message (u64 (bs_clock σ))]
                                   (bs_clock σ))) PPublishing)
  | bb_missed_tick β t t' :
      bb_point β = PTick -> bb_ticker β = Some t ->
      Time.sleep_until_next t (bs_clock (bb_bus β)) = Some (t', true) ->
      bench_bus_step β BMain
        (with_point (with_counters β (bb_i β + 1) (bb_failed β) (bb_empty β) (bb_missed β +u 1) (Some t')) PLoop)
  | bb_sleep β t t' :
      bb_point β = PTick -> bb_ticker β = Some t ->
      Time.sleep_until_next t (bs_clock (bb_bus β)) = Some (t', false) ->
      bench_bus_step β BMain
        (with_point (with_counters β (bb_i β) (bb_failed β) (bb_empty β) (bb_missed β) (Some t'))
           (PSleep (Time.next_ t')))
  | bb_wake β until :
      bb_point β = PSleep until -> until <= bs_clock (bb_bus β) ->
      bench_bus_step β BMain
        (with_point (with_counters β (bb_i β + 1) (bb_failed β) (bb_empty β) (bb_missed β) (bb_ticker β))
           PLoop)
  (** after the loop *)
  | bb_published_all β :
      bb_point β = PLoop -> cfg_count c <= bb_i β ->
      bench_bus_step β BMain (with_point β (PDrain (bs_clock (bb_bus β) + 10000 * 1000000) WLock))
  | bb_waiting β limit w :
      bb_point β = PDrain limit w -> (forall r, w <> WReturn r) ->
      bench_bus_step β BMain
        (with_point β (PDrain limit (wait_for_idle limit w (bs_bus (bb_bus β)) (bs_clock (bb_bus β)))))
  | bb_drained β limit r :
      bb_point β = PDrain limit (WReturn r) ->
      bench_bus_step β BMain (with_point β PShutdown)
  | bb_shutdown β σ' :
      bb_point β = PShutdown -> idle_main β ->
      σ' = mkState (shutdown_detach (bs_bus (bb_bus β))).1
             [CStop (shutdown_detach (bs_bus (bb_bus β))).2] (bs_clock (bb_bus β)) ->
      bench_bus_step β (BBus (EvDetach (shutdown_detach (bs_bus (bb_bus β))).2))
        (with_point (with_bus β σ') PStopping)
  | bb_stopped β :
      bb_point β = PStopping -> idle_main β ->
      bench_bus_step β BMain (with_point β PDone)
  (** what the main thread does inside an operation of the bus, and the workers *)
  | bb_bus_step β ev σ' now :
      step (bb_bus β) ev σ' -> (~ idle_main β \/ unattended (bb_bus β) ev σ') ->
      bs_clock (bb_bus β) <= now ->
      bench_bus_step β (BBus ev) (after_event (with_bus β σ') ev (u64 now))
  (** the last pointer to a message is gone: so is its handle *)
  | bb_release β k m b :
      bb_samples β !! k = Some m -> ~ reachable β k ->
      BufferPool.ps_handles (bb_pool β) !! sample_payload m = Some (BufferPool.mkHandle b 1) ->
      let π := bb_pool β in
      bench_bus_step β (BPool BufferPool.EvInternal)
        (with_pool β (BufferPool.mkState (BufferPool.ps_buffers π) (BufferPool.ps_pool π)
           (BufferPool.ps_users π)
           (<[sample_payload m := BufferPool.mkHandle b 0]> (BufferPool.ps_handles π))
           (BufferPool.ps_deleters π ++ [BufferPool.DStart b])))
  | bb_deleter β π' :
      BufferPool.step (bb_pool β) BufferPool.EvInternal π' ->
      BufferPool.ps_handles π' = BufferPool.ps_handles (bb_pool β) ->
      BufferPool.ps_users π' = BufferPool.ps_users (bb_pool β) ->
      bench_bus_step β (BPool BufferPool.EvInternal) (with_pool β π').

#[export] Instance bench_bus_lts : LTS bench_bus bench_bus_event := bench_bus_step.
End program.

(** ** The bus under the program *)

Definition bus_event (e : bench_bus_event) : list event :=
  match e with BBus ev => [ev] | _ => [] end.

(** What the bus has done: the two calls before the loop, then the trace. *)
Definition bus_trace (tr : list bench_bus_event) : list event :=
  [EvInternal; EvInternal] ++ (tr ≫= bus_event).

Lemma bus_trace_bus tr ev : bus_trace (tr ++ [BBus ev]) = bus_trace tr ++ [ev].
Proof. unfold bus_trace. by rewrite bind_snoc, app_assoc. Qed.

Lemma bus_trace_other tr e : bus_event e = [] -> bus_trace (tr ++ [e]) = bus_trace tr.
Proof. unfold bus_trace. intros He. by rewrite bind_snoc, He, app_nil_r. Qed.

Lemma step_clients σ ev σ' :
  step σ ev σ' -> length (bs_clients σ') = length (bs_clients σ).
Proof. by destruct 1; simpl; rewrite ?length_insert. Qed.

(** With one client, every run is serial for every subscription. *)
Lemma one_client_serial id σ ev σ' :
  length (bs_clients σ) = 1%nat -> step σ ev σ' -> serial_step id σ ev σ'.
Proof.
  intros Hl Hs. split; [done|]. intros Hd. unfold in_transit.
  assert (Hone : forall i c', bs_clients σ !! i = Some c' -> bs_clients σ = [c']).
  { intros i c' Hi. destruct (bs_clients σ) as [|c0 [|]]; [done| |done].
    apply list_lookup_singleton_Some in Hi as [_ ->]. done. }
  destruct Hs; simpl in *; try done;
    match goal with Hi : _ !! _ = Some _ |- _ => rewrite (Hone _ _ Hi) end; done.
Qed.

Section bus.
Variables (c : config) (sample_type : Z) (now : Z).

Abbreviation bench_run :=
  (run (H := bench_bus_lts c sample_type) (bench_init c sample_type now)).

Lemma bench_qos_ok : qos_ok (bench_qos c).
Proof. apply fits_wrap. lia. Qed.

(** Each step of the program is a step of the bus, or leaves it alone. *)
Lemma bench_step_bus β e β' :
  bench_bus_step c sample_type β e β' ->
  (exists ev, bus_event e = [ev] /\ step (bb_bus β) ev (bb_bus β')) \/
  (bus_event e = [] /\ bb_bus β' = bb_bus β).
Proof.
  destruct 1 as [β id σ' Hp Hid Hlt b Hreg Hcl Hck| | | | |β Hp Hid message σ| | | | | | |β σ' Hp Hid ->| |β ev σ' t Hs _ _| |];
    unfold idle_main in *; simpl; try (by right); left; eexists; (split; [done|]).
  - destruct (bb_bus β) as [b0 cs clk], σ' as [b' cs' clk']; simpl in *; subst.
    apply (step_subscribe b0 [CIdle] clk 0 "bench" sample_type (bench_qos c) b' id []);
      [done|apply bench_qos_ok|done].
  - subst σ. destruct (bb_bus β) as [b0 cs clk]; simpl in *; subst.
    by apply (step_stamp _ [CIdle] _ 0).
  - destruct (bb_bus β) as [b0 cs clk]; simpl in *; subst.
    by apply (step_shutdown _ [CIdle] _ 0).
  - by destruct ev.
Qed.

Lemma bench_run_bus id tr β :
  bench_run tr β ->
  run (H := serial_lts id) (bus_init 1 now) (bus_trace tr) (bb_bus β) /\
  length (bs_clients (bb_bus β)) = 1%nat.
Proof.
  induction 1 as [|tr e β β' Hr [IH Hl] Hs].
  - split; [|done]. apply (run_snoc _ [EvInternal] _ (mkState (set_reliable_timeout new_bus (reliable_timeout_ms c * 1000000)) [CIdle] now)).
    + apply run_one. split; [|done]. by apply (step_set_timeout _ [CIdle] _ 0).
    + split; [|done]. by apply (step_advertise _ [CIdle] _ 0).
  - destruct (bench_step_bus β e β' Hs) as [(ev & He & Hstep)|[He Heq]].
    + destruct e as [ev0| |]; simplify_eq/=. rewrite bus_trace_bus. split.
      * eapply run_snoc; [exact IH|]. by apply one_client_serial.
      * by rewrite (step_clients _ _ _ Hstep).
    + rewrite bus_trace_other, Heq by done. done.
Qed.
End bus.

