(* ===== verification/BenchOrder.v ===== *)
(** * BenchOrder

    The benchmark of [BenchBus], where its messages are in its own terms: where
    the main thread can be at each moment, the numbers of the messages on their
    way, and what each subscriber's statistics say of its callbacks. *)

From stdpp Require Import strings sorting.
From S2P Require Import Prelude Lts Doubles BoundedQueue Qos TopicBus BusSystem BusInvariants.
From S2P Require Import BusFlow BusOrder BusDelivery BusSerial BenchBus.
From S2P Require BufferPool Histogram Time Args.
Open Scope Z_scope.

(** ** What one step of the bus can be *)

(** What kind of operation a client is in. *)
Inductive kind := KIdle | KStamped | KPublishing | KSubscribing | KStopping.

Definition kind_of (cl : client) : kind :=
  match cl with
  | CIdle => KIdle
  | CStamped _ _ _ => KStamped
  | CNotify _ _ _ _ _ | CPublish _ _ _ | CBlocked _ _ _ _ _ => KPublishing
  | CBacklog _ _ => KSubscribing
  | CStop _ | CJoin _ _ => KStopping
  end.

(** How the client of the program can move with event [ev]. *)
Definition client_move (ev : event) (cl cl' : client) : Prop :=
  match ev with
  | EvSelect p e targets =>
      NoDup targets /\ (exists t, cl = CStamped p (payload e) t) /\ kind_of cl' = KPublishing
  | EvPublished _ _ => kind_of cl = KPublishing /\ cl' = CIdle
  | EvReject _ => kind_of cl = KStamped /\ cl' = CIdle
  | EvSubscribe _ _ _ | EvDetach _ => False
  | EvCallback _ _ _ => cl' = cl
  | _ => cl' = cl \/ kind_of cl <> KStamped /\ kind_of cl <> KIdle /\
           (kind_of cl' = kind_of cl \/ kind_of cl <> KPublishing /\ cl' = CIdle)
  end.

Lemma after_target_kind e id targets acc sec : kind_of (after_target e id targets acc sec) = KPublishing.
Proof. unfold after_target. by destruct (sec_outcome sec). Qed.

Lemma bus_step_move σ ev σ' cl :
  bus_wf (bs_bus σ) -> bs_clients σ = [cl] -> step σ ev σ' ->
  (bs_clients σ <> [CIdle] \/ unattended σ ev σ') ->
  exists cl', bs_clients σ' = [cl'] /\ client_move ev cl cl'.
Proof.
  intros Hwf Hcl Hs Hatt.
  destruct Hs; simpl in *; subst;
    try match goal with
    | Hi : [cl] !! ?i = Some _ |- _ => apply list_lookup_singleton_Some in Hi as [-> ->]; simpl in *
    end;
    try (destruct Hatt as [Hatt|(Hc & _ & _ & _ & Hrej)]; [done|simpl in *; simplify_eq; try done]);
    eexists; (split; [done|]); simpl; try (by left); try done; try (right; split_and!; try done);
    rewrite ?after_target_kind; auto.
  - by destruct (Hrej p).
  - match goal with Hp : publish_select _ _ _ _ _ _ = _ |- _ =>
      apply select_spec in Hp as (en & Hen & _ & -> & -> & _) end.
    split; [|split; [by eexists|done]]. apply NoDup_filter. by eapply wf_nodup.
Qed.

(** Where the client is, at each point of the program. *)
Definition main_ok (β : bench_bus) (cl : client) : Prop :=
  match bb_point β with
  | PSubscribe => kind_of cl = KIdle \/ kind_of cl = KSubscribing
  | PPublishing => kind_of cl = KStamped \/ kind_of cl = KPublishing
  | PStopping => kind_of cl = KIdle \/ kind_of cl = KStopping
  | _ => cl = CIdle
  end /\
  match cl with CStamped _ m _ => m = zlen (bb_samples β) - 1 /\ 0 <= m | _ => True end /\
  (bb_point β = PMade -> bb_samples β <> []).

(** The messages made and not yet selected for any subscription. *)
Definition unsent (β : bench_bus) (cl : client) : Z :=
  match bb_point β, cl with
  | PMade, _ | PPublishing, CStamped _ _ _ => 1
  | _, _ => 0
  end.

(** The sequence numbers given out so far stay below this. *)
Definition next_seq (β : bench_bus) : Z :=
  match bb_point β with
  | PMade | PPublishing | PTick | PSleep _ => bb_i β + 1
  | _ => bb_i β
  end.

Definition seq_at (samples : list Sample) (e : Envelope) : Z :=
  match samples !! Z.to_nat (payload e) with Some m => seq m | None => 0 end.

(** What a subscriber's state says of the callbacks it has had. *)
Record state_ok (samples : list Sample) (cbs : list Envelope) (st : SubscriberState) : Prop := {
  so_received : received st = u64 (zlen cbs);
  so_count : Histogram.count_ (latency st) = u64 (zlen cbs);
  so_order : out_of_order st = 0;
  so_last : last_seq st = match last cbs with Some e => seq_at samples e | None => 0 end
}.

(** In a round of the loop its condition held; after the loop it does not. *)
Definition round_ok (count : Z) (β : bench_bus) : Prop :=
  match bb_point β with
  | PHave _ | PMade | PPublishing | PTick | PSleep _ => bb_i β < count
  | PDrain _ _ | PShutdown | PStopping | PDone => count <= bb_i β
  | _ => True
  end.

(** The calls of publish that returned false. *)
Definition publish_failed (ev : event) : bool :=
  match ev with EvPublished _ acc => negb acc | EvReject _ => true | _ => false end.

(** Each round makes a message or finds the pool empty. *)
Record account_ok (count : Z) (btr : list event) (β : bench_bus) : Prop := {
  ac_round : round_ok count β;
  ac_bound : 0 <= bb_i β <= Z.max 0 count;
  ac_made : next_seq β = zlen (bb_samples β) + bb_empty β;
  ac_empty : 0 <= bb_empty β;
  ac_failed : bb_failed β = u64 (Z.of_nat (countb publish_failed btr))
}.

Record program_inv (count : Z) (btr : list event) (β : bench_bus) : Prop := {
  pi_account : account_ok count btr β;
  pi_main : exists cl, bs_clients (bb_bus β) = [cl] /\ main_ok β cl /\
    forall id, ascending (payload <$> destined id btr) (zlen (bb_samples β) - 1 - unsent β cl);
  pi_positive id : Forall (fun e => 0 <= payload e) (destined id btr);
  pi_seq : ascending (seq <$> bb_samples β) (next_seq β - 1);
  pi_seq_positive : Forall (fun m => 0 <= seq m) (bb_samples β);
  pi_heap : length (heap (bs_bus (bb_bus β))) = length (bb_states β);
  pi_states id st : bb_states β !! id = Some st -> state_ok (bb_samples β) (callbacks id btr) st;
  pi_new id : (length (bb_states β) <= id)%nat -> callbacks id btr = []
}.

(** ** The order of the callbacks *)

Lemma sorted_lookup (l : list Z) i j x y :
  StronglySorted Z.lt l -> l !! i = Some x -> l !! j = Some y -> (i < j)%nat -> x < y.
Proof.
  intros Hs. revert i j. induction Hs as [|a l Hs IH Ha]; intros i j Hi Hj Hij; [done|].
  destruct j as [|j]; [lia|]. simpl in Hj. destruct i as [|i]; simpl in Hi.
  - simplify_eq. rewrite Forall_forall in Ha. apply Ha. by eapply list_elem_of_lookup_2.
  - eapply IH; [done..|lia].
Qed.

Lemma sorted_last (l : list Z) x y : StronglySorted Z.lt (l ++ [x]) -> last l = Some y -> y < x.
Proof.
  intros Hs Hy. rewrite last_lookup in Hy. pose proof (lookup_lt_Some _ _ _ Hy).
  eapply (sorted_lookup _ (pred (length l)) (length l)); [done| | |lia].
  - by apply lookup_app_l_Some.
  - rewrite lookup_app_r, Nat.sub_diag by lia. done.
Qed.

Lemma seq_at_snoc samples m e :
  0 <= payload e < zlen samples -> seq_at (samples ++ [m]) e = seq_at samples e.
Proof. unfold seq_at, zlen. intros Hk. by rewrite lookup_app_l by lia. Qed.

(** A subscriber's state when a message is made. *)
Lemma state_ok_made samples m cbs st :
  Forall (fun e => 0 <= payload e < zlen samples) cbs ->
  state_ok samples cbs st -> state_ok (samples ++ [m]) cbs st.
Proof.
  intros Hf [Hr Hc Ho Hl]. split; try done. rewrite Hl.
  destruct (last cbs) as [e|] eqn:He; [|done].
  apply last_Some in He as [l ->]. apply Forall_app in Hf as [_ Hf].
  symmetry. apply seq_at_snoc. by inversion Hf.
Qed.

(** A callback whose message is newer than the last. *)
Lemma state_ok_called samples cbs st e m now :
  state_ok samples cbs st -> samples !! Z.to_nat (payload e) = Some m -> 0 <= seq m ->
  StronglySorted Z.lt (seq <$> samples) -> StronglySorted Z.lt (payload <$> cbs ++ [e]) ->
  Forall (fun e => 0 <= payload e) cbs ->
  state_ok samples (cbs ++ [e]) (on_message st m now).
Proof.
  intros [Hr Hc Ho Hl] Hm Hm0 Hseq Hcbs Hpos. unfold on_message. split; simpl.
  - rewrite Hr, zlen_app. autorewrite with rdb. done.
  - rewrite Hc, zlen_app. autorewrite with rdb. done.
  - rewrite (proj2 (Z.ltb_ge _ _)); [done|]. rewrite Hl. destruct (last cbs) as [e0|] eqn:He; [|done].
    unfold seq_at. destruct (samples !! Z.to_nat (payload e0)) as [m0|] eqn:Hm00; [|lia].
    rewrite fmap_app in Hcbs. pose proof (sorted_last _ _ (payload e0) Hcbs) as Hlt.
    rewrite fmap_last, He in Hlt. specialize (Hlt eq_refl).
    apply Z.lt_le_incl, (sorted_lookup (seq <$> samples) (Z.to_nat (payload e0)) (Z.to_nat (payload e)));
      [done| | |].
    + by rewrite list_lookup_fmap, Hm00.
    + by rewrite list_lookup_fmap, Hm.
    + apply last_Some in He as [l ->]. apply Forall_app in Hpos as [_ Hpos]. inversion Hpos. lia.
  - rewrite last_snoc. unfold seq_at. by rewrite Hm.
Qed.

Section order.
Variables (c : config) (sample_type : Z) (now : Z).
Hypothesis Hcount : cfg_count c < 2 ^ 63.

Abbreviation bench_run :=
  (run (H := bench_bus_lts c sample_type) (bench_init c sample_type now)).

(** What the runs of the bus give: the callbacks are among what was destined, in
    that order. *)
Lemma callbacks_destined id tr β :
  bench_run tr β -> callbacks id (bus_trace tr) `sublist_of` destined id (bus_trace tr).
Proof.
  intros Hr. destruct (bench_run_bus c sample_type now id tr β Hr) as [Hb _].
  destruct (serial_pushed id 1 now _ _ Hb) as [_ Hp]. apply serial_run in Hb.
  pose proof (run_fifo id 1 now _ _ Hb) as Hf.
  etransitivity; [|etransitivity; [|exact Hp]].
  - by apply sublist_inserts_r.
  - etransitivity; [exact Hf|]. by apply sublist_inserts_r.
Qed.

Lemma destined_same id btr ev : destined_by id ev = [] -> destined id (btr ++ [ev]) = destined id btr.
Proof. intros Hd. by rewrite destined_snoc, Hd, app_nil_r. Qed.

Lemma callbacks_same id btr ev : callbacks_by id ev = [] -> callbacks id (btr ++ [ev]) = callbacks id btr.
Proof. intros Hd. unfold callbacks. by rewrite bind_snoc, Hd, app_nil_r. Qed.

(** A step of the program that leaves the messages, the states and the bus alone. *)
Lemma move_keeps_inv btr β β' :
  program_inv (cfg_count c) btr β -> account_ok (cfg_count c) btr β' -> bb_bus β' = bb_bus β ->
  bb_samples β' = bb_samples β -> bb_states β' = bb_states β -> next_seq β <= next_seq β' ->
  (forall cl, bs_clients (bb_bus β) = [cl] -> main_ok β cl ->
     main_ok β' cl /\ unsent β' cl = unsent β cl) ->
  program_inv (cfg_count c) btr β'.
Proof.
  intros [_ (cl & Hcl & Hok & Hd) Hpos Hseq Hsp Hh Hst Hnew] Hac Hb Hs Hss Hn Hm.
  destruct (Hm cl Hcl Hok) as [Hok' Hu].
  split; rewrite ?Hb, ?Hs, ?Hss; try done.
  - exists cl. rewrite Hu. done.
  - eapply ascending_weaken; [done|lia].
Qed.

Lemma callback_heap σ id e t σ' :
  step σ (EvCallback id e t) σ' -> (id < length (heap (bs_bus σ)))%nat.
Proof. inversion 1; subst. simpl. by eapply lookup_lt_Some. Qed.

(** The part of the invariant about the subscribers, over one event. *)
Record subscribers_ok (btr : list event) (samples : list Sample) (states : list SubscriberState) : Prop := {
  sb_states id st : states !! id = Some st -> state_ok samples (callbacks id btr) st;
  sb_new id : (length states <= id)%nat -> callbacks id btr = []
}.

Lemma subscribers_same btr samples states ev :
  (forall id, callbacks_by id ev = []) -> subscribers_ok btr samples states ->
  subscribers_ok (btr ++ [ev]) samples states.
Proof.
  intros Hn [Hs Hw]. split; intros id *; rewrite callbacks_same by done; [apply Hs|apply Hw].
Qed.

Lemma subscribers_called btr samples states id e t now' :
  subscribers_ok btr samples states -> (id < length states)%nat ->
  0 <= payload e < zlen samples -> StronglySorted Z.lt (seq <$> samples) ->
  Forall (fun m => 0 <= seq m) samples ->
  StronglySorted Z.lt (payload <$> callbacks id (btr ++ [EvCallback id e t])) ->
  Forall (fun e => 0 <= payload e) (callbacks id btr) ->
  subscribers_ok (btr ++ [EvCallback id e t]) samples (called_back samples states id e now').
Proof.
  intros [Hs Hw] Hid He Hseq Hsp Hcb Hpos. unfold called_back.
  destruct (lookup_lt_is_Some_2 samples (Z.to_nat (payload e))) as [m Hm]; [unfold zlen in He; lia|].
  rewrite Hm.
  assert (Hother : forall k, k <> id -> callbacks k (btr ++ [EvCallback id e t]) = callbacks k btr).
  { intros k Hk. apply callbacks_same. simpl. by rewrite decide_False by done. }
  assert (Hhere : callbacks id (btr ++ [EvCallback id e t]) = callbacks id btr ++ [e]).
  { unfold callbacks. rewrite bind_snoc. simpl. by rewrite decide_True by done. }
  split.
  - intros k st Hk. destruct (decide (k = id)) as [->|Hne].
    + rewrite list_lookup_alter_eq in Hk. rewrite Hhere in *.
      destruct (states !! id) as [st0|] eqn:Hst; simplify_eq/=.
      apply state_ok_called; try done; [by apply Hs|].
      rewrite Forall_forall in Hsp. apply Hsp. by eapply list_elem_of_lookup_2.
    + rewrite list_lookup_alter_ne in Hk by done. rewrite Hother by done. by apply Hs.
  - intros k Hk. rewrite length_alter in Hk. rewrite Hother by lia. by apply Hw.
Qed.

Lemma unsent_other β cl :
  bb_point β <> PMade -> kind_of cl <> KStamped -> unsent β cl = 0.
Proof. unfold unsent. intros Hp Hk. by destruct (bb_point β), cl. Qed.

(** Steps inside an operation of the main thread. *)
Lemma moved_ok β cl cl' :
  main_ok β cl -> kind_of cl <> KStamped -> kind_of cl <> KIdle ->
  (kind_of cl' = kind_of cl \/ kind_of cl <> KPublishing /\ cl' = CIdle) ->
  main_ok β cl' /\ unsent β cl' = unsent β cl.
Proof.
  intros [Hp _] Hs Hi Hk. unfold main_ok.
  assert (Hpt : bb_point β <> PMade) by (intros He; rewrite He in Hp; by subst cl).
  assert (Hs' : kind_of cl' <> KStamped) by (destruct Hk as [->|[_ ->]]; done).
  rewrite !unsent_other by done. split; [|done]. split; [|by split; [destruct cl'|]].
  destruct (bb_point β); try (by subst cl); destruct Hk as [->|[Hnp ->]]; auto.
  by destruct Hp.
Qed.

Lemma select_destined id btr p e targets n :
  NoDup targets -> payload e = n + 1 -> ascending (payload <$> destined id btr) n ->
  ascending (payload <$> destined id (btr ++ [EvSelect p e targets])) (n + 1).
Proof.
  intros Hnd He Ha. rewrite destined_snoc. simpl. rewrite copies_NoDup by done.
  case_decide; rewrite ?app_nil_r; [|eapply ascending_weaken; [done|lia]].
  rewrite fmap_app. simpl. rewrite He. by apply ascending_snoc.
Qed.

(** The part about the messages, over one event of the bus. *)
Lemma messages_step btr β cl ev σ' cl' t :
  client_move ev cl cl' -> main_ok β cl ->
  (forall id, ascending (payload <$> destined id btr) (zlen (bb_samples β) - 1 - unsent β cl)) ->
  let β' := after_event (with_bus β σ') ev t in
  main_ok β' cl' /\
  forall id, ascending (payload <$> destined id (btr ++ [ev])) (zlen (bb_samples β) - 1 - unsent β' cl').
Proof.
  intros Hmv Hok Ha β'.
  assert (Hquiet : (forall id, destined_by id ev = []) -> β' = with_bus β σ' \/ bb_point β' = bb_point β ->
            (cl' = cl \/ kind_of cl <> KStamped /\ kind_of cl <> KIdle /\
              (kind_of cl' = kind_of cl \/ kind_of cl <> KPublishing /\ cl' = CIdle)) ->
            bb_samples β' = bb_samples β -> main_ok β' cl' /\ forall id,
              ascending (payload <$> destined id (btr ++ [ev])) (zlen (bb_samples β) - 1 - unsent β' cl')).
  { intros Hn Hb Hc Hs.
    assert (Hpt : bb_point β' = bb_point β) by (destruct Hb as [->|?]; done).
    assert (H : main_ok β cl' /\ unsent β cl' = unsent β cl)
      by (destruct Hc as [->|(?&?&?)]; [done|by apply moved_ok]).
    destruct H as [Hm Hu]. split.
    - unfold main_ok in *. by rewrite Hpt, Hs.
    - intros id. rewrite destined_same by done. unfold unsent in *. rewrite Hpt, Hu. apply Ha. }
  destruct ev; simpl in Hmv; try done;
    try (apply Hquiet; [done|by left|done|done]); try (apply Hquiet; [done|by right|by left|done]).
  - (* EvReject *)
    destruct Hmv as [Hk ->]. split; [done|]. intros id. rewrite destined_same by done.
    eapply ascending_weaken; [apply Ha|]. unfold unsent. simpl. destruct (bb_point β), cl; lia.
  - (* EvSelect *)
    destruct Hmv as (Hnd & [t0 ->] & Hk). destruct Hok as (Hp & [Hm _] & _).
    assert (Hpt : bb_point β = PPublishing) by (by destruct (bb_point β); try (by destruct Hp)).
    unfold unsent in *. simpl. rewrite Hpt in *. split.
    + unfold main_ok. simpl. rewrite Hpt. split; [by right|by split; [destruct cl'|]].
    + intros id. destruct cl'; try done;
        (replace (zlen (bb_samples β) - 1 - 0) with (zlen (bb_samples β) - 1 - 1 + 1) by lia;
         apply select_destined; [done|lia|apply Ha]).
  - (* EvPublished *)
    destruct Hmv as [Hk ->]. split; [done|]. intros id. rewrite destined_same by done.
    eapply ascending_weaken; [apply Ha|]. unfold unsent. simpl. destruct (bb_point β), cl; lia.
Qed.

Lemma called_back_length samples states id e t :
  length (called_back samples states id e t) = length states.
Proof. unfold called_back. destruct (samples !! _); [apply length_alter|done]. Qed.

Lemma after_event_same β ev t :
  bb_samples (after_event β ev t) = bb_samples β /\ bb_i (after_event β ev t) = bb_i β /\
  bb_bus (after_event β ev t) = bb_bus β /\
  length (bb_states (after_event β ev t)) = length (bb_states β).
Proof. destruct ev; simpl; rewrite ?called_back_length; done. Qed.

Lemma after_event_next β ev cl cl' t :
  client_move ev cl cl' -> main_ok β cl -> next_seq β <= next_seq (after_event β ev t).
Proof.
  intros Hm [Hp _]. unfold next_seq. destruct ev; simpl in *; try lia; destruct (bb_point β); lia.
Qed.

Lemma account_event btr β ev cl cl' σ' t :
  account_ok (cfg_count c) btr β -> client_move ev cl cl' -> main_ok β cl ->
  account_ok (cfg_count c) (btr ++ [ev]) (after_event (with_bus β σ') ev t).
Proof.
  intros [Hr Hb Hm He Hf] Hmv [Hp _].
  assert (Hquiet : publish_failed ev = false -> bb_failed β =
            u64 (Z.of_nat (countb publish_failed (btr ++ [ev])))).
  { intros Hq. rewrite countb_app, countb_cons, Hq, countb_nil, Nat.add_0_r. done. }
  assert (Hone : publish_failed ev = true -> bb_failed β +u 1 =
            u64 (Z.of_nat (countb publish_failed (btr ++ [ev])))).
  { intros Hq. rewrite countb_app, countb_cons, Hq, countb_nil, Hf. autorewrite with rdb. f_equal. lia. }
  destruct ev; simpl in Hmv; try (split; simpl; auto; done);
    assert (Hpt : bb_point β = PPublishing)
      by (destruct Hmv as [Hk ->]; destruct (bb_point β); try (by subst cl); destruct Hp; congruence);
    unfold round_ok, next_seq in *; rewrite Hpt in *; split; simpl; auto.
  destruct all_accepted; auto.
Qed.

Lemma bus_keeps_inv btr β ev σ' t :
  program_inv (cfg_count c) btr β -> bus_wf (bs_bus (bb_bus β)) -> step (bb_bus β) ev σ' ->
  (~ idle_main β \/ unattended (bb_bus β) ev σ') ->
  (forall id, callbacks id (btr ++ [ev]) `sublist_of` destined id (btr ++ [ev])) ->
  program_inv (cfg_count c) (btr ++ [ev]) (after_event (with_bus β σ') ev t).
Proof.
  intros [Hac (cl & Hcl & Hok & Hd) Hpos Hseq Hsp Hh Hst Hnew] Hwf Hs Hatt Hcb.
  destruct (bus_step_move _ _ _ cl Hwf Hcl Hs Hatt) as (cl' & Hcl' & Hmv).
  destruct (messages_step btr β cl ev σ' cl' t Hmv Hok Hd) as [Hok' Hd'].
  destruct (after_event_same (with_bus β σ') ev t) as (Esm & Ei & Eb & El).
  assert (Hpos' : forall id, Forall (fun e => 0 <= payload e) (destined id (btr ++ [ev]))).
  { intros id. rewrite destined_snoc. apply Forall_app. split; [apply Hpos|].
    destruct ev; simpl in *; try done.
    destruct Hmv as (Hnd & [t0 ->] & _). destruct Hok as (_ & [_ Hm] & _).
    unfold copies. apply Forall_fmap, Forall_forall. intros x _. done. }
  assert (Hsub : subscribers_ok (btr ++ [ev]) (bb_samples β)
                   (bb_states (after_event (with_bus β σ') ev t))).
  { assert (Hso : subscribers_ok btr (bb_samples β) (bb_states β)) by done.
    destruct ev as [p|p e tg|h tp m|id e s|e acc|id q bl|ids|id e n|id e n|id e|];
      try (by apply subscribers_same).
    assert (Hasc : ascending (payload <$> callbacks id (btr ++ [EvCallback id e n])) (zlen (bb_samples β) - 1)).
    { eapply ascending_weaken; [eapply ascending_sublist; [apply fmap_sublist, Hcb|apply Hd']|].
      unfold unsent. destruct (bb_point _), cl'; lia. }
    assert (Hin : e ∈ callbacks id (btr ++ [EvCallback id e n])).
    { unfold callbacks. rewrite bind_snoc. simpl. rewrite decide_True by done. set_solver. }
    apply subscribers_called; try done.
    - change (bb_states (with_bus β σ')) with (bb_states β). rewrite <-Hh. by eapply callback_heap.
    - split.
      + specialize (Hpos' id). rewrite Forall_forall in Hpos'. apply Hpos'.
        eapply elem_of_sublist; [exact Hin|apply Hcb].
      + destruct Hasc as [_ Hle]. rewrite Forall_forall in Hle.
        specialize (Hle (payload e) (list_elem_of_fmap_2 _ _ _ Hin)). simpl in *. lia.
    - apply Hseq.
    - apply Hasc.
    - specialize (Hpos' id). rewrite Forall_forall in *. intros x Hx. apply Hpos'.
      eapply elem_of_sublist; [|apply Hcb]. unfold callbacks. rewrite bind_snoc. set_solver. }
  destruct Hsub as [Hst' Hnew'].
  split; rewrite ?Esm, ?Ei, ?Eb; try done.
  - by apply (account_event _ _ _ cl cl').
  - exists cl'. done.
  - eapply ascending_weaken; [done|]. pose proof (after_event_next (with_bus β σ') ev cl cl' t Hmv Hok).
    change (next_seq (with_bus β σ')) with (next_seq β) in *. lia.
  - rewrite El. change (bb_bus (with_bus β σ')) with σ'. simpl bb_states. rewrite <-Hh.
    apply step_heap_length with ev; [done|]. by destruct ev.
Qed.

Lemma idle_unsent β : bb_point β <> PMade -> unsent β CIdle = 0.
Proof. intros. by apply unsent_other. Qed.

Lemma subscribe_keeps_inv btr β id σ' :
  program_inv (cfg_count c) btr β -> bb_point β = PSubscribe -> idle_main β ->
  subscribe_register (bs_bus (bb_bus β)) "bench" sample_type (bench_qos c) = (bs_bus σ', Some (id, [])) ->
  bs_clients σ' = [CBacklog id []] ->
  program_inv (cfg_count c) (btr ++ [EvSubscribe id (bench_qos c) []])
    (with_states (with_bus β σ') (bb_states β ++ [subscriber_state c (length (bb_states β))])).
Proof.
  intros [[Hlt Hi Hm He Hf] (cl & Hcl & Hok & Hd) Hpos Hseq Hsp Hh Hst Hnew] Hp Hid Hreg Hcl'.
  apply subscribe_spec in Hreg as (en & _ & _ & _ & _ & _ & Hheap).
  assert (Hdn : forall k, destined_by k (EvSubscribe id (bench_qos c) []) = []) by (intros k; simpl; by case_decide).
  split; simpl; try done.
  - split; simpl; try done. by rewrite countb_app, countb_cons, countb_nil, !Nat.add_0_r.
  - exists (CBacklog id []). split; [done|]. split.
    + unfold main_ok. simpl. rewrite Hp. split; [by right|done].
    + intros k. rewrite destined_same by done. eapply ascending_weaken; [apply Hd|].
      unfold unsent. simpl. rewrite Hp. destruct cl; lia.
  - intros k. by rewrite destined_same.
  - rewrite Hheap, !length_app, Hh. done.
  - intros k st. rewrite callbacks_same by done. intros [Hk|[Hge Hk]]%lookup_app_Some; [by apply Hst|].
    apply list_lookup_singleton_Some in Hk as [Hk <-].
    rewrite Hnew by done. by split.
  - intros k. rewrite callbacks_same, length_app by done. simpl. intros Hk. apply Hnew. lia.
Qed.

Lemma make_keeps_inv btr β h π' :
  program_inv (cfg_count c) btr β -> bb_point β = PHave h ->
  (forall id, callbacks id btr `sublist_of` destined id btr) ->
  program_inv (cfg_count c) btr
    (with_point (with_samples (with_pool β π')
       (bb_samples β ++ [mkSample (u64 (bb_i β)) (u64 (bs_clock (bb_bus β))) h])) PMade).
Proof.
  intros [Hac (cl & Hcl & Hok & Hd) Hpos Hseq Hsp Hh Hst Hnew] Hp Hcb.
  pose proof Hac as [Hlt Hi Hm He Hf]. unfold round_ok, next_seq in *. rewrite Hp in *.
  pose proof Hok as [Hpt _]. rewrite Hp in Hpt. subst cl.
  assert (Hd' : forall id, ascending (payload <$> destined id btr) (zlen (bb_samples β) - 1)).
  { intros id. eapply ascending_weaken; [apply Hd|]. rewrite idle_unsent by congruence. lia. }
  split; simpl; try done.
  - split; simpl; try done. unfold next_seq. simpl. rewrite zlen_app. change (zlen [_]) with 1. lia.
  - exists CIdle. split; [done|]. split.
    + unfold main_ok. simpl. split_and!; try done. intros _. by destruct (bb_samples β).
    + intros id. unfold unsent. simpl. rewrite zlen_app. eapply ascending_weaken; [apply Hd'|].
      change (zlen [_]) with 1. lia.
  - rewrite fmap_app. simpl. rewrite wrap_small by (unfold fits; lia). unfold next_seq. simpl.
    replace (bb_i β + 1 - 1) with (bb_i β - 1 + 1) by lia. replace (bb_i β) with (bb_i β - 1 + 1) at 1 by lia.
    by apply ascending_snoc.
  - apply Forall_app. split; [done|]. constructor; [|constructor]. simpl.
    by apply fits_wrap.
  - intros id st Hid. apply state_ok_made; [|by apply Hst].
    apply Forall_forall. intros e Hin.
    assert (Hin' : e ∈ destined id btr) by (eapply elem_of_sublist; [exact Hin|apply Hcb]).
    pose proof (Hpos id) as Hp0. rewrite Forall_forall in Hp0. specialize (Hp0 e Hin').
    destruct (Hd' id) as [_ Hle]. rewrite Forall_forall in Hle.
    specialize (Hle (payload e) (list_elem_of_fmap_2 _ _ _ Hin')). simpl in Hle. lia.
Qed.

Lemma publish_keeps_inv btr β :
  program_inv (cfg_count c) btr β -> bb_point β = PMade ->
  let σ := bb_bus β in
  program_inv (cfg_count c) (btr ++ [EvInternal])
    (with_point (with_bus β (mkState (bs_bus σ)
       [CStamped (bench_publisher c sample_type) (zlen (bb_samples β) - 1) (u64 (bs_clock σ))]
       (bs_clock σ))) PPublishing).
Proof.
  intros [[Hlt Hi Hm He Hf] (cl & Hcl & Hok & Hd) Hpos Hseq Hsp Hh Hst Hnew] Hp σ.
  unfold round_ok, next_seq in *. rewrite Hp in *. destruct Hok as (_ & _ & Hne).
  split; simpl; try done.
  - split; simpl; try done. by rewrite countb_app, countb_cons, countb_nil, !Nat.add_0_r.
  - eexists. split; [done|]. split.
    + unfold main_ok. simpl. split_and!; [by left|done| |done].
      specialize (Hne Hp). destruct (bb_samples β) as [|m l]; [done|]. len.
    + intros id. rewrite destined_same by done. unfold unsent in *. simpl. rewrite Hp in Hd. apply Hd.
  - intros id. by rewrite destined_same.
  - intros id st Hid. rewrite callbacks_same by done. by apply Hst.
  - intros id Hid. rewrite callbacks_same by done. by apply Hnew.
Qed.

Lemma shutdown_keeps_inv btr β ids :
  program_inv (cfg_count c) btr β -> bb_point β = PShutdown ->
  let σ := bb_bus β in
  program_inv (cfg_count c) (btr ++ [EvDetach ids])
    (with_point (with_bus β (mkState (shutdown_detach (bs_bus σ)).1 [CStop ids] (bs_clock σ))) PStopping).
Proof.
  intros [[Hlt Hi Hm He Hf] (cl & Hcl & Hok & Hd) Hpos Hseq Hsp Hh Hst Hnew] Hp σ.
  unfold round_ok, next_seq in *. rewrite Hp in *.
  split; simpl; try done.
  - split; simpl; try done. by rewrite countb_app, countb_cons, countb_nil, !Nat.add_0_r.
  - eexists. split; [done|]. split; [split; [by right|done]|].
    intros id. rewrite destined_same by done. eapply ascending_weaken; [apply Hd|].
    unfold unsent. simpl. rewrite Hp. destruct cl; lia.
  - intros id. by rewrite destined_same.
  - intros id st Hid. rewrite callbacks_same by done. by apply Hst.
  - intros id Hid. rewrite callbacks_same by done. by apply Hnew.
Qed.

(** The main thread moves between points at which it holds nothing. *)
Definition resting (p : point) : bool :=
  match p with
  | PLoop | PTick | PSleep _ | PDrain _ _ | PShutdown | PDone | PHave _ => true
  | _ => false
  end.

Lemma rest_keeps_inv btr β β' :
  program_inv (cfg_count c) btr β -> account_ok (cfg_count c) btr β' -> bb_bus β' = bb_bus β ->
  bb_samples β' = bb_samples β -> bb_states β' = bb_states β -> next_seq β <= next_seq β' ->
  resting (bb_point β) = true \/ idle_main β /\ bb_point β <> PMade -> resting (bb_point β') = true ->
  program_inv (cfg_count c) btr β'.
Proof.
  intros Hinv Hac Hb Hs Hss Hn Hr Hr'. apply (move_keeps_inv btr β); try done.
  intros cl Hcl [Hp _]. assert (cl = CIdle) as ->.
  { destruct Hr as [Hr|[Hid _]]; [by destruct (bb_point β)|]. unfold idle_main in Hid. congruence. }
  split.
  - split; [by destruct (bb_point β')|]. split; [done|]. intros He. by rewrite He in Hr'.
  - rewrite !idle_unsent; [done| |].
    + destruct Hr as [Hr|[_ Hne]]; [|done]. intros He. by rewrite He in Hr.
    + intros He. by rewrite He in Hr'.
Qed.

Lemma pool_keeps_inv btr β π' :
  program_inv (cfg_count c) btr β -> program_inv (cfg_count c) btr (with_pool β π').
Proof. intros [[] Hm ? ? ? ? ? ?]. by split. Qed.

Lemma bench_step_keeps_inv tr β e β' :
  program_inv (cfg_count c) (bus_trace tr) β -> bench_bus_step c sample_type β e β' ->
  bus_wf (bs_bus (bb_bus β)) ->
  (forall id, callbacks id (bus_trace tr) `sublist_of` destined id (bus_trace tr)) ->
  (forall id, callbacks id (bus_trace (tr ++ [e])) `sublist_of` destined id (bus_trace (tr ++ [e]))) ->
  program_inv (cfg_count c) (bus_trace (tr ++ [e])) β'.
Proof.
  intros Hinv Hs Hwf Hcb Hcb'.
  pose proof (pi_account _ _ _ Hinv) as [Hround Hbound Hmade Hempty Hfail]. unfold round_ok, next_seq in *.
  destruct Hs as [β id σ' Hp Hid Hlt b Hreg Hcl Hck|β t Hp Hid Hle Htk|β h π' Hp Hlt Hs|β π' Hp Hlt Hs
    |β h ok π' Hp Hs|β Hp Hid message σ|β t t' Hp Htk Ht|β t t' Hp Htk Ht|β until Hp Hle|β Hp Hle|β limit w Hp Hw|β limit r Hp
    |β σ' Hp Hid ->|β Hp Hid|β ev σ' t Hs Hatt Hle|β k m b Hm Hr Hh π|β π' Hs Hh Hu];
    try (rewrite bus_trace_other in * by done); try (rewrite bus_trace_bus in *); try rewrite Hp in *.
  - by apply subscribe_keeps_inv.
  - apply (rest_keeps_inv _ β); try done; [by unfold next_seq; rewrite Hp|]. right. by rewrite Hp.
  - apply (rest_keeps_inv _ β); try done; [by unfold next_seq; rewrite Hp|]. left. by rewrite Hp.
  - apply (rest_keeps_inv _ β); try done; [|unfold next_seq; rewrite Hp; simpl; lia|left; by rewrite Hp].
    split; simpl; try done; unfold next_seq; simpl; rewrite wrap_small; try (unfold fits); zlens; lia.
  - by apply make_keeps_inv.
  - by apply publish_keeps_inv.
  - apply (rest_keeps_inv _ β); try done; [|unfold next_seq; rewrite Hp; simpl; lia|left; by rewrite Hp].
    split; simpl; try done; unfold next_seq; simpl; lia.
  - apply (rest_keeps_inv _ β); try done; [unfold next_seq; rewrite Hp; simpl; lia|left; by rewrite Hp].
  - apply (rest_keeps_inv _ β); try done; [|unfold next_seq; rewrite Hp; simpl; lia|left; by rewrite Hp].
    split; simpl; try done; unfold next_seq; simpl; lia.
  - apply (rest_keeps_inv _ β); try done; [by unfold next_seq; rewrite Hp|]. left. by rewrite Hp.
  - apply (rest_keeps_inv _ β); try done; [by unfold next_seq; rewrite Hp|]. left. by rewrite Hp.
  - apply (rest_keeps_inv _ β); try done; [by unfold next_seq; rewrite Hp|]. left. by rewrite Hp.
  - by apply shutdown_keeps_inv.
  - apply (rest_keeps_inv _ β); try done; [by unfold next_seq; rewrite Hp|]. right. by rewrite Hp.
  - by apply bus_keeps_inv.
  - by apply pool_keeps_inv.
  - by apply pool_keeps_inv.
Qed.

Lemma bench_init_inv : program_inv (cfg_count c) (bus_trace []) (bench_init c sample_type now).
Proof.
  split; try done; simpl.
  - split; simpl; try done. lia.
  - exists CIdle. split; [done|]. split; [|intros id; apply ascending_nil].
    split; [by left|done].
  - apply ascending_nil.
Qed.

Lemma bench_run_inv tr β :
  bench_run tr β -> program_inv (cfg_count c) (bus_trace tr) β.
Proof.
  induction 1 as [|tr e β β' Hr IH Hs]; [apply bench_init_inv|].
  apply (bench_step_keeps_inv tr β e); try done.
  - destruct (bench_run_bus c sample_type now 0 tr β Hr) as [Hb _].
    eapply run_bus_wf, serial_run, Hb.
  - intros id. by eapply callbacks_destined.
  - intros id. eapply callbacks_destined. by econstructor.
Qed.
End order.

