(* ===== verification/BenchBuffers.v ===== *)
(** * BenchBuffers

    The benchmark of [BenchBus], where its buffers are: a message holds one handle
    of the pool, released when nobody points to the message any more. *)

From stdpp Require Import strings sorting.
From S2P Require Import Prelude Lts Doubles BoundedQueue Qos TopicBus BusSystem BusInvariants.
From S2P Require Import BusFlow BusOrder BusDelivery BusSerial BenchBus BenchOrder.
From S2P Require BufferPool Histogram Time Args.
Open Scope Z_scope.

(** ** Who points to a message *)

Lemma after_target_holds e id targets acc sec x :
  x ∈ client_holds (after_target e id targets acc sec) -> x ∈ [payload e].
Proof. unfold after_target. by destruct (sec_outcome sec). Qed.

(** A client only points to messages it already pointed to. *)
Lemma bus_step_holds σ ev σ' cl x :
  bs_clients σ = [cl] -> step σ ev σ' -> (bs_clients σ <> [CIdle] \/ unattended σ ev σ') ->
  x ∈ (bs_clients σ' ≫= client_holds) -> x ∈ client_holds cl.
Proof.
  intros Hcl Hs Hatt.
  destruct Hs; simpl in *; subst;
    try match goal with
    | Hi : [cl] !! ?i = Some _ |- _ => apply list_lookup_singleton_Some in Hi as [-> ->]; simpl in *
    end;
    try (destruct Hatt as [Hatt|(Hc & _ & _ & _ & Hrej)]; [done|simpl in *; simplify_eq; try done]);
    rewrite ?app_nil_r; try done; try apply after_target_holds;
    try (by intros ?%not_elem_of_nil); try (by apply list_elem_of_further).
  2-7: by rewrite bind_cons, app_nil_r.
  match goal with Hp : publish_select _ _ _ _ _ _ = _ |- _ =>
    apply select_spec in Hp as (en & _ & _ & -> & _) end. done.
Qed.

(** What is in the queues and with the workers was there, or with the client. *)
Lemma in_flight_holds id cl e : e ∈ in_flight id cl -> payload e ∈ client_holds cl.
Proof.
  destruct cl; simpl; try (by intros ?%not_elem_of_nil);
    try (unfold copies; intros (x & -> & _)%list_elem_of_fmap; apply list_elem_of_here).
  case_decide; [|by intros ?%not_elem_of_nil]. apply list_elem_of_fmap_2.
Qed.

Lemma step_in_sub σ ev σ' cl id s' e :
  bus_wf (bs_bus σ) -> bs_clients σ = [cl] -> step σ ev σ' -> subscribing ev = false ->
  heap (bs_bus σ') !! id = Some s' -> e ∈ in_sub s' ->
  payload e ∈ client_holds cl \/ exists s, heap (bs_bus σ) !! id = Some s /\ e ∈ in_sub s.
Proof.
  intros Hwf Hcl Hs Hns Hs' He.
  pose proof (step_flow (fun x => bool_decide (x = e)) id σ ev σ' Hwf Hs) as Hf.
  assert (Hin : (0 < countb (fun x => bool_decide (x = e)) (held id σ'))%nat).
  { apply (countb_le_elem _ _ e); [|by apply bool_decide_true]. unfold held, in_subs.
    rewrite Hs'. by apply elem_of_app; right. }
  assert (H : (0 < countb (fun x => bool_decide (x = e)) (held id σ ++ destined_by id ev))%nat)
    by (rewrite countb_app; lia).
  apply countb_elem_inv in H as (x & Hx & ->%bool_decide_eq_true).
  unfold held in Hx. rewrite Hcl, bind_cons, !elem_of_app in Hx.
  destruct Hx as [[[Hx|Hx]|Hx]|Hx].
  - left. by eapply in_flight_holds.
  - by apply not_elem_of_nil in Hx.
  - right. unfold in_subs in Hx. destruct (heap (bs_bus σ) !! id) as [s|]; [eauto|].
    by apply not_elem_of_nil in Hx.
  - left. destruct Hs; simpl in *; try (by apply not_elem_of_nil in Hx); try done.
    unfold copies in Hx. apply list_elem_of_fmap in Hx as (y & -> & _). subst cs.
    match goal with Hi : [cl] !! _ = Some _ |- _ => apply list_lookup_singleton_Some in Hi as [_ ->] end.
    match goal with Hp : publish_select _ _ _ _ _ _ = _ |- _ =>
      apply select_spec in Hp as (en & _ & _ & -> & _) end. simpl. apply list_elem_of_here.
Qed.

(** What a topic retains it retained, or was with the client. *)
Lemma step_latched σ ev σ' cl t en' e :
  bs_clients σ = [cl] -> step σ ev σ' ->
  topics_ (bs_bus σ') !! t = Some en' -> e ∈ te_latched en' ->
  payload e ∈ client_holds cl \/
  exists en, topics_ (bs_bus σ) !! t = Some en /\ e ∈ te_latched en.
Proof.
  intros Hcl Hs Hen He. destruct (selecting ev) eqn:Hsel.
  - destruct Hs; try done. simpl in *. subst cs.
    match goal with Hi : [cl] !! _ = Some _ |- _ => apply list_lookup_singleton_Some in Hi as [_ ->] end.
    match goal with Hp : publish_select _ _ _ _ _ _ = _ |- _ =>
      apply select_spec in Hp as (en & Ht & _ & -> & _ & _ & Hts) end.
    rewrite Hts in Hen. apply lookup_insert_Some in Hen as [[<- <-]|[_ Hen]]; [|eauto].
    simpl in He. case_bool_decide; [|eauto].
    assert (He' : e ∈ te_latched en ++ [mkEnvelope message (te_published en +u 1) t0])
      by (eapply elem_of_sublist; [exact He|apply trim_sublist]).
    apply elem_of_app in He' as [He'|He']; [eauto|]. left.
    apply list_elem_of_singleton in He' as ->. simpl. apply list_elem_of_here.
  - destruct (step_quiet σ ev σ' Hs Hsel t en' Hen) as [(en & Ht & _ & _ & Hl)|(_ & _ & Hl)].
    + right. exists en. split; [done|]. by eapply elem_of_sublist.
    + rewrite Hl in He. by apply not_elem_of_nil in He.
Qed.

(** ** The buffers *)

Lemma elem_bus_holds x b :
  x ∈ bus_holds b <->
  (exists t en e, topics_ b !! t = Some en /\ e ∈ te_latched en /\ x = payload e) \/
  (exists id s e, heap b !! id = Some s /\ e ∈ in_sub s /\ x = payload e).
Proof.
  unfold bus_holds. rewrite elem_of_app, !list_elem_of_bind. split.
  - intros [([t en] & Hx & Hin)|(s & Hx & Hin)]; apply list_elem_of_fmap in Hx as (e & -> & He).
    + apply elem_of_map_to_list in Hin. left. eauto 10.
    + apply list_elem_of_lookup in Hin as [id Hid]. right. eauto 10.
  - intros [(t & en & e & Ht & He & ->)|(id & s & e & Hs & He & ->)].
    + left. exists (t, en). split; [by apply list_elem_of_fmap_2|]. by apply elem_of_map_to_list.
    + right. exists s. split; [by apply list_elem_of_fmap_2|]. by eapply list_elem_of_lookup_2.
Qed.

(** No step of the bus makes an unreachable message reachable again. *)
Lemma step_holds σ ev σ' cl x :
  bus_wf (bs_bus σ) -> bs_clients σ = [cl] -> step σ ev σ' ->
  (bs_clients σ <> [CIdle] \/ unattended σ ev σ') ->
  x ∈ (bs_clients σ' ≫= client_holds) \/ x ∈ bus_holds (bs_bus σ') ->
  x ∈ (bs_clients σ ≫= client_holds) \/ x ∈ bus_holds (bs_bus σ).
Proof.
  intros Hwf Hcl Hs Hatt Hx. rewrite Hcl at 1. rewrite bind_cons, app_nil_r, elem_bus_holds.
  destruct Hx as [Hx|[(t & en' & e & Ht & He & ->)|(id & s' & e & Hs' & He & ->)]%elem_bus_holds].
  - left. by eapply bus_step_holds.
  - destruct (step_latched σ ev σ' cl t en' e Hcl Hs Ht He) as [?|(en & ? & ?)]; [by left|].
    right. left. eauto 10.
  - assert (Hns : subscribing ev = false).
    { destruct (bus_step_move σ ev σ' cl Hwf Hcl Hs Hatt) as (cl' & _ & Hmv). by destruct ev. }
    destruct (step_in_sub σ ev σ' cl id s' e Hwf Hcl Hs Hns Hs' He) as [?|(s & ? & ?)]; [by left|].
    right. right. eauto 10.
Qed.

Definition pool_event (e : bench_bus_event) : list BufferPool.event :=
  match e with BPool ev => [ev] | _ => [] end.
Definition pool_trace (tr : list bench_bus_event) : list BufferPool.event := tr ≫= pool_event.

(** The pool is there, has counted what the program has, and handle [k] is the
    payload of message [k], released once the message is unreachable. *)
Record buffers_ok (β : bench_bus) : Prop := {
  bo_users : BufferPool.ps_users (bb_pool β) = 1%nat;
  bo_pool : exists p, BufferPool.ps_pool (bb_pool β) = Some p /\ BufferPool.exhausted_ p = bb_empty β;
  bo_count : length (BufferPool.ps_handles (bb_pool β)) =
    (length (bb_samples β) + match bb_point β with PHave _ => 1 | _ => 0 end)%nat;
  bo_payload k m : bb_samples β !! k = Some m -> sample_payload m = k;
  bo_have h : bb_point β = PHave h -> h = length (bb_samples β);
  bo_refs k hd : BufferPool.ps_handles (bb_pool β) !! k = Some hd ->
    BufferPool.h_refs hd = 1%nat \/
    BufferPool.h_refs hd = 0%nat /\ (k < length (bb_samples β))%nat /\ ~ reachable β k
}.

Lemma buffers_quiet β β' :
  buffers_ok β -> bb_pool β' = bb_pool β -> bb_samples β' = bb_samples β -> bb_empty β' = bb_empty β ->
  (bb_point β' = bb_point β \/
   (forall h, bb_point β <> PHave h) /\ (forall h, bb_point β' <> PHave h)) ->
  (forall k, reachable β' k -> reachable β k) -> buffers_ok β'.
Proof.
  intros [Hu Hp Hc Hpl Hh Hr] Ep Es Ee Hpt Hre.
  split; rewrite ?Ep, ?Es, ?Ee; try done.
  - rewrite Hc. destruct Hpt as [->|[H1 H2]]; [done|].
    destruct (bb_point β), (bb_point β'); try done; exfalso; first [by eapply H1|by eapply H2].
  - intros h Hh'. destruct Hpt as [Hpt|[_ H2]]; [apply Hh; congruence|by destruct (H2 h)].
  - intros k hd Hk. destruct (Hr k hd Hk) as [?|(? & ? & Hn)]; [by left|right].
    split_and!; [done|done|]. intros Hk'. by apply Hn, Hre.
Qed.

(** The pool stays while its only user does. *)
Lemma pool_internal π π' p :
  BufferPool.step π BufferPool.EvInternal π' -> BufferPool.ps_users π = 1%nat ->
  BufferPool.ps_users π' = 1%nat -> BufferPool.ps_pool π = Some p ->
  exists p', BufferPool.ps_pool π' = Some p' /\ BufferPool.exhausted_ p' = BufferPool.exhausted_ p.
Proof.
  intros Hs Hu Hu' Hp.
  inversion Hs as [|π0 Hu0|π0 n Hu0|π0 i b n Hi|π0 i b n Hi| |π0 i b Hd Hst|π0 i b Hd Hst
    |π0 i b q Hd Hq|π0 i Hd]; subst; simpl in *; eauto.
  - exfalso. unfold BufferPool.unref in Hu'. repeat case_match; simpl in *; lia.
  - simplify_eq. eauto.
  - unfold BufferPool.unref, BufferPool.strong. simpl. rewrite Hu. simpl. eauto.
Qed.

Lemma acquire_step π r π' :
  BufferPool.step π (BufferPool.EvAcquire r) π' ->
  exists p p', BufferPool.ps_pool π = Some p /\ BufferPool.ps_pool π' = Some p' /\
    BufferPool.ps_users π' = BufferPool.ps_users π /\
    match r with
    | Some h => h = length (BufferPool.ps_handles π) /\
        BufferPool.exhausted_ p' = BufferPool.exhausted_ p /\
        exists b, BufferPool.ps_handles π' = BufferPool.ps_handles π ++ [BufferPool.mkHandle b 1]
    | None => BufferPool.ps_handles π' = BufferPool.ps_handles π /\
        BufferPool.exhausted_ p' = BufferPool.exhausted_ p +u 1
    end.
Proof.
  intros Hs. remember (BufferPool.EvAcquire r) as ev eqn:Hev. destruct Hs as [π p Hp Hu| | | | | | | | |]; try done.
  injection Hev as <-. exists p. unfold BufferPool.acquire, BufferPool.take_free.
  destruct (BufferPool.pop_back (BufferPool.free_ p)) as [[free b]|]; simpl; eexists; split_and!; eauto.
Qed.

Lemma resize_step π h n ok π' :
  BufferPool.step π (BufferPool.EvResize h n ok) π' ->
  BufferPool.ps_handles π' = BufferPool.ps_handles π /\ BufferPool.ps_pool π' = BufferPool.ps_pool π /\
  BufferPool.ps_users π' = BufferPool.ps_users π.
Proof. intros Hs. by inversion Hs. Qed.

Lemma acquired_keeps β h π' :
  buffers_ok β -> bb_point β = PLoop ->
  BufferPool.step (bb_pool β) (BufferPool.EvAcquire (Some h)) π' ->
  buffers_ok (with_point (with_pool β π') (PHave h)).
Proof.
  intros [Hu (p & Hp & He) Hc Hpl Hh Hr] Hpt Hs. rewrite Hpt in Hc.
  destruct (acquire_step _ _ _ Hs) as (p0 & p' & Hp0 & Hp' & Hu' & -> & He' & b & Hb).
  rewrite Hp in Hp0. simplify_eq. split; simpl; try done.
  - congruence.
  - exists p'. split; [done|congruence].
  - rewrite Hb, length_app. simpl. lia.
  - intros h [= <-]. lia.
  - intros k hd. rewrite Hb. intros [Hk|[_ Hk]]%lookup_app_Some.
    + destruct (Hr k hd Hk) as [?|(? & ? & Hn)]; [by left|right]. split_and!; [done|done|].
      intros [?|[?|[? _]]]; [apply Hn; by left|apply Hn; by right; left|done].
    + apply list_lookup_singleton_Some in Hk as [_ <-]. by left.
Qed.

Lemma made_keeps β h ok n m π' :
  buffers_ok β -> bb_point β = PHave h -> sample_payload m = h ->
  BufferPool.step (bb_pool β) (BufferPool.EvResize h n ok) π' ->
  buffers_ok (with_point (with_samples (with_pool β π') (bb_samples β ++ [m])) PMade).
Proof.
  intros [Hu (p & Hp & He) Hc Hpl Hh Hr] Hpt Hm Hs. rewrite Hpt in Hc. specialize (Hh h Hpt). subst h.
  destruct (resize_step _ _ _ _ _ Hs) as (Eh & Ep & Eu). split; simpl; try done.
  - congruence.
  - exists p. split; [congruence|done].
  - rewrite Eh, length_app. simpl. lia.
  - intros k m' [Hk|[Hge Hk]]%lookup_app_Some; [by apply Hpl|].
    apply list_lookup_singleton_Some in Hk as [Hk <-]. lia.
  - intros k hd. rewrite Eh. intros Hk. destruct (Hr k hd Hk) as [?|(? & ? & Hn)]; [by left|right].
    rewrite length_app. split; [done|]. split; [lia|].
    intros [?|[?|[_ Hlast]]]; [apply Hn; by left|apply Hn; by right; left|].
    simpl in Hlast. rewrite length_app in Hlast. simpl in Hlast. lia.
Qed.

Lemma release_keeps β k m b :
  buffers_ok β -> bb_samples β !! k = Some m -> ~ reachable β k ->
  BufferPool.ps_handles (bb_pool β) !! sample_payload m = Some (BufferPool.mkHandle b 1) ->
  buffers_ok (with_pool β (BufferPool.mkState (BufferPool.ps_buffers (bb_pool β))
    (BufferPool.ps_pool (bb_pool β)) (BufferPool.ps_users (bb_pool β))
    (<[sample_payload m := BufferPool.mkHandle b 0]> (BufferPool.ps_handles (bb_pool β)))
    (BufferPool.ps_deleters (bb_pool β) ++ [BufferPool.DStart b]))).
Proof.
  intros [Hu Hp Hc Hpl Hh Hr] Hk Hn Hhd. split; simpl; try done.
  - by rewrite length_insert.
  - intros j hd [(Hj & <- & _)|[_ Hj]]%list_lookup_insert_Some; [|by apply Hr].
    right. rewrite (Hpl k m Hk) in Hj. subst j. split_and!; [done|by eapply lookup_lt_Some|done].
Qed.

Lemma deleter_keeps β π' :
  buffers_ok β -> BufferPool.step (bb_pool β) BufferPool.EvInternal π' ->
  BufferPool.ps_handles π' = BufferPool.ps_handles (bb_pool β) ->
  BufferPool.ps_users π' = BufferPool.ps_users (bb_pool β) -> buffers_ok (with_pool β π').
Proof.
  intros [Hu (p & Hp & He) Hc Hpl Hh Hr] Hs Eh Eu.
  destruct (pool_internal _ _ p Hs Hu ltac:(congruence) Hp) as (p' & Hp' & He').
  split; simpl; rewrite ?Eh; try done; [congruence|]. exists p'. split; [done|congruence].
Qed.

Section safety.
Variables (c : config) (sample_type : Z) (now : Z).
Hypothesis Hcount : cfg_count c < 2 ^ 63.

Abbreviation bench_run :=
  (run (H := bench_bus_lts c sample_type) (bench_init c sample_type now)).

Lemma subscribe_holds b t ty q b' id backlog x :
  subscribe_register b t ty q = (b', Some (id, backlog)) -> x ∈ bus_holds b' -> x ∈ bus_holds b.
Proof.
  intros (en & -> & _ & Hen & _ & Hts & Hh)%subscribe_spec. rewrite !elem_bus_holds.
  intros [(t' & en' & e & Ht & He & ->)|(k & s & e & Hs & He & ->)].
  - left. rewrite Hts in Ht. apply lookup_insert_Some in Ht as [[<- <-]|[_ Ht]]; [|eauto 10].
    simpl in He. destruct Hen as [Hen|[_ ->]]; [eauto 10|]. by apply not_elem_of_nil in He.
  - right. rewrite Hh in Hs. apply lookup_app_Some in Hs as [Hs|[_ Hs]]; [eauto 10|].
    apply list_lookup_singleton_Some in Hs as [_ <-]. by apply not_elem_of_nil in He.
Qed.

Lemma shutdown_holds b x : x ∈ bus_holds (shutdown_detach b).1 -> x ∈ bus_holds b.
Proof.
  rewrite !elem_bus_holds. intros [(t & en & e & Ht & He & ->)|(k & s & e & Hs & He & ->)].
  - simpl in Ht. rewrite lookup_fmap in Ht. destruct (topics_ b !! t); simplify_eq/=.
    by apply not_elem_of_nil in He.
  - right. eauto 10.
Qed.

Lemma bench_step_buffers btr β e β' :
  program_inv (cfg_count c) btr β -> bus_wf (bs_bus (bb_bus β)) ->
  bench_bus_step c sample_type β e β' -> buffers_ok β -> buffers_ok β'.
Proof.
  intros [[_ Hi Hmade He0 _] (cl & Hcl & Hmain & _) _ _ _ _ _ _] Hwf Hs Hok.
  assert (He1 : bb_empty β + 1 < 2 ^ 64).
  { assert (next_seq β <= bb_i β + 1) by (unfold next_seq; destruct (bb_point β); lia).
    zlen_pos (bb_samples β). lia. }
  destruct Hs as [β id σ' Hp Hid Hlt b Hreg Hc Hck|β t Hp Hid Hle Htk|β h π' Hp Hlt Hs|β π' Hp Hlt Hs
    |β h ok π' Hp Hs|β Hp Hid message σ|β t t' Hp Htk Ht|β t t' Hp Htk Ht|β until Hp Hle|β Hp Hle|β limit w Hp Hw|β limit r Hp
    |β σ' Hp Hid ->|β Hp Hid|β ev σ' t Hs Hatt Hle|β k m b Hm Hr Hh π|β π' Hs Hh Hu];
    try (apply (buffers_quiet β); try done; simpl;
         [right; rewrite Hp; done|intros k [?|[?|[? _]]]; [by left|by right; left|done]]).
  - apply (buffers_quiet β); try done; simpl; [by left|].
    intros k [Hk|[Hk|[Hk _]]]; simpl in Hk.
    + rewrite Hc in Hk. by apply not_elem_of_nil in Hk.
    + right; left. by eapply subscribe_holds.
    + congruence.
  - by apply acquired_keeps.
  - destruct Hok as [Hu (p & Hpp & He) Hc Hpl Hh Hr]. rewrite Hp in Hc.
    destruct (acquire_step _ _ _ Hs) as (p0 & p' & Hp0 & Hp' & Hu' & Eh & He'). simplify_eq.
    split; simpl; rewrite ?Eh; try done; [congruence|exists p'; split; [done|congruence]|].
    intros k hd Hk. destruct (Hr k hd Hk) as [?|(? & ? & Hn)]; [by left|right]. split_and!; [done|done|].
    intros [?|[?|[? _]]]; [apply Hn; by left|apply Hn; by right; left|done].
  - by eapply made_keeps.
  - apply (buffers_quiet β); try done; simpl; [right; by rewrite Hp|].
    intros k [Hk|[Hk|[? _]]]; [|by right; left|done].
    right; right. split; [done|]. simpl in Hk. apply list_elem_of_singleton in Hk.
    unfold message, zlen in Hk. lia.
  - apply (buffers_quiet β); try done; simpl; [right; by rewrite Hp|].
    intros k [Hk|[Hk|[? _]]]; [by apply not_elem_of_nil in Hk| |done].
    right; left. by apply shutdown_holds.
  - apply (buffers_quiet β); try done; try (by destruct ev).
    + destruct (bus_step_move _ _ _ cl Hwf Hcl Hs Hatt) as (cl' & _ & Hmv).
      assert (Hpub : kind_of cl = KStamped \/ kind_of cl = KPublishing -> bb_point β = PPublishing).
      { destruct Hmain as [Hpt _]. intros Hk. destruct (bb_point β); try (subst cl; by destruct Hk);
          destruct Hpt, Hk; congruence. }
      destruct ev; try (by left); right; (split; [rewrite Hpub by (destruct Hmv; auto)|]); done.
    + intros k [Hk|[Hk|Hk]].
      * destruct (step_holds _ _ _ cl (Z.of_nat k) Hwf Hcl Hs Hatt) as [?|?]; [|by left|by right; left].
        left. destruct (after_event_same (with_bus β σ') ev (u64 t)) as (_ & _ & Eb & _).
        by rewrite Eb in Hk.
      * destruct (step_holds _ _ _ cl (Z.of_nat k) Hwf Hcl Hs Hatt) as [?|?]; [|by left|by right; left].
        right. destruct (after_event_same (with_bus β σ') ev (u64 t)) as (_ & _ & Eb & _).
        by rewrite Eb in Hk.
      * right; right. by destruct ev; simpl in Hk; destruct Hk.
  - by eapply release_keeps.
  - by apply deleter_keeps.
Qed.

Lemma bench_run_buffers tr β : bench_run tr β -> buffers_ok β.
Proof.
  induction 1 as [|tr e β β' Hr IH Hs].
  - unfold bench_init. rewrite BufferPool.create_spec. split; simpl; try done. eauto.
  - destruct (bench_run_bus c sample_type now 0 tr β Hr) as [Hb _].
    apply (bench_step_buffers (bus_trace tr) β e); [by eapply bench_run_inv| |done|done].
    eapply run_bus_wf, serial_run, Hb.
Qed.

(** The pool has run as a pool runs. *)
Lemma bench_run_pool tr β :
  bench_run tr β ->
  run (H := BufferPool.pool_lts) (BufferPool.create (u64 (payload_bytes c)) (u64 (pool_size c))) (pool_trace tr) (bb_pool β).
Proof.
  induction 1 as [|tr e β β' Hr IH Hs]; [constructor|].
  unfold pool_trace in *. rewrite bind_snoc.
  destruct Hs; simpl; rewrite ?app_nil_r; try done; try (by econstructor).
  - by destruct ev.
  - econstructor; [exact IH|].
    match goal with Hh : _ !! sample_payload _ = Some _ |- _ =>
      by apply (BufferPool.step_drop_handle _ _ _ 0) in Hh end.
Qed.
End safety.
