(* ===== verification/BenchScheduler.v ===== *)
(** * BenchScheduler

    Executable runs of the benchmark of [BenchBus]: which thread takes the next
    step, and what it does. *)

From stdpp Require Import strings sorting.
From S2P Require Import Prelude Lts Doubles BoundedQueue Qos TopicBus BusSystem BusScheduler BusFlow BenchBus.
From S2P Require BufferPool Histogram Time Args.
Open Scope Z_scope.

Section scheduler.
Variables (c : config) (sample_type : Z).

(** The main thread outside the bus; the main thread in an operation of the bus,
    or in its timeout; the worker of a subscription; time; the release of message
    [k]; the next block of deleter [i]. *)
Inductive bench_command :=
  | XMain
  | XNext
  | XTimeout
  | XWork (id : nat)
  | XTick (dt : Z)
  | XRelease (k : nat)
  | XDelete (i : nat).

Definition is_idle (β : bench_bus) : bool :=
  match bs_clients (bb_bus β) with [CIdle] => true | _ => false end.

Definition subscribe_exec (β : bench_bus) : option (bench_bus_event * bench_bus) :=
  if zlen (bb_states β) <? subscribers c then
    match subscribe_register (bs_bus (bb_bus β)) "bench" sample_type (bench_qos c) with
    | (b', Some (id, [])) =>
        let σ' := mkState b' [CBacklog id []] (bs_clock (bb_bus β)) in
        Some (BBus (EvSubscribe id (bench_qos c) []),
              with_states (with_bus β σ') (bb_states β ++ [subscriber_state c (length (bb_states β))]))
    | _ => None
    end
  else match Time.new_ticker (to_double (rate_hz c)) (bs_clock (bb_bus β)) with
       | Some t =>
           Some (BMain, with_point (with_counters β (bb_i β) (bb_failed β) (bb_empty β) (bb_missed β) (Some t))
                          PLoop)
       | None => None
       end.

Definition acquire_exec (β : bench_bus) : option (bench_bus_event * bench_bus) :=
  if bb_i β <? cfg_count c then
    match BufferPool.ps_pool (bb_pool β) with
    | Some p =>
        if (0 <? BufferPool.ps_users (bb_pool β))%nat then
          let '(π', r) := BufferPool.acquire (bb_pool β) p in
          match r with
          | Some h => Some (BPool (BufferPool.EvAcquire (Some h)), with_point (with_pool β π') (PHave h))
          | None =>
              Some (BPool (BufferPool.EvAcquire None),
                    with_point (with_counters (with_pool β π') (bb_i β) (bb_failed β) (bb_empty β +u 1)
                                  (bb_missed β) (bb_ticker β)) PTick)
          end
        else None
    | None => None
    end
  else Some (BMain, with_point β (PDrain (bs_clock (bb_bus β) + 10000 * 1000000) WLock)).

Definition make_exec (β : bench_bus) (h : nat) : option (bench_bus_event * bench_bus) :=
  match BufferPool.pool_exec1 (bb_pool β) (BufferPool.PResize h (u64 (payload_bytes c))) with
  | Some (BufferPool.EvResize h' n ok, π') =>
      if ((h' =? h)%nat && (n =? u64 (payload_bytes c))) then
        Some (BPool (BufferPool.EvResize h (u64 (payload_bytes c)) ok),
              with_point (with_samples (with_pool β π')
                (bb_samples β ++ [mkSample (u64 (bb_i β)) (u64 (bs_clock (bb_bus β))) h])) PMade)
      else None
  | _ => None
  end.

Definition tick_exec (β : bench_bus) : option (bench_bus_event * bench_bus) :=
  match t ← bb_ticker β; Time.sleep_until_next t (bs_clock (bb_bus β)) with
  | Some (t', true) =>
      Some (BMain, with_point (with_counters β (bb_i β + 1) (bb_failed β) (bb_empty β)
                                 (bb_missed β +u 1) (Some t')) PLoop)
  | Some (t', false) =>
      Some (BMain, with_point (with_counters β (bb_i β) (bb_failed β) (bb_empty β) (bb_missed β) (Some t'))
                     (PSleep (Time.next_ t')))
  | None => None
  end.

Definition main_exec (β : bench_bus) : option (bench_bus_event * bench_bus) :=
  match bb_point β with
  | PSubscribe => if is_idle β then subscribe_exec β else None
  | PLoop => acquire_exec β
  | PHave h => make_exec β h
  | PMade =>
      if is_idle β then
        let σ := bb_bus β in
        Some (BBus EvInternal,
              with_point (with_bus β (mkState (bs_bus σ)
                [CStamped (bench_publisher c sample_type) (zlen (bb_samples β) - 1) (u64 (bs_clock σ))]
                (bs_clock σ))) PPublishing)
      else None
  | PPublishing => None
  | PTick => tick_exec β
  | PSleep until =>
      if until <=? bs_clock (bb_bus β) then
        Some (BMain, with_point (with_counters β (bb_i β + 1) (bb_failed β) (bb_empty β) (bb_missed β)
                                   (bb_ticker β)) PLoop)
      else None
  | PDrain limit (WReturn _) => Some (BMain, with_point β PShutdown)
  | PDrain limit w =>
      Some (BMain, with_point β (PDrain limit
              (wait_for_idle limit w (bs_bus (bb_bus β)) (bs_clock (bb_bus β)))))
  | PShutdown =>
      if is_idle β then
        let d := shutdown_detach (bs_bus (bb_bus β)) in
        Some (BBus (EvDetach d.2),
              with_point (with_bus β (mkState d.1 [CStop d.2] (bs_clock (bb_bus β)))) PStopping)
      else None
  | PStopping => if is_idle β then Some (BMain, with_point β PDone) else None
  | PDone => None
  end.

(** A step of the bus; the callback reads the clock at once. *)
Definition bus_exec (β : bench_bus) (cmd : BusScheduler.command) : option (bench_bus_event * bench_bus) :=
  match bus_exec1 (bb_bus β) cmd with
  | Some (ev, σ') => Some (BBus ev, after_event (with_bus β σ') ev (u64 (bs_clock (bb_bus β))))
  | None => None
  end.

Definition reachableb (β : bench_bus) (k : nat) : bool :=
  bool_decide (Z.of_nat k ∈ (bs_clients (bb_bus β) ≫= client_holds)) ||
  bool_decide (Z.of_nat k ∈ bus_holds (bs_bus (bb_bus β))) ||
  match bb_point β with PMade => (S k =? length (bb_samples β))%nat | _ => false end.

Definition release_exec (β : bench_bus) (k : nat) : option (bench_bus_event * bench_bus) :=
  match bb_samples β !! k with
  | Some m =>
      if reachableb β k then None
      else match BufferPool.ps_handles (bb_pool β) !! sample_payload m with
           | Some (BufferPool.mkHandle b 1) =>
               let π := bb_pool β in
               Some (BPool BufferPool.EvInternal,
                     with_pool β (BufferPool.mkState (BufferPool.ps_buffers π) (BufferPool.ps_pool π)
                       (BufferPool.ps_users π)
                       (<[sample_payload m := BufferPool.mkHandle b 0]> (BufferPool.ps_handles π))
                       (BufferPool.ps_deleters π ++ [BufferPool.DStart b])))
           | _ => None
           end
  | None => None
  end.

Definition delete_exec (β : bench_bus) (i : nat) : option (bench_bus_event * bench_bus) :=
  match BufferPool.delete_next (bb_pool β) i with
  | Some (BufferPool.EvInternal, π') => Some (BPool BufferPool.EvInternal, with_pool β π')
  | _ => None
  end.

Definition bench_exec1 (β : bench_bus) (cmd : bench_command) : option (bench_bus_event * bench_bus) :=
  match cmd with
  | XMain => main_exec β
  | XNext => if is_idle β then None else bus_exec β (BNext 0)
  | XTimeout => if is_idle β then None else bus_exec β (BTimeout 0)
  | XWork id => bus_exec β (BWork id)
  | XTick dt => bus_exec β (BTick dt)
  | XRelease k => release_exec β k
  | XDelete i => delete_exec β i
  end.

(** ** The scheduler only takes steps of the program *)

Lemma is_idle_spec β : is_idle β = true <-> idle_main β.
Proof.
  unfold is_idle, idle_main. destruct (bs_clients (bb_bus β)) as [|[] []]; split; try done; congruence.
Qed.

Lemma acquire_exec_sound β e β' :
  bb_point β = PLoop -> acquire_exec β = Some (e, β') -> bench_bus_step c sample_type β e β'.
Proof.
  unfold acquire_exec. intros Hp Hx. destruct (Z.ltb_spec (bb_i β) (cfg_count c)) as [Hlt|Hge];
    [|simplify_eq; by apply bb_published_all].
  destruct (BufferPool.ps_pool (bb_pool β)) as [p|] eqn:Hpool; [|done].
  destruct (Nat.ltb_spec 0 (BufferPool.ps_users (bb_pool β))) as [Hu|]; [|done].
  pose proof (BufferPool.step_acquire _ p Hpool Hu) as Hs.
  destruct (BufferPool.acquire (bb_pool β) p) as [π' [h|]]; simplify_eq.
  - by apply bb_acquired.
  - by apply bb_exhausted.
Qed.

Lemma make_exec_sound β h e β' :
  bb_point β = PHave h -> make_exec β h = Some (e, β') -> bench_bus_step c sample_type β e β'.
Proof.
  unfold make_exec. intros Hp Hx. destruct (BufferPool.pool_exec1 _ _) as [[[] π']|] eqn:Hs; try done.
  apply BufferPool.pool_exec1_sound in Hs.
  destruct (Nat.eqb_spec h0 h), (Z.eqb_spec n (u64 (payload_bytes c))); simplify_eq/=.
  by apply bb_make.
Qed.

Lemma main_exec_sound β e β' : main_exec β = Some (e, β') -> bench_bus_step c sample_type β e β'.
Proof.
  unfold main_exec. destruct (bb_point β) as [| |h| | | |until|limit w| | |] eqn:Hp; try done;
    try (destruct (is_idle β) eqn:Hid; [apply is_idle_spec in Hid|done]).
  - unfold subscribe_exec. destruct (Z.ltb_spec (zlen (bb_states β)) (subscribers c)).
    + destruct (subscribe_register _ _ _ _) as [b' [[id [|]]|]] eqn:Hr; try done. intros; simplify_eq.
      by apply bb_subscribe.
    + destruct (Time.new_ticker _ _) eqn:Ht; intros; simplify_eq. by apply bb_subscribed.
  - by apply acquire_exec_sound.
  - by apply make_exec_sound.
  - intros; simplify_eq. by apply bb_publish.
  - unfold tick_exec. destruct (bb_ticker β) as [t|] eqn:Htk; [|done]. simpl.
    destruct (Time.sleep_until_next _ _) as [[t' []]|] eqn:Ht; intros; simplify_eq.
    + by eapply bb_missed_tick.
    + by eapply bb_sleep.
  - destruct (Z.leb_spec until (bs_clock (bb_bus β))); intros; simplify_eq. by eapply bb_wake.
  - destruct w; intros; simplify_eq; (by eapply bb_drained) || by apply bb_waiting.
  - intros; simplify_eq. by apply bb_shutdown.
  - intros; simplify_eq. by apply bb_stopped.
Qed.

(** Workers and time leave the main thread's things alone. *)
Lemma worker_unattended σ cmd ev σ' :
  match cmd with BWork _ | BTick _ => True | _ => False end ->
  bus_exec1 σ cmd = Some (ev, σ') -> unattended σ ev σ'.
Proof.
  intros Hc. destruct σ as [b cs now], cmd; try done; simpl.
  - unfold next_worker. intros Hx. repeat (case_match; simplify_eq); by split_and!.
  - destruct (0 <=? dt); intros; simplify_eq. by split_and!.
Qed.

Lemma bus_exec_sound β cmd e β' :
  is_idle β = false \/ match cmd with BWork _ | BTick _ => True | _ => False end ->
  bus_exec β cmd = Some (e, β') -> bench_bus_step c sample_type β e β'.
Proof.
  unfold bus_exec. intros Hc. destruct (bus_exec1 _ _) as [[ev σ']|] eqn:Hx; [|done].
  intros; simplify_eq. apply bb_bus_step; [by eapply bus_exec1_sound| |done].
  destruct Hc as [Hid|Hc]; [left|right; by eapply worker_unattended].
  rewrite <-is_idle_spec, Hid. done.
Qed.

Lemma reachableb_spec β k : reachableb β k = false -> ~ reachable β k.
Proof.
  unfold reachableb, reachable. rewrite !orb_false_iff, !bool_decide_eq_false.
  intros [[H1 H2] H3] [?|[?|[Hp Hk]]]; [done|done|]. rewrite Hp in H3.
  by apply Nat.eqb_neq in H3.
Qed.

Lemma release_exec_sound β k e β' :
  release_exec β k = Some (e, β') -> bench_bus_step c sample_type β e β'.
Proof.
  unfold release_exec. destruct (bb_samples β !! k) as [m|] eqn:Hm; [|done].
  destruct (reachableb β k) eqn:Hr; [done|]. apply reachableb_spec in Hr.
  destruct (BufferPool.ps_handles (bb_pool β) !! sample_payload m) as [[b [|[|]]]|] eqn:Hh; try done.
  intros; simplify_eq. by eapply bb_release.
Qed.

Lemma delete_exec_sound β i e β' :
  delete_exec β i = Some (e, β') -> bench_bus_step c sample_type β e β'.
Proof.
  unfold delete_exec. destruct (BufferPool.delete_next _ _) as [[[] π']|] eqn:Hx; try done.
  intros; simplify_eq. apply bb_deleter.
  - apply (BufferPool.pool_exec1_sound _ (BufferPool.PDelete i)). done.
  - unfold BufferPool.delete_next, BufferPool.unref in Hx. by repeat (case_match; simplify_eq/=).
  - unfold BufferPool.delete_next, BufferPool.unref in Hx. by repeat (case_match; simplify_eq/=).
Qed.

Lemma bench_exec1_sound β cmd e β' :
  bench_exec1 β cmd = Some (e, β') -> bench_bus_step c sample_type β e β'.
Proof.
  destruct cmd as [| | |id|dt|k|i]; simpl.
  - apply main_exec_sound.
  - destruct (is_idle β) eqn:Hid; [done|]. apply bus_exec_sound. by left.
  - destruct (is_idle β) eqn:Hid; [done|]. apply bus_exec_sound. by left.
  - apply bus_exec_sound. by right.
  - apply bus_exec_sound. by right.
  - apply release_exec_sound.
  - apply delete_exec_sound.
Qed.

#[export] Instance bench_scheduler :
    Scheduler (H := bench_bus_lts c sample_type) bench_bus bench_bus_event bench_command :=
  {| exec1 := bench_exec1; exec1_sound := bench_exec1_sound |}.
End scheduler.
