(* ===== verification/BenchComplete.v ===== *)
(** * BenchComplete

    The end of the benchmark of [BenchBus]: every message made has come to exactly
    one end at every subscriber, and no thread is left.  The bus was never asked to
    detach a subscription in the middle of a [subscribe], so what [BusShutdown]
    shows of such buses holds of this one. *)

From stdpp Require Import strings.
From S2P Require Import Prelude Lts Doubles BoundedQueue Qos TopicBus BusSystem BusInvariants.
From S2P Require Import BusFlow BusOrder BusDelivery BusSerial BusStop BusShutdown BenchBus BenchOrder BenchScheduler.
From S2P Require BufferPool Time.
Open Scope Z_scope.

(** ** A bus with one client *)

Lemma one_client_orderly σ ev σ' :
  length (bs_clients σ) = 1%nat -> step σ ev σ' -> orderly_step σ ev σ'.
Proof.
  intros Hl Hs. split; [done|].
  assert (Hone : forall i c', bs_clients σ !! i = Some c' -> bs_clients σ = [c']).
  { intros i c' Hi. destruct (bs_clients σ) as [|c0 [|]]; [done| |done].
    apply list_lookup_singleton_Some in Hi as [_ ->]. done. }
  destruct Hs; simpl in *; try done; unfold subscribing_now; simpl; intros (k & id' & bl & Hk);
    match goal with Hi : _ !! _ = Some CIdle |- _ => rewrite (Hone _ _ Hi) in Hk end;
    apply list_lookup_singleton_Some in Hk as [_ Hk]; done.
Qed.

Lemma one_client_run now tr σ :
  run (bus_init 1 now) tr σ -> run (H := orderly_lts) (bus_init 1 now) tr σ /\ length (bs_clients σ) = 1%nat.
Proof.
  induction 1 as [|tr ev σ σ' Hr [IH Hl] Hs]; [split; [constructor|done]|].
  split; [|by rewrite (step_clients _ _ _ Hs)].
  apply (run_snoc (H := orderly_lts) _ _ _ σ); [exact IH|by apply one_client_orderly].
Qed.

(** What the steps of the benchmark that are neither its own nor a publish leave. *)
Lemma unselecting_same σ ev σ' cl :
  bs_clients σ = [cl] -> step σ ev σ' -> (bs_clients σ <> [CIdle] \/ unattended σ ev σ') ->
  match ev with EvSelect _ _ _ | EvReject _ | EvSubscribe _ _ _ | EvDetach _ => False | _ => True end ->
  topics_ (bs_bus σ') = topics_ (bs_bus σ).
Proof.
  intros Hcl Hs Hatt Hev. destruct Hs; simpl in *; try done; subst;
    match goal with
    | Hi : [cl] !! ?i = Some _ |- _ => apply list_lookup_singleton_Some in Hi as [-> ->]; simpl in *
    end; destruct Hatt as [Hatt|(_ & Ht & _)]; simpl in *; done.
Qed.

Lemma select_step σ p e targets σ' :
  step σ (EvSelect p e targets) σ' ->
  exists m t ms h, publish_select (bs_bus σ) (pub_topic p) (pub_type p) (pub_qos p) m t
                 = (bs_bus σ', Selected e targets ms h).
Proof. inversion 1; subst; simpl. eauto. Qed.

Lemma reject_step σ p σ' :
  step σ (EvReject p) σ' ->
  σ' = σ \/
  exists i m t sel, bs_clients σ !! i = Some (CStamped p m t) /\ (sel = NoTopic \/ sel = WrongType) /\
    publish_select (bs_bus σ) (pub_topic p) (pub_type p) (pub_qos p) m t = (bs_bus σ', sel).
Proof. inversion 1; subst; simpl; [by left|right]. eauto 10. Qed.

(** ** The invariant *)
Section complete.
Variables (c : config) (sample_type : Z) (now : Z).
Hypothesis Hcount : cfg_count c < 2 ^ 63.

Abbreviation bench_run :=
  (run (H := bench_bus_lts c sample_type) (bench_init c sample_type now)).

(** Every subscription is attached to the one topic, with one QoS ... *)
Record opened (b : TopicBus) : Prop := {
  op_topic : exists e, topics_ b !! "bench" = Some e /\ te_type e = sample_type /\
               te_subs e = List.seq 0 (length (heap b));
  op_qos id s : heap b !! id = Some s -> sub_qos s = bench_qos c
}.

(** ... until [shutdown]. *)
Definition closed_down (b : TopicBus) : Prop := forall id, (id < length (heap b))%nat -> detached b id.

Definition ending (p : point) : bool := match p with PStopping | PDone => true | _ => false end.

(** The messages handed to the bus so far. *)
Definition handed (β : bench_bus) : Z :=
  zlen (bb_samples β) - match bs_clients (bb_bus β) with [cl] => unsent β cl | _ => 0 end.

Record complete_inv (btr : list event) (β : bench_bus) : Prop := {
  cm_phase : if ending (bb_point β) then closed_down (bs_bus (bb_bus β)) else opened (bs_bus (bb_bus β));
  cm_fresh : bb_point β = PSubscribe -> bb_samples β = [];
  cm_stamp p m t : bs_clients (bb_bus β) = [CStamped p m t] -> p = bench_publisher c sample_type;
  cm_dest id : payload <$> destined id btr =
    if decide (id < length (heap (bs_bus (bb_bus β))))%nat then seqZ 0%Z (handed β) else []
}.

Lemma compatible_self : compatible (bench_qos c) (bench_qos c).
Proof. unfold compatible, check_compatible, bench_qos. simpl. by destruct (best_effort c). Qed.

Lemma accepts_opened b id : opened b -> (id < length (heap b))%nat -> accepts (heap b) (bench_qos c) id = true.
Proof.
  intros [_ Hq] [s Hs]%lookup_lt_is_Some. unfold accepts. rewrite Hs, (Hq id s Hs).
  apply bool_decide_eq_true_2, compatible_self.
Qed.

(** Topics, number and QoS of the subscriptions as before. *)
Definition same_shape (b b' : TopicBus) : Prop :=
  topics_ b' = topics_ b /\ length (heap b') = length (heap b) /\
  forall id s', heap b' !! id = Some s' -> exists s, heap b !! id = Some s /\ sub_qos s' = sub_qos s.

Lemma same_opened b b' : same_shape b b' -> opened b -> opened b'.
Proof.
  intros (Ht & Hl & Hq) [Htop Hqos]. split; rewrite ?Ht, ?Hl; [done|].
  intros id s' Hs'. destruct (Hq id s' Hs') as (s & Hs & ->). eauto.
Qed.

Lemma same_closed b b' : same_shape b b' -> closed_down b -> closed_down b'.
Proof. unfold closed_down, detached. intros (-> & -> & _) Hc. done. Qed.

Lemma same_phase b b' (e : bool) :
  same_shape b b' -> (if e then closed_down b else opened b) -> if e then closed_down b' else opened b'.
Proof. destruct e; eauto using same_opened, same_closed. Qed.

Lemma same_refl b : same_shape b b.
Proof. split_and!; [done|done|]. eauto. Qed.

Lemma kept_qos b b' :
  heap_kept b b' -> length (heap b') = length (heap b) ->
  forall id s', heap b' !! id = Some s' -> exists s, heap b !! id = Some s /\ sub_qos s' = sub_qos s.
Proof.
  intros Hk Hl id s' Hs'. assert (Hlt : (id < length (heap b))%nat) by (rewrite <-Hl; by eapply lookup_lt_Some).
  apply lookup_lt_is_Some in Hlt as [s Hs]. destruct (Hk id s Hs) as (s0 & Hs0 & Hst).
  simplify_eq. exists s. split; [done|]. unfold static in Hst. congruence.
Qed.

Lemma unselecting_shape σ ev σ' cl :
  bs_clients σ = [cl] -> step σ ev σ' -> (bs_clients σ <> [CIdle] \/ unattended σ ev σ') ->
  match ev with EvSelect _ _ _ | EvReject _ | EvSubscribe _ _ _ | EvDetach _ => False | _ => True end ->
  same_shape (bs_bus σ) (bs_bus σ').
Proof.
  intros Hcl Hs Hatt Hev.
  assert (Hl : length (heap (bs_bus σ')) = length (heap (bs_bus σ)))
    by (apply (step_heap_length σ ev); [done|by destruct ev]).
  split_and!; [by eapply unselecting_same|done|].
  apply kept_qos; [|done]. apply (change_kept _ _ (step_change _ _ _ Hs)).
Qed.

(** ** Its steps *)

Lemma handed_at β cl : bs_clients (bb_bus β) = [cl] -> handed β = zlen (bb_samples β) - unsent β cl.
Proof. unfold handed. by intros ->. Qed.

(** A step after which the same messages have been handed over. *)
Lemma keep_complete btr btr' β β' :
  complete_inv btr β -> (forall id, destined id btr' = destined id btr) ->
  same_shape (bs_bus (bb_bus β)) (bs_bus (bb_bus β')) ->
  ending (bb_point β') = ending (bb_point β) -> handed β' = handed β ->
  (bb_point β' = PSubscribe -> bb_samples β' = []) ->
  (forall p m t, bs_clients (bb_bus β') = [CStamped p m t] -> p = bench_publisher c sample_type) ->
  complete_inv btr' β'.
Proof.
  intros [Hp Hf Hs Hd] Hdn Hsh He Hh Hf' Hs'. split; try done.
  - rewrite He. by eapply same_phase.
  - intros id. destruct Hsh as (_ & -> & _). rewrite Hdn, Hh. apply Hd.
Qed.

(** A message is handed to the bus. *)
Lemma select_complete btr β p e targets σ' cl' t :
  complete_inv btr β -> bb_point β = PPublishing -> bus_wf (bs_bus (bb_bus β)) ->
  bs_clients (bb_bus β) = [CStamped p (payload e) t] -> payload e = zlen (bb_samples β) - 1 /\ 0 <= payload e ->
  step (bb_bus β) (EvSelect p e targets) σ' -> bs_clients σ' = [cl'] -> kind_of cl' = KPublishing ->
  complete_inv (btr ++ [EvSelect p e targets]) (with_bus β σ').
Proof.
  intros [Hph Hf Hst Hd] Hpt Hwf Hcl [He H0] Hs Hcl' Hk.
  pose proof (Hst _ _ _ Hcl) as ->. rewrite Hpt in Hph. simpl in Hph.
  destruct (select_step _ _ _ _ _ Hs) as (m & t' & ms & h & Hsel).
  apply select_spec in Hsel as (en & Hen & _ & _ & -> & Hcnt & Hts). simpl in *.
  destruct Hph as [(e0 & He0 & Hty & Hsubs) Hq].
  assert (en = e0) as -> by congruence.
  assert (Hin : forall id, id ∈ filter (fun id => accepts (heap (bs_bus (bb_bus β))) (bench_qos c) id = true)
                  (te_subs e0) <-> (id < length (heap (bs_bus (bb_bus β))))%nat).
  { intros id. rewrite list_elem_of_filter, Hsubs, elem_of_seq. split; [lia|]. intros Hlt.
    split; [|lia]. apply accepts_opened; [split; eauto|done]. }
  split; simpl; rewrite ?Hpt; simpl; try done.
  - split.
    + eexists. rewrite Hts, lookup_insert_eq. split; [done|]. simpl. split; [done|].
      by rewrite (proj1 Hcnt).
    + intros id s' Hs'. destruct (proj2 Hcnt id s' Hs') as (s & Hs0 & Hst0 & _).
      rewrite <-(Hq id s Hs0). unfold static in Hst0. congruence.
  - intros p m' t'' H. rewrite Hcl' in H. by simplify_eq.
  - intros id. rewrite destined_snoc, fmap_app, Hd, (handed_at β _ Hcl). simpl.
    rewrite copies_NoDup by (apply NoDup_filter; by eapply wf_nodup).
    rewrite (handed_at (with_bus β σ') cl' Hcl'), (unsent_other (with_bus β σ') cl')
      by (simpl; congruence).
    unfold unsent. rewrite Hpt. simpl. rewrite (proj1 Hcnt). rewrite (decide_ext _ _ _ _ (Hin id)).
    case_decide; [|done]. simpl. rewrite He, Z.sub_0_r.
    replace (zlen (bb_samples β)) with (zlen (bb_samples β) - 1 + 1) at 3 by lia.
    rewrite seqZ_app by lia. done.
Qed.
(** With the topic there and of one type, no publish of the benchmark is rejected. *)
Lemma never_rejects b m t b' sel :
  opened b -> publish_select b "bench" sample_type (bench_qos c) m t = (b', sel) ->
  sel = NoTopic \/ sel = WrongType -> False.
Proof.
  intros [(e & He & Hty & _) _]. unfold publish_select. rewrite He, Hty, Z.eqb_refl. simpl.
  intros Hsel [->| ->]; congruence.
Qed.

Lemma publishing_point β cl :
  main_ok β cl -> kind_of cl = KStamped \/ kind_of cl = KPublishing -> bb_point β = PPublishing.
Proof.
  intros [Hp _] Hk. destruct (bb_point β); try done; exfalso; try (by subst cl; destruct Hk);
    destruct Hp as [Hp|Hp]; rewrite Hp in Hk; by destruct Hk.
Qed.

Lemma bus_complete btr β ev σ' t :
  complete_inv btr β -> program_inv (cfg_count c) btr β -> bus_wf (bs_bus (bb_bus β)) ->
  step (bb_bus β) ev σ' -> (~ idle_main β \/ unattended (bb_bus β) ev σ') ->
  complete_inv (btr ++ [ev]) (after_event (with_bus β σ') ev t).
Proof.
  intros Hc Hinv Hwf Hs Hatt. destruct (pi_main _ _ _ Hinv) as (cl & Hcl & Hok & _).
  destruct (bus_step_move _ _ _ cl Hwf Hcl Hs Hatt) as (cl' & Hcl' & Hmv).
  assert (Hsh : match ev with EvSelect _ _ _ | EvReject _ | EvSubscribe _ _ _ | EvDetach _ => False | _ => True end ->
            same_shape (bs_bus (bb_bus β)) (bs_bus σ')) by (by apply (unselecting_shape _ ev _ cl)).
  assert (Hquiet : (forall id, destined_by id ev = []) -> match ev with EvPublished _ _ | EvReject _ => False | _ => True end ->
            same_shape (bs_bus (bb_bus β)) (bs_bus σ') ->
            (cl' = cl \/ kind_of cl <> KStamped /\ kind_of cl <> KIdle /\
              (kind_of cl' = kind_of cl \/ kind_of cl <> KPublishing /\ cl' = CIdle)) ->
            complete_inv (btr ++ [ev]) (after_event (with_bus β σ') ev t)).
  { intros Hn Hev Hshape Hk.
    assert (Hpt : bb_point (after_event (with_bus β σ') ev t) = bb_point β)
      by (by destruct ev).
    destruct (after_event_same (with_bus β σ') ev t) as (Esm & _ & Eb & _).
    apply (keep_complete btr _ β); rewrite ?Hpt, ?Esm, ?Eb; try done.
    - intros id. by rewrite destined_same.
    - assert (Hu : unsent β cl' = unsent β cl) by (destruct Hk as [->|(?&?&?)]; [done|by apply moved_ok]).
      rewrite (handed_at _ cl') by (by rewrite Eb). rewrite (handed_at β cl Hcl), Esm, <-Hu.
      unfold unsent. by rewrite Hpt.
    - apply (cm_fresh _ _ Hc).
    - intros p m t0 Hcl2. simpl in Hcl2. rewrite Hcl' in Hcl2. simplify_eq.
      destruct Hk as [<-|(Hst & _ & [Hk|[_ Hk]])]; [by eapply (cm_stamp _ _ Hc)| |done].
      by rewrite <-Hk in Hst. }
  destruct ev as [p|p e targets|h tp m|id e s|e acc|id q bl|ids|id e n|id e n|id e|]; simpl in Hmv; try done;
    try (apply Hquiet; [done|done|by apply Hsh|by (left + idtac)]; done).
  - destruct Hmv as [Hk ->]. pose proof (publishing_point β cl Hok (or_introl Hk)) as Hpt. exfalso.
    pose proof (cm_phase _ _ Hc) as Hop. rewrite Hpt in Hop. simpl in Hop.
    destruct (reject_step _ _ _ Hs) as [->|(i & m & t0 & sel & Hi & Hsel & Hps)].
    + rewrite Hcl in Hcl'. by simplify_eq.
    + rewrite Hcl in Hi. apply list_lookup_singleton_Some in Hi as [_ ->].
      rewrite (cm_stamp _ _ Hc _ _ _ Hcl) in Hps. by eapply never_rejects.
  - destruct Hmv as (_ & [t0 ->] & Hk). pose proof (publishing_point β _ Hok (or_introl eq_refl)) as Hpt.
    eapply (select_complete btr β); try done. apply Hok.
  - destruct Hmv as [Hk ->]. pose proof (publishing_point β cl Hok (or_intror Hk)) as Hpt.
    apply (keep_complete btr _ β); simpl; rewrite ?Hpt; try done.
    + intros id. by rewrite destined_same.
    + by apply Hsh.
    + rewrite (handed_at _ CIdle) by done. rewrite (handed_at β cl Hcl), !unsent_other; simpl; congruence.
    + intros p m t0 Hcl2. simpl in Hcl2. congruence.
Qed.
Lemma idle_handed β : idle_main β -> bb_point β <> PMade -> handed β = zlen (bb_samples β).
Proof. intros Hid Hp. rewrite (handed_at β CIdle Hid), idle_unsent by done. lia. Qed.

Lemma subscribe_complete btr β id σ' sts :
  complete_inv btr β -> bb_point β = PSubscribe -> idle_main β ->
  subscribe_register (bs_bus (bb_bus β)) "bench" sample_type (bench_qos c) = (bs_bus σ', Some (id, [])) ->
  bs_clients σ' = [CBacklog id []] ->
  complete_inv (btr ++ [EvSubscribe id (bench_qos c) []]) (with_states (with_bus β σ') sts).
Proof.
  intros [Hph Hf Hst Hd] Hp Hid Hreg Hcl'. rewrite Hp in Hph. destruct Hph as [(e0 & He0 & Hty & Hsubs) Hq].
  apply subscribe_spec in Hreg as (e & -> & _ & [He|[He _]] & _ & Hts & Hheap); [|congruence].
  assert (e = e0) as -> by congruence. specialize (Hf Hp).
  split; simpl; rewrite ?Hp; simpl; try done.
  - split.
    + eexists. rewrite Hts, lookup_insert_eq. split; [done|]. simpl. split; [done|].
      by rewrite Hheap, length_app, Nat.add_1_r, seq_S, Hsubs.
    + intros id s. rewrite Hheap. intros [Hs|[_ Hs]]%lookup_app_Some; [by eapply Hq|].
      by apply list_lookup_singleton_Some in Hs as [_ <-].
  - intros p m t H. congruence.
  - intros id. rewrite destined_same by (simpl; by case_decide).
    rewrite Hd, idle_handed, (handed_at (with_states (with_bus β σ') sts) _ Hcl'), unsent_other
      by (simpl; rewrite ?Hp; done).
    simpl. rewrite Hf. by repeat case_decide.
Qed.

Lemma make_complete btr β h m π' :
  complete_inv btr β -> bb_point β = PHave h -> idle_main β ->
  complete_inv btr (with_point (with_samples (with_pool β π') (bb_samples β ++ [m])) PMade).
Proof.
  intros Hc Hp Hid. apply (keep_complete btr _ β); simpl; rewrite ?Hp; try done; [by apply same_refl| |].
  - rewrite (handed_at _ CIdle), idle_handed by (rewrite ?Hp; done). unfold unsent. simpl.
    rewrite zlen_app. change (zlen [m]) with 1. lia.
  - apply (cm_stamp _ _ Hc).
Qed.

Lemma publish_complete btr β :
  complete_inv btr β -> bb_point β = PMade -> idle_main β ->
  let σ := bb_bus β in
  complete_inv (btr ++ [EvInternal])
    (with_point (with_bus β (mkState (bs_bus σ)
       [CStamped (bench_publisher c sample_type) (zlen (bb_samples β) - 1) (u64 (bs_clock σ))]
       (bs_clock σ))) PPublishing).
Proof.
  intros Hc Hp Hid σ. apply (keep_complete btr _ β); simpl; rewrite ?Hp; try done.
  - intros id. by rewrite destined_same.
  - by apply same_refl.
  - rewrite (handed_at β CIdle Hid). unfold handed, unsent. simpl. by rewrite Hp.
  - intros p m t H. by simplify_eq.
Qed.

Lemma shutdown_complete btr β ids :
  complete_inv btr β -> bb_point β = PShutdown -> idle_main β ->
  let σ := bb_bus β in
  complete_inv (btr ++ [EvDetach ids])
    (with_point (with_bus β (mkState (shutdown_detach (bs_bus σ)).1 [CStop ids] (bs_clock σ))) PStopping).
Proof.
  intros [Hph Hf Hst Hd] Hp Hid σ. split; simpl; try done.
  - intros id Hlt. split; [done|]. intros t e. simpl. rewrite lookup_fmap.
    destruct (topics_ _ !! t); simpl; intros; simplify_eq/=. apply not_elem_of_nil.
  - intros id. rewrite destined_same, Hd by done. rewrite idle_handed by (rewrite ?Hp; done).
    unfold handed, unsent. simpl. by rewrite Z.sub_0_r.
Qed.

(** A step of the main thread outside the bus. *)
Lemma rest_complete btr β β' :
  complete_inv btr β -> bb_bus β' = bb_bus β -> bb_samples β' = bb_samples β -> idle_main β ->
  bb_point β <> PMade -> bb_point β' <> PMade -> bb_point β' <> PSubscribe ->
  ending (bb_point β') = ending (bb_point β) -> complete_inv btr β'.
Proof.
  intros Hc Hb Hs Hid Hp Hp' Hp2 He. apply (keep_complete btr _ β); rewrite ?Hb; try done.
  - by apply same_refl.
  - rewrite !idle_handed, Hs; try done. unfold idle_main. by rewrite Hb.
  - apply (cm_stamp _ _ Hc).
Qed.

Lemma pool_complete btr β π' : complete_inv btr β -> complete_inv btr (with_pool β π').
Proof. intros []. by split. Qed.

Lemma main_idle btr β :
  program_inv (cfg_count c) btr β -> resting (bb_point β) = true -> idle_main β.
Proof.
  intros Hinv Hr. destruct (pi_main _ _ _ Hinv) as (cl & Hcl & [Hp _] & _). unfold idle_main. rewrite Hcl.
  by destruct (bb_point β); try done; subst cl.
Qed.

Lemma step_complete tr β e β' :
  complete_inv (bus_trace tr) β -> program_inv (cfg_count c) (bus_trace tr) β -> bus_wf (bs_bus (bb_bus β)) ->
  bench_bus_step c sample_type β e β' -> complete_inv (bus_trace (tr ++ [e])) β'.
Proof.
  intros Hc Hinv Hwf Hs. pose proof (main_idle _ _ Hinv) as Hidle.
  destruct Hs as [β id σ' Hp Hid Hlt b Hreg Hcl Hck|β t Hp Hid Hle Htk|β h π' Hp Hlt Hs|β π' Hp Hlt Hs
    |β h ok π' Hp Hs|β Hp Hid message σ|β t t' Hp Htk Ht|β t t' Hp Htk Ht|β until Hp Hle|β Hp Hle|β limit w Hp Hw|β limit r Hp
    |β σ' Hp Hid ->|β Hp Hid|β ev σ' t Hs Hatt Hle|β k m b Hm Hr Hh π|β π' Hs Hh Hu];
    try (rewrite bus_trace_other by done); try rewrite bus_trace_bus;
    try (apply (rest_complete _ β); simpl; rewrite ?Hp; try done; apply Hidle; by rewrite Hp);
    try (by apply pool_complete).
  - by apply subscribe_complete.
  - eapply make_complete; [done|done|apply Hidle; by rewrite Hp].
  - by apply publish_complete.
  - by apply shutdown_complete.
  - by apply bus_complete.
Qed.

Lemma run_complete tr β : bench_run tr β -> complete_inv (bus_trace tr) β.
Proof.
  induction 1 as [|tr e β β' Hr IH Hs].
  - split; try done; simpl. split; [|done]. by eexists.
  - apply (step_complete tr β); try done; [by eapply bench_run_inv|].
    destruct (bench_run_bus c sample_type now 0 tr β Hr) as [Hb _]. eapply run_bus_wf, serial_run, Hb.
Qed.
(** ** The end *)

(** A bus with one client, idle, with nothing attached: every worker is joined,
    having emptied its queue. *)
Lemma closed_down_joined tr b t id s :
  run (bus_init 1 now) tr (mkState b [CIdle] t) -> closed_down b -> heap b !! id = Some s ->
  sub_worker s = WJoined /\ items_ (sub_queue s) = [].
Proof.
  intros Hr Hcd Hs. destruct (one_client_run _ _ _ Hr) as [Ho _].
  destruct (run_threads _ _ _ _ Ho) as [Hth _]. specialize (Hth id s Hs). simpl in Hth.
  assert (Hw : sub_worker s = WJoined).
  { case_decide as Hw.
    - destruct Hth as [(tp & e & He & Hin)|Hin]; [|by apply not_elem_of_nil in Hin].
      destruct (Hcd id) as [_ Hno]; [by eapply lookup_lt_Some|]. by destruct (Hno tp e He).
    - destruct (sub_worker s); try (by destruct Hw); [|done]. by apply not_elem_of_nil in Hth. }
  split; [done|]. apply (run_drained _ _ _ _ Hr id s Hs). by right.
Qed.

Lemma idle_finished tr b t id s :
  run (bus_init 1 now) tr (mkState b [CIdle] t) -> heap b !! id = Some s -> in_sub s = [] ->
  finished id tr ≡ₚ destined id tr.
Proof.
  intros Hr Hs Hin. symmetry. apply countb_Permutation. intros f. rewrite (run_flow f id _ _ _ _ Hr).
  unfold held, in_subs. simpl. by rewrite Hs, Hin, countb_nil.
Qed.
End complete.
