(* ===== verification/BenchEnd.v ===== *)
(** * BenchEnd

    The benchmark of [BenchBus] can always be run to its end: wherever its threads
    stand, the ticker beats on, a publish in progress gives up at its deadline, the
    wait for idle gives up at its limit, and the workers drain their queues when the
    bus shuts down. *)

From stdpp Require Import strings.
From S2P Require Import Prelude Lts Doubles BoundedQueue QueueTheorems Qos TopicBus BusSystem BusInvariants.
From S2P Require Import BusFlow BusOrder BusSerial BusStop BusLiveness BusShutdown.
From S2P Require Import BenchBus BenchOrder BenchBuffers BenchScheduler BenchComplete.
From S2P Require BufferPool Time.
Open Scope Z_scope.

(** ** The call in progress *)

(** What there is to know of the operation that the one client is in. *)
Definition call_ok (T : Z) (b : TopicBus) (now : Z) (cl : client) : Prop :=
  NoDup (client_ids cl) /\
  match cl with
  | CBacklog id _ => exists s, heap b !! id = Some s /\ not_joinable (sub_worker s)
  | CBlocked _ _ _ _ d => d <= now + T
  | _ => True
  end.

Definition calls_ok (T : Z) (σ : bus_state) : Prop :=
  reliable_timeout_ (bs_bus σ) = T /\ Forall (call_ok T (bs_bus σ) (bs_clock σ)) (bs_clients σ).

Lemma step_clock σ ev σ' : step σ ev σ' -> bs_clock σ <= bs_clock σ'.
Proof. by destruct 1. Qed.

(** A worker that was not started, or is joined, takes no step. *)
Lemma call_update T b now cl id s s' :
  heap b !! id = Some s -> (not_joinable (sub_worker s) -> not_joinable (sub_worker s')) ->
  call_ok T b now cl -> call_ok T (update_sub b id s') now cl.
Proof.
  intros Hs Hw [Hn Hc]. split; [done|]. destruct cl as [| | | | |id' bl| |]; try done.
  destruct Hc as (s0 & Hs0 & Hj). destruct (decide (id' = id)) as [->|Hne].
  - exists s'. simplify_eq. split; [by eapply update_lookup|auto].
  - exists s0. simpl. by rewrite list_lookup_insert_ne by done.
Qed.

Lemma after_target_ok T b now e id targets acc sec :
  NoDup (id :: targets) -> (forall c d, sec_outcome sec = Sleeps c d -> d <= now + T) ->
  call_ok T b now (after_target e id targets acc sec).
Proof.
  intros Hnd Hd. unfold after_target. destruct (sec_outcome sec) as [|c d] eqn:Ho.
  - split; [|done]. by apply NoDup_cons in Hnd as [_ ?].
  - split; [done|]. by eapply Hd.
Qed.

Lemma step_calls T σ ev σ' cl :
  bus_wf (bs_bus σ) -> bs_clients σ = [cl] -> step σ ev σ' ->
  (bs_clients σ <> [CIdle] \/ unattended σ ev σ') -> calls_ok T σ -> calls_ok T σ'.
Proof.
  intros Hwf Hcl Hs Hatt [HT Hc].
  assert (Hone : call_ok T (bs_bus σ) (bs_clock σ) cl) by (rewrite Hcl in Hc; by inversion Hc).
  clear Hc. pose proof Hone as [Hn Hcall].
  assert (Hset : forall b' cl' now', reliable_timeout_ b' = T -> call_ok T b' now' cl' ->
            calls_ok T (mkState b' [cl'] now')) by (intros; split; [done|by apply Forall_singleton]).
  destruct Hs; simpl in *; subst cs;
    try match goal with Hi : [cl] !! _ = Some _ |- _ => apply list_lookup_singleton_Some in Hi as [-> ->]; simpl in * end;
    try (destruct Hatt as [Hatt|(? & ? & ? & ? & ?)]; [done|simpl in *; simplify_eq]);
    apply Hset; simpl; try done;
    try (by eapply call_update; [done| |exact Hone]; simpl;
         intros [Hj|Hj]; simpl in Hj; congruence);
    try (split; [by constructor|done]).
  - by rewrite <-(publish_timeout b (pub_topic p) (pub_type p) (pub_qos p) message t), H0 in HT.
  - by rewrite <-(publish_timeout b (pub_topic p) (pub_type p) (pub_qos p) message t), H0 in HT.
  - apply select_spec in H0 as (en & Hen & _ & _ & -> & _). split; [|done]. simpl.
    apply NoDup_filter. by eapply wf_nodup.
  - apply after_target_ok; [done|]. intros c d Hsl. subst T.
    by rewrite (target_push_sleeps b id s e now _ sec c d Hwf H0 H1 Hsl).
  - apply after_target_ok; [done|]. intros c d' Hsl.
    by rewrite (push_after_wait_sleeps _ _ _ _ _ _ Hsl).
  - split; [done|]. eapply (call_update T b now (CBacklog id (e :: backlog))); done.
  - split; [done|]. destruct cl; try done. lia.
Qed.

(** ** The clock and the ticker *)

(** The period of the ticker, which the rate alone determines. *)
Definition bench_period (c : config) : Z :=
  match Time.new_ticker (to_double (rate_hz c)) 0 with Some t => Time.period_ t | None => 0 end.

Lemma bench_ticker c :
  0 <= bench_period c <= 1000000000 /\
  forall now, Time.new_ticker (to_double (rate_hz c)) now = Some (Time.mkTicker (bench_period c) now).
Proof.
  unfold bench_period. destruct (Time.new_ticker_total (rate_hz c)) as (p & Hp & Ht). rewrite Ht. done.
Qed.

Section ending.
Variables (c : config) (sample_type : Z) (now : Z).
Hypothesis Hcount : cfg_count c < 2 ^ 63.
Hypothesis Htimeout : 0 <= reliable_timeout_ms c.
Hypothesis Hnow : tp_min <= now.

Abbreviation bench_run :=
  (run (H := bench_bus_lts c sample_type) (bench_init c sample_type now)).

Definition timeout : Z := reliable_timeout_ms c * 1000000.

Abbreviation period := (bench_period c).

(** Once there is a ticker it is not ahead of the clock, but by the beat it sleeps
    for. *)
Definition beat_ok (β : bench_bus) : Prop :=
  match bb_ticker β with
  | None => bb_point β = PSubscribe
  | Some t =>
      Time.period_ t = period /\ tp_min <= Time.next_ t /\
      match bb_point β with
      | PSleep until => until = Time.next_ t /\ until <= bs_clock (bb_bus β) + period
      | _ => Time.next_ t <= bs_clock (bb_bus β)
      end
  end.

Record on_time (β : bench_bus) : Prop := {
  ot_calls : calls_ok timeout (bb_bus β);
  ot_beat : beat_ok β;
  ot_clock : now <= bs_clock (bb_bus β);
  ot_states : zlen (bb_states β) <= Z.max 0 (subscribers c)
}.

Lemma after_event_ticker β ev t : bb_ticker (after_event β ev t) = bb_ticker β.
Proof. by destruct ev. Qed.

Lemma after_event_beat β σ' ev t :
  beat_ok β -> bs_clock (bb_bus β) <= bs_clock σ' ->
  match ev with
  | EvPublished _ _ | EvReject _ => bb_point β <> PSubscribe /\ forall until, bb_point β <> PSleep until
  | _ => True
  end ->
  beat_ok (after_event (with_bus β σ') ev t).
Proof.
  intros Hb Hle Hev. unfold beat_ok in *. rewrite after_event_ticker. simpl.
  destruct (after_event_same (with_bus β σ') ev t) as (_ & _ & -> & _). simpl.
  destruct (bb_ticker β) as [tk|]; [destruct Hb as (Hp & Hn & Hb); split; [done|]; split; [done|]|];
    destruct ev; simpl in *; try done; destruct (bb_point β); try lia; try done; exfalso; destruct Hev as [H1 H2]; (by apply H1) || (by eapply H2).
Qed.

(** Neither a new beat nor the end of a sleep. *)
Lemma beat_moves β β' :
  beat_ok β -> bb_ticker β' = bb_ticker β -> bs_clock (bb_bus β') = bs_clock (bb_bus β) ->
  (bb_point β = PSubscribe -> bb_point β' = PSubscribe) ->
  (forall until, bb_point β <> PSleep until) -> (forall until, bb_point β' <> PSleep until) ->
  beat_ok β'.
Proof.
  unfold beat_ok. intros Hb -> -> Hsub Hne Hne'. destruct (bb_ticker β) as [t|]; [|auto].
  destruct Hb as (Hp & Hn & Hb). split; [done|]. split; [done|].
  destruct (bb_point β); try (by edestruct Hne); destruct (bb_point β'); try done; by edestruct Hne'.
Qed.

(** The benchmark's own steps: the bus at most gains a call. *)
Lemma quiet_on_time β β' :
  on_time β -> bb_bus β' = bb_bus β -> beat_ok β' -> bb_states β' = bb_states β -> on_time β'.
Proof. intros [Hc Hb Hk Hs] Hbus Hb' Hst. split; rewrite ?Hbus, ?Hst; done. Qed.

Lemma calling_on_time β β' cl :
  on_time β -> bs_clients (bb_bus β') = [cl] -> bs_clock (bb_bus β') = bs_clock (bb_bus β) ->
  reliable_timeout_ (bs_bus (bb_bus β')) = timeout ->
  call_ok timeout (bs_bus (bb_bus β')) (bs_clock (bb_bus β)) cl -> bb_ticker β' = bb_ticker β ->
  zlen (bb_states β') <= Z.max 0 (subscribers c) ->
  (bb_point β = PSubscribe -> bb_point β' = PSubscribe) ->
  (forall until, bb_point β <> PSleep until) -> (forall until, bb_point β' <> PSleep until) ->
  on_time β'.
Proof.
  intros [Hc Hb Hk Hs] Hcs Hck Ht Hcl Htk Hsts Hsub Hne Hne'. split; rewrite ?Hck; try done.
  - split; [done|]. rewrite Hcs, Hck. by constructor.
  - by apply (beat_moves β).
Qed.

Lemma sleep_beats β t t' missed :
  on_time β -> bb_point β = PTick -> bb_ticker β = Some t ->
  Time.sleep_until_next t (bs_clock (bb_bus β)) = Some (t', missed) ->
  Time.period_ t' = period /\ tp_min <= Time.next_ t' /\
  (if missed then Time.next_ t' <= bs_clock (bb_bus β)
   else Time.next_ t' <= bs_clock (bb_bus β) + period).
Proof.
  intros [_ Hb Hk _] Hpt Htk. unfold beat_ok in Hb. rewrite Hpt, Htk in Hb. destruct Hb as (Hp & Hn & Hb).
  destruct (bench_ticker c) as [Hper _]. unfold Time.sleep_until_next, tp_add.
  case_match; simpl; [|done]. case_match; intros; simplify_eq/=; lia.
Qed.

Lemma step_on_time tr β e β' :
  on_time β -> program_inv (cfg_count c) (bus_trace tr) β -> bus_wf (bs_bus (bb_bus β)) ->
  bench_bus_step c sample_type β e β' -> on_time β'.
Proof.
  intros Ho Hinv Hwf Hs. pose proof Ho as [Hc Hb0 Hk Hst].
  pose proof Hb0 as Hb. unfold beat_ok in Hb.
  destruct Hs as [β id σ' Hpt Hid Hlt b Hreg Hcl Hck|β t Hpt Hid Hle Htk|β h π' Hpt Hlt Hs|β π' Hpt Hlt Hs
    |β h ok π' Hpt Hs|β Hpt Hid message σ|β t t' Hpt Htk Ht|β t t' Hpt Htk Ht|β until Hpt Hle|β Hpt Hle|β limit w Hpt Hw
    |β limit r Hpt|β σ' Hpt Hid ->|β Hpt Hid|β ev σ' t Hs Hatt Hle|β k m b Hm Hr Hh π|β π' Hs Hh Hu];
    try rewrite Hpt in Hb;
    try (by apply (quiet_on_time β));
    try (apply (quiet_on_time β); try done; apply (beat_moves β); simpl; rewrite ?Hpt; done).
  - pose proof (subscribe_timeout b "bench" sample_type (bench_qos c)) as Ht. rewrite Hreg in Ht. simpl in Ht.
    pose proof (subscribe_spec _ _ _ _ _ _ _ Hreg) as (en & -> & _ & _ & _ & _ & Hheap).
    apply (calling_on_time β _ (CBacklog (length (heap b)) [])); simpl; rewrite ?Hpt; try done.
    + rewrite Ht. apply Hc.
    + split; [by constructor|]. rewrite Hheap. eexists.
      rewrite lookup_app_r, Nat.sub_diag by lia. split; [done|by left].
    + rewrite zlen_app. change (zlen [_]) with 1. lia.
  - apply (quiet_on_time β); try done. destruct (bench_ticker c) as [_ Heq]. rewrite Heq in Htk.
    simplify_eq. unfold beat_ok. simpl. split_and!; done || lia.
  - eapply (calling_on_time β); simpl; rewrite ?Hpt; try done; [apply Hc|split; [by constructor|done]].
  - destruct (sleep_beats β t t' true Ho Hpt Htk Ht) as (? & ? & ?). by apply (quiet_on_time β).
  - destruct (sleep_beats β t t' false Ho Hpt Htk Ht) as (? & ? & ?). by apply (quiet_on_time β).
  - apply (quiet_on_time β); try done. unfold beat_ok. simpl. destruct (bb_ticker β); [|done].
    destruct Hb as (? & ? & ?). split_and!; done || lia.
  - eapply (calling_on_time β); simpl; rewrite ?Hpt; try done; [apply Hc|split; [by constructor|done]].
  - destruct (pi_main _ _ _ Hinv) as (cl & Hcl & Hok & _).
    destruct (bus_step_move _ _ _ cl Hwf Hcl Hs Hatt) as (cl' & Hcl' & Hmv).
    pose proof (step_clock _ _ _ Hs) as Hck.
    destruct (after_event_same (with_bus β σ') ev (u64 t)) as (_ & _ & Eb & El).
    split; rewrite ?Eb, ?after_event_ticker; try done.
    + by apply (step_calls _ (bb_bus β) ev _ cl).
    + apply after_event_beat; [done|done|]. destruct ev; try done; destruct Hmv as [Hkd _];
        pose proof (publishing_point β cl Hok); (split; [|intros u]); intros He; rewrite He in *; intuition congruence.
    + simpl. lia.
    + unfold zlen in *. rewrite El. done.
Qed.

Lemma run_on_time tr β : bench_run tr β -> on_time β.
Proof.
  induction 1 as [|tr e β β' Hr IH Hs].
  - split; try done; simpl; [|unfold zlen; simpl; lia].
    split; [done|]. constructor; [|done]. by split; [constructor|].
  - eapply (step_on_time tr β e); [done|by eapply bench_run_inv| |done].
    destruct (bench_run_bus c sample_type now 0 tr β Hr) as [Hb _]. eapply run_bus_wf, serial_run, Hb.
Qed.
(** ** What the main thread waits for comes *)

Abbreviation bench_from := (run (H := bench_bus_lts c sample_type)).

(** An operation of the bus takes the program from [β] to [β']. *)
Definition carried (β β' : bench_bus) : Prop :=
  bb_i β' = bb_i β /\ length (bb_states β') = length (bb_states β) /\
  (bb_point β' = bb_point β \/ bb_point β = PPublishing /\ bb_point β' = PTick).

Lemma event_carried tr β ev σ' t :
  bench_run tr β -> step (bb_bus β) ev σ' -> ~ idle_main β ->
  exists cl', bs_clients σ' = [cl'] /\ carried β (after_event (with_bus β σ') ev t).
Proof.
  intros Hr Hs Hn. pose proof (bench_run_inv c sample_type now Hcount tr β Hr) as Hinv.
  destruct (pi_main _ _ _ Hinv) as (cl & Hcl & Hok & _).
  destruct (bench_run_bus c sample_type now 0 tr β Hr) as [Hb _].
  destruct (bus_step_move _ ev σ' cl (run_bus_wf _ _ _ _ (serial_run _ _ _ _ Hb)) Hcl Hs (or_introl Hn))
    as (cl' & Hcl' & Hmv).
  exists cl'. split; [done|]. destruct (after_event_same (with_bus β σ') ev t) as (_ & Hi & _ & Hl).
  split; [done|]. split; [done|].
  destruct ev; try (by left); right; destruct Hmv as [Hk _];
    (split; [eapply publishing_point; [exact Hok|auto]|done]).
Qed.

Lemma lift_bus tr0 β tr σ' :
  bench_run tr0 β -> ~ idle_main β -> run (bb_bus β) tr σ' ->
  exists tr' β', bench_from β tr' β' /\ carried β β' /\
    (idle_main β' /\ bs_clock (bb_bus β') <= bs_clock σ' \/ ~ idle_main β' /\ bb_bus β' = σ').
Proof.
  intros Hr0 Hn. induction 1 as [|tr ev σ σ' Hr (tr' & β' & Hr' & Hc & Hβ') Hs].
  - exists [], β. split; [constructor|]. split; [|by right]. split_and!; auto.
  - destruct Hβ' as [[Hid Hle]|[Hid <-]].
    + exists tr', β'. split; [done|]. split; [done|]. left. split; [done|].
      pose proof (step_clock _ _ _ Hs). lia.
    + destruct (event_carried (tr0 ++ tr') β' ev σ' (u64 (bs_clock (bb_bus β')))) as (cl' & Hcl' & Hc');
        [by eapply run_trans|done|done|].
      destruct (after_event_same (with_bus β' σ') ev (u64 (bs_clock (bb_bus β')))) as (_ & _ & Eb & _).
      exists (tr' ++ [BBus ev]), (after_event (with_bus β' σ') ev (u64 (bs_clock (bb_bus β')))).
      split; [|split].
      * eapply run_snoc; [exact Hr'|]. by apply bb_bus_step; [|left|].
      * destruct Hc as (Hi & Hl & Hp), Hc' as (Hi' & Hl' & Hp'). split_and!; [congruence..|].
        destruct Hp as [Hp|[Hp Hp2]], Hp' as [Hp'|[Hp' Hp2']]; try (left; congruence); try (right; split; congruence).
      * unfold idle_main. rewrite Eb. simpl. rewrite Hcl'.
        destruct cl'; [left; split; [done|lia]|right; split; done..].
Qed.

(** An operation that the bus can bring to its return, returns in the program. *)
Lemma bus_returns tr0 β tr b t :
  bench_run tr0 β -> ~ idle_main β -> run (bb_bus β) tr (mkState b [CIdle] t) ->
  exists tr' β', bench_run (tr0 ++ tr') β' /\ bench_from β tr' β' /\ carried β β' /\ idle_main β' /\
    bs_clock (bb_bus β') <= t.
Proof.
  intros Hr Hn Hb. destruct (lift_bus tr0 β tr _ Hr Hn Hb) as (tr' & β' & Hr' & Hc & [[Hid Hle]|[Hid Heq]]).
  - exists tr', β'. split; [by eapply run_trans|done].
  - destruct Hid. unfold idle_main. by rewrite Heq.
Qed.

Definition ends (β : bench_bus) : Prop := exists tr β', bench_from β tr β' /\ bb_point β' = PDone.

Lemma ends_run β tr β' : bench_from β tr β' -> ends β' -> ends β.
Proof. intros Hr (tr' & β2 & Hr' & Hd). exists (tr ++ tr'), β2. split; [by eapply run_trans|done]. Qed.

Lemma ends_step tr β e β' :
  bench_run tr β -> bench_bus_step c sample_type β e β' -> (forall tr', bench_run tr' β' -> ends β') -> ends β.
Proof.
  intros Hr Hs He. eapply ends_run; [by apply run_one|]. eapply He. econstructor; [exact Hr|exact Hs].
Qed.
Lemma bench_bus_run tr β : bench_run tr β -> run (bus_init 1 now) (bus_trace tr) (bb_bus β).
Proof. intros Hr. eapply serial_run. by apply (bench_run_bus c sample_type now 0 tr β). Qed.

(** The client, its kind known. *)
Lemma bench_client tr β :
  bench_run tr β -> exists cl, bb_bus β = mkState (bs_bus (bb_bus β)) [cl] (bs_clock (bb_bus β)) /\ main_ok β cl.
Proof.
  intros Hr. destruct (pi_main _ _ _ (bench_run_inv c sample_type now Hcount tr β Hr)) as (cl & Hcl & Hok & _).
  exists cl. split; [|done]. destruct (bb_bus β); simpl in *. by subst.
Qed.

Lemma not_idle β cl : bb_bus β = mkState (bs_bus (bb_bus β)) [cl] (bs_clock (bb_bus β)) -> kind_of cl <> KIdle -> ~ idle_main β.
Proof. unfold idle_main. intros -> Hk Hid. simpl in Hid. by simplify_eq. Qed.

(** *** After the loop *)

Lemma ends_stopped tr β : bench_run tr β -> bb_point β = PStopping -> idle_main β -> ends β.
Proof.
  intros Hr Hp Hid. eapply ends_run; [apply run_one; by apply bb_stopped|].
  exists [], (with_point β PDone). split; [constructor|done].
Qed.

Lemma ends_stopping tr β : bench_run tr β -> bb_point β = PStopping -> ends β.
Proof.
  intros Hr Hp. destruct (bench_client tr β Hr) as (cl & Hb & Hok). pose proof (bench_bus_run tr β Hr) as Hrun.
  assert (Hk : kind_of cl = KIdle \/ kind_of cl = KStopping) by (destruct Hok as [Hok _]; by rewrite Hp in Hok).
  destruct Hk as [Hk|Hk].
  - eapply ends_stopped; [done|done|]. unfold idle_main. rewrite Hb. by destruct cl.
  - rewrite Hb in Hrun.
    destruct (stopping_returns (bs_bus (bb_bus β)) [cl] (bs_clock (bb_bus β)) 0 cl eq_refl) as (tr1 & b' & Hr1 & _);
      [by destruct cl|exact (run_drained _ _ _ _ Hrun)|exact (client_at _ [cl] 0%nat cl (run_stop_inv _ _ _ _ Hrun) eq_refl)|].
    destruct (bus_returns tr β tr1 b' (bs_clock (bb_bus β)) Hr) as (tr2 & β' & Hr2 & Hf & (_ & _ & Hpt) & Hid & _).
    { eapply not_idle; [exact Hb|]. by rewrite Hk. }
    { rewrite Hb. exact Hr1. }
    eapply ends_run; [exact Hf|]. eapply ends_stopped; [done| |done].
    destruct Hpt as [->|[Hpt _]]; congruence.
Qed.

Lemma ends_shutdown tr β : bench_run tr β -> bb_point β = PShutdown -> ends β.
Proof.
  intros Hr Hp. eapply ends_step; [exact Hr| |].
  - eapply bb_shutdown; [done| |done]. eapply main_idle; [by eapply bench_run_inv|by rewrite Hp].
  - intros tr' Hr'. by eapply ends_stopping.
Qed.

(** Time passes. *)
Lemma time_passes tr β t :
  bench_run tr β -> bs_clock (bb_bus β) <= t ->
  let σ := bb_bus β in
  (forall tr', bench_run tr' (with_bus β (mkState (bs_bus σ) (bs_clients σ) t)) ->
     ends (with_bus β (mkState (bs_bus σ) (bs_clients σ) t))) -> ends β.
Proof.
  intros Hr Ht σ He. eapply ends_step; [exact Hr| |exact He].
  apply (bb_bus_step c sample_type β EvInternal (mkState (bs_bus σ) (bs_clients σ) t) (bs_clock σ)); [|by right|done].
  unfold σ. destruct (bb_bus β). by apply step_tick.
Qed.

Lemma ends_waited tr β limit w :
  bench_run tr β -> bb_point β = PDrain limit w -> (forall r, w <> WReturn r) ->
  (forall tr', bench_run tr' (with_point β (PDrain limit (wait_for_idle limit w (bs_bus (bb_bus β)) (bs_clock (bb_bus β))))) ->
     ends (with_point β (PDrain limit (wait_for_idle limit w (bs_bus (bb_bus β)) (bs_clock (bb_bus β)))))) ->
  ends β.
Proof. intros Hr Hp Hw. eapply ends_step; [exact Hr|by apply bb_waiting]. Qed.

Lemma ends_returned tr β limit r : bench_run tr β -> bb_point β = PDrain limit (WReturn r) -> ends β.
Proof.
  intros Hr Hp. eapply ends_step; [exact Hr|by eapply bb_drained|]. intros tr' Hr'. by eapply ends_shutdown.
Qed.

(** A busy queue: the limit passes. *)
Lemma ends_busy tr β limit : bench_run tr β -> bb_point β = PDrain limit WBusy -> ends β.
Proof.
  intros Hr Hp. apply (time_passes tr β (Z.max (bs_clock (bb_bus β)) limit)); [done|lia|]. intros tr1 Hr1.
  eapply (ends_waited _ _ limit WBusy); [done|done|done|]. intros tr2 Hr2.
  eapply ends_returned; [done|]. simpl. rewrite (proj2 (Z.leb_le _ _)) by lia. done.
Qed.

Lemma ends_scan limit ids : forall tr β, bench_run tr β -> bb_point β = PDrain limit (WScan ids) -> ends β.
Proof.
  induction ids as [|id ids IH]; intros tr β Hr Hp;
    (eapply ends_waited; [exact Hr|exact Hp|done|]); intros tr1 Hr1.
  - by eapply ends_returned.
  - destruct (queue_empty (bs_bus (bb_bus β)) id) eqn:He.
    + eapply IH; [exact Hr1|]. simpl. by rewrite He.
    + eapply ends_busy; [exact Hr1|]. simpl. by rewrite He.
Qed.

Lemma ends_drain tr β limit w : bench_run tr β -> bb_point β = PDrain limit w -> ends β.
Proof.
  intros Hr Hp. destruct w as [|ids| |r]; eauto using ends_scan, ends_busy, ends_returned.
  eapply ends_waited; [exact Hr|exact Hp|done|]. intros tr1 Hr1. by eapply ends_scan.
Qed.
(** *** The rounds *)

(** The time a round can take. *)
Definition round : Z := Z.max 0 (subscribers c) * timeout + period.

Definition left_over (β : bench_bus) : nat := Z.to_nat (cfg_count c - bb_i β).

(** From the head of the loop with [k] rounds to go, the program can end. *)
Definition loop_ends (k : nat) : Prop :=
  forall tr β, bench_run tr β -> bb_point β = PLoop -> left_over β = k ->
    bs_clock (bb_bus β) + Z.of_nat k * round < tp_max -> ends β.

Lemma round_time_nonneg : 0 <= round.
Proof. unfold round, timeout. destruct (bench_ticker c). nia. Qed.

Section one_round.
Variable k : nat.
Hypothesis Hloop : loop_ends k.

Lemma ends_sleep tr β u :
  bench_run tr β -> bb_point β = PSleep u -> left_over β = S k ->
  Z.max (bs_clock (bb_bus β)) u + Z.of_nat k * round < tp_max -> ends β.
Proof.
  intros Hr Hp Hk Ht. apply (time_passes tr β (Z.max (bs_clock (bb_bus β)) u)); [done|lia|]. intros tr1 Hr1.
  eapply ends_step; [exact Hr1|apply (bb_wake _ _ _ u); [done|simpl; lia]|]. intros tr2 Hr2.
  eapply Hloop; [exact Hr2|done|unfold left_over in *; simpl; lia|done].
Qed.

Lemma ends_tick tr β :
  bench_run tr β -> bb_point β = PTick -> left_over β = S k ->
  bs_clock (bb_bus β) + period + Z.of_nat k * round < tp_max -> ends β.
Proof.
  intros Hr Hp Hk Ht. pose proof (run_on_time tr β Hr) as Ho. pose proof Ho as [_ Hb _ _].
  unfold beat_ok in Hb. rewrite Hp in Hb. destruct (bb_ticker β) as [t|] eqn:Htk; [|done].
  destruct Hb as (Hper & Hn & Hb). pose proof round_time_nonneg. destruct (bench_ticker c) as [Hpos _].
  destruct (Time.sleep_until_next t (bs_clock (bb_bus β))) as [[t' missed]|] eqn:Hs.
  - destruct (sleep_beats β t t' missed Ho Hp Htk Hs) as (Hp' & Hn' & Hb'). destruct missed.
    + eapply ends_step; [exact Hr|by eapply bb_missed_tick|]. intros tr1 Hr1.
      eapply Hloop; [exact Hr1|done|unfold left_over in *; simpl; lia|simpl; lia].
    + eapply ends_step; [exact Hr|by eapply bb_sleep|]. intros tr1 Hr1.
      eapply ends_sleep; [exact Hr1|done|done|simpl; lia].
  - exfalso. unfold Time.sleep_until_next, tp_add in Hs.
    rewrite Hper, (proj2 (andb_true_iff _ _)) in Hs by nia. simpl in Hs. by case_match.
Qed.

(** The targets of the publish in progress are among the subscriptions. *)
Lemma targets_bound tr β cl :
  bench_run tr β -> bs_clients (bb_bus β) = [cl] ->
  Forall (fun id => (id < length (heap (bs_bus (bb_bus β))))%nat) (client_ids cl) /\
  zlen (client_ids cl) <= Z.max 0 (subscribers c).
Proof.
  intros Hr Hcl. pose proof (run_refs _ _ _ _ (bench_bus_run tr β Hr)) as Hf. unfold refs_inv in Hf.
  rewrite Hcl in Hf. apply Forall_cons in Hf as [Hf _]. split; [done|].
  destruct (run_on_time tr β Hr) as [[_ Hc] _ _ Hs]. rewrite Hcl in Hc. apply Forall_cons in Hc as [[Hnd _] _].
  pose proof (pi_heap _ _ _ (bench_run_inv c sample_type now Hcount tr β Hr)) as Hh.
  assert (Hsub : client_ids cl ⊆+ List.seq 0 (length (heap (bs_bus (bb_bus β))))).
  { apply NoDup_submseteq; [done|]. intros id Hin. rewrite Forall_forall in Hf.
    apply elem_of_seq. specialize (Hf id Hin). lia. }
  apply submseteq_length in Hsub. rewrite length_seq in Hsub. unfold zlen in *. lia.
Qed.

Lemma ends_targets tr β cl :
  bench_run tr β -> bb_point β = PPublishing -> bs_clients (bb_bus β) = [cl] -> kind_of cl = KPublishing ->
  left_over β = S k -> bs_clock (bb_bus β) + (Z.of_nat k + 1) * round < tp_max -> ends β.
Proof.
  intros Hr Hp Hcl Hkind Hk Ht. destruct (targets_bound tr β cl Hr Hcl) as [Hf Hlen].
  destruct (run_on_time tr β Hr) as [[HT Hc] _ Hck _]. rewrite Hcl in Hc. apply Forall_cons in Hc as [[_ Hc] _].
  pose proof (bench_bus_run tr β Hr) as Hrun. pose proof (run_bus_wf _ _ _ _ Hrun) as Hwf.
  assert (exists e, carries cl = Some e) as [e He] by (destruct cl; simpl; eauto; done).
  assert (Hcost : 0 <= zlen (client_ids cl) * timeout <= Z.max 0 (subscribers c) * timeout).
  { pose proof (zlen_nonneg (client_ids cl)). unfold timeout. nia. }
  assert (Hround : (Z.of_nat k + 1) * round = Z.max 0 (subscribers c) * timeout + period + Z.of_nat k * round)
    by (unfold round; lia).
  pose proof round_time_nonneg. destruct (bench_ticker c) as [Hpos _].
  destruct (publishing_returns (bs_bus (bb_bus β)) [cl] (bs_clock (bb_bus β)) 0 cl e)
    as (tr1 & b' & now' & acc & Hr1 & _ & Hn); rewrite ?HT; try done; try lia; try nia.
  { intros e' id targets acc d ->. exact Hc. }
  { unfold timeout. lia. }
  destruct (bus_returns tr β (tr1 ++ [EvPublished e acc]) b' now' Hr) as (tr2 & β' & Hr2 & Hfrom & (Hi & _ & Hpt) & Hid & Hle).
  { unfold idle_main. rewrite Hcl. intros Heq. by simplify_eq. }
  { destruct (bb_bus β); simpl in *; subst. exact Hr1. }
  rewrite HT in Hn. eapply ends_run; [exact Hfrom|]. eapply ends_tick; [exact Hr2| | |].
  - destruct Hpt as [Hpt|[_ Hpt]]; [|done]. exfalso.
    destruct (bench_client _ _ Hr2) as (cl' & Hb' & [Hok _]). unfold idle_main in Hid. rewrite Hb' in Hid. simplify_eq/=.
    rewrite Hpt, Hp in Hok. by destruct Hok.
  - unfold left_over in *. by rewrite Hi.
  - nia.
Qed.
Lemma ends_publishing tr β :
  bench_run tr β -> bb_point β = PPublishing -> left_over β = S k ->
  bs_clock (bb_bus β) + (Z.of_nat k + 1) * round < tp_max -> ends β.
Proof.
  intros Hr Hp Hk Ht. destruct (bench_client tr β Hr) as (cl & Hb & Hok).
  assert (Hcl : bs_clients (bb_bus β) = [cl]) by by rewrite Hb.
  assert (Hkind : kind_of cl = KStamped \/ kind_of cl = KPublishing)
    by (destruct Hok as [Hok _]; by rewrite Hp in Hok).
  destruct Hkind as [Hkind|Hkind]; [|by eapply ends_targets]. destruct cl as [|p m t| | | | | |]; try done.
  pose proof (run_complete c sample_type now Hcount tr β Hr) as [Hph _ Hst _].
  rewrite Hp in Hph. rewrite (Hst _ _ _ Hcl) in *. destruct Hph as [(en & Hen & Hty & _) _].
  destruct (publish_select (bs_bus (bb_bus β)) "bench" sample_type (bench_qos c) m t) as [b' sel] eqn:Hsel.
  assert (exists e targets ms h, sel = Selected e targets ms h) as (e & targets & ms & h & ->).
  { unfold publish_select in Hsel. rewrite Hen, Hty, Z.eqb_refl in Hsel. simpl in Hsel. simplify_eq. eauto. }
  eapply ends_step; [exact Hr|eapply (bb_bus_step _ _ β (EvSelect (bench_publisher c sample_type) e targets)
    (mkState b' [CNotify "bench" ms h e targets] (bs_clock (bb_bus β))) (bs_clock (bb_bus β)))|].
  - rewrite Hb. by eapply (step_select _ [_] _ 0).
  - left. eapply not_idle; [exact Hb|done].
  - done.
  - intros tr1 Hr1. by eapply ends_targets.
Qed.

Lemma ends_made tr β :
  bench_run tr β -> bb_point β = PMade -> left_over β = S k ->
  bs_clock (bb_bus β) + (Z.of_nat k + 1) * round < tp_max -> ends β.
Proof.
  intros Hr Hp Hk Ht. destruct (bench_client tr β Hr) as (cl & Hb & [Hok _]). rewrite Hp in Hok. subst cl.
  eapply ends_step; [exact Hr|apply bb_publish; [done|unfold idle_main; by rewrite Hb]|].
  intros tr1 Hr1. by eapply ends_publishing.
Qed.

(** The handle in hand is its user's alone, and its buffer exists. *)
Lemma ends_have tr β h :
  bench_run tr β -> bb_point β = PHave h -> left_over β = S k ->
  bs_clock (bb_bus β) + (Z.of_nat k + 1) * round < tp_max -> ends β.
Proof.
  intros Hr Hp Hk Ht. destruct (bench_run_buffers c sample_type now Hcount tr β Hr) as [_ _ Hc _ Hh Hrefs].
  rewrite Hp in Hc. specialize (Hh h Hp).
  destruct (lookup_lt_is_Some_2 (BufferPool.ps_handles (bb_pool β)) h) as [[b n] Hb]; [lia|].
  assert (n = 1%nat) as -> by (destruct (Hrefs h _ Hb) as [Hn|(_ & Hn & _)]; [done|lia]).
  destruct (BufferPool.places_exact _ _ _ _ (proj1 (fits_wrap 64 (payload_bytes c) ltac:(lia)))
    (proj1 (fits_wrap 64 (pool_size c) ltac:(lia))) (bench_run_pool c sample_type now tr β Hr)) as (_ & Hal & _).
  assert (Ha : BufferPool.allocated (BufferPool.ps_buffers (bb_pool β)) b = true).
  { apply Hal. unfold BufferPool.places. rewrite !elem_of_app. right; left. apply list_elem_of_bind.
    eexists. split; [|by eapply list_elem_of_lookup_2]. apply list_elem_of_here. }
  unfold BufferPool.allocated in Ha.
  destruct (BufferPool.ps_buffers (bb_pool β) !! b) as [[x|]|] eqn:Hx; try done.
  destruct (BufferPool.resize x (u64 (payload_bytes c))) as [x' ok] eqn:Hrs.
  eapply ends_step; [exact Hr|eapply bb_make; [exact Hp|by eapply BufferPool.step_resize]|].
  intros tr1 Hr1. by eapply ends_made.
Qed.
End one_round.

Lemma loop_ends_all k : loop_ends k.
Proof.
  induction k as [|k IH]; intros tr β Hr Hp Hk Ht; unfold left_over in Hk.
  - eapply ends_step; [exact Hr|apply bb_published_all; [done|lia]|]. intros tr1 Hr1. by eapply ends_drain.
  - pose proof (bench_run_buffers c sample_type now Hcount tr β Hr) as [Hu (p & Hpool & _) _ _ _ _].
    pose proof (BufferPool.step_acquire (bb_pool β) p Hpool ltac:(lia)) as Hacq.
    destruct (BufferPool.acquire (bb_pool β) p) as [π' [h|]]; simpl in Hacq.
    + eapply ends_step; [exact Hr|apply bb_acquired; [done|lia|exact Hacq]|]. intros tr1 Hr1.
      eapply ends_have; [exact IH|exact Hr1|done|done|]. simpl. lia.
    + eapply ends_step; [exact Hr|apply bb_exhausted; [done|lia|exact Hacq]|]. intros tr1 Hr1.
      eapply ends_tick; [exact IH|exact Hr1|done|done|]. simpl. unfold round in *. unfold timeout in *. nia.
Qed.
(** *** Subscribing *)

Lemma backlog_all_pushed bl : forall b id t,
  (exists s, heap b !! id = Some s /\ not_joinable (sub_worker s)) ->
  exists tr b', run (mkState b [CBacklog id bl] t) tr (mkState b' [CIdle] t).
Proof.
  induction bl as [|e bl IH]; intros b id t (s & Hs & Hj).
  - do 2 eexists. apply run_one. by eapply (step_start b [_] t 0).
  - destruct (IH (queue_section b id s (backlog_push s e)) id t) as (tr & b' & Hr).
    { eexists. split; [by apply section_heap|done]. }
    do 2 eexists. eapply run_cons; [|exact Hr]. by eapply (step_backlog b [_] t 0).
Qed.

(** From the head of the loop that subscribes, with [n] subscribers to go. *)
Definition subscribe_ends (n : nat) : Prop :=
  forall tr β, bench_run tr β -> bb_point β = PSubscribe -> idle_main β ->
    Z.to_nat (subscribers c - zlen (bb_states β)) = n ->
    bs_clock (bb_bus β) + Z.of_nat (left_over β) * round < tp_max -> ends β.

Lemma ends_subscribing n tr β :
  subscribe_ends n -> bench_run tr β -> bb_point β = PSubscribe -> ~ idle_main β ->
  Z.to_nat (subscribers c - zlen (bb_states β)) = n ->
  bs_clock (bb_bus β) + Z.of_nat (left_over β) * round < tp_max -> ends β.
Proof.
  intros Hsub Hr Hp Hni Hn Ht. destruct (bench_client tr β Hr) as (cl & Hb & [Hok _]). rewrite Hp in Hok.
  destruct (run_on_time tr β Hr) as [[_ Hc] _ _ _ _]. rewrite Hb in Hc. apply Forall_cons in Hc as [[_ Hc] _].
  destruct cl as [| | | | |id bl| |]; try (by destruct Hok); [by destruct Hni; unfold idle_main; rewrite Hb|].
  destruct (backlog_all_pushed bl (bs_bus (bb_bus β)) id (bs_clock (bb_bus β)) Hc) as (tr1 & b' & Hr1).
  destruct (bus_returns tr β tr1 b' (bs_clock (bb_bus β)) Hr Hni) as (tr2 & β' & Hr2 & Hf & (Hi & Hl & Hpt) & Hid & Hle);
    [rewrite Hb; exact Hr1|].
  eapply ends_run; [exact Hf|]. eapply Hsub; [exact Hr2| |done| |].
  - destruct Hpt as [->|[Hpt _]]; congruence.
  - unfold zlen in *. by rewrite Hl.
  - unfold left_over in *. rewrite Hi. lia.
Qed.

Lemma subscribe_ends_all n : subscribe_ends n.
Proof.
  induction n as [|n IH]; intros tr β Hr Hp Hid Hn Ht.
  - eapply ends_step; [exact Hr|eapply bb_subscribed; [done|done|lia|apply bench_ticker]|]. intros tr1 Hr1.
    by eapply loop_ends_all.
  - pose proof (run_complete c sample_type now Hcount tr β Hr) as [Hph _ _ _].
    rewrite Hp in Hph. destruct Hph as [(en & Hen & Hty & _) _].
    destruct (subscribe_register (bs_bus (bb_bus β)) "bench" sample_type (bench_qos c)) as [b' r] eqn:Hreg.
    assert (exists id, r = Some (id, [])) as [id ->].
    { unfold subscribe_register, ensure_topic in Hreg. rewrite Hen in Hreg. simpl in Hreg.
      rewrite Hty, Z.eqb_refl in Hreg. simpl in Hreg. simplify_eq. eauto. }
    eapply ends_step; [exact Hr| |].
    + apply (bb_subscribe _ _ β id (mkState b' [CBacklog id []] (bs_clock (bb_bus β)))); try done. lia.
    + intros tr1 Hr1. eapply ends_subscribing; [exact IH|exact Hr1|done|done| |done].
      simpl. rewrite zlen_app. change (zlen [_]) with 1. lia.
Qed.

(** From any point. *)
Lemma ends_anywhere tr β :
  bench_run tr β -> bs_clock (bb_bus β) + Z.max 0 (cfg_count c - bb_i β) * round < tp_max -> ends β.
Proof.
  intros Hr Ht. pose proof (ac_round _ _ _ (pi_account _ _ _ (bench_run_inv c sample_type now Hcount tr β Hr))) as Hrd.
  pose proof round_time_nonneg. unfold round_ok in Hrd.
  assert (Hleft : Z.max 0 (cfg_count c - bb_i β) = Z.of_nat (left_over β)) by (unfold left_over; lia).
  rewrite Hleft in Ht.
  assert (Hin : bb_i β < cfg_count c -> exists k, left_over β = S k /\ bs_clock (bb_bus β) + (Z.of_nat k + 1) * round < tp_max).
  { intros Hlt. exists (pred (left_over β)). split; [unfold left_over; lia|].
    replace (Z.of_nat (pred (left_over β)) + 1) with (Z.of_nat (left_over β)) by (unfold left_over in *; lia). done. }
  pose proof loop_ends_all as Hall.
  destruct (bb_point β) eqn:Hp; try (destruct (Hin Hrd) as (k & Hk & Hk')).
  - destruct (bench_client tr β Hr) as (cl & Hb & Hok).
    destruct cl; try (by eapply ends_subscribing; [apply subscribe_ends_all|exact Hr|exact Hp| |reflexivity|exact Ht];
      eapply not_idle; [exact Hb|]).
    eapply subscribe_ends_all; [exact Hr|done| |done|done]. unfold idle_main. by rewrite Hb.
  - by eapply Hall.
  - by eapply ends_have.
  - by eapply ends_made.
  - by eapply ends_publishing.
  - eapply ends_tick; [done|exact Hr|done|done|]. unfold round in *. unfold timeout in *. nia.
  - eapply ends_sleep; [done|exact Hr|done|done|].
    destruct (run_on_time tr β Hr) as [_ Hb _ _]. unfold beat_ok in Hb. rewrite Hp in Hb.
    destruct (bb_ticker β) as [t|]; [|done]. destruct Hb as (_ & _ & Hb). unfold round in *. unfold timeout in *. nia.
  - by eapply ends_drain.
  - by eapply ends_shutdown.
  - by eapply ends_stopping.
  - exists [], β. split; [constructor|done].
Qed.
End ending.
