(* ===== verification/BenchTheorems.v ===== *)
(** * BenchTheorems

    The properties of the end-to-end benchmark of [BenchBus]: what its statistics
    mean, and that its messages and buffers are used safely. *)

From stdpp Require Import strings sorting.
From S2P Require Import Prelude Lts Doubles BoundedQueue Qos TopicBus BusSystem BusFlow BenchBus.
From S2P Require Import BusSerial BenchOrder BenchBuffers BenchScheduler BenchComplete BenchEnd.
From S2P Require BufferPool Histogram Time Args.
Open Scope Z_scope.

Section properties.
Variables (c : config) (sample_type : Z) (now : Z).
Hypothesis Hcount : cfg_count c < 2 ^ 63.

Abbreviation bench_run :=
  (run (H := bench_bus_lts c sample_type) (bench_init c sample_type now)).

(** C12: the benchmark measures what it says: for every subscriber, whatever the
    interleaving, drops and expiries, no message arrives out of order, and the
    messages received, the samples of the latency histogram and the callbacks
    are the same number. *)
Theorem bench_bus_in_order (tr : list bench_bus_event) (β : bench_bus) (id : nat) (st : SubscriberState) :
  bench_run tr β -> bb_states β !! id = Some st ->
  out_of_order st = 0 /\
  received st = u64 (zlen (callbacks id (bus_trace tr))) /\
  Histogram.count_ (latency st) = received st.
Proof.
  intros Hr Hst. destruct (bench_run_inv c sample_type now Hcount tr β Hr) as [_ _ _ _ _ _ Hs _].
  destruct (Hs id st Hst) as [Hrec Hc Ho _]. split; [done|]. split; [done|congruence].
Qed.

(** When the program ends, each of the [count] rounds has either made one
    message or found the pool empty; what it reports as failed are the calls of
    publish that returned false, and what it reports as pool exhaustion is what
    the pool itself has counted. *)
Theorem bench_bus_accounting (tr : list bench_bus_event) (β : bench_bus) :
  bench_run tr β -> bb_point β = PDone ->
  Z.max 0 (cfg_count c) = zlen (bb_samples β) + bb_empty β /\
  bb_failed β = u64 (Z.of_nat (countb publish_failed (bus_trace tr))) /\
  exists p, BufferPool.ps_pool (bb_pool β) = Some p /\ BufferPool.exhausted_count p = bb_empty β.
Proof.
  intros Hr Hd. destruct (bench_run_inv c sample_type now Hcount tr β Hr) as [[Hrd Hb Hm He Hf] _ _ _ _ _ _ _].
  destruct (bench_run_buffers c sample_type now Hcount tr β Hr) as [_ Hp _ _ _ _].
  unfold round_ok, next_seq in *. rewrite Hd in *. split; [lia|done].
Qed.

(** C13: no buffer is reused under a message that somebody can still read: as long
    as a message is in a queue, retained, with a worker or with the publisher, its
    buffer exists, is not in the pool's free list, and belongs to no other message
    whose buffer is out. *)
Theorem bench_bus_buffers_safe (tr : list bench_bus_event) (β : bench_bus) (k : nat) (m : Sample) :
  bench_run tr β -> bb_samples β !! k = Some m -> reachable β k ->
  exists b p,
    BufferPool.ps_handles (bb_pool β) !! sample_payload m = Some (BufferPool.mkHandle b 1) /\
    BufferPool.ps_pool (bb_pool β) = Some p /\ (b ∉ BufferPool.free_ p) /\
    BufferPool.allocated (BufferPool.ps_buffers (bb_pool β)) b = true /\
    forall k' m' hd, k' <> k -> bb_samples β !! k' = Some m' ->
      BufferPool.ps_handles (bb_pool β) !! sample_payload m' = Some hd ->
      (0 < BufferPool.h_refs hd)%nat -> BufferPool.h_buffer hd <> b.
Proof.
  intros Hr Hk Hre. destruct (bench_run_buffers c sample_type now Hcount tr β Hr) as [_ (p & Hp & _) Hc Hpl _ Hrefs].
  destruct (BufferPool.places_exact _ _ _ _ (proj1 (fits_wrap 64 (payload_bytes c) ltac:(lia)))
    (proj1 (fits_wrap 64 (pool_size c) ltac:(lia))) (bench_run_pool c sample_type now tr β Hr)) as (Hnd & Hal & _).
  pose proof (lookup_lt_Some _ _ _ Hk) as Hlt.
  destruct (lookup_lt_is_Some_2 (BufferPool.ps_handles (bb_pool β)) k) as [[b n] Hh]; [lia|].
  destruct (Hrefs k _ Hh) as [Hn|(_ & _ & Hn)]; [|by destruct Hn]. simpl in Hn. subst n.
  exists b, p. rewrite (Hpl k m Hk). unfold BufferPool.places in *. rewrite Hp in *. simpl in Hnd, Hal.
  assert (Hin : b ∈ BufferPool.ps_handles (bb_pool β) ≫= BufferPool.held_by).
  { apply list_elem_of_bind. eexists. split; [|by eapply list_elem_of_lookup_2]. apply list_elem_of_here. }
  apply NoDup_app in Hnd as (_ & Hno & Hnd). apply NoDup_app in Hnd as (Hnd & _ & _).
  split_and!; [done|done| | |].
  - intros Hfree. apply (Hno b Hfree). rewrite elem_of_app. by left.
  - apply Hal. rewrite !elem_of_app. auto.
  - intros k' m' [b' n] Hne Hk' Hh' Hpos He. simpl in *. subst b'. rewrite (Hpl k' m' Hk') in Hh'.
    eapply (bind_disjoint _ _ k k' _ _ b Hnd Hh Hh'); [done|apply list_elem_of_here|].
    unfold BufferPool.held_by. simpl. destruct n; [lia|]. apply list_elem_of_here.
Qed.
(** C14: nothing is unaccounted for at the end: when the program returns, every
    worker of the bus has been joined with its queue empty, and at every
    subscriber each of the messages made, and no other, has come to exactly one
    end: refused, evicted, expired, or called back. *)
Theorem bench_bus_complete (tr : list bench_bus_event) (β : bench_bus) (id : nat) (s : Subscription) :
  bench_run tr β -> bb_point β = PDone -> heap (bs_bus (bb_bus β)) !! id = Some s ->
  sub_worker s = WJoined /\ items_ (sub_queue s) = [] /\
  payload <$> finished id (bus_trace tr) ≡ₚ seqZ 0 (zlen (bb_samples β)).
Proof.
  intros Hr Hd Hs. pose proof (run_complete c sample_type now Hcount tr β Hr) as [Hph _ _ Hdest].
  destruct (bench_run_bus c sample_type now 0 tr β Hr) as [Hb _]. apply serial_run in Hb.
  assert (Hid : idle_main β).
  { eapply main_idle; [by eapply bench_run_inv|by rewrite Hd]. }
  rewrite Hd in Hph. simpl in Hph. specialize (Hdest id).
  rewrite idle_handed, decide_True in Hdest by (done || (by rewrite Hd) || by eapply lookup_lt_Some).
  unfold idle_main in Hid. destruct (bb_bus β) as [b cs t]; cbn [bs_bus bs_clients] in *; subst cs.
  destruct (closed_down_joined now _ _ _ id s Hb Hph Hs) as [Hw Hi]. split; [done|]. split; [done|].
  rewrite <-Hdest. apply fmap_Permutation. eapply idle_finished; [exact Hb|exact Hs|].
  unfold in_sub. by rewrite Hi, Hw.
Qed.
End properties.

(** ** Witnesses

    Two rounds with one buffer: the first message is delivered and its buffer comes
    back while the second round finds the pool empty. *)

Definition small : config := mkConfig 1000000000 2 1 16 4 1 0 50 false.

Definition first_round : list bench_command :=
  [XMain; XNext; XMain; XMain; XMain; XMain; XNext; XNext; XNext].
Definition both_rounds : list bench_command :=
  first_round ++ [XNext; XTick 1; XMain; XMain; XWork 0; XWork 0; XMain; XTick 1].

Definition run_small (cmds : list bench_command) : option (list bench_bus_event * bench_bus) :=
  exec (H0 := bench_scheduler small 7) (bench_init small 7 5) cmds.

Definition whole_run : list bench_command :=
  both_rounds ++ [XMain; XWork 0; XRelease 0; XDelete 0; XDelete 0; XDelete 0; XMain; XMain; XMain; XMain; XMain; XMain;
                  XNext; XWork 0; XNext; XNext; XMain].

Ltac ran_small cmds :=
  apply (exec_sound (H0 := bench_scheduler small 7) _ cmds); vm_compute; reflexivity.

Lemma bench_bus_in_order_witness :
  exists tr β st, run_small both_rounds = Some (tr, β) /\ bb_states β !! 0%nat = Some st /\
    out_of_order st = 0 /\ received st = 1.
Proof.
  do 3 eexists. split; [vm_compute; reflexivity|]. split; [vm_compute; reflexivity|].
  edestruct bench_bus_in_order with (c := small) (sample_type := 7)
    (now := 5) (id := 0%nat) as (Ho & _ & _); [reflexivity|ran_small both_rounds|vm_compute; reflexivity|].
  split; [exact Ho|vm_compute; reflexivity].
Defined.

Lemma bench_bus_accounting_witness :
  exists tr β, run_small whole_run = Some (tr, β) /\
    zlen (bb_samples β) = 1 /\ bb_empty β = 1 /\
    Z.max 0 (cfg_count small) = zlen (bb_samples β) + bb_empty β /\
    exists p, BufferPool.ps_pool (bb_pool β) = Some p /\ BufferPool.exhausted_count p = bb_empty β.
Proof.
  do 2 eexists. split; [vm_compute; reflexivity|]. split; [vm_compute; reflexivity|].
  split; [vm_compute; reflexivity|].
  edestruct (bench_bus_accounting small 7 5) as (Hc & _ & Hp);
    [reflexivity|ran_small whole_run|vm_compute; reflexivity|].
  split; [exact Hc|exact Hp].
Defined.

Lemma bench_bus_complete_witness :
  exists tr β s, run_small whole_run = Some (tr, β) /\ heap (bs_bus (bb_bus β)) !! 0%nat = Some s /\
    sub_worker s = WJoined /\ payload <$> finished 0 (bus_trace tr) ≡ₚ [0].
Proof.
  do 3 eexists. split; [vm_compute; reflexivity|]. split; [vm_compute; reflexivity|].
  edestruct (bench_bus_complete small 7 5) with (id := 0%nat) as (Hw & _ & Hf);
    [reflexivity|ran_small whole_run|vm_compute; reflexivity|vm_compute; reflexivity|].
  split; [exact Hw|exact Hf].
Defined.


(** The callback still holds message 0: its buffer is not in the pool. *)
Lemma bench_bus_buffers_safe_witness :
  exists tr β m, run_small both_rounds = Some (tr, β) /\ bb_samples β !! 0%nat = Some m /\
    exists b p, BufferPool.ps_handles (bb_pool β) !! sample_payload m = Some (BufferPool.mkHandle b 1) /\
      BufferPool.ps_pool (bb_pool β) = Some p /\ (b ∉ BufferPool.free_ p).
Proof.
  do 3 eexists. split; [vm_compute; reflexivity|]. split; [vm_compute; reflexivity|].
  edestruct bench_bus_buffers_safe with (c := small) (sample_type := 7)
    (now := 5) (k := 0%nat) as (b & p & Hh & Hp & Hb & _); [reflexivity|ran_small both_rounds|vm_compute; reflexivity| |].
  - right; left. vm_compute. apply list_elem_of_here.
  - exists b, p. split; [exact Hh|]. split; [exact Hp|exact Hb].
Defined.
