(* ===== verification/Reports.v ===== *)
(** * Reports

    What the two benchmarks print (code/bench/bench_queue_throughput.cpp and
    code/bench/bench_bus_latency.cpp), from the values they hold when they do. *)

From stdpp Require Import strings.
From Stdlib Require Import Strings.Ascii.
From S2P Require Import Prelude Doubles Decimal Format Qos TopicBus BenchQueue BenchBus.
From S2P Require Args BufferPool Summary.
Open Scope Z_scope.

Definition is_positive (d : double) : bool := SFltb (S754_zero false) d.

Section nan.
(** How the C library spells NaN. *)
Variable nan_text : string.

(** ** The queue benchmark *)

Record queue_config := mkQueueConfig { q_count : Z; q_capacity : Z; q_producers : Z }.

Definition read_queue_config (argv : list string) : option queue_config :=
  count ← Args.arg_int argv "--count" 2000000;
  capacity ← Args.arg_int argv "--capacity" 1024;
  producers ← Args.arg_int argv "--producers" 4;
  Some (mkQueueConfig count capacity producers).

Definition report (name : string) (r : Result) : string :=
  (pad_right 28 name ++ " consumed=" ++ pad_right 10 (dec_unsigned (consumed r)) ++ " " ++
   pad_left " "%char 8 (fixed nan_text 3 (seconds r)) ++ " s  " ++
   pad_left " "%char 10 (fixed nan_text 2 (double_div (msgs_per_sec r) (to_double 1000000))) ++
   " M msg/s" ++ newline)%string.

(** All that [main] prints, given the results of its three runs. *)
Definition queue_output (c : queue_config) (one many ring : Result) : string :=
  ("config: count=" ++ dec_signed (q_count c) ++ " capacity=" ++ dec_signed (q_capacity c) ++
   " producers=" ++ dec_signed (q_producers c) ++ newline ++
   "note: numbers are only meaningful with -O2 and no sanitizer" ++ newline ++ newline ++
   report "BoundedQueue 1P1C" one ++ report "BoundedQueue NP1C" many ++
   report "SpscRing 1P1C" ring)%string.

(** ** The bus benchmark *)

Definition config_line (c : config) : string :=
  ("config: rate=" ++ dec_signed (rate_hz c) ++ "Hz count=" ++ dec_signed (cfg_count c) ++
   " subs=" ++ dec_signed (subscribers c) ++ " payload=" ++ dec_signed (payload_bytes c) ++
   "B depth=" ++ dec_signed (cfg_depth c) ++
   " reliability=" ++ reliability_to_string (reliability (bench_qos c)) ++
   " slow_ms=" ++ dec_signed (slow_ms c) ++ newline)%string.

(** The warning about a slow subscriber, when there is one. *)
Definition slow_warning (c : config) : string :=
  if (0 <? slow_ms c) && negb (best_effort c) then
    ("warning: Reliable + 慢订阅者 会把发布速率拉到约 " ++
     fixed nan_text 1 (double_div (to_double 1000) (to_double (reliable_timeout_ms c))) ++
     " msg/s，先用小的 --count 观察背压，再加 --best-effort 对比隔离。" ++ newline)%string
  else EmptyString.

(** [seconds] of the bus benchmark, between its two clock readings. *)
Definition publish_seconds (start publish_done : Z) : double :=
  double_div (to_double (publish_done -u start)) (to_double 1000000000).

Definition publish_line (count failed empty : Z) (seconds : double) : string :=
  ("publish: sent=" ++ dec_signed count ++ " failed=" ++ dec_unsigned failed ++
   " pool_empty=" ++ dec_unsigned empty ++ " elapsed=" ++ fixed nan_text 3 seconds ++
   "s rate=" ++
   fixed nan_text 0 (double_div (to_double count) (if is_positive seconds then seconds else to_double 1)) ++
   " msg/s" ++ newline)%string.

Definition missed_percent (missed count : Z) : double :=
  double_div (double_mul (to_double 100) (to_double missed))
    (to_double (if 0 <? count then count else 1)).

Definition ticker_line (missed count : Z) : string :=
  ("ticker: missed_ticks=" ++ dec_unsigned missed ++ " (" ++
   fixed nan_text 2 (missed_percent missed count) ++ "% of " ++ dec_signed count ++ ")" ++ newline)%string.

Definition pool_line (p : BufferPool.BufferPool) : string :=
  ("pool: exhausted=" ++ dec_unsigned (BufferPool.exhausted_count p) ++
   " in_use=" ++ dec_unsigned (BufferPool.in_use p) ++ newline)%string.

Definition subscriber_lines (i : nat) (s : SubscriberStats) (st : SubscriberState) : string :=
  let head := ("sub[" ++ dec_unsigned (Z.of_nat i) ++ "]: ")%string in
  (head ++ "recv=" ++ dec_unsigned (st_delivered s) ++ " dropped=" ++ dec_unsigned (st_dropped s) ++
   " expired=" ++ dec_unsigned (st_expired s) ++ " hwm=" ++ dec_unsigned (st_queue_high_water s) ++
   " out_of_order=" ++ dec_unsigned (out_of_order st) ++ newline ++
   head ++ "latency " ++ Summary.summary nan_text (latency st) "us" (to_double 1000) ++ newline)%string.

(** All that [main] prints once the bus is shut down; [handles] are what the
    subscriptions report. *)
Definition bus_report (c : config) (β : bench_bus) (p : BufferPool.BufferPool)
    (handles : list (option Subscription)) (start publish_done : Z) : string :=
  (publish_line (cfg_count c) (bb_failed β) (bb_empty β) (publish_seconds start publish_done) ++
   ticker_line (bb_missed β) (cfg_count c) ++ pool_line p ++
   String.concat EmptyString
     (imap (fun i r => subscriber_lines i (stats r.1) r.2) (zip handles (bb_states β))))%string.

End nan.

Example report_padded :
  report "nan" "SpscRing 1P1C" (make_result 0 1500000000 3000000) =
    ("SpscRing 1P1C                consumed=3000000       1.500 s        2.00 M msg/s" ++ newline)%string.
Proof. vm_compute. reflexivity. Qed.

Example warning_only_when_slow :
  slow_warning "nan" (mkConfig 1000 10 1 1024 64 256 0 50 false) = EmptyString.
Proof. vm_compute. reflexivity. Qed.

(** A run without any elapsed time is given a rate per second, not a division by zero. *)
Example publish_no_time :
  publish_line "nan" 7 0 0 (publish_seconds 5 5) =
    ("publish: sent=7 failed=0 pool_empty=0 elapsed=0.000s rate=7 msg/s" ++ newline)%string.
Proof. vm_compute. reflexivity. Qed.

Example ticker_percent :
  ticker_line "nan" 1 3 = ("ticker: missed_ticks=1 (33.33% of 3)" ++ newline)%string.
Proof. vm_compute. reflexivity. Qed.

(** [sent] is the number of rounds, also of the rounds that found the pool empty
    and published nothing. *)
Example sent_counts_rounds :
  publish_line "nan" 3 0 3 (publish_seconds 0 1000000000) =
    ("publish: sent=3 failed=0 pool_empty=3 elapsed=1.000s rate=3 msg/s" ++ newline)%string.
Proof. vm_compute. reflexivity. Qed.
