(* ===== verification/Testing.v ===== *)
(** * Testing

    The test framework (code/include/rdb/testing/check.h).  What a test does to
    the rest of the program is a state of any type; a test returns or throws. *)

From S2P Require Import Prelude Decimal Format.
Open Scope Z_scope.

(** What a C++ function can throw, as far as [run_all] tells it apart. *)
Inductive exception :=
  | AssertionFailure (message : string)
  | StdException (what : string)
  | OtherException.

(** A computation over the state [W] that returns or throws. *)
Definition may_throw (W A : Type) : Type := W -> (A + exception) * W.

Definition ret {W A} (a : A) : may_throw W A := fun w => (inl a, w).
Definition throw {W A} (x : exception) : may_throw W A := fun w => (inr x, w).
Definition bind {W A B} (m : may_throw W A) (f : A -> may_throw W B) : may_throw W B :=
  fun w => match m w with (inl a, w') => f a w' | (inr x, w') => (inr x, w') end.

(** ** The checks *)

Definition location (file : string) (line : Z) : string :=
  (file ++ ":" ++ dec_signed line)%string.

(** [RDB_CHECK] of a condition, with its text and where it stands. *)
Definition rdb_check {W} (file : string) (line : Z) (text : string) (cond : may_throw W bool)
  : may_throw W unit :=
  bind cond (fun b =>
    if b then ret tt
    else throw (AssertionFailure (location file line ++ " expected true: " ++ text)%string)).

(** [RDB_CHECK_EQ], [RDB_CHECK_LT], [RDB_CHECK_GE]: both sides, left first in the
    model (C++ leaves the order of [<] and [>=] open), then the comparison. *)
Definition rdb_compare {W A} (op : string) (holds : A -> A -> bool) (file : string) (line : Z)
    (lhs_text rhs_text : string) (lhs rhs : may_throw W A) : may_throw W unit :=
  bind lhs (fun l => bind rhs (fun r =>
    if holds l r then ret tt
    else throw (AssertionFailure
                  (location file line ++ " expected " ++ lhs_text ++ " " ++ op ++ " " ++ rhs_text)%string))).

Definition rdb_check_eq {W A} (eqb : A -> A -> bool) := @rdb_compare W A "==" eqb.
Definition rdb_check_lt {W} := @rdb_compare W Z "<" Z.ltb.
Definition rdb_check_ge {W} := @rdb_compare W Z ">=" Z.geb.

(** ** [wait_for] *)

(** A list of rounds: what the clock reads, and what [pred] answers if it is asked
    then.  The last question comes when the deadline has passed.  [None]: the
    rounds end before. *)
Fixpoint wait_loop (deadline : Z) (rounds : list (Z * (bool + exception))) : option (bool + exception) :=
  match rounds with
  | [] => None
  | (now, answer) :: rounds =>
      if now <? deadline then
        match answer with
        | inl false => wait_loop deadline rounds
        | _ => Some answer
        end
      else Some answer
  end.

(** With the timeout in milliseconds and the clock read before; [None] also when
    the deadline overflows. *)
Definition wait_for (timeout start : Z) (rounds : list (Z * (bool + exception)))
  : option (bool + exception) :=
  deadline ← tp_add start (timeout * 1000000);
  wait_loop deadline rounds.

(** ** The registry and [run_all] *)

Record TestCase (W : Type) := mkTestCase { tc_name : string; tc_fn : may_throw W unit }.
Arguments mkTestCase {W}.
Arguments tc_name {W}.
Arguments tc_fn {W}.

(** [Registrar]'s constructor: the registry grows at its end. *)
Definition Registrar {W} (registry : list (TestCase W)) (name : string) (fn : may_throw W unit)
  : list (TestCase W) :=
  registry ++ [mkTestCase name fn].

Definition pass_line (name : string) : string := ("[  PASS  ] " ++ name ++ newline)%string.
Definition fail_line (name what : string) : string :=
  ("[  FAIL  ] " ++ name ++ newline ++ "           " ++ what ++ newline)%string.
Definition throw_line (name what : string) : string :=
  ("[ THROW  ] " ++ name ++ newline ++ "           " ++ what ++ newline)%string.

(** The loop over the registry: the lines printed, and the number of failures;
    [None]: an exception that is not a [std::exception] leaves [run_all]. *)
Fixpoint run_tests {W} (cases : list (TestCase W)) (failed : Z) (out : string) (w : W)
  : option Z * string * W :=
  match cases with
  | [] => (Some failed, out, w)
  | tc :: cases =>
      match tc_fn tc w with
      | (inl _, w) => run_tests cases failed (out ++ pass_line (tc_name tc))%string w
      | (inr (AssertionFailure m), w) =>
          run_tests cases (failed + 1) (out ++ fail_line (tc_name tc) m)%string w
      | (inr (StdException m), w) =>
          run_tests cases (failed + 1) (out ++ throw_line (tc_name tc) m)%string w
      | (inr OtherException, w) => (None, out, w)
      end
  end.

(** The exit code and the output; [failed] is an [int]: it counts at most
    [2 ^ 31 - 1] failures ([None] beyond). *)
Definition run_all {W} (registry : list (TestCase W)) (w : W) : option Z * string * W :=
  match run_tests registry 0 EmptyString w with
  | (Some failed, out, w) =>
      if failed <? 2 ^ 31 then
        (Some (if failed =? 0 then 0 else 1),
         (out ++ dec_unsigned (zlen registry) ++ " tests, " ++ dec_signed failed ++ " failed" ++ newline)%string, w)
      else (None, out, w)
  | (None, out, w) => (None, out, w)
  end.

(** ** Properties *)

(** What each test does when the tests before it have run. *)
Fixpoint outcomes {W} (cases : list (TestCase W)) (w : W) : list (unit + exception) :=
  match cases with
  | [] => []
  | tc :: cases => (tc_fn tc w).1 :: outcomes cases (tc_fn tc w).2
  end.

Definition fails (o : unit + exception) : bool :=
  match o with inl _ => false | inr _ => true end.

Definition escapes (o : unit + exception) : bool :=
  match o with inr OtherException => true | _ => false end.

Section properties.
Context {W : Type}.
Implicit Types (cases : list (TestCase W)) (w : W) (pred : may_throw W bool).

Lemma run_tests_exact cases failed out w :
  (run_tests cases failed out w).1.1 =
    if existsb escapes (outcomes cases w) then None
    else Some (failed + Z.of_nat (countb fails (outcomes cases w))).
Proof.
  revert failed out w. induction cases as [|tc cases IH]; intros failed out w.
  { simpl. f_equal. unfold countb. simpl. lia. }
  cbn [run_tests outcomes existsb]. rewrite countb_cons.
  destruct (tc_fn tc w) as [[u|[m|m|]] w'] eqn:E; cbn [fst snd escapes fails orb]; [..|done];
    rewrite IH; destruct (existsb _ _); (done || f_equal; lia).
Qed.

Lemma outcomes_length cases w : length (outcomes cases w) = length cases.
Proof. revert w. induction cases as [|tc cases IH]; intros w; simpl; auto. Qed.

Lemma no_fails (l : list (unit + exception)) :
  countb fails l = 0%nat <-> Forall (fun o => fails o = false) l.
Proof.
  induction l as [|o l IH]; [done|]. rewrite countb_cons, Forall_cons, <-IH.
  destruct (fails o); split; intuition lia || done.
Qed.

Lemma escape_fails (l : list (unit + exception)) :
  existsb escapes l = true -> countb fails l <> 0%nat.
Proof.
  induction l as [|[u|[m|m|]] l IH]; [done|..]; rewrite countb_cons; simpl; try lia.
  intros H. by apply IH in H.
Qed.

(** A wait answers as soon as a round is at the deadline or says yes; it says no
    only at the deadline, after every earlier question was answered no. *)
Lemma wait_loop_false deadline rounds :
  wait_loop deadline rounds = Some (inl false) ->
  exists k now, rounds !! k = Some (now, inl false) /\ deadline <= now /\
    Forall (fun r => r.1 < deadline /\ r.2 = inl false) (take k rounds).
Proof.
  induction rounds as [|[now answer] rounds IH]; [done|]. cbn [wait_loop].
  destruct (Z.ltb_spec now deadline) as [Hlt|Hge].
  - destruct answer as [[]|x]; [done| |done]. intros H.
    destruct (IH H) as (k & t & Hk & Ht & Hf). exists (S k), t. split; [done|]. split; [done|].
    simpl. by constructor.
  - intros [= ->]. exists 0%nat, now. by repeat split; [|constructor].
Qed.

Lemma wait_loop_ends deadline rounds now answer :
  (now, answer) ∈ rounds -> deadline <= now -> is_Some (wait_loop deadline rounds).
Proof.
  induction rounds as [|[t a] rounds IH]; [by intros ?%elem_of_nil|].
  intros [[= <- <-]|Hin]%elem_of_cons Hd; cbn [wait_loop].
  - rewrite (proj2 (Z.ltb_ge _ _)) by done. eauto.
  - destruct (t <? deadline); [|eauto]. destruct a as [[]|x]; eauto.
Qed.

(** The exit code is right: the program reports success exactly when every
    test of the registry, run in the order of registration, returned; a test that
    throws, whatever it throws, is never taken for one that passed. *)
Theorem run_all_exact cases w :
  zlen cases < 2 ^ 31 ->
  ((run_all cases w).1.1 = Some 0 <-> Forall (fun o => fails o = false) (outcomes cases w)) /\
  ((run_all cases w).1.1 = None <-> existsb escapes (outcomes cases w) = true).
Proof.
  intros Hlen. pose proof (run_tests_exact cases 0 EmptyString w) as Hr.
  pose proof (outcomes_length cases w) as Hl. pose proof (no_fails (outcomes cases w)) as Hz.
  pose proof (escape_fails (outcomes cases w)) as He.
  pose proof (countb_le_length fails (outcomes cases w)) as Hc.
  unfold run_all, zlen in *. destruct (run_tests _ _ _ _) as [[r out] w']. cbn [fst] in Hr. subst r.
  rewrite <-Hz. destruct (existsb _ _); cbn [fst].
  - specialize (He eq_refl). split; split; done.
  - rewrite (proj2 (Z.ltb_lt _ _)) by lia. cbn [fst].
    destruct (Z.eqb_spec (0 + Z.of_nat (countb fails (outcomes cases w))) 0); split; split; (done || lia).
Qed.

End properties.

(** Three tests, the second of which fails. *)
Definition three : list (TestCase Z) :=
  Registrar (Registrar (Registrar [] "first" (fun n => (inl tt, n + 1)))
    "second" (rdb_check "a.cpp" 12 "n > 1" (fun n => (inl (1 <? n), n))))
    "third" (rdb_check_eq Z.eqb "a.cpp" 20 "n" "1" (fun n => (inl n, n)) (ret 1)).

Example three_output :
  run_all three 0 =
    (Some 1,
     ("[  PASS  ] first" ++ newline ++ "[  FAIL  ] second" ++ newline ++
      "           a.cpp:12 expected true: n > 1" ++ newline ++ "[  PASS  ] third" ++ newline ++
      "3 tests, 1 failed" ++ newline)%string, 1).
Proof. vm_compute. reflexivity. Qed.

Lemma run_all_exact_witness :
  ((run_all three 0).1.1 = Some 0 <-> Forall (fun o => fails o = false) (outcomes three 0)) /\
  ((run_all three 0).1.1 = None <-> existsb escapes (outcomes three 0) = true).
Proof. apply (run_all_exact three 0). reflexivity. Defined.
