(* ===== verification/UnitTests.v ===== *)
(** * UnitTests

    The repository's own unit tests (code/tests/), those that one thread runs
    and that draw no random numbers, as computations of [Testing] over the
    definitions of this development, registered in the order of their files; and
    the run of the registry, in which every check holds. *)

From stdpp Require Import strings.
From S2P Require Import Prelude Doubles Testing.
From S2P Require Qos Bytes Header Framing Histogram BoundedQueue SpscRing BufferPool.
Open Scope Z_scope.

(** ** Writing tests *)

Definition test : Type := may_throw unit unit.

Declare Scope test_scope.
Notation "'let*' x ':=' m 'in' k" := (bind m (fun x => k))
  (at level 10, x pattern, m at level 100, k at level 200) : test_scope.
Notation "m ;; k" := (bind m (fun _ => k))
  (at level 100, k at level 200, right associativity) : test_scope.
#[local] Open Scope test_scope.

#[local] Instance byte_eq_decision : EqDecision byte := Byte.byte_eq_dec.

Section checks.
Context {W : Type}.

(** [RDB_CHECK(cond)] on line [line]; [RDB_CHECK_EQ] of two integers. *)
Definition check (file : string) (line : Z) (cond : bool) : may_throw W unit :=
  rdb_check file line "cond" (ret cond).
Definition check_eq (file : string) (line : Z) (lhs rhs : Z) : may_throw W unit :=
  rdb_check_eq Z.eqb file line "lhs" "rhs" (ret lhs) (ret rhs).

Fixpoint for_each {A} (l : list A) (body : A -> may_throw W unit) : may_throw W unit :=
  match l with [] => ret tt | x :: l => body x ;; for_each l body end.

(** A computation of the model that the test relies on being defined. *)
Definition defined {A} (x : option A) : may_throw W A :=
  match x with Some a => ret a | None => throw OtherException end.

(** What the test reads of its object, and a call on it. *)
Definition observe {A} (f : W -> A) : may_throw W A := fun w => (inl (f w), w).
Definition call {A} (f : W -> option (W * A)) : may_throw W A :=
  fun w => match f w with Some (w', a) => (inl a, w') | None => (inr OtherException, w) end.

(** A test of an object of its own, made before. *)
Definition on_object (w : W) (body : may_throw W unit) : test := fun u => ((body w).1, u).
End checks.

(** ** test_qos.cpp *)

Module QosTests.
Import Qos.
Definition chk := @check unit "test_qos.cpp".
Definition answers (o r : QoS) (m : QosMismatch) : bool := bool_decide (check_compatible o r = m).
Definition with_reliability (r : Reliability) : QoS := mkQoS r Volatile KeepLast 10 0 0.
Definition with_deadline (d : Z) : QoS := mkQoS Reliable Volatile KeepLast 10 d 0.

Definition qos_reliability_follows_requested_offered_rule : test :=
  let reliable := with_reliability Reliable in
  let best_effort := with_reliability BestEffort in
  chk 17 (answers reliable reliable NoMismatch) ;;
  chk 18 (answers reliable best_effort NoMismatch) ;;
  chk 19 (answers best_effort best_effort NoMismatch) ;;
  chk 20 (answers best_effort reliable ReliabilityMismatch).

Definition qos_durability_follows_requested_offered_rule : test :=
  let transient := latched 1 in
  let volatile_qos := default_qos in
  chk 28 (answers transient volatile_qos NoMismatch) ;;
  chk 29 (answers transient transient NoMismatch) ;;
  chk 30 (answers volatile_qos transient DurabilityMismatch).

Definition qos_deadline_requires_publisher_to_be_at_least_as_fast : test :=
  let fast := with_deadline (10 * 1000000) in
  let slow := with_deadline (100 * 1000000) in
  let none := default_qos in
  chk 40 (answers fast slow NoMismatch) ;;
  chk 41 (answers slow fast DeadlineMismatch) ;;
  chk 42 (answers none fast DeadlineMismatch) ;;
  chk 43 (answers none none NoMismatch).

Definition qos_presets_have_expected_shape : test :=
  chk 47 (bool_decide (reliability (sensor_data 5) = BestEffort)) ;;
  chk 48 (bool_decide (reliability (command 10) = Reliable)) ;;
  chk 49 (bool_decide (durability (latched 1) = TransientLocal)) ;;
  check_eq "test_qos.cpp" 50 (depth (latched 3)) 3.
End QosTests.

(** ** test_histogram.cpp *)

Module HistogramTests.
Import Histogram.
Definition chk := @check unit "test_histogram.cpp".
Definition chk_eq := @check_eq unit "test_histogram.cpp".

Definition histogram_small_values_are_exact : test :=
  for_each (seqZ 0 kSubCount) (fun v =>
    chk_eq 15 (index_of v) v ;;
    chk_eq 16 (bucket_upper (index_of v)) v).

Definition histogram_bucket_bounds_are_consistent : test :=
  for_each (seqZ 6 57) (fun exp =>
    let base := u64 (Z.shiftl 1 exp) in
    for_each [base; base +u 1; base +u base / 3; 2 *u base -u 1] (fun v =>
      let idx := index_of v in
      chk 27 (idx <? kBucketCount) ;;
      let upper := bucket_upper idx in
      chk 29 (v <=? upper) ;;
      let error := double_div (to_double (upper -u v)) (to_double v) in
      chk 31 (SFltb error (double_div (to_double 2) (to_double 100))))).

Definition histogram_merge_combines_counts : test :=
  let a := recorded new_histogram (seqZ 1 1000) in
  let b := recorded new_histogram (seqZ 1001 1000) in
  let a := merge a b in
  chk_eq 71 (count a) 2000 ;;
  chk_eq 72 (min a) 1 ;;
  chk 73 (2000 <=? max a) ;;
  chk 74 (SFltb (to_double 900) (mean a) && SFltb (mean a) (to_double 1100)).

Definition histogram_reset_clears_state : test :=
  let h := reset (record new_histogram 42) in
  chk_eq 81 (count h) 0 ;;
  chk_eq 82 (percentile h (to_double 99)) 0.
End HistogramTests.

(** ** test_header.cpp *)

Module HeaderTests.
Import Header.
Definition chk := @check unit "test_header.cpp".
Definition chk_eq := @check_eq unit "test_header.cpp".

(** The bytes of a string literal. *)
Definition bytes_of (s : string) : list byte :=
  (fun c => Bytes.byte_of_Z (Z.of_nat (Ascii.nat_of_ascii c))) <$> String.list_ascii_of_string s.

Definition wire : list byte := replicate 48 x00.
Definition at_ (l : list byte) (i : nat) : may_throw unit Z := defined (Bytes.Z_of_byte <$> l !! i).

Definition header_round_trip : test :=
  let inp := mkHeader kMessageMagic kMessageVersion (Z.lor kFlagKeyFrame kFlagCompressed) 7
    (schema_fingerprint (bytes_of "ImuSample:u64 stamp_ns,f64[3] gyro,f64[3] accel"))
    0x0102030405060708 1234567890123 1234567890999 4096 0 in
  let* w := defined (encode_header inp wire) in
  let* (ok, out) := defined (decode_header w (zlen w) default_header) in
  chk 24 ok ;;
  chk_eq 25 (magic out) kMessageMagic ;;
  chk_eq 26 (version out) kMessageVersion ;;
  chk_eq 27 (flags out) (flags inp) ;;
  chk_eq 28 (schema_id out) (schema_id inp) ;;
  chk_eq 29 (schema_hash out) (schema_hash inp) ;;
  chk_eq 30 (seq out) (seq inp) ;;
  chk_eq 31 (stamp_ns out) (stamp_ns inp) ;;
  chk_eq 32 (publish_ns out) (publish_ns inp) ;;
  chk_eq 33 (payload_size out) (payload_size inp).

Definition header_is_little_endian_on_the_wire : test :=
  let inp := mkHeader kMessageMagic kMessageVersion kFlagNone 0 0 1 0 0 0 0 in
  let* w := defined (encode_header inp wire) in
  for_each [(41, 16%nat, 1); (42, 17%nat, 0); (44, 0%nat, 82); (45, 1%nat, 68); (46, 2%nat, 66); (47, 3%nat, 49)]
    (fun '(line, i, v) => let* b := at_ w i in chk_eq line b v).

Definition header_rejects_bad_input : test :=
  let* (truncated, out) := defined (decode_header wire (kHeaderSize - 1) default_header) in
  chk 55 (negb truncated) ;;
  let* (no_magic, out) := defined (decode_header wire kHeaderSize out) in
  chk 56 (negb no_magic) ;;
  let* w := defined (encode_header default_header wire) in
  let* (newer, out) := defined (decode_header (<[4%nat := Bytes.byte_of_Z 99]> w) kHeaderSize out) in
  chk 61 (negb newer).

Definition schema_fingerprint_detects_layout_change : test :=
  let a := schema_fingerprint (bytes_of "Pose:f64 x,f64 y,f64 theta") in
  let b := schema_fingerprint (bytes_of "Pose:f64 x,f64 y,f64 theta") in
  let c := schema_fingerprint (bytes_of "Pose:f64 x,f64 y,f32 theta") in
  chk_eq 68 a b ;;
  chk 69 (negb (a =? c)).
End HeaderTests.

(** ** test_framing.cpp *)

Module FramingTests.
Import Framing.
Definition chk {W} := @check W "test_framing.cpp".
Definition chk_eq {W} := @check_eq W "test_framing.cpp".
Definition bytes_of := HeaderTests.bytes_of.

Definition same (f : list byte) (s : string) : bool := bool_decide (f = bytes_of s).

(** [decoder.feed(data)], and [decoder.next(frame)] with the frame it leaves. *)
Definition fed (data : list byte) : may_throw FrameDecoder unit :=
  call (fun d => Some (feed d data, tt)).
Definition pull : may_throw FrameDecoder (bool * list byte) :=
  call (fun d => r ← next d []; Some (r.1.2, (r.1.1, r.2))).

Definition framing_round_trip_single_frame : test :=
  let payload := bytes_of "hello middleware" in
  let* wire := defined (encode_frame payload (length payload) []) in
  chk_eq 33 (zlen wire) (kFramePrefixSize + zlen payload) ;;
  on_object default_decoder (
    fed wire ;;
    let* (ok, frame) := pull in
    chk 38 ok ;;
    chk 39 (same frame "hello middleware") ;;
    let* (again, _) := pull in
    chk 40 (negb again) ;;
    let* e := observe error in
    chk 41 (negb e)).

Definition framing_handles_byte_by_byte_delivery : test :=
  let* wire := defined (encode_frames (bytes_of <$> ["frame-0"; "frame-1"; "frame-2"]%string) []) in
  let* (decoded, d) := defined (session default_decoder ((fun b => [b]) <$> wire)) in
  chk_eq 59 (zlen decoded) 3 ;;
  chk 60 (bool_decide (decoded !! 0%nat = Some (bytes_of "frame-0"))) ;;
  chk 61 (bool_decide (decoded !! 2%nat = Some (bytes_of "frame-2"))) ;;
  chk_eq 62 (frames_decoded d) 3.

Definition framing_handles_multiple_frames_in_one_read : test :=
  let* wire := defined (encode_frames ((fun n => replicate n x78) <$> seq 0 50) []) in
  let* (frames, d) := defined (session default_decoder [wire]) in
  for_each (imap (fun i f => (i, f)) frames) (fun r => chk_eq 77 (zlen r.2) (Z.of_nat r.1)) ;;
  chk_eq 80 (zlen frames) 50 ;;
  chk_eq 81 (buffered d) 0.

Definition framing_empty_payload_is_valid : test :=
  let* wire := defined (encode_frame [] 0 []) in
  on_object default_decoder (
    fed wire ;;
    let* (ok, frame) := pull in
    chk 90 ok ;;
    chk_eq 91 (zlen frame) 0).

Definition framing_rejects_oversized_length : test :=
  let payload := bytes_of "0123456789" in
  let* wire := defined (encode_frame payload (length payload) []) in
  on_object (new_decoder 4) (
    fed wire ;;
    let* (ok, _) := pull in
    chk 103 (negb ok) ;;
    let* e := observe error in
    chk 104 e).

Definition framing_detects_desync_by_magic : test :=
  on_object default_decoder (
    fed [x01; x02; x03; x04; x00; x00; x00; x00] ;;
    let* (ok, _) := pull in
    chk 114 (negb ok) ;;
    let* e := observe error in
    chk 115 e ;;
    call (fun d => Some (reset d, tt)) ;;
    let* e := observe error in
    chk 118 (negb e)).
End FramingTests.

(** ** test_bounded_queue.cpp *)

Module QueueTests.
Import BoundedQueue.
Definition chk := @check (BoundedQueue Z) "test_bounded_queue.cpp".
Definition chk_eq := @check_eq (BoundedQueue Z) "test_bounded_queue.cpp".

(** A call of a single thread: it may not sleep, for nobody would wake it. *)
Definition returns {R} (s : section Z R) : option (BoundedQueue Z * R) :=
  match sec_outcome s with Returned r => Some (sec_queue s, r) | Sleeps _ _ => None end.

Definition pushes (line v : Z) (st : PushStatus) : may_throw (BoundedQueue Z) unit :=
  let* r := call (fun q => returns (push q v)) in chk line (bool_decide (r = st)).
Definition try_pushes (line v : Z) (st : PushStatus) : may_throw (BoundedQueue Z) unit :=
  let* r := call (fun q => returns (try_push q v)) in chk line (bool_decide (r = st)).
Definition pops (line : Z) (v : option Z) : may_throw (BoundedQueue Z) unit :=
  let* r := call (fun q => returns (pop q)) in chk line (bool_decide (r = v)).

Definition bounded_queue_basic_fifo : test :=
  on_object (new_queue 4 Block) (
    let* c := observe capacity in chk_eq 13 c 4 ;;
    let* e := observe empty in chk 14 e ;;
    for_each (seqZ 0 4) (fun i => pushes 15 i Ok) ;;
    let* n := observe size in chk_eq 16 n 4 ;;
    for_each (seqZ 0 4) (fun i => pops 20 (Some i)) ;;
    let* e := observe empty in chk 22 e ;;
    let* h := observe high_water in chk_eq 23 h 4).

Definition bounded_queue_try_push_full_does_not_block : test :=
  on_object (new_queue 2 Block) (
    try_pushes 28 1 Ok ;; try_pushes 29 2 Ok ;; try_pushes 30 3 Full ;;
    let* n := observe size in chk_eq 31 n 2).

Definition bounded_queue_drop_newest_keeps_oldest : test :=
  on_object (new_queue 2 DropNewest) (
    pushes 36 1 Ok ;; pushes 37 2 Ok ;; pushes 38 3 DroppedNewest ;;
    let* n := observe dropped in chk_eq 39 n 1 ;;
    pops 40 (Some 1) ;; pops 41 (Some 2)).

Definition bounded_queue_drop_oldest_keeps_newest : test :=
  on_object (new_queue 2 DropOldest) (
    pushes 46 1 Ok ;; pushes 47 2 Ok ;; pushes 48 3 DroppedOldest ;;
    let* n := observe dropped in chk_eq 49 n 1 ;;
    pops 50 (Some 2) ;; pops 51 (Some 3)).

Definition bounded_queue_close_drains_then_ends : test :=
  on_object (new_queue 4 Block) (
    call (fun q => returns (push q 1)) ;; call (fun q => returns (push q 2)) ;;
    call (fun q => returns (close q)) ;;
    pushes 69 3 Closed ;; pops 70 (Some 1) ;; pops 71 (Some 2) ;; pops 72 None).
End QueueTests.

(** ** test_spsc_ring.cpp *)

Module RingTests.
Import SpscRing.
Definition chk {W} := @check W "test_spsc_ring.cpp".
Definition chk_eq {W} := @check_eq W "test_spsc_ring.cpp".
Definition ring (capacity : Z) : SpscRing Z := new_ring 0 capacity.

Definition pushes (line v : Z) (ok : bool) : may_throw (SpscRing Z) unit :=
  let* r := call (fun r => Some (push r v)) in chk line (Bool.eqb r ok).
Definition pops (line : Z) (v : option Z) : may_throw (SpscRing Z) unit :=
  let* r := call (pop (fun v => v)) in chk line (bool_decide (r = v)).

Definition spsc_ring_capacity_rounds_up_to_power_of_two : test :=
  chk_eq 12 (capacity (ring 5)) 8 ;;
  chk_eq 14 (capacity (ring 16)) 16.

Definition spsc_ring_push_pop_fifo_and_full : test :=
  on_object (ring 4) (
    for_each (seqZ 0 4) (fun i => pushes 19 i true) ;;
    pushes 20 99 false ;;
    let* n := observe size in chk_eq 21 n 4 ;;
    for_each (seqZ 0 4) (fun i => pops 26 (Some i)) ;;
    pops 28 None ;;
    let* e := observe empty in chk 29 e).

Definition spsc_ring_wraps_around : test :=
  on_object (ring 2) (
    for_each (seqZ 0 1000) (fun round => pushes 37 round true ;; pops 39 (Some round))).
End RingTests.

(** ** test_buffer_pool.cpp *)

Module PoolTests.
Import BufferPool.
Definition chk := @check pool_state "test_buffer_pool.cpp".
Definition chk_eq := @check_eq pool_state "test_buffer_pool.cpp".

(** One step of the test's thread. *)
Definition does (c : pool_command) : may_throw pool_state event := call (fun σ =>
  match pool_exec1 σ c with Some (e, σ') => Some (σ', e) | None => None end).

(** [pool->acquire()]: the handle, if any. *)
Definition acquires : may_throw pool_state (option nat) :=
  let* e := does PAcquire in ret (match e with EvAcquire h => h | _ => None end).

Definition resizes (line : Z) (h : nat) (n : Z) (ok : bool) : may_throw pool_state unit :=
  let* e := does (PResize h n) in
  chk line (match e with EvResize _ _ r => Bool.eqb r ok | _ => false end).

(** A handle goes: when it is the last one its deleter runs to its end. *)
Definition drops (h : nat) : may_throw pool_state unit :=
  let* before := observe (fun σ => length (ps_deleters σ)) in
  does (PDrop h) ;;
  let* after := observe (fun σ => length (ps_deleters σ)) in
  for_each (seq before (after - before))
    (fun i => for_each [1; 2; 3] (fun _ =>
       let* d := observe (fun σ => ps_deleters σ !! i) in
       match d with Some DDone => ret tt | _ => does (PDelete i) ;; ret tt end)).

Definition pool_eq (line : Z) (f : BufferPool -> Z) (n : Z) : may_throw pool_state unit :=
  let* p := observe ps_pool in let* p := defined p in chk_eq line (f p) n.

Definition buffer_eq (line : Z) (h : nat) (f : Buffer -> Z) (n : Z) : may_throw pool_state unit :=
  let* b := observe (fun σ => hd ← ps_handles σ !! h; b ← ps_buffers σ !! h_buffer hd; b) in
  let* b := defined b in chk_eq line (f b) n.

Definition buffer_pool_acquire_and_return : test :=
  on_object (create 1024 4) (
    pool_eq 13 available 4 ;;
    let* h := acquires in
    chk 16 (bool_decide (h = Some 0%nat)) ;;
    buffer_eq 17 0 capacity 1024 ;; buffer_eq 18 0 size 0 ;;
    resizes 19 0 512 true ;; resizes 20 0 2048 false ;;
    pool_eq 21 available 3 ;; pool_eq 22 in_use 1 ;;
    drops 0 ;;
    pool_eq 24 available 4).

Definition buffer_pool_exhaustion_is_visible : test :=
  on_object (create 64 2) (
    let* a := acquires in let* b := acquires in let* c := acquires in
    chk 33 (bool_decide (is_Some a)) ;; chk 34 (bool_decide (is_Some b)) ;;
    chk 35 (bool_decide (c = None)) ;;
    pool_eq 36 exhausted_count 1 ;;
    drops 0 ;;
    let* d := acquires in chk 40 (bool_decide (is_Some d))).

(** The three copies name the same handle, so the same bytes. *)
Definition buffer_pool_fanout_shares_one_copy : test :=
  on_object (create 256 1) (
    let* producer := acquires in chk 47 (bool_decide (producer = Some 0%nat)) ;;
    does (PResize 0 4) ;;
    for_each [1; 2; 3] (fun _ => does (PCopy 0) ;; ret tt) ;;
    drops 0 ;;
    pool_eq 58 available 0 ;;
    for_each [1; 2; 3] (fun _ => drops 0) ;;
    pool_eq 60 available 1).

Definition buffer_pool_handle_outlives_pool : test :=
  on_object (create 32 1) (
    let* h := acquires in chk 68 (bool_decide (is_Some h)) ;;
    does PDropPool ;;
    resizes 70 0 16 true ;;
    drops 0).
End PoolTests.
