(* ===== verification/ThreadUnitTests.v ===== *)
(** * ThreadUnitTests

    The unit tests of the queue and of the thread pool that run threads
    (code/tests/test_bounded_queue.cpp, code/tests/test_thread_pool.cpp), each
    under one schedule.  A blocked call lets the others run.  The three tests that
    move thousands of elements are not here: what they try is proved for every
    schedule. *)

From stdpp Require Import strings.
From S2P Require Import Prelude Lts Testing UnitTests.
From S2P Require Import BoundedQueue QueueSystem TaskQueue ThreadPool Futures.
Open Scope Z_scope.
#[local] Open Scope test_scope.

Definition milliseconds (n : Z) : Z := n * 1000000.

(** ** test_bounded_queue.cpp *)

Module QueueThreads.

(** The test is thread 0. *)
Definition chk := @check (system Z) "test_bounded_queue.cpp".
Definition started (threads : nat) (q : BoundedQueue Z) : system Z := mkSystem q (replicate threads Idle) 0.

Definition does (c : QueueSystem.command Z) : may_throw (system Z) (QueueSystem.event Z) :=
  call (fun w => match queue_exec1 w c with Some (e, w') => Some (w', e) | None => None end).

(** What a call answered; [None] if it sleeps. *)
Definition pop_answer (e : QueueSystem.event Z) : option (option Z) :=
  match e with EvPop _ _ s => match sec_outcome s with Returned r => Some r | _ => None end | _ => None end.
Definition push_answer (e : QueueSystem.event Z) : option PushStatus :=
  match e with EvPush _ _ _ s => match sec_outcome s with Returned r => Some r | _ => None end | _ => None end.

(** [close], with both of its notifications. *)
Definition closes (i : nat) : may_throw (system Z) unit :=
  does (CClose i) ;; does (CCloseNext i) ;; does (CCloseNext i) ;; does (CCloseNext i) ;; ret tt.

Definition bounded_queue_pop_timeout_returns_nullopt : test :=
  on_object (started 1 (new_queue 2 Block)) (
    let* start := observe sys_clock in
    does (CPop 0 (start + milliseconds 20)) ;; does (CTick (milliseconds 20)) ;;
    let* e := does (CTimeout 0) in
    let* stop := observe sys_clock in
    chk 59 (bool_decide (pop_answer e = Some None)) ;;
    chk 60 (milliseconds 15 <=? stop - start)).

Definition bounded_queue_close_wakes_blocked_consumer : test :=
  on_object (started 2 (new_queue 2 Block)) (
    does (CPop 1 tp_max) ;; does (CTick (milliseconds 10)) ;;
    closes 0 ;;
    let* e := does (CResume 1) in
    chk 85 (bool_decide (pop_answer e = Some None))).

Definition bounded_queue_close_wakes_blocked_producer : test :=
  on_object (started 2 (new_queue 1 Block)) (
    let* e := does (CPush 0 1 tp_max) in chk 90 (bool_decide (push_answer e = Some Ok)) ;;
    does (CPush 1 2 tp_max) ;; does (CTick (milliseconds 10)) ;;
    closes 0 ;;
    let* e := does (CResume 1) in
    chk 96 (bool_decide (push_answer e = Some Closed))).
End QueueThreads.

(** ** test_thread_pool.cpp *)

(** Task [id] adds one to the test's counter, if it is not negative. *)
Module PoolThreads.
Definition world : Type := Futures (BoundedQueue job) Z unit * Z.
Definition pool_test : Type := may_throw world unit.
Definition chk := @check world "test_thread_pool.cpp".
Definition chk_eq := @check_eq world "test_thread_pool.cpp".

Definition ends_in (w : world) (e : fevent Z unit) (f : Futures (BoundedQueue job) Z unit) : world :=
  (f, match e with FPosted id => if 0 <=? id then w.2 + 1 else w.2 | _ => w.2 end).

Definition step_with (c : fcommand Z unit) (w : world) : option (world * fevent Z unit) :=
  match futures_exec1 w.1 c with Some (e, f) => Some (ends_in w e f, e) | None => None end.
Definition does (c : fcommand Z unit) : may_throw world (fevent Z unit) := call (step_with c).

(** A step of worker [i], if it has one. *)
Definition worker_runs (i : nat) : pool_test :=
  fun w => match step_with (CWork i (Value 42)) w with Some (w', _) => (inl tt, w') | None => (inl tt, w) end.

Definition worker_ends (fuel : nat) (i : nat) : pool_test :=
  for_each (seqZ 0 (Z.of_nat fuel)) (fun _ => worker_runs i).

(** [pool.post]: while it blocks, worker [i] runs. *)
Fixpoint posts (fuel i : nat) (id : Z) : may_throw world bool :=
  match fuel with
  | O => throw OtherException
  | S fuel => fun w =>
      match step_with (CPost id) w with
      | Some (w', FPost _ ok) => (inl ok, w')
      | _ => (worker_runs i ;; posts fuel i id) w
      end
  end.

Definition try_posts (id : Z) : may_throw world bool :=
  let* e := does (CTryPost id) in match e with FPost _ ok => ret ok | _ => throw OtherException end.

(** [pool.stop(drain)]: the workers run until they have exited, each as long as
    there is work for [fuel] steps. *)
Definition stops (fuel : nat) (drain : bool) : pool_test :=
  let* e := does (CPool (TStop drain)) in
  match e with
  | FPool (EvStop _ true) =>
      (if drain then ret tt else does (CPool TStopNext) ;; ret tt) ;;
      does (CPool TStopNext) ;;
      let* n := observe (fun w => thread_count (f_pool w.1)) in
      for_each (seqZ 0 n) (fun i => worker_ends fuel (Z.to_nat i)) ;;
      does (CPool TStopNext) ;; ret tt
  | _ => ret tt
  end.

(** A test of a pool of its own, destroyed at the end. *)
Definition with_pool (threads capacity : Z) (body : pool_test) : test :=
  on_object (new_futures threads (task_queue capacity), 0) (body ;; stops 300 true).

Definition counter : may_throw world Z := observe snd.

Definition thread_pool_submit_returns_future : test := with_pool 2 16 (
  let* e := does CSubmit in
  chk 14 (match e with FSubmit _ ok => ok | _ => false end) ;;
  does (CWork 1 (Value 0)) ;; does (CWork 1 (Value 0)) ;; does (CWork 1 (Value (20 + 22))) ;;
  let* r := observe (fun w => get w.1 0) in
  match r with Some (Some (Value v)) => chk_eq 15 v 42 | _ => throw OtherException end).

(** The first task spins until the test releases it. *)
Definition thread_pool_try_post_rejects_when_saturated : test := with_pool 1 2 (
  let* ok := posts 1 0 (-1) in chk 34 ok ;;
  does (CWork 0 (Value 0)) ;; does (CWork 0 (Value 0)) ;;
  let fix try (n : nat) (accepted rejected : Z) : may_throw world (Z * Z) :=
    match n with
    | O => ret (accepted, rejected)
    | S n => let* ok := try_posts 0 in
             if ok then try n (accepted + 1) rejected else try n accepted (rejected + 1)
    end in
  let* r := try 20%nat 0 0 in
  stops 20 true ;;
  chk 52 (0 <? r.2) ;; chk 53 (r.1 <=? 3)).

Definition thread_pool_stop_without_drain_discards_pending : test := with_pool 1 256 (
  posts 1 0 (-1) ;; does (CWork 0 (Value 0)) ;; does (CWork 0 (Value 0)) ;;
  for_each (seqZ 0 100) (fun i => try_posts i ;; ret tt) ;;
  stops 20 false ;;
  let* n := counter in chk_eq 77 n 0).

(** The pool is gone when the counter is read. *)
Definition thread_pool_destructor_drains : test := with_pool 3 64 (
  for_each (seqZ 0 500) (fun i => posts 5 (Z.to_nat (i mod 3)) i ;; ret tt) ;;
  stops 300 true ;;
  let* n := counter in chk_eq 88 n 500).
End PoolThreads.
