(* ===== verification/BusUnitTests.v ===== *)
(** * BusUnitTests

    The unit tests of the bus (code/tests/test_topic_bus.cpp), each under one
    schedule of its threads: the test's own thread is client 0, and the workers
    run when the test waits for them. *)

From stdpp Require Import strings.
From S2P Require Import Prelude Lts Testing UnitTests.
From S2P Require ThreadUnitTests.
From S2P Require Import BoundedQueue TopicBus BusSystem BusScheduler Qos.
Open Scope Z_scope.
#[local] Open Scope test_scope.

(** ** Driving the bus *)

(** What has happened so far, and the state. *)
Definition bus_world : Type := list event * bus_state.
Definition bus_test : Type := may_throw bus_world unit.

Definition chk := @check bus_world "test_topic_bus.cpp".
Definition chk_eq := @check_eq bus_world "test_topic_bus.cpp".

Definition new_world : bus_world := ([], bus_init 1 1000).

Definition step_with (c : BusScheduler.command) (w : bus_world) : option bus_world :=
  match bus_exec1 w.2 c with Some (e, σ) => Some (w.1 ++ [e], σ) | None => None end.

(** One step, which must be possible. *)
Definition does (c : BusScheduler.command) : bus_test :=
  call (fun w => match step_with c w with Some w' => Some (w', tt) | None => None end).

(** [c] again and again, while it can. *)
Fixpoint while_can (fuel : nat) (c : BusScheduler.command) : bus_test :=
  match fuel with
  | O => throw OtherException
  | S fuel => fun w =>
      match step_with c w with Some w' => while_can fuel c w' | None => (inl tt, w) end
  end.

(** Client 0 runs until it waits or is idle; a worker, until it waits or ends. *)
Definition client_runs : bus_test := while_can 200 (BNext 0).
Definition worker_runs (id : nat) : bus_test := while_can 2000 (BWork id).

Definition subscribes (t : string) (ty : Z) (q : QoS) : bus_test :=
  does (BSubscribe 0 t ty q) ;; client_runs.

(** [publisher.publish(message)]: what it returns. *)
Definition publish (p : Publisher) (message : Z) : may_throw bus_world bool :=
  does (BPublish 0 p message) ;; client_runs ;;
  let* e := observe (fun w => last w.1) in
  match e with
  | Some (EvPublished _ acc) => ret acc
  | Some (EvReject _) => ret false
  | _ => throw OtherException
  end.

(** The payloads of the callbacks of subscription [id], in order. *)
Definition seen (id : nat) : may_throw bus_world (list Z) :=
  observe (fun w => omap (fun ev => match ev with
    | EvCallback id' e _ => if (id' =? id)%nat then Some (payload e) else None
    | _ => None end) w.1).

Definition stat (id : nat) (f : SubscriberStats -> Z) : may_throw bus_world Z :=
  observe (fun w => f (stats (heap (bs_bus w.2) !! id))).

Definition clock : may_throw bus_world Z := observe (fun w => bs_clock w.2).

Definition ms (n : Z) : Z := n * 1000000.

(** [TopicBus bus; auto publisher = bus.advertise<T>(topic, qos);] *)
Definition advertises (t : string) (ty : Z) (q : QoS) : may_throw bus_world Publisher :=
  does (BAdvertise 0 t ty q) ;; ret (mkPublisher true t ty q).

(** A test of a bus of its own. *)
Definition with_bus (body : bus_test) : test := on_object new_world body.

(** ** The tests *)

Definition topic_bus_delivers_to_every_subscriber : test := with_bus (
  let* publisher := advertises "imu" 1 (command 32) in
  subscribes "imu" 1 (command 256) ;; subscribes "imu" 1 (command 256) ;;
  let* n := observe (fun w => publisher_subscriber_count (bs_bus w.2) publisher) in chk_eq 36 n 2 ;;
  for_each (seqZ 0 100) (fun i => let* ok := publish publisher i in chk 39 ok) ;;
  worker_runs 0 ;; worker_runs 1 ;;
  let* a := seen 0 in let* b := seen 1 in
  chk 41 ((length a =? 100)%nat && (length b =? 100)%nat) ;;
  let* n := stat 0 st_delivered in chk_eq 42 n 100 ;;
  let* n := stat 1 st_dropped in chk_eq 43 n 0).

Definition topic_bus_fanout_shares_payload : test := with_bus (
  let* publisher := advertises "imu" 1 (command 32) in
  subscribes "imu" 1 (command 32) ;; subscribes "imu" 1 (command 32) ;;
  let* ok := publish publisher 4711 in chk 61 ok ;;
  worker_runs 0 ;; worker_runs 1 ;;
  let* a := seen 0 in let* b := seen 1 in
  chk 62 (negb (bool_decide (a = [])) && negb (bool_decide (b = []))) ;;
  chk 63 (bool_decide (a = [4711])) ;; chk 64 (bool_decide (b = [4711]))).

(** The slow worker takes one message and stays in its callback. *)
Definition topic_bus_slow_subscriber_does_not_block_others : test := with_bus (
  let* publisher := advertises "image" 1 (sensor_data 4) in
  subscribes "image" 1 (sensor_data 4) ;; subscribes "image" 1 (sensor_data 64) ;;
  let* start := clock in
  publish publisher 0 ;; does (BWork 0) ;; does (BWork 0) ;;
  for_each (seqZ 1 49) (fun i => publish publisher i ;; ret tt) ;;
  let* stop := clock in chk 89 (stop - start <? ms 300) ;;
  worker_runs 1 ;;
  let* fast := seen 1 in chk 90 (length fast =? 50)%nat ;;
  let* n := stat 0 st_dropped in chk 91 (0 <? n) ;;
  let* n := stat 1 st_dropped in chk_eq 92 n 0).

Definition topic_bus_reliable_publish_times_out_instead_of_hanging : test := with_bus (
  does (BReliableTimeout 0 (ms 30)) ;;
  let* publisher := advertises "cmd" 1 (command 2) in
  subscribes "cmd" 1 (command 2) ;;
  let* ok := publish publisher 1 in chk 109 ok ;;
  does (BWork 0) ;; does (BWork 0) ;;
  let* entered := seen 0 in chk 110 (bool_decide (entered = [1])) ;;
  let* ok := publish publisher 2 in chk 111 ok ;;
  let* ok := publish publisher 3 in chk 112 ok ;;
  let* start := clock in
  (* client 0 blocks in its push, until the time is up *)
  does (BPublish 0 publisher 4) ;; does (BNext 0) ;; does (BNext 0) ;; does (BNext 0) ;;
  does (BTick (ms 30)) ;; does (BTimeout 0) ;; client_runs ;;
  let* e := observe (fun w => last w.1) in
  let* stop := clock in
  chk 117 (match e with Some (EvPublished _ acc) => negb acc | _ => false end) ;;
  chk 118 (ms 20 <=? stop - start) ;; chk 119 (stop - start <? ms 500) ;;
  does (BWork 0) ;;
  does (BShutdown 0) ;; client_runs ;; worker_runs 0 ;; client_runs ;;
  let* c := observe (fun w => bs_clients w.2) in
  match c with [CIdle] => ret tt | _ => throw OtherException end).

Definition topic_bus_transient_local_serves_late_joiner : test := with_bus (
  let* publisher := advertises "map" 1 (latched 3) in
  for_each (seqZ 0 5) (fun i => publish publisher i ;; ret tt) ;;
  subscribes "map" 1 (latched 10) ;; subscribes "map" 1 (command 32) ;;
  worker_runs 0 ;; worker_runs 1 ;;
  let* late := seen 0 in chk 144 (length late =? 3)%nat ;;
  let* volatile := seen 1 in chk 148 (length volatile =? 0)%nat ;;
  publish publisher 99 ;; worker_runs 1 ;; worker_runs 0 ;;
  let* volatile := seen 1 in chk 151 (length volatile =? 1)%nat ;;
  let* late := seen 0 in chk 152 (bool_decide (late = [2; 3; 4; 99])) ;;
  let* fresh := observe (fun w => heap (bs_bus w.2) !! 1%nat) in chk 156 (handle_valid fresh)).

Definition topic_bus_qos_mismatch_is_reported_not_silent : test := with_bus (
  does (BHandler 0 (Some 1)) ;;
  let* publisher := advertises "lidar" 1 (sensor_data 5) in
  subscribes "lidar" 1 (command 32) ;;
  for_each (seqZ 0 10) (fun i => publish publisher i ;; ret tt) ;;
  worker_runs 0 ;;
  let* n := stat 0 st_qos_rejected in chk 174 (n =? 10) ;;
  let* got := seen 0 in chk 175 (length got =? 0)%nat ;;
  let* n := observe (fun w => qos_mismatch_count (bs_bus w.2)) in chk_eq 176 n 10 ;;
  let* n := observe (fun w => countb (fun ev => match ev with
              | EvHandler (Some _) _ ReliabilityMismatch => true | _ => false end) w.1) in
  chk_eq 177 (Z.of_nat n) 1).

(** Type 1 is [int], type 2 is [double]; a refused subscribe makes no subscription. *)
Definition topic_bus_rejects_type_mismatch_on_same_topic : test := with_bus (
  let* int_publisher := advertises "shared" 1 (command 32) in
  subscribes "shared" 2 (command 32) ;;
  let* bad_sub := observe (fun w => heap (bs_bus w.2) !! 0%nat) in
  chk 185 (negb (handle_valid bad_sub)) ;;
  let* bad_publisher := advertises "shared" 2 (command 32) in
  let* ok := publish bad_publisher 1 in chk 188 (negb ok) ;;
  let* n := observe (fun w => type_mismatch_count (bs_bus w.2)) in chk_eq 189 n 1 ;;
  let* ok := publish int_publisher 7 in chk 190 ok).

(** [unsubscribe] empties the caller's handle, which the model leaves out (line
    204). *)
Definition topic_bus_unsubscribe_stops_delivery : test := with_bus (
  let* publisher := advertises "odom" 1 (command 32) in
  subscribes "odom" 1 (command 32) ;;
  publish publisher 1 ;; worker_runs 0 ;;
  let* count := seen 0 in chk 201 (length count =? 1)%nat ;;
  does (BUnsubscribe 0 0) ;; client_runs ;; worker_runs 0 ;; client_runs ;;
  let* n := observe (fun w => publisher_subscriber_count (bs_bus w.2) publisher) in chk_eq 205 n 0 ;;
  publish publisher 2 ;; does (BTick (ms 30)) ;; worker_runs 0 ;;
  let* count := seen 0 in chk_eq 209 (zlen count) 1).

Definition topic_bus_lifespan_drops_stale_messages : test := with_bus (
  let* publisher := advertises "stale" 1 (command 32) in
  let sub_qos := mkQoS Reliable Volatile KeepLast 32 0 (ms 5) in
  subscribes "stale" 1 sub_qos ;;
  publish publisher 0 ;; does (BWork 0) ;; does (BWork 0) ;;
  for_each (seqZ 1 9) (fun i => publish publisher i ;; ret tt) ;;
  does (BTick (ms 60)) ;; does (BWork 0) ;; worker_runs 0 ;;
  let* n := stat 0 st_expired in chk 235 (n =? 9) ;;
  let* delivered := seen 0 in chk_eq 236 (zlen delivered) 1).

(** ** The registry *)

Definition registry : list (TestCase unit) :=
  foldl (fun reg c => Registrar reg c.1 c.2) []
    [("bounded_queue_basic_fifo", QueueTests.bounded_queue_basic_fifo);
     ("bounded_queue_try_push_full_does_not_block", QueueTests.bounded_queue_try_push_full_does_not_block);
     ("bounded_queue_drop_newest_keeps_oldest", QueueTests.bounded_queue_drop_newest_keeps_oldest);
     ("bounded_queue_drop_oldest_keeps_newest", QueueTests.bounded_queue_drop_oldest_keeps_newest);
     ("bounded_queue_pop_timeout_returns_nullopt",
      ThreadUnitTests.QueueThreads.bounded_queue_pop_timeout_returns_nullopt);
     ("bounded_queue_close_drains_then_ends", QueueTests.bounded_queue_close_drains_then_ends);
     ("bounded_queue_close_wakes_blocked_consumer",
      ThreadUnitTests.QueueThreads.bounded_queue_close_wakes_blocked_consumer);
     ("bounded_queue_close_wakes_blocked_producer",
      ThreadUnitTests.QueueThreads.bounded_queue_close_wakes_blocked_producer);
     ("buffer_pool_acquire_and_return", PoolTests.buffer_pool_acquire_and_return);
     ("buffer_pool_exhaustion_is_visible", PoolTests.buffer_pool_exhaustion_is_visible);
     ("buffer_pool_fanout_shares_one_copy", PoolTests.buffer_pool_fanout_shares_one_copy);
     ("buffer_pool_handle_outlives_pool", PoolTests.buffer_pool_handle_outlives_pool);
     ("framing_round_trip_single_frame", FramingTests.framing_round_trip_single_frame);
     ("framing_handles_byte_by_byte_delivery", FramingTests.framing_handles_byte_by_byte_delivery);
     ("framing_handles_multiple_frames_in_one_read", FramingTests.framing_handles_multiple_frames_in_one_read);
     ("framing_empty_payload_is_valid", FramingTests.framing_empty_payload_is_valid);
     ("framing_rejects_oversized_length", FramingTests.framing_rejects_oversized_length);
     ("framing_detects_desync_by_magic", FramingTests.framing_detects_desync_by_magic);
     ("header_round_trip", HeaderTests.header_round_trip);
     ("header_is_little_endian_on_the_wire", HeaderTests.header_is_little_endian_on_the_wire);
     ("header_rejects_bad_input", HeaderTests.header_rejects_bad_input);
     ("schema_fingerprint_detects_layout_change", HeaderTests.schema_fingerprint_detects_layout_change);
     ("histogram_small_values_are_exact", HistogramTests.histogram_small_values_are_exact);
     ("histogram_bucket_bounds_are_consistent", HistogramTests.histogram_bucket_bounds_are_consistent);
     ("histogram_merge_combines_counts", HistogramTests.histogram_merge_combines_counts);
     ("histogram_reset_clears_state", HistogramTests.histogram_reset_clears_state);
     ("qos_reliability_follows_requested_offered_rule", QosTests.qos_reliability_follows_requested_offered_rule);
     ("qos_durability_follows_requested_offered_rule", QosTests.qos_durability_follows_requested_offered_rule);
     ("qos_deadline_requires_publisher_to_be_at_least_as_fast",
      QosTests.qos_deadline_requires_publisher_to_be_at_least_as_fast);
     ("qos_presets_have_expected_shape", QosTests.qos_presets_have_expected_shape);
     ("spsc_ring_capacity_rounds_up_to_power_of_two", RingTests.spsc_ring_capacity_rounds_up_to_power_of_two);
     ("spsc_ring_push_pop_fifo_and_full", RingTests.spsc_ring_push_pop_fifo_and_full);
     ("spsc_ring_wraps_around", RingTests.spsc_ring_wraps_around);
     ("thread_pool_submit_returns_future", ThreadUnitTests.PoolThreads.thread_pool_submit_returns_future);
     ("thread_pool_try_post_rejects_when_saturated",
      ThreadUnitTests.PoolThreads.thread_pool_try_post_rejects_when_saturated);
     ("thread_pool_stop_without_drain_discards_pending",
      ThreadUnitTests.PoolThreads.thread_pool_stop_without_drain_discards_pending);
     ("thread_pool_destructor_drains", ThreadUnitTests.PoolThreads.thread_pool_destructor_drains);
     ("topic_bus_delivers_to_every_subscriber", topic_bus_delivers_to_every_subscriber);
     ("topic_bus_fanout_shares_payload", topic_bus_fanout_shares_payload);
     ("topic_bus_slow_subscriber_does_not_block_others", topic_bus_slow_subscriber_does_not_block_others);
     ("topic_bus_reliable_publish_times_out_instead_of_hanging",
      topic_bus_reliable_publish_times_out_instead_of_hanging);
     ("topic_bus_transient_local_serves_late_joiner", topic_bus_transient_local_serves_late_joiner);
     ("topic_bus_qos_mismatch_is_reported_not_silent", topic_bus_qos_mismatch_is_reported_not_silent);
     ("topic_bus_rejects_type_mismatch_on_same_topic", topic_bus_rejects_type_mismatch_on_same_topic);
     ("topic_bus_unsubscribe_stops_delivery", topic_bus_unsubscribe_stops_delivery);
     ("topic_bus_lifespan_drops_stale_messages", topic_bus_lifespan_drops_stale_messages)]%string.

(** Which tests fail, by name. *)
Definition failing : list string :=
  fst <$> filter (fun r => fails r.2 = true) (zip (tc_name <$> registry) (outcomes registry tt)).

Example nothing_fails : failing = [].
Proof. vm_compute. reflexivity. Qed.

(** The program of code/tests/ returns success. *)
Example unit_tests_pass : (run_all registry tt).1.1 = Some 0.
Proof. vm_compute. reflexivity. Qed.
